(* ===== verification/_CoqProject ===== *)
-Q . S2P
Prelude.v
ValueCountMap.v
Backend.v
ObjectOps.v
DataTypes.v
ArchiveQueueShard.v
ArchiveQueue.v
ArchiveQueueSpec.v
ArchiveQueueTheorems.v
ArchiveQueueReads.v
ArchiveQueueRebuild.v
ArchiveQueueExamples.v
Checksum.v
ArchiveFile.v
ArchiveRequest.v
ArchiveRequestSpec.v
ArchiveReport.v
ArchiveRequestExamples.v
ProtoAlgorithms.v
Handles.v
Agent.v
AgentQueue.v
Registers.v
RegistersSpec.v
RetrieveActivity.v
RetrieveQueueShard.v
RetrieveShardSpec.v
RetrievePlan.v
RetrievePlanSpec.v
RetrieveQueue.v
RetrieveSplit.v
RetrieveQueueExamples.v
RootEntry.v
RootEntrySpec.v
RootEntryTheorems.v
RootEntryExamples.v
AgentLife.v
AgentLifeSpec.v
AgentLifeExamples.v
RetrieveRequest.v
RetrieveRequestSpec.v
RetrieveRequestExamples.v
AgentWrapper.v
RepackRequest.v
RepackRequestSpec.v
RepackSubrequests.v
RepackRequestExamples.v
Helpers.v
HelpersSpec.v
RetrieveCache.v
RetrieveCacheSpec.v
HelpersExamples.v
Algorithms.v
AlgorithmsSpec.v
QueueTraits.v
QueueTraitsSpec.v
QueueTraitsExamples.v
Collect.v
CollectSpec.v
CollectExamples.v
RetrieveTraits.v
Sorter.v
SorterSpec.v
RetrieveCollect.v
GenericObject.v
OwnedObjects.v
Watchdog.v
GarbageCollector.v
WatchdogSpec.v
OwnedObjectsSpec.v
GarbageCollectorSpec.v
GarbageCollectorExamples.v
Mounts.v
MountsSpec.v
Scheduling.v
SchedulingSpec.v
DriveStates.v
DriveStatesSpec.v
MountInfo.v
SchedulingExamples.v
