(* ===== verification/Prelude.v ===== *)
(** * Verification of the CERN Tape Archive (CTA) scheduler

    CTA archives files of a disk system to tape and retrieves them.  The state of
    its scheduler (requests, queues of jobs, the processes that work on them)
    lives in an object store shared by all front ends and tape servers.  This
    library models the C++ code of that store, [src/CTA/objectstore], with the
    data structures of [src/CTA/common] that it keeps in its objects, and the part of
    [src/CTA/scheduler] that decides which tape a drive mounts next; it proves what
    the operations do, and where that is not what the code means to do.

    ** The parts of the program and how they interact

    - A _back end_ ([Backend.hpp]) maps object names to contents, with locks.
    - An _object handle_ ([ObjectOps.hpp]) is the in-memory copy of one object.  A
      handle is locked, fetched, changed in memory and committed; the flags of the
      handle refuse any other order.
    - _Requests_ ([ArchiveRequest.cpp], [RetrieveRequest.cpp]) hold the jobs of a
      file, one per tape copy, with their status, owner and retry counters.  A
      repack reads a file with a retrieve request, which is then transformed into
      the archive request that writes it again; the _repack request_
      ([RepackRequest.cpp]) counts what becomes of these sub-requests.
    - _Queues_ ([ArchiveQueue.cpp], [RetrieveQueue.cpp]) list the jobs that wait for
      a tape pool or a tape.  A queue object holds summaries (counters of
      [ValueCountMap.hpp] and [RetrieveActivityCountMap.cpp]) and pointers to
      _shards_, which hold the jobs.
    - _Agents_ ([Agent.cpp], [AgentReference.cpp]) stand for processes and list the
      objects that a process owns, so that they can be recovered when it dies.
    - The _registers_ list agents, drives and repack requests, and the _root entry_
      ([RootEntry.cpp]) references the queues and registers.
    - The _helpers_ ([Helpers.cpp]) find or create a queue through the root entry and
      lock it, and choose the tape of a retrieve request.  The _queue algorithms_
      ([Algorithms.hpp]) move requests between an agent and a queue: they reference a
      request in its new place, change its owner, and drop the old reference.
    - The _sorter_ ([Sorter.cpp]) groups the jobs of requests by queue.  The _garbage
      collector_ ([GarbageCollector.cpp]) watches the heartbeats of the agents; it takes
      over one that is dead, puts the objects that it owned where they belong, and
      deletes it.
    - The _scheduler_ ([scheduler/Scheduler.cpp]) gives a drive its next mount: the
      _scheduler database_ ([scheduler/OStoreDB]) reads the potential mounts from the
      queues and the existing ones from the _states of the drives_
      ([TapeDrivesCatalogueState.cpp]), which are rows of the catalogue; the scheduler
      filters and sorts them, and the database creates the mount and starts the drive.

    Effects are those of the code: an operation on a handle is a function in the
    state and error monad [M] over the handle and the back end; it returns a value
    or a [Throw] with the exception of the code, together with the state reached
    when the exception was thrown, so that partial writes are visible.  Integers of
    the messages are [Z] at their width, with [u64], [u32] and [u16] where the code
    converts.

    ** Parameters

    The protocol-buffer library is not part of the repository.  The class
    [ObjectOps.Serializable] states what the code uses of it: parsing a serialised
    message gives the message.  [blob] at the end of [ObjectOps.v] is an instance,
    used by the witnesses.  The class [Backend.Backend] is the interface between
    the back end and the objects; the theorems on objects are proved against it,
    and [VFS_Backend] discharges it for the file system back end.  The class
    [Scheduling.SchedulerDatabase] is the interface between the scheduler and its
    database, which [MountInfo.ostoredb] implements.  The class [DriveStates.DriveTable]
    has the SQL statements on the table of the drives, and [DriveTableLaws] what they
    do, their texts naming every column; [SchedulingExamples.table_laws] is an instance.  The other functions of the catalogue
    are the record [Mounts.Catalogue].  [std::sort] is a parameter with the hypothesis
    [SchedulingSpec.sorts]: on a list that the comparison orders weakly, a sorted
    permutation.  The texts of time stamps, host and user names that enter new
    addresses are arguments.  The catalogue of [RetrieveCache] and the random index are
    arguments too.

    ** Files

    Foundations:
    - [Prelude]: integers, exceptions, the monads, list lemmas, automation.
    - [ValueCountMap]: [ValueCountMap.hpp], [.cpp].
    - [Backend]: [Backend.hpp], [BackendVFS.cpp].
    - [ObjectOps]: [ObjectOps.hpp], with locks, and [AgentReference::nextId].
    - [DataTypes], [ArchiveFile], [Checksum]: [common/dataStructures],
      [common/checksum] and their [SerDeser] headers.
    - [ProtoAlgorithms]: [ProtocolBuffersAlgorithms.hpp], and the repeated fields
      used as association lists.
    - [Handles]: handles of other objects opened inside an operation.

    Archive queues: [ArchiveQueueShard] and [ArchiveQueue] translate the code;
    [ArchiveQueueSpec] has the invariant [aq_ok] and the refinement of additions,
    [ArchiveQueueTheorems] the one of removals, [ArchiveQueueReads] the readers,
    [ArchiveQueueRebuild] the repair, [ArchiveQueueExamples] a concrete queue.

    Archive requests: [ArchiveRequest] translates the code, [ArchiveRequestSpec]
    and [ArchiveReport] have the theorems, [ArchiveRequestExamples] a concrete
    request.

    Retrieve requests: [RetrieveRequest] translates the code
    ([RetrieveRequest.cpp], [RetrieveRequest.hpp], with [LifecycleTimings] and the
    request structure of [common/dataStructures]), [RetrieveRequestSpec] has the
    theorems, [RetrieveRequestExamples] a concrete request.

    Retrieve queues: [RetrieveActivity] ([RetrieveActivityCountMap.cpp]),
    [RetrieveQueueShard] ([RetrieveQueueShard.cpp]), [RetrievePlan] (the planning
    half of [RetrieveQueue::addJobsAndCommit]) and [RetrieveQueue] (the rest of
    [RetrieveQueue.cpp]) translate the code; [RetrieveShardSpec],
    [RetrievePlanSpec] and [RetrieveSplit] have the theorems and
    [RetrieveQueueExamples] executes the whole operations on concrete queues.

    Repack requests: [RepackRequest] and [AgentWrapper] ([AgentWrapper.cpp]) translate
    the code, [RepackRequestSpec] and [RepackSubrequests] have the theorems,
    [RepackRequestExamples] a concrete repack.

    Agents, registers, root entry: [Agent] and [AgentLife] ([Agent.cpp] and the
    [garbageCollect] methods that look at the root entry), [AgentQueue]
    ([AgentReference.cpp]: the queue of actions shared by the threads of a process,
    as a step relation), [Registers] ([AgentRegister.cpp], [DriveRegister.cpp],
    [SchedulerGlobalLock.cpp], [RepackIndex.cpp], [RepackQueue.cpp]) and
    [RootEntry] ([RootEntry.cpp]) translate the code.  [RegistersSpec],
    [RootEntrySpec], [RootEntryTheorems] and [AgentLifeSpec] have the theorems,
    [RootEntryExamples] and [AgentLifeExamples] their witnesses.

    Several objects: [Helpers] and [RetrieveCache] translate [Helpers.cpp];
    [HelpersSpec] has the class [QueueDirectory], what finding a queue needs of the
    root entry, with its instances and the theorem, [RetrieveCacheSpec] the choice
    of a tape, [HelpersExamples] the witnesses.  [Algorithms] translates
    [Algorithms.hpp] over the class [ContainerTraits], and [QueueTraits] the traits of
    the repack and archive queues ([RepackQueueAlgorithms.hpp],
    [ArchiveQueueAlgorithms.hpp], [ArchiveQueueToTransferAlgorithms.cpp],
    [ArchiveQueueToReportAlgorithms.cpp]).  [AlgorithmsSpec] proves the algorithms
    against the class [ContainerLaws]; [QueueTraitsSpec] discharges it for the repack
    queues and has the theorems, [QueueTraitsExamples] the witnesses and runs,
    including one of the whole cycle of an archive queue.  [RetrieveTraits] translates
    the traits of the retrieve queues ([RetrieveQueueAlgorithms.hpp],
    [RetrieveQueueToTransferAlgorithms.cpp]), [Sorter] the sorter, [SorterSpec] has its
    theorem.

    Collection of garbage: [Collect] and [RetrieveCollect] translate the
    [garbageCollect] methods of the queues and requests, [GenericObject] the dispatch by
    type ([GenericObject.cpp]), [OwnedObjects] the sorting of the objects of a dead agent
    (the class [OwnedObjectSorter] of [GarbageCollector.cpp]), [Watchdog]
    [AgentWatchdog.hpp] and [GarbageCollector] the rest.  [CollectSpec], [WatchdogSpec],
    [OwnedObjectsSpec] and [GarbageCollectorSpec] have the theorems, [CollectExamples] and
    [GarbageCollectorExamples] witnesses and runs.

    Scheduling: [Mounts] has the potential and existing mounts with their order
    ([SchedulerDatabase.hpp]) and the choice of a mount policy ([OStoreDB.cpp]),
    [Scheduling] translates [getNextMount], its dry run and the report of the candidates
    ([Scheduler.cpp], [SchedulingInfos.cpp]).  [MountsSpec] shows where the order is one,
    [SchedulingSpec] what is counted, which candidates are left and which is chosen.
    [DriveStates] translates the drives, their rows ([TapeDrive.hpp],
    [RdbmsCatalogue.cpp]) and their state machine ([TapeDrivesCatalogueState.cpp]), and
    [DriveStatesSpec] has the theorems on them.  [MountInfo] translates the part of
    [OStoreDB.cpp] that reads and creates mounts and has the theorem that composes it
    with the scheduler.  [SchedulingExamples] has the witnesses, with a run of the
    scheduler over the object store.

    ** What the theorems show

    - C1: the counters of the queues refine multisets.
    - C2, C3: an inserted object is read back unchanged, and in every reachable
      state of a handle a step that changes an existing object holds its exclusive
      lock, or removes the object through a handle that never found it.
    - C4 to C6, C8 to C10: an archive queue with its shards refines the list of its
      jobs: addition appends, removal filters, the summary and the candidate list are
      functions of the list, repeated addition does nothing, and repair restores the
      invariant from any damage to the summaries and pointers.
    - C7: every report on a sub-request of a repack is counted once, whatever the order
      and the repetitions.
    - C11: the choice of a tape for a retrieve request, and why it is not the best.
    - C12: a queue is found or created within five attempts, whatever the root entry
      references.
    - C13, C27: requests are queued and popped without being lost or owned twice;
      popping ends and returns the first requests that the queue owns.
    - C14: archive files round trip with their checksums and disk file information, and
      what their comparison looks at.
    - C15, C19, C29: the garbage collector: which agents its watchdogs declare dead, the
      clean-up of a dead agent, and the request that keeps its agent in the store whatever
      the collectors do.
    - C16 to C18: archive requests: retry counting, the reports of a request over any
      sequence of transfers, one of success and one of failure at most, and the race for
      ownership.
    - C20, C25, C30, C32, C36: scheduling: where the order of the potential mounts is
      one; the next mount is the best that could be created; the dry run says whether
      there is a choice; the scheduler asks the database for allowed mounts only; and
      the policy of a queue is the first of the catalogue.
    - C21, C26, C38, C40: the drives in the catalogue: what is read of what was stored,
      the status after a report, the invariant of the reachable tables, and the report
      of statistics that fails.
    - C28: a tape that is mounted is not given to another drive; this composes the
      scheduler, its database and the states of the drives.
    - C22, C23: in every interleaving of threads the actions on an agent are executed in
      submission order, once; the queue does not deadlock.
    - C24: the agent register refines a finite map.
    - C31: the plan of an addition to a retrieve queue is complete and ordered.
    - C33: a flush of the sorter ends, after one round per queue at most, and answers
      every job of the queues that it served, unless two jobs of a queue have one copy
      number; it throws only what the algorithm of a queue threw.
    - C34, C35: the root entry is a directory of queues; behaviour on every branch
      with the writes to the store, interrupted creations included.
    - C37: an agent is listed in the register before it exists and until it is deleted,
      in every state that a write leaves; the back end [AgentLifeSpec.journal_Backend]
      notes these states.
    - C39: failures of a retrieve request are counted, and bounded through its first
      copy.

    Lemmas that are properties of their own: [RetrieveRequestSpec.retrieve_ownership_race]
    and [transform_to_archive_request], [RepackSubrequests.all_subrequests_deleted],
    [subrequest_addresses_decided_once], [RetrieveActivity.activities_counted],
    [Agent.batch_is_sequential], [RetrieveShardSpec.batch_keeps_order] and
    [bisection_exact], [RetrieveSplit.split_partitions] and [single_position_split],
    [RootEntryTheorems.agent_register_creation], [CollectSpec.collected_repack_lost].

    ** Fuel

    Loops that are not structural take fuel, and the theorems show that what they
    are called with is enough:
    - [ArchiveQueue.add_rounds] runs with [add_fuel jobs = 2 * length jobs + 2]
      rounds.  A round either takes a job or restarts after the queue was rebuilt,
      which leaves a queue that needs no other rebuild.  C4 shows that the loop ends
      without exception.
    - [remove_loop] of the archive queue runs once per shard pointer at most, since
      a round advances the index or removes a pointer (C5); the removal loop of a
      shard once per job at most ([remove_rounds], [rremove_rounds]).
    - [removeOccurences_loop] runs with more than the length of the field
      ([removeOccurences_loop_perm]).
    - [RetrieveQueueShard.bisect] runs with the number of jobs; [bisection_exact] shows
      that it never runs out.
    - [RetrieveQueue.move_pointer] moves a pointer one place per round and runs
      with the number of pointers.  [rq_remove_loop] is like that of the archive
      queue.
    - [RepackRequest.delete_rounds] runs with the number of sub-requests
      ([all_subrequests_deleted]).
    - [Algorithms.pop_rounds] stands for a loop without a bound; C27 shows that one
      round more than there are references in the queue is enough.
      [QueueTraits.find_no_create] stands for a [goto] without a bound; a round that
      is repeated has dropped the reference that made it fail.
    - [Sorter.flush_loop] runs once per queue and once more; C33 relates it to the loop
      without a bound ([SorterSpec.while_flush]).

    The loops of the scheduler are structural: they go through lists that the database
    and the catalogue return.

    ** Not modelled

    - Of the scheduler and its database: the queueing of requests, the batches of jobs
      of a mount and their reports, repack expansion and the listings for operators.
      They compose the modelled objects with the catalogue and the disk systems.
    - The heartbeat thread and the process that runs the garbage collector: loops around
      [Agent::bumpHeartbeat] and [GarbageCollector::runOnePass].
    - The interleaving of threads on the cache of queue statistics; that other
      processes change the store between two steps of an operation on several
      objects.
    - For retrieve queues, the composition of planning, insertion and splitting
      into one refinement of the whole [addJobsAndCommit] is executed in examples
      and proved by parts only; [single_position_split] shows why it does not hold
      without a condition on the positions.
    - The JSON dumps: text for operators, printed by the protocol-buffer library.
    - The Rados back end, which calls librados; the wait for a lock and failures of
      the file system; logging and timing.
    - The catalogue, but for the table of the drives, and [rdbms], which execute SQL in
      database engines; what the scheduler only logs, and its timers; the tape
      server, media changer, disk back ends and front ends, which drive devices,
      processes and networks; the tests and operator tools. *)
From Stdlib Require Export ZArith Lia.
From stdpp Require Export gmap strings pretty numbers list.
#[global] Open Scope Z_scope.

(** ** Notation scope of the development *)
Declare Scope cta_scope.
Delimit Scope cta_scope with cta.
#[global] Open Scope cta_scope.

(** ** Machine integers

    The protocol-buffer fields and the C++ locals are [uint64_t], [uint32_t]
    and [uint16_t]; a value is a [Z] in range and every operation that can leave
    the range is followed by the conversion that C++ performs. *)
Definition u64 (z : Z) : Z := z mod 2 ^ 64.
Definition u32 (z : Z) : Z := z mod 2 ^ 32.
Definition u16 (z : Z) : Z := z mod 2 ^ 16.

(** Conversion to [time_t] (a signed 64-bit integer). *)
Definition s64 (z : Z) : Z :=
  let r := z mod 2 ^ 64 in if r <? 2 ^ 63 then r else r - 2 ^ 64.

Definition in_u64 (z : Z) : Prop := 0 <= z < 2 ^ 64.
Definition in_u32 (z : Z) : Prop := 0 <= z < 2 ^ 32.
Definition max_uint64 : Z := 2 ^ 64 - 1.
Definition max_time_t : Z := 2 ^ 63 - 1.

Notation "a +u64 b" := (u64 (a + b)) (at level 50, left associativity) : cta_scope.
Notation "a -u64 b" := (u64 (a - b)) (at level 50, left associativity) : cta_scope.

Create HintDb cta.
Create Rewrite HintDb cta.

Lemma u64_small z : in_u64 z → u64 z = z.
Proof. apply Z.mod_small. Qed.

Lemma u64_range z : in_u64 (u64 z).
Proof. by apply Z.mod_pos_bound. Qed.

Lemma u64_idemp z : u64 (u64 z) = u64 z.
Proof. apply Z.mod_mod; lia. Qed.

Lemma u64_add_l a b : u64 (u64 a + b) = u64 (a + b).
Proof. apply Z.add_mod_idemp_l; lia. Qed.

Lemma u64_add_r a b : u64 (a + u64 b) = u64 (a + b).
Proof. apply Z.add_mod_idemp_r; lia. Qed.

Lemma u64_sub_l a b : u64 (u64 a - b) = u64 (a - b).
Proof. apply Zminus_mod_idemp_l. Qed.

Lemma u64_sub_r a b : u64 (a - u64 b) = u64 (a - b).
Proof. apply Zminus_mod_idemp_r. Qed.

Lemma u32_small z : in_u32 z → u32 z = z.
Proof. apply Z.mod_small. Qed.

#[export] Hint Rewrite u64_idemp u64_add_l u64_add_r u64_sub_l u64_sub_r : cta.
#[export] Hint Resolve u64_range : cta.

(** ** Exceptions

    One constructor per exception class that the modelled code throws or
    catches by type; [Exception] is a plain [cta::exception::Exception]. *)
Inductive exn :=
  | Exception (what : string)
  | NoSuchObject
  | WrongPreviousOwner
  | NotLocked
  | AlreadyLocked
  | MissingAddress
  | NotFetched
  | NotNewObject
  | NewObject
  | NotInitialized
  | AddressAlreadySet
  | InvalidAddress
  | AddressNotSet
  | StillLocked
  | WrongType
  | Errnum (what : string)
  | JobNotQueueable
  | NoSuchJob
  | NotEmpty
  | ChecksumTypeMismatch
  | ChecksumValueMismatch
  | ChecksumBlobSizeMismatch
  | CouldNotLock
  | CouldNotFetch
  | CouldNotCommit
  | CouldNotDelete
  | AsyncUpdateWithDelete
  | NotFound
  | NotAllocated
  | ForbiddenOperation
  | ArchiveQueueNotEmpty
  | WrongArchiveQueue
  | NoSuchArchiveQueue
  | RetrieveQueueNotEmpty
  | WrongRetrieveQueue
  | NoSuchRetrieveQueue
  | DriveRegisterNotEmpty
  | AgentRegisterNotEmpty
  | RepackQueueNotEmpty
  | NoSuchRepackQueue
  | NoSuchDrive
  | NoSuchVID
  | VidAlreadyRegistered
  | AgentStillOwnsObjects
  | NoTapeAvailableForRetrieve
  | NoSuchContainer
  | CouldNotUnlock
  | ProcessExit   (** [cta::utils::segfault(); ::exit(EXIT_FAILURE);] *)
  | OutOfFuel.

#[export] Instance exn_eq_dec : EqDecision exn.
Proof. solve_decision. Defined.

(** An access to a repeated field past its end is undefined in C++; the models throw
    this exception. *)
Definition index_out_of_range : exn := Exception "RepeatedPtrField: index out of range".

(** ** Results of functions that may throw *)
Inductive result (A : Type) :=
  | Ok (a : A)
  | Throw (e : exn).
Arguments Ok {A} a.
Arguments Throw {A} e.

#[export] Instance result_eq_dec `{EqDecision A} : EqDecision (result A).
Proof. solve_decision. Defined.

#[export] Instance result_ret : MRet result := @Ok.
#[export] Instance result_bind : MBind result := λ A B f r,
  match r with Ok a => f a | Throw e => Throw e end.
#[export] Instance result_fmap : FMap result := λ A B f r,
  match r with Ok a => Ok (f a) | Throw e => Throw e end.

Definition is_ok {A} (r : result A) : bool :=
  match r with Ok _ => true | Throw _ => false end.

(** ** Stateful functions that may throw

    The state reached when an exception escapes is kept: a C++ exception does
    not undo the writes made before it. *)
Definition M (S A : Type) : Type := S → result A * S.

#[export] Instance M_ret {S} : MRet (M S) := λ A a s, (Ok a, s).
#[export] Instance M_bind {S} : MBind (M S) := λ A B f m s,
  match m s with
  | (Ok a, s') => f a s'
  | (Throw e, s') => (Throw e, s')
  end.

Definition throw {S A} (e : exn) : M S A := λ s, (Throw e, s).
Definition get {S} : M S S := λ s, (Ok s, s).
Definition gets {S A} (f : S → A) : M S A := λ s, (Ok (f s), s).
Definition modify {S} (f : S → S) : M S unit := λ s, (Ok tt, f s).
Definition lift {S A} (r : result A) : M S A := λ s, (r, s).

(** [catch m h]: run [m]; an exception [e] for which [h e] is a handler is
    handled in the state reached, any other exception is passed on. *)
Definition catch {S A} (m : M S A) (h : exn → option (M S A)) : M S A := λ s,
  match m s with
  | (Ok a, s') => (Ok a, s')
  | (Throw e, s') =>
      match h e with Some k => k s' | None => (Throw e, s') end
  end.

(** C++ range-for loops: [mfor l f] runs [f] on the elements from the front. *)
Fixpoint mfor {S A} (l : list A) (f : A → M S unit) : M S unit :=
  match l with
  | [] => mret tt
  | x :: l' => _ ← f x; mfor l' f
  end.

Lemma mfor_app {S A} (l k : list A) (f : A → M S unit) s :
  mfor (l ++ k) f s = (_ ← mfor l f; mfor k f) s.
Proof.
  revert s. induction l as [|x l IH]; intros s; [done|]. simpl. unfold mbind, M_bind in *.
  destruct (f x s) as [[u|e] s']; [|done]. by rewrite IH.
Qed.

Section monad_laws.
Context {S A B : Type}.
Implicit Types (m : M S A) (f : A → M S B) (s : S).

Lemma bind_ok m f s a s' : m s = (Ok a, s') → (m ≫= f) s = f a s'.
Proof. intros H. unfold mbind, M_bind. by rewrite H. Qed.

Lemma bind_lift a f s : (lift (Ok a) ≫= f) s = f a s.
Proof. done. Qed.

Lemma bind_throw m f s e s' : m s = (Throw e, s') → (m ≫= f) s = (Throw e, s').
Proof. intros H. unfold mbind, M_bind. by rewrite H. Qed.

Lemma bind_inv_ok m f s b s'' :
  (m ≫= f) s = (Ok b, s'') → ∃ a s', m s = (Ok a, s') ∧ f a s' = (Ok b, s'').
Proof.
  unfold mbind, M_bind. destruct (m s) as [[a|e] s'] eqn:E; [eauto|done].
Qed.

Lemma catch_ok m h s a s' : m s = (Ok a, s') → catch m h s = (Ok a, s').
Proof. unfold catch. by intros ->. Qed.

Lemma catch_throw m h s e s' k :
  m s = (Throw e, s') → h e = Some k → catch m h s = k s'.
Proof. unfold catch. by intros -> ->. Qed.
End monad_laws.

(** [mstep H] runs the head computation of a bind with the equation [H]. *)
Ltac mstep H := rewrite (bind_ok _ _ _ _ _ H).

(** Case analysis on the tests of the goal or of a hypothesis. *)
Ltac case_test :=
  match goal with
  | |- context [if ?b then _ else _] => destruct b eqn:?
  | H : context [if ?b then _ else _] |- _ => destruct b eqn:?
  | |- context [match ?x with _ => _ end] => destruct x eqn:?
  | H : context [match ?x with _ => _ end] |- _ => destruct x eqn:?
  end.

(** ** Generic lemmas on lists and sums *)
Definition Zsum (l : list Z) : Z := foldr Z.add 0 l.

Lemma Zsum_app l k : Zsum (l ++ k) = Zsum l + Zsum k.
Proof. induction l; simpl; unfold Zsum in *; simpl; lia. Qed.

Lemma Zsum_perm l k : l ≡ₚ k → Zsum l = Zsum k.
Proof. unfold Zsum. induction 1; simpl; lia. Qed.

#[export] Instance Zsum_proper : Proper ((≡ₚ) ==> (=)) Zsum.
Proof. intros ???. by apply Zsum_perm. Qed.

Lemma Zsum_nonneg l : Forall (λ z, 0 <= z) l → 0 <= Zsum l.
Proof. unfold Zsum. induction 1; simpl; lia. Qed.

(** First element that satisfies a boolean test ([std::find_if]). *)
Fixpoint find_if {A} (p : A → bool) (l : list A) : option A :=
  match l with
  | [] => None
  | x :: l' => if p x then Some x else find_if p l'
  end.

Lemma find_if_Some {A} (p : A → bool) l x :
  find_if p l = Some x → x ∈ l ∧ p x = true.
Proof.
  induction l as [|y l IH]; simpl; [done|].
  destruct (p y) eqn:E; intros H; simplify_eq; [by split; [left|]|].
  destruct (IH H). by split; [right|].
Qed.

Lemma find_if_None {A} (p : A → bool) l :
  find_if p l = None ↔ ∀ x, x ∈ l → p x = false.
Proof.
  induction l as [|y l IH]; simpl.
  - split; [intros _ x Hx; set_solver|done].
  - destruct (p y) eqn:E; split; [done| | |].
    + intros H. specialize (H y). rewrite H in E; [done|left].
    + intros H x Hx. apply elem_of_cons in Hx as [->|Hx]; [done|].
      by apply IH.
    + intros H. apply IH. intros x Hx. apply H. by right.
Qed.

(** Removal of the element at an index of a repeated field, the way the code does
    it: successive [SwapElements(i, i+1)] push it to the end, keeping the order
    of the others, then [RemoveLast]. *)
Definition push_to_end {A} (i : nat) (l : list A) : list A :=
  match l !! i with
  | Some x => delete i l ++ [x]
  | None => l
  end.
Definition RemoveLast {A} (l : list A) : list A := take (length l - 1) l.

Lemma RemoveLast_push_to_end {A} (i : nat) (l : list A) :
  (i < length l)%nat → RemoveLast (push_to_end i l) = delete i l.
Proof.
  intros Hi. unfold push_to_end, RemoveLast.
  destruct (lookup_lt_is_Some_2 l i Hi) as [x ->].
  rewrite length_app. simpl. replace (length (delete i l) + 1 - 1)%nat with (length (delete i l)) by lia.
  apply take_app_length.
Qed.

(** Index of the first element that satisfies a test. *)
Fixpoint index_of {A} (p : A → bool) (l : list A) : option nat :=
  match l with
  | [] => None
  | x :: l' => if p x then Some 0%nat else S <$> index_of p l'
  end.

Lemma index_of_Some {A} (p : A → bool) l i :
  index_of p l = Some i → ∃ x, l !! i = Some x ∧ p x = true ∧
    Forall (λ y, p y = false) (take i l).
Proof.
  revert i; induction l as [|y l IH]; intros i; simpl; [done|].
  destruct (p y) eqn:E; intros H; simplify_eq; [eauto|].
  destruct (index_of p l) as [j|]; simplify_eq/=.
  destruct (IH j eq_refl) as (x & ? & ? & ?). eauto 10.
Qed.

Lemma index_of_None {A} (p : A → bool) l :
  index_of p l = None ↔ Forall (λ y, p y = false) l.
Proof.
  induction l as [|y l IH]; simpl; [by split; constructor|].
  destruct (p y) eqn:E.
  - split; [done|]. intros H. apply Forall_cons in H as [H _]. congruence.
  - rewrite fmap_None, IH, Forall_cons. intuition.
Qed.

(** Filters of lists. *)
Lemma list_filter_all {A} (P : A → Prop) `{!∀ x, Decision (P x)} (l : list A) :
  Forall P l → filter P l = l.
Proof. induction 1; [done|]. rewrite filter_cons, decide_True by done. by f_equal. Qed.

Lemma list_filter_none {A} (P : A → Prop) `{!∀ x, Decision (P x)} (l : list A) :
  Forall (λ x, ¬ P x) l → filter P l = [].
Proof. induction 1; [done|]. by rewrite filter_cons, decide_False by done. Qed.

Lemma list_filter_ext {A} (P Q : A → Prop) `{!∀ x, Decision (P x), !∀ x, Decision (Q x)}
    (l : list A) :
  (∀ x, x ∈ l → P x ↔ Q x) → filter P l = filter Q l.
Proof.
  induction l as [|x l IH]; intros HPQ; [done|]. rewrite !filter_cons.
  rewrite IH by (intros y Hy; apply HPQ; by right).
  destruct (HPQ x) as [H1 H2]; [by left|]. repeat case_decide; tauto.
Qed.

Lemma list_filter_and {A} (P Q : A → Prop) `{!∀ x, Decision (P x), !∀ x, Decision (Q x)}
    (l : list A) :
  filter P (filter Q l) = filter (λ x, P x ∧ Q x) l.
Proof.
  induction l as [|x l IH]; [done|]. rewrite !filter_cons.
  destruct (decide (Q x)); rewrite ?filter_cons, IH; repeat case_decide; tauto.
Qed.

(** Loops with locals: a left fold in the monad. *)
Fixpoint mfold {S A X} (f : A → X → M S A) (a : A) (l : list X) : M S A :=
  match l with
  | [] => mret a
  | x :: l' => a' ← f a x; mfold f a' l'
  end.
