(* ===== verification/ValueCountMap.v ===== *)
(** * Running counters of the queues

    Model of [objectstore/ValueCountMap.hpp] and [.cpp]: a repeated field of
    (value, count) pairs used as a multiset of the values (priorities, minimum
    request ages, mount-policy names) of the jobs of a queue.  The theorems show
    that the array refines an abstract counting function: increments and
    decrements are exact, removal by swap-with-last keeps the array well formed,
    and the internal cross-checks of [decCount] never fire on a well-formed map. *)
From S2P Require Import Prelude.

(** One [ValueCountPair] (or [StringCountPair]) of the repeated field. *)
Record VCPair (K : Type) := mkVC { value : K; count : Z }.
Arguments mkVC {K} _ _.
Arguments value {K} _.
Arguments count {K} _.

#[export] Instance VCPair_eq_dec `{EqDecision K} : EqDecision (VCPair K).
Proof. solve_decision. Defined.

Section ValueCountMap.
Context {K : Type} `{EqDecision K}.
Implicit Types (m : list (VCPair K)) (k : K).

(** Index of the first pair with the given value ([std::find_if]). *)
Fixpoint findIndex (k : K) (m : list (VCPair K)) : option nat :=
  match m with
  | [] => None
  | p :: m' => if decide (value p = k) then Some 0%nat else S <$> findIndex k m'
  end.

(** [counter->Swap(&( *(end-1))); RemoveLast()] for the counter at index [i]:
    the last pair takes the place of the counter and the array shrinks. *)
Definition swapRemoveLast (i : nat) (m : list (VCPair K)) : list (VCPair K) :=
  match last m with
  | None => m
  | Some l => take (length m - 1) (<[i := l]> m)
  end.

Definition incCount (k : K) (m : list (VCPair K)) : result (list (VCPair K)) :=
  match findIndex k m with
  | Some i =>
      match m !! i with
      | Some p =>
          if count p <? 1 then Throw (Exception "incCount: unexpected count")
          else Ok (<[i := mkVC (value p) (count p +u64 1)]> m)
      | None => Throw (Exception "unreachable: index out of range")
      end
  | None => Ok (m ++ [mkVC k 1])
  end.

Definition decCount (k : K) (m : list (VCPair K)) : result (list (VCPair K)) :=
  match findIndex k m with
  | None => Throw (Exception "decCount: no entry found")
  | Some i =>
      match m !! i with
      | None => Throw (Exception "unreachable: index out of range")
      | Some p =>
          if count p <? 1 then Throw (Exception "decCount: wrong count")
          else
            let m1 := <[i := mkVC (value p) (count p -u64 1)]> m in
            if decide (count p -u64 1 = 0) then
              let size := length m1 in
              let m2 := swapRemoveLast i m1 in
              if decide (Z.of_nat size - 1 ≠ Z.of_nat (length m2)) then
                Throw (Exception "decCount: unexpected size after trimming")
              else if findIndex k m2 is Some _ then
                Throw (Exception "decCount: still found the value")
              else Ok m2
            else Ok m1
      end
  end.

Definition clear (_ : list (VCPair K)) : list (VCPair K) := [].

(** [total()]: sums the counts modulo 2^64, refusing a count below one. *)
Fixpoint total_from (acc : Z) (m : list (VCPair K)) : result Z :=
  match m with
  | [] => Ok acc
  | p :: m' =>
      if count p <? 1 then Throw (Exception "total: unexpected count")
      else total_from (acc +u64 count p) m'
  end.
Definition total (m : list (VCPair K)) : result Z := total_from 0 m.

(** [getMap()]: [std::map::insert] keeps the first pair of a value. *)
Definition getMap `{Countable K} (m : list (VCPair K)) : gmap K Z :=
  foldl (λ acc p, if decide (count p ≠ 0)
                  then match acc !! value p with
                       | Some _ => acc
                       | None => <[value p := count p]> acc
                       end
                  else acc) ∅ m.

(** ** Abstract view and well-formedness *)

(** The multiplicity of a value. *)
Fixpoint multiplicity (k : K) (m : list (VCPair K)) : Z :=
  match m with
  | [] => 0
  | p :: m' => if decide (value p = k) then count p else multiplicity k m'
  end.

(** Values are distinct and every count is a positive [uint64_t]. *)
Definition wf m : Prop :=
  NoDup (value <$> m) ∧ Forall (λ p, 1 <= count p < 2 ^ 64) m.

Definition counts_sum m : Z := Zsum (count <$> m).

(** ** Lemmas *)
Lemma findIndex_Some k m i :
  findIndex k m = Some i → ∃ p, m !! i = Some p ∧ value p = k.
Proof.
  revert i; induction m as [|p m IH]; intros i; simpl; [done|].
  case_decide; intros Hi; simplify_eq; [eauto|].
  destruct (findIndex k m) as [j|]; simplify_eq/=. by apply IH.
Qed.

Lemma findIndex_None k m : findIndex k m = None ↔ k ∉ value <$> m.
Proof.
  induction m as [|p m IH]; simpl.
  - split; [intros _; apply not_elem_of_nil|done].
  - case_decide as Hd; simpl.
    + split; [done|]. intros []. rewrite Hd. left.
    + rewrite fmap_None, IH, not_elem_of_cons. split; [intros ?; split; [congruence|done]|by intros []].
Qed.

Lemma multiplicity_notin k m : k ∉ value <$> m → multiplicity k m = 0.
Proof.
  induction m as [|p m IH]; simpl; [done|].
  rewrite not_elem_of_cons. intros [? ?]. rewrite decide_False by done. auto.
Qed.

Lemma multiplicity_perm k m m' :
  NoDup (value <$> m) → m ≡ₚ m' → multiplicity k m = multiplicity k m'.
Proof.
  intros Hnd Hp. revert Hnd. induction Hp as [|p m m' Hp IH|p q m|m1 m2 m3 Hp1 IH1 Hp2 IH2];
    simpl; intros Hnd; [done| | |].
  - apply NoDup_cons in Hnd as [_ ?]. case_decide; auto.
  - apply NoDup_cons in Hnd as [Hq _]. repeat case_decide; subst; set_solver.
  - rewrite IH1 by done. apply IH2. by rewrite <- Hp1.
Qed.

(** Splitting the array at the pair found. *)
Lemma findIndex_split k m i p :
  findIndex k m = Some i → m !! i = Some p →
  m = take i m ++ p :: drop (S i) m ∧ length (take i m) = i.
Proof.
  intros _ Hp. split; [by rewrite take_drop_middle|].
  apply lookup_lt_Some in Hp. rewrite length_take. lia.
Qed.

Lemma update_perm (p q : VCPair K) m i :
  m !! i = Some p → ∃ r, m ≡ₚ p :: r ∧ <[i := q]> m ≡ₚ q :: r.
Proof.
  intros Hp. exists (take i m ++ drop (S i) m).
  assert (Hi := lookup_lt_Some _ _ _ Hp). split.
  - rewrite <- (take_drop_middle m i p Hp) at 1. by rewrite Permutation_middle.
  - rewrite insert_take_drop by lia. by rewrite Permutation_middle.
Qed.

(** Removing by swap-with-last keeps the other pairs. *)
Lemma swapRemoveLast_perm p m i :
  m !! i = Some p → p :: swapRemoveLast i m ≡ₚ m ∧
  length (swapRemoveLast i m) = (length m - 1)%nat.
Proof.
  intros Hp. unfold swapRemoveLast.
  destruct m as [|x m0 _] using rev_ind; [done|].
  rewrite last_snoc. split.
  - rewrite length_app; simpl. replace (length m0 + 1 - 1)%nat with (length m0) by lia.
    destruct (decide (i < length m0)%nat) as [Hi|Hi].
    + rewrite insert_app_l by done. rewrite take_app_le by (rewrite length_insert; lia).
      rewrite take_ge by (rewrite length_insert; lia).
      rewrite lookup_app_l in Hp by done.
      destruct (update_perm p x m0 i Hp) as (r & Hr & Hr').
      rewrite Hr', Hr. rewrite <- Permutation_cons_append. apply perm_swap.
    + assert (i = length m0) as ->.
      { apply lookup_lt_Some in Hp. rewrite length_app in Hp. simpl in Hp. lia. }
      rewrite list_lookup_middle in Hp by done. simplify_eq.
      rewrite insert_app_r_alt by lia. rewrite Nat.sub_diag. simpl.
      rewrite take_app_length. by rewrite Permutation_cons_append.
  - rewrite length_take, length_insert. lia.
Qed.

Lemma wf_perm m m' : m ≡ₚ m' → wf m → wf m'.
Proof. intros Hp [? ?]. split; by rewrite <- Hp. Qed.

Lemma counts_sum_perm m m' : m ≡ₚ m' → counts_sum m = counts_sum m'.
Proof. intros Hp. unfold counts_sum. by rewrite Hp. Qed.

Lemma counts_sum_cons (p : VCPair K) m : counts_sum (p :: m) = count p + counts_sum m.
Proof. done. Qed.

(** ** Functional correctness *)

(** What [incCount] does to a well-formed map. *)
Lemma incCount_spec k m :
  wf m → multiplicity k m < 2 ^ 64 - 1 →
  ∃ m', incCount k m = Ok m' ∧ wf m' ∧
    counts_sum m' = counts_sum m + 1 ∧
    ∀ k', multiplicity k' m' = multiplicity k' m + (if decide (k' = k) then 1 else 0).
Proof.
  intros Hwf Hlt. unfold incCount. destruct (findIndex k m) as [i|] eqn:Hi.
  - destruct (findIndex_Some _ _ _ Hi) as (p & Hp & Hv). rewrite Hp.
    destruct (update_perm p (mkVC (value p) (count p +u64 1)) m i Hp) as (r & Hr & Hr').
    pose proof (wf_perm _ _ Hr Hwf) as [Hnd Hc]. csimpl in Hnd.
    apply Forall_cons in Hc as [Hc Hcr]. apply NoDup_cons in Hnd as [Hn Hnd].
    rewrite (multiplicity_perm _ _ _ (proj1 Hwf) Hr) in Hlt. simpl in Hlt.
    rewrite decide_True in Hlt by done.
    assert (Hu : u64 (count p + 1) = count p + 1) by (apply u64_small; unfold in_u64; lia).
    assert (Hwf' : wf (mkVC (value p) (count p +u64 1) :: r)).
    { split; csimpl; [by apply NoDup_cons|]. apply Forall_cons; simpl; rewrite Hu. split; [lia|done]. }
    rewrite (proj2 (Z.ltb_ge _ _)) by lia. eexists; split; [done|]. split; [|split].
    + by eapply wf_perm.
    + rewrite (counts_sum_perm _ _ Hr'), (counts_sum_perm _ _ Hr).
      rewrite !counts_sum_cons; simpl. lia.
    + intros k'. rewrite (multiplicity_perm k' _ _ (proj1 Hwf) Hr).
      rewrite <- (multiplicity_perm k' _ _ (proj1 Hwf') (symmetry Hr')). simpl.
      rewrite Hu. repeat case_decide; subst; try done; lia.
  - rewrite findIndex_None in Hi. destruct Hwf as [Hnd Hc].
    eexists; split; [done|]. split; [split|split].
    + rewrite fmap_app. apply NoDup_app. split; [done|]. split; [|apply NoDup_singleton].
      intros x Hx Hx'. apply list_elem_of_singleton in Hx'. by subst.
    + apply Forall_app. split; [done|]. apply Forall_singleton; simpl; lia.
    + unfold counts_sum. rewrite fmap_app, Zsum_app. simpl. lia.
    + intros k'. induction m as [|p m IH]; csimpl in *; [by repeat case_decide|].
      apply not_elem_of_cons in Hi as [? ?]. apply NoDup_cons in Hnd as [_ ?].
      apply Forall_cons in Hc as [_ ?]. rewrite decide_False in Hlt by done.
      specialize (IH ltac:(done) ltac:(done) ltac:(done) ltac:(done)).
      repeat case_decide; subst; try congruence; lia.
Qed.

(** What [decCount] does to a well-formed map that holds the value: no
    cross-check of the code fires. *)
Lemma decCount_spec k m :
  wf m → 0 < multiplicity k m →
  ∃ m', decCount k m = Ok m' ∧ wf m' ∧
    counts_sum m' = counts_sum m - 1 ∧
    ∀ k', multiplicity k' m' = multiplicity k' m - (if decide (k' = k) then 1 else 0).
Proof.
  intros Hwf Hpos. unfold decCount. destruct (findIndex k m) as [i|] eqn:Hi; last first.
  { apply findIndex_None in Hi. rewrite multiplicity_notin in Hpos by done. lia. }
  destruct (findIndex_Some _ _ _ Hi) as (p & Hp & Hv). rewrite Hp.
  pose (q := mkVC (value p) (count p - 1)).
  destruct (update_perm p q m i Hp) as (r & Hr & Hr').
  pose proof (wf_perm _ _ Hr Hwf) as [Hnd Hc]. csimpl in Hnd.
  apply Forall_cons in Hc as [Hc Hcr]. apply NoDup_cons in Hnd as [Hn Hnd].
  assert (Hu : u64 (count p - 1) = count p - 1) by (apply u64_small; unfold in_u64; lia).
  assert (Hmul : ∀ k', multiplicity k' m = multiplicity k' (p :: r)).
  { intros. apply multiplicity_perm; [apply Hwf|done]. }
  rewrite (proj2 (Z.ltb_ge _ _)) by lia. rewrite Hu in *. fold q. case_decide as Hz.
  - assert (Hq : <[i:=q]> m !! i = Some q).
    { apply list_lookup_insert_eq. by eapply lookup_lt_Some. }
    destruct (swapRemoveLast_perm q (<[i:=q]> m) i Hq) as [Hs Hl].
    assert (Hr2 : swapRemoveLast i (<[i:=q]> m) ≡ₚ r).
    { apply (Permutation_cons_inv (a:=q)). by rewrite Hs. }
    assert (Hlen := lookup_lt_Some _ _ _ Hp).
    rewrite decide_False by (rewrite Hl, !length_insert; lia).
    rewrite (proj2 (findIndex_None _ _)) by (rewrite Hr2; subst k; done).
    assert (Hwr : wf r) by done.
    eexists; split; [done|]. split; [|split].
    + by eapply wf_perm.
    + rewrite (counts_sum_perm _ _ Hr2), (counts_sum_perm _ _ Hr).
      rewrite ?counts_sum_cons; simpl; lia.
    + intros k'. rewrite Hmul, <- (multiplicity_perm k' _ _ Hnd (symmetry Hr2)). simpl.
      repeat case_decide; subst; try congruence; try lia.
      rewrite multiplicity_notin by done. lia.
  - assert (Hwf' : wf (q :: r)).
    { split; csimpl; [by apply NoDup_cons|]. apply Forall_cons; simpl. split; [lia|done]. }
    eexists; split; [done|]. split; [|split].
    + by eapply wf_perm.
    + rewrite (counts_sum_perm _ _ Hr'), (counts_sum_perm _ _ Hr).
      rewrite ?counts_sum_cons; simpl; lia.
    + intros k'. rewrite Hmul, <- (multiplicity_perm k' _ _ (proj1 Hwf') (symmetry Hr')).
      simpl. repeat case_decide; subst; try congruence; lia.
Qed.

Lemma total_from_spec acc m :
  wf m → total_from acc m = Ok (if decide (m = []) then acc else u64 (acc + counts_sum m)).
Proof.
  intros [_ Hc]. revert acc. induction m as [|p m IH]; intros acc; simpl; [done|].
  apply Forall_cons in Hc as [Hp Hc]. rewrite (proj2 (Z.ltb_ge _ _)) by lia.
  rewrite IH by done. rewrite counts_sum_cons. f_equal. case_decide; subst; simpl.
  - f_equal. unfold counts_sum; simpl. lia.
  - autorewrite with cta. f_equal; lia.
Qed.

Lemma total_spec m : wf m → total m = Ok (u64 (counts_sum m)).
Proof.
  intros Hwf. unfold total. rewrite total_from_spec by done.
  case_decide; [by subst|]. done.
Qed.

(** A multiplicity never exceeds the total. *)
Lemma multiplicity_le k m : wf m → 0 <= multiplicity k m <= counts_sum m.
Proof.
  intros [_ Hc]. induction Hc as [|p m Hp Hc IH]; simpl; [done|].
  assert (0 <= counts_sum m) by (clear IH; induction Hc; rewrite ?counts_sum_cons; [done|lia]).
  rewrite counts_sum_cons. case_decide; lia.
Qed.
(** ** Abstract counters and the simulation *)

(** The operations of a running counter and their meaning on a multiset given
    by its multiplicities; a decrement of an absent value has no meaning. *)
Inductive event := Inc (k : K) | Dec (k : K).

Definition event_abs (e : event) (f : K → Z) : option (K → Z) :=
  match e with
  | Inc k => Some (λ k', f k' + (if decide (k' = k) then 1 else 0))
  | Dec k => if decide (0 < f k)
             then Some (λ k', f k' - (if decide (k' = k) then 1 else 0)) else None
  end.

Definition event_run (e : event) (m : list (VCPair K)) : result (list (VCPair K)) :=
  match e with Inc k => incCount k m | Dec k => decCount k m end.

Fixpoint events_abs (es : list event) (f : K → Z) : option (K → Z) :=
  match es with
  | [] => Some f
  | e :: es' => match event_abs e f with Some g => events_abs es' g | None => None end
  end.

Fixpoint events_run (es : list event) (m : list (VCPair K)) : result (list (VCPair K)) :=
  match es with
  | [] => Ok m
  | e :: es' => match event_run e m with Ok m' => events_run es' m' | Throw x => Throw x end
  end.

Lemma event_simulates e m f g :
  wf m → (∀ k, multiplicity k m = f k) → counts_sum m < 2 ^ 64 - 1 →
  event_abs e f = Some g →
  ∃ m', event_run e m = Ok m' ∧ wf m' ∧ (∀ k, multiplicity k m' = g k) ∧
    counts_sum m' <= counts_sum m + 1.
Proof.
  intros Hwf Hf Hs He. destruct e as [k|k]; simpl in *.
  - simplify_eq. pose proof (multiplicity_le k m Hwf).
    destruct (incCount_spec k m Hwf) as (m' & -> & ? & ? & Hm); [lia|].
    exists m'. do 2 (split; [done|]). split; [|lia]. intros k'. by rewrite Hm, Hf.
  - case_decide as Hpos; simplify_eq. rewrite <- Hf in Hpos.
    destruct (decCount_spec k m Hwf Hpos) as (m' & -> & ? & ? & Hm).
    exists m'. do 2 (split; [done|]). split; [|lia]. intros k'. by rewrite Hm, Hf.
Qed.

Lemma events_simulate es m f g :
  wf m → (∀ k, multiplicity k m = f k) →
  counts_sum m + Z.of_nat (length es) < 2 ^ 64 →
  events_abs es f = Some g →
  ∃ m', events_run es m = Ok m' ∧ wf m' ∧ (∀ k, multiplicity k m' = g k) ∧
    counts_sum m' < 2 ^ 64.
Proof.
  revert m f. induction es as [|e es IH]; intros m f Hwf Hf Hlen Hg; simpl in *.
  - simplify_eq. exists m. repeat split; try apply Hwf; auto. lia.
  - destruct (event_abs e f) as [h|] eqn:He; [|done].
    destruct (event_simulates e m f h) as (m' & -> & ? & ? & ?); [done..|lia|done|].
    eapply IH; [done..|lia|done].
Qed.

(** C1: the array of (value, count) pairs implements a multiset.  Whatever
    sequence of increments and decrements is run from the empty field, if the
    sequence is meaningful on the multiset (no absent value is decremented) and
    is shorter than 2^64, the code throws no exception, in particular none of
    the cross-checks of [decCount] fires, the result keeps one pair per value
    with a positive count, every multiplicity is the one of the multiset, and
    [total()] returns the number of elements. *)
Theorem counter_refines_multiset es g :
  Z.of_nat (length es) < 2 ^ 64 →
  events_abs es (λ _, 0) = Some g →
  ∃ m, events_run es [] = Ok m ∧ wf m ∧ (∀ k, multiplicity k m = g k) ∧
    total m = Ok (counts_sum m).
Proof.
  intros Hlen Hg.
  destruct (events_simulate es [] (λ _, 0) g) as (m & Hr & Hwf & Hm & Hs); try done.
  { split; constructor. }
  exists m. do 3 (split; [done|]). rewrite total_spec by done. f_equal.
  apply u64_small. unfold in_u64. split; [|done].
  destruct m as [|p m']; [done|]. pose proof (multiplicity_le (value p) _ Hwf). lia.
Qed.
End ValueCountMap.

Arguments event : clear implicits.

(** Counters over [uint64_t] values also report their extremal values. *)
Definition maxValue (m : list (VCPair Z)) : result Z :=
  match m with
  | [] => Throw (Exception "maxValue: empty map")
  | _ => Ok (foldl (λ ret p, if ret <? value p then value p else ret) 0 m)
  end.

Definition minValue (m : list (VCPair Z)) : result Z :=
  match m with
  | [] => Throw (Exception "minValue: empty map")
  | _ => Ok (foldl (λ ret p, if value p <? ret then value p else ret) max_uint64 m)
  end.

Lemma counter_refines_multiset_witness :
  ∃ m, events_run [Inc 7; Inc 3; Inc 7; Dec 3; Inc 9; Dec 7] [] = Ok m ∧ wf m ∧
    (∀ k, multiplicity k m = (λ k', 0 + (if decide (k' = 7) then 1 else 0) +
       (if decide (k' = 3) then 1 else 0) + (if decide (k' = 7) then 1 else 0) -
       (if decide (k' = 3) then 1 else 0) + (if decide (k' = 9) then 1 else 0) -
       (if decide (k' = 7) then 1 else 0)) k) ∧
    total m = Ok (counts_sum m).
Proof.
  apply (counter_refines_multiset (K := Z)); [by vm_compute|]. reflexivity.
Defined.

Lemma fold_max_spec (m : list (VCPair Z)) (acc : Z) :
  let r := foldl (λ ret p, if ret <? value p then value p else ret) acc m in
  acc <= r ∧ Forall (λ p, value p <= r) m ∧ (r = acc ∨ r ∈ value <$> m).
Proof.
  revert acc. induction m as [|p m IH]; intros acc; simpl.
  { split; [lia|]. split; [constructor|]. by left. }
  destruct (IH (if acc <? value p then value p else acc)) as (H1 & H2 & H3).
  split; [destruct (Z.ltb_spec acc (value p)); lia|]. split.
  - constructor; [|done]. destruct (Z.ltb_spec acc (value p)); lia.
  - destruct H3 as [H3|H3]; [|by right; right]. rewrite H3.
    destruct (Z.ltb_spec acc (value p)); [right; left|by left].
Qed.

Lemma fold_min_spec (m : list (VCPair Z)) (acc : Z) :
  let r := foldl (λ ret p, if value p <? ret then value p else ret) acc m in
  r <= acc ∧ Forall (λ p, r <= value p) m ∧ (r = acc ∨ r ∈ value <$> m).
Proof.
  revert acc. induction m as [|p m IH]; intros acc; simpl.
  { split; [lia|]. split; [constructor|]. by left. }
  destruct (IH (if value p <? acc then value p else acc)) as (H1 & H2 & H3).
  split; [destruct (Z.ltb_spec (value p) acc); lia|]. split.
  - constructor; [|done]. destruct (Z.ltb_spec (value p) acc); lia.
  - destruct H3 as [H3|H3]; [|by right; right]. rewrite H3.
    destruct (Z.ltb_spec (value p) acc); [right; left|by left].
Qed.

(** On a nonempty map of [uint64_t] values the extremal values are attained
    and bound all the others. *)
Lemma maxValue_spec m :
  m ≠ [] → Forall (λ p, in_u64 (value p)) m →
  ∃ r, maxValue m = Ok r ∧ r ∈ value <$> m ∧ Forall (λ p, value p <= r) m.
Proof.
  intros Hne Hu. unfold maxValue. destruct m as [|p m]; [done|].
  destruct (fold_max_spec (p :: m) 0) as (H1 & H2 & H3).
  eexists; split; [done|]. split; [|done]. destruct H3 as [H3|H3]; [|done].
  rewrite H3 in *. apply Forall_cons in Hu as [Hp _], H2 as [Hp2 _].
  unfold in_u64 in Hp. replace 0 with (value p) by lia. left.
Qed.

Lemma minValue_spec m :
  m ≠ [] → Forall (λ p, in_u64 (value p)) m →
  ∃ r, minValue m = Ok r ∧ r ∈ value <$> m ∧ Forall (λ p, r <= value p) m.
Proof.
  intros Hne Hu. unfold minValue. destruct m as [|p m]; [done|].
  destruct (fold_min_spec (p :: m) max_uint64) as (H1 & H2 & H3).
  eexists; split; [done|]. split; [|done]. destruct H3 as [H3|H3]; [|done].
  rewrite H3 in *. apply Forall_cons in Hu as [Hp _], H2 as [Hp2 _].
  unfold in_u64, max_uint64 in *. replace (2 ^ 64 - 1) with (value p) by lia. left.
Qed.

(** [getMap] is the multiplicity as a finite map. *)
Lemma getMap_fold `{Countable K} (m : list (VCPair K)) (acc : gmap K Z) k :
  wf m → (∀ p, p ∈ m → acc !! value p = None) →
  foldl (λ acc p, if decide (count p ≠ 0)
                  then match acc !! value p with
                       | Some _ => acc
                       | None => <[value p := count p]> acc
                       end
                  else acc) acc m !! k =
  if decide (multiplicity k m = 0) then acc !! k else Some (multiplicity k m).
Proof.
  revert acc. induction m as [|p m IH]; intros acc [Hnd Hc] Hacc; simpl; [done|].
  apply NoDup_cons in Hnd as [Hp Hnd]. apply Forall_cons in Hc as [Hcp Hc].
  rewrite decide_True by lia. rewrite (Hacc p) by left. rewrite IH; [|done|].
  - destruct (decide (value p = k)) as [<-|Hne].
    + rewrite (multiplicity_notin _ _ Hp), decide_True by done.
      rewrite decide_False by lia. by rewrite lookup_insert_eq.
    + case_decide; [|done]. by rewrite lookup_insert_ne.
  - intros q Hq. rewrite lookup_insert_ne; [apply Hacc; by right|].
    intros Heq. apply Hp. rewrite Heq. by apply list_elem_of_fmap_2.
Qed.

Lemma getMap_spec `{Countable K} (m : list (VCPair K)) k :
  wf m → getMap m !! k = if decide (multiplicity k m = 0) then None else Some (multiplicity k m).
Proof. intros Hwf. unfold getMap. rewrite getMap_fold; [|done|done]. by rewrite lookup_empty. Qed.

Lemma elem_of_values `{EqDecision K} (m : list (VCPair K)) k :
  wf m → k ∈ value <$> m ↔ multiplicity k m ≠ 0.
Proof.
  intros [Hnd Hc]. split.
  - clear Hnd. induction Hc as [|p m Hp Hc IH]; csimpl; [set_solver|].
    intros Hk. case_decide as Hd; [lia|]. apply elem_of_cons in Hk as [->|Hk]; [done|by apply IH].
  - intros Hk. destruct (decide (k ∈ value <$> m)) as [|Hn]; [done|].
    by rewrite multiplicity_notin in Hk.
Qed.
