(* ===== verification/Backend.v ===== *)
(** * The object store backend

    [Backend] is the interface of [objectstore/Backend.hpp] as the objects use
    it: the operations and what they promise in terms of a finite map from
    object names to contents.  [VFS] models [objectstore/BackendVFS.cpp], where
    an object is a file and a lock file next to it, and [VFS_Backend] discharges
    the interface for the states in which every file has its lock file.
    Failures of the file system itself (disk full, permissions) and the waiting
    of [flock] are outside the model. *)
From S2P Require Import Prelude.

(** ** The interface *)
Class Backend (B St : Type) := {
  be_create : string → B → M St unit;
  be_atomicOverwrite : string → B → M St unit;
  be_read : string → M St B;
  be_remove : string → M St unit;
  be_exists : string → M St bool;
  be_lock : string → M St unit;
  (** The objects of a state, and the states the promises are about. *)
  be_view : St → gmap string B;
  be_wf : St → Prop;
  be_create_new s n c : be_wf s → be_view s !! n = None →
    ∃ s', be_create n c s = (Ok tt, s') ∧ be_wf s' ∧ be_view s' = <[n:=c]> (be_view s);
  be_create_exists s n c : be_wf s → is_Some (be_view s !! n) →
    ∃ e, be_create n c s = (Throw e, s);
  be_overwrite_ok s n c : be_wf s → is_Some (be_view s !! n) →
    ∃ s', be_atomicOverwrite n c s = (Ok tt, s') ∧ be_wf s' ∧
      be_view s' = <[n:=c]> (be_view s);
  be_overwrite_absent s n c : be_wf s → be_view s !! n = None →
    ∃ e, be_atomicOverwrite n c s = (Throw e, s);
  be_read_spec s n : be_wf s →
    be_read n s = (match be_view s !! n with
                   | Some c => Ok c | None => Throw NoSuchObject end, s);
  be_remove_ok s n : be_wf s → is_Some (be_view s !! n) →
    ∃ s', be_remove n s = (Ok tt, s') ∧ be_wf s' ∧ be_view s' = delete n (be_view s);
  be_remove_absent s n : be_wf s → be_view s !! n = None →
    ∃ e, be_remove n s = (Throw e, s);
  be_exists_spec s n : be_wf s →
    be_exists n s = (Ok (bool_decide (is_Some (be_view s !! n))), s);
  be_lock_ok s n : be_wf s → is_Some (be_view s !! n) →
    be_lock n s = (Ok tt, s);
  be_lock_absent s n : be_wf s → be_view s !! n = None →
    be_lock n s = (Throw NoSuchObject, s)
}.

(** ** The file system backend *)
Module VFS.

(** The files of the directory: object files by name, and the names whose
    [.<name>.lock] file exists. *)
Record vfs (B : Type) := mkVfs { files : gmap string B; locks : gset string }.
Arguments mkVfs {B} _ _.
Arguments files {B} _.
Arguments locks {B} _.

Section VFS.
Context {B : Type}.
Implicit Types (s : vfs B) (n : string) (c : B).

(** [create]: both files are opened with [O_EXCL].  [lockCreated] is set before
    the result of the second [open] is checked, so when the lock file already
    existed the handler unlinks it together with the new object file. *)
Definition create n c : M (vfs B) unit := λ s,
  match files s !! n with
  | Some _ => (Throw (Errnum "create: open"), s)
  | None =>
      if decide (n ∈ locks s) then
        (Throw (Errnum "create: lock file"), mkVfs (files s) (locks s ∖ {[n]}))
      else (Ok tt, mkVfs (<[n:=c]> (files s)) ({[n]} ∪ locks s))
  end.

Definition exists_ n : M (vfs B) bool := λ s,
  (Ok (bool_decide (is_Some (files s !! n)) && bool_decide (n ∈ locks s)), s).

(** [atomicOverwrite]: the content is prepared in a temporary file and renamed
    over the object. *)
Definition atomicOverwrite n c : M (vfs B) unit :=
  b ← exists_ n;
  if (b : bool) then modify (λ s, mkVfs (<[n:=c]> (files s)) (locks s))
  else throw (Exception "atomicOverwrite: non-existing object").

Definition read n : M (vfs B) B := λ s,
  match files s !! n with
  | Some c => (Ok c, s)
  | None => (Throw NoSuchObject, s)
  end.

Definition remove n : M (vfs B) unit := λ s,
  match files s !! n with
  | None => (Throw (Errnum "Failed to remove object file"), s)
  | Some _ =>
      let s' := mkVfs (delete n (files s)) (locks s) in
      if decide (n ∈ locks s) then (Ok tt, mkVfs (files s') (locks s' ∖ {[n]}))
      else (Throw (Errnum "Failed to remove lock file."), s')
  end.

(** [lockHelper]: a missing lock file is recreated when the object file is
    there; the wait for [flock] is not modelled. *)
Definition lockHelper n : M (vfs B) unit := λ s,
  if decide (n ∈ locks s) then (Ok tt, s)
  else match files s !! n with
       | Some _ => (Ok tt, mkVfs (files s) ({[n]} ∪ locks s))
       | None => (Throw NoSuchObject, s)
       end.

(** Every object file has its lock file and conversely. *)
Definition wf s : Prop := locks s = dom (files s).

Lemma locked_iff s n : wf s → n ∈ locks s ↔ is_Some (files s !! n).
Proof. unfold wf. intros ->. by rewrite elem_of_dom. Qed.

Lemma unlocked_iff s n : wf s → n ∉ locks s ↔ files s !! n = None.
Proof. unfold wf. intros ->. by rewrite not_elem_of_dom. Qed.
End VFS.

(** The file system backend keeps the promises of the interface. *)
#[global] Program Instance VFS_Backend (B : Type) : Backend B (vfs B) := {|
  be_create := create;
  be_atomicOverwrite := atomicOverwrite;
  be_read := read;
  be_remove := remove;
  be_exists := exists_;
  be_lock := lockHelper;
  be_view := files;
  be_wf := wf
|}.
Next Obligation.
  intros B s n c Hwf Hn. unfold create. rewrite Hn.
  rewrite decide_False by (by apply unlocked_iff).
  eexists; split; [done|]. split; [|done]. unfold wf in *; simpl.
  rewrite Hwf, dom_insert_L. done.
Qed.
Next Obligation. intros B s n c Hwf [x Hn]. unfold create. rewrite Hn. eauto. Qed.
Next Obligation.
  intros B s n c Hwf Hn. unfold atomicOverwrite, exists_, mbind, M_bind; simpl.
  rewrite !bool_decide_true by (done || by apply locked_iff). simpl.
  eexists; split; [done|]. split; [|done]. unfold wf in *; simpl.
  rewrite Hwf, dom_insert_lookup_L by done. done.
Qed.
Next Obligation.
  intros B s n c Hwf Hn. unfold atomicOverwrite, exists_, mbind, M_bind; simpl.
  rewrite bool_decide_false by (by rewrite Hn; inversion 1). simpl. unfold throw. eauto.
Qed.
Next Obligation. intros B s n Hwf. unfold read. by destruct (files s !! n). Qed.
Next Obligation.
  intros B s n Hwf Hs. unfold remove. destruct (files s !! n) eqn:Hn; [|by inversion Hs].
  rewrite decide_True by (by apply locked_iff). eexists; split; [done|].
  split; [|done]. unfold wf in *; simpl. by rewrite Hwf, dom_delete_L.
Qed.
Next Obligation. intros B s n Hwf Hn. unfold remove. rewrite Hn. eauto. Qed.
Next Obligation.
  intros B s n Hwf. unfold exists_. do 2 f_equal.
  rewrite (bool_decide_ext _ _ (locked_iff s n Hwf)). apply andb_diag.
Qed.
Next Obligation.
  intros B s n Hwf Hn. unfold lockHelper. by rewrite decide_True by (by apply locked_iff).
Qed.
Next Obligation.
  intros B s n Hwf Hn. unfold lockHelper.
  rewrite decide_False by (by apply unlocked_iff). by rewrite Hn.
Qed.
End VFS.
Export VFS (vfs).

(** ** Asynchronous operations

    [asyncUpdate(name, callback)] followed by [wait()]: the object is locked, read,
    transformed by the callback and overwritten, or removed when the callback
    throws [AsyncUpdateWithDelete].  The callback also returns what it reports to
    the caller through its captured references.  The lock makes the update atomic
    with respect to the other lockers, so the model runs it in one step. *)
Section Async.
Context {B St : Type} `{!Backend B St}.

Definition lock_for_async (name : string) : M St unit :=
  catch (be_lock name)
    (λ e, match e with NoSuchObject => None | _ => Some (throw CouldNotLock) end).

Definition asyncUpdate {A} (name : string) (update : B → result (B * A)) : M St (option A) :=
  _ ← lock_for_async name;
  preUpdateData ← catch (be_read name) (λ _, Some (throw CouldNotFetch));
  match update preUpdateData with
  | Ok (postUpdateData, a) =>
      _ ← catch (be_atomicOverwrite name postUpdateData) (λ _, Some (throw CouldNotCommit));
      mret (Some a)
  | Throw AsyncUpdateWithDelete =>
      _ ← catch (be_remove name) (λ _, Some (throw CouldNotCommit)); mret None
  | Throw e => throw e
  end.

Definition asyncDelete (name : string) : M St unit :=
  _ ← lock_for_async name;
  catch (be_remove name) (λ _, Some (throw CouldNotDelete)).

Lemma lock_for_async_ok name s :
  be_wf s → is_Some (be_view s !! name) → lock_for_async name s = (Ok tt, s).
Proof. intros. unfold lock_for_async. apply catch_ok. by apply be_lock_ok. Qed.

(** An update that the callback accepts replaces the content of the object. *)
Lemma asyncUpdate_ok {A} name (f : B → result (B * A)) s c c' a :
  be_wf s → be_view s !! name = Some c → f c = Ok (c', a) →
  ∃ s', asyncUpdate name f s = (Ok (Some a), s') ∧ be_wf s' ∧ be_view s' = <[name := c']> (be_view s).
Proof.
  intros Hwf Hc Hf. destruct (be_overwrite_ok s name c' Hwf) as (s' & E & Hwf' & Hv); [eauto|].
  exists s'. split; [|done]. unfold asyncUpdate.
  mstep (lock_for_async_ok name s Hwf (ex_intro _ c Hc)).
  erewrite bind_ok; [|apply catch_ok; rewrite be_read_spec, Hc by done; done].
  rewrite Hf. by erewrite bind_ok; [|apply catch_ok; exact E].
Qed.

(** An update that the callback refuses changes nothing. *)
Lemma asyncUpdate_throw {A} name (f : B → result (B * A)) s c e :
  be_wf s → be_view s !! name = Some c → f c = Throw e → e ≠ AsyncUpdateWithDelete →
  asyncUpdate name f s = (Throw e, s).
Proof.
  intros Hwf Hc Hf He. unfold asyncUpdate.
  mstep (lock_for_async_ok name s Hwf (ex_intro _ c Hc)).
  erewrite bind_ok; [|apply catch_ok; rewrite be_read_spec, Hc by done; done].
  rewrite Hf. by destruct e.
Qed.

Lemma asyncUpdate_absent {A} name (f : B → result (B * A)) s :
  be_wf s → be_view s !! name = None → asyncUpdate name f s = (Throw NoSuchObject, s).
Proof.
  intros Hwf Hn. unfold asyncUpdate. apply bind_throw. unfold lock_for_async, catch.
  by rewrite be_lock_absent.
Qed.
End Async.
