(* ===== verification/ObjectOps.v ===== *)
(** * Object handles of the object store

    Model of [objectstore/ObjectOps.hpp]: the in-memory handle of a stored
    object (address, header, payload, the flags that say what was fetched and
    how it is locked), the scoped locks, and the operations [initialize],
    [insert], [fetch], [fetchNoLock], [commit] and [remove] on a backend.  Also
    [AgentReference::nextId], which names the new objects.

    The protocol-buffer library is a parameter: [Serializable] states that
    parsing a serialised message gives the message back. *)
From S2P Require Import Prelude Backend.

(** [serializers::ObjectType]. *)
Inductive ObjectType :=
  | RootEntry_t | AgentRegister_t | Agent_t | DriveRegister_t | DriveState_t
  | SchedulerGlobalLock_t | ArchiveRequest_t | RetrieveRequest_t | ArchiveQueue_t
  | ArchiveQueueShard_t | RetrieveQueue_t | RetrieveQueueShard_t | RepackRequest_t
  | RepackIndex_t | RepackQueue_t | GenericObject_t.

#[export] Instance ObjectType_eq_dec : EqDecision ObjectType.
Proof. solve_decision. Defined.

(** [serializers::ObjectHeader]; [B] are the serialised bytes. *)
Record ObjectHeader (B : Type) := mkHeader {
  h_type : ObjectType;
  h_version : Z;
  h_owner : string;
  h_backupowner : string;
  h_payload : B
}.
Arguments mkHeader {B} _ _ _ _ _.
Arguments h_type {B} _.
Arguments h_version {B} _.
Arguments h_owner {B} _.
Arguments h_backupowner {B} _.
Arguments h_payload {B} _.

(** What the code relies on from protocol buffers. *)
Class Serializable (B T : Type) := {
  SerializeAsString : T → B;
  ParseFromString : B → option T;
  parse_serialize (t : T) : ParseFromString (SerializeAsString t) = Some t
}.

(** A payload message type: its type tag and its default value. *)
Class Message (P : Type) := {
  payloadTypeId : ObjectType;
  default_message : P
}.

(** Interpretation and locking flags of a handle. *)
Record OpsFlags := mkFlags {
  m_headerInterpreted : bool;
  m_payloadInterpreted : bool;
  m_existingObject : bool;
  m_locksCount : Z;
  m_locksForWriteCount : Z;
  m_noLock : bool;
  m_exclusiveLock : bool;      (** [m_exclusiveLock != nullptr] *)
  m_lockForSubObject : bool    (** [m_lockForSubObject != nullptr] *)
}.

(** [ObjectOpsBase] with the payload of [ObjectOps<PayloadType, PayloadTypeId>]. *)
Record ObjectOps (B P : Type) := mkOps {
  m_nameSet : bool;
  m_name : string;
  m_header : ObjectHeader B;
  m_payload : P;
  m_flags : OpsFlags
}.
Arguments mkOps {B P} _ _ _ _ _.
Arguments m_nameSet {B P} _.
Arguments m_name {B P} _.
Arguments m_header {B P} _.
Arguments m_payload {B P} _.
Arguments m_flags {B P} _.

(** ** Field updates *)
Definition with_interpreted (h p : bool) (f : OpsFlags) : OpsFlags :=
  mkFlags h p (m_existingObject f) (m_locksCount f) (m_locksForWriteCount f)
    (m_noLock f) (m_exclusiveLock f) (m_lockForSubObject f).
Definition with_existing (b : bool) (f : OpsFlags) : OpsFlags :=
  mkFlags (m_headerInterpreted f) (m_payloadInterpreted f) b (m_locksCount f)
    (m_locksForWriteCount f) (m_noLock f) (m_exclusiveLock f) (m_lockForSubObject f).
Definition with_locks (l w : Z) (f : OpsFlags) : OpsFlags :=
  mkFlags (m_headerInterpreted f) (m_payloadInterpreted f) (m_existingObject f) l w
    (m_noLock f) (m_exclusiveLock f) (m_lockForSubObject f).
Definition with_noLock (b : bool) (f : OpsFlags) : OpsFlags :=
  mkFlags (m_headerInterpreted f) (m_payloadInterpreted f) (m_existingObject f)
    (m_locksCount f) (m_locksForWriteCount f) b (m_exclusiveLock f) (m_lockForSubObject f).
Definition with_exclusiveLock (b : bool) (f : OpsFlags) : OpsFlags :=
  mkFlags (m_headerInterpreted f) (m_payloadInterpreted f) (m_existingObject f)
    (m_locksCount f) (m_locksForWriteCount f) (m_noLock f) b (m_lockForSubObject f).
Definition with_lockForSubObject (b : bool) (f : OpsFlags) : OpsFlags :=
  mkFlags (m_headerInterpreted f) (m_payloadInterpreted f) (m_existingObject f)
    (m_locksCount f) (m_locksForWriteCount f) (m_noLock f) (m_exclusiveLock f) b.

(** Operations on a handle and the backend: the handle is part of the state, so
    its flags survive an exception as the members of the C++ object do. *)
Abbreviation HState B P St := (ObjectOps B P * St)%type.

Section ObjectOps.
Context {B P : Type}.
Implicit Types (o : ObjectOps B P).

Definition with_payload (p : P) o : ObjectOps B P :=
  mkOps (m_nameSet o) (m_name o) (m_header o) p (m_flags o).
Definition with_header (h : ObjectHeader B) o : ObjectOps B P :=
  mkOps (m_nameSet o) (m_name o) h (m_payload o) (m_flags o).
Definition with_flags (f : OpsFlags) o : ObjectOps B P :=
  mkOps (m_nameSet o) (m_name o) (m_header o) (m_payload o) f.

(** ** Access checks *)
Definition checkWritable o : result unit :=
  let f := m_flags o in
  if m_existingObject f && (m_locksForWriteCount f =? 0) then Throw NotLocked
  else if m_existingObject f && negb (m_exclusiveLock f) && negb (m_lockForSubObject f)
  then Throw (Exception "checkWritable: missing reference to exclusive lock")
  else Ok tt.

Definition checkReadable o : result unit :=
  let f := m_flags o in
  if m_existingObject f && ((m_locksCount f =? 0) && negb (m_noLock f))
  then Throw NotLocked else Ok tt.

Definition checkHeaderWritable o : result unit :=
  if negb (m_headerInterpreted (m_flags o)) then Throw NotFetched else checkWritable o.
Definition checkHeaderReadable o : result unit :=
  if negb (m_headerInterpreted (m_flags o)) then Throw NotFetched else checkReadable o.
Definition checkPayloadWritable o : result unit :=
  if negb (m_payloadInterpreted (m_flags o)) then Throw NotFetched else checkWritable o.
Definition checkPayloadReadable o : result unit :=
  if negb (m_payloadInterpreted (m_flags o)) then Throw NotFetched else checkReadable o.

(** ** Addresses and ownership *)
Definition setAddress (name : string) o : result (ObjectOps B P) :=
  if m_nameSet o then Throw AddressAlreadySet
  else if decide (name = "") then Throw InvalidAddress
  else Ok (mkOps true name (m_header o) (m_payload o) (m_flags o)).

Definition resetAddress o : result (ObjectOps B P) :=
  let f := m_flags o in
  if negb (m_locksCount f =? 0) || negb (m_locksForWriteCount f =? 0)
  then Throw StillLocked
  else Ok (mkOps false "" (m_header o) (m_payload o)
             (with_existing false (with_interpreted false false f))).

Definition getAddressIfSet o : result string :=
  if m_nameSet o then Ok (m_name o) else Throw AddressNotSet.

Definition resetValues o : ObjectOps B P :=
  with_flags (with_existing false (with_interpreted false false (m_flags o))) o.

Definition setOwner (owner : string) o : result (ObjectOps B P) :=
  _ ← checkHeaderWritable o;
  let h := m_header o in
  Ok (with_header (mkHeader (h_type h) (h_version h) owner (h_backupowner h) (h_payload h)) o).

Definition getOwner o : result string :=
  _ ← checkHeaderReadable o; Ok (h_owner (m_header o)).

Definition setBackupOwner (owner : string) o : result (ObjectOps B P) :=
  _ ← checkHeaderWritable o;
  let h := m_header o in
  Ok (with_header (mkHeader (h_type h) (h_version h) (h_owner h) owner (h_payload h)) o).

Definition getBackupOwner o : result string :=
  _ ← checkHeaderReadable o; Ok (h_backupowner (m_header o)).

(** ** Scoped locks *)
Inductive LockType := Shared | Exclusive.

(** A [ScopedSharedLock] or [ScopedExclusiveLock]. *)
Record ScopedLock := mkLock { sl_type : LockType; m_locked : bool }.

Definition checkNotLocked (l : ScopedLock) : result unit :=
  if m_locked l then Throw AlreadyLocked else Ok tt.
Definition checkLocked (l : ScopedLock) : result unit :=
  if m_locked l then Ok tt else Throw NotLocked.

Definition checkObjectAndAddressSet o : result unit :=
  if negb (m_nameSet o) || bool_decide (m_name o = "") then Throw MissingAddress else Ok tt.

Definition setObjectLocked (l : ScopedLock) o : ObjectOps B P :=
  let f := m_flags o in
  match sl_type l with
  | Shared => with_flags (with_locks (m_locksCount f + 1) (m_locksForWriteCount f) f) o
  | Exclusive => with_flags (with_locks (m_locksCount f + 1) (m_locksForWriteCount f + 1) f) o
  end.

Definition setObjectUnlocked (l : ScopedLock) o : ObjectOps B P :=
  let f := m_flags o in
  match sl_type l with
  | Shared => with_flags (with_locks (m_locksCount f - 1) (m_locksForWriteCount f) f) o
  | Exclusive => with_flags (with_locks (m_locksCount f - 1) (m_locksForWriteCount f - 1) f) o
  end.

Definition self {St} : M (HState B P St) (ObjectOps B P) := gets fst.
Definition set_self {St} o : M (HState B P St) unit := modify (λ s, (o, snd s)).
Definition on_store {St A} (m : M St A) : M (HState B P St) A := λ s,
  let '(r, st') := m (snd s) in (r, (fst s, st')).

(** [ScopedSharedLock::lock] and [ScopedExclusiveLock::lock]: the backend lock is
    taken between the checks and the bookkeeping. *)
Definition lock `{Backend B St} (l : ScopedLock) : M (HState B P St) ScopedLock :=
  _ ← lift (checkNotLocked l);
  o ← self;
  _ ← lift (checkObjectAndAddressSet o);
  name ← lift (getAddressIfSet o);
  _ ← on_store (be_lock name);
  let o1 := setObjectLocked l o in
  _ ← set_self (match sl_type l with
                | Shared => o1
                | Exclusive => with_flags (with_exclusiveLock true (m_flags o1)) o1
                end);
  mret (mkLock (sl_type l) true).

(** [includeSubObject]: the lock of a container is extended to a shard. *)
Definition includeSubObject (l : ScopedLock) o : result (ObjectOps B P) :=
  _ ← checkLocked l;
  _ ← checkObjectAndAddressSet o;
  let o1 := setObjectLocked l o in
  Ok (with_flags (with_lockForSubObject true (m_flags o1)) o1).

(** [releaseIfNeeded], for the locked object or for one of its sub objects. *)
Definition releaseIfNeeded (l : ScopedLock) o : ScopedLock * ObjectOps B P :=
  if m_locked l then
    let o1 := setObjectUnlocked l o in
    let f := m_flags o1 in
    (mkLock (sl_type l) false,
     with_flags (with_interpreted (m_headerInterpreted f) false f) o1)
  else (l, o).

Definition release (l : ScopedLock) o : result (ScopedLock * ObjectOps B P) :=
  _ ← checkLocked l; Ok (releaseIfNeeded l o).
End ObjectOps.

Section Storage.
Context {B P St : Type} `{!Serializable B P, !Serializable B (ObjectHeader B)}.
Context `{!Message P, !Backend B St}.
Implicit Types (o : ObjectOps B P).

(** ** Life in the backend *)
Definition initialize o : result (ObjectOps B P) :=
  let f := m_flags o in
  if m_headerInterpreted f || m_existingObject f then Throw NotNewObject
  else Ok (with_flags (with_interpreted true (m_payloadInterpreted f) f)
             (with_header (mkHeader payloadTypeId 0 "" "" (h_payload (m_header o))) o)).

(** The members left by a failed parse are unspecified; the model leaves the
    handle as it was.  A header of another type is kept in [m_header]. *)
Definition getHeaderFromObjectData (objData : B) : M (HState B P St) unit :=
  o ← self;
  match ParseFromString objData with
  | None => throw (Exception "getHeaderFromObjectData: could not parse header")
  | Some h =>
      let o1 := with_header h o in
      _ ← set_self o1;
      if decide (h_type h = payloadTypeId) then
        let f := m_flags o1 in
        set_self (with_flags (with_interpreted true (m_payloadInterpreted f) f) o1)
      else throw WrongType
  end.

Definition getPayloadFromHeader : M (HState B P St) unit :=
  o ← self;
  match ParseFromString (h_payload (m_header o)) with
  | None => throw (Exception "getPayloadFromHeader: could not parse payload")
  | Some p =>
      let f := m_flags o in
      set_self (with_flags (with_interpreted (m_headerInterpreted f) true f) (with_payload p o))
  end.

Definition getHeaderFromObjectStore : M (HState B P St) unit :=
  o ← self;
  name ← lift (getAddressIfSet o);
  objData ← on_store (be_read name);
  getHeaderFromObjectData objData.

Definition fetchBottomHalf : M (HState B P St) unit :=
  o ← self;
  _ ← set_self (with_flags (with_existing true (m_flags o)) o);
  _ ← getHeaderFromObjectStore;
  getPayloadFromHeader.

Definition fetch : M (HState B P St) unit :=
  o ← self;
  if m_locksCount (m_flags o) =? 0 then throw NotLocked else fetchBottomHalf.

Definition fetchNoLock : M (HState B P St) unit :=
  o ← self;
  _ ← set_self (with_flags (with_noLock true (m_flags o)) o);
  fetchBottomHalf.

(** [asyncLockfreeFetch()] followed by [AsyncLockfreeFetcher::wait()]. *)
Definition lockfreeFetch : M (HState B P St) unit :=
  o ← self;
  name ← lift (getAddressIfSet o);
  objData ← on_store (be_read name);
  _ ← set_self (with_flags (with_existing true (with_noLock true (m_flags o))) o);
  _ ← getHeaderFromObjectData objData;
  getPayloadFromHeader.

(** [m_header.set_payload(m_payload.SerializeAsString())]. *)
Definition push_payload o : ObjectOps B P :=
  let h := m_header o in
  with_header (mkHeader (h_type h) (h_version h) (h_owner h) (h_backupowner h)
                 (SerializeAsString (m_payload o))) o.

Definition insert : M (HState B P St) unit :=
  o ← self;
  let f := m_flags o in
  if m_existingObject f then throw NotNewObject
  else if negb (m_headerInterpreted f) || negb (m_payloadInterpreted f)
  then throw NotInitialized
  else
    let o1 := push_payload o in
    _ ← set_self o1;
    name ← lift (getAddressIfSet o1);
    _ ← on_store (be_create name (SerializeAsString (m_header o1)));
    set_self (with_flags (with_existing true f) o1).

Definition commit : M (HState B P St) unit :=
  o ← self;
  _ ← lift (checkPayloadWritable o);
  if negb (m_existingObject (m_flags o)) then throw NewObject
  else
    let o1 := push_payload o in
    _ ← set_self o1;
    name ← lift (getAddressIfSet o1);
    on_store (be_atomicOverwrite name (SerializeAsString (m_header o1))).

Definition remove : M (HState B P St) unit :=
  o ← self;
  _ ← lift (checkWritable o);
  name ← lift (getAddressIfSet o);
  _ ← on_store (be_remove name);
  set_self (with_flags (with_existing false (with_interpreted false false (m_flags o))) o).

(** A write access of a derived class: [checkPayloadWritable] and an update. *)
Definition update_payload (f : P → P) : M (HState B P St) unit :=
  o ← self;
  _ ← lift (checkPayloadWritable o);
  set_self (with_payload (f (m_payload o)) o).

(** A fresh handle: [ObjectOps(os, name)] and [ObjectOps(os)]. *)
Definition fresh_flags : OpsFlags := mkFlags false false false 0 0 false false false.
Definition new_object (dummy : B) : ObjectOps B P :=
  mkOps false "" (mkHeader payloadTypeId 0 "" "" dummy) default_message fresh_flags.

(** ** What the backend holds for a name, seen as objects of this type *)
Definition stored (s : St) (name : string) : option (ObjectHeader B * P) :=
  match be_view s !! name with
  | None => None
  | Some c =>
      match ParseFromString c with
      | Some h =>
          if decide (h_type h = payloadTypeId)
          then match ParseFromString (h_payload h) with Some p => Some (h, p) | None => None end
          else None
      | None => None
      end
  end.

(** The handle after a fetch that found [(h, p)]. *)
Definition fetched (h : ObjectHeader B) (p : P) o : ObjectOps B P :=
  mkOps (m_nameSet o) (m_name o) h p
    (with_interpreted true true (with_existing true (m_flags o))).

Lemma stored_view s name h p :
  stored s name = Some (h, p) →
  ∃ c, be_view s !! name = Some c ∧ ParseFromString c = Some h ∧
    h_type h = payloadTypeId ∧ ParseFromString (h_payload h) = Some p.
Proof. unfold stored. intros H. repeat case_match; simplify_eq. eauto. Qed.

Lemma stored_insert s s' name o :
  be_view s' = <[name := SerializeAsString (m_header (push_payload o))]> (be_view s) →
  h_type (m_header o) = payloadTypeId →
  (∀ n, stored s' n = if decide (n = name) then Some (m_header (push_payload o), m_payload o)
                      else stored s n).
Proof.
  intros Hv Ht n. unfold stored. rewrite Hv. case_decide as Hn; subst.
  - rewrite lookup_insert_eq, parse_serialize. simpl.
    rewrite decide_True by done. by rewrite parse_serialize.
  - by rewrite lookup_insert_ne by done.
Qed.

Lemma stored_delete s s' name :
  be_view s' = delete name (be_view s) →
  ∀ n, stored s' n = if decide (n = name) then None else stored s n.
Proof.
  intros Hv n. unfold stored. rewrite Hv. case_decide as Hn; subst.
  - by rewrite lookup_delete_eq.
  - by rewrite lookup_delete_ne by done.
Qed.

Lemma stored_exists s name x : stored s name = Some x → is_Some (be_view s !! name).
Proof. unfold stored. destruct (be_view s !! name); [eauto|done]. Qed.

(** Unfolding of one step of a handle computation. *)
Ltac hunfold := unfold mbind, M_bind, lift, self, set_self, on_store, gets, modify, get; simpl.

Lemma getAddressIfSet_ok o : m_nameSet o = true → getAddressIfSet o = Ok (m_name o).
Proof. unfold getAddressIfSet. by intros ->. Qed.

Lemma read_object s name h p o :
  be_wf s → stored s name = Some (h, p) → m_nameSet o = true → m_name o = name →
  (getHeaderFromObjectStore ≫= λ _, getPayloadFromHeader) (o, s) =
    (Ok tt, (mkOps (m_nameSet o) (m_name o) h p (with_interpreted true true (m_flags o)), s)).
Proof.
  intros Hwf Hst Hset <-. destruct (stored_view _ _ _ _ Hst) as (c & Hc & Hh & Ht & Hp).
  unfold getHeaderFromObjectStore, getHeaderFromObjectData, getPayloadFromHeader.
  hunfold. rewrite getAddressIfSet_ok by done. simpl. rewrite be_read_spec, Hc by done. simpl.
  rewrite Hh. simpl. rewrite decide_True by done. simpl. by rewrite Hp.
Qed.

Lemma fetch_spec s h p o :
  be_wf s → stored s (m_name o) = Some (h, p) → m_nameSet o = true →
  m_locksCount (m_flags o) ≠ 0 →
  fetch (o, s) = (Ok tt, (fetched h p o, s)).
Proof.
  intros Hwf Hst Hset Hl. unfold fetch, fetchBottomHalf. hunfold.
  rewrite (proj2 (Z.eqb_neq _ _)) by done.
  pose proof (read_object s (m_name o) h p
    (with_flags (with_existing true (m_flags o)) o) Hwf Hst Hset eq_refl) as H.
  revert H. hunfold. intros ->. done.
Qed.

Lemma fetch_absent s o :
  be_wf s → be_view s !! m_name o = None → m_nameSet o = true →
  m_locksCount (m_flags o) ≠ 0 →
  fetch (o, s) = (Throw NoSuchObject, (with_flags (with_existing true (m_flags o)) o, s)).
Proof.
  intros Hwf Hst Hset Hl. unfold fetch, fetchBottomHalf, getHeaderFromObjectStore.
  hunfold. rewrite (proj2 (Z.eqb_neq _ _)) by done. rewrite getAddressIfSet_ok by done. simpl.
  by rewrite be_read_spec, Hst by done.
Qed.

Lemma fetchNoLock_spec s h p o :
  be_wf s → stored s (m_name o) = Some (h, p) → m_nameSet o = true →
  fetchNoLock (o, s) =
    (Ok tt, (fetched h p (with_flags (with_noLock true (m_flags o)) o), s)).
Proof.
  intros Hwf Hst Hset. unfold fetchNoLock, fetchBottomHalf. hunfold.
  pose proof (read_object s (m_name o) h p
    (with_flags (with_existing true (with_noLock true (m_flags o))) o) Hwf Hst Hset eq_refl) as H.
  revert H. hunfold. intros H. exact H.
Qed.

Lemma lockfreeFetch_spec s h p o :
  be_wf s → stored s (m_name o) = Some (h, p) → m_nameSet o = true →
  lockfreeFetch (o, s) =
    (Ok tt, (fetched h p (with_flags (with_noLock true (m_flags o)) o), s)).
Proof.
  intros Hwf Hst Hset. destruct (stored_view _ _ _ _ Hst) as (c & Hc & Hh & Ht & Hp).
  unfold lockfreeFetch, getHeaderFromObjectData, getPayloadFromHeader.
  hunfold. rewrite getAddressIfSet_ok by done. simpl. rewrite be_read_spec, Hc by done. simpl.
  rewrite Hh. simpl. rewrite decide_True by done. simpl. by rewrite Hp.
Qed.

Lemma lockfreeFetch_absent s o :
  be_wf s → be_view s !! m_name o = None → m_nameSet o = true →
  lockfreeFetch (o, s) = (Throw NoSuchObject, (o, s)).
Proof.
  intros Hwf Hst Hset. unfold lockfreeFetch. hunfold. rewrite getAddressIfSet_ok by done. simpl.
  by rewrite be_read_spec, Hst by done.
Qed.

(** A handle ready to be inserted. *)
Definition insertable o : Prop :=
  m_existingObject (m_flags o) = false ∧ m_headerInterpreted (m_flags o) = true ∧
  m_payloadInterpreted (m_flags o) = true ∧ m_nameSet o = true ∧
  h_type (m_header o) = payloadTypeId.

Lemma insert_spec s o :
  be_wf s → insertable o → be_view s !! m_name o = None →
  ∃ s', insert (o, s) =
      (Ok tt, (with_flags (with_existing true (m_flags o)) (push_payload o), s')) ∧
    be_wf s' ∧
    be_view s' = <[m_name o := SerializeAsString (m_header (push_payload o))]> (be_view s) ∧
    ∀ n, stored s' n = if decide (n = m_name o) then Some (m_header (push_payload o), m_payload o)
                       else stored s n.
Proof.
  intros Hwf (He & Hh & Hp & Hn & Ht) Habs. unfold insert. hunfold.
  rewrite He, Hh, Hp. simpl. rewrite getAddressIfSet_ok by done. simpl.
  destruct (be_create_new s (m_name o) (SerializeAsString (m_header (push_payload o))) Hwf Habs)
    as (s' & Hc & Hwf' & Hv).
  unfold push_payload in Hc. simpl in Hc. rewrite Hc. exists s'. do 3 (split; [done|]).
  by eapply stored_insert.
Qed.

(** A handle through which an existing object may be written. *)
Definition writable o : Prop :=
  m_payloadInterpreted (m_flags o) = true ∧
  (m_existingObject (m_flags o) = true → m_locksForWriteCount (m_flags o) ≠ 0 ∧
     (m_exclusiveLock (m_flags o) = true ∨ m_lockForSubObject (m_flags o) = true)).

Lemma checkPayloadWritable_ok o : checkPayloadWritable o = Ok tt ↔ writable o.
Proof.
  unfold checkPayloadWritable, checkWritable, writable. simpl.
  destruct (m_payloadInterpreted _), (m_existingObject _), (m_exclusiveLock _),
    (m_lockForSubObject _); simpl; try (destruct (Z.eqb_spec (m_locksForWriteCount (m_flags o)) 0));
    split; intros; simplify_eq; intuition congruence.
Qed.

Lemma commit_spec s o :
  be_wf s → writable o → m_existingObject (m_flags o) = true → m_nameSet o = true →
  h_type (m_header o) = payloadTypeId → is_Some (be_view s !! m_name o) →
  ∃ s', commit (o, s) = (Ok tt, (push_payload o, s')) ∧ be_wf s' ∧
    be_view s' = <[m_name o := SerializeAsString (m_header (push_payload o))]> (be_view s) ∧
    ∀ n, stored s' n = if decide (n = m_name o) then Some (m_header (push_payload o), m_payload o)
                       else stored s n.
Proof.
  intros Hwf Hw He Hn Ht Hex. unfold commit. hunfold.
  rewrite (proj2 (checkPayloadWritable_ok o) Hw). rewrite He. simpl. rewrite getAddressIfSet_ok by done. simpl.
  destruct (be_overwrite_ok s (m_name o) (SerializeAsString (m_header (push_payload o))) Hwf Hex)
    as (s' & Hc & Hwf' & Hv).
  unfold push_payload in Hc. simpl in Hc. rewrite Hc. exists s'. do 3 (split; [done|]).
  by eapply stored_insert.
Qed.

Lemma remove_spec s o :
  be_wf s → checkWritable o = Ok tt → m_nameSet o = true → is_Some (be_view s !! m_name o) →
  ∃ o' s', remove (o, s) = (Ok tt, (o', s')) ∧ be_wf s' ∧
    be_view s' = delete (m_name o) (be_view s).
Proof.
  intros Hwf Hw Hn Hex. unfold remove. hunfold. rewrite Hw, getAddressIfSet_ok by done. simpl.
  destruct (be_remove_ok s (m_name o) Hwf Hex) as (s' & Hr & Hwf' & Hv). rewrite Hr. simpl. eauto.
Qed.

(** ** Life cycle of a handle under one scoped lock *)
Inductive hop :=
  | OpLock | OpRelease | OpInitialize | OpFetch | OpFetchNoLock | OpLockfreeFetch
  | OpUpdate (f : P → P) | OpSetOwner (owner : string) | OpInsert | OpCommit | OpRemove.

(** The [initialize] of the derived classes ends by marking the payload valid. *)
Definition hop_run (op : hop) (c : ScopedLock * HState B P St) :
    ScopedLock * HState B P St :=
  let '(l, hs) := c in
  match op with
  | OpLock => match lock l hs with (Ok l', hs') => (l', hs') | (Throw _, hs') => (l, hs') end
  | OpRelease =>
      match release l (fst hs) with
      | Ok (l', o') => (l', (o', snd hs))
      | Throw _ => c
      end
  | OpInitialize =>
      match initialize (fst hs) with
      | Ok o' => (l, (with_flags (with_interpreted true true (m_flags o')) o', snd hs))
      | Throw _ => c
      end
  | OpFetch => (l, snd (fetch hs))
  | OpFetchNoLock => (l, snd (fetchNoLock hs))
  | OpLockfreeFetch => (l, snd (lockfreeFetch hs))
  | OpUpdate f => (l, snd (update_payload f hs))
  | OpSetOwner w => match setOwner w (fst hs) with Ok o' => (l, (o', snd hs)) | Throw _ => c end
  | OpInsert => (l, snd (insert hs))
  | OpCommit => (l, snd (commit hs))
  | OpRemove => (l, snd (remove hs))
  end.

Inductive hreach (l0 : ScopedLock) (hs0 : HState B P St) :
    ScopedLock * HState B P St → Prop :=
  | hreach_start : hreach l0 hs0 (l0, hs0)
  | hreach_step c op : hreach l0 hs0 c → hreach l0 hs0 (hop_run op c).

(** The lock counters of the handle agree with the scoped lock. *)
Definition lock_inv (l : ScopedLock) o : Prop :=
  let f := m_flags o in
  m_lockForSubObject f = false ∧
  if m_locked l then
    m_locksCount f = 1 ∧
    match sl_type l with
    | Shared => m_locksForWriteCount f = 0
    | Exclusive => m_locksForWriteCount f = 1 ∧ m_exclusiveLock f = true
    end
  else m_locksCount f = 0 ∧ m_locksForWriteCount f = 0.

(** Lock-related flags of two handles agree, and so do their names. *)
Definition same_locks o o' : Prop :=
  m_locksCount (m_flags o') = m_locksCount (m_flags o) ∧
  m_locksForWriteCount (m_flags o') = m_locksForWriteCount (m_flags o) ∧
  m_exclusiveLock (m_flags o') = m_exclusiveLock (m_flags o) ∧
  m_lockForSubObject (m_flags o') = m_lockForSubObject (m_flags o).

Lemma lock_inv_same l o o' : same_locks o o' → lock_inv l o → lock_inv l o'.
Proof. unfold same_locks, lock_inv. intros (-> & -> & -> & ->). done. Qed.

(** Case analysis on every test of an unfolded handle computation. *)
Ltac hcases :=
  repeat (case_match || (simpl; case_decide)); simplify_eq/=; repeat split; auto.

Lemma header_same c (o : ObjectOps B P) (s : St) :
  let hs' := snd (getHeaderFromObjectData c (o, s)) in
  snd hs' = s ∧ same_locks o (fst hs').
Proof. unfold getHeaderFromObjectData, throw. hunfold. unfold same_locks. hcases. Qed.

Lemma payload_same (o : ObjectOps B P) (s : St) :
  let hs' := snd (getPayloadFromHeader (o, s)) in
  snd hs' = s ∧ same_locks o (fst hs').
Proof. unfold getPayloadFromHeader, throw. hunfold. unfold same_locks. hcases. Qed.

Lemma same_locks_trans o1 o2 o3 : same_locks o1 o2 → same_locks o2 o3 → same_locks o1 o3.
Proof. unfold same_locks. intuition congruence. Qed.

(** Handle computations that neither write the backend nor touch the locks. *)
Definition neutral {A} (m : M (HState B P St) A) : Prop :=
  ∀ o s, be_wf s → snd (snd (m (o, s))) = s ∧ same_locks o (fst (snd (m (o, s)))).

Lemma neutral_bind {A A'} (m : M (HState B P St) A) (k : A → M _ A') :
  neutral m → (∀ a, neutral (k a)) → neutral (m ≫= k).
Proof.
  intros Hm Hk o s Hwf. unfold mbind, M_bind. specialize (Hm o s Hwf).
  destruct (m (o, s)) as [[a|e] [o' s']]; simpl in *; [|done].
  destruct Hm as [-> Hl]. destruct (Hk a o' s Hwf) as [? ?].
  split; [done|]. by eapply same_locks_trans.
Qed.

Lemma neutral_read n : neutral (on_store (B:=B) (P:=P) (be_read n)).
Proof. intros o s Hwf. unfold on_store; simpl. rewrite be_read_spec by done. done. Qed.
Lemma neutral_header c : neutral (getHeaderFromObjectData c).
Proof. intros o s _. apply header_same. Qed.
Lemma neutral_payload : neutral getPayloadFromHeader.
Proof. intros o s _. apply payload_same. Qed.
Lemma neutral_self {A} (f : ObjectOps B P → M _ A) :
  (∀ o s, be_wf s → snd (snd (f o (o, s))) = s ∧ same_locks o (fst (snd (f o (o, s))))) →
  neutral (self ≫= f).
Proof. intros Hf o s Hwf. apply (Hf o s Hwf). Qed.
Lemma neutral_lift {A} (r : result A) : neutral (lift r).
Proof. by repeat split. Qed.

Lemma neutral_set {A} (k : unit → M (HState B P St) A) o o1 s :
  neutral (k tt) → same_locks o o1 → be_wf s →
  snd (snd ((set_self o1 ≫= k) (o, s))) = s ∧
  same_locks o (fst (snd ((set_self o1 ≫= k) (o, s)))).
Proof.
  intros Hk Hl Hwf. destruct (Hk o1 s Hwf) as [? ?]. split; [done|].
  by eapply same_locks_trans.
Qed.

Lemma getHeaderFromObjectStore_neutral : neutral getHeaderFromObjectStore.
Proof.
  apply neutral_self. intros o s Hwf.
  apply (neutral_bind _ _ (neutral_lift _)); [|done]. intros n.
  apply neutral_bind; [apply neutral_read|apply neutral_header].
Qed.

Lemma fetchBottomHalf_neutral : neutral fetchBottomHalf.
Proof.
  apply neutral_self. intros o s Hwf. apply neutral_set; [|by repeat split|done].
  apply neutral_bind; [apply getHeaderFromObjectStore_neutral|intros; apply neutral_payload].
Qed.

Lemma fetch_neutral : neutral fetch.
Proof.
  apply neutral_self. intros o s Hwf. destruct (_ =? 0); [by repeat split|].
  by apply fetchBottomHalf_neutral.
Qed.

Lemma fetchNoLock_neutral : neutral fetchNoLock.
Proof.
  apply neutral_self. intros o s Hwf. apply neutral_set; [|by repeat split|done].
  apply fetchBottomHalf_neutral.
Qed.

Lemma lockfreeFetch_unfold o s :
  be_wf s → m_nameSet o = true →
  lockfreeFetch (o, s) =
    match be_view s !! m_name o with
    | Some c => (getHeaderFromObjectData c ≫= λ _, getPayloadFromHeader)
                  (with_flags (with_existing true (with_noLock true (m_flags o))) o, s)
    | None => (Throw NoSuchObject, (o, s))
    end.
Proof.
  intros Hwf Hn. unfold lockfreeFetch. hunfold. rewrite getAddressIfSet_ok by done. simpl.
  rewrite be_read_spec by done. by destruct (be_view s !! m_name o).
Qed.

Lemma lockfreeFetch_neutral : neutral lockfreeFetch.
Proof.
  intros o s Hwf. destruct (m_nameSet o) eqn:Hn; last first.
  { unfold lockfreeFetch, getAddressIfSet. hunfold. rewrite Hn. by repeat split. }
  rewrite lockfreeFetch_unfold by done.
  destruct (be_view s !! m_name o) as [c|]; [|by repeat split].
  destruct (neutral_bind _ _ (neutral_header c) (λ _, neutral_payload)
    (with_flags (with_existing true (with_noLock true (m_flags o))) o) s Hwf) as [? ?].
  split; [done|]. by eapply same_locks_trans.
Qed.

(** The operations that write the backend. *)
Lemma insert_effect o s :
  be_wf s → let hs' := snd (insert (o, s)) in
  be_wf (snd hs') ∧ same_locks o (fst hs') ∧
  ∀ n, is_Some (be_view s !! n) → be_view (snd hs') !! n = be_view s !! n.
Proof.
  intros Hwf. unfold insert, getAddressIfSet, throw. hunfold.
  destruct (m_existingObject _); [by repeat split|].
  destruct (_ || _); [by repeat split|]. simpl.
  destruct (m_nameSet o); [|by repeat split].
  destruct (be_view s !! m_name o) as [c|] eqn:Hv.
  - destruct (be_create_exists s (m_name o) (SerializeAsString (m_header (push_payload o))) Hwf)
      as [e He]; [by eauto|]. unfold push_payload in He. simpl in He. rewrite He. by repeat split.
  - destruct (be_create_new s (m_name o) (SerializeAsString (m_header (push_payload o))) Hwf Hv)
      as (s' & He & Hwf' & Hv'). unfold push_payload in He, Hv'. simpl in He, Hv'. rewrite He. simpl.
    split; [done|]. split; [by repeat split|]. intros n [x Hx]. rewrite Hv'.
    rewrite lookup_insert_ne; [done|]. congruence.
Qed.

Lemma commit_effect o s :
  be_wf s → let hs' := snd (commit (o, s)) in
  be_wf (snd hs') ∧ same_locks o (fst hs') ∧
  ∀ n, be_view (snd hs') !! n ≠ be_view s !! n → writable o ∧ m_existingObject (m_flags o) = true ∧ n = m_name o.
Proof.
  intros Hwf. unfold commit, getAddressIfSet, throw. hunfold.
  destruct (checkPayloadWritable o) as [[]|e] eqn:Hc; [|by repeat split].
  apply checkPayloadWritable_ok in Hc.
  destruct (m_existingObject _) eqn:He; [|by repeat split]. simpl.
  destruct (m_nameSet o); [|by repeat split]. simpl.
  destruct (be_view s !! m_name o) as [c|] eqn:Hv.
  - destruct (be_overwrite_ok s (m_name o) (SerializeAsString (m_header (push_payload o))) Hwf)
      as (s' & Ho & Hwf' & Hv'); [by eauto|].
    unfold push_payload in Ho, Hv'. simpl in Ho, Hv'. rewrite Ho. simpl.
    split; [done|]. split; [by repeat split|]. intros n Hn. do 2 (split; [done|]).
    destruct (decide (n = m_name o)) as [|Hne]; [done|]. destruct Hn.
    by rewrite Hv', lookup_insert_ne.
  - destruct (be_overwrite_absent s (m_name o) (SerializeAsString (m_header (push_payload o))) Hwf Hv)
      as [e Ho]. unfold push_payload in Ho. simpl in Ho. rewrite Ho. by repeat split.
Qed.

Lemma remove_effect o s :
  be_wf s → let hs' := snd (remove (o, s)) in
  be_wf (snd hs') ∧ same_locks o (fst hs') ∧
  ∀ n, be_view (snd hs') !! n ≠ be_view s !! n → checkWritable o = Ok tt ∧ n = m_name o.
Proof.
  intros Hwf. unfold remove, getAddressIfSet, throw. hunfold.
  destruct (checkWritable o) as [[]|e] eqn:Hc; [|by repeat split].
  destruct (m_nameSet o); [|by repeat split]. simpl.
  destruct (be_view s !! m_name o) as [c|] eqn:Hv.
  - destruct (be_remove_ok s (m_name o) Hwf) as (s' & Ho & Hwf' & Hv'); [by eauto|].
    rewrite Ho. simpl. split; [done|]. split; [by repeat split|]. intros n Hn. split; [done|].
    destruct (decide (n = m_name o)) as [|Hne]; [done|]. destruct Hn.
    by rewrite Hv', lookup_delete_ne.
  - destruct (be_remove_absent s (m_name o) Hwf Hv) as [e Ho]. rewrite Ho. by repeat split.
Qed.

Lemma lock_effect l o s :
  be_wf s → lock_inv l o →
  let '(l', (o', s')) := hop_run OpLock (l, (o, s)) in
  s' = s ∧ lock_inv l' o' ∧ sl_type l' = sl_type l.
Proof.
  intros Hwf Hi. unfold hop_run, lock, checkNotLocked. destruct (m_locked l) eqn:Hl; [done|].
  hunfold. unfold checkObjectAndAddressSet. destruct (_ || _); [done|].
  unfold getAddressIfSet. destruct (m_nameSet o); [|done]. simpl.
  assert (∃ r, be_lock (m_name o) s = (r, s)) as [r Hr].
  { destruct (be_view s !! m_name o) eqn:Hv; eexists;
      [eapply be_lock_ok; eauto|by eapply be_lock_absent]. }
  rewrite Hr. destruct r as [[]|e]; [|done]. simpl. split; [done|]. split; [|done].
  revert Hi. unfold lock_inv, setObjectLocked. rewrite Hl. simpl.
  destruct (sl_type l); simpl; intros (? & -> & ->); done.
Qed.

(** A mutable access through which nothing of the backend changes. *)
Lemma update_effect f o s :
  let hs' := snd (update_payload f (o, s)) in snd hs' = s ∧ same_locks o (fst hs').
Proof.
  unfold update_payload. hunfold. destruct (checkPayloadWritable o); by repeat split.
Qed.

Lemma release_effect l o :
  lock_inv l o →
  match release l o with
  | Ok (l', o') => lock_inv l' o' ∧ sl_type l' = sl_type l
  | Throw _ => True
  end.
Proof.
  unfold release, checkLocked, releaseIfNeeded, lock_inv, setObjectUnlocked, mbind, result_bind.
  destruct (m_locked l); [|done]. simpl. destruct (sl_type l); simpl; intuition lia.
Qed.

Lemma hop_run_inv op l o s :
  be_wf s → lock_inv l o →
  let '(l', (o', s')) := hop_run op (l, (o, s)) in
  be_wf s' ∧ lock_inv l' o' ∧ sl_type l' = sl_type l.
Proof.
  intros Hwf Hi.
  assert (Hneu : ∀ m : M (HState B P St) unit, neutral m →
    let '(l', (o', s')) := (l, snd (m (o, s))) in be_wf s' ∧ lock_inv l' o' ∧ sl_type l' = sl_type l).
  { intros m Hm. destruct (Hm o s Hwf) as [Hs Hl]. destruct (snd (m (o, s))) as [o' s']; simpl in *.
    subst. split; [done|]. split; [by eapply lock_inv_same|done]. }
  assert (Heff : ∀ (m : M (HState B P St) unit), be_wf (snd (snd (m (o, s)))) →
    same_locks o (fst (snd (m (o, s)))) →
    let '(l', (o', s')) := (l, snd (m (o, s))) in be_wf s' ∧ lock_inv l' o' ∧ sl_type l' = sl_type l).
  { intros m Hm Hl. destruct (snd (m (o, s))) as [o' s']; simpl in *.
    split; [done|]. split; [by eapply lock_inv_same|done]. }
  destruct op as [| | | | | |f|w| | |]; simpl hop_run.
  - pose proof (lock_effect l o s Hwf Hi) as H. simpl in H.
    destruct (lock l (o, s)) as [[l'|e] [o' s']]; destruct H as (-> & ? & ?); done.
  - pose proof (release_effect l o Hi) as H. destruct (release l o) as [[l' o']|e]; [|done].
    by destruct H.
  - unfold initialize. destruct (_ || _); [done|]. done.
  - apply Hneu, fetch_neutral.
  - apply Hneu, fetchNoLock_neutral.
  - apply Hneu, lockfreeFetch_neutral.
  - destruct (update_effect f o s) as [Hs Hl]. apply Heff; [by rewrite Hs|done].
  - unfold setOwner, mbind, result_bind. destruct (checkHeaderWritable o); done.
  - apply Heff; by apply insert_effect.
  - apply Heff; by apply commit_effect.
  - apply Heff; by apply remove_effect.
Qed.

Lemma hreach_inv l0 o0 s0 l o s :
  be_wf s0 → lock_inv l0 o0 → hreach l0 (o0, s0) (l, (o, s)) →
  be_wf s ∧ lock_inv l o ∧ sl_type l = sl_type l0.
Proof.
  intros Hwf Hi Hr. remember (l, (o, s)) as c eqn:Hc. revert l o s Hc.
  induction Hr as [|[l1 [o1 s1]] op Hr IH]; intros l o s Hc; simplify_eq; [done|].
  destruct (IH l1 o1 s1 eq_refl) as (Hwf1 & Hi1 & Ht1).
  pose proof (hop_run_inv op l1 o1 s1 Hwf1 Hi1) as H.
  destruct (hop_run op (l1, (o1, s1))) as [l2 [o2 s2]]. simplify_eq.
  destruct H as (? & ? & Ht2). do 2 (split; [done|]). congruence.
Qed.

Lemma lock_inv_writable l o :
  lock_inv l o → m_existingObject (m_flags o) = true →
  m_locksForWriteCount (m_flags o) ≠ 0 → m_locked l = true ∧ sl_type l = Exclusive.
Proof. unfold lock_inv. destruct (m_locked l), (sl_type l); intuition lia. Qed.

(** Which steps can change the content of an object that exists. *)
Lemma hop_run_changes op l o s n :
  be_wf s → lock_inv l o → is_Some (be_view s !! n) →
  be_view (snd (snd (hop_run op (l, (o, s))))) !! n ≠ be_view s !! n →
  n = m_name o ∧
  (m_locked l = true ∧ sl_type l = Exclusive ∨
   op = OpRemove ∧ m_existingObject (m_flags o) = false ∧
   be_view (snd (snd (hop_run op (l, (o, s))))) !! n = None).
Proof.
  intros Hwf Hi Hn Hch. pose proof (lock_inv_writable l o Hi) as Hlw.
  destruct op as [| | | | | |f|w| | |]; simpl in Hch.
  - pose proof (lock_effect l o s Hwf Hi) as H. simpl in H.
    destruct (lock l (o, s)) as [[l'|e] [o' s']]; destruct H as (-> & _); done.
  - destruct (release l o) as [[l' o']|e]; done.
  - unfold initialize in Hch. destruct (_ || _); done.
  - destruct (fetch_neutral o s Hwf) as [Hs _]. by rewrite Hs in Hch.
  - destruct (fetchNoLock_neutral o s Hwf) as [Hs _]. by rewrite Hs in Hch.
  - destruct (lockfreeFetch_neutral o s Hwf) as [Hs _]. by rewrite Hs in Hch.
  - destruct (update_effect f o s) as [Hs _]. by rewrite Hs in Hch.
  - unfold setOwner, mbind, result_bind in Hch. destruct (checkHeaderWritable o); done.
  - destruct (insert_effect o s Hwf) as (_ & _ & H). by rewrite H in Hch.
  - destruct (commit_effect o s Hwf) as (_ & _ & H). destruct (H n Hch) as ([_ Hw] & He & ->).
    split; [done|]. left. apply Hlw; [done|]. by apply Hw.
  - destruct (remove_effect o s Hwf) as (_ & _ & H). destruct (H n Hch) as [Hw ->].
    split; [done|]. destruct (m_existingObject (m_flags o)) eqn:He.
    + left. apply Hlw; [done|]. unfold checkWritable in Hw. rewrite He in Hw. simpl in Hw.
      destruct (Z.eqb_spec (m_locksForWriteCount (m_flags o)) 0); done.
    + right. do 2 (split; [done|]). simpl. revert Hch. unfold remove. hunfold. rewrite Hw.
      unfold getAddressIfSet. destruct (m_nameSet o); [|done]. simpl.
      destruct (be_remove_ok s (m_name o) Hwf Hn) as (s' & -> & _ & Hv). simpl.
      by rewrite Hv, lookup_delete_eq.
Qed.

(** C2: what is inserted is what any later reader fetches.  A handle that was
    initialised is inserted under a name the backend does not hold; then a
    lock-free fetch through any handle of that name succeeds and yields the
    same payload, owner and backup owner, a second insertion of the name is
    refused without changing anything, and every other object is unchanged. *)
Theorem insert_fetch_roundtrip s o o2 :
  be_wf s → insertable o → be_view s !! m_name o = None →
  m_nameSet o2 = true → m_name o2 = m_name o →
  ∃ o1 s' o2', insert (o, s) = (Ok tt, (o1, s')) ∧
    lockfreeFetch (o2, s') = (Ok tt, (o2', s')) ∧
    m_payload o2' = m_payload o ∧
    h_owner (m_header o2') = h_owner (m_header o) ∧
    h_backupowner (m_header o2') = h_backupowner (m_header o) ∧
    (∃ e o', insert (o, s') = (Throw e, (o', s'))) ∧
    (∀ n, n ≠ m_name o → be_view s' !! n = be_view s !! n).
Proof.
  intros Hwf Hins Habs Hset Hname.
  destruct (insert_spec s o Hwf Hins Habs) as (s' & Hi & Hwf' & Hv & Hst).
  assert (Hst2 : stored s' (m_name o2) = Some (m_header (push_payload o), m_payload o)).
  { by rewrite Hst, Hname, decide_True. }
  pose proof (lockfreeFetch_spec s' _ _ o2 Hwf' Hst2 Hset) as Hf.
  do 3 eexists. split; [exact Hi|]. split; [exact Hf|]. do 3 (split; [done|]). split.
  - destruct Hins as (He & Hh & Hp & Hn & _). unfold insert. hunfold. rewrite He, Hh, Hp. simpl.
    rewrite getAddressIfSet_ok by done. simpl.
    destruct (be_create_exists s' (m_name o) (SerializeAsString (m_header (push_payload o))) Hwf')
      as [e He']; [rewrite Hv, lookup_insert_eq; eauto|].
    unfold push_payload in He'. simpl in He'. rewrite He'. eauto.
  - intros n Hn. rewrite Hv. by rewrite lookup_insert_ne.
Qed.

(** C3: existing objects are only overwritten under an exclusive lock.  Take any
    sequence of the public operations on a fresh handle guarded by one scoped
    lock.  If a step changes the content of an object that exists in the backend,
    then the object is the one the handle is bound to, and either the lock is an
    exclusive one and is held, or the step is a [remove] through a handle that is not
    marked as an existing object, and the object is gone. *)
Theorem exclusive_lock_guards_writes l0 name dummy s0 l o s op n :
  be_wf s0 → m_locked l0 = false →
  hreach l0 (mkOps true name (m_header (new_object dummy)) (m_payload (new_object dummy))
               fresh_flags, s0) (l, (o, s)) →
  is_Some (be_view s !! n) →
  be_view (snd (snd (hop_run op (l, (o, s))))) !! n ≠ be_view s !! n →
  n = m_name o ∧
  (m_locked l = true ∧ sl_type l = Exclusive ∨
   op = OpRemove ∧ m_existingObject (m_flags o) = false ∧
   be_view (snd (snd (hop_run op (l, (o, s))))) !! n = None).
Proof.
  intros Hwf Hl Hr Hn Hch.
  eapply hreach_inv in Hr as (Hwf' & Hi & _); [by eapply hop_run_changes|done|].
  unfold lock_inv. rewrite Hl. done.
Qed.
End Storage.

(** ** Names of new objects: [AgentReference] *)
Record AgentReference := mkAgent { m_agentAddress : string; m_nextId : Z }.

Definition nextId (childType : string) (a : AgentReference) : string * AgentReference :=
  (childType +:+ "-" +:+ m_agentAddress a +:+ "-" +:+ pretty (m_nextId a),
   mkAgent (m_agentAddress a) (m_nextId a +u64 1)).

(** Distinct identifiers of one agent and one child type are distinct names. *)
Lemma append_inj (a b c : string) : a +:+ b = a +:+ c → b = c.
Proof. induction a as [|x a IH]; simpl; intros; simplify_eq; auto. Qed.

Lemma nextId_inj t addr i j :
  fst (nextId t (mkAgent addr i)) = fst (nextId t (mkAgent addr j)) → i = j.
Proof.
  unfold nextId; simpl. intros H. do 4 apply append_inj in H. by apply (inj pretty) in H.
Qed.

(** ** A concrete serialisation

    Used to run the model and to show that the hypotheses of the theorems can
    hold: a content is a message of some type or a header. *)
Module Blob.
Inductive blob (T : Type) :=
  | BMsg (t : T)
  | BHdr (type : ObjectType) (version : Z) (owner backup : string) (payload : blob T).
Arguments BMsg {T} _.
Arguments BHdr {T} _ _ _ _ _.

#[export] Program Instance blob_header (T : Type) : Serializable (blob T) (ObjectHeader (blob T)) := {|
  SerializeAsString h := BHdr (h_type h) (h_version h) (h_owner h) (h_backupowner h) (h_payload h);
  ParseFromString b := match b with
    | BHdr t v o bo p => Some (mkHeader t v o bo p) | BMsg _ => None end
|}.
Next Obligation. by intros T []. Qed.

(** A message type among those of [T]. *)
Class OneOf (T P : Type) := {
  inj_msg : P → T;
  proj_msg : T → option P;
  proj_inj (p : P) : proj_msg (inj_msg p) = Some p
}.

#[export] Program Instance blob_message (T P : Type) `{!OneOf T P} : Serializable (blob T) P := {|
  SerializeAsString p := BMsg (inj_msg p);
  ParseFromString b := match b with BMsg t => proj_msg t | BHdr _ _ _ _ _ => None end
|}.
Next Obligation. intros T P ? p. apply proj_inj. Qed.

#[export] Program Instance OneOf_self (T : Type) : OneOf T T := {|
  inj_msg p := p; proj_msg t := Some t |}.
Next Obligation. done. Qed.
End Blob.

(** A counter stored in the file system backend. *)
Section Witness.
Import Blob.
#[local] Instance Z_message : Message Z := {| payloadTypeId := GenericObject_t; default_message := 0 |}.

Definition demo_handle (name : string) (z : Z) : ObjectOps (blob Z) Z :=
  mkOps true name (mkHeader GenericObject_t 0 "agent" "" (BMsg 0)) z
    (mkFlags true true false 0 0 false false false).

Definition demo_store : vfs (blob Z) := VFS.mkVfs ∅ ∅.

Lemma insert_fetch_roundtrip_witness :
  ∃ o1 s' o2', insert (demo_handle "counter" 41, demo_store) = (Ok tt, (o1, s')) ∧
    lockfreeFetch (demo_handle "counter" 0, s') = (Ok tt, (o2', s')) ∧
    m_payload o2' = 41 ∧
    h_owner (m_header o2') = "agent" ∧
    h_backupowner (m_header o2') = "" ∧
    (∃ e o', insert (demo_handle "counter" 41, s') = (Throw e, (o', s'))) ∧
    (∀ n, n ≠ "counter" → be_view s' !! n = be_view demo_store !! n).
Proof.
  apply (insert_fetch_roundtrip demo_store (demo_handle "counter" 41) (demo_handle "counter" 0));
    try reflexivity. by repeat split.
Defined.

Definition demo_existing : vfs (blob Z) :=
  VFS.mkVfs {["counter" := BHdr GenericObject_t 0 "" "" (BMsg 7)]} {["counter"]}.

Definition demo_new : ObjectOps (blob Z) Z :=
  mkOps true "counter" (m_header (new_object (BMsg 0))) (m_payload (new_object (P:=Z) (BMsg 0)))
    fresh_flags.

Definition demo_conf : ScopedLock * HState (blob Z) Z (vfs (blob Z)) :=
  hop_run (OpUpdate (λ z, z + 1)) (hop_run OpFetch (hop_run OpLock
    (mkLock Exclusive false, (demo_new, demo_existing)))).

Lemma exclusive_lock_guards_writes_witness :
  "counter" = m_name (fst (snd demo_conf)) ∧
  m_locked (fst demo_conf) = true ∧ sl_type (fst demo_conf) = Exclusive.
Proof.
  assert (H : "counter" = m_name (fst (snd demo_conf)) ∧
    (m_locked (fst demo_conf) = true ∧ sl_type (fst demo_conf) = Exclusive ∨
     OpCommit (P := Z) = OpRemove ∧ m_existingObject (m_flags (fst (snd demo_conf))) = false ∧
     be_view (snd (snd (hop_run OpCommit (fst demo_conf, (fst (snd demo_conf), snd (snd demo_conf)))))) !! "counter" = None));
    [|by destruct H as (? & [?|[? _]])].
  apply (exclusive_lock_guards_writes (mkLock Exclusive false) "counter" (BMsg 0) demo_existing
    (fst demo_conf) (fst (snd demo_conf)) (snd (snd demo_conf)) OpCommit "counter").
  - vm_compute. reflexivity.
  - reflexivity.
  - replace (fst demo_conf, (fst (snd demo_conf), snd (snd demo_conf))) with demo_conf
      by (by destruct demo_conf as [? [? ?]]).
    repeat constructor.
  - vm_compute. eauto.
  - vm_compute. congruence.
Defined.
End Witness.
