(* ===== verification/DataTypes.v ===== *)
(** * Data shared by the requests and the queues

    The structures of [common/dataStructures] that the object store keeps in its
    messages ([EntryLog], [MountPolicy], [RequesterIdentity], [DiskFileInfo]),
    their messages with the [SerDeser] conversions, and the enumerations of
    [objectstore/cta.proto] and [objectstore/JobQueueType.hpp]. *)
From S2P Require Import Prelude.

(** [common::dataStructures::EntryLog]; [time] is a [time_t]. *)
Record EntryLog := mkEntryLog { el_username : string; el_host : string; el_time : Z }.

#[export] Instance EntryLog_eq_dec : EqDecision EntryLog.
Proof. solve_decision. Defined.

(** [common::dataStructures::MountPolicy]. *)
Record MountPolicy := mkMountPolicy {
  mp_name : string;
  archivePriority : Z;
  archiveMinRequestAge : Z;
  retrievePriority : Z;
  retrieveMinRequestAge : Z;
  mp_creationLog : EntryLog;
  mp_lastModificationLog : EntryLog;
  mp_comment : string
}.

#[export] Instance MountPolicy_eq_dec : EqDecision MountPolicy.
Proof. solve_decision. Defined.

(** [MountPolicy::operator==]. *)
Definition MountPolicy_eqb (a b : MountPolicy) : bool :=
  bool_decide (mp_name a = mp_name b) &&
  bool_decide (archivePriority a = archivePriority b) &&
  bool_decide (archiveMinRequestAge a = archiveMinRequestAge b) &&
  bool_decide (retrievePriority a = retrievePriority b) &&
  bool_decide (retrieveMinRequestAge a = retrieveMinRequestAge b) &&
  bool_decide (mp_creationLog a = mp_creationLog b) &&
  bool_decide (mp_lastModificationLog a = mp_lastModificationLog b) &&
  bool_decide (mp_comment a = mp_comment b).

Lemma MountPolicy_eqb_eq a b : MountPolicy_eqb a b = true ↔ a = b.
Proof.
  unfold MountPolicy_eqb. rewrite !andb_true_iff, !bool_decide_eq_true.
  destruct a, b; simpl. split; [by intros (((((((-> & ->) & ->) & ->) & ->) & ->) & ->) & ->)|].
  by intros [= -> -> -> -> -> -> -> ->].
Qed.

(** The messages of [cta.proto]; [time] is a [uint64]. *)
Module serializers.
Record EntryLog := mkEntryLog { username : string; host : string; time : Z }.
Record MountPolicy := mkMountPolicy {
  name : string;
  archivepriority : Z;
  archiveminrequestage : Z;
  retrievepriority : Z;
  retieveminrequestage : Z;
  creationlog : EntryLog;
  lastmodificationlog : EntryLog;
  comment : string
}.
Record DiskFileInfo := mkDiskFileInfo { owner_uid : Z; gid : Z; path : string }.
Definition no_disk_info : DiskFileInfo := mkDiskFileInfo 0 0 "".
End serializers.

(** [EntryLogSerDeser]: a [time_t] is stored as a [uint64]. *)
Definition EntryLog_serialize (e : EntryLog) : serializers.EntryLog :=
  serializers.mkEntryLog (el_username e) (el_host e) (u64 (el_time e)).
Definition EntryLog_deserialize (m : serializers.EntryLog) : EntryLog :=
  mkEntryLog (serializers.username m) (serializers.host m) (s64 (serializers.time m)).

(** [MountPolicySerDeser]. *)
Definition MountPolicy_serialize (p : MountPolicy) : serializers.MountPolicy :=
  serializers.mkMountPolicy (mp_name p) (archivePriority p) (archiveMinRequestAge p)
    (retrievePriority p) (retrieveMinRequestAge p)
    (EntryLog_serialize (mp_creationLog p)) (EntryLog_serialize (mp_lastModificationLog p))
    (mp_comment p).
Definition MountPolicy_deserialize (m : serializers.MountPolicy) : MountPolicy :=
  mkMountPolicy (serializers.name m) (serializers.archivepriority m)
    (serializers.archiveminrequestage m) (serializers.retrievepriority m)
    (serializers.retieveminrequestage m)
    (EntryLog_deserialize (serializers.creationlog m))
    (EntryLog_deserialize (serializers.lastmodificationlog m)) (serializers.comment m).

Definition in_time_t (z : Z) : Prop := - 2 ^ 63 <= z < 2 ^ 63.

Lemma s64_u64 z : in_time_t z → s64 (u64 z) = z.
Proof.
  unfold in_time_t, s64, u64. intros Hz. rewrite Z.mod_mod by lia.
  destruct (decide (0 <= z)).
  - rewrite Z.mod_small by lia. destruct (Z.ltb_spec z (2 ^ 63)); lia.
  - rewrite <- (Z.mod_add z 1) by lia. rewrite Z.mod_small by lia.
    destruct (Z.ltb_spec (z + 1 * 2 ^ 64) (2 ^ 63)); lia.
Qed.

Lemma EntryLog_roundtrip e :
  in_time_t (el_time e) → EntryLog_deserialize (EntryLog_serialize e) = e.
Proof.
  intros H. destruct e. unfold EntryLog_deserialize, EntryLog_serialize; simpl in *.
  by rewrite s64_u64.
Qed.

Lemma MountPolicy_roundtrip p :
  in_time_t (el_time (mp_creationLog p)) → in_time_t (el_time (mp_lastModificationLog p)) →
  MountPolicy_deserialize (MountPolicy_serialize p) = p.
Proof.
  intros H1 H2. destruct p. unfold MountPolicy_deserialize, MountPolicy_serialize; simpl in *.
  by rewrite !EntryLog_roundtrip.
Qed.

(** [common::dataStructures::RequesterIdentity] and [DiskFileInfo]. *)
Record RequesterIdentity := mkRequester { ri_name : string; ri_group : string }.
Record DiskFileInfo := mkDiskFileInfo { dfi_path : string; dfi_owner_uid : Z; dfi_gid : Z }.

#[export] Instance DiskFileInfo_eq_dec : EqDecision DiskFileInfo.
Proof. solve_decision. Defined.

(** [DiskFileInfo::operator==]. *)
Definition DiskFileInfo_eqb (a b : DiskFileInfo) : bool :=
  bool_decide (dfi_path a = dfi_path b) && (dfi_owner_uid a =? dfi_owner_uid b) && (dfi_gid a =? dfi_gid b).

(** [DiskFileInfoSerDeser]. *)
Definition DiskFileInfo_serialize (d : DiskFileInfo) : serializers.DiskFileInfo :=
  serializers.mkDiskFileInfo (dfi_owner_uid d) (dfi_gid d) (dfi_path d).
Definition DiskFileInfo_deserialize (m : serializers.DiskFileInfo) : DiskFileInfo :=
  mkDiskFileInfo (serializers.path m) (serializers.owner_uid m) (serializers.gid m).

Lemma DiskFileInfo_roundtrip d : DiskFileInfo_deserialize (DiskFileInfo_serialize d) = d.
Proof. by destruct d. Qed.

Lemma DiskFileInfo_eqb_eq a b : DiskFileInfo_eqb a b = bool_decide (a = b).
Proof.
  apply eq_true_iff_eq. unfold DiskFileInfo_eqb.
  rewrite !andb_true_iff, !bool_decide_eq_true, !Z.eqb_eq. destruct a, b; simpl. naive_solver.
Qed.

(** [serializers::ArchiveJobStatus], with the numbers of [cta.proto]. *)
Inductive ArchiveJobStatus :=
  | AJS_ToTransferForUser | AJS_ToReportToUserForTransfer | AJS_Complete
  | AJS_ToReportToUserForFailure | AJS_Failed | AJS_Abandoned
  | AJS_ToTransferForRepack | AJS_ToReportToRepackForSuccess | AJS_ToReportToRepackForFailure.

#[export] Instance ArchiveJobStatus_eq_dec : EqDecision ArchiveJobStatus.
Proof. solve_decision. Defined.

Definition ArchiveJobStatus_num (s : ArchiveJobStatus) : Z :=
  match s with
  | AJS_ToTransferForUser => 1
  | AJS_ToReportToUserForTransfer => 2
  | AJS_Complete => 3
  | AJS_ToReportToUserForFailure => 997
  | AJS_Failed => 998
  | AJS_Abandoned => 999
  | AJS_ToTransferForRepack => 1001
  | AJS_ToReportToRepackForSuccess => 1005
  | AJS_ToReportToRepackForFailure => 1006
  end.

(** [serializers::RetrieveJobStatus]. *)
Inductive RetrieveJobStatus :=
  | RJS_ToTransfer | RJS_ToReportToUserForFailure | RJS_Failed
  | RJS_ToReportToRepackForSuccess | RJS_ToReportToRepackForFailure.

#[export] Instance RetrieveJobStatus_eq_dec : EqDecision RetrieveJobStatus.
Proof. solve_decision. Defined.

Definition RetrieveJobStatus_num (s : RetrieveJobStatus) : Z :=
  match s with
  | RJS_ToTransfer => 1
  | RJS_ToReportToUserForFailure => 997
  | RJS_Failed => 998
  | RJS_ToReportToRepackForSuccess => 1002
  | RJS_ToReportToRepackForFailure => 1003
  end.

(** [JobQueueType]. *)
Inductive JobQueueType :=
  | JobsToTransferForUser | FailedJobs | JobsToReportToUser
  | JobsToReportToRepackForSuccess | JobsToReportToRepackForFailure
  | JobsToTransferForRepack.

#[export] Instance JobQueueType_eq_dec : EqDecision JobQueueType.
Proof. solve_decision. Defined.

Definition JobQueueType_toString (queueType : JobQueueType) : string :=
  match queueType with
  | FailedJobs => "failedJobs"
  | JobsToReportToUser => "JobsToReportToUser"
  | JobsToTransferForUser => "jobsToTranfer"
  | JobsToReportToRepackForSuccess => "JobsToReportToRepackForSuccess"
  | JobsToReportToRepackForFailure => "JobsToReportToRepackForFailure"
  | JobsToTransferForRepack => "JobsToTransferForRepack"
  end.

(** [ArchiveRequest::JobDump]. *)
Record ArchiveJobDump := mkArchiveJobDump {
  ajd_copyNb : Z;
  ajd_tapePool : string;
  ajd_owner : string;
  ajd_status : ArchiveJobStatus
}.
