(* ===== verification/ArchiveQueue.v ===== *)
(** * Archive queues

    Model of [objectstore/ArchiveQueue.cpp]: a queue object with summaries and
    pointers to the shards that hold the jobs.  All operations are translated,
    with the reads and writes of the object store they perform, in their order.

    The queue is locked exclusively by the caller; the lock is extended to the
    shards with [includeSubObject]. *)
From S2P Require Import Prelude DataTypes ValueCountMap Backend ObjectOps ArchiveQueueShard.

(** [serializers::ArchiveQueueShardPointer]. *)
Record ShardPointer := mkShardPointer {
  sp_address : string;
  shardjobscount : Z;
  shardbytescount : Z
}.

(** [serializers::ArchiveQueue]. *)
Record ArchiveQueue := mkArchiveQueue {
  tapepool : string;
  archivequeueshards : list ShardPointer;
  prioritymap : list (VCPair Z);
  minarchiverequestagemap : list (VCPair Z);
  mountpolicynamemap : list (VCPair string);
  archivejobstotalsize : Z;
  archivejobscount : Z;
  oldestjobcreationtime : Z;
  mapsrebuildcount : Z
}.

#[export] Instance ArchiveQueue_message : Message ArchiveQueue := {|
  payloadTypeId := ArchiveQueue_t;
  default_message := mkArchiveQueue "" [] [] [] [] 0 0 0 0 |}.

(** [ArchiveQueue::JobsSummary]. *)
Record JobsSummary := mkJobsSummary {
  js_jobs : Z;
  js_bytes : Z;
  js_oldestJobStartTime : Z;
  js_priority : Z;
  js_minArchiveRequestAge : Z;
  js_mountPolicyCountMap : gmap string Z
}.

(** [ArchiveQueue::AdditionSummary]. *)
Record AdditionSummary := mkAddition { as_files : Z; as_bytes : Z }.

Definition c_maxShardSize : Z := 25000.

(** Field updates of the payload. *)
Definition set_tapepool (x : string) (q : ArchiveQueue) : ArchiveQueue :=
  mkArchiveQueue x (archivequeueshards q) (prioritymap q) (minarchiverequestagemap q)
    (mountpolicynamemap q) (archivejobstotalsize q) (archivejobscount q)
    (oldestjobcreationtime q) (mapsrebuildcount q).
Definition set_shards (x : list ShardPointer) (q : ArchiveQueue) : ArchiveQueue :=
  mkArchiveQueue (tapepool q) x (prioritymap q) (minarchiverequestagemap q)
    (mountpolicynamemap q) (archivejobstotalsize q) (archivejobscount q)
    (oldestjobcreationtime q) (mapsrebuildcount q).
Definition set_maps (p a : list (VCPair Z)) (n : list (VCPair string)) (q : ArchiveQueue) :
    ArchiveQueue :=
  mkArchiveQueue (tapepool q) (archivequeueshards q) p a n (archivejobstotalsize q)
    (archivejobscount q) (oldestjobcreationtime q) (mapsrebuildcount q).
Definition set_totals (bytes jobs oldest : Z) (q : ArchiveQueue) : ArchiveQueue :=
  mkArchiveQueue (tapepool q) (archivequeueshards q) (prioritymap q)
    (minarchiverequestagemap q) (mountpolicynamemap q) bytes jobs oldest (mapsrebuildcount q).
Definition set_mapsrebuildcount (x : Z) (q : ArchiveQueue) : ArchiveQueue :=
  mkArchiveQueue (tapepool q) (archivequeueshards q) (prioritymap q)
    (minarchiverequestagemap q) (mountpolicynamemap q) (archivejobstotalsize q)
    (archivejobscount q) (oldestjobcreationtime q) x.

(** The state of an operation: the queue handle, the exclusive lock on it, the
    backend and the agent that names new objects. *)
Record AQState (B St : Type) := mkAQState {
  aq : ObjectOps B ArchiveQueue;
  aq_lock : ScopedLock;
  aq_be : St;
  aq_agent : AgentReference
}.
Arguments mkAQState {B St} _ _ _ _.
Arguments aq {B St} _.
Arguments aq_lock {B St} _.
Arguments aq_be {B St} _.
Arguments aq_agent {B St} _.

Section ArchiveQueue.
Context {B St : Type} `{!Serializable B ArchiveQueue, !Serializable B ArchiveQueueShard}.
Context `{!Serializable B (ObjectHeader B), !Backend B St}.
(** The header bytes of a handle before anything is read; never looked at. *)
Context (dummy : B).

Abbreviation AQ := (M (AQState B St)).

Definition this : AQ (ObjectOps B ArchiveQueue) := gets aq.
Definition payload : AQ ArchiveQueue := gets (λ s, m_payload (aq s)).
Definition set_payload (f : ArchiveQueue → ArchiveQueue) : AQ unit :=
  modify (λ s, mkAQState (with_payload (f (m_payload (aq s))) (aq s)) (aq_lock s) (aq_be s) (aq_agent s)).

(** Run an operation of another handle on the same backend. *)
Definition with_obj {P A} (o : ObjectOps B P) (m : M (HState B P St) A) :
    AQ (A * ObjectOps B P) := λ s,
  let '(r, (o', be')) := m (o, aq_be s) in
  (match r with Ok a => Ok (a, o') | Throw e => Throw e end,
   mkAQState (aq s) (aq_lock s) be' (aq_agent s)).

(** Run an operation of [ObjectOps] on the queue itself. *)
Definition with_self (m : M (HState B ArchiveQueue St) unit) : AQ unit := λ s,
  let '(r, (o', be')) := m (aq s, aq_be s) in
  (r, mkAQState o' (aq_lock s) be' (aq_agent s)).

Definition check_writable : AQ unit := o ← this; lift (checkPayloadWritable o).
Definition check_readable : AQ unit := o ← this; lift (checkPayloadReadable o).

(** [ArchiveQueueShard(address, m_objectStore)]. *)
Definition shard_at (address : string) : result (ObjectOps B ArchiveQueueShard) :=
  setAddress address (new_object dummy).

(** The lock-free fetch of a shard, [None] when it disappeared. *)
Definition lockfree_shard (address : string) : AQ (option (ObjectOps B ArchiveQueueShard)) :=
  aqs ← lift (shard_at address);
  catch (x ← with_obj aqs lockfreeFetch; mret (Some (snd x)))
    (λ e, match e with NoSuchObject => Some (mret None) | _ => None end).

(** [m_exclusiveLock->includeSubObject(aqs)]. *)
Definition include (aqs : ObjectOps B ArchiveQueueShard) : AQ (ObjectOps B ArchiveQueueShard) :=
  l ← gets aq_lock; lift (includeSubObject l aqs).

(** [initialize(name)]. *)
Definition queue_initialize (name : string) (o : ObjectOps B ArchiveQueue) :
    result (ObjectOps B ArchiveQueue) :=
  o1 ← initialize o;
  let p := m_payload o1 in
  let f := m_flags o1 in
  Ok (with_flags (with_interpreted (m_headerInterpreted f) true f)
        (with_payload (set_mapsrebuildcount 0 (set_totals 0 0 0 (set_tapepool name p))) o1)).

Definition checkMapsAndShardsCoherency : AQ bool :=
  _ ← check_readable;
  q ← payload;
  let bytesFromShardPointers :=
    foldl (λ t sp, t +u64 shardbytescount sp) 0 (archivequeueshards q) in
  let jobsExpectedFromShardsPointers :=
    foldl (λ t sp, t +u64 shardjobscount sp) 0 (archivequeueshards q) in
  if decide (archivejobstotalsize q ≠ bytesFromShardPointers ∨
             archivejobscount q ≠ jobsExpectedFromShardsPointers) then mret false
  else
    t1 ← lift (total (prioritymap q));
    if decide (t1 ≠ archivejobscount q) then mret false
    else
      t2 ← lift (total (minarchiverequestagemap q));
      if decide (t2 ≠ archivejobscount q) then mret false
      else
        t3 ← lift (total (mountpolicynamemap q));
        if decide (t3 ≠ archivejobscount q) then mret false else mret true.

(** Erase every pointer to an address. *)
Definition erase_pointers (address : string) (l : list ShardPointer) : list ShardPointer :=
  filter (λ sp, sp_address sp ≠ address) l.

(** Locals of the rebuild loop. *)
Record rebuild_locals := mkRebuild { rb_totalJobs : Z; rb_totalBytes : Z; rb_oldest : Z }.

(** The loop over the jobs of a shard, counting and filling the value maps. *)
Definition rebuild_job (acc : Z * Z * Z) (j : JobInfo) : AQ (Z * Z * Z) :=
  let '(jobs, size, oldest) := acc in
  q ← payload;
  pm ← lift (incCount (ji_priority j) (prioritymap q));
  _ ← set_payload (λ q, set_maps pm (minarchiverequestagemap q) (mountpolicynamemap q) q);
  am ← lift (incCount (ji_minArchiveRequestAge j) (minarchiverequestagemap q));
  _ ← set_payload (λ q, set_maps (prioritymap q) am (mountpolicynamemap q) q);
  nm ← lift (incCount (ji_mountPolicyName j) (mountpolicynamemap q));
  _ ← set_payload (λ q, set_maps (prioritymap q) (minarchiverequestagemap q) nm q);
  mret (jobs +u64 1, size +u64 ji_size j,
        if ji_startTime j <? oldest then ji_startTime j else oldest).

(** Record the summary of a shard in the first pointer to it. *)
Definition record_summary (address : string) (jobs size : Z) : AQ unit :=
  q ← payload;
  match index_of (λ sp, bool_decide (sp_address sp = address)) (archivequeueshards q) with
  | Some i =>
      set_payload (λ q, set_shards (<[i := mkShardPointer address jobs size]>
                                      (archivequeueshards q)) q)
  | None => throw (Exception "rebuild: failed to record summary for shard")
  end.

(** A shard with a wrong byte total is rewritten under the lock of the queue. *)
Definition repair_shard (address : string) (size total : Z) : AQ unit :=
  if decide (size ≠ total) then
    a0 ← lift (shard_at address);
    a1 ← include a0;
    a2 ← with_obj a1 fetch;
    a3 ← lift (shard_rebuild (snd a2));
    _ ← with_obj a3 commit; mret tt
  else mret tt.

Definition rebuild_shard (loc : rebuild_locals) (address : string) : AQ rebuild_locals :=
  fetched ← lockfree_shard address;
  match fetched with
  | None =>
      _ ← set_payload (λ q, set_shards (erase_pointers address (archivequeueshards q)) q);
      mret loc
  | Some s1 =>
      dump ← lift (shard_dumpJobs s1);
      acc ← mfold rebuild_job (0, 0, rb_oldest loc) dump;
      let '(jobs, size, oldest) := acc in
      _ ← record_summary address jobs size;
      summary ← lift (shard_getJobsSummary s1);
      _ ← repair_shard address size (ss_bytes summary);
      mret (mkRebuild (rb_totalJobs loc +u64 jobs) (rb_totalBytes loc +u64 size) oldest)
  end.

Definition rebuild : AQ unit :=
  _ ← check_writable;
  _ ← set_payload (λ q, set_maps (clear (prioritymap q)) (clear (minarchiverequestagemap q))
                          (clear (mountpolicynamemap q)) q);
  q ← payload;
  loc ← mfold rebuild_shard (mkRebuild 0 0 max_time_t) (sp_address <$> archivequeueshards q);
  _ ← set_payload (set_totals (rb_totalBytes loc) (rb_totalJobs loc) (u64 (rb_oldest loc)));
  set_payload (λ q, set_mapsrebuildcount (mapsrebuildcount q +u64 1) q).

(** [ArchiveQueue::commit]: the override that checks the summaries first. *)
Definition queue_commit : AQ unit :=
  b ← checkMapsAndShardsCoherency;
  _ ← (if (b : bool) then mret tt else rebuild);
  with_self commit.

Definition recompute_shard (oldest : Z) (address : string) : AQ Z :=
  fetched ← lockfree_shard address;
  match fetched with
  | None =>
      _ ← set_payload (λ q, set_shards (erase_pointers address (archivequeueshards q)) q);
      mret oldest
  | Some s1 =>
      dump ← lift (shard_dumpJobs s1);
      mret (foldl (λ o j, if ji_startTime j <? o then ji_startTime j else o) oldest dump)
  end.

Definition recomputeOldestJobCreationTime : AQ unit :=
  _ ← check_writable;
  q ← payload;
  oldest ← mfold recompute_shard max_time_t (sp_address <$> archivequeueshards q);
  if decide (oldest ≠ max_time_t) then
    set_payload (λ q, set_totals (archivejobstotalsize q) (archivejobscount q) (u64 oldest) q)
  else mret tt.

Definition isEmpty : AQ bool :=
  _ ← check_readable; q ← payload; mret (bool_decide (archivequeueshards q = [])).

Definition setTapePool (name : string) : AQ unit :=
  _ ← check_writable; set_payload (set_tapepool name).
Definition getTapePool : AQ string :=
  _ ← check_readable; q ← payload; mret (tapepool q).

(** ** Addition of jobs *)

(** The last shard pointer, the one being filled. *)
Definition last_pointer (q : ArchiveQueue) : option ShardPointer := last (archivequeueshards q).
Definition set_last_pointer (sp : ShardPointer) (q : ArchiveQueue) : ArchiveQueue :=
  set_shards (<[(length (archivequeueshards q) - 1)%nat := sp]> (archivequeueshards q)) q.

(** One turn of the inner loop: counters of the queue, the shard, its pointer. *)
Definition add_one (j : JobToAdd) (aqs : ObjectOps B ArchiveQueueShard) :
    AQ (ObjectOps B ArchiveQueueShard) :=
  q ← payload;
  pm ← lift (incCount (archivePriority (jta_policy j)) (prioritymap q));
  _ ← set_payload (λ q, set_maps pm (minarchiverequestagemap q) (mountpolicynamemap q) q);
  am ← lift (incCount (archiveMinRequestAge (jta_policy j)) (minarchiverequestagemap q));
  _ ← set_payload (λ q, set_maps (prioritymap q) am (mountpolicynamemap q) q);
  nm ← lift (incCount (mp_name (jta_policy j)) (mountpolicynamemap q));
  _ ← set_payload (λ q, set_maps (prioritymap q) (minarchiverequestagemap q) nm q);
  _ ← set_payload (λ q,
    if decide (archivejobscount q ≠ 0) then
      set_totals (archivejobstotalsize q +u64 jta_fileSize j) (archivejobscount q)
        (if u64 (jta_startTime j) <? oldestjobcreationtime q then u64 (jta_startTime j)
         else oldestjobcreationtime q) q
    else set_totals (jta_fileSize j) (archivejobscount q) (u64 (jta_startTime j)) q);
  _ ← set_payload (λ q, set_totals (archivejobstotalsize q) (archivejobscount q +u64 1)
                          (oldestjobcreationtime q) q);
  r ← lift (shard_addJob j aqs);
  let '(n, aqs') := r in
  q1 ← payload;
  match last_pointer q1 with
  | Some sp =>
      _ ← set_payload (set_last_pointer
            (mkShardPointer (sp_address sp) n (shardbytescount sp +u64 jta_fileSize j)));
      mret aqs'
  | None => throw (Exception "unreachable: no shard pointer")
  end.

(** The inner loop: fill the last shard, jobs list permitting.  Returns the jobs
    that are left. *)
Fixpoint fill_shard (jobs : list JobToAdd) (aqs : ObjectOps B ArchiveQueueShard) :
    AQ (list JobToAdd * ObjectOps B ArchiveQueueShard) :=
  match jobs with
  | [] => mret ([], aqs)
  | j :: jobs' =>
      q ← payload;
      match last_pointer q with
      | None => throw (Exception "unreachable: no shard pointer")
      | Some sp =>
          if shardjobscount sp <? c_maxShardSize
          then aqs' ← add_one j aqs; fill_shard jobs' aqs'
          else mret (j :: jobs', aqs)
      end
  end.

(** How a shard was selected for the next jobs. *)
Inductive selection :=
  | Restart                                   (** the queue was rebuilt: [continue] *)
  | Fill (newShard : bool) (aqs : ObjectOps B ArchiveQueueShard).

Definition new_shard : AQ selection :=
  _ ← set_payload (λ q, set_shards (archivequeueshards q ++ [mkShardPointer "" 0 0]) q);
  q ← payload;
  a ← gets aq_agent;
  let '(name, a') := nextId ("ArchiveQueueShard-" +:+ tapepool q) a in
  _ ← modify (λ s, mkAQState (aq s) (aq_lock s) (aq_be s) a');
  aqs0 ← lift (setAddress name (new_object dummy));
  o ← this;
  addr ← lift (getAddressIfSet o);
  aqs1 ← lift (shard_initialize addr aqs0);
  _ ← set_payload (set_last_pointer (mkShardPointer name 0 0));
  mret (Fill true aqs1).

Definition select_shard : AQ selection :=
  q ← payload;
  match last_pointer q with
  | Some sp =>
      if shardjobscount sp <? c_maxShardSize then
        aqs0 ← lift (setAddress (sp_address sp) (new_object dummy));
        aqs1 ← include aqs0;
        fetched ← catch (x ← with_obj aqs1 fetch; mret (Some (snd x)))
          (λ e, match e with NoSuchObject => Some (mret None) | _ => None end);
        match fetched with
        | None => _ ← rebuild; _ ← queue_commit; mret Restart
        | Some aqs2 =>
            summary ← lift (shard_getJobsSummary aqs2);
            if decide (shardbytescount sp ≠ ss_bytes summary ∨ shardjobscount sp ≠ ss_jobs summary)
            then _ ← rebuild; _ ← queue_commit; mret Restart
            else mret (Fill false aqs2)
        end
      else new_shard
  | None => new_shard
  end.

(** The outer loop, once per shard; [fuel] bounds the number of rounds. *)
Fixpoint add_rounds (fuel : nat) (jobs : list JobToAdd) : AQ unit :=
  match jobs with
  | [] => mret tt
  | _ =>
      match fuel with
      | O => throw OutOfFuel
      | S fuel' =>
          sel ← select_shard;
          match sel with
          | Restart => add_rounds fuel' jobs
          | Fill newShard aqs =>
              r ← fill_shard jobs aqs;
              let '(jobs', aqs') := r in
              _ ← queue_commit;
              _ ← (if (newShard : bool) then with_obj aqs' insert else with_obj aqs' commit);
              add_rounds fuel' jobs'
          end
      end
  end.

(** Rounds needed at most: one per job, one per rebuild; a rebuild leaves a
    queue that needs none. *)
Definition add_fuel (jobs : list JobToAdd) : nat := 2 * length jobs + 2.

Definition addJobsAndCommit (jobs : list JobToAdd) : AQ unit :=
  _ ← check_writable; add_rounds (add_fuel jobs) jobs.

(** The job dumps of the shards that are there. *)
Definition dump_shard (acc : list JobDump) (address : string) : AQ (list JobDump) :=
  fetched ← lockfree_shard address;
  match fetched with
  | None => mret acc
  | Some s1 =>
      dump ← lift (shard_dumpJobs s1);
      mret (acc ++ ((λ j, mkJobDump (ji_size j) (ji_address j) (ji_copyNb j)) <$> dump))
  end.

Definition dumpJobs : AQ (list JobDump) :=
  _ ← check_readable;
  q ← payload;
  mfold dump_shard [] (sp_address <$> archivequeueshards q).

Definition addJobsIfNecessaryAndCommit (jobsToAdd : list JobToAdd) : AQ AdditionSummary :=
  _ ← check_writable;
  q ← payload;
  dumps ← mfold dump_shard [] (sp_address <$> archivequeueshards q);
  let jobsToReallyAdd :=
    filter (λ j, Forall (λ d, jd_address d ≠ archiveRequestAddress j) dumps) jobsToAdd in
  let ret := foldl (λ a j, mkAddition (as_files a +u64 1) (as_bytes a +u64 jta_fileSize j))
               (mkAddition 0 0) jobsToReallyAdd in
  _ ← addJobsAndCommit jobsToReallyAdd;
  mret ret.

(** ** Summaries *)
Definition getJobsSummary : AQ JobsSummary :=
  _ ← check_readable;
  q ← payload;
  let oldest := s64 (oldestjobcreationtime q) in
  if decide (archivejobscount q ≠ 0) then
    priority ← lift (maxValue (prioritymap q));
    age ← lift (minValue (minarchiverequestagemap q));
    mret (mkJobsSummary (archivejobscount q) (archivejobstotalsize q) oldest priority age
            (getMap (mountpolicynamemap q)))
  else mret (mkJobsSummary (archivejobscount q) (archivejobstotalsize q) oldest 0 0 ∅).

Definition candidate_shard (maxBytes maxFiles : Z) (toSkip : gset string)
    (ret : CandidateJobList) (sp : ShardPointer) : AQ CandidateJobList :=
  if (candidateBytes ret <? maxBytes) && (candidateFiles ret <? maxFiles) then
    aqs0 ← lift (shard_at (sp_address sp));
    aqs1 ← with_obj aqs0 fetchNoLock;
    c ← lift (shard_getCandidateJobList (maxBytes -u64 candidateBytes ret)
                (maxFiles -u64 candidateFiles ret) toSkip (snd aqs1));
    mret (mkCandidates (remainingFilesAfterCandidates c) (remainingBytesAfterCandidates c)
            (candidateFiles ret +u64 candidateFiles c) (candidateBytes ret +u64 candidateBytes c)
            (candidates ret ++ candidates c))
  else
    mret (mkCandidates (remainingFilesAfterCandidates ret +u64 shardjobscount sp)
            (remainingBytesAfterCandidates ret +u64 shardbytescount sp)
            (candidateFiles ret) (candidateBytes ret) (candidates ret)).

Definition getCandidateList (maxBytes maxFiles : Z) (toSkip : gset string) : AQ CandidateJobList :=
  _ ← check_readable;
  q ← payload;
  mfold (candidate_shard maxBytes maxFiles toSkip) (mkCandidates 0 0 0 0 []) (archivequeueshards q).

Definition getCandidateSummary : AQ CandidateJobList :=
  _ ← check_readable;
  q ← payload;
  mret (foldl (λ ret sp, mkCandidates 0 0 (candidateFiles ret +u64 shardjobscount sp)
                           (candidateBytes ret +u64 shardbytescount sp) [])
          (mkCandidates 0 0 0 0 []) (archivequeueshards q)).

(** ** Removal of jobs *)
Definition dec_counters (j : JobInfo) : AQ unit :=
  q ← payload;
  pm ← lift (decCount (ji_priority j) (prioritymap q));
  _ ← set_payload (λ q, set_maps pm (minarchiverequestagemap q) (mountpolicynamemap q) q);
  am ← lift (decCount (ji_minArchiveRequestAge j) (minarchiverequestagemap q));
  _ ← set_payload (λ q, set_maps (prioritymap q) am (mountpolicynamemap q) q);
  nm ← lift (decCount (ji_mountPolicyName j) (mountpolicynamemap q));
  set_payload (λ q, set_maps (prioritymap q) (minarchiverequestagemap q) nm q).

(** Update the pointer of the shard, or drop it; returns the next index. *)
Definition update_pointer (shardIndex : nat) (sp : ShardPointer) (res : RemovalResult) : AQ nat :=
  if decide (jobsAfter res ≠ 0) then
    let sp' := mkShardPointer (sp_address sp) (shardjobscount sp -u64 jobsRemoved res)
                 (shardbytescount sp -u64 bytesRemoved res) in
    _ ← set_payload (λ q, set_shards (<[shardIndex := sp']> (archivequeueshards q)) q);
    _ ← (if decide (shardbytescount sp' ≠ bytesAfter res ∨ shardjobscount sp' ≠ jobsAfter res)
         then rebuild else mret tt);
    mret (S shardIndex)
  else
    _ ← set_payload (λ q, set_shards (RemoveLast (push_to_end shardIndex (archivequeueshards q))) q);
    mret shardIndex.

(** One turn of the loop on the shard at [shardIndex]; returns the next index
    and the jobs left to remove. *)
Definition remove_round (shardIndex : nat) (todo : list string) (sp : ShardPointer) :
    AQ (nat * list string) :=
  aqs0 ← lift (shard_at (sp_address sp));
  aqs1 ← include aqs0;
  aqs2 ← with_obj aqs1 fetch;
  r ← lift (shard_removeJobs todo (snd aqs2));
  let '(res, aqs3) := r in
  _ ← (if decide (jobsAfter res ≠ 0) then with_obj aqs3 commit else with_obj aqs3 remove);
  _ ← mfor (removedJobs res) dec_counters;
  _ ← set_payload (λ q, set_totals (archivejobstotalsize q -u64 bytesRemoved res)
                          (archivejobscount q -u64 jobsRemoved res) (oldestjobcreationtime q) q);
  next ← update_pointer shardIndex sp res;
  let todo' := filter (λ ja, Forall (λ j, ji_address j ≠ ja) (removedJobs res)) todo in
  _ ← recomputeOldestJobCreationTime;
  _ ← queue_commit;
  mret (next, todo').

Fixpoint remove_loop (fuel : nat) (shardIndex : nat) (todo : list string) : AQ unit :=
  match todo with
  | [] => mret tt
  | _ =>
      q ← payload;
      match archivequeueshards q !! shardIndex with
      | None => mret tt
      | Some sp =>
          match fuel with
          | O => throw OutOfFuel
          | S fuel' =>
              r ← remove_round shardIndex todo sp;
              let '(shardIndex', todo') := r in remove_loop fuel' shardIndex' todo'
          end
      end
  end.

(** Every turn either moves to the next shard or drops one, so the number of
    shards bounds the turns. *)
Definition removeJobsAndCommit (jobsToRemove : list string) : AQ unit :=
  _ ← check_writable;
  q ← payload;
  remove_loop (length (archivequeueshards q)) 0 jobsToRemove.
End ArchiveQueue.
