(* ===== verification/ArchiveQueueSpec.v ===== *)
(** * Correctness of the archive queues

    The abstract state of a queue is the list of its jobs in FIFO order; the
    invariant [aq_ok] ties the summaries of the queue object, the shard pointers
    and the stored shards to it.  The theorems show that the operations of
    [ArchiveQueue.v] refine operations on that list and preserve the invariant. *)
From S2P Require Import Prelude DataTypes ValueCountMap Backend ObjectOps ArchiveQueueShard ArchiveQueue.

(** ** Value maps that count a list *)
Definition occ {K} `{EqDecision K} (k : K) (l : list K) : Z :=
  Z.of_nat (length (filter (λ x, x = k) l)).

Definition map_ok {K} `{EqDecision K} (m : list (VCPair K)) (l : list K) : Prop :=
  wf m ∧ (∀ k, multiplicity k m = occ k l) ∧ counts_sum m = Z.of_nat (length l).

Section map_ok.
Context {K : Type} `{EqDecision K}.
Implicit Types (m : list (VCPair K)) (l : list K).

Lemma occ_perm (k : K) l l' : l ≡ₚ l' → occ k l = occ k l'.
Proof. intros H. unfold occ. by rewrite H. Qed.

Lemma occ_cons (k x : K) l : occ k (x :: l) = occ k l + (if decide (k = x) then 1 else 0).
Proof. unfold occ. rewrite filter_cons. repeat case_decide; subst; simpl; try done; lia. Qed.

Lemma map_ok_perm m l l' : l ≡ₚ l' → map_ok m l → map_ok m l'.
Proof.
  intros Hp (H1 & H2 & H3). split; [done|]. split.
  - intros k. by rewrite H2, (occ_perm k l l').
  - by rewrite H3, Hp.
Qed.

Lemma map_ok_nil : map_ok (K:=K) [] [].
Proof. repeat split; try constructor. Qed.

Lemma map_ok_inc m l (k : K) :
  map_ok m l → Z.of_nat (length l) < 2 ^ 64 - 1 →
  ∃ m', incCount k m = Ok m' ∧ map_ok m' (l ++ [k]).
Proof.
  intros (Hwf & Hm & Hs) Hlt.
  destruct (incCount_spec k m Hwf) as (m' & Hi & Hwf' & Hs' & Hm').
  { pose proof (multiplicity_le k m Hwf). lia. }
  exists m'. split; [done|]. apply (map_ok_perm _ (k :: l)); [apply Permutation_cons_append|].
  split; [done|]. split; [|simpl; lia]. intros k'. by rewrite Hm', Hm, occ_cons.
Qed.

Lemma map_ok_dec m l (k : K) :
  map_ok m (k :: l) → ∃ m', decCount k m = Ok m' ∧ map_ok m' l.
Proof.
  intros (Hwf & Hm & Hs).
  destruct (decCount_spec k m Hwf) as (m' & Hi & Hwf' & Hs' & Hm').
  { rewrite Hm, occ_cons, decide_True by done. unfold occ. lia. }
  exists m'. split; [done|]. split; [done|]. split.
  - intros k'. rewrite Hm', Hm, occ_cons. lia.
  - simpl in Hs. lia.
Qed.

Lemma map_ok_total m l :
  map_ok m l → Z.of_nat (length l) < 2 ^ 64 → total m = Ok (Z.of_nat (length l)).
Proof.
  intros (Hwf & Hm & Hs) Hlt. rewrite total_spec, Hs by done. f_equal.
  apply u64_small. unfold in_u64. lia.
Qed.
End map_ok.

(** ** The abstract jobs and the summaries *)
Definition shards_jobs (ps : list ArchiveQueueShard) : list ArchiveJobPointer :=
  concat (archivejobs <$> ps).

Definition oldest_of (jobs : list ArchiveJobPointer) : Z :=
  foldr Z.min max_time_t (ajp_starttime <$> jobs).

(** Creation times are plausible: nonnegative and below the [time_t] maximum. *)
Definition times_ok (jobs : list ArchiveJobPointer) : Prop :=
  Forall (λ j, 0 <= ajp_starttime j < max_time_t) jobs.

(** The summaries of a queue object describe a list of jobs. *)
Record summary_ok (q : ArchiveQueue) (jobs : list ArchiveJobPointer) : Prop := {
  so_count : archivejobscount q = Z.of_nat (length jobs);
  so_bound : Z.of_nat (length jobs) < 2 ^ 64;
  so_bytes : archivejobstotalsize q = u64 (Zsum (sizes jobs));
  so_priority : map_ok (prioritymap q) (ajp_priority <$> jobs);
  so_age : map_ok (minarchiverequestagemap q) (ajp_minarchiverequestage <$> jobs);
  so_policy : map_ok (mountpolicynamemap q) (ajp_mountpolicyname <$> jobs);
  so_times : times_ok jobs;
  so_oldest : jobs ≠ [] → oldestjobcreationtime q = oldest_of jobs
}.

(** A shard pointer describes a shard. *)
Definition pointer_ok (sp : ShardPointer) (p : ArchiveQueueShard) : Prop :=
  shardjobscount sp = Z.of_nat (length (archivejobs p)) ∧
  shardbytescount sp = aqs_archivejobstotalsize p ∧ shard_wf p.

(** The queue object agrees with the contents of its shards. *)
Definition queue_mem (q : ArchiveQueue) (ps : list ArchiveQueueShard) : Prop :=
  Forall2 pointer_ok (archivequeueshards q) ps ∧ summary_ok q (shards_jobs ps).

Lemma shards_jobs_app ps1 ps2 : shards_jobs (ps1 ++ ps2) = shards_jobs ps1 ++ shards_jobs ps2.
Proof. unfold shards_jobs. by rewrite fmap_app, concat_app. Qed.

Lemma shards_jobs_snoc ps p : shards_jobs (ps ++ [p]) = shards_jobs ps ++ archivejobs p.
Proof. rewrite shards_jobs_app. unfold shards_jobs at 2. simpl. by rewrite app_nil_r. Qed.

Lemma shards_jobs_cons p ps : shards_jobs (p :: ps) = archivejobs p ++ shards_jobs ps.
Proof. done. Qed.

(** Sums over the shard pointers. *)
Lemma pointers_bytes sps ps a :
  Forall2 pointer_ok sps ps →
  foldl (λ t sp, t +u64 shardbytescount sp) (u64 a) sps = u64 (a + Zsum (sizes (shards_jobs ps))).
Proof.
  intros H. revert a. induction H as [|sp p sps ps (_ & Hb & Hwf) H IH]; intros a.
  - simpl. by rewrite Z.add_0_r.
  - rewrite shards_jobs_cons. simpl. rewrite u64_add_l, IH.
    rewrite sizes_app, Zsum_app. rewrite Hb, Hwf.
    rewrite <- Z.add_assoc, (Z.add_comm (u64 _)), Z.add_assoc, u64_add_r. f_equal. lia.
Qed.

Lemma pointers_jobs sps ps a :
  Forall2 pointer_ok sps ps →
  foldl (λ t sp, t +u64 shardjobscount sp) (u64 a) sps = u64 (a + Z.of_nat (length (shards_jobs ps))).
Proof.
  intros H. revert a. induction H as [|sp p sps ps (Hj & _ & _) H IH]; intros a.
  - simpl. by rewrite Z.add_0_r.
  - rewrite shards_jobs_cons. simpl. rewrite u64_add_l, IH.
    rewrite length_app, Hj. f_equal. lia.
Qed.

Lemma oldest_of_cons j jobs : oldest_of (j :: jobs) = Z.min (ajp_starttime j) (oldest_of jobs).
Proof. done. Qed.

Lemma oldest_of_snoc jobs j :
  oldest_of (jobs ++ [j]) = Z.min (oldest_of jobs) (Z.min (ajp_starttime j) max_time_t).
Proof.
  induction jobs as [|k jobs IH]; simpl; [unfold oldest_of; simpl; lia|].
  rewrite !oldest_of_cons, IH. lia.
Qed.

Lemma oldest_of_le jobs : oldest_of jobs <= max_time_t.
Proof. induction jobs; rewrite ?oldest_of_cons; [done|lia]. Qed.

Section Spec.
Context {B St : Type} `{!Serializable B ArchiveQueue, !Serializable B ArchiveQueueShard}.
Context `{!Serializable B (ObjectHeader B), !Backend B St}.
Context (dummy : B).
Implicit Types (s : AQState B St) (aqs : ObjectOps B ArchiveQueueShard).

(** The queue handle: fetched, locked for writing, of the right type. *)
Record handle_ok (o : ObjectOps B ArchiveQueue) : Prop := {
  ho_name : m_nameSet o = true;
  ho_writable : writable o;
  ho_existing : m_existingObject (m_flags o) = true;
  ho_locked : m_locksCount (m_flags o) ≠ 0;
  ho_type : h_type (m_header o) = payloadTypeId (P := ArchiveQueue)
}.

Lemma handle_ok_payload o p : handle_ok o → handle_ok (with_payload p o).
Proof. intros []. by constructor. Qed.

Lemma handle_ok_push o : handle_ok o → handle_ok (push_payload o).
Proof. intros []. by constructor. Qed.

Lemma handle_ok_readable o : handle_ok o → checkPayloadReadable o = Ok tt.
Proof.
  intros [_ [Hp _] _ Hl _]. unfold checkPayloadReadable, checkReadable. rewrite Hp. simpl.
  rewrite (proj2 (Z.eqb_neq _ _)) by done. by rewrite andb_false_r.
Qed.

Definition state_ok s : Prop :=
  be_wf (aq_be s) ∧ handle_ok (aq s) ∧
  m_locked (aq_lock s) = true ∧ sl_type (aq_lock s) = Exclusive ∧
  is_Some (be_view (aq_be s) !! m_name (aq s)).

(** Same state up to the payload of the queue. *)
Definition upd (q : ArchiveQueue) s : AQState B St :=
  mkAQState (with_payload q (aq s)) (aq_lock s) (aq_be s) (aq_agent s).

Lemma state_ok_upd q s : state_ok s → state_ok (upd q s).
Proof. intros (?&?&?&?&?). split; [done|]. split; [by apply handle_ok_payload|]. done. Qed.

Lemma upd_upd q q' s : upd q (upd q' s) = upd q s.
Proof. done. Qed.

Lemma upd_id s : upd (m_payload (aq s)) s = s.
Proof. destruct s as [[] ? ? ?]. done. Qed.

Lemma check_writable_ok s : state_ok s → check_writable s = (Ok tt, s).
Proof.
  intros (_ & [] & _). unfold check_writable, this, mbind, M_bind, gets, lift.
  by rewrite (proj2 (checkPayloadWritable_ok _)).
Qed.

Lemma check_readable_ok s : state_ok s → check_readable s = (Ok tt, s).
Proof.
  intros (_ & Hh & _). unfold check_readable, this, mbind, M_bind, gets, lift.
  by rewrite handle_ok_readable.
Qed.

Lemma coherency_ok s ps :
  state_ok s → queue_mem (m_payload (aq s)) ps →
  checkMapsAndShardsCoherency s = (Ok true, s).
Proof.
  intros Hs [Hp Hq]. unfold checkMapsAndShardsCoherency.
  mstep (check_readable_ok s Hs). unfold payload, gets, mbind at 1, M_bind at 1.
  set (q := m_payload (aq s)) in *. destruct Hq as [Hc Hb Hy H1 H2 H3 _ _].
  pose proof (pointers_bytes _ _ 0 Hp) as Eb. pose proof (pointers_jobs _ _ 0 Hp) as Ej.
  change (u64 0) with 0 in Eb, Ej. rewrite Z.add_0_l in Eb, Ej. rewrite Eb, Ej.
  rewrite (u64_small (Z.of_nat _)) by (unfold in_u64; lia).
  rewrite decide_False by (rewrite Hc, Hy; tauto).
  unfold mbind, M_bind, lift.
  rewrite (map_ok_total _ _ H1), (map_ok_total _ _ H2), (map_ok_total _ _ H3)
    by (by rewrite length_fmap).
  rewrite !length_fmap, Hc. rewrite !decide_False by tauto. done.
Qed.

Definition after_commit s (be' : St) : AQState B St :=
  mkAQState (push_payload (aq s)) (aq_lock s) be' (aq_agent s).

(** [commit] on a coherent queue writes it and nothing else. *)
Lemma queue_commit_ok s ps :
  state_ok s → queue_mem (m_payload (aq s)) ps →
  ∃ be', queue_commit dummy s = (Ok tt, after_commit s be') ∧
    state_ok (after_commit s be') ∧
    be_view be' = <[m_name (aq s) := SerializeAsString (m_header (push_payload (aq s)))]>
                    (be_view (aq_be s)) ∧
    (∀ n, n ≠ m_name (aq s) → stored (P:=ArchiveQueueShard) be' n = stored (aq_be s) n) ∧
    stored (P:=ArchiveQueue) be' (m_name (aq s)) =
      Some (m_header (push_payload (aq s)), m_payload (aq s)).
Proof.
  intros Hs Hq. unfold queue_commit. mstep (coherency_ok s ps Hs Hq).
  destruct Hs as (Hwf & Hh & Hl1 & Hl2 & He). pose proof Hh as [Hn Hw Hx Hlk Ht].
  destruct (commit_spec (aq_be s) (aq s) Hwf Hw Hx Hn Ht He) as (be' & Hc & Hwf' & Hv & Hst).
  exists be'. unfold mbind, M_bind, mret, M_ret, with_self. rewrite Hc.
  split; [done|]. split; [|split; [done|split]].
  - split; [done|]. split; [by apply handle_ok_push|]. do 2 (split; [done|]). simpl.
    rewrite Hv, lookup_insert_eq. eauto.
  - intros n Hne. unfold stored. by rewrite Hv, lookup_insert_ne.
  - by rewrite Hst, decide_True.
Qed.

(** ** Filling a shard in memory *)

(** A job that may be added: its size and time are in range. *)
Definition job_ok (j : JobToAdd) : Prop :=
  in_u64 (jta_fileSize j) ∧ 0 <= jta_startTime j < max_time_t.

Lemma job_pointer_time j : job_ok j → ajp_starttime (job_pointer j) = jta_startTime j.
Proof.
  intros [_ Ht]. simpl. apply u64_small. unfold in_u64, max_time_t in *. lia.
Qed.

(** The queue payload after the counters of one more job were updated. *)
Definition count_job (j : JobToAdd) pm am nm (sps : list ShardPointer) (q : ArchiveQueue) : ArchiveQueue :=
  mkArchiveQueue (tapepool q) sps pm am nm
    (if decide (archivejobscount q ≠ 0) then archivejobstotalsize q +u64 jta_fileSize j
     else jta_fileSize j)
    (archivejobscount q +u64 1)
    (if decide (archivejobscount q ≠ 0)
     then (if u64 (jta_startTime j) <? oldestjobcreationtime q then u64 (jta_startTime j)
           else oldestjobcreationtime q)
     else u64 (jta_startTime j))
    (mapsrebuildcount q).

Lemma summary_add q jobs j pm am nm sps :
  summary_ok q jobs → job_ok j → Z.of_nat (length jobs) < 2 ^ 64 - 1 →
  map_ok pm ((ajp_priority <$> jobs) ++ [archivePriority (jta_policy j)]) →
  map_ok am ((ajp_minarchiverequestage <$> jobs) ++ [archiveMinRequestAge (jta_policy j)]) →
  map_ok nm ((ajp_mountpolicyname <$> jobs) ++ [mp_name (jta_policy j)]) →
  summary_ok (count_job j pm am nm sps q) (jobs ++ [job_pointer j]).
Proof.
  intros [Hc Hb Hy _ _ _ Ht Ho] Hj Hlt Hp Ha Hn.
  pose proof (job_pointer_time j Hj) as Hst. destruct Hj as [Hsz Htm].
  assert (Hz : archivejobscount q = 0 ↔ jobs = []).
  { rewrite Hc. destruct jobs; simpl; split; try done; lia. }
  constructor; simpl; rewrite ?fmap_app, ?length_app; simpl; try done.
  - rewrite Hc, u64_small by (unfold in_u64; lia). lia.
  - lia.
  - rewrite sizes_app, Zsum_app. unfold sizes at 2, Zsum at 2. simpl. rewrite Z.add_0_r.
    case_decide as Hd; [by rewrite Hy, u64_add_l|].
    assert (jobs = []) as -> by (apply Hz; lia). simpl. by rewrite u64_small.
  - apply Forall_app. split; [done|]. apply Forall_singleton. by rewrite Hst.
  - intros _. rewrite oldest_of_snoc, Hst. simpl in Hst. rewrite Hst.
    case_decide as Hd.
    + rewrite Ho by naive_solver. pose proof (oldest_of_le jobs).
      destruct (Z.ltb_spec (jta_startTime j) (oldest_of jobs)); lia.
    + assert (jobs = []) as -> by (apply Hz; lia). unfold oldest_of. simpl. lia.
Qed.

Lemma last_insert_last {A} (l : list A) (x y : A) :
  last l = Some x → <[(length l - 1)%nat := y]> l = take (length l - 1) l ++ [y] ∧
  l = take (length l - 1) l ++ [x].
Proof.
  destruct l as [|z l _] using rev_ind; [done|]. rewrite last_snoc. intros [= ->].
  rewrite length_app. simpl. replace (length l + 1 - 1)%nat with (length l) by lia.
  rewrite take_app_length. split; [|done].
  rewrite insert_app_r_alt by lia. by rewrite Nat.sub_diag.
Qed.

Lemma add_one_ok j aqs s ps :
  state_ok s → queue_mem (m_payload (aq s)) (ps ++ [m_payload aqs]) → writable aqs → job_ok j →
  Z.of_nat (length (shards_jobs (ps ++ [m_payload aqs]))) < 2 ^ 64 - 1 →
  ∃ q' p', add_one j aqs s = (Ok (with_payload p' aqs), upd q' s) ∧
    queue_mem q' (ps ++ [p']) ∧
    archivejobs p' = archivejobs (m_payload aqs) ++ [job_pointer j] ∧
    sp_address <$> archivequeueshards q' = sp_address <$> archivequeueshards (m_payload (aq s)) ∧
    tapepool q' = tapepool (m_payload (aq s)).
Proof.
  intros Hs [Hp Hq] Hw Hj Hlt. set (q := m_payload (aq s)) in *.
  set (jobs := shards_jobs (ps ++ [m_payload aqs])) in *.
  destruct (map_ok_inc _ _ (archivePriority (jta_policy j)) (so_priority _ _ Hq)) as (pm & Ep & Hpm);
    [by rewrite length_fmap|].
  destruct (map_ok_inc _ _ (archiveMinRequestAge (jta_policy j)) (so_age _ _ Hq)) as (am & Ea & Ham);
    [by rewrite length_fmap|].
  destruct (map_ok_inc _ _ (mp_name (jta_policy j)) (so_policy _ _ Hq)) as (nm & En & Hnm);
    [by rewrite length_fmap|].
  apply Forall2_app_inv_r in Hp as (sps & l2 & Hp1 & Hp2 & Hsp).
  apply Forall2_cons_inv_r in Hp2 as (sp & l3 & Hpo & Hnil & ->).
  apply Forall2_nil_inv_r in Hnil as ->. destruct Hpo as (Hjc & Hbc & Hswf).
  destruct (shard_addJob_spec j aqs Hw Hswf) as (p' & Eadd & Hjobs & Hswf').
  exists (count_job j pm am nm (sps ++ [mkShardPointer (sp_address sp)
    (Z.of_nat (length (archivejobs (m_payload aqs)) + 1)) (shardbytescount sp +u64 jta_fileSize j)]) q), p'.
  assert (Hjobs' : shards_jobs (ps ++ [p']) = jobs ++ [job_pointer j]).
  { unfold jobs. rewrite !shards_jobs_snoc, Hjobs. by rewrite app_assoc. }
  assert (Hsize : aqs_archivejobstotalsize p' = shardbytescount sp +u64 jta_fileSize j).
  { rewrite Hswf', Hjobs, Hbc, Hswf, sizes_app, Zsum_app, u64_add_l.
    unfold sizes at 2, Zsum at 2. simpl. by rewrite Z.add_0_r. }
  split; [|split; [split|split; [|split]]].
  - unfold add_one, payload, set_payload, gets, modify, lift, mbind, M_bind. fold q.
    rewrite Ep. simpl. rewrite Ea. simpl. rewrite En. simpl. rewrite Eadd. simpl.
    fold q. unfold last_pointer, upd, count_job.
    destruct (decide (archivejobscount q ≠ 0)); simpl; rewrite Hsp, last_snoc;
      unfold set_last_pointer; simpl; rewrite ?Hsp;
      destruct (last_insert_last (sps ++ [sp]) sp (mkShardPointer (sp_address sp)
        (Z.of_nat (length (archivejobs (m_payload aqs)) + 1)) (shardbytescount sp +u64 jta_fileSize j)))
        as [E1 E2]; try (by rewrite last_snoc); rewrite E1;
      rewrite length_app; simpl; replace (length sps + 1 - 1)%nat with (length sps) by lia;
      rewrite take_app_length; done.
  - simpl. apply Forall2_app; [done|]. constructor; [|constructor].
    split; [|split; [done|done]]. simpl. rewrite Hjobs, length_app. done.
  - rewrite Hjobs'. by apply summary_add.
  - done.
  - simpl. rewrite Hsp, !fmap_app. done.
  - done.
Qed.

Lemma queue_mem_last q ps p :
  queue_mem q (ps ++ [p]) → ∃ sp, last_pointer q = Some sp ∧ pointer_ok sp p.
Proof.
  intros [Hp _]. apply Forall2_app_inv_r in Hp as (sps & l2 & _ & Hp2 & Hsp).
  apply Forall2_cons_inv_r in Hp2 as (sp & l3 & Hpo & Hnil & ->).
  apply Forall2_nil_inv_r in Hnil as ->. exists sp. unfold last_pointer.
  by rewrite Hsp, last_snoc.
Qed.

Definition shard_len (p : ArchiveQueueShard) : Z := Z.of_nat (length (archivejobs p)).

(** The jobs are moved to the shard in order until it is full. *)
Lemma fill_shard_ok jobs aqs s ps :
  state_ok s → queue_mem (m_payload (aq s)) (ps ++ [m_payload aqs]) → writable aqs →
  Forall job_ok jobs →
  Z.of_nat (length (shards_jobs (ps ++ [m_payload aqs])) + length jobs) < 2 ^ 64 →
  shard_len (m_payload aqs) <= c_maxShardSize →
  ∃ moved rest q' p', fill_shard jobs aqs s = (Ok (rest, with_payload p' aqs), upd q' s) ∧
    jobs = moved ++ rest ∧ queue_mem q' (ps ++ [p']) ∧
    archivejobs p' = archivejobs (m_payload aqs) ++ (job_pointer <$> moved) ∧
    sp_address <$> archivequeueshards q' = sp_address <$> archivequeueshards (m_payload (aq s)) ∧
    tapepool q' = tapepool (m_payload (aq s)) ∧ shard_len p' <= c_maxShardSize ∧
    (shard_len (m_payload aqs) < c_maxShardSize → jobs ≠ [] → moved ≠ []).
Proof.
  revert aqs s. induction jobs as [|j jobs IH]; intros aqs s Hs Hm Hw Hj Hlt Hle; simpl fill_shard.
  - exists [], [], (m_payload (aq s)), (m_payload aqs). rewrite fmap_nil, (app_nil_r (archivejobs _)).
    split; [by destruct s as [[] ? ? ?], aqs|]. by split_and!.
  - apply Forall_cons in Hj as [Hj1 Hj2]. simpl in Hlt.
    destruct (queue_mem_last _ _ _ Hm) as (sp & Hlast & Hpo).
    unfold payload, gets at 1, mbind at 1, M_bind at 1. rewrite Hlast.
    destruct Hpo as [Hc _]. fold (shard_len (m_payload aqs)) in Hc. rewrite Hc.
    destruct (Z.ltb_spec (shard_len (m_payload aqs)) c_maxShardSize) as [Hfull|Hfull].
    + destruct (add_one_ok j aqs s ps Hs Hm Hw Hj1) as (q1 & p1 & E1 & Hm1 & Hp1 & Ha1 & Ht1); [lia|].
      mstep E1.
      assert (Hlen : shard_len p1 = shard_len (m_payload aqs) + 1).
      { unfold shard_len. rewrite Hp1, length_app. simpl. lia. }
      assert (Htot : length (shards_jobs (ps ++ [p1])) = (length (shards_jobs (ps ++ [m_payload aqs])) + 1)%nat).
      { rewrite !shards_jobs_snoc, Hp1, !length_app. simpl. lia. }
      destruct (IH (with_payload p1 aqs) (upd q1 s)) as
        (moved & rest & q' & p' & E & Hsplit & Hm' & Hp' & Ha' & Ht' & Hmx & _);
        [by apply state_ok_upd|done|done|done|simpl; rewrite Htot; lia|simpl; lia|].
      exists (j :: moved), rest, q', p'. rewrite E. split; [done|]. rewrite Hsplit.
      split; [done|]. split; [done|]. simpl in Hp', Ha', Ht'. split.
      * rewrite Hp', Hp1, fmap_cons, <- app_assoc. done.
      * rewrite Ha', Ha1, Ht', Ht1. done.
    + exists [], (j :: jobs), (m_payload (aq s)), (m_payload aqs). rewrite fmap_nil, (app_nil_r (archivejobs _)).
      split; [by destruct s as [[] ? ? ?], aqs|]. split_and!; try done. lia.
Qed.

(** ** The stored shards and the invariant *)
Definition stored_at (be : St) (a : string) (p : ArchiveQueueShard) : Prop :=
  a ≠ "" ∧ ∃ h, stored be a = Some (h, p).

(** The addresses of the shards. *)
Definition addresses s : list string := sp_address <$> archivequeueshards (m_payload (aq s)).

(** Names that the agent will give to the next shards are free. *)
Definition names_free s : Prop :=
  ∀ i, m_nextId (aq_agent s) <= i →
    be_view (aq_be s) !! fst (nextId ("ArchiveQueueShard-" +:+ tapepool (m_payload (aq s)))
      (mkAgent (m_agentAddress (aq_agent s)) i)) = None.

(** The invariant: the queue is consistent with the shards [ps], which are
    nonempty, not over full, and stored under distinct names. *)
Record aq_ok s (ps : list ArchiveQueueShard) : Prop := {
  ok_state : state_ok s;
  ok_mem : queue_mem (m_payload (aq s)) ps;
  ok_stored : Forall2 (stored_at (aq_be s)) (addresses s) ps;
  ok_nodup : NoDup (m_name (aq s) :: addresses s);
  ok_sizes : Forall (λ p, 0 < shard_len p <= c_maxShardSize) ps;
  ok_names : names_free s;
  ok_committed : stored (aq_be s) (m_name (aq s)) =
    Some (m_header (aq s), m_payload (aq s))
}.

(** ** Opening shards *)

(** The handle of a shard opened under the lock of the queue. *)
Definition locked_shard (a : string) (h : ObjectHeader B) (p : ArchiveQueueShard) :
    ObjectOps B ArchiveQueueShard :=
  mkOps true a h p (mkFlags true true true 1 1 false false true).

Definition named_shard (a : string) : ObjectOps B ArchiveQueueShard :=
  mkOps true a (m_header (new_object (P:=ArchiveQueueShard) dummy)) default_message fresh_flags.

Definition included_shard (a : string) : ObjectOps B ArchiveQueueShard :=
  mkOps true a (m_header (new_object (P:=ArchiveQueueShard) dummy)) default_message
    (mkFlags false false false 1 1 false false true).

Lemma shard_at_ok a : a ≠ "" → shard_at dummy a = Ok (named_shard a).
Proof. intros Ha. unfold shard_at, setAddress. simpl. by rewrite decide_False. Qed.

Lemma include_ok a s :
  a ≠ "" → m_locked (aq_lock s) = true → sl_type (aq_lock s) = Exclusive →
  include (named_shard a) s = (Ok (included_shard a), s).
Proof.
  intros Ha H1 H2. unfold include, includeSubObject, mbind, M_bind, gets, lift, result_bind.
  unfold checkLocked. rewrite H1. unfold checkObjectAndAddressSet. simpl.
  rewrite bool_decide_false by done. simpl. unfold setObjectLocked. by rewrite H2.
Qed.

Lemma fetch_shard_ok a h p s :
  be_wf (aq_be s) → stored (aq_be s) a = Some (h, p) →
  with_obj (included_shard a) fetch s = (Ok (tt, locked_shard a h p), s).
Proof.
  intros Hwf Hst. unfold with_obj. rewrite (fetch_spec _ h p) by done. by destruct s.
Qed.

Lemma lockfree_shard_fetch a h p s :
  be_wf (aq_be s) → stored (aq_be s) a = Some (h, p) →
  with_obj (named_shard a) lockfreeFetch s =
    (Ok (tt, mkOps true a h p (mkFlags true true true 0 0 true false false)), s).
Proof.
  intros Hwf Hst. unfold with_obj. rewrite (lockfreeFetch_spec _ h p) by done. by destruct s.
Qed.

Lemma locked_shard_writable a h p : writable (locked_shard a h p).
Proof. split; [done|]. intros _. split; [done|]. by right. Qed.

Lemma writable_with_payload aqs p : writable aqs → writable (with_payload p aqs).
Proof. done. Qed.

(** What the selection of a shard gives: a writable handle on the content of the
    last shard, in a state where the queue object agrees with the shards. *)
Record selected s (ps : list ArchiveQueueShard) (nw : bool) aqs s' (ps0 : list ArchiveQueueShard)
    (as0 : list string) : Prop := {
  sel_ps : shards_jobs ps = shards_jobs (ps0 ++ [m_payload aqs]);
  sel_state : state_ok s';
  sel_mem : queue_mem (m_payload (aq s')) (ps0 ++ [m_payload aqs]);
  sel_be : aq_be s' = aq_be s;
  sel_writable : writable aqs;
  sel_room : shard_len (m_payload aqs) < c_maxShardSize;
  sel_sizes : Forall (λ p, 0 < shard_len p <= c_maxShardSize) ps0;
  sel_name : m_name (aq s') = m_name (aq s);
  sel_addresses : addresses s' = as0 ++ [m_name aqs];
  sel_stored : Forall2 (stored_at (aq_be s)) as0 ps0;
  sel_nodup : NoDup (m_name (aq s) :: as0 ++ [m_name aqs]);
  sel_handle : m_nameSet aqs = true ∧ m_name aqs ≠ "" ∧
    h_type (m_header aqs) = payloadTypeId (P:=ArchiveQueueShard);
  sel_names : names_free s';
  sel_agent : m_nextId (aq_agent s') <= m_nextId (aq_agent s) + 1 ∧ 0 <= m_nextId (aq_agent s');
  sel_new : if nw then insertable aqs ∧ be_view (aq_be s) !! m_name aqs = None ∧
                 ∀ i, m_nextId (aq_agent s') <= i →
                   fst (nextId ("ArchiveQueueShard-" +:+ tapepool (m_payload (aq s')))
                     (mkAgent (m_agentAddress (aq_agent s')) i)) ≠ m_name aqs
            else m_existingObject (m_flags aqs) = true ∧ is_Some (be_view (aq_be s) !! m_name aqs)
}.

Lemma summary_set_shards q jobs sps : summary_ok q jobs → summary_ok (set_shards sps q) jobs.
Proof. intros []. by constructor. Qed.

Lemma stored_at_exists (be : St) a p : stored_at be a p → is_Some (be_view be !! a).
Proof. intros [_ [h Hst]]. by eapply stored_exists. Qed.

Lemma addresses_exist s ps a :
  aq_ok s ps → a ∈ (m_name (aq s) :: addresses s) → is_Some (be_view (aq_be s) !! a).
Proof.
  intros Hok Ha. apply elem_of_cons in Ha as [->|Ha].
  - by destruct (ok_state _ _ Hok) as (_ & _ & _ & _ & ?).
  - apply list_elem_of_lookup in Ha as [i Hi].
    destruct (Forall2_lookup_l _ _ _ _ _ (ok_stored _ _ Hok) Hi) as (pp & _ & Hpp).
    by eapply stored_at_exists.
Qed.

(** The name given to the next shard is free, and so are the following ones. *)
Lemma next_name_fresh s ps name a' :
  aq_ok s ps → 0 <= m_nextId (aq_agent s) < 2 ^ 64 - 1 →
  nextId ("ArchiveQueueShard-" +:+ tapepool (m_payload (aq s))) (aq_agent s) = (name, a') →
  name ≠ "" ∧ be_view (aq_be s) !! name = None ∧ (name ∉ m_name (aq s) :: addresses s) ∧
  m_nextId a' = m_nextId (aq_agent s) + 1 ∧ m_agentAddress a' = m_agentAddress (aq_agent s) ∧
  ∀ i, m_nextId a' <= i →
    fst (nextId ("ArchiveQueueShard-" +:+ tapepool (m_payload (aq s)))
           (mkAgent (m_agentAddress a') i)) ≠ name.
Proof.
  intros Hok Hid Hn. pose proof (ok_names _ _ Hok) as Hnf. unfold names_free in Hnf.
  pose proof (addresses_exist s ps) as Hex. destruct (aq_agent s) as [ad k]. simpl in *.
  specialize (Hnf k ltac:(lia)). injection Hn as Hn Ha.
  rewrite u64_small in Ha by (unfold in_u64; lia). subst a'. simpl.
  split; [by subst name|]. rewrite Hn in Hnf. split; [done|]. split.
  { intros Hin. destruct (Hex name Hok Hin) as [x Hx]. congruence. }
  do 2 (split; [done|]). intros i Hi Heq.
  assert (i = k); [|lia].
  apply (nextId_inj ("ArchiveQueueShard-" +:+ tapepool (m_payload (aq s))) ad). simpl.
  by rewrite Heq, <- Hn.
Qed.

Definition empty_shard (name owner : string) : ObjectOps B ArchiveQueueShard :=
  mkOps true name (mkHeader ArchiveQueueShard_t 0 owner owner dummy) (mkAQS [] 0)
    (mkFlags true true false 0 0 false false false).

Definition add_pointer (sp : ShardPointer) (a' : AgentReference) s : AQState B St :=
  mkAQState (with_payload (set_shards (archivequeueshards (m_payload (aq s)) ++ [sp])
    (m_payload (aq s))) (aq s)) (aq_lock s) (aq_be s) a'.

Lemma new_shard_eq s name a' :
  m_nameSet (aq s) = true → name ≠ "" →
  nextId ("ArchiveQueueShard-" +:+ tapepool (m_payload (aq s))) (aq_agent s) = (name, a') →
  new_shard dummy s = (Ok (Fill true (empty_shard name (m_name (aq s)))),
    add_pointer (mkShardPointer name 0 0) a' s).
Proof.
  intros Hset Hne En.
  unfold new_shard, set_payload, payload, this, gets, modify, lift, mbind, M_bind.
  cbn [aq aq_agent aq_be aq_lock m_payload with_payload tapepool set_shards]. rewrite En.
  unfold setAddress at 1. cbn [m_nameSet new_object]. rewrite decide_False by done.
  cbn [aq aq_agent aq_be aq_lock m_payload with_payload].
  rewrite getAddressIfSet_ok by done. simpl.
  unfold set_last_pointer, add_pointer. simpl.
  destruct (last_insert_last (archivequeueshards (m_payload (aq s)) ++ [mkShardPointer "" 0 0])
    (mkShardPointer "" 0 0) (mkShardPointer name 0 0)) as [E1 _]; [by rewrite last_snoc|].
  rewrite length_app in *. simpl in *.
  replace (length (archivequeueshards (m_payload (aq s))) + 1 - 1)%nat with
    (length (archivequeueshards (m_payload (aq s)))) in * by lia.
  rewrite take_app_length in E1. by rewrite E1.
Qed.

Lemma new_shard_ok s ps :
  aq_ok s ps → 0 <= m_nextId (aq_agent s) < 2 ^ 64 - 1 →
  ∃ aqs s', new_shard dummy s = (Ok (Fill true aqs), s') ∧ selected s ps true aqs s' ps (addresses s).
Proof.
  intros Hok Hid. destruct (nextId ("ArchiveQueueShard-" +:+ tapepool (m_payload (aq s))) (aq_agent s))
    as [name a'] eqn:En.
  destruct (next_name_fresh s ps name a' Hok Hid En) as (Hne & Hfree & Hnotin & Hi1 & Had & Hnxt).
  destruct Hok as [Hs [Hp Hq] Hst Hnd Hsz Hnf Hco]. pose proof Hs as (Hwf & Hh & Hl1 & Hl2 & He).
  do 2 eexists. split; [apply (new_shard_eq s name a'); [apply Hh|done|done]|].
  constructor; simpl; try done.
  - rewrite shards_jobs_snoc. simpl. by rewrite app_nil_r.
  - split; [done|]. split; [by apply handle_ok_payload|]. done.
  - split; simpl.
    + apply Forall2_app; [done|]. constructor; [|constructor]. by repeat split.
    + rewrite shards_jobs_snoc, app_nil_r. by apply summary_set_shards.
  - unfold addresses. simpl. by rewrite fmap_app.
  - rewrite app_comm_cons. apply NoDup_app. split; [done|]. split; [|apply NoDup_singleton].
    intros a Ha ->%list_elem_of_singleton. done.
  - unfold names_free. simpl. intros i Hi. rewrite Had. apply Hnf. lia.
  - lia.
Qed.

Lemma select_last_ok s ps0 p sp :
  aq_ok s (ps0 ++ [p]) → 0 <= m_nextId (aq_agent s) < 2 ^ 64 - 1 →
  last_pointer (m_payload (aq s)) = Some sp → pointer_ok sp p →
  shardjobscount sp < c_maxShardSize →
  ∃ aqs as0, select_shard dummy s = (Ok (Fill false aqs), s) ∧
    selected s (ps0 ++ [p]) false aqs s ps0 as0.
Proof.
  intros Hok Hid Hlast (Hc & Hb & Hw) Hroom. pose proof Hok as [Hs Hm Hst Hnd Hsz Hnf Hco].
  assert (Hla : last (addresses s) = Some (sp_address sp)).
  { unfold addresses, last_pointer in *. by rewrite fmap_last, Hlast. }
  apply Forall2_app_inv_r in Hst as (as0 & l2 & Hst1 & Hst2 & Hsp).
  apply Forall2_cons_inv_r in Hst2 as (a & l3 & (Hne & h & Hsto) & Hnil & ->).
  apply Forall2_nil_inv_r in Hnil as ->.
  assert (a = sp_address sp) as -> by (rewrite Hsp, last_snoc in Hla; congruence).
  pose proof Hs as (Hwf & Hh & Hl1 & Hl2 & He).
  exists (locked_shard (sp_address sp) h p), as0. split.
  - unfold select_shard, payload, gets, mbind at 1, M_bind at 1. rewrite Hlast.
    rewrite (proj2 (Z.ltb_lt _ _)) by done.
    change (setAddress (sp_address sp) (new_object dummy)) with (shard_at dummy (sp_address sp)).
    rewrite shard_at_ok by done. unfold lift, mbind at 1, M_bind at 1.
    mstep (include_ok (sp_address sp) s Hne Hl1 Hl2).
    erewrite bind_ok; [|apply catch_ok; rewrite (bind_ok _ _ _ _ _ (fetch_shard_ok _ h p s Hwf Hsto)); done].
    simpl. unfold shard_getJobsSummary, checkPayloadReadable, checkReadable. simpl.
    unfold mbind, M_bind, lift, result_bind. simpl.
    rewrite decide_False; [done|]. rewrite Hb, Hc. tauto.
  - constructor; try done; simpl.
    + apply locked_shard_writable.
    + unfold shard_len. by rewrite <- Hc.
    + by apply Forall_app in Hsz as [? _].
    + by rewrite <- Hsp.
    + split; [done|]. split; [done|]. by destruct (stored_view _ _ _ _ Hsto) as (? & _ & _ & ? & _).
    + lia.
    + split; [done|]. by eapply stored_exists.
Qed.

Lemma select_shard_ok s ps :
  aq_ok s ps → 0 <= m_nextId (aq_agent s) < 2 ^ 64 - 1 →
  ∃ nw aqs s' ps0 as0, select_shard dummy s = (Ok (Fill nw aqs), s') ∧
    selected s ps nw aqs s' ps0 as0.
Proof.
  intros Hok Hid. destruct (new_shard_ok s ps Hok Hid) as (aqs & s' & E & Hsel).
  pose proof (ok_mem _ _ Hok) as Hm. destruct ps as [|p ps0 _] using rev_ind.
  - exists true, aqs, s', [], (addresses s). split; [|done].
    unfold select_shard, payload, gets, mbind at 1, M_bind at 1.
    destruct Hm as [Hp _]. unfold last_pointer. by rewrite (Forall2_nil_inv_r _ _ Hp).
  - destruct (queue_mem_last _ _ _ Hm) as (sp & Hlast & Hpo).
    destruct (Z.ltb_spec (shardjobscount sp) c_maxShardSize) as [Hroom|Hroom].
    + destruct (select_last_ok s ps0 p sp Hok Hid Hlast Hpo Hroom) as (aqs' & as0 & E' & Hsel').
      by exists false, aqs', s, ps0, as0.
    + exists true, aqs, s', (ps0 ++ [p]), (addresses s). split; [|done].
      unfold select_shard, payload, gets, mbind at 1, M_bind at 1. rewrite Hlast.
      by rewrite (proj2 (Z.ltb_ge _ _)) by done.
Qed.

(** ** Writing the shard back *)
Lemma stored_at_other (be be' : St) a p :
  be_view be' !! a = be_view be !! a → stored_at be a p → stored_at be' a p.
Proof. intros Hv [Hne [h Hst]]. split; [done|]. exists h. unfold stored in *. by rewrite Hv. Qed.

Lemma stored_others (be be' : St) x as_ ps :
  (∀ a, a ≠ x → a ∈ as_ → be_view be' !! a = be_view be !! a) → x ∉ as_ →
  Forall2 (stored_at be) as_ ps → Forall2 (stored_at be') as_ ps.
Proof.
  intros Hv Hx H. induction H as [|a p as_ ps Ha H IH]; [constructor|].
  apply not_elem_of_cons in Hx as [? ?]. constructor.
  - eapply stored_at_other; [|exact Ha]. apply Hv; [done|left].
  - apply IH; [|done]. intros b ? Hb. apply Hv; [done|by right].
Qed.

(** The shard is inserted or overwritten; nothing else changes in the backend. *)
Lemma write_shard_ok (nw : bool) aqs p' be1 :
  be_wf be1 → writable aqs →
  (m_nameSet aqs = true ∧ m_name aqs ≠ "" ∧ h_type (m_header aqs) = payloadTypeId (P:=ArchiveQueueShard)) →
  (if nw then insertable aqs ∧ be_view be1 !! m_name aqs = None
   else m_existingObject (m_flags aqs) = true ∧ is_Some (be_view be1 !! m_name aqs)) →
  ∃ o2 be2, (if nw then insert (with_payload p' aqs, be1) else commit (with_payload p' aqs, be1))
      = (Ok tt, (o2, be2)) ∧ be_wf be2 ∧
    (∀ a, a ≠ m_name aqs → be_view be2 !! a = be_view be1 !! a) ∧
    stored_at be2 (m_name aqs) p'.
Proof.
  intros Hwf Hw (Hset & Hne & Hty) Hnew. destruct nw, Hnew as [H1 H2].
  - destruct (insert_spec be1 (with_payload p' aqs) Hwf H1 H2) as (be2 & Ei & Hwf2 & Hv2 & Hst2).
    do 2 eexists. split; [exact Ei|]. split; [done|]. split.
    + intros a Ha. rewrite Hv2. by rewrite lookup_insert_ne.
    + split; [done|]. eexists. rewrite Hst2. simpl. by rewrite decide_True.
  - destruct (commit_spec be1 (with_payload p' aqs) Hwf Hw H1 Hset Hty H2) as (be2 & Ei & Hwf2 & Hv2 & Hst2).
    do 2 eexists. split; [exact Ei|]. split; [done|]. split.
    + intros a Ha. rewrite Hv2. by rewrite lookup_insert_ne.
    + split; [done|]. eexists. rewrite Hst2. simpl. by rewrite decide_True.
Qed.

(** The end of a round: the queue is committed, then the shard is written.  Both
    writes succeed and the invariant holds again. *)
Lemma finish_round s ps nw aqs s1 ps0 as0 q' p' :
  aq_ok s ps → selected s ps nw aqs s1 ps0 as0 →
  queue_mem q' (ps0 ++ [p']) →
  sp_address <$> archivequeueshards q' = addresses s1 →
  tapepool q' = tapepool (m_payload (aq s1)) →
  0 < shard_len p' <= c_maxShardSize →
  ∃ s2 x, (queue_commit dummy ≫= λ _,
      (if nw then with_obj (with_payload p' aqs) insert else with_obj (with_payload p' aqs) commit))
      (upd q' s1) = (Ok x, s2) ∧
    aq_ok s2 (ps0 ++ [p']) ∧ aq_agent s2 = aq_agent s1.
Proof.
  intros Hok [_ Hs1 Hm1 Hbe Hw Hroom Hsz Hn1 Had1 Hsto1 Hnd1 Hhand Hnf1 _ Hnew] Hmem Hadr Htp Hlen.
  destruct (queue_commit_ok (upd q' s1) (ps0 ++ [p']) (state_ok_upd q' s1 Hs1) Hmem)
    as (be1 & Ec & Hsc & Hv1 & Hso1 & Hq1). simpl in Hv1, Hq1. mstep Ec.
  assert (Hview : ∀ a, a ≠ m_name (aq s) → be_view be1 !! a = be_view (aq_be s) !! a).
  { intros a Ha. rewrite Hv1, Hn1, lookup_insert_ne by done. by rewrite Hbe. }
  apply NoDup_cons in Hnd1 as [Hqn Hnd1]. rewrite not_elem_of_app, not_elem_of_cons in Hqn.
  destruct Hqn as [Hqn1 [Hqn2 _]]. pose proof Hsc as (Hbwf & Hhc & Hlc1 & Hlc2 & Hec). simpl in Hec.
  destruct (write_shard_ok nw aqs p' be1 Hbwf Hw Hhand) as (o2 & be2 & E2 & Hwf2 & Hv2 & Hst2).
  { destruct nw; rewrite Hview by done; naive_solver. }
  exists (mkAQState (aq (after_commit (upd q' s1) be1)) (aq_lock s1) be2 (aq_agent s1)), (tt, o2).
  split; [destruct nw; unfold with_obj; simpl; by rewrite E2|]. split; [|done].
  apply NoDup_app in Hnd1 as (Hnd0 & Hdis & Hnd1).
  constructor; simpl; unfold addresses; simpl; rewrite ?Hadr, ?Had1.
  - split; [done|]. split; [done|]. do 2 (split; [done|]). simpl. rewrite Hv2; [done|].
    rewrite Hn1. done.
  - done.
  - apply Forall2_app; [|by constructor; [|constructor]].
    apply (stored_others (aq_be s) _ (m_name aqs)); [|intros Hx; apply (Hdis _ Hx); left|done].
    intros a Ha Hin. rewrite Hv2 by done. apply Hview. by intros ->.
  - rewrite Hn1. apply NoDup_cons. split; [|by apply NoDup_app].
    rewrite not_elem_of_app, list_elem_of_singleton. done.
  - apply Forall_app. split; [done|by apply Forall_singleton].
  - unfold names_free in *. simpl. intros i Hi. rewrite Htp. specialize (Hnf1 i Hi).
    set (nm := fst (nextId _ (mkAgent _ i))) in *. rewrite Hbe in Hnf1.
    assert (nm ≠ m_name (aq s)).
    { pose proof (addresses_exist s ps (m_name (aq s)) Hok) as [x Hx]; [left|]. congruence. }
    assert (nm ≠ m_name aqs).
    { destruct nw; [by apply Hnew|]. destruct Hnew as [_ [x Hx]]. congruence. }
    by rewrite Hv2, Hview.
  - unfold stored in *. rewrite Hv2 by (rewrite Hn1; done). done.
Qed.

(** ** Addition *)
Lemma add_rounds_ok fuel jobs s ps :
  aq_ok s ps → Forall job_ok jobs → (length jobs <= fuel)%nat →
  0 <= m_nextId (aq_agent s) → m_nextId (aq_agent s) + Z.of_nat (length jobs) < 2 ^ 64 →
  Z.of_nat (length (shards_jobs ps) + length jobs) < 2 ^ 64 →
  ∃ s' ps', add_rounds dummy fuel jobs s = (Ok tt, s') ∧ aq_ok s' ps' ∧
    shards_jobs ps' = shards_jobs ps ++ (job_pointer <$> jobs).
Proof.
  revert jobs s ps. induction fuel as [|fuel IH]; intros jobs s ps Hok Hj Hf Hi0 Hi Hlt.
  { destruct jobs; [|simpl in Hf; lia]. exists s, ps. by rewrite app_nil_r. }
  destruct jobs as [|j jobs]; [exists s, ps; by rewrite app_nil_r|]. simpl length in *.
  destruct (select_shard_ok s ps Hok) as (nw & aqs & s1 & ps0 & as0 & Esel & Hsel); [lia|].
  pose proof (sel_room _ _ _ _ _ _ _ Hsel) as Hroom.
  destruct (fill_shard_ok (j :: jobs) aqs s1 ps0) as
    (moved & rest & q' & p' & Ef & Hsplit & Hm' & Hp' & Ha' & Ht' & Hmx & Hprog);
    [apply Hsel|apply Hsel|apply Hsel|done|rewrite <- (sel_ps _ _ _ _ _ _ _ Hsel); simpl; lia|lia|].
  specialize (Hprog Hroom ltac:(done)).
  assert (Hmlen : (0 < length moved)%nat) by (destruct moved; [done|simpl; lia]).
  assert (Hplen : shard_len p' = shard_len (m_payload aqs) + Z.of_nat (length moved)).
  { unfold shard_len. rewrite Hp', length_app, length_fmap. lia. }
  destruct (finish_round s ps nw aqs s1 ps0 as0 q' p' Hok Hsel Hm' Ha' Ht') as (s2 & x & E2 & Hok2 & Hag2).
  { unfold shard_len in *. lia. }
  assert (Hjobs2 : shards_jobs (ps0 ++ [p']) = shards_jobs ps ++ (job_pointer <$> moved)).
  { rewrite (sel_ps _ _ _ _ _ _ _ Hsel), !shards_jobs_snoc, Hp'. by rewrite app_assoc. }
  assert (Hlj : (length (j :: jobs) = length moved + length rest)%nat) by (rewrite Hsplit, length_app; lia).
  simpl in Hlj. pose proof (sel_agent _ _ _ _ _ _ _ Hsel) as [Hag Hag0].
  destruct (IH rest s2 (ps0 ++ [p']) Hok2) as (s' & ps' & E' & Hok' & Hjobs').
  { rewrite Hsplit in Hj. by apply Forall_app in Hj as [_ ?]. }
  { lia. } { by rewrite Hag2. } { rewrite Hag2. lia. }
  { rewrite Hjobs2, length_app, length_fmap. lia. }
  exists s', ps'. split; [|split; [done|]].
  - simpl add_rounds. mstep Esel. mstep Ef.
    unfold mbind, M_bind in E2 |- *. destruct (queue_commit dummy (upd q' s1)) as [[[]|e] s3]; [|done].
    rewrite E2. exact E'.
  - rewrite Hjobs', Hjobs2, Hsplit, fmap_app. by rewrite app_assoc.
Qed.
End Spec.
