(* ===== verification/ArchiveQueueTheorems.v ===== *)
(** * Removal, reading and repair of archive queues

    The rest of the theorems on [ArchiveQueue.v]: what the operations do, on the
    abstract list of jobs of a queue. *)
From S2P Require Import Prelude DataTypes ValueCountMap Backend ObjectOps ArchiveQueueShard ArchiveQueue ArchiveQueueSpec.

(** Jobs removed from and kept in a list of shards. *)
Lemma kept_app L j k : kept L (j ++ k) = kept L j ++ kept L k.
Proof. apply filter_app. Qed.

Lemma kept_taken L jobs : jobs ≡ₚ taken L jobs ++ kept L jobs.
Proof.
  unfold taken, kept. induction jobs as [|j jobs IH]; [done|].
  rewrite !filter_cons. repeat case_decide; try done; simpl.
  - by rewrite <- IH.
  - rewrite <- Permutation_middle. by rewrite <- IH.
Qed.

Lemma s64_small z : 0 <= z < 2 ^ 63 → s64 z = z.
Proof.
  intros H. unfold s64. rewrite Z.mod_small by lia.
  destruct (Z.ltb_spec z (2 ^ 63)); lia.
Qed.

Lemma oldest_of_app j k : oldest_of (j ++ k) = Z.min (oldest_of j) (oldest_of k).
Proof.
  induction j as [|x j IH]; simpl; [pose proof (oldest_of_le k); unfold oldest_of at 2; simpl; lia|].
  rewrite !oldest_of_cons, IH. lia.
Qed.

Lemma oldest_of_lt jobs : times_ok jobs → jobs ≠ [] → 0 <= oldest_of jobs < max_time_t.
Proof.
  induction 1 as [|j jobs Hj H IH]; [done|]. intros _. rewrite oldest_of_cons.
  destruct jobs as [|k jobs]; [unfold oldest_of; simpl; lia|]. specialize (IH ltac:(done)). lia.
Qed.

Section Theorems.
Context {B St : Type} `{!Serializable B ArchiveQueue, !Serializable B ArchiveQueueShard}.
Context `{!Serializable B (ObjectHeader B), !Backend B St}.
Context (dummy : B).
Implicit Types (s : AQState B St) (aqs : ObjectOps B ArchiveQueueShard).

(** Same state up to the backend. *)
Definition with_be (be : St) s : AQState B St :=
  mkAQState (aq s) (aq_lock s) be (aq_agent s).

(** ** Decrementing the counters *)
Definition maps_ok (q : ArchiveQueue) (ps as_ : list Z) (ns : list string) : Prop :=
  map_ok (prioritymap q) ps ∧ map_ok (minarchiverequestagemap q) as_ ∧
  map_ok (mountpolicynamemap q) ns.

Lemma dec_counters_ok j s ps as_ ns :
  maps_ok (m_payload (aq s)) (ji_priority j :: ps) (ji_minArchiveRequestAge j :: as_)
    (ji_mountPolicyName j :: ns) →
  ∃ pm am nm, let q' := set_maps pm am nm (m_payload (aq s)) in
    dec_counters j s = (Ok tt, upd q' s) ∧ maps_ok q' ps as_ ns.
Proof.
  intros (H1 & H2 & H3).
  destruct (map_ok_dec _ _ _ H1) as (pm & E1 & ?), (map_ok_dec _ _ _ H2) as (am & E2 & ?),
    (map_ok_dec _ _ _ H3) as (nm & E3 & ?).
  exists pm, am, nm. split; [|by split_and!].
  unfold dec_counters, payload, set_payload, gets, modify, lift, mbind, M_bind.
  rewrite E1. simpl. rewrite E2. simpl. rewrite E3. done.
Qed.

Lemma dec_jobs_ok js s ps as_ ns :
  maps_ok (m_payload (aq s)) ((ji_priority <$> js) ++ ps) ((ji_minArchiveRequestAge <$> js) ++ as_)
    ((ji_mountPolicyName <$> js) ++ ns) →
  ∃ pm am nm, let q' := set_maps pm am nm (m_payload (aq s)) in
    mfor js dec_counters s = (Ok tt, upd q' s) ∧ maps_ok q' ps as_ ns.
Proof.
  revert s. induction js as [|j js IH]; intros s H.
  - exists (prioritymap (m_payload (aq s))), (minarchiverequestagemap (m_payload (aq s))),
      (mountpolicynamemap (m_payload (aq s))). split; [|done].
    by destruct s as [[? ? ? [] ?] ? ? ?].
  - destruct (dec_counters_ok j s _ _ _ H) as (pm & am & nm & E & H').
    destruct (IH (upd (set_maps pm am nm (m_payload (aq s))) s) H') as (pm' & am' & nm' & E' & H'').
    exists pm', am', nm'. split; [|done]. simpl mfor. mstep E. rewrite E'. done.
Qed.

(** ** Reading all the shards *)

(** A shard that is there is read without changing anything. *)
Lemma lockfree_shard_ok a p s :
  be_wf (aq_be s) → stored_at (aq_be s) a p →
  ∃ o, m_payload o = p ∧ checkPayloadReadable o = Ok tt ∧
    lockfree_shard dummy a s = (Ok (Some o), s).
Proof.
  intros Hwf [Hne [h Hst]].
  exists (mkOps true a h p (mkFlags true true true 0 0 true false false)).
  split; [done|]. split; [done|]. unfold lockfree_shard. rewrite shard_at_ok by done.
  unfold lift, mbind at 1, M_bind at 1. apply catch_ok.
  by rewrite (bind_ok _ _ _ _ _ (lockfree_shard_fetch dummy a h p s Hwf Hst)).
Qed.

Lemma recompute_shard_ok old a p s :
  be_wf (aq_be s) → stored_at (aq_be s) a p → times_ok (archivejobs p) → old <= max_time_t →
  recompute_shard dummy old a s = (Ok (Z.min old (oldest_of (archivejobs p))), s).
Proof.
  intros Hwf Hst Ht Hold. unfold recompute_shard.
  destruct (lockfree_shard_ok a p s Hwf Hst) as (o & Hp & Hr & E). mstep E.
  unfold shard_dumpJobs, lift, mbind, M_bind, result_bind. rewrite Hr, Hp.
  unfold mret, M_ret. f_equal. f_equal. clear -Ht Hold. revert old Hold.
  induction Ht as [|j jobs Hj H IH]; intros old Hold.
  - unfold oldest_of. simpl. lia.
  - rewrite fmap_cons. cbn [foldl]. rewrite oldest_of_cons. simpl ji_startTime.
    rewrite s64_small by (unfold max_time_t in *; lia).
    destruct (Z.ltb_spec (ajp_starttime j) old); rewrite IH by lia; lia.
Qed.

Lemma recompute_shards_ok as_ ps s old :
  be_wf (aq_be s) → Forall2 (stored_at (aq_be s)) as_ ps → times_ok (shards_jobs ps) →
  old <= max_time_t →
  mfold (recompute_shard dummy) old as_ s = (Ok (Z.min old (oldest_of (shards_jobs ps))), s).
Proof.
  intros Hwf H. revert old. induction H as [|a p as_ ps Ha H IH]; intros old Ht Hold; simpl mfold.
  - unfold shards_jobs, oldest_of. simpl. by rewrite Z.min_l.
  - rewrite shards_jobs_cons in *. apply Forall_app in Ht as [Ht1 Ht2].
    mstep (recompute_shard_ok old a p s Hwf Ha Ht1 Hold). rewrite IH by (done || lia).
    by rewrite oldest_of_app, Z.min_assoc.
Qed.

Lemma recompute_ok s ps :
  state_ok s → Forall2 (stored_at (aq_be s)) (addresses s) ps → times_ok (shards_jobs ps) →
  let q := m_payload (aq s) in
  recomputeOldestJobCreationTime dummy s =
    (Ok tt, upd (set_totals (archivejobstotalsize q) (archivejobscount q)
       (if decide (shards_jobs ps = []) then oldestjobcreationtime q else oldest_of (shards_jobs ps)) q) s).
Proof.
  intros Hs Hst Ht q. unfold recomputeOldestJobCreationTime. mstep (check_writable_ok s Hs).
  unfold payload, gets, mbind at 1, M_bind at 1. fold (addresses s).
  destruct Hs as (Hwf & _).
  mstep (recompute_shards_ok (addresses s) ps s max_time_t Hwf Hst Ht (Z.le_refl _)).
  rewrite Z.min_r by apply oldest_of_le. destruct (decide (shards_jobs ps = [])) as [->|Hne].
  - rewrite decide_False by (unfold oldest_of; simpl; tauto).
    unfold mret, M_ret, upd, set_totals, q. destruct s as [[? ? ? [] ?] ? ? ?]. done.
  - pose proof (oldest_of_lt _ Ht Hne) as Ho. rewrite decide_True by lia.
    unfold set_payload, modify, upd. fold q. rewrite u64_small; [done|].
    unfold in_u64, max_time_t in *. lia.
Qed.

(** ** Removal *)

(** After one shard was written or removed, the commit of a queue that agrees
    with what is left restores the invariant. *)
Lemma commit_after_write s ps be1 a q' ps' :
  aq_ok s ps → a ∈ addresses s → be_wf be1 →
  (∀ n, n ≠ a → be_view be1 !! n = be_view (aq_be s) !! n) →
  queue_mem q' ps' → Forall2 (stored_at be1) (sp_address <$> archivequeueshards q') ps' →
  sp_address <$> archivequeueshards q' `sublist_of` addresses s →
  tapepool q' = tapepool (m_payload (aq s)) →
  Forall (λ p, 0 < shard_len p <= c_maxShardSize) ps' →
  ∃ s', queue_commit dummy (upd q' (with_be be1 s)) = (Ok tt, s') ∧ aq_ok s' ps' ∧
    m_payload (aq s') = q' ∧ aq_agent s' = aq_agent s.
Proof.
  intros Hok Ha Hwf1 Hv Hm Hst Hsub Htp Hsz. pose proof Hok as [Hs _ _ Hnd _ Hnf _].
  destruct Hs as (Hwf & Hh & Hl1 & Hl2 & He). pose proof Hnd as Hnd'.
  apply NoDup_cons in Hnd' as [Hqn Hnd'].
  assert (Hqa : m_name (aq s) ≠ a) by (intros Heq; by rewrite Heq in Hqn).
  assert (Hs1 : state_ok (upd q' (with_be be1 s))).
  { apply state_ok_upd. do 4 (split; [done|]). simpl. by rewrite Hv. }
  destruct (queue_commit_ok dummy _ ps' Hs1 Hm) as (be2 & Ec & Hs2 & Hv2 & Ho2 & Hq2).
  simpl in Hv2, Ho2, Hq2. eexists. split; [exact Ec|]. split; [|done].
  constructor; try done; unfold addresses; simpl.
  - eapply Forall2_impl; [|intros x p' Hp; exact Hp].
    apply Forall2_same_length_lookup_2; [by eapply Forall2_length|].
    intros i x p' Hx Hp. destruct (Forall2_lookup_lr _ _ _ _ _ _ Hst Hx Hp) as [Hne [h Hsh]].
    split; [done|]. exists h. rewrite Ho2; [done|]. intros ->. apply Hqn.
    eapply elem_of_submseteq; [|by apply sublist_submseteq]. by eapply list_elem_of_lookup_2.
  - eapply sublist_NoDup; [exact Hnd|]. by constructor.
  - unfold names_free in *. simpl. intros i Hi. rewrite Htp. specialize (Hnf i Hi).
    set (nm := fst _) in *.
    assert (∀ x, x ∈ m_name (aq s) :: addresses s → nm ≠ x) as Hx.
    { intros x Hx ->. destruct (addresses_exist s ps x Hok Hx). congruence. }
    rewrite Hv2, lookup_insert_ne by (apply not_eq_sym, Hx; left).
    rewrite Hv; [done|]. apply Hx. by right.
Qed.

(** Summaries after the removal of [gone]. *)
Lemma summary_remove q jobs gone rest pm am nm o sps :
  summary_ok q jobs → jobs ≡ₚ gone ++ rest →
  maps_ok (set_maps pm am nm q) (ajp_priority <$> rest) (ajp_minarchiverequestage <$> rest)
    (ajp_mountpolicyname <$> rest) →
  (rest ≠ [] → o = oldest_of rest) →
  summary_ok (set_shards sps (set_totals (archivejobstotalsize q -u64 u64 (Zsum (sizes gone)))
    (archivejobscount q -u64 u64 (Z.of_nat (length gone))) o (set_maps pm am nm q))) rest.
Proof.
  intros [Hc Hb Hy _ _ _ Ht Ho] Hp (H1 & H2 & H3) Hold.
  assert (Hlen : length jobs = (length gone + length rest)%nat) by (by rewrite Hp, length_app).
  constructor; simpl; try done.
  - rewrite u64_sub_r, Hc, Hlen. rewrite u64_small by (unfold in_u64; lia). lia.
  - lia.
  - rewrite Hy, u64_sub_r, u64_sub_l. f_equal. unfold sizes. rewrite Hp, fmap_app, Zsum_app. lia.
  - unfold times_ok in *. rewrite Hp in Ht. by apply Forall_app in Ht as [_ ?].
Qed.

Lemma insert_middle {A} (l1 l2 : list A) (x y : A) :
  <[length l1 := y]> (l1 ++ x :: l2) = l1 ++ y :: l2.
Proof. rewrite insert_app_r_alt by done. by rewrite Nat.sub_diag. Qed.

(** The shard after the removal: overwritten, or removed when it is empty. *)
Lemma write_back_ok a h p' s (n : Z) :
  be_wf (aq_be s) → a ≠ "" → h_type h = ArchiveQueueShard_t → is_Some (be_view (aq_be s) !! a) →
  ∃ x be1, (if decide (n ≠ 0) then with_obj (locked_shard a h p') commit
            else with_obj (locked_shard a h p') remove) s = (Ok x, with_be be1 s) ∧
    be_wf be1 ∧ (∀ m, m ≠ a → be_view be1 !! m = be_view (aq_be s) !! m) ∧
    (n ≠ 0 → stored_at be1 a p').
Proof.
  intros Hwf Hne Hty Hex. destruct (decide (n ≠ 0)) as [Hn|Hn].
  - destruct (write_shard_ok false (locked_shard a h p') p' (aq_be s) Hwf) as (o2 & be2 & E & H1 & H2 & H3);
      [apply locked_shard_writable|done|done|].
    exists (tt, o2), be2. split; [|done]. unfold with_obj.
    replace (with_payload p' (locked_shard a h p')) with (locked_shard a h p') in E by done.
    by rewrite E.
  - destruct (remove_spec (aq_be s) (locked_shard a h p') Hwf) as (o2 & be2 & E & H1 & H2); [done..|].
    exists (tt, o2), be2. unfold with_obj. rewrite E. split; [done|]. split; [done|]. split; [|done].
    intros m Hm. rewrite H2. by rewrite lookup_delete_ne.
Qed.

(** What is left of a shard in the list of shards. *)
Definition leftover (p' : ArchiveQueueShard) : list ArchiveQueueShard :=
  if decide (archivejobs p' = []) then [] else [p'].

Lemma shards_jobs_leftover ps1 p' ps2 :
  shards_jobs (ps1 ++ leftover p' ++ ps2) = shards_jobs ps1 ++ archivejobs p' ++ shards_jobs ps2.
Proof.
  rewrite !shards_jobs_app. unfold leftover. case_decide as H; [by rewrite H|].
  unfold shards_jobs at 2. simpl. by rewrite app_nil_r.
Qed.

(** Opening the shard and removing the jobs, in memory. *)
Lemma open_and_remove a h p s todo :
  be_wf (aq_be s) → m_locked (aq_lock s) = true → sl_type (aq_lock s) = Exclusive →
  a ≠ "" → stored (aq_be s) a = Some (h, p) → shard_wf p →
  let jobs := archivejobs p in
  ∃ ret p', (∀ A (k : RemovalResult * ObjectOps B ArchiveQueueShard → M (AQState B St) A),
      (aqs0 ← lift (shard_at dummy a); aqs1 ← include aqs0; aqs2 ← with_obj aqs1 fetch;
       r ← lift (shard_removeJobs todo (snd aqs2)); k r) s = k (ret, locked_shard a h p') s) ∧
    archivejobs p' = kept todo jobs ∧ shard_wf p' ∧
    jobsAfter ret = Z.of_nat (length (kept todo jobs)) ∧
    bytesAfter ret = u64 (Zsum (sizes (kept todo jobs))) ∧
    jobsRemoved ret = u64 (Z.of_nat (length (taken todo jobs))) ∧
    bytesRemoved ret = u64 (Zsum (sizes (taken todo jobs))) ∧
    removedJobs ret ≡ₚ job_info <$> taken todo jobs.
Proof.
  intros Hwf Hl1 Hl2 Hne Hst Hsw jobs.
  destruct (shard_removeJobs_spec todo (locked_shard a h p) (locked_shard_writable a h p) Hsw)
    as (ret & p' & E & H).
  exists ret, p'. split; [|exact H]. intros A k. rewrite shard_at_ok by done.
  rewrite bind_lift. mstep (include_ok dummy a s Hne Hl1 Hl2).
  mstep (fetch_shard_ok dummy a h p s Hwf Hst). simpl snd. by rewrite E, bind_lift.
Qed.

(** The pointers and the stored shards around one shard. *)
Record around s (ps1 : list ArchiveQueueShard) (p : ArchiveQueueShard) (ps2 : list ArchiveQueueShard)
    (sps1 : list ShardPointer) (sp : ShardPointer) (sps2 : list ShardPointer) (h : ObjectHeader B) : Prop := {
  ar_shards : archivequeueshards (m_payload (aq s)) = sps1 ++ sp :: sps2;
  ar_length : length sps1 = length ps1;
  ar_before : Forall2 pointer_ok sps1 ps1;
  ar_pointer : pointer_ok sp p;
  ar_after : Forall2 pointer_ok sps2 ps2;
  ar_stored1 : Forall2 (stored_at (aq_be s)) (sp_address <$> sps1) ps1;
  ar_address : sp_address sp ≠ "";
  ar_stored : stored (aq_be s) (sp_address sp) = Some (h, p);
  ar_stored2 : Forall2 (stored_at (aq_be s)) (sp_address <$> sps2) ps2
}.

Lemma aq_ok_around s ps1 p ps2 sp :
  aq_ok s (ps1 ++ p :: ps2) → archivequeueshards (m_payload (aq s)) !! length ps1 = Some sp →
  ∃ sps1 sps2 h, around s ps1 p ps2 sps1 sp sps2 h.
Proof.
  intros [_ [Hp _] Hst _ _ _ _] Hsp.
  apply Forall2_app_inv_r in Hp as (sps1 & l2 & Hp1 & Hp2 & E).
  apply Forall2_cons_inv_r in Hp2 as (sp' & sps2 & Hpo & Hp2 & ->).
  assert (Hl := Forall2_length _ _ _ Hp1). rewrite E, list_lookup_middle in Hsp by done.
  injection Hsp as ->. unfold addresses in Hst. rewrite E, fmap_app, fmap_cons in Hst.
  apply Forall2_app_inv in Hst as [Hst1 Hst2]; [|by rewrite length_fmap].
  apply Forall2_cons in Hst2 as [[Hne [h Hst]] Hst2]. by exists sps1, sps2, h.
Qed.

(** The pointer to what is left of the shard. *)
Definition left_pointer (sp : ShardPointer) (p' : ArchiveQueueShard) : list ShardPointer :=
  if decide (archivejobs p' = []) then []
  else [mkShardPointer (sp_address sp) (shard_len p') (aqs_archivejobstotalsize p')].

Lemma left_pointers_ok sps1 sp sps2 ps1 p' ps2 :
  Forall2 pointer_ok sps1 ps1 → Forall2 pointer_ok sps2 ps2 → shard_wf p' →
  Forall2 pointer_ok (sps1 ++ left_pointer sp p' ++ sps2) (ps1 ++ leftover p' ++ ps2).
Proof.
  intros H1 H2 Hw. apply Forall2_app; [done|]. apply Forall2_app; [|done].
  unfold left_pointer, leftover. case_decide; constructor; [by split_and!|constructor].
Qed.

Lemma left_stored_ok (be : St) sps1 sp sps2 ps1 p' ps2 :
  Forall2 (stored_at be) (sp_address <$> sps1) ps1 → Forall2 (stored_at be) (sp_address <$> sps2) ps2 →
  (archivejobs p' ≠ [] → stored_at be (sp_address sp) p') →
  Forall2 (stored_at be) (sp_address <$> sps1 ++ left_pointer sp p' ++ sps2) (ps1 ++ leftover p' ++ ps2).
Proof.
  intros H1 H2 Hw. rewrite !fmap_app. apply Forall2_app; [done|]. apply Forall2_app; [|done].
  unfold left_pointer, leftover. case_decide; csimpl; constructor; [by apply Hw|constructor].
Qed.

Lemma left_sublist sps1 sp sps2 p' :
  sp_address <$> sps1 ++ left_pointer sp p' ++ sps2 `sublist_of` sp_address <$> sps1 ++ sp :: sps2.
Proof.
  rewrite !fmap_app, fmap_cons. apply sublist_app; [done|]. unfold left_pointer.
  case_decide; csimpl; by constructor.
Qed.

Lemma shards_jobs_removed L ps1 p ps2 p' :
  archivejobs p' = kept L (archivejobs p) →
  shards_jobs (ps1 ++ p :: ps2) ≡ₚ taken L (archivejobs p) ++ shards_jobs (ps1 ++ leftover p' ++ ps2).
Proof.
  intros Hk. rewrite shards_jobs_leftover, shards_jobs_app, shards_jobs_cons, Hk.
  rewrite (kept_taken L (archivejobs p)) at 1. rewrite <- !app_assoc.
  rewrite !(Permutation_app_comm (shards_jobs ps1)). by rewrite <- !app_assoc.
Qed.

(** The value maps split into the removed jobs and the others. *)
Lemma maps_split q jobs js gone rest :
  summary_ok q jobs → jobs ≡ₚ gone ++ rest → js ≡ₚ job_info <$> gone →
  maps_ok q ((ji_priority <$> js) ++ (ajp_priority <$> rest))
    ((ji_minArchiveRequestAge <$> js) ++ (ajp_minarchiverequestage <$> rest))
    ((ji_mountPolicyName <$> js) ++ (ajp_mountpolicyname <$> rest)).
Proof.
  intros [_ _ _ H1 H2 H3 _ _] Hp Hjs.
  split; [|split]; (eapply map_ok_perm; [|eassumption]);
    rewrite Hp, Hjs, fmap_app, <- list_fmap_compose; done.
Qed.

Lemma update_pointer_ok L sps1 sp sps2 p p' res s :
  archivequeueshards (m_payload (aq s)) = sps1 ++ sp :: sps2 → pointer_ok sp p →
  shard_len p <= c_maxShardSize →
  archivejobs p' = kept L (archivejobs p) → shard_wf p' →
  jobsAfter res = Z.of_nat (length (kept L (archivejobs p))) →
  bytesAfter res = u64 (Zsum (sizes (kept L (archivejobs p)))) →
  jobsRemoved res = u64 (Z.of_nat (length (taken L (archivejobs p)))) →
  bytesRemoved res = u64 (Zsum (sizes (taken L (archivejobs p)))) →
  update_pointer dummy (length sps1) sp res s =
    (Ok (length sps1 + length (leftover p'))%nat,
     upd (set_shards (sps1 ++ left_pointer sp p' ++ sps2) (m_payload (aq s))) s).
Proof.
  intros Hsps (Hc & Hb & Hw) Hsz Hk Hw' Ha Hba Hr Hbr. unfold update_pointer, left_pointer, leftover.
  pose proof (kept_taken L (archivejobs p)) as Hperm.
  assert (Hlen := Permutation_length Hperm). rewrite length_app in Hlen.
  assert (Hsum : Zsum (sizes (archivejobs p)) =
    Zsum (sizes (taken L (archivejobs p))) + Zsum (sizes (kept L (archivejobs p)))).
  { unfold sizes. rewrite Hperm at 1. by rewrite fmap_app, Zsum_app. }
  unfold shard_len, c_maxShardSize in Hsz.
  destruct (decide (archivejobs p' = [])) as [He|He].
  - rewrite decide_False by (rewrite Ha, <- Hk, He; simpl; lia).
    unfold set_payload, modify, mbind, M_bind, mret, M_ret, upd. rewrite Hsps.
    rewrite RemoveLast_push_to_end by (rewrite length_app; simpl; lia).
    rewrite delete_middle. simpl. by rewrite Nat.add_0_r.
  - assert (Hpos : (0 < length (kept L (archivejobs p)))%nat).
    { rewrite <- Hk. destruct (archivejobs p'); [done|simpl; lia]. }
    rewrite decide_True by lia. simpl.
    assert (E1 : shardjobscount sp -u64 jobsRemoved res = shard_len p').
    { rewrite Hr, u64_sub_r, Hc. unfold shard_len. rewrite Hk.
      rewrite u64_small by (unfold in_u64; lia). lia. }
    assert (E2 : shardbytescount sp -u64 bytesRemoved res = aqs_archivejobstotalsize p').
    { rewrite Hbr, u64_sub_r, Hb, Hw, Hw', Hk, u64_sub_l, Hsum. f_equal. lia. }
    rewrite E1, E2. rewrite decide_False; [|].
    + unfold set_payload, modify, mbind, M_bind, mret, M_ret, upd. rewrite Hsps, insert_middle.
      by rewrite Nat.add_1_r.
    + rewrite Hw', Hk, Hba, Ha. unfold shard_len. rewrite Hk. tauto.
Qed.

Lemma todo_left p (res : RemovalResult) todo a :
  removedJobs res ≡ₚ job_info <$> taken todo (archivejobs p) →
  a ∈ filter (λ ja, Forall (λ j, ji_address j ≠ ja) (removedJobs res)) todo ↔
  a ∈ todo ∧ a ∉ ajp_address <$> archivejobs p.
Proof.
  intros Hr. rewrite list_elem_of_filter, Hr, Forall_fmap, Forall_forall. split.
  - intros [H Ha]. split; [done|]. intros [j [-> Hj]]%list_elem_of_fmap.
    apply (H j); [|done]. by apply list_elem_of_filter.
  - intros [Ha H]. split; [|done]. intros j [_ Hj]%list_elem_of_filter Heq.
    apply H, list_elem_of_fmap. by exists j.
Qed.

(** The end of a round: the oldest time is computed again, the queue committed. *)
Lemma remove_finish s ps1 p ps2 sps1 sp sps2 h be1 p' q3 :
  aq_ok s (ps1 ++ p :: ps2) → around s ps1 p ps2 sps1 sp sps2 h →
  be_wf be1 → (∀ m, m ≠ sp_address sp → be_view be1 !! m = be_view (aq_be s) !! m) →
  (archivejobs p' ≠ [] → stored_at be1 (sp_address sp) p') → shard_wf p' →
  shard_len p' <= c_maxShardSize →
  archivequeueshards q3 = sps1 ++ left_pointer sp p' ++ sps2 →
  tapepool q3 = tapepool (m_payload (aq s)) →
  let rest := shards_jobs (ps1 ++ leftover p' ++ ps2) in
  times_ok rest →
  (∀ o, (rest ≠ [] → o = oldest_of rest) →
     summary_ok (set_totals (archivejobstotalsize q3) (archivejobscount q3) o q3) rest) →
  ∃ s', (recomputeOldestJobCreationTime dummy ≫= λ _, queue_commit dummy) (upd q3 (with_be be1 s)) = (Ok tt, s') ∧
    aq_ok s' (ps1 ++ leftover p' ++ ps2) ∧ aq_agent s' = aq_agent s.
Proof.
  intros Hok Har Hwf1 Hv1 Hst' Hw' Hlen' Esh3 Etp rest Ht Hsum.
  pose proof Hok as [Hs _ _ Hnd Hsz _ _]. pose proof Har as [Esh El Hb _ Haft Hst1 _ _ Hst2].
  assert (Hadr : addresses s = (sp_address <$> sps1) ++ sp_address sp :: (sp_address <$> sps2)).
  { unfold addresses. by rewrite Esh, fmap_app. }
  pose proof Hnd as Hnd'. apply NoDup_cons in Hnd' as [Hqn Hnd']. rewrite Hadr in Hqn, Hnd'.
  apply NoDup_app in Hnd' as (_ & Hx1 & Hx2). apply NoDup_cons in Hx2 as [Hx2 _].
  assert (Hsto : Forall2 (stored_at be1) (sp_address <$> archivequeueshards q3) (ps1 ++ leftover p' ++ ps2)).
  { rewrite Esh3. apply left_stored_ok; [| |done]; (eapply (stored_others (aq_be s) _ (sp_address sp)));
      try done; try (by intros; apply Hv1). intros Hin. apply (Hx1 _ Hin). left. }
  assert (Hs3 : state_ok (upd q3 (with_be be1 s))).
  { apply state_ok_upd. destruct Hs as (_ & Hh & Hl1 & Hl2 & He). do 4 (split; [done|]). simpl.
    rewrite Hv1; [done|]. intros E. apply Hqn. rewrite E. set_solver. }
  mstep (recompute_ok _ _ Hs3 Hsto Ht).
  destruct (commit_after_write s _ be1 (sp_address sp)
    (set_totals (archivejobstotalsize q3) (archivejobscount q3)
       (if decide (rest = []) then oldestjobcreationtime q3 else oldest_of rest) q3)
    (ps1 ++ leftover p' ++ ps2) Hok) as (s' & E & Hok' & _ & Hag); try done.
  - rewrite Hadr. set_solver.
  - split; [simpl; rewrite Esh3; by apply left_pointers_ok|]. apply Hsum. intros Hne. by rewrite decide_False.
  - simpl. rewrite Esh3. unfold addresses. rewrite Esh. apply left_sublist.
  - apply Forall_app in Hsz as [Hsz1 [_ Hsz2]%Forall_cons]. apply Forall_app. split; [done|].
    apply Forall_app. split; [|done]. unfold leftover. case_decide as Hd; constructor; [|constructor].
    split; [|done]. unfold shard_len. destruct (archivejobs p'); [done|simpl; lia].
  - exists s'. split; [exact E|]. done.
Qed.

Lemma remove_round_ok s ps1 p ps2 sp todo :
  aq_ok s (ps1 ++ p :: ps2) → archivequeueshards (m_payload (aq s)) !! length ps1 = Some sp →
  ∃ s' p' todo', remove_round dummy (length ps1) todo sp s =
      (Ok ((length ps1 + length (leftover p'))%nat, todo'), s') ∧
    aq_ok s' (ps1 ++ leftover p' ++ ps2) ∧ archivejobs p' = kept todo (archivejobs p) ∧
    (∀ a, a ∈ todo' ↔ a ∈ todo ∧ a ∉ ajp_address <$> archivejobs p) ∧
    aq_agent s' = aq_agent s.
Proof.
  intros Hok Hsp. destruct (aq_ok_around _ _ _ _ _ Hok Hsp) as (sps1 & sps2 & h & Har).
  pose proof Hok as [Hs [_ Hsum] _ Hnd Hsz _ _]. destruct Hs as (Hwf & Hh & Hl1 & Hl2 & He).
  pose proof Har as [Esh El Hb Hpo Haft Hst1 Hne Hst Hst2].
  destruct (open_and_remove (sp_address sp) h p s todo Hwf Hl1 Hl2 Hne Hst (proj2 (proj2 Hpo)))
    as (res & p' & Eopen & Hk & Hw' & Ha & Hba & Hr & Hbr & Hrm).
  destruct (write_back_ok (sp_address sp) h p' s (jobsAfter res) Hwf Hne) as (x & be1 & Ewr & Hwf1 & Hv1 & Hst').
  { by destruct (stored_view _ _ _ _ Hst) as (? & _ & _ & ? & _). }
  { by eapply stored_exists. }
  pose proof (shards_jobs_removed todo ps1 p ps2 p' Hk) as Hperm.
  destruct (dec_jobs_ok (removedJobs res) (with_be be1 s) _ _ _ (maps_split _ _ _ _ _ Hsum Hperm Hrm))
    as (pm & am & nm & Edec & Hmaps).
  set (q3 := set_shards (sps1 ++ left_pointer sp p' ++ sps2)
    (set_totals (archivejobstotalsize (m_payload (aq s)) -u64 bytesRemoved res)
       (archivejobscount (m_payload (aq s)) -u64 jobsRemoved res)
       (oldestjobcreationtime (m_payload (aq s))) (set_maps pm am nm (m_payload (aq s))))).
  assert (Hle : shard_len p <= c_maxShardSize).
  { apply Forall_app in Hsz as [_ [[_ ?] _]%Forall_cons]. done. }
  assert (Ht : times_ok (shards_jobs (ps1 ++ leftover p' ++ ps2))).
  { pose proof (so_times _ _ Hsum) as Ht. unfold times_ok in *. rewrite Hperm in Ht.
    by apply Forall_app in Ht as [_ ?]. }
  assert (Hlen' : shard_len p' <= shard_len p).
  { unfold shard_len. rewrite Hk. pose proof (length_filter (λ j, ajp_address j ∉ todo) (archivejobs p)).
    unfold kept. lia. }
  destruct (remove_finish s ps1 p ps2 sps1 sp sps2 h be1 p' q3 Hok Har Hwf1 Hv1)
    as (s' & Efin & Hok' & Hag); try done.
  { intros Hp'. apply Hst'. rewrite Ha, <- Hk. destruct (archivejobs p'); [done|simpl; lia]. }
  { lia. }
  { intros o Ho. unfold q3. rewrite Hr, Hbr. simpl.
    apply (summary_remove _ _ _ _ pm am nm o (sps1 ++ left_pointer sp p' ++ sps2) Hsum Hperm Hmaps Ho). }
  exists s', p', (filter (λ ja, Forall (λ j, ji_address j ≠ ja) (removedJobs res)) todo).
  split; [|split_and!; [done|done| |done]; intros a; by apply todo_left].
  unfold remove_round. rewrite Eopen. mstep Ewr. mstep Edec.
  unfold set_payload at 1, modify, mbind at 1, M_bind at 1. simpl.
  rewrite <- El. erewrite bind_ok; [|by eapply update_pointer_ok].
  unfold mbind, M_bind in Efin |- *. unfold upd, q3 in Efin. simpl in Efin |- *.
  destruct (recomputeOldestJobCreationTime dummy _) as [[[]|] ?]; [|done]. rewrite Efin.
  by rewrite El.
Qed.

Definition job_addresses (jobs : list ArchiveJobPointer) : list string := ajp_address <$> jobs.

Lemma kept_ext L L' jobs :
  (∀ a, a ∈ job_addresses jobs → a ∈ L ↔ a ∈ L') → kept L jobs = kept L' jobs.
Proof.
  intros H. apply list_filter_ext. intros j Hj. rewrite (H (ajp_address j)); [done|].
  by apply list_elem_of_fmap_2.
Qed.

Lemma kept_none L jobs : (∀ a, a ∈ L → a ∉ job_addresses jobs) → kept L jobs = jobs.
Proof.
  intros H. apply list_filter_all, Forall_forall. intros j Hj Hin. apply (H _ Hin).
  by apply list_elem_of_fmap_2.
Qed.

Lemma job_addresses_app j k : job_addresses (j ++ k) = job_addresses j ++ job_addresses k.
Proof. apply fmap_app. Qed.

Lemma kept_addresses L jobs a : a ∈ job_addresses (kept L jobs) → a ∈ job_addresses jobs.
Proof.
  intros [j [-> [_ Hj]%list_elem_of_filter]]%list_elem_of_fmap. by apply list_elem_of_fmap_2.
Qed.

Lemma kept_NoDup L jobs : NoDup (job_addresses jobs) → NoDup (job_addresses (kept L jobs)).
Proof.
  intros H. eapply sublist_NoDup; [exact H|]. apply fmap_sublist, sublist_filter.
Qed.

Lemma remove_loop_ok fuel ps2 ps1 todo s :
  aq_ok s (ps1 ++ ps2) → (length ps2 <= fuel)%nat →
  NoDup (job_addresses (shards_jobs (ps1 ++ ps2))) →
  (∀ a, a ∈ todo → a ∉ job_addresses (shards_jobs ps1)) →
  ∃ s' ps', remove_loop dummy fuel (length ps1) todo s = (Ok tt, s') ∧ aq_ok s' ps' ∧
    shards_jobs ps' = shards_jobs ps1 ++ kept todo (shards_jobs ps2) ∧ aq_agent s' = aq_agent s.
Proof.
  revert fuel ps1 todo s. induction ps2 as [|p ps2 IH]; intros fuel ps1 todo s Hok Hf Hnd Htodo.
  - exists s, ps1. rewrite app_nil_r in *. split_and!; try done; try (by rewrite app_nil_r).
    pose proof (Forall2_length _ _ _ (proj1 (ok_mem _ _ Hok))) as Hl.
    destruct fuel, todo; simpl; try done; unfold payload, gets, mbind, M_bind;
      by rewrite lookup_ge_None_2 by lia.
  - destruct todo as [|t todo].
    { exists s, (ps1 ++ p :: ps2). split; [by destruct fuel|]. split_and!; try done.
      rewrite shards_jobs_app. f_equal. symmetry. apply kept_none. set_solver. }
    set (L := t :: todo) in *. destruct fuel as [|fuel]; [simpl in Hf; lia|].
    assert (is_Some (archivequeueshards (m_payload (aq s)) !! length ps1)) as [sp Hsp].
    { apply lookup_lt_is_Some. rewrite (Forall2_length _ _ _ (proj1 (ok_mem _ _ Hok))).
      rewrite length_app. simpl. lia. }
    destruct (remove_round_ok s ps1 p ps2 sp L Hok Hsp) as (s1 & p' & todo' & E & Hok1 & Hk & Ht' & Hag).
    rewrite shards_jobs_app, shards_jobs_cons, !job_addresses_app in Hnd.
    apply NoDup_app in Hnd as (Hn1 & Hd1 & (Hn2 & Hd2 & Hn3)%NoDup_app).
    rewrite app_assoc in Hok1.
    assert (Hps1 : shards_jobs (ps1 ++ leftover p') = shards_jobs ps1 ++ kept L (archivejobs p)).
    { pose proof (shards_jobs_leftover ps1 p' []) as Hl. rewrite app_nil_r, Hk in Hl. rewrite Hl.
      by rewrite (app_nil_r (kept _ _)). }
    destruct (IH fuel (ps1 ++ leftover p') todo' s1 Hok1) as (s2 & ps' & E2 & Hok2 & Hj & Hag2).
    { simpl in Hf. lia. }
    { rewrite shards_jobs_app, Hps1, !job_addresses_app. rewrite <- app_assoc.
      apply NoDup_app. split; [done|]. split.
      - intros a Ha Hin. apply (Hd1 a Ha). rewrite elem_of_app in *. destruct Hin; [left|by right].
        by eapply kept_addresses.
      - apply NoDup_app. split; [by apply kept_NoDup|]. split; [|done].
        intros a Ha. apply Hd2. by eapply kept_addresses. }
    { intros a [Ha Hna]%Ht'. rewrite Hps1, job_addresses_app, not_elem_of_app.
      split; [by apply Htodo|]. by intros ?%kept_addresses. }
    exists s2, ps'. split; [|split_and!; [done| |congruence]].
    + unfold L. simpl remove_loop. unfold payload, gets, mbind at 1, M_bind at 1.
      rewrite Hsp. fold L. mstep E. rewrite <- E2. by rewrite length_app.
    + rewrite Hj, Hps1, <- app_assoc. f_equal. rewrite shards_jobs_cons, kept_app. f_equal.
      apply kept_ext. intros a Ha. rewrite Ht'. split; [by intros []|]. intros HL. split; [done|].
      intros Hin. by apply (Hd2 a Hin).
Qed.

(** ** The abstract queue *)

(** [represents s jobs]: the queue, locked by the caller and committed in the
    backend, holds [jobs] in this order. *)
Definition represents s (jobs : list ArchiveJobPointer) : Prop :=
  ∃ ps, aq_ok s ps ∧ shards_jobs ps = jobs.

Lemma addJobs_ok jobs s L :
  represents s L → Forall job_ok jobs →
  0 <= m_nextId (aq_agent s) → m_nextId (aq_agent s) + Z.of_nat (length jobs) < 2 ^ 64 →
  Z.of_nat (length L + length jobs) < 2 ^ 64 →
  ∃ s', addJobsAndCommit dummy jobs s = (Ok tt, s') ∧ represents s' (L ++ (job_pointer <$> jobs)).
Proof.
  intros (ps & Hok & <-) Hj Hi0 Hi Hlt. unfold addJobsAndCommit.
  mstep (check_writable_ok s (ok_state _ _ Hok)).
  destruct (add_rounds_ok dummy (add_fuel jobs) jobs s ps) as (s' & ps' & E & Hok' & Hjs);
    try done; [unfold add_fuel; lia|]. exists s'. split; [done|]. by exists ps'.
Qed.

(** C4: adding jobs appends them.  If the queue holds [L], jobs with valid sizes
    and creation times are added and there is room for that many identifiers and
    counts, [addJobsAndCommit] returns normally (the loop over the shards ends)
    and the queue, as committed with its shards in the backend, holds [L]
    followed by the new jobs in their order, with all summaries right. *)
Theorem addJobsAndCommit_appends jobs s L :
  represents s L → Forall job_ok jobs →
  0 <= m_nextId (aq_agent s) → m_nextId (aq_agent s) + Z.of_nat (length jobs) < 2 ^ 64 →
  Z.of_nat (length L + length jobs) < 2 ^ 64 →
  ∃ s', addJobsAndCommit dummy jobs s = (Ok tt, s') ∧ represents s' (L ++ (job_pointer <$> jobs)).
Proof. apply addJobs_ok. Qed.

(** C5: removal takes out exactly the requested jobs.  In a queue whose requests
    are distinct, [removeJobsAndCommit] returns normally, and the committed queue
    holds the other jobs in their order, with all summaries right; shards left
    empty are dropped. *)
Theorem removeJobsAndCommit_removes todo s L :
  represents s L → NoDup (job_addresses L) →
  ∃ s', removeJobsAndCommit dummy todo s = (Ok tt, s') ∧ represents s' (kept todo L).
Proof.
  intros (ps & Hok & <-) Hnd. unfold removeJobsAndCommit.
  mstep (check_writable_ok s (ok_state _ _ Hok)).
  unfold payload, gets, mbind, M_bind.
  rewrite (Forall2_length _ _ _ (proj1 (ok_mem _ _ Hok))).
  destruct (remove_loop_ok (length ps) ps [] todo s) as (s' & ps' & E & Hok' & Hj & _); try done.
  { intros a _. apply not_elem_of_nil. }
  exists s'. split; [done|]. by exists ps'.
Qed.
End Theorems.
