(* ===== verification/ArchiveQueueReads.v ===== *)
(** * Reading archive queues

    The dump, the summary for the mount decision and the selection of candidate
    jobs, on the abstract list of jobs; and the addition of jobs that may already
    be queued. *)
From S2P Require Import Prelude DataTypes ValueCountMap Backend ObjectOps ArchiveQueueShard ArchiveQueue ArchiveQueueSpec ArchiveQueueTheorems.

Lemma map_ok_elem {K} `{EqDecision K} (m : list (VCPair K)) l k :
  map_ok m l → k ∈ value <$> m ↔ k ∈ l.
Proof.
  intros (Hwf & Hm & _). rewrite elem_of_values, Hm by done. unfold occ.
  split.
  - intros Hl. destruct (filter (λ x, x = k) l) as [|x f] eqn:E; [done|].
    assert (x ∈ filter (λ x, x = k) l) as [-> ?]%list_elem_of_filter by (rewrite E; left). done.
  - intros Hk. assert (k ∈ filter (λ x, x = k) l) as Hin by (by apply list_elem_of_filter).
    destruct (filter (λ x, x = k) l); [by apply not_elem_of_nil in Hin|]. simpl. lia.
Qed.

(** ** Candidate selection *)
Definition eligible (skip : gset string) (jobs : list ArchiveJobPointer) : list ArchiveJobPointer :=
  filter (λ j, ajp_address j ∉ skip) jobs.

Definition bytes_of (jobs : list ArchiveJobPointer) : Z := Zsum (sizes jobs).

(** A limit is reached by the eligible jobs of a list. *)
Definition reached (maxBytes maxFiles : Z) (skip : gset string) (jobs : list ArchiveJobPointer) : Prop :=
  maxBytes <= bytes_of (eligible skip jobs) ∨
  maxFiles <= Z.of_nat (length (eligible skip jobs)).

(** [first_reach .. pre jobs k]: extending [pre] with the first [k] of [jobs] is
    the shortest extension that reaches a limit, or all of [jobs]. *)
Definition first_reach (mB mF : Z) (skip : gset string) (pre jobs : list ArchiveJobPointer) (k : nat) : Prop :=
  (k <= length jobs)%nat ∧
  (∀ k', (k' < k)%nat → ¬ reached mB mF skip (pre ++ take k' jobs)) ∧
  (k = length jobs ∨ reached mB mF skip (pre ++ take k jobs)).

Definition job_dump (j : ArchiveJobPointer) : JobDump :=
  mkJobDump (ajp_size j) (ajp_address j) (u16 (ajp_copynb j)).

(** The candidate list after the prefix [pre] of [F] jobs and [Y] bytes. *)
Definition cand (skip : gset string) (F Y : Z) (pre : list ArchiveJobPointer) : CandidateJobList :=
  mkCandidates (u64 (F - Z.of_nat (length pre))) (u64 (Y - bytes_of pre))
    (Z.of_nat (length (eligible skip pre))) (bytes_of (eligible skip pre))
    (job_dump <$> eligible skip pre).

(** Sizes are nonnegative and nothing overflows. *)
Definition no_overflow (jobs : list ArchiveJobPointer) : Prop :=
  Forall (λ j, 0 <= ajp_size j) jobs ∧ bytes_of jobs < 2 ^ 64 ∧ Z.of_nat (length jobs) < 2 ^ 64.

Lemma bytes_of_app j k : bytes_of (j ++ k) = bytes_of j + bytes_of k.
Proof. unfold bytes_of. by rewrite sizes_app, Zsum_app. Qed.

Lemma bytes_of_nonneg jobs : Forall (λ j, 0 <= ajp_size j) jobs → 0 <= bytes_of jobs.
Proof. intros H. apply Zsum_nonneg. unfold sizes. by apply Forall_fmap. Qed.

Lemma bytes_of_eligible skip jobs :
  Forall (λ j, 0 <= ajp_size j) jobs → 0 <= bytes_of (eligible skip jobs) <= bytes_of jobs.
Proof.
  induction 1 as [|j jobs Hj H IH]; [done|]. unfold eligible in *. rewrite filter_cons.
  assert (Hc : ∀ k, bytes_of (j :: k) = ajp_size j + bytes_of k) by done.
  case_decide; rewrite !Hc; lia.
Qed.

Lemma eligible_app skip j k : eligible skip (j ++ k) = eligible skip j ++ eligible skip k.
Proof. apply filter_app. Qed.

Lemma no_overflow_app j k : no_overflow (j ++ k) → no_overflow j ∧ no_overflow k.
Proof.
  intros (H1 & H2 & H3). apply Forall_app in H1 as [Ha Hb]. rewrite bytes_of_app in H2.
  rewrite length_app in H3. pose proof (bytes_of_nonneg _ Ha). pose proof (bytes_of_nonneg _ Hb).
  split; (split; [done|lia]).
Qed.

Lemma no_overflow_eligible skip jobs :
  no_overflow jobs → in_u64 (bytes_of (eligible skip jobs)) ∧
    in_u64 (Z.of_nat (length (eligible skip jobs))).
Proof.
  intros (H1 & H2 & H3). pose proof (bytes_of_eligible skip jobs H1).
  pose proof (length_filter (λ j, ajp_address j ∉ skip) jobs). unfold in_u64, eligible in *. lia.
Qed.

Lemma bytes_of_single j : bytes_of [j] = ajp_size j.
Proof. unfold bytes_of, sizes, Zsum. simpl. lia. Qed.

Lemma eligible_snoc skip pre j :
  eligible skip (pre ++ [j]) = if decide (ajp_address j ∈ skip) then eligible skip pre
                               else eligible skip pre ++ [j].
Proof.
  rewrite eligible_app. unfold eligible at 2. rewrite filter_cons.
  repeat case_decide; try tauto. by rewrite filter_nil, app_nil_r.
Qed.

#[export] Instance reached_dec mB mF skip jobs : Decision (reached mB mF skip jobs).
Proof. unfold reached. apply _. Defined.

(** One more job of the prefix. *)
Lemma cand_step skip F Y pre j :
  no_overflow (pre ++ [j]) →
  candidate_step skip j (cand skip F Y pre) = cand skip F Y (pre ++ [j]).
Proof.
  intros Hov. destruct (no_overflow_eligible skip _ Hov) as [Hb Hf].
  unfold candidate_step, cand. rewrite bytes_of_app, bytes_of_single, length_app. simpl length.
  rewrite eligible_snoc in *. destruct (decide (ajp_address j ∈ skip)) as [Hs|Hs]; simpl.
  - rewrite !u64_sub_l. f_equal; f_equal; lia.
  - rewrite bytes_of_app, bytes_of_single, length_app in *. simpl in *.
    rewrite !u64_sub_l, (u64_small (_ + ajp_size j)) by done.
    rewrite (u64_small (_ + 1)) by (unfold in_u64 in *; lia). rewrite fmap_app.
    f_equal; try f_equal; lia.
Qed.

Lemma candidate_loop_spec mB mF skip F Y jobs pre :
  no_overflow (pre ++ jobs) → ¬ reached mB mF skip pre →
  ∃ k, first_reach mB mF skip pre jobs k ∧
    candidate_loop mB mF skip jobs (cand skip F Y pre) = cand skip F Y (pre ++ take k jobs).
Proof.
  revert pre. induction jobs as [|j jobs IH]; intros pre Hov Hr.
  - exists 0%nat. rewrite app_nil_r. split; [|done]. split; [done|]. split; [lia|by left].
  - rewrite cons_middle, app_assoc in Hov. destruct (no_overflow_app _ _ Hov) as [Hov1 _].
    cbn [candidate_loop]. rewrite (cand_step skip F Y pre j Hov1). cbv zeta.
    assert (Hdec : (mB <=? candidateBytes (cand skip F Y (pre ++ [j]))) ||
        (mF <=? candidateFiles (cand skip F Y (pre ++ [j]))) = bool_decide (reached mB mF skip (pre ++ [j]))).
    { unfold reached, cand. simpl.
      destruct (Z.leb_spec mB (bytes_of (eligible skip (pre ++ [j])))),
        (Z.leb_spec mF (Z.of_nat (length (eligible skip (pre ++ [j])))));
        symmetry; apply bool_decide_eq_true || apply bool_decide_eq_false; lia. }
    rewrite Hdec. case_bool_decide as Hj.
    + exists 1%nat. simpl. rewrite take_0. split; [|done]. split; [simpl; lia|]. split; [|by right].
      intros k' Hk'. assert (k' = 0%nat) as -> by lia. by rewrite take_0, app_nil_r.
    + destruct (IH (pre ++ [j]) Hov Hj) as (k & (H1 & H2 & H3) & E).
      exists (S k). rewrite E. simpl take. rewrite <- app_assoc. split; [|done].
      split; [simpl; lia|]. split.
      * intros [|k'] Hk'; [by rewrite take_0, app_nil_r|]. simpl.
        rewrite cons_middle, app_assoc. apply H2. lia.
      * rewrite <- app_assoc in H3. destruct H3; [left; simpl; lia|by right].
Qed.

(** Limits relative to the jobs already taken. *)
Lemma reached_shift mB mF skip done_ jobs :
  reached (mB - bytes_of (eligible skip done_)) (mF - Z.of_nat (length (eligible skip done_))) skip jobs ↔
  reached mB mF skip (done_ ++ jobs).
Proof. unfold reached. rewrite eligible_app, bytes_of_app, length_app. lia. Qed.

Lemma not_reached mB mF skip jobs :
  (bytes_of (eligible skip jobs) <? mB) && (Z.of_nat (length (eligible skip jobs)) <? mF) =
  negb (bool_decide (reached mB mF skip jobs)).
Proof.
  unfold reached. destruct (Z.ltb_spec (bytes_of (eligible skip jobs)) mB),
    (Z.ltb_spec (Z.of_nat (length (eligible skip jobs))) mF); simpl; symmetry;
    apply negb_true_iff, bool_decide_eq_false || apply negb_false_iff, bool_decide_eq_true; lia.
Qed.

(** A prefix that reached a limit is not extended by further jobs. *)
Lemma first_reach_stop mB mF skip jobs more k :
  first_reach mB mF skip [] jobs k → reached mB mF skip (take k jobs) →
  first_reach mB mF skip [] (jobs ++ more) k ∧ take k (jobs ++ more) = take k jobs.
Proof.
  intros (H1 & H2 & H3) Hr. split; [|by rewrite take_app_le].
  split; [rewrite length_app; lia|]. split.
  - intros k' Hk'. rewrite take_app_le by lia. by apply H2.
  - right. by rewrite take_app_le.
Qed.

(** Without a limit reached, the selection goes on with the jobs that follow. *)
Lemma first_reach_continue mB mF skip jobs more k2 :
  first_reach mB mF skip [] jobs (length jobs) → ¬ reached mB mF skip jobs →
  first_reach (mB - bytes_of (eligible skip jobs)) (mF - Z.of_nat (length (eligible skip jobs)))
    skip [] more k2 →
  first_reach mB mF skip [] (jobs ++ more) (length jobs + k2) ∧
  take (length jobs + k2) (jobs ++ more) = jobs ++ take k2 more.
Proof.
  intros (H1 & H2 & H3) Hr (G1 & G2 & G3).
  assert (Htake : ∀ n, take (length jobs + n) (jobs ++ more) = jobs ++ take n more).
  { intros n. rewrite take_app_ge by lia. do 2 f_equal. lia. }
  split; [|apply Htake]. split; [rewrite length_app; lia|]. split.
  - intros k' Hk'. simpl. destruct (decide (k' < length jobs)%nat) as [Hlt|Hge].
    + rewrite take_app_le by lia. by apply H2.
    + replace k' with (length jobs + (k' - length jobs))%nat by lia. rewrite Htake.
      rewrite <- reached_shift. apply G2. lia.
  - simpl in *. rewrite Htake, <- reached_shift, length_app. destruct G3; [left; lia|by right].
Qed.

Section Reads.
Context {B St : Type} `{!Serializable B ArchiveQueue, !Serializable B ArchiveQueueShard}.
Context `{!Serializable B (ObjectHeader B), !Backend B St}.
Context (dummy : B).
Implicit Types (s : AQState B St).

Lemma fetch_candidates mB mF skip a p s :
  be_wf (aq_be s) → stored_at (aq_be s) a p →
  ∃ o, with_obj (named_shard dummy a) fetchNoLock s = (Ok (tt, o), s) ∧
    shard_getCandidateJobList mB mF skip o =
      Ok (candidate_loop mB mF skip (archivejobs p)
            (mkCandidates (Z.of_nat (length (archivejobs p))) (aqs_archivejobstotalsize p) 0 0 [])).
Proof.
  intros Hwf (Hne & h & Hst). eexists. split.
  - unfold with_obj. rewrite (fetchNoLock_spec _ h p) by done. by destruct s.
  - done.
Qed.

Lemma cand_start skip p :
  shard_wf p → Z.of_nat (length (archivejobs p)) < 2 ^ 64 →
  mkCandidates (Z.of_nat (length (archivejobs p))) (aqs_archivejobstotalsize p) 0 0 [] =
  cand skip (Z.of_nat (length (archivejobs p))) (bytes_of (archivejobs p)) [].
Proof.
  intros Hw Hl. unfold cand. simpl. rewrite Hw. unfold bytes_of at 2. simpl.
  rewrite !Z.sub_0_r, (u64_small (Z.of_nat _)) by (unfold in_u64; lia). done.
Qed.

Lemma candidate_shard_ok mB mF skip J1 k sp p s :
  in_u64 mB → in_u64 mF → be_wf (aq_be s) → pointer_ok sp p → stored_at (aq_be s) (sp_address sp) p →
  no_overflow (J1 ++ archivejobs p) → first_reach mB mF skip [] J1 k →
  let J := J1 ++ archivejobs p in
  ∃ k', first_reach mB mF skip [] J k' ∧
    candidate_shard dummy mB mF skip (cand skip (Z.of_nat (length J1)) (bytes_of J1) (take k J1)) sp s =
      (Ok (cand skip (Z.of_nat (length J)) (bytes_of J) (take k' J)), s).
Proof.
  intros HmB HmF Hwf (Hc & Hb & Hw) Hst Hov Hk J. unfold candidate_shard.
  cbn [cand candidateBytes candidateFiles]. rewrite not_reached.
  case_bool_decide as Hr; cbn [negb].
  - destruct (first_reach_stop mB mF skip J1 (archivejobs p) k Hk Hr) as [Hk' Et].
    exists k. split; [done|]. unfold J. rewrite Et. unfold mret, M_ret, cand. simpl.
    rewrite Hc, Hb, Hw, !u64_add_l, u64_add_r, length_app, bytes_of_app.
    fold (bytes_of (archivejobs p)). do 3 f_equal; f_equal; lia.
  - assert (Hkl : k = length J1) by (destruct Hk as (_ & _ & [?|?]); done).
    subst k. rewrite (take_ge J1) in Hr |- * by done.
    destruct Hst as [Hne Hst]. rewrite shard_at_ok by done; rewrite bind_lift.
    assert (Hlim : mB -u64 bytes_of (eligible skip J1) = mB - bytes_of (eligible skip J1) ∧
      mF -u64 Z.of_nat (length (eligible skip J1)) = mF - Z.of_nat (length (eligible skip J1))).
    { destruct (no_overflow_app _ _ Hov) as [Ho _].
      destruct (no_overflow_eligible skip _ Ho) as [H1 H2]. unfold reached in Hr.
      unfold in_u64 in *. rewrite !u64_small by (unfold in_u64; lia). done. }
    destruct Hlim as [-> ->].
    destruct (fetch_candidates (mB - bytes_of (eligible skip J1))
      (mF - Z.of_nat (length (eligible skip J1))) skip (sp_address sp) p s Hwf (conj Hne Hst)) as (o & Eo & Ec).
    mstep Eo. simpl snd. rewrite Ec, bind_lift.
    destruct (no_overflow_app _ _ Hov) as [Ho1 Ho2]. rewrite (cand_start skip) by (done || apply Ho2).
    destruct (candidate_loop_spec (mB - bytes_of (eligible skip J1))
      (mF - Z.of_nat (length (eligible skip J1))) skip (Z.of_nat (length (archivejobs p)))
      (bytes_of (archivejobs p)) (archivejobs p) []) as (k2 & Hk2 & ->); [done| |].
    { rewrite reached_shift. by rewrite app_nil_r. }
    destruct (first_reach_continue mB mF skip J1 (archivejobs p) k2 Hk Hr Hk2) as [Hk' Et].
    exists (length J1 + k2)%nat. split; [done|]. unfold J. rewrite Et.
    destruct (no_overflow_eligible skip (J1 ++ take k2 (archivejobs p))) as [Hob Hof].
    { rewrite <- (take_drop k2 (archivejobs p)), app_assoc in Hov. by apply no_overflow_app in Hov as [? _]. }
    rewrite eligible_app in Hob, Hof. rewrite bytes_of_app in Hob. rewrite length_app in Hof.
    unfold mret, M_ret, cand. simpl. rewrite !eligible_app, !bytes_of_app, !length_app, fmap_app.
    rewrite (u64_small (_ + bytes_of _)) by done.
    rewrite (u64_small (_ + Z.of_nat _)) by (by rewrite <- Nat2Z.inj_add).
    do 3 f_equal; try f_equal; lia.
Qed.

Lemma candidate_shards_ok mB mF skip sps ps J1 k s :
  in_u64 mB → in_u64 mF → be_wf (aq_be s) →
  Forall2 pointer_ok sps ps → Forall2 (stored_at (aq_be s)) (sp_address <$> sps) ps →
  no_overflow (J1 ++ shards_jobs ps) → first_reach mB mF skip [] J1 k →
  let J := J1 ++ shards_jobs ps in
  ∃ k', first_reach mB mF skip [] J k' ∧
    mfold (candidate_shard dummy mB mF skip)
      (cand skip (Z.of_nat (length J1)) (bytes_of J1) (take k J1)) sps s =
    (Ok (cand skip (Z.of_nat (length J)) (bytes_of J) (take k' J)), s).
Proof.
  intros HmB HmF Hwf Hp. revert J1 k. induction Hp as [|sp p sps ps Hpo Hp IH]; intros J1 k Hst Hov Hk.
  - exists k. unfold shards_jobs. simpl. by rewrite app_nil_r.
  - rewrite fmap_cons in Hst. apply Forall2_cons in Hst as [Ha Hst].
    rewrite shards_jobs_cons, app_assoc in *.
    destruct (no_overflow_app _ _ Hov) as [Hov1 _].
    destruct (candidate_shard_ok mB mF skip J1 k sp p s HmB HmF Hwf Hpo Ha Hov1 Hk) as (k1 & Hk1 & E1).
    destruct (IH (J1 ++ archivejobs p) k1 Hst Hov Hk1) as (k2 & Hk2 & E2).
    exists k2. split; [done|]. simpl mfold. mstep E1. exact E2.
Qed.

(** C6: the candidates are the shortest prefix that reaches a limit.  On a queue
    that holds [L], for positive limits, [getCandidateList] selects, in order, the
    jobs of a prefix of [L] that are not to be skipped: the prefix is the whole
    queue or the shortest one whose selected jobs reach the limit in bytes or in
    files.  How the jobs are spread over shards does not show.  The counters are
    the totals of the selected jobs and of the jobs after the prefix; the queue
    and the backend are unchanged. *)
Theorem getCandidateList_shortest_prefix maxBytes maxFiles skip s L :
  represents s L → no_overflow L →
  0 < maxBytes < 2 ^ 64 → 0 < maxFiles < 2 ^ 64 →
  ∃ k c, getCandidateList dummy maxBytes maxFiles skip s = (Ok c, s) ∧
    first_reach maxBytes maxFiles skip [] L k ∧
    candidates c = job_dump <$> eligible skip (take k L) ∧
    candidateFiles c = Z.of_nat (length (candidates c)) ∧
    candidateBytes c = bytes_of (eligible skip (take k L)) ∧
    remainingFilesAfterCandidates c = Z.of_nat (length (drop k L)) ∧
    remainingBytesAfterCandidates c = bytes_of (drop k L).
Proof.
  intros (ps & Hok & <-) Hov HmB HmF. unfold getCandidateList.
  pose proof Hok as [Hs [Hp _] Hst _ _ _ _].
  mstep (check_readable_ok s Hs). unfold payload, gets, mbind at 1, M_bind at 1.
  destruct (candidate_shards_ok maxBytes maxFiles skip
    (archivequeueshards (m_payload (aq s))) ps [] 0 s) as (k & Hk & E);
    try done; [unfold in_u64; lia|unfold in_u64; lia|apply Hs| |].
  { split; [done|]. split; [lia|by left]. }
  change (cand skip (Z.of_nat (length [])) (bytes_of []) (take 0 [])) with (mkCandidates 0 0 0 0 []) in E.
  exists k. eexists. split; [exact E|]. split; [done|]. simpl. set (L := shards_jobs ps) in *.
  split; [done|]. split; [by rewrite length_fmap|]. split; [done|].
  rewrite <- (take_drop k L) in Hov. destruct (no_overflow_app _ _ Hov) as [_ (H1 & H2 & H3)].
  pose proof (bytes_of_nonneg _ H1).
  assert (El : length L = (length (take k L) + length (drop k L))%nat) by (by rewrite <- length_app, take_drop).
  assert (Eb : bytes_of L = bytes_of (take k L) + bytes_of (drop k L)) by (by rewrite <- bytes_of_app, take_drop).
  split; rewrite u64_small by (unfold in_u64; lia); lia.
Qed.

(** ** Dump *)
Lemma dump_shards_ok as_ ps acc s :
  be_wf (aq_be s) → Forall2 (stored_at (aq_be s)) as_ ps →
  mfold (dump_shard dummy) acc as_ s = (Ok (acc ++ (job_dump <$> shards_jobs ps)), s).
Proof.
  intros Hwf H. revert acc. induction H as [|a p as_ ps Ha H IH]; intros acc; simpl mfold.
  - unfold shards_jobs. simpl. by rewrite app_nil_r.
  - destruct (lockfree_shard_ok dummy a p s Hwf Ha) as (o & Hp & Hr & E).
    erewrite bind_ok; [|unfold dump_shard; mstep E; unfold shard_dumpJobs; rewrite Hr, Hp;
      unfold mbind, M_bind, lift, result_bind; done].
    rewrite IH, shards_jobs_cons, fmap_app, <- app_assoc, <- list_fmap_compose. done.
Qed.

(** [dumpJobs] lists all the jobs of the queue, in order, and changes nothing. *)
Lemma dumpJobs_lists_queue s L :
  represents s L → dumpJobs dummy s = (Ok (job_dump <$> L), s).
Proof.
  intros (ps & Hok & <-). unfold dumpJobs. pose proof Hok as [Hs _ Hst _ _ _ _].
  mstep (check_readable_ok s Hs). unfold payload, gets, mbind, M_bind.
  exact (dump_shards_ok (addresses s) ps [] s (proj1 Hs) Hst).
Qed.

(** ** Addition of the jobs that are not there *)
Definition missing (L : list ArchiveJobPointer) (jobs : list JobToAdd) : list JobToAdd :=
  filter (λ j, archiveRequestAddress j ∉ job_addresses L) jobs.

Definition add_summary (jobs : list JobToAdd) : AdditionSummary :=
  mkAddition (u64 (Z.of_nat (length jobs))) (u64 (Zsum (jta_fileSize <$> jobs))).

Lemma addition_fold jobs f y :
  foldl (λ a j, mkAddition (as_files a +u64 1) (as_bytes a +u64 jta_fileSize j))
    (mkAddition (u64 f) (u64 y)) jobs =
  mkAddition (u64 (f + Z.of_nat (length jobs))) (u64 (y + Zsum (jta_fileSize <$> jobs))).
Proof.
  revert f y. induction jobs as [|j jobs IH]; intros f y; csimpl.
  - unfold Zsum. simpl. by rewrite !Z.add_0_r.
  - rewrite !u64_add_l, IH.
    change (Zsum (?x :: ?l)) with (x + Zsum l). f_equal; f_equal; lia.
Qed.

Lemma if_necessary_ok jobs s L :
  represents s L →
  addJobsIfNecessaryAndCommit dummy jobs s =
    (addJobsAndCommit dummy (missing L jobs) ≫= λ _, mret (add_summary (missing L jobs))) s.
Proof.
  intros (ps & Hok & <-). unfold addJobsIfNecessaryAndCommit. pose proof Hok as [Hs _ Hst _ _ _ _].
  mstep (check_writable_ok s Hs). unfold payload, gets, mbind at 1, M_bind at 1.
  mstep (dump_shards_ok (addresses s) ps [] s (proj1 Hs) Hst).
  assert (Ef : filter (λ j, Forall (λ d, jd_address d ≠ archiveRequestAddress j)
      ([] ++ (job_dump <$> shards_jobs ps))) jobs = missing (shards_jobs ps) jobs).
  { apply list_filter_ext. intros j _. simpl. rewrite Forall_fmap, Forall_forall. unfold job_addresses.
    rewrite list_elem_of_fmap. simpl. naive_solver. }
  rewrite Ef. pose proof (addition_fold (missing (shards_jobs ps) jobs) 0 0) as Ea.
  change (u64 0) with 0 in Ea. rewrite !Z.add_0_l in Ea. by rewrite Ea.
Qed.

(** C8: [addJobsIfNecessaryAndCommit] queues exactly the jobs whose request is not
    queued yet, in order, and reports their number and bytes; in particular a
    second call with the same jobs adds nothing. *)
Theorem addJobsIfNecessary_idempotent jobs s L :
  represents s L → Forall job_ok jobs →
  0 <= m_nextId (aq_agent s) → m_nextId (aq_agent s) + Z.of_nat (length jobs) < 2 ^ 64 →
  Z.of_nat (length L + length jobs) < 2 ^ 64 →
  let L' := L ++ (job_pointer <$> missing L jobs) in
  (∃ s', addJobsIfNecessaryAndCommit dummy jobs s = (Ok (add_summary (missing L jobs)), s') ∧
     represents s' L') ∧
  ∀ s', represents s' L' →
    addJobsIfNecessaryAndCommit dummy jobs s' = (Ok (mkAddition 0 0), s').
Proof.
  intros Hrep Hj Hi0 Hi Hlt L'. split.
  - assert (Hlen : (length (missing L jobs) <= length jobs)%nat) by apply length_filter.
    destruct (addJobs_ok dummy (missing L jobs) s L Hrep) as (s' & E & Hr'); [|done|lia|lia|].
    { apply Forall_forall. intros j [_ Hin]%list_elem_of_filter. rewrite Forall_forall in Hj. auto. }
    exists s'. split; [|done]. rewrite (if_necessary_ok jobs s L Hrep). by mstep E.
  - intros s' Hr'. rewrite (if_necessary_ok jobs s' L' Hr').
    assert (missing L' jobs = []) as ->; [|].
    { apply list_filter_none, Forall_forall. intros j Hj1 Hn. apply Hn.
      unfold L'. rewrite job_addresses_app, elem_of_app.
      destruct (decide (archiveRequestAddress j ∈ job_addresses L)) as [|Hm]; [by left|]. right.
      unfold job_addresses. rewrite <- list_fmap_compose. apply list_elem_of_fmap.
      exists j. split; [done|]. by apply list_elem_of_filter. }
    unfold addJobsAndCommit. destruct Hr' as (ps & Hok & _).
    rewrite (bind_ok _ _ _ _ _ (bind_ok _ _ _ _ _ (check_writable_ok s' (ok_state _ _ Hok)))). done.
Qed.

(** ** Summary *)

(** The mount criteria of the jobs are [uint64_t] values. *)
Definition criteria_ok (jobs : list ArchiveJobPointer) : Prop :=
  Forall (λ j, in_u64 (ajp_priority j) ∧ in_u64 (ajp_minarchiverequestage j)) jobs.

Lemma map_ok_values (m : list (VCPair Z)) l :
  map_ok m l → l ≠ [] → Forall in_u64 l → m ≠ [] ∧ Forall (λ p, in_u64 (value p)) m.
Proof.
  intros Hm Hne Hu. assert (He := λ k, map_ok_elem m l k Hm). split.
  - intros ->. destruct l as [|x l]; [done|]. assert (x ∈ x :: l) as Hx by left.
    apply He in Hx. by apply not_elem_of_nil in Hx.
  - apply Forall_forall. intros p Hp. rewrite Forall_forall in Hu. apply Hu, He.
    by apply list_elem_of_fmap_2.
Qed.

Lemma map_ok_max m l :
  map_ok m l → l ≠ [] → Forall in_u64 l →
  ∃ r, maxValue m = Ok r ∧ r ∈ l ∧ Forall (λ x, x <= r) l.
Proof.
  intros Hm Hne Hu. destruct (map_ok_values m l Hm Hne Hu) as [H1 H2].
  destruct (maxValue_spec m H1 H2) as (r & E & Hin & Hmax). exists r. split; [done|].
  split; [by apply (map_ok_elem m l r Hm)|]. apply Forall_forall. intros x Hx.
  apply (map_ok_elem m l x Hm) in Hx as (p & -> & Hp)%list_elem_of_fmap.
  rewrite Forall_forall in Hmax. by apply Hmax.
Qed.

Lemma map_ok_min m l :
  map_ok m l → l ≠ [] → Forall in_u64 l →
  ∃ r, minValue m = Ok r ∧ r ∈ l ∧ Forall (λ x, r <= x) l.
Proof.
  intros Hm Hne Hu. destruct (map_ok_values m l Hm Hne Hu) as [H1 H2].
  destruct (minValue_spec m H1 H2) as (r & E & Hin & Hmin). exists r. split; [done|].
  split; [by apply (map_ok_elem m l r Hm)|]. apply Forall_forall. intros x Hx.
  apply (map_ok_elem m l x Hm) in Hx as (p & -> & Hp)%list_elem_of_fmap.
  rewrite Forall_forall in Hmin. by apply Hmin.
Qed.

(** C9: the summary used for the mount decision is exact.  On a nonempty queue
    that holds [L], [getJobsSummary] returns the number of jobs, their total size
    modulo 2^64, the smallest creation time, the highest priority, the smallest
    minimum request age, and for every mount policy the number of its jobs. *)
Theorem getJobsSummary_exact s L :
  represents s L → criteria_ok L → L ≠ [] →
  ∃ r, getJobsSummary s = (Ok r, s) ∧
    js_jobs r = Z.of_nat (length L) ∧ js_bytes r = u64 (bytes_of L) ∧
    js_oldestJobStartTime r = oldest_of L ∧
    js_priority r ∈ ajp_priority <$> L ∧ Forall (λ j, ajp_priority j <= js_priority r) L ∧
    js_minArchiveRequestAge r ∈ ajp_minarchiverequestage <$> L ∧
    Forall (λ j, js_minArchiveRequestAge r <= ajp_minarchiverequestage j) L ∧
    ∀ n, js_mountPolicyCountMap r !! n =
      let c := occ n (ajp_mountpolicyname <$> L) in if decide (c = 0) then None else Some c.
Proof.
  intros (ps & Hok & <-) Hcr Hne. pose proof Hok as [Hs [_ Hsum] _ _ _ _ _].
  set (L := shards_jobs ps) in *. destruct Hsum as [Hc _ Hb Hp Ha Hn Ht Ho].
  destruct (map_ok_max _ _ Hp) as (pr & Ep & Hp1 & Hp2).
  { by intros ?%fmap_nil_inv. } { apply Forall_fmap. eapply Forall_impl; [exact Hcr|]. by intros j []. }
  destruct (map_ok_min _ _ Ha) as (ag & Ea & Ha1 & Ha2).
  { by intros ?%fmap_nil_inv. } { apply Forall_fmap. eapply Forall_impl; [exact Hcr|]. by intros j []. }
  eexists. split.
  - unfold getJobsSummary. mstep (check_readable_ok s Hs).
    unfold payload, gets, mbind at 1, M_bind at 1. rewrite decide_True.
    + rewrite Ep, bind_lift, Ea, bind_lift. done.
    + rewrite Hc. destruct L; [done|simpl; lia].
  - simpl. split; [done|]. split; [done|]. split.
    { rewrite Ho by done. pose proof (oldest_of_lt L Ht Hne). apply s64_small. unfold max_time_t in *. lia. }
    rewrite Forall_fmap in Hp2, Ha2. split_and!; try done.
    intros n. destruct Hn as (Hwf & Hm & _). by rewrite getMap_spec, Hm.
Qed.
End Reads.
