(* ===== verification/ArchiveQueueRebuild.v ===== *)
(** * Repair of archive queues

    A queue object and its shards are written one after the other, so a crash can
    leave the summaries, the shard pointers and the shards in disagreement.
    [ArchiveQueue::rebuild] recomputes everything from the shards that exist. *)
From S2P Require Import Prelude DataTypes ValueCountMap Backend ObjectOps ArchiveQueueShard ArchiveQueue ArchiveQueueSpec ArchiveQueueTheorems.

(** The shard with its byte total recomputed. *)
Definition repaired (p : ArchiveQueueShard) : ArchiveQueueShard :=
  mkAQS (archivejobs p) (u64 (Zsum (sizes (archivejobs p)))).

Lemma repaired_wf p : shard_wf (repaired p).
Proof. done. Qed.

Lemma repaired_same p : shard_wf p → repaired p = p.
Proof. destruct p as [js t]. unfold shard_wf, repaired. simpl. by intros ->. Qed.

(** The shards that exist, repaired, and their addresses. *)
Definition survivors (cs : list (option ArchiveQueueShard)) : list ArchiveQueueShard :=
  repaired <$> omap id cs.

Fixpoint surviving {A} (as_ : list A) (cs : list (option ArchiveQueueShard)) : list A :=
  match as_, cs with
  | a :: as_', Some _ :: cs' => a :: surviving as_' cs'
  | _ :: as_', None :: cs' => surviving as_' cs'
  | _, _ => []
  end.

Lemma surviving_subset {A} (as_ : list A) cs a : a ∈ surviving as_ cs → a ∈ as_.
Proof.
  revert cs. induction as_ as [|x as_ IH]; intros [|[p|] cs]; simpl; try (by intros ?%not_elem_of_nil).
  - rewrite !elem_of_cons. intros [->|H]; [by left|right; by eapply IH].
  - intros H. right. by eapply IH.
Qed.

Section Rebuild.
Context {B St : Type} `{!Serializable B ArchiveQueue, !Serializable B ArchiveQueueShard}.
Context `{!Serializable B (ObjectHeader B), !Backend B St}.
Context (dummy : B).
Implicit Types (s : AQState B St).

(** What the backend has at the address of a shard pointer: nothing, or a shard,
    the summaries of which may be wrong. *)
Definition found (be : St) (a : string) (c : option ArchiveQueueShard) : Prop :=
  a ≠ "" ∧
  match c with
  | None => be_view be !! a = None
  | Some p => (∃ h, stored be a = Some (h, p)) ∧ times_ok (archivejobs p)
  end.

(** The value maps count [jobs]. *)
Definition maps_count (q : ArchiveQueue) (jobs : list ArchiveJobPointer) : Prop :=
  maps_ok q (ajp_priority <$> jobs) (ajp_minarchiverequestage <$> jobs) (ajp_mountpolicyname <$> jobs).

Lemma rebuild_job_ok j s n y o J :
  maps_count (m_payload (aq s)) J → Z.of_nat (length J) < 2 ^ 64 - 1 →
  0 <= ajp_starttime j < max_time_t →
  ∃ pm am nm, let q' := set_maps pm am nm (m_payload (aq s)) in
    rebuild_job (n, y, o) (dump_info j) s =
      (Ok (n +u64 1, y +u64 ajp_size j, Z.min o (ajp_starttime j)), upd q' s) ∧
    maps_count q' (J ++ [j]).
Proof.
  intros (H1 & H2 & H3) Hl Ht.
  destruct (map_ok_inc _ _ (ajp_priority j) H1) as (pm & E1 & G1); [by rewrite length_fmap|].
  destruct (map_ok_inc _ _ (ajp_minarchiverequestage j) H2) as (am & E2 & G2); [by rewrite length_fmap|].
  destruct (map_ok_inc _ _ (ajp_mountpolicyname j) H3) as (nm & E3 & G3); [by rewrite length_fmap|].
  exists pm, am, nm. split.
  - unfold rebuild_job, payload, set_payload, gets, modify, lift, mbind, M_bind. simpl.
    rewrite E1. simpl. rewrite E2. simpl. rewrite E3. simpl.
    rewrite s64_small by (unfold max_time_t in *; lia).
    unfold mret, M_ret, upd. do 3 f_equal. destruct (Z.ltb_spec (ajp_starttime j) o); lia.
  - unfold maps_count. rewrite !fmap_app. by split_and!.
Qed.

Lemma rebuild_jobs_ok jobs s n y o J :
  maps_count (m_payload (aq s)) J → Z.of_nat (length J + length jobs) < 2 ^ 64 →
  times_ok jobs → o <= max_time_t →
  ∃ pm am nm, let q' := set_maps pm am nm (m_payload (aq s)) in
    mfold rebuild_job (u64 n, u64 y, o) (dump_info <$> jobs) s =
      (Ok (u64 (n + Z.of_nat (length jobs)), u64 (y + Zsum (sizes jobs)), Z.min o (oldest_of jobs)), upd q' s) ∧
    maps_count q' (J ++ jobs).
Proof.
  revert s n y o J. induction jobs as [|j jobs IH]; intros s n y o J Hm Hl Ht Ho.
  - exists (prioritymap (m_payload (aq s))), (minarchiverequestagemap (m_payload (aq s))),
      (mountpolicynamemap (m_payload (aq s))). rewrite app_nil_r. split; [|done].
    unfold oldest_of, sizes, Zsum. simpl. rewrite !Z.add_0_r, Z.min_l by done.
    by destruct s as [[? ? ? [] ?] ? ? ?].
  - apply Forall_cons in Ht as [Hj Ht]. simpl in Hl.
    destruct (rebuild_job_ok j s (u64 n) (u64 y) o J Hm) as (pm & am & nm & E & Hm'); [lia|done|].
    destruct (IH (upd (set_maps pm am nm (m_payload (aq s))) s) (n + 1) (y + ajp_size j)
      (Z.min o (ajp_starttime j)) (J ++ [j]) Hm') as (pm' & am' & nm' & E' & Hm'').
    { rewrite length_app. simpl. lia. } { done. } { lia. }
    exists pm', am', nm'. rewrite <- app_assoc in Hm''. split; [|done].
    rewrite fmap_cons. cbn [mfold]. mstep E. rewrite !u64_add_l, E', oldest_of_cons, Z.min_assoc.
    change (Zsum (sizes (j :: jobs))) with (ajp_size j + Zsum (sizes jobs)).
    unfold upd. simpl. do 3 f_equal. f_equal; f_equal; lia.
Qed.

Lemma index_of_middle (dn rest : list ShardPointer) sp :
  sp_address sp ∉ sp_address <$> dn →
  index_of (λ x, bool_decide (sp_address x = sp_address sp)) (dn ++ sp :: rest) = Some (length dn).
Proof.
  induction dn as [|x dn IH]; csimpl; [by rewrite bool_decide_true|].
  rewrite not_elem_of_cons. intros [Hx Hd]. rewrite bool_decide_false by congruence.
  by rewrite IH.
Qed.

Lemma record_summary_ok dn sp rest n y s :
  archivequeueshards (m_payload (aq s)) = dn ++ sp :: rest → sp_address sp ∉ sp_address <$> dn →
  record_summary (sp_address sp) n y s =
    (Ok tt, upd (set_shards (dn ++ mkShardPointer (sp_address sp) n y :: rest) (m_payload (aq s))) s).
Proof.
  intros Hsh Hnin. unfold record_summary, payload, gets, mbind, M_bind.
  rewrite Hsh, index_of_middle by done. unfold set_payload, modify. by rewrite Hsh, insert_middle.
Qed.

Lemma erase_middle (dn rest : list ShardPointer) sp :
  sp_address sp ∉ sp_address <$> dn → sp_address sp ∉ sp_address <$> rest →
  erase_pointers (sp_address sp) (dn ++ sp :: rest) = dn ++ rest.
Proof.
  intros H1 H2. unfold erase_pointers. rewrite filter_app, filter_cons, decide_False by tauto.
  assert (Hall : ∀ l, sp_address sp ∉ sp_address <$> l → Forall (λ x, sp_address x ≠ sp_address sp) l).
  { intros l Hl. apply Forall_forall. intros x Hx E. apply Hl. rewrite <- E. by apply list_elem_of_fmap_2. }
  by rewrite !list_filter_all by auto.
Qed.

Lemma repair_ok a h p s :
  state_ok s → a ≠ "" → stored (aq_be s) a = Some (h, p) →
  ∃ be', repair_shard dummy a (u64 (Zsum (sizes (archivejobs p)))) (aqs_archivejobstotalsize p) s = (Ok tt, with_be be' s) ∧
    be_wf be' ∧ (∀ n, n ≠ a → be_view be' !! n = be_view (aq_be s) !! n) ∧ stored_at be' a (repaired p).
Proof.
  intros (Hwf & Hh & Hl1 & Hl2 & He) Hne Hst. unfold repair_shard. case_decide as Hd.
  - rewrite shard_at_ok by done. rewrite bind_lift. mstep (include_ok dummy a s Hne Hl1 Hl2).
    mstep (fetch_shard_ok dummy a h p s Hwf Hst). simpl snd.
    destruct (shard_rebuild_spec (locked_shard a h p) (locked_shard_writable a h p)) as (p' & E & Hj & Hw).
    assert (p' = repaired p) as ->.
    { destruct p' as [js t]. unfold shard_wf in Hw. simpl in *. by subst. }
    rewrite E, bind_lift.
    destruct (write_shard_ok false (locked_shard a h p) (repaired p) (aq_be s) Hwf)
      as (o2 & be2 & Ew & Hwf2 & Hv & Hs2); [apply locked_shard_writable| | |].
    { split; [done|]. split; [done|]. by destruct (stored_view _ _ _ _ Hst) as (? & _ & _ & ? & _). }
    { split; [done|]. by eapply stored_exists. }
    exists be2. split; [|done]. unfold mbind, M_bind, with_obj. by rewrite Ew.
  - exists (aq_be s). split; [by destruct s|]. split; [done|]. split; [done|].
    rewrite repaired_same by (unfold shard_wf; destruct (decide (aqs_archivejobstotalsize p =
      u64 (Zsum (sizes (archivejobs p))))); congruence). split; [done|]. by exists h.
Qed.

(** The totals of the loop for the jobs seen so far. *)
Definition loc_of (J : list ArchiveJobPointer) : rebuild_locals :=
  mkRebuild (u64 (Z.of_nat (length J))) (u64 (Zsum (sizes J))) (oldest_of J).

Lemma rebuild_shard_present dn sp rest ps p s :
  state_ok s → archivequeueshards (m_payload (aq s)) = dn ++ sp :: rest →
  sp_address sp ∉ sp_address <$> dn → found (aq_be s) (sp_address sp) (Some p) →
  maps_count (m_payload (aq s)) (shards_jobs ps) → 
  Z.of_nat (length (shards_jobs (ps ++ [repaired p]))) < 2 ^ 64 →
  ∃ pm am nm sp' be', let q' := set_shards (dn ++ sp' :: rest) (set_maps pm am nm (m_payload (aq s))) in
    rebuild_shard dummy (loc_of (shards_jobs ps)) (sp_address sp) s =
      (Ok (loc_of (shards_jobs (ps ++ [repaired p]))), upd q' (with_be be' s)) ∧
    sp_address sp' = sp_address sp ∧ pointer_ok sp' (repaired p) ∧
    maps_count q' (shards_jobs (ps ++ [repaired p])) ∧ be_wf be' ∧
    (∀ n, n ≠ sp_address sp → be_view be' !! n = be_view (aq_be s) !! n) ∧
    stored_at be' (sp_address sp) (repaired p).
Proof.
  intros Hs Hsh Hnin (Hne & (h & Hst) & Ht) Hm Hl. rewrite shards_jobs_snoc in *. simpl archivejobs in *.
  destruct (lockfree_shard_ok dummy (sp_address sp) p s (proj1 Hs)) as (o & Hp & Hr & E); [by split; [|exists h]|].
  destruct (rebuild_jobs_ok (archivejobs p) s 0 0 (oldest_of (shards_jobs ps)) (shards_jobs ps) Hm)
    as (pm & am & nm & Ej & Hm'); [by rewrite <- length_app|done|apply oldest_of_le|].
  set (q1 := set_maps pm am nm (m_payload (aq s))) in *.
  set (n := u64 (0 + Z.of_nat (length (archivejobs p)))) in *.
  set (y := u64 (0 + Zsum (sizes (archivejobs p)))) in *.
  assert (Hn : n = Z.of_nat (length (archivejobs p))).
  { unfold n. rewrite length_app in Hl. apply u64_small. unfold in_u64. lia. }
  pose proof (record_summary_ok dn sp rest n y (upd q1 s) Hsh Hnin) as Er.
  set (s2 := upd _ (upd q1 s)) in Er.
  destruct (repair_ok (sp_address sp) h p s2 (state_ok_upd _ _ (state_ok_upd _ _ Hs)) Hne Hst)
    as (be' & Ep & Hwf' & Hv & Hst').
  exists pm, am, nm, (mkShardPointer (sp_address sp) n y), be'. split; [|split_and!; try done; by rewrite Hn].
  unfold rebuild_shard. mstep E. rewrite (shard_dumpJobs_ok o Hr), Hp, bind_lift. change (rb_oldest (loc_of (shards_jobs ps))) with (oldest_of (shards_jobs ps)).
  change (u64 0) with 0 in Ej. mstep Ej. mstep Er.
  rewrite (shard_getJobsSummary_ok o Hr), Hp, bind_lift.
  mstep Ep. unfold mret, M_ret, loc_of. simpl. unfold n, y.
  rewrite !Z.add_0_l, !u64_add_l, !u64_add_r, sizes_app, Zsum_app, length_app, oldest_of_app.
  rewrite Nat2Z.inj_add. done.
Qed.

Lemma lockfree_shard_absent a s :
  be_wf (aq_be s) → a ≠ "" → be_view (aq_be s) !! a = None → lockfree_shard dummy a s = (Ok None, s).
Proof.
  intros Hwf Hne Hv. unfold lockfree_shard. rewrite shard_at_ok by done. rewrite bind_lift.
  unfold catch, mbind, M_bind, with_obj. rewrite lockfreeFetch_absent by done. by destruct s.
Qed.

Lemma rebuild_shard_absent dn sp rest loc s :
  be_wf (aq_be s) → archivequeueshards (m_payload (aq s)) = dn ++ sp :: rest →
  sp_address sp ∉ sp_address <$> dn → sp_address sp ∉ sp_address <$> rest →
  found (aq_be s) (sp_address sp) None →
  rebuild_shard dummy loc (sp_address sp) s =
    (Ok loc, upd (set_shards (dn ++ rest) (m_payload (aq s))) s).
Proof.
  intros Hwf Hsh H1 H2 [Hne Hv]. unfold rebuild_shard.
  mstep (lockfree_shard_absent (sp_address sp) s Hwf Hne Hv).
  unfold set_payload, modify, mbind, M_bind, mret, M_ret, upd. simpl.
  by rewrite Hsh, erase_middle.
Qed.

(** The state of the rebuild after some shards: [dn] are the pointers done, which
    describe the shards [ps]. *)
Record rebuilding s (dn rest : list ShardPointer) (ps : list ArchiveQueueShard)
    (cs : list (option ArchiveQueueShard)) : Prop := {
  rb_state : state_ok s;
  rb_shards : archivequeueshards (m_payload (aq s)) = dn ++ rest;
  rb_pointers : Forall2 pointer_ok dn ps;
  rb_stored : Forall2 (stored_at (aq_be s)) (sp_address <$> dn) ps;
  rb_found : Forall2 (found (aq_be s)) (sp_address <$> rest) cs;
  rb_nodup : NoDup (m_name (aq s) :: (sp_address <$> dn) ++ (sp_address <$> rest));
  rb_maps : maps_count (m_payload (aq s)) (shards_jobs ps)
}.

(** Same objects outside of a set of addresses, same identity of the queue. *)
Definition touched s s' (as_ : list string) : Prop :=
  (∀ n, n ∉ as_ → be_view (aq_be s') !! n = be_view (aq_be s) !! n) ∧
  m_name (aq s') = m_name (aq s) ∧ aq_agent s' = aq_agent s ∧
  tapepool (m_payload (aq s')) = tapepool (m_payload (aq s)) ∧
  mapsrebuildcount (m_payload (aq s')) = mapsrebuildcount (m_payload (aq s)).

Lemma touched_trans s1 s2 s3 l1 l2 :
  touched s1 s2 l1 → touched s2 s3 l2 → touched s1 s3 (l1 ++ l2).
Proof.
  intros (A1 & A2 & A3 & A4 & A5) (B1 & B2 & B3 & B4 & B5). split; [|split_and!; congruence].
  intros n [H1 H2]%not_elem_of_app. by rewrite B1, A1.
Qed.

Lemma found_others (be be' : St) x as_ cs :
  (∀ a, a ≠ x → be_view be' !! a = be_view be !! a) → x ∉ as_ →
  Forall2 (found be) as_ cs → Forall2 (found be') as_ cs.
Proof.
  intros Hv Hx H. induction H as [|a c as_ cs [Hne Ha] H IH]; [constructor|].
  apply not_elem_of_cons in Hx as [? ?]. constructor; [|by apply IH].
  split; [done|]. unfold stored in *. by rewrite Hv.
Qed.

(** One step of the loop. *)
Lemma rebuild_step dn sp rest ps c cs s :
  rebuilding s dn (sp :: rest) ps (c :: cs) →
  Z.of_nat (length (shards_jobs (ps ++ survivors [c]))) < 2 ^ 64 →
  ∃ s' dn', rebuild_shard dummy (loc_of (shards_jobs ps)) (sp_address sp) s =
      (Ok (loc_of (shards_jobs (ps ++ survivors [c]))), s') ∧
    rebuilding s' dn' rest (ps ++ survivors [c]) cs ∧
    sp_address <$> dn' = (sp_address <$> dn) ++ surviving [sp_address sp] [c] ∧
    touched s s' [sp_address sp].
Proof.
  intros [Hs Hsh Hp Hst Hf Hnd Hm] Hl. rewrite fmap_cons in Hf, Hnd.
  apply Forall2_cons in Hf as [Hc Hf]. pose proof Hnd as Hnd0.
  apply NoDup_cons in Hnd as [Hq Hnd]. apply NoDup_app in Hnd as (Hnd1 & Hd & [Hd2 Hnd2]%NoDup_cons).
  assert (Hnin : sp_address sp ∉ sp_address <$> dn) by (intros H; apply (Hd _ H); left).
  destruct c as [p|].
  - destruct (rebuild_shard_present dn sp rest ps p s Hs Hsh Hnin Hc Hm Hl)
      as (pm & am & nm & sp' & be' & E & Ha & Hpo & Hm' & Hwf' & Hv & Hst').
    eexists _, (dn ++ [sp']). split; [exact E|]. split; [|split].
    2:{ rewrite fmap_app. csimpl. by rewrite Ha. }
    2:{ split; [|done]. intros n Hn. simpl. apply Hv. set_solver. }
    constructor; simpl; try done.
    + apply state_ok_upd. destruct Hs as (_ & Hh & Hl1 & Hl2 & He). do 4 (split; [done|]). simpl.
      rewrite Hv; [done|]. intros Heq. apply Hq. rewrite Heq. set_solver.
    + by rewrite <- app_assoc.
    + apply Forall2_app; [done|]. by constructor; [|constructor].
    + rewrite fmap_app. apply Forall2_app; [|csimpl; rewrite Ha; by constructor; [|constructor]].
      eapply (stored_others (aq_be s) _ (sp_address sp)); [|done|done]. intros a Ha' _. by apply Hv.
    + by apply (found_others (aq_be s) _ (sp_address sp)).
    + rewrite fmap_app, <- app_assoc. csimpl. by rewrite Ha.
  - pose proof (rebuild_shard_absent dn sp rest (loc_of (shards_jobs ps)) s (proj1 Hs) Hsh Hnin Hd2 Hc) as E.
    unfold survivors. simpl. rewrite !app_nil_r. eexists _, dn. split; [exact E|]. split; [|split; [done|]].
    + constructor; simpl; try done; [by apply state_ok_upd|].
      apply NoDup_cons. split; [set_solver|]. apply NoDup_app. split; [done|]. split; [|done].
      intros x Hx Hx'. apply (Hd x Hx). by right.
    + split; [|done]. done.
Qed.

Lemma rebuild_shards_ok rest cs dn ps s :
  rebuilding s dn rest ps cs → Z.of_nat (length (shards_jobs (ps ++ survivors cs))) < 2 ^ 64 →
  ∃ s' dn', mfold (rebuild_shard dummy) (loc_of (shards_jobs ps)) (sp_address <$> rest) s =
      (Ok (loc_of (shards_jobs (ps ++ survivors cs))), s') ∧
    rebuilding s' dn' [] (ps ++ survivors cs) [] ∧
    sp_address <$> dn' = (sp_address <$> dn) ++ surviving (sp_address <$> rest) cs ∧
    touched s s' (sp_address <$> rest).
Proof.
  revert cs dn ps s. induction rest as [|sp rest IH]; intros cs dn ps s Hr Hl.
  - pose proof (rb_found _ _ _ _ _ Hr) as Hf. apply Forall2_nil_inv_l in Hf as ->.
    exists s, dn. unfold survivors in *. simpl in *. rewrite !app_nil_r. by split_and!.
  - pose proof (rb_found _ _ _ _ _ Hr) as Hf. rewrite fmap_cons in Hf.
    apply Forall2_cons_inv_l in Hf as (c & cs' & _ & _ & ->).
    assert (Hsv : survivors (c :: cs') = survivors [c] ++ survivors cs').
    { unfold survivors. by destruct c. }
    rewrite Hsv, app_assoc in Hl |- *.
    destruct (rebuild_step dn sp rest ps c cs' s Hr) as (s1 & dn1 & E1 & Hr1 & Ha1 & Ht1).
    { rewrite shards_jobs_app, length_app in Hl. lia. }
    destruct (IH cs' dn1 (ps ++ survivors [c]) s1 Hr1 Hl) as (s2 & dn2 & E2 & Hr2 & Ha2 & Ht2).
    exists s2, dn2. split; [|split; [done|split]].
    + rewrite fmap_cons. cbn [mfold]. mstep E1. exact E2.
    + rewrite Ha2, Ha1, <- app_assoc, fmap_cons. f_equal. by destruct c.
    + rewrite fmap_cons. exact (touched_trans _ _ _ _ _ Ht1 Ht2).
Qed.

Lemma survivors_times (be : St) as_ cs :
  Forall2 (found be) as_ cs → times_ok (shards_jobs (survivors cs)).
Proof.
  induction 1 as [|a c as_ cs [_ Hc] H IH]; [constructor|]. unfold survivors in *.
  destruct c as [p|]; simpl; [|done]. rewrite shards_jobs_cons. apply Forall_app.
  split; [apply Hc|done].
Qed.

Lemma rebuilt_summary q J :
  maps_count q J → times_ok J → Z.of_nat (length J) < 2 ^ 64 →
  summary_ok (set_mapsrebuildcount (mapsrebuildcount q +u64 1)
    (set_totals (rb_totalBytes (loc_of J)) (rb_totalJobs (loc_of J)) (u64 (rb_oldest (loc_of J))) q)) J.
Proof.
  intros (H1 & H2 & H3) Ht Hl. constructor; try done; simpl.
  - apply u64_small. unfold in_u64. lia.
  - intros Hne. pose proof (oldest_of_lt J Ht Hne). apply u64_small. unfold in_u64, max_time_t in *. lia.
Qed.

(** C10: a damaged queue is repaired from its shards.  Whatever the summaries of
    the queue object, the counts in its shard pointers and the byte totals of the
    shards are, [rebuild] returns normally; the pointers to shards that do not
    exist are dropped, the others kept in order, shards with a wrong total are
    rewritten, and the queue is then coherent with the jobs of the shards that
    exist.  No object other than those shards is written. *)
Theorem rebuild_repairs s cs :
  state_ok s → NoDup (m_name (aq s) :: addresses s) → Forall2 (found (aq_be s)) (addresses s) cs →
  Z.of_nat (length (shards_jobs (survivors cs))) < 2 ^ 64 →
  ∃ s', rebuild dummy s = (Ok tt, s') ∧
    addresses s' = surviving (addresses s) cs ∧
    queue_mem (m_payload (aq s')) (survivors cs) ∧
    Forall2 (stored_at (aq_be s')) (addresses s') (survivors cs) ∧
    checkMapsAndShardsCoherency s' = (Ok true, s') ∧
    (∀ n, n ∉ addresses s → be_view (aq_be s') !! n = be_view (aq_be s) !! n).
Proof.
  intros Hs Hnd Hf Hl. unfold rebuild. mstep (check_writable_ok s Hs).
  set (s1 := upd (set_maps [] [] [] (m_payload (aq s))) s).
  rewrite (bind_ok _ _ s tt s1) by done. rewrite (bind_ok _ _ s1 (m_payload (aq s1)) s1) by done.
  destruct (rebuild_shards_ok (archivequeueshards (m_payload (aq s1))) cs [] [] s1)
    as (s2 & dn & E & [Hs2 Hsh2 Hp2 Hst2 _ Hnd2 Hm2] & Ha2 & Ht2).
  { constructor; try done; [by apply state_ok_upd|]. split_and!; apply map_ok_nil. }
  { done. }
  change (loc_of (shards_jobs [])) with (mkRebuild 0 0 max_time_t) in E.
  mstep E. rewrite app_nil_l in *. rewrite app_nil_r in Hsh2.
  eexists. split; [unfold set_payload, modify, mbind, M_bind; simpl; done|].
  set (s' := mkAQState _ _ _ _).
  assert (Hq : queue_mem (m_payload (aq s')) (survivors cs)).
  { split; [simpl; by rewrite Hsh2|]. apply rebuilt_summary; try done. by eapply survivors_times. }
  assert (Ead : addresses s' = surviving (addresses s) cs).
  { unfold addresses. simpl. rewrite Hsh2, Ha2. done. }
  split; [done|]. split; [done|]. split; [|split].
  - unfold addresses. simpl. by rewrite Hsh2.
  - apply (coherency_ok s' (survivors cs)); [|done]. apply (state_ok_upd _ (upd _ s2)), state_ok_upd, Hs2.
  - apply Ht2.
Qed.
End Rebuild.
