(* ===== verification/ArchiveQueueExamples.v ===== *)
(** * A queue in the file system backend

    A concrete archive queue with two jobs in one shard, stored with [VFS], on
    which the theorems on archive queues are instantiated. *)
From S2P Require Import Prelude DataTypes ValueCountMap Backend ObjectOps ArchiveQueueShard ArchiveQueue ArchiveQueueSpec ArchiveQueueTheorems ArchiveQueueReads ArchiveQueueRebuild.
Import Blob.

(** The messages of the example. *)
Definition msg : Type := ArchiveQueue + ArchiveQueueShard.

#[export] Program Instance OneOf_queue : OneOf msg ArchiveQueue := {|
  inj_msg := inl; proj_msg m := match m with inl q => Some q | inr _ => None end |}.
Next Obligation. done. Qed.
#[export] Program Instance OneOf_shard : OneOf msg ArchiveQueueShard := {|
  inj_msg := inr; proj_msg m := match m with inr p => Some p | inl _ => None end |}.
Next Obligation. done. Qed.

Definition nothing : blob msg := BMsg (inr (mkAQS [] 0)).

Definition ex_job1 : ArchiveJobPointer := mkAJP "req1" 100 1 1 5 10 1000 "policy".
Definition ex_job2 : ArchiveJobPointer := mkAJP "req2" 200 2 1 7 10 900 "policy".
Definition ex_shard : ArchiveQueueShard := mkAQS [ex_job1; ex_job2] 300.
Definition ex_queue : ArchiveQueue :=
  mkArchiveQueue "pool" [mkShardPointer "shard" 2 300] [mkVC 5 1; mkVC 7 1] [mkVC 10 2]
    [mkVC "policy" 2] 300 2 900 0.

Definition ex_header : ObjectHeader (blob msg) :=
  mkHeader ArchiveQueue_t 0 "root" "" (BMsg (inl ex_queue)).
Definition ex_handle : ObjectOps (blob msg) ArchiveQueue :=
  mkOps true "queue" ex_header ex_queue (mkFlags true true true 1 1 false true false).

Definition ex_store : VFS.vfs (blob msg) :=
  VFS.mkVfs (<["queue" := BHdr ArchiveQueue_t 0 "root" "" (BMsg (inl ex_queue))]>
    {["shard" := BHdr ArchiveQueueShard_t 0 "queue" "" (BMsg (inr ex_shard))]}) {["queue"; "shard"]}.

Definition ex_state : AQState (blob msg) (VFS.vfs (blob msg)) :=
  mkAQState ex_handle (mkLock Exclusive true) ex_store (mkAgent "agent" 0).

Lemma ex_state_ok : state_ok ex_state.
Proof.
  split; [by vm_compute|]. split; [|split; [done|split; [done|by eexists]]].
  constructor; try done. split; [done|]. intros _. split; [done|by left].
Qed.

Lemma ex_mem : queue_mem ex_queue [ex_shard].
Proof.
  split; [constructor; [by split_and!|constructor]|].
  constructor; try done; try (split_and!; [split; [by apply (bool_decide_unpack _)|by repeat constructor]| |done];
    intros k; unfold occ; simpl; rewrite !filter_cons; repeat case_decide; by simplify_eq).
  repeat constructor; simpl; done.
Qed.

Lemma ex_represents : represents ex_state [ex_job1; ex_job2].
Proof.
  exists [ex_shard]. split; [|done]. constructor; try done.
  - apply ex_state_ok.
  - apply ex_mem.
  - constructor; [|constructor]. split; [done|]. by eexists.
  - by apply (bool_decide_unpack _).
  - by repeat constructor.
Qed.

(** Two more jobs, the first of which is already queued. *)
Definition ex_policy : MountPolicy :=
  mkMountPolicy "policy" 9 20 1 1 (mkEntryLog "u" "h" 0) (mkEntryLog "u" "h" 0) "".
Definition ex_add : list JobToAdd :=
  [mkJobToAdd (mkArchiveJobDump 1 "pool" "queue" AJS_ToTransferForUser) "req2" 2 200 ex_policy 1100;
   mkJobToAdd (mkArchiveJobDump 1 "pool" "queue" AJS_ToTransferForUser) "req3" 3 50 ex_policy 1100].

Lemma ex_add_ok : Forall job_ok ex_add.
Proof. repeat constructor; by vm_compute. Qed.

Lemma addJobsAndCommit_appends_witness :
  ∃ s', addJobsAndCommit nothing ex_add ex_state = (Ok tt, s') ∧
    represents s' ([ex_job1; ex_job2] ++ (job_pointer <$> ex_add)).
Proof.
  apply (addJobsAndCommit_appends nothing ex_add ex_state [ex_job1; ex_job2]);
    [apply ex_represents|apply ex_add_ok|by vm_compute..].
Defined.

Lemma removeJobsAndCommit_removes_witness :
  ∃ s', removeJobsAndCommit nothing ["req1"] ex_state = (Ok tt, s') ∧
    represents s' (kept ["req1"] [ex_job1; ex_job2]).
Proof.
  apply (removeJobsAndCommit_removes nothing ["req1"] ex_state [ex_job1; ex_job2]);
    [apply ex_represents|by apply (bool_decide_unpack _)].
Defined.

Lemma getCandidateList_shortest_prefix_witness :
  ∃ k c, getCandidateList nothing 50 10 ∅ ex_state = (Ok c, ex_state) ∧
    first_reach 50 10 ∅ [] [ex_job1; ex_job2] k ∧
    candidates c = job_dump <$> eligible ∅ (take k [ex_job1; ex_job2]) ∧
    candidateFiles c = Z.of_nat (length (candidates c)) ∧
    candidateBytes c = bytes_of (eligible ∅ (take k [ex_job1; ex_job2])) ∧
    remainingFilesAfterCandidates c = Z.of_nat (length (drop k [ex_job1; ex_job2])) ∧
    remainingBytesAfterCandidates c = bytes_of (drop k [ex_job1; ex_job2]).
Proof.
  apply (getCandidateList_shortest_prefix nothing 50 10 ∅ ex_state [ex_job1; ex_job2]);
    [apply ex_represents|split; [by repeat constructor|by vm_compute]|by vm_compute..].
Defined.

Lemma dumpJobs_lists_queue_witness :
  dumpJobs nothing ex_state = (Ok [mkJobDump 100 "req1" 1; mkJobDump 200 "req2" 1], ex_state).
Proof. apply (dumpJobs_lists_queue nothing ex_state [ex_job1; ex_job2] ex_represents). Defined.

Lemma addJobsIfNecessary_idempotent_witness :
  let L' := [ex_job1; ex_job2] ++ (job_pointer <$> missing [ex_job1; ex_job2] ex_add) in
  (∃ s', addJobsIfNecessaryAndCommit nothing ex_add ex_state = (Ok (mkAddition 1 50), s') ∧ represents s' L') ∧
  ∀ s', represents s' L' →
    addJobsIfNecessaryAndCommit nothing ex_add s' = (Ok (mkAddition 0 0), s').
Proof.
  apply (addJobsIfNecessary_idempotent nothing ex_add ex_state [ex_job1; ex_job2]);
    [apply ex_represents|apply ex_add_ok|by vm_compute..].
Defined.

Lemma getJobsSummary_exact_witness :
  ∃ r, getJobsSummary ex_state = (Ok r, ex_state) ∧
    js_jobs r = 2 ∧ js_bytes r = u64 (bytes_of [ex_job1; ex_job2]) ∧
    js_oldestJobStartTime r = oldest_of [ex_job1; ex_job2] ∧
    js_priority r ∈ ajp_priority <$> [ex_job1; ex_job2] ∧
    Forall (λ j, ajp_priority j <= js_priority r) [ex_job1; ex_job2] ∧
    js_minArchiveRequestAge r ∈ ajp_minarchiverequestage <$> [ex_job1; ex_job2] ∧
    Forall (λ j, js_minArchiveRequestAge r <= ajp_minarchiverequestage j) [ex_job1; ex_job2] ∧
    ∀ n, js_mountPolicyCountMap r !! n =
      let c := occ n (ajp_mountpolicyname <$> [ex_job1; ex_job2]) in
      if decide (c = 0) then None else Some c.
Proof.
  apply (getJobsSummary_exact ex_state [ex_job1; ex_job2]);
    [apply ex_represents|repeat constructor; by vm_compute|done].
Defined.

(** The queue object after a crash: wrong counters and a pointer to a shard that
    was never written. *)
Definition bad_queue : ArchiveQueue :=
  mkArchiveQueue "pool" [mkShardPointer "lost" 9 9; mkShardPointer "shard" 1 1] [mkVC 5 3] [] [] 7 7 7 0.
Definition bad_state : AQState (blob msg) (VFS.vfs (blob msg)) := upd bad_queue ex_state.

Lemma rebuild_repairs_witness :
  ∃ s', rebuild nothing bad_state = (Ok tt, s') ∧
    addresses s' = ["shard"] ∧ queue_mem (m_payload (aq s')) [ex_shard] ∧
    Forall2 (stored_at (aq_be s')) (addresses s') [ex_shard] ∧
    checkMapsAndShardsCoherency s' = (Ok true, s') ∧
    (∀ n, n ∉ addresses bad_state → be_view (aq_be s') !! n = be_view (aq_be bad_state) !! n).
Proof.
  apply (rebuild_repairs nothing bad_state [None; Some ex_shard]).
  - apply state_ok_upd, ex_state_ok.
  - by apply (bool_decide_unpack _).
  - repeat constructor; try done; by eexists.
  - by vm_compute.
Defined.
