(* ===== verification/Checksum.v ===== *)
(** * Checksums

    Model of [common/checksum/ChecksumBlob.cpp], [ChecksumBlob.hpp] and
    [ChecksumBlobSerDeser.hpp]: the checksums that every archive file and request
    carries, by type, as little-endian byte arrays, with the conversions to and
    from hexadecimal and protocol buffers. *)
From Stdlib Require Import Ascii.
From S2P Require Import Prelude ObjectOps.

(** [checksum::ChecksumType], in the order of the enumeration. *)
Inductive ChecksumType := NONE | ADLER32 | CRC32 | CRC32C | MD5 | SHA1.

#[export] Instance ChecksumType_eq_dec : EqDecision ChecksumType.
Proof. solve_decision. Defined.

Definition all_types : list ChecksumType := [NONE; ADLER32; CRC32; CRC32C; MD5; SHA1].

Definition type_code (t : ChecksumType) : nat :=
  match t with NONE => 0 | ADLER32 => 1 | CRC32 => 2 | CRC32C => 3 | MD5 => 4 | SHA1 => 5 end.

#[export] Instance ChecksumType_countable : Countable ChecksumType.
Proof.
  apply (inj_countable type_code (λ n, all_types !! n)). by intros [].
Defined.

(** A byte array: a list of values below 256. *)
Abbreviation bytes := (list Z).

(** [std::map<ChecksumType,std::string>]. *)
Abbreviation ChecksumBlob := (gmap ChecksumType bytes).

(** The entries in the order of the map. *)
Definition entries (cs : ChecksumBlob) : list (ChecksumType * bytes) :=
  omap (λ t, (λ v, (t, v)) <$> cs !! t) all_types.

Definition expectedLength (t : ChecksumType) : nat :=
  match t with NONE => 0 | ADLER32 | CRC32 | CRC32C => 4 | MD5 => 16 | SHA1 => 20 end.

(** [insert(type, string)]: padded with trailing zeros. *)
Definition cs_insert (t : ChecksumType) (value : bytes) (cs : ChecksumBlob) : result ChecksumBlob :=
  if (expectedLength t <? length value)%nat then Throw ChecksumValueMismatch
  else Ok (<[t := value ++ replicate (expectedLength t - length value) 0]> cs).

(** The bytes of a 32-bit value, least significant first. *)
Fixpoint le_bytes (n : nat) (value : Z) : bytes :=
  match n with
  | O => []
  | S n' => Z.land value 255 :: le_bytes n' (Z.shiftr value 8)
  end.

(** [insert(type, uint32_t)]. *)
Definition cs_insert32 (t : ChecksumType) (value : Z) (cs : ChecksumBlob) : result ChecksumBlob :=
  match t with
  | ADLER32 | CRC32 | CRC32C => Ok (<[t := le_bytes 4 value]> cs)
  | _ => Throw ChecksumTypeMismatch
  end.

(** [validate(type, value)]. *)
Definition validate_one (t : ChecksumType) (value : bytes) (cs : ChecksumBlob) : result unit :=
  match cs !! t with
  | None => Throw ChecksumTypeMismatch
  | Some v => if decide (v = value) then Ok tt else Throw ChecksumValueMismatch
  end.

(** The loop of [validate(blob)] over both maps. *)
Fixpoint validate_loop (l1 l2 : list (ChecksumType * bytes)) : result unit :=
  match l1, l2 with
  | (t1, v1) :: l1', (t2, v2) :: l2' =>
      if decide (t1 = t2) then
        if decide (v1 = v2) then validate_loop l1' l2' else Throw ChecksumValueMismatch
      else Throw ChecksumTypeMismatch
  | _, _ => Ok tt
  end.

Definition validate (cs blob : ChecksumBlob) : result unit :=
  if decide (length (entries cs) = length (entries blob))
  then validate_loop (entries cs) (entries blob) else Throw ChecksumBlobSizeMismatch.

(** [contains] and [operator==]: the mismatch exceptions become [false]. *)
Definition mismatch (e : exn) : bool :=
  match e with ChecksumTypeMismatch | ChecksumValueMismatch | ChecksumBlobSizeMismatch => true | _ => false end.
Definition as_bool (r : result unit) : result bool :=
  match r with Ok _ => Ok true | Throw e => if mismatch e then Ok false else Throw e end.
Definition contains (t : ChecksumType) (value : bytes) (cs : ChecksumBlob) : result bool :=
  as_bool (validate_one t value cs).
Definition cs_eqb (cs blob : ChecksumBlob) : result bool := as_bool (validate cs blob).

(** [at(type)]. *)
Definition cs_at (t : ChecksumType) (cs : ChecksumBlob) : result bytes :=
  match cs !! t with Some v => Ok v | None => Throw ChecksumTypeMismatch end.

(** ** Protocol buffers: the message is the list of its [cs] entries

    The enumeration of the message is open: a parsed message may hold a number that
    no name stands for. *)
Inductive PbChecksumType :=
  | PB_NONE | PB_ADLER32 | PB_CRC32 | PB_CRC32C | PB_MD5 | PB_SHA1 | PB_unknown (n : Z).
Record ChecksumPb := mkChecksumPb { pb_cs : list (PbChecksumType * bytes) }.

(** The two [switch] statements. *)
Definition type_to_pb (t : ChecksumType) : PbChecksumType :=
  match t with
  | ADLER32 => PB_ADLER32 | CRC32 => PB_CRC32 | CRC32C => PB_CRC32C | MD5 => PB_MD5 | SHA1 => PB_SHA1
  | NONE => PB_NONE
  end.
Definition type_of_pb (t : PbChecksumType) : ChecksumType :=
  match t with
  | PB_ADLER32 => ADLER32 | PB_CRC32 => CRC32 | PB_CRC32C => CRC32C | PB_MD5 => MD5 | PB_SHA1 => SHA1
  | PB_NONE | PB_unknown _ => NONE
  end.

Definition ChecksumBlobToProtobuf (cs : ChecksumBlob) : ChecksumPb :=
  mkChecksumPb ((λ e, (type_to_pb (fst e), snd e)) <$> entries cs).

Definition insert_pb (acc : result ChecksumBlob) (e : PbChecksumType * bytes) : result ChecksumBlob :=
  cs ← acc; cs_insert (type_of_pb (fst e)) (snd e) cs.
Definition ProtobufToChecksumBlob (m : ChecksumPb) : result ChecksumBlob :=
  foldl insert_pb (Ok ∅) (pb_cs m).

Section Codec.
Context `{!Serializable bytes ChecksumPb}.

Definition cs_serialize (cs : ChecksumBlob) : bytes := SerializeAsString (ChecksumBlobToProtobuf cs).

Definition cs_deserialize (bytearray : bytes) : result ChecksumBlob :=
  match ParseFromString bytearray with
  | None => Throw (Exception "ChecksumBlob: deserialization failed")
  | Some m => ProtobufToChecksumBlob m
  end.

(** [deserializeOrSetAdler32]; the blob it is called on is kept when only the
    Adler-32 value is inserted. *)
Definition deserializeOrSetAdler32 (bytearray : bytes) (adler32 : Z) (cs : ChecksumBlob) :
    result ChecksumBlob :=
  match bytearray, ParseFromString bytearray with
  | _ :: _, Some m => ProtobufToChecksumBlob m
  | _, _ => cs_insert32 ADLER32 adler32 cs
  end.
End Codec.

(** ** Hexadecimal *)
Definition code (c : ascii) : Z := Z.of_nat (nat_of_ascii c).

Definition hex_value (c : ascii) : option Z :=
  let n := code c in
  if (48 <=? n) && (n <=? 57) then Some (n - 48)
  else if (97 <=? n) && (n <=? 102) then Some (n - 87)
  else if (65 <=? n) && (n <=? 70) then Some (n - 55)
  else None.

Definition is_space (c : ascii) : bool := (code c =? 32) || ((9 <=? code c) && (code c <=? 13)).

(** The digits of [strtol(s, nullptr, 16)], up to the first other character. *)
Fixpoint hex_digits (acc : Z) (s : list ascii) : Z :=
  match s with
  | [] => acc
  | c :: s' => match hex_value c with Some d => hex_digits (acc * 16 + d) s' | None => acc end
  end.

Fixpoint skip_space (s : list ascii) : list ascii :=
  match s with c :: s' => if is_space c then skip_space s' else s | [] => [] end.

(** [strtol] in base 16, for the values that do not overflow: white space, a sign,
    an optional [0x] before a digit, digits. *)
Definition strtol16 (s : list ascii) : Z :=
  let '(neg, s1) :=
    match skip_space s with
    | "-" :: s' => (true, s') | "+" :: s' => (false, s') | s' => (false, s')
    end%char in
  let s2 :=
    match s1 with
    | "0" :: x :: d :: s' =>
        if bool_decide (x = "x" ∨ x = "X") && bool_decide (is_Some (hex_value d)) then d :: s' else s1
    | _ => s1
    end%char in
  let v := hex_digits 0 s2 in if (neg : bool) then - v else v.

(** The pairs of digits, each inserted at the front of the array. *)
Fixpoint hex_pairs (s : list ascii) (acc : bytes) : bytes :=
  match s with
  | a :: b :: s' => hex_pairs s' ((strtol16 [a; b] mod 256) :: acc)
  | [a] => (strtol16 [a] mod 256) :: acc
  | [] => acc
  end.

Definition strip_0x (s : list ascii) : list ascii :=
  match s with
  | "0" :: x :: s' => if bool_decide (x = "x" ∨ x = "X") then s' else s
  | _ => s
  end%char.

Definition HexToByteArray (hexString : list ascii) : bytes :=
  let s := strip_0x hexString in
  hex_pairs (if Nat.odd (length s) then "0"%char :: s else s) [].

Definition hex_char (d : Z) : ascii :=
  ascii_of_nat (Z.to_nat (if d <? 10 then 48 + d else 87 + d)).

Definition ByteArrayToHex (bytearray : bytes) : list ascii :=
  match bytearray with
  | [] => ["0"%char]
  | _ => concat ((λ c, [hex_char (Z.shiftr (Z.land c 255) 4); hex_char (Z.land c 15)]) <$> reverse bytearray)
  end.

(** ** Lemmas *)

(** Every stored checksum has the length of its type. *)
Definition wf_blob (cs : ChecksumBlob) : Prop := ∀ t v, cs !! t = Some v → length v = expectedLength t.

Lemma elem_of_all_types t : t ∈ all_types.
Proof. destruct t; unfold all_types; set_solver. Qed.

Lemma elem_of_entries cs t v : (t, v) ∈ entries cs ↔ cs !! t = Some v.
Proof.
  unfold entries. rewrite list_elem_of_omap. split.
  - intros (t' & _ & H). destruct (cs !! t') eqn:E; simplify_eq/=. done.
  - intros H. exists t. rewrite H. split; [apply elem_of_all_types|done].
Qed.

Lemma entries_inj cs blob : entries cs = entries blob → cs = blob.
Proof.
  intros H. apply map_eq. intros t. apply option_eq. intros v.
  by rewrite <- !elem_of_entries, H.
Qed.

Lemma validate_loop_ok l1 l2 :
  length l1 = length l2 → validate_loop l1 l2 = Ok tt ↔ l1 = l2.
Proof.
  revert l2. induction l1 as [|[t1 v1] l1 IH]; intros [|[t2 v2] l2] Hl; simplify_eq/=; [done|].
  repeat case_decide; simplify_eq; (split; [|try congruence]).
  - intros H%IH; [congruence|done].
  - intros H. apply IH; [done|congruence].
  - done.
  - done.
Qed.

Lemma validate_throws l1 l2 e :
  validate_loop l1 l2 = Throw e → e = ChecksumTypeMismatch ∨ e = ChecksumValueMismatch.
Proof.
  revert l2. induction l1 as [|[t1 v1] l1 IH]; intros [|[t2 v2] l2]; simpl; try done.
  repeat case_decide; eauto; intros [= <-]; auto.
Qed.

Lemma cs_insert_wf t v cs cs' : wf_blob cs → cs_insert t v cs = Ok cs' → wf_blob cs'.
Proof.
  unfold cs_insert. intros Hwf. destruct (Nat.ltb_spec (expectedLength t) (length v)); [done|].
  intros [= <-] t' v'. destruct (decide (t = t')) as [<-|Hne].
  - rewrite lookup_insert_eq. intros [= <-]. rewrite length_app, length_replicate. lia.
  - rewrite lookup_insert_ne by done. apply Hwf.
Qed.

Lemma cs_insert_exact t v cs : length v = expectedLength t → cs_insert t v cs = Ok (<[t := v]> cs).
Proof.
  intros Hl. unfold cs_insert. rewrite Hl, Nat.ltb_irrefl, Nat.sub_diag. simpl. by rewrite app_nil_r.
Qed.

Lemma from_pb_fold cs ts acc :
  wf_blob cs → ∃ m, foldl (λ acc e, cs ← acc; cs_insert (fst e) (snd e) cs) (Ok acc)
      (omap (λ t, (λ v, (t, v)) <$> cs !! t) ts) = Ok m ∧
    ∀ t, m !! t = if decide (t ∈ ts) then (match cs !! t with Some v => Some v | None => acc !! t end)
                  else acc !! t.
Proof.
  intros Hwf. revert acc. induction ts as [|t ts IH]; intros acc.
  - exists acc. split; [done|]. intros t. by rewrite decide_False by apply not_elem_of_nil.
  - csimpl. destruct (cs !! t) as [v|] eqn:E; simpl.
    + rewrite cs_insert_exact by eauto. destruct (IH (<[t:=v]> acc)) as (m & Hm & Hl).
      exists m. split; [done|]. intros t'. rewrite Hl.
      destruct (decide (t' = t)) as [->|Hne].
      * rewrite lookup_insert_eq, E, (decide_True (P := t ∈ t :: ts)) by left. by case_decide.
      * rewrite lookup_insert_ne by done. destruct (decide (t' ∈ ts)).
        -- by rewrite decide_True by (by right).
        -- rewrite decide_False; [done|]. by rewrite not_elem_of_cons.
    + destruct (IH acc) as (m & Hm & Hl). exists m. split; [done|]. intros t'. rewrite Hl.
      destruct (decide (t' = t)) as [->|Hne].
      * rewrite E. by repeat case_decide.
      * destruct (decide (t' ∈ ts)).
        -- by rewrite decide_True by (by right).
        -- rewrite decide_False; [done|]. by rewrite not_elem_of_cons.
Qed.

Lemma type_pb_roundtrip t : type_of_pb (type_to_pb t) = t.
Proof. by destruct t. Qed.

Lemma insert_pb_entries acc l :
  foldl insert_pb acc ((λ e, (type_to_pb (fst e), snd e)) <$> l) =
  foldl (λ acc e, cs ← acc; cs_insert (fst e) (snd e) cs) acc l.
Proof.
  revert acc. induction l as [|e l IH]; intros acc; [done|]. csimpl. rewrite IH.
  unfold insert_pb. cbn [fst snd]. by rewrite type_pb_roundtrip.
Qed.

Lemma protobuf_roundtrip cs :
  wf_blob cs → ProtobufToChecksumBlob (ChecksumBlobToProtobuf cs) = Ok cs.
Proof.
  intros Hwf. unfold ProtobufToChecksumBlob, ChecksumBlobToProtobuf. cbn [pb_cs].
  rewrite insert_pb_entries. unfold entries.
  destruct (from_pb_fold cs all_types ∅ Hwf) as (m & -> & Hl). f_equal. apply map_eq. intros t.
  rewrite Hl, decide_True by apply elem_of_all_types. by destruct (cs !! t).
Qed.

Lemma cs_eqb_refl cs : cs_eqb cs cs = Ok true.
Proof.
  unfold cs_eqb, validate. rewrite decide_True by done.
  by rewrite (proj2 (validate_loop_ok (entries cs) (entries cs) eq_refl) eq_refl).
Qed.

(** Validation is equality.  [validate] accepts a blob exactly when both
    hold the same checksums of the same types, and [operator==] then returns
    true and false otherwise, without letting an exception escape. *)
Lemma validate_iff_equal cs blob :
  (validate cs blob = Ok tt ↔ cs = blob) ∧ cs_eqb cs blob = Ok (bool_decide (cs = blob)).
Proof.
  assert (H : validate cs blob = Ok tt ↔ cs = blob).
  { unfold validate. case_decide as Hl.
    - rewrite validate_loop_ok by done. split; [apply entries_inj|congruence].
    - split; [done|]. by intros ->. }
  split; [done|]. unfold cs_eqb. destruct (validate cs blob) as [[]|e] eqn:E.
  - simpl. f_equal. symmetry. apply bool_decide_eq_true. by apply H.
  - rewrite bool_decide_false by (intros Heq; by apply H in Heq).
    revert E. unfold validate. case_decide; [|by intros [= <-]].
    intros [-> | ->]%validate_throws; done.
Qed.

(** ** Hexadecimal round trip *)
Definition is_byte (z : Z) : Prop := 0 <= z < 256.

(** The two digits of a byte. *)
Definition hex_byte (c : Z) : list ascii :=
  [hex_char (Z.shiftr (Z.land c 255) 4); hex_char (Z.land c 15)].

(** Checked for the 256 bytes by evaluation. *)
Lemma hex_byte_ok c :
  is_byte c → strtol16 (hex_byte c) mod 256 = c ∧
    hex_char (Z.land c 15) ≠ "x"%char ∧ hex_char (Z.land c 15) ≠ "X"%char.
Proof.
  intros Hc. assert (H : Forall (λ c, strtol16 (hex_byte c) mod 256 = c ∧
    hex_char (Z.land c 15) ≠ "x"%char ∧ hex_char (Z.land c 15) ≠ "X"%char) (seqZ 0 256)).
  { apply (bool_decide_unpack _). by vm_compute. }
  rewrite Forall_forall in H. apply H, elem_of_seqZ. unfold is_byte in Hc. lia.
Qed.

Lemma strip_0x_id a b s : b ≠ "x"%char → b ≠ "X"%char → strip_0x (a :: b :: s) = a :: b :: s.
Proof. intros H1 H2. unfold strip_0x. rewrite bool_decide_false by tauto. by repeat case_match. Qed.

Lemma hex_pairs_bytes l acc :
  Forall is_byte l → hex_pairs (concat (hex_byte <$> l)) acc = reverse l ++ acc.
Proof.
  intros H. revert acc. induction H as [|c l Hc H IH]; intros acc; [done|].
  rewrite fmap_cons. cbn [concat]. unfold hex_byte at 1. cbn [app hex_pairs].
  fold (hex_byte c). rewrite (proj1 (hex_byte_ok c Hc)), IH, reverse_cons. by rewrite <- app_assoc.
Qed.

Lemma length_hex l : length (concat (hex_byte <$> l)) = (2 * length l)%nat.
Proof. induction l as [|c l IH]; csimpl; [done|]. rewrite IH. lia. Qed.

(** Hexadecimal round trip.  A nonempty byte array printed by
    [ByteArrayToHex] and read again by [HexToByteArray] is unchanged: the little
    endian order is reversed twice, no leading zero is lost and the text is never
    taken for one with a [0x] prefix. *)
Lemma hex_roundtrip b :
  Forall is_byte b → b ≠ [] → HexToByteArray (ByteArrayToHex b) = b.
Proof.
  intros Hb Hne.
  assert (E : ByteArrayToHex b = concat (hex_byte <$> reverse b)) by (by destruct b).
  assert (Hr : Forall is_byte (reverse b)) by (by apply Forall_reverse).
  unfold HexToByteArray. rewrite E.
  assert (Es : strip_0x (concat (hex_byte <$> reverse b)) = concat (hex_byte <$> reverse b)).
  { destruct (reverse b) as [|c l]; [done|]. apply Forall_cons in Hr as [Hc _].
    destruct (hex_byte_ok c Hc) as (_ & H1 & H2). rewrite fmap_cons. cbn [concat].
    unfold hex_byte at 1 3. cbn [app]. by apply strip_0x_id. }
  rewrite Es, length_hex, Nat.odd_mul. simpl. rewrite hex_pairs_bytes by done.
  by rewrite reverse_involutive, app_nil_r.
Qed.

Lemma hex_roundtrip_witness : HexToByteArray (ByteArrayToHex [1; 0; 254; 10]) = [1; 0; 254; 10].
Proof.
  apply (hex_roundtrip [1; 0; 254; 10]); [|done]. apply (bool_decide_unpack _). by vm_compute.
Defined.

(** ** Serialised blobs *)
Section CodecSpec.
Context `{!Serializable bytes ChecksumPb}.

(** The value of a little-endian byte array. *)
Definition le_value (b : bytes) : Z := foldr (λ c v, c + 256 * v) 0 b.

Lemma le_bytes_value n z : le_value (le_bytes n z) = z mod 2 ^ (8 * Z.of_nat n).
Proof.
  revert z. induction n as [|n IH]; intros z; [simpl; by rewrite Z.mod_1_r|].
  cbn [le_bytes le_value foldr]. fold (le_value (le_bytes n (Z.shiftr z 8))). rewrite IH.
  change 255 with (Z.ones 8). rewrite Z.land_ones, Z.shiftr_div_pow2 by lia.
  replace (8 * Z.of_nat (S n)) with (8 + 8 * Z.of_nat n) by lia.
  rewrite Z.pow_add_r, (Z.rem_mul_r z) by lia. change (2 ^ 8) with 256. lia.
Qed.

Lemma le_bytes_length n z : length (le_bytes n z) = n.
Proof. revert z. induction n; intros z; simpl; auto. Qed.

Lemma cs_insert32_wf t v cs cs' : wf_blob cs → cs_insert32 t v cs = Ok cs' → wf_blob cs'.
Proof.
  intros Hwf E t' v' H.
  assert (∃ b, cs' = <[t := b]> cs ∧ length b = expectedLength t) as (b & -> & Hb).
  { destruct t; simplify_eq/=; eexists; split; try done. }
  destruct (decide (t = t')) as [<-|Hne].
  - rewrite lookup_insert_eq in H. by injection H as <-.
  - rewrite lookup_insert_ne in H by done. by apply Hwf.
Qed.

(** A blob built by insertions of byte arrays and 32-bit values. *)
Definition insert_one (acc : result ChecksumBlob) (op : ChecksumType * (bytes + Z)) : result ChecksumBlob :=
  cs ← acc;
  match snd op with
  | inl v => cs_insert (fst op) v cs
  | inr z => cs_insert32 (fst op) z cs
  end.
Definition insert_all (ops : list (ChecksumType * (bytes + Z))) : result ChecksumBlob :=
  foldl insert_one (Ok ∅) ops.

Lemma insert_all_wf ops acc cs :
  (∀ c, acc = Ok c → wf_blob c) → foldl insert_one acc ops = Ok cs → wf_blob cs.
Proof.
  revert acc. induction ops as [|[t [v|z]] ops IH]; simpl; intros acc Ha; [by apply Ha|apply IH|apply IH];
    (destruct acc as [c|e]; [|done]); intros c' Hc'; unfold insert_one in Hc'; simpl in Hc'; specialize (Ha c eq_refl);
    [by eapply cs_insert_wf|by eapply cs_insert32_wf].
Qed.

(** Checksums survive storage.  Whatever checksums were inserted one after
    the other, by byte array or by 32-bit value, the blob serialised with
    protocol buffers is read back exactly; [deserializeOrSetAdler32] reads it
    back too unless the serialised form is empty. *)
Lemma serialize_roundtrip ops cs :
  insert_all ops = Ok cs →
  cs_deserialize (cs_serialize cs) = Ok cs ∧
  ∀ z cs0, cs_serialize cs ≠ [] → deserializeOrSetAdler32 (cs_serialize cs) z cs0 = Ok cs.
Proof.
  intros H. assert (Hwf : wf_blob cs).
  { apply (insert_all_wf ops (Ok ∅)); [|done]. intros c [= <-] t v Ht. by rewrite lookup_empty in Ht. }
  pose proof (parse_serialize (ChecksumBlobToProtobuf cs)) as Hp.
  unfold cs_deserialize, deserializeOrSetAdler32, cs_serialize. rewrite Hp.
  split; [by apply protobuf_roundtrip|]. intros z cs0 Hne.
  destruct (SerializeAsString (ChecksumBlobToProtobuf cs)); [done|]. rewrite Hp.
  by apply protobuf_roundtrip.
Qed.
End CodecSpec.

(** A concrete serialisation, to run the model. *)
Section Witness.
#[local] Instance PbChecksumType_eq_dec : EqDecision PbChecksumType.
Proof. solve_decision. Defined.
#[local] Instance PbChecksumType_countable : Countable PbChecksumType.
Proof.
  apply (inj_countable' (λ t, match t with PB_unknown n => inr n | _ => inl (type_of_pb t) end)
    (λ x, match x with inr n => PB_unknown n | inl t => type_to_pb t end)). by intros [].
Defined.

Definition demo_serialize (m : ChecksumPb) : bytes := [Z.pos (encode (pb_cs m))].
Definition demo_parse (b : bytes) : option ChecksumPb :=
  match b with [Z.pos p] => mkChecksumPb <$> decode p | _ => None end.

Lemma demo_parse_serialize m : demo_parse (demo_serialize m) = Some m.
Proof. destruct m as [l]. unfold demo_parse, demo_serialize. simpl. by rewrite decode_encode. Qed.

#[local] Instance demo_codec : Serializable bytes ChecksumPb := {|
  SerializeAsString := demo_serialize; ParseFromString := demo_parse;
  parse_serialize := demo_parse_serialize |}.

Definition demo_blob : ChecksumBlob := <[MD5 := 7 :: replicate 15 0]> {[ADLER32 := [4; 3; 2; 1]]}.

Lemma serialize_roundtrip_witness :
  cs_deserialize (cs_serialize demo_blob) = Ok demo_blob ∧
  ∀ z cs0, cs_serialize demo_blob ≠ [] → deserializeOrSetAdler32 (cs_serialize demo_blob) z cs0 = Ok demo_blob.
Proof.
  apply (serialize_roundtrip [(ADLER32, inr 16909060); (MD5, inl [7])]). by vm_compute.
Defined.
End Witness.
