(* ===== verification/ArchiveFile.v ===== *)
(** * Archive files and their tape copies

    Model of [common/dataStructures/ArchiveFile.cpp] and [TapeFile.cpp], and of
    their messages with [ArchiveFileSerDeser.hpp], [TapeFileSerDeser.hpp] and
    [DiskFileInfoSerDeser.hpp]. *)
From S2P Require Import Prelude DataTypes ObjectOps Checksum.

(** [common::dataStructures::TapeFile]; the copy number is a [uint8_t]. *)
Record TapeFile := mkTapeFile {
  tf_vid : string;
  tf_fSeq : Z;
  tf_blockId : Z;
  tf_fileSize : Z;
  tf_copyNb : Z;
  tf_creationTime : Z;
  tf_checksumBlob : ChecksumBlob
}.

(** [common::dataStructures::ArchiveFile]. *)
Record ArchiveFile := mkArchiveFile {
  archiveFileID : Z;
  af_diskFileId : string;
  af_diskInstance : string;
  af_fileSize : Z;
  af_checksumBlob : ChecksumBlob;
  af_storageClass : string;
  af_diskFileInfo : DiskFileInfo;
  af_tapeFiles : list TapeFile;
  af_creationTime : Z;
  af_reconciliationTime : Z
}.

#[export] Instance TapeFile_eq_dec : EqDecision TapeFile.
Proof. solve_decision. Defined.
#[export] Instance ArchiveFile_eq_dec : EqDecision ArchiveFile.
Proof. solve_decision. Defined.

(** [TapeFile::operator==]: the checksums are not compared. *)
Definition TapeFile_eqb (a b : TapeFile) : bool :=
  bool_decide (tf_vid a = tf_vid b) && (tf_fSeq a =? tf_fSeq b) && (tf_blockId a =? tf_blockId b) &&
  (tf_fileSize a =? tf_fileSize b) && (tf_copyNb a =? tf_copyNb b) && (tf_creationTime a =? tf_creationTime b).

Definition matchesCopyNb (cnb : Z) (t : TapeFile) : bool := cnb =? tf_copyNb t.

(** [std::list::operator==]. *)
Fixpoint list_eqb {A} (eqb : A → A → bool) (l k : list A) : bool :=
  match l, k with
  | [], [] => true
  | x :: l', y :: k' => eqb x y && list_eqb eqb l' k'
  | _, _ => false
  end.

(** [ArchiveFile::operator==]: neither the creation nor the reconciliation time
    is compared; [&&] stops at the first difference, before an exception of the
    checksum comparison could arise. *)
Definition ArchiveFile_eqb (a b : ArchiveFile) : result bool :=
  if (archiveFileID a =? archiveFileID b) && bool_decide (af_diskFileId a = af_diskFileId b) &&
     bool_decide (af_diskInstance a = af_diskInstance b) && (af_fileSize a =? af_fileSize b) then
    c ← cs_eqb (af_checksumBlob a) (af_checksumBlob b);
    Ok ((c : bool) && bool_decide (af_storageClass a = af_storageClass b) &&
        DiskFileInfo_eqb (af_diskFileInfo a) (af_diskFileInfo b) &&
        list_eqb TapeFile_eqb (af_tapeFiles a) (af_tapeFiles b))
  else Ok false.

(** [TapeFilesList]. *)
Definition tfl_at (copyNb : Z) (l : list TapeFile) : result TapeFile :=
  match find_if (matchesCopyNb copyNb) l with
  | Some t => Ok t
  | None => Throw (Exception "In ArchiveFile::TapeFilesList::at(): not found.")
  end.
Definition tfl_find (copyNb : Z) (l : list TapeFile) : option TapeFile := find_if (matchesCopyNb copyNb) l.
Definition removeAllVidsExcept (vid : string) (l : list TapeFile) : list TapeFile :=
  filter (λ t, tf_vid t = vid) l.

(** ** Messages *)
Record TapeFilePb := mkTapeFilePb {
  tfp_vid : string;
  tfp_fseq : Z;
  tfp_blockid : Z;
  tfp_filesize : Z;
  tfp_copynb : Z;
  tfp_creationtime : Z;
  tfp_checksumblob : bytes
}.

Record ArchiveFilePb := mkArchiveFilePb {
  afp_archivefileid : Z;
  afp_filesize : Z;
  afp_diskfileid : string;
  afp_diskinstance : string;
  afp_diskfileinfo : serializers.DiskFileInfo;
  afp_checksumblob : bytes;
  afp_creationtime : Z;
  afp_tapefiles : list TapeFilePb;
  afp_reconciliationtime : Z;
  afp_storageclass : string
}.

(** Conversion of a [uint32] field to the [uint8_t] copy number. *)
Definition u8 (z : Z) : Z := z mod 2 ^ 8.

Section SerDeser.
Context `{!Serializable bytes ChecksumPb}.

Definition TapeFile_serialize (t : TapeFile) : TapeFilePb :=
  mkTapeFilePb (tf_vid t) (tf_fSeq t) (tf_blockId t) (tf_fileSize t) (tf_copyNb t)
    (u64 (tf_creationTime t)) (cs_serialize (tf_checksumBlob t)).

Definition TapeFile_deserialize (m : TapeFilePb) : result TapeFile :=
  cs ← cs_deserialize (tfp_checksumblob m);
  Ok (mkTapeFile (tfp_vid m) (tfp_fseq m) (tfp_blockid m) (tfp_filesize m) (u8 (tfp_copynb m))
        (s64 (tfp_creationtime m)) cs).

(** The tape files are appended to those of the message. *)
Definition ArchiveFile_serialize (f : ArchiveFile) (m : ArchiveFilePb) : ArchiveFilePb :=
  mkArchiveFilePb (archiveFileID f) (af_fileSize f) (af_diskFileId f) (af_diskInstance f)
    (DiskFileInfo_serialize (af_diskFileInfo f)) (cs_serialize (af_checksumBlob f)) (u64 (af_creationTime f))
    (afp_tapefiles m ++ (TapeFile_serialize <$> af_tapeFiles f))
    (u64 (af_reconciliationTime f)) (af_storageClass f).

Fixpoint deserialize_tapefiles (l : list TapeFilePb) : result (list TapeFile) :=
  match l with
  | [] => Ok []
  | m :: l' => t ← TapeFile_deserialize m; ts ← deserialize_tapefiles l'; Ok (t :: ts)
  end.

Definition ArchiveFile_deserialize (m : ArchiveFilePb) : result ArchiveFile :=
  cs ← cs_deserialize (afp_checksumblob m);
  ts ← deserialize_tapefiles (afp_tapefiles m);
  Ok (mkArchiveFile (afp_archivefileid m) (afp_diskfileid m) (afp_diskinstance m) (afp_filesize m) cs
        (afp_storageclass m) (DiskFileInfo_deserialize (afp_diskfileinfo m)) ts (s64 (afp_creationtime m))
        (s64 (afp_reconciliationtime m))).

(** Data in range for the message. *)
Definition wf_tape_file (t : TapeFile) : Prop :=
  0 <= tf_copyNb t < 2 ^ 8 ∧ in_time_t (tf_creationTime t) ∧ wf_blob (tf_checksumBlob t).
Definition wf_archive_file (f : ArchiveFile) : Prop :=
  in_time_t (af_creationTime f) ∧ in_time_t (af_reconciliationTime f) ∧ wf_blob (af_checksumBlob f) ∧
  Forall wf_tape_file (af_tapeFiles f).

Lemma cs_roundtrip cs : wf_blob cs → cs_deserialize (cs_serialize cs) = Ok cs.
Proof.
  intros H. unfold cs_deserialize, cs_serialize. rewrite parse_serialize. by apply protobuf_roundtrip.
Qed.

Lemma TapeFile_roundtrip t : wf_tape_file t → TapeFile_deserialize (TapeFile_serialize t) = Ok t.
Proof.
  intros (Hc & Ht & Hw). unfold TapeFile_deserialize, TapeFile_serialize. simpl.
  rewrite cs_roundtrip by done. simpl. rewrite s64_u64 by done. unfold u8. rewrite Z.mod_small by done.
  by destruct t.
Qed.

Lemma tapefiles_roundtrip l :
  Forall wf_tape_file l → deserialize_tapefiles (TapeFile_serialize <$> l) = Ok l.
Proof.
  induction 1 as [|t l Ht H IH]; [done|]. rewrite fmap_cons. cbn [deserialize_tapefiles].
  rewrite TapeFile_roundtrip by done. simpl. by rewrite IH.
Qed.

Definition empty_file_message : ArchiveFilePb :=
  mkArchiveFilePb 0 0 "" "" serializers.no_disk_info [] 0 [] 0 "".

(** The deserialised files of a list of messages are those of its parts. *)
Lemma deserialize_tapefiles_app l k ts :
  deserialize_tapefiles l = Ok ts →
  deserialize_tapefiles (l ++ k) = (ks ← deserialize_tapefiles k; Ok (ts ++ ks)).
Proof.
  revert ts. induction l as [|m l IH]; intros ts; cbn [app deserialize_tapefiles].
  - intros [= <-]. by destruct (deserialize_tapefiles k).
  - destruct (TapeFile_deserialize m) as [t|]; [|done]. simpl.
    destruct (deserialize_tapefiles l) as [ts'|]; [|done]. intros [= <-]. rewrite (IH ts') by done.
    by destruct (deserialize_tapefiles k).
Qed.

(** What [operator==] looks at: everything but the times of the file and the
    checksums of its tape copies. *)
Definition compared_copy (t : TapeFile) : TapeFile :=
  mkTapeFile (tf_vid t) (tf_fSeq t) (tf_blockId t) (tf_fileSize t) (tf_copyNb t) (tf_creationTime t) ∅.
Definition compared (f : ArchiveFile) : ArchiveFile :=
  mkArchiveFile (archiveFileID f) (af_diskFileId f) (af_diskInstance f) (af_fileSize f) (af_checksumBlob f)
    (af_storageClass f) (af_diskFileInfo f) (compared_copy <$> af_tapeFiles f) 0 0.

Lemma TapeFile_eqb_compared a b : TapeFile_eqb a b = true ↔ compared_copy a = compared_copy b.
Proof.
  unfold TapeFile_eqb, compared_copy. rewrite !andb_true_iff, bool_decide_eq_true, !Z.eqb_eq.
  split; [by intros [[[[[-> ->] ->] ->] ->] ->]|by intros [= -> -> -> -> -> ->]].
Qed.

Lemma list_eqb_fmap {A C} (eqb : A → A → bool) (g : A → C) l k :
  (∀ a b, eqb a b = true ↔ g a = g b) → list_eqb eqb l k = true ↔ g <$> l = g <$> k.
Proof.
  intros H. revert k. induction l as [|x l IH]; intros [|y k]; csimpl; [done..|].
  rewrite andb_true_iff, H, IH. split; [by intros [-> ->]|by intros [= -> ->]].
Qed.

Lemma ArchiveFile_eqb_compared a b : ArchiveFile_eqb a b = Ok (bool_decide (compared a = compared b)).
Proof.
  unfold ArchiveFile_eqb. rewrite (proj2 (validate_iff_equal _ _)), DiskFileInfo_eqb_eq. simpl.
  assert (E : ∀ x y : bool, (x = true ↔ y = true) → Ok x = Ok y) by (intros [] []; intuition congruence).
  match goal with |- (if ?c then Ok ?x else _) = _ => transitivity (Ok (c && x)); [by destruct c|] end.
  apply E. rewrite !andb_true_iff, !bool_decide_eq_true, !Z.eqb_eq, (list_eqb_fmap _ _ _ _ TapeFile_eqb_compared).
  unfold compared. split; [|by intros [= -> -> -> -> -> -> -> ->]].
  by intros ([[[-> ->] ->] ->] & [[-> ->] ->] & ->).
Qed.

Definition with_tape_files (ts : list TapeFile) (f : ArchiveFile) : ArchiveFile :=
  mkArchiveFile (archiveFileID f) (af_diskFileId f) (af_diskInstance f) (af_fileSize f) (af_checksumBlob f)
    (af_storageClass f) (af_diskFileInfo f) ts (af_creationTime f) (af_reconciliationTime f).

(** C14: an archive file with its tape copies, checksums and disk file information is
    read back unchanged from the message it was written to, except that the copies
    are added to those the message already held; and [operator==] never throws and
    tells two files apart exactly by what they hold beside the creation and
    reconciliation times and the checksums of the tape copies, so that the file read
    back from a fresh message compares equal to the files the original is equal to. *)
Theorem ArchiveFile_roundtrip f m old :
  wf_archive_file f → deserialize_tapefiles (afp_tapefiles m) = Ok old →
  ArchiveFile_deserialize (ArchiveFile_serialize f m) = Ok (with_tape_files (old ++ af_tapeFiles f) f) ∧
  ArchiveFile_deserialize (ArchiveFile_serialize f empty_file_message) = Ok f ∧
  ∀ g, ArchiveFile_eqb f g = Ok (bool_decide (compared f = compared g)).
Proof.
  intros (H1 & H2 & H3 & H4) Hold.
  assert (H : ∀ m old, deserialize_tapefiles (afp_tapefiles m) = Ok old →
    ArchiveFile_deserialize (ArchiveFile_serialize f m) = Ok (with_tape_files (old ++ af_tapeFiles f) f)).
  { intros m' old' Ho. unfold ArchiveFile_deserialize, ArchiveFile_serialize. simpl.
    rewrite cs_roundtrip by done. simpl. rewrite (deserialize_tapefiles_app _ _ _ Ho), tapefiles_roundtrip by done.
    simpl. rewrite !s64_u64 by done. by rewrite DiskFileInfo_roundtrip. }
  split_and!; [by apply H| |intros g; apply ArchiveFile_eqb_compared].
  rewrite (H _ []) by done. by destruct f.
Qed.
End SerDeser.

#[local] Existing Instance demo_codec.

Definition demo_file : ArchiveFile :=
  mkArchiveFile 12 "fid" "eos" 1000 demo_blob "sc" (mkDiskFileInfo "/a" 1 2)
    [mkTapeFile "V00001" 3 100 1000 1 77 demo_blob] 50 60.

Lemma demo_blob_wf : wf_blob demo_blob.
Proof.
  intros t v. unfold demo_blob. destruct (decide (t = MD5)) as [->|H1].
  - rewrite lookup_insert_eq. by intros [= <-].
  - rewrite lookup_insert_ne by done. destruct (decide (t = ADLER32)) as [->|H2].
    + rewrite lookup_singleton_eq. by intros [= <-].
    + by rewrite lookup_singleton_ne.
Qed.

Lemma demo_file_wf : wf_archive_file demo_file.
Proof.
  split; [by vm_compute|]. split; [by vm_compute|]. split; [apply demo_blob_wf|].
  repeat constructor; try (by vm_compute). apply demo_blob_wf.
Qed.

(** Two copies, the first left in the message by an earlier file. *)
Lemma ArchiveFile_roundtrip_witness :
  ArchiveFile_deserialize (ArchiveFile_serialize demo_file (ArchiveFile_serialize demo_file empty_file_message)) =
    Ok (with_tape_files (af_tapeFiles demo_file ++ af_tapeFiles demo_file) demo_file) ∧
  ArchiveFile_deserialize (ArchiveFile_serialize demo_file empty_file_message) = Ok demo_file ∧
  ∀ g, ArchiveFile_eqb demo_file g = Ok (bool_decide (compared demo_file = compared g)).
Proof.
  apply (ArchiveFile_roundtrip demo_file (ArchiveFile_serialize demo_file empty_file_message) (af_tapeFiles demo_file)
    demo_file_wf). by vm_compute.
Defined.
