(* ===== verification/ArchiveRequest.v ===== *)
(** * Archive requests

    Model of [objectstore/ArchiveRequest.cpp]: the request of a user, or of a
    repack, to write a file to tape, with one job per copy.  The operations decide
    what happens to a job after a failed or successful transfer; the asynchronous
    updates run in the backend under the lock of the object.  [garbageCollect],
    which needs the root entry and the queues, is not part of this file. *)
From S2P Require Import Prelude DataTypes Backend ObjectOps Checksum ArchiveFile.

(** ** Messages *)

(** [serializers::ArchiveJob]. *)
Record ArchiveJob := mkArchiveJob {
  aj_copynb : Z;
  aj_tapepool : string;
  aj_archivequeueaddress : string;
  aj_owner : string;
  aj_status : ArchiveJobStatus;
  aj_totalretries : Z;
  aj_retrieswithinmount : Z;
  aj_lastmountwithfailure : Z;
  aj_maxtotalretries : Z;
  aj_maxretrieswithinmount : Z;
  aj_failurelogs : list string;
  aj_maxreportretries : Z;
  aj_totalreportretries : Z;
  aj_reportfailurelogs : list string
}.

(** [serializers::JobDestinationVid]. *)
Record JobDestinationVid := mkDestination { destination_vid : string; copy_nb : Z }.

(** [serializers::ArchiveRequestRepackInfo]. *)
Record ArchiveRequestRepackInfo := mkRepackInfoPb {
  repack_request_address : string;
  file_buffer_url : string;
  rip_fseq : Z;
  jobs_destination : list JobDestinationVid
}.

(** [serializers::ArchiveRequest]. *)
Record ArchiveRequest := mkArchiveRequest {
  ar_archivefileid : Z;
  ar_mountpolicy : serializers.MountPolicy;
  ar_checksumblob : bytes;
  ar_creationtime : Z;
  ar_reconcilationtime : Z;
  ar_diskfileinfo : serializers.DiskFileInfo;
  ar_diskfileid : string;
  ar_diskinstance : string;
  ar_archivereporturl : string;
  ar_archiveerrorreporturl : string;
  ar_filesize : Z;
  ar_requester : RequesterIdentity;
  ar_srcurl : string;
  ar_storageclass : string;
  ar_creationlog : serializers.EntryLog;
  ar_jobs : list ArchiveJob;
  ar_reportdecided : bool;
  ar_isrepack : bool;
  ar_repack_info : ArchiveRequestRepackInfo
}.

Definition empty_repack_info : ArchiveRequestRepackInfo := mkRepackInfoPb "" "" 0 [].
Definition empty_policy : serializers.MountPolicy :=
  serializers.mkMountPolicy "" 0 0 0 0 (serializers.mkEntryLog "" "" 0) (serializers.mkEntryLog "" "" 0) "".

#[export] Instance ArchiveRequest_message : Message ArchiveRequest := {|
  payloadTypeId := ArchiveRequest_t;
  default_message := mkArchiveRequest 0 empty_policy [] 0 0 serializers.no_disk_info "" "" "" "" 0
    (mkRequester "" "") "" "" (serializers.mkEntryLog "" "" 0) [] false false empty_repack_info |}.

(** [ArchiveRequest::RetryStatus]. *)
Record RetryStatus := mkRetryStatus {
  rs_retriesWithinMount : Z;
  rs_maxRetriesWithinMount : Z;
  rs_totalRetries : Z;
  rs_maxTotalRetries : Z;
  rs_reportRetries : Z;
  rs_maxReportRetries : Z
}.

(** [ArchiveRequest::JobEvent]. *)
Inductive JobEvent := TransferFailed | ReportFailed.

(** [ArchiveRequest::EnqueueingNextStep]. *)
Inductive NextStep :=
  | Nothing | EnqueueForTransferForUser | EnqueueForTransferForRepack | EnqueueForReportForUser
  | EnqueueForReportForRepack | StoreInFailedJobsContainer | Delete.
Record EnqueueingNextStep := mkNextStep { nextStep : NextStep; nextStatus : ArchiveJobStatus }.

(** [ArchiveRequest::RepackInfo]. *)
Record RepackInfo := mkRepackInfo {
  isRepack : bool;
  ri_fSeq : Z;
  repackRequestAddress : string;
  fileBufferURL : string;
  jobsDestination : gmap Z string
}.

Definition no_repack_info : RepackInfo := mkRepackInfo false 0 "" "" ∅.

(** ** Field updates *)
Definition aj_set_status (x : ArchiveJobStatus) (j : ArchiveJob) : ArchiveJob :=
  mkArchiveJob (aj_copynb j) (aj_tapepool j) (aj_archivequeueaddress j) (aj_owner j) x
    (aj_totalretries j) (aj_retrieswithinmount j) (aj_lastmountwithfailure j) (aj_maxtotalretries j)
    (aj_maxretrieswithinmount j) (aj_failurelogs j) (aj_maxreportretries j) (aj_totalreportretries j)
    (aj_reportfailurelogs j).
Definition aj_set_owner (x : string) (j : ArchiveJob) : ArchiveJob :=
  mkArchiveJob (aj_copynb j) (aj_tapepool j) (aj_archivequeueaddress j) x (aj_status j)
    (aj_totalretries j) (aj_retrieswithinmount j) (aj_lastmountwithfailure j) (aj_maxtotalretries j)
    (aj_maxretrieswithinmount j) (aj_failurelogs j) (aj_maxreportretries j) (aj_totalreportretries j)
    (aj_reportfailurelogs j).
Definition aj_set_retries (total within mount : Z) (logs : list string) (j : ArchiveJob) : ArchiveJob :=
  mkArchiveJob (aj_copynb j) (aj_tapepool j) (aj_archivequeueaddress j) (aj_owner j) (aj_status j)
    total within mount (aj_maxtotalretries j)
    (aj_maxretrieswithinmount j) logs (aj_maxreportretries j) (aj_totalreportretries j)
    (aj_reportfailurelogs j).
Definition aj_set_reports (total : Z) (logs : list string) (j : ArchiveJob) : ArchiveJob :=
  mkArchiveJob (aj_copynb j) (aj_tapepool j) (aj_archivequeueaddress j) (aj_owner j) (aj_status j)
    (aj_totalretries j) (aj_retrieswithinmount j) (aj_lastmountwithfailure j) (aj_maxtotalretries j)
    (aj_maxretrieswithinmount j) (aj_failurelogs j) (aj_maxreportretries j) total logs.

Definition ar_set_jobs (x : list ArchiveJob) (r : ArchiveRequest) : ArchiveRequest :=
  mkArchiveRequest (ar_archivefileid r) (ar_mountpolicy r) (ar_checksumblob r) (ar_creationtime r)
    (ar_reconcilationtime r) (ar_diskfileinfo r) (ar_diskfileid r) (ar_diskinstance r)
    (ar_archivereporturl r) (ar_archiveerrorreporturl r) (ar_filesize r) (ar_requester r) (ar_srcurl r)
    (ar_storageclass r) (ar_creationlog r) x (ar_reportdecided r) (ar_isrepack r) (ar_repack_info r).
Definition ar_set_flags (decided repack : bool) (r : ArchiveRequest) : ArchiveRequest :=
  mkArchiveRequest (ar_archivefileid r) (ar_mountpolicy r) (ar_checksumblob r) (ar_creationtime r)
    (ar_reconcilationtime r) (ar_diskfileinfo r) (ar_diskfileid r) (ar_diskinstance r)
    (ar_archivereporturl r) (ar_archiveerrorreporturl r) (ar_filesize r) (ar_requester r) (ar_srcurl r)
    (ar_storageclass r) (ar_creationlog r) (ar_jobs r) decided repack (ar_repack_info r).
Definition ar_set_repack_info (x : ArchiveRequestRepackInfo) (r : ArchiveRequest) : ArchiveRequest :=
  mkArchiveRequest (ar_archivefileid r) (ar_mountpolicy r) (ar_checksumblob r) (ar_creationtime r)
    (ar_reconcilationtime r) (ar_diskfileinfo r) (ar_diskfileid r) (ar_diskinstance r)
    (ar_archivereporturl r) (ar_archiveerrorreporturl r) (ar_filesize r) (ar_requester r) (ar_srcurl r)
    (ar_storageclass r) (ar_creationlog r) (ar_jobs r) (ar_reportdecided r) (ar_isrepack r) x.
Definition ar_set_urls (report error src : string) (r : ArchiveRequest) : ArchiveRequest :=
  mkArchiveRequest (ar_archivefileid r) (ar_mountpolicy r) (ar_checksumblob r) (ar_creationtime r)
    (ar_reconcilationtime r) (ar_diskfileinfo r) (ar_diskfileid r) (ar_diskinstance r)
    report error (ar_filesize r) (ar_requester r) src
    (ar_storageclass r) (ar_creationlog r) (ar_jobs r) (ar_reportdecided r) (ar_isrepack r) (ar_repack_info r).
Definition ar_set_user (policy : serializers.MountPolicy) (req : RequesterIdentity)
    (log : serializers.EntryLog) (r : ArchiveRequest) : ArchiveRequest :=
  mkArchiveRequest (ar_archivefileid r) policy (ar_checksumblob r) (ar_creationtime r)
    (ar_reconcilationtime r) (ar_diskfileinfo r) (ar_diskfileid r) (ar_diskinstance r)
    (ar_archivereporturl r) (ar_archiveerrorreporturl r) (ar_filesize r) req (ar_srcurl r)
    (ar_storageclass r) log (ar_jobs r) (ar_reportdecided r) (ar_isrepack r) (ar_repack_info r).

(** Update of the first job with a copy number, the way the loops do it. *)
Fixpoint update_job (cn : Z) (f : ArchiveJob → ArchiveJob) (jobs : list ArchiveJob) : list ArchiveJob :=
  match jobs with
  | [] => []
  | j :: jobs' => if aj_copynb j =? cn then f j :: jobs' else j :: update_job cn f jobs'
  end.
Definition find_job (cn : Z) (jobs : list ArchiveJob) : option ArchiveJob :=
  find_if (λ j, aj_copynb j =? cn) jobs.

(** ** Pure functions of the status *)
Definition c_statusesImplyingQueueing : list ArchiveJobStatus :=
  [AJS_ToTransferForUser; AJS_ToReportToUserForTransfer; AJS_ToReportToUserForFailure; AJS_Failed;
   AJS_ToTransferForRepack; AJS_ToReportToRepackForFailure; AJS_ToReportToRepackForSuccess].
Definition c_statusesImplyingQueueingByRepackRequestAddress : list ArchiveJobStatus :=
  [AJS_ToReportToRepackForFailure; AJS_ToReportToRepackForSuccess].

Definition getQueueType (status : ArchiveJobStatus) : result JobQueueType :=
  match status with
  | AJS_ToTransferForUser => Ok JobsToTransferForUser
  | AJS_ToReportToUserForTransfer | AJS_ToReportToUserForFailure => Ok JobsToReportToUser
  | AJS_ToReportToRepackForSuccess => Ok JobsToReportToRepackForSuccess
  | AJS_ToReportToRepackForFailure => Ok JobsToReportToRepackForFailure
  | AJS_ToTransferForRepack => Ok JobsToTransferForRepack
  | AJS_Failed => Ok FailedJobs
  | AJS_Complete | AJS_Abandoned => Throw JobNotQueueable
  end.

Definition statusToString (status : ArchiveJobStatus) : string :=
  match status with
  | AJS_ToTransferForUser => "ToTransfer"
  | AJS_ToReportToUserForTransfer => "ToReportForTransfer"
  | AJS_ToReportToUserForFailure => "ToReportForFailure"
  | AJS_ToReportToRepackForFailure => "ToReportToRepackForFailure"
  | AJS_ToReportToRepackForSuccess => "ToReportToRepackForSuccess"
  | AJS_Complete => "Complete"
  | AJS_Failed => "Failed"
  | AJS_Abandoned => "Abandoned"
  | AJS_ToTransferForRepack => "Unknown (" +:+ pretty (ArchiveJobStatus_num status) +:+ ")"
  end.

Definition eventToString (jobEvent : JobEvent) : string :=
  match jobEvent with ReportFailed => "ReportFailed" | TransferFailed => "EventFailed" end.

(** ** Conversions of the repack information *)

(** [for (auto d: m.jobs_destination()) jobsDestination[d.copy_nb()] = d.destination_vid()]. *)
Definition read_destinations (l : list JobDestinationVid) (m : gmap Z string) : gmap Z string :=
  foldl (λ m d, <[copy_nb d := destination_vid d]> m) m l.

(** The entries of the map appended to the repeated field. *)
Definition add_destinations (m : gmap Z string) (l : list JobDestinationVid) : list JobDestinationVid :=
  l ++ ((λ kv, mkDestination (snd kv) (fst kv)) <$> map_to_list m).

(** [RepackInfoSerDeser::serialize]: the destinations already in the message stay. *)
Definition RepackInfo_serialize (ri : RepackInfo) (m : ArchiveRequestRepackInfo) :
    result ArchiveRequestRepackInfo :=
  if isRepack ri then
    Ok (mkRepackInfoPb (repackRequestAddress ri) (fileBufferURL ri) (ri_fSeq ri)
          (add_destinations (jobsDestination ri) (jobs_destination m)))
  else Throw (Exception "In ArchiveRequest::RepackInfoSerDeser::serialize(): isRepack is false.").

(** [RepackInfoSerDeser::deserialize], on an object that may hold destinations. *)
Definition RepackInfo_deserialize (m : ArchiveRequestRepackInfo) (ri : RepackInfo) : RepackInfo :=
  mkRepackInfo true (rip_fseq m) (repack_request_address m) (file_buffer_url m)
    (read_destinations (jobs_destination m) (jobsDestination ri)).

Section Operations.
Context {B St : Type} `{!Serializable B ArchiveRequest, !Serializable B (ObjectHeader B)}.
Context `{!Serializable bytes ChecksumPb, !Backend B St}.

(** Operations in memory: the state is the handle. *)
Abbreviation AR := (M (ObjectOps B ArchiveRequest)).

Definition ar_payload : AR ArchiveRequest := gets m_payload.
Definition ar_modify (f : ArchiveRequest → ArchiveRequest) : AR unit :=
  modify (λ o, with_payload (f (m_payload o)) o).
Definition ar_writable : AR unit := o ← get; lift (checkPayloadWritable o).
Definition ar_readable : AR unit := o ← get; lift (checkPayloadReadable o).

Definition request_initialize : AR unit :=
  o ← get;
  o1 ← lift (initialize o);
  _ ← modify (λ _, o1);
  _ ← ar_modify (ar_set_flags false false);
  modify (λ o, with_flags (with_interpreted (m_headerInterpreted (m_flags o)) true (m_flags o)) o).

(** [ArchiveRequest::commit]: no two jobs may have the same tape pool. *)
Definition tapepool_count (tp : string) (jobs : list ArchiveJob) : nat :=
  length (filter (λ j, aj_tapepool j = tp) jobs).

Definition request_commit : M (HState B ArchiveRequest St) unit :=
  o ← self;
  _ ← lift (checkPayloadWritable o);
  _ ← lift (checkPayloadReadable o);
  let jobs := ar_jobs (m_payload o) in
  if forallb (λ j, (tapepool_count (aj_tapepool j) jobs =? 1)%nat) jobs then commit
  else throw (Exception "In ArchiveRequest::commit(), cannot insert an ArchiveRequest containing archive jobs with the same destination tapepool").

Definition addJob (copyNumber : Z) (tapepool initialOwner : string)
    (maxRetriesWithinMount maxTotalRetries maxReportRetries : Z) : AR unit :=
  _ ← ar_writable;
  ar_modify (λ r, ar_set_jobs (ar_jobs r ++
    [mkArchiveJob copyNumber tapepool "" initialOwner AJS_ToTransferForUser 0 0 0 maxTotalRetries
       maxRetriesWithinMount [] maxReportRetries 0 []]) r).

Definition getJobQueueType (copyNumber : Z) : AR JobQueueType :=
  _ ← ar_readable;
  r ← ar_payload;
  match find_job copyNumber (ar_jobs r) with
  | Some j =>
      lift (match aj_status j with
            | AJS_ToTransferForUser => Ok JobsToTransferForUser
            | AJS_ToTransferForRepack => Ok JobsToTransferForRepack
            | AJS_Complete => Throw JobNotQueueable
            | AJS_ToReportToUserForTransfer => Ok JobsToReportToUser
            | AJS_ToReportToUserForFailure => Ok JobsToReportToUser
            | AJS_Failed => Ok FailedJobs
            | AJS_Abandoned => Throw JobNotQueueable
            | AJS_ToReportToRepackForSuccess => Ok JobsToReportToRepackForSuccess
            | AJS_ToReportToRepackForFailure => Ok JobsToReportToRepackForFailure
            end)
  | None => throw (Exception "In ArchiveRequest::getJobQueueType(): Copy number not found.")
  end.

(** [determineNextStep]: the warnings on unexpected statuses are only logged. *)
Definition determineNextStep (copyNumberUpdated : Z) (jobEvent : JobEvent) : AR EnqueueingNextStep :=
  _ ← ar_writable;
  r ← ar_payload;
  if existsb (λ j, aj_copynb j =? copyNumberUpdated) (ar_jobs r) then
    match jobEvent with
    | TransferFailed =>
        if negb (ar_reportdecided r) then
          _ ← ar_modify (λ r, ar_set_flags true (ar_isrepack r) r);
          mret (if ar_isrepack r
                then mkNextStep EnqueueForReportForRepack AJS_ToReportToRepackForFailure
                else mkNextStep EnqueueForReportForUser AJS_ToReportToUserForFailure)
        else
          mret (if ar_isrepack r
                then mkNextStep EnqueueForReportForRepack AJS_ToReportToRepackForFailure
                else mkNextStep StoreInFailedJobsContainer AJS_Failed)
    | ReportFailed => mret (mkNextStep StoreInFailedJobsContainer AJS_Failed)
    end
  else throw (Exception "In ArchiveRequest::determineNextStep(): copynb not found").

(** The counters of a job after one more transfer failure ([uint32] fields). *)
Definition count_transfer_failure (mountId : Z) (failureReason : string) (j : ArchiveJob) : ArchiveJob :=
  let within := if aj_lastmountwithfailure j =? mountId then u32 (aj_retrieswithinmount j + 1) else 1 in
  aj_set_retries (u32 (aj_totalretries j + 1)) within mountId (aj_failurelogs j ++ [failureReason]) j.

Definition addTransferFailure (copyNumber mountId : Z) (failureReason : string) : AR EnqueueingNextStep :=
  _ ← ar_writable;
  r ← ar_payload;
  match find_job copyNumber (ar_jobs r) with
  | None => throw NoSuchJob
  | Some j0 =>
      let j := count_transfer_failure mountId failureReason j0 in
      _ ← ar_modify (λ r, ar_set_jobs (update_job copyNumber (λ _, j) (ar_jobs r)) r);
      if aj_maxtotalretries j <=? aj_totalretries j then determineNextStep copyNumber TransferFailed
      else
        let st := if ar_isrepack r then AJS_ToTransferForRepack else AJS_ToTransferForUser in
        mret (if aj_maxretrieswithinmount j <=? aj_retrieswithinmount j then mkNextStep Nothing st
              else mkNextStep (if ar_isrepack r then EnqueueForTransferForRepack
                               else EnqueueForTransferForUser) st)
  end.

(** [addReportFailure]: the [return] is inside the loop but outside the test of the
    copy number, so only the first job is looked at. *)
Definition addReportFailure (copyNumber sessionId : Z) (failureReason : string) : AR EnqueueingNextStep :=
  _ ← ar_writable;
  r ← ar_payload;
  match ar_jobs r with
  | [] => throw NoSuchJob
  | j0 :: jobs =>
      let j := if aj_copynb j0 =? copyNumber
               then aj_set_reports (u32 (aj_totalreportretries j0 + 1))
                      (aj_reportfailurelogs j0 ++ [failureReason]) j0
               else j0 in
      _ ← ar_modify (ar_set_jobs (j :: jobs));
      mret (if aj_maxreportretries j <=? aj_totalreportretries j
            then mkNextStep StoreInFailedJobsContainer AJS_Failed
            else mkNextStep EnqueueForReportForUser (aj_status j))
  end.

Definition getRetryStatus (copyNumber : Z) : AR RetryStatus :=
  _ ← ar_readable;
  r ← ar_payload;
  match find_job copyNumber (ar_jobs r) with
  | Some j => mret (mkRetryStatus (aj_retrieswithinmount j) (aj_maxretrieswithinmount j)
                      (aj_totalretries j) (aj_maxtotalretries j) (aj_totalreportretries j) 0)
  | None => throw (Exception "In ArchiveRequest::getRetryStatus(): job not found()")
  end.

Definition setArchiveFile (f : ArchiveFile) : AR unit :=
  _ ← ar_writable;
  ar_modify (λ r, mkArchiveRequest (archiveFileID f) (ar_mountpolicy r) (cs_serialize (af_checksumBlob f))
    (u64 (af_creationTime f)) (u64 (af_reconciliationTime f))
    (serializers.mkDiskFileInfo (dfi_owner_uid (af_diskFileInfo f)) (dfi_gid (af_diskFileInfo f)) (dfi_path (af_diskFileInfo f)))
    (af_diskFileId f) (af_diskInstance f)
    (ar_archivereporturl r) (ar_archiveerrorreporturl r) (af_fileSize f) (ar_requester r) (ar_srcurl r)
    (af_storageClass f) (ar_creationlog r) (ar_jobs r) (ar_reportdecided r) (ar_isrepack r) (ar_repack_info r)).

(** The archive file of a message; it has no tape files. *)
Definition file_of (r : ArchiveRequest) : result ArchiveFile :=
  cs ← cs_deserialize (ar_checksumblob r);
  Ok (mkArchiveFile (ar_archivefileid r) (ar_diskfileid r) (ar_diskinstance r) (ar_filesize r) cs
        (ar_storageclass r)
        (mkDiskFileInfo (serializers.path (ar_diskfileinfo r)) (serializers.owner_uid (ar_diskfileinfo r))
           (serializers.gid (ar_diskfileinfo r)))
        [] (s64 (ar_creationtime r)) (s64 (ar_reconcilationtime r))).

Definition getArchiveFile : AR ArchiveFile := _ ← ar_readable; r ← ar_payload; lift (file_of r).

Definition setArchiveReportURL (URL : string) : AR unit :=
  _ ← ar_writable; ar_modify (λ r, ar_set_urls URL (ar_archiveerrorreporturl r) (ar_srcurl r) r).
Definition getArchiveReportURL : AR string := _ ← ar_readable; r ← ar_payload; mret (ar_archivereporturl r).
Definition setArchiveErrorReportURL (URL : string) : AR unit :=
  _ ← ar_writable; ar_modify (λ r, ar_set_urls (ar_archivereporturl r) URL (ar_srcurl r) r).
Definition getArchiveErrorReportURL : AR string :=
  _ ← ar_readable; r ← ar_payload; mret (ar_archiveerrorreporturl r).
Definition setSrcURL (srcURL : string) : AR unit :=
  _ ← ar_writable; ar_modify (λ r, ar_set_urls (ar_archivereporturl r) (ar_archiveerrorreporturl r) srcURL r).
Definition getSrcURL : AR string := _ ← ar_readable; r ← ar_payload; mret (ar_srcurl r).

Definition setMountPolicy (p : MountPolicy) : AR unit :=
  _ ← ar_writable;
  ar_modify (λ r, ar_set_user (MountPolicy_serialize p) (ar_requester r) (ar_creationlog r) r).
Definition getMountPolicy : AR MountPolicy :=
  _ ← ar_readable; r ← ar_payload; mret (MountPolicy_deserialize (ar_mountpolicy r)).
Definition setRequester (q : RequesterIdentity) : AR unit :=
  _ ← ar_writable;
  ar_modify (λ r, ar_set_user (ar_mountpolicy r) (mkRequester (ri_name q) (ri_group q)) (ar_creationlog r) r).
Definition getRequester : AR RequesterIdentity :=
  _ ← ar_readable; r ← ar_payload; mret (mkRequester (ri_name (ar_requester r)) (ri_group (ar_requester r))).
Definition setEntryLog (e : EntryLog) : AR unit :=
  _ ← ar_writable;
  ar_modify (λ r, ar_set_user (ar_mountpolicy r) (ar_requester r)
    (serializers.mkEntryLog (el_username e) (el_host e) (u64 (el_time e))) r).
Definition getEntryLog : AR EntryLog :=
  _ ← ar_readable; r ← ar_payload; mret (EntryLog_deserialize (ar_creationlog r)).

Definition request_dumpJobs : AR (list ArchiveJobDump) :=
  _ ← ar_readable;
  r ← ar_payload;
  mret ((λ j, mkArchiveJobDump (aj_copynb j) (aj_tapepool j) (aj_owner j) (aj_status j)) <$> ar_jobs r).

Definition setJobOwner (copyNumber : Z) (owner : string) : AR unit :=
  _ ← ar_writable;
  r ← ar_payload;
  match find_job copyNumber (ar_jobs r) with
  | Some _ => ar_modify (λ r, ar_set_jobs (update_job copyNumber (aj_set_owner owner) (ar_jobs r)) r)
  | None => throw NoSuchJob
  end.

Definition getJobOwner (copyNumber : Z) : AR string :=
  _ ← ar_readable;
  r ← ar_payload;
  match find_job copyNumber (ar_jobs r) with
  | Some j => mret (aj_owner j)
  | None => throw NoSuchJob
  end.

Definition setJobStatus (copyNumber : Z) (status : ArchiveJobStatus) : AR unit :=
  _ ← ar_writable;
  r ← ar_payload;
  match find_job copyNumber (ar_jobs r) with
  | Some _ => ar_modify (λ r, ar_set_jobs (update_job copyNumber (aj_set_status status) (ar_jobs r)) r)
  | None => throw (Exception "In ArchiveRequest::setJobStatus(): job not found.")
  end.

Definition getTapePoolForJob (copyNumber : Z) : AR string :=
  _ ← ar_readable;
  r ← ar_payload;
  match find_job copyNumber (ar_jobs r) with
  | Some j => mret (aj_tapepool j)
  | None => throw (Exception "In ArchiveRequest::getTapePoolForJob(): job not found.")
  end.

Definition getFailures : AR (list string) :=
  _ ← ar_readable; r ← ar_payload; mret (concat (aj_failurelogs <$> ar_jobs r)).
Definition getReportFailures : AR (list string) :=
  _ ← ar_readable; r ← ar_payload; mret (concat (aj_reportfailurelogs <$> ar_jobs r)).

(** [getRepackInfo] reports a repack whatever the request is. *)
Definition getRepackInfo : AR RepackInfo :=
  _ ← ar_readable;
  r ← ar_payload;
  let m := ar_repack_info r in
  mret (mkRepackInfo true (rip_fseq m) (repack_request_address m) (file_buffer_url m)
          (read_destinations (jobs_destination m) ∅)).

Definition setRepackInfo (ri : RepackInfo) : AR unit :=
  _ ← ar_writable;
  ar_modify (λ r, ar_set_repack_info (mkRepackInfoPb (repackRequestAddress ri) (fileBufferURL ri) (ri_fSeq ri)
    (add_destinations (jobsDestination ri) (jobs_destination (ar_repack_info r)))) r).

(** ** Asynchronous updates *)

(** What the owner updater gathers for its caller. *)
Record JobOwnerUpdate := mkOwnerUpdate {
  ou_archiveFile : ArchiveFile;
  ou_archiveReportURL : string;
  ou_archiveErrorReportURL : string;
  ou_srcURL : string;
  ou_repackInfo : RepackInfo;
  ou_latestError : string;
  ou_jobsStatusMap : gmap Z ArchiveJobStatus
}.

Definition parse_request (what : string) (c : B) : result (ObjectHeader B * ArchiveRequest) :=
  match ParseFromString c with
  | None => Throw (Exception (what +:+ "could not parse header"))
  | Some oh =>
      if decide (h_type oh = ArchiveRequest_t) then
        match ParseFromString (h_payload oh) with
        | None => Throw (Exception (what +:+ "could not parse payload"))
        | Some r => Ok (oh, r)
        end
      else Throw (Exception (what +:+ "wrong object type"))
  end.

Definition set_payload_bytes (oh : ObjectHeader B) (r : ArchiveRequest) : ObjectHeader B :=
  mkHeader (h_type oh) (h_version oh) (h_owner oh) (h_backupowner oh) (SerializeAsString r).

(** The callback of [asyncUpdateJobOwner]. *)
Definition update_owner (copyNumber : Z) (owner previousOwner : string)
    (newStatus : option ArchiveJobStatus) (c : B) : result (B * JobOwnerUpdate) :=
  x ← parse_request "In ArchiveRequest::asyncUpdateJobOwner(): " c;
  let '(oh, r) := x in
  match find_job copyNumber (ar_jobs r) with
  | None => Throw WrongPreviousOwner
  | Some j =>
      if negb (bool_decide (aj_owner j = owner)) && negb (bool_decide (aj_owner j = previousOwner))
      then Throw WrongPreviousOwner
      else
        let f := λ j, match newStatus with
                      | Some st => aj_set_status st (aj_set_owner owner j)
                      | None => aj_set_owner owner j
                      end in
        let r' := ar_set_jobs (update_job copyNumber f (ar_jobs r)) r in
        file ← file_of r';
        let m := ar_repack_info r' in
        let u := mkOwnerUpdate file (ar_archivereporturl r') (ar_archiveerrorreporturl r') (ar_srcurl r')
          (mkRepackInfo (ar_isrepack r') (rip_fseq m) (repack_request_address m) (file_buffer_url m)
             (read_destinations (jobs_destination m) ∅))
          (default "" (last (aj_failurelogs j)))
          (foldl (λ m j, <[aj_copynb j := aj_status j]> m) ∅ (ar_jobs r')) in
        Ok (SerializeAsString (set_payload_bytes oh r'), u)
  end.

Definition asyncUpdateJobOwner (copyNumber : Z) (owner previousOwner : string)
    (newStatus : option ArchiveJobStatus) : M (HState B ArchiveRequest St) (option JobOwnerUpdate) :=
  o ← self;
  name ← lift (getAddressIfSet o);
  on_store (asyncUpdate name (update_owner copyNumber owner previousOwner newStatus)).

(** What the success updater reports: whether the success is to be reported, which
    is left unset for a repack, and the repack information. *)
Record TransferSuccess := mkSuccess { m_doReportTransferSuccess : option bool; ts_repackInfo : RepackInfo }.

(** The callback of [asyncUpdateTransferSuccessful].  [handle] is the payload in
    memory of the handle the update is called on: the test of [reportdecided]
    reads it there and not in the object just read.  A header or a payload that
    does not parse is not detected by the code; the model reports it. *)
Definition update_success (handle : ArchiveRequest) (destinationVid : string) (copyNumber : Z) (c : B) :
    result (B * TransferSuccess) :=
  x ← parse_request "In ArchiveRequest::asyncUpdateJobSuccessful(): " c;
  let '(oh, r) := x in
  match find_job copyNumber (ar_jobs r) with
  | None => Throw (Exception "In ArchiveRequest::asyncUpdateJobSuccessful()::lambda(): copyNb not found")
  | Some _ =>
      if negb (ar_isrepack r) then
        let otherJobsToTransfer :=
          existsb (λ j, negb (aj_copynb j =? copyNumber) && bool_decide (aj_status j = AJS_ToTransferForUser))
            (ar_jobs r) in
        let silent := otherJobsToTransfer || ar_reportdecided handle in
        let f := λ j, if silent then aj_set_owner "" (aj_set_status AJS_Complete j)
                      else aj_set_status AJS_ToReportToUserForTransfer j in
        let r' := ar_set_jobs (update_job copyNumber f (ar_jobs r)) r in
        Ok (SerializeAsString (set_payload_bytes oh r'),
            mkSuccess (Some (negb silent)) (mkRepackInfo (ar_isrepack r) 0 "" "" ∅))
      else
        let ri := RepackInfo_deserialize (ar_repack_info r) no_repack_info in
        let ri' := mkRepackInfo (isRepack ri) (ri_fSeq ri) (repackRequestAddress ri) (fileBufferURL ri)
                     (<[copyNumber := destinationVid]> (jobsDestination ri)) in
        m ← RepackInfo_serialize ri' (ar_repack_info r);
        let r' := ar_set_jobs (update_job copyNumber (aj_set_status AJS_ToReportToRepackForSuccess)
                                 (ar_jobs r)) (ar_set_repack_info m r) in
        Ok (SerializeAsString (set_payload_bytes oh r'), mkSuccess None ri')
  end.

Definition asyncUpdateTransferSuccessful (destinationVid : string) (copyNumber : Z) :
    M (HState B ArchiveRequest St) (option TransferSuccess) :=
  o ← self;
  name ← lift (getAddressIfSet o);
  on_store (asyncUpdate name (update_success (m_payload o) destinationVid copyNumber)).

Definition asyncDeleteRequest : M (HState B ArchiveRequest St) unit :=
  o ← self;
  name ← lift (getAddressIfSet o);
  on_store (asyncDelete name).
End Operations.
