(* ===== verification/ArchiveRequestSpec.v ===== *)
(** * Correctness of archive requests

    Counting of retries, the decision to report, the hand-over of jobs between
    owners and the bookkeeping of repack destinations. *)
From S2P Require Import Prelude DataTypes Backend ObjectOps Checksum ArchiveFile ArchiveRequest.

(** ** Jobs by copy number *)
Lemma find_job_Some cn jobs j : find_job cn jobs = Some j → j ∈ jobs ∧ aj_copynb j = cn.
Proof. intros [H1 H2]%find_if_Some. split; [done|]. by apply Z.eqb_eq. Qed.

Lemma find_update_same cn f jobs j :
  find_job cn jobs = Some j → aj_copynb (f j) = cn → find_job cn (update_job cn f jobs) = Some (f j).
Proof.
  unfold find_job. intros H Hf. induction jobs as [|k jobs IH]; simpl in *; [done|].
  destruct (aj_copynb k =? cn) eqn:E; simplify_eq/=.
  - by rewrite Z.eqb_refl.
  - rewrite E. auto.
Qed.

Lemma find_update_other cn cn' f jobs :
  cn ≠ cn' → (∀ j, aj_copynb j = cn → aj_copynb (f j) = cn) →
  find_job cn' (update_job cn f jobs) = find_job cn' jobs.
Proof.
  unfold find_job. intros Hne Hf. induction jobs as [|k jobs IH]; simpl; [done|].
  destruct (Z.eqb_spec (aj_copynb k) cn) as [E|E]; simpl.
  - rewrite Hf, E by done. by rewrite (proj2 (Z.eqb_neq _ _)).
  - by rewrite IH.
Qed.

(** Updating the job with a copy number keeps the list around it. *)
Lemma update_job_split cn jobs j :
  find_job cn jobs = Some j →
  ∃ l1 l2, jobs = l1 ++ j :: l2 ∧ ∀ f, update_job cn f jobs = l1 ++ f j :: l2.
Proof.
  unfold find_job. induction jobs as [|k jobs IH]; simpl; [done|].
  destruct (aj_copynb k =? cn) eqn:E.
  - intros [= <-]. by exists [], jobs.
  - intros H. destruct (IH H) as (l1 & l2 & -> & Hu). exists (k :: l1), l2. split; [done|].
    intros f. by rewrite Hu.
Qed.

Lemma existsb_find cn jobs j : find_job cn jobs = Some j → existsb (λ j, aj_copynb j =? cn) jobs = true.
Proof.
  intros [Hin Hc]%find_job_Some. apply existsb_exists. exists j.
  split; [by apply list_elem_of_In|]. by apply Z.eqb_eq.
Qed.

Section Spec.
Context {B St : Type} `{!Serializable B ArchiveRequest, !Serializable B (ObjectHeader B)}.
Context `{!Serializable bytes ChecksumPb, !Backend B St}.
Implicit Types (o : ObjectOps B ArchiveRequest) (r : ArchiveRequest).

Lemma ar_writable_ok o : writable o → ar_writable o = (Ok tt, o).
Proof.
  intros H. unfold ar_writable, get, mbind, M_bind, lift. by rewrite (proj2 (checkPayloadWritable_ok o) H).
Qed.

(** ** Commit *)
Lemma tapepool_count_cons tp j jobs :
  tapepool_count tp (j :: jobs) = ((if decide (aj_tapepool j = tp) then 1 else 0) + tapepool_count tp jobs)%nat.
Proof. unfold tapepool_count. rewrite filter_cons. by case_decide. Qed.

Lemma tapepool_count_zero tp jobs : tapepool_count tp jobs = 0%nat ↔ tp ∉ aj_tapepool <$> jobs.
Proof.
  induction jobs as [|j jobs IH]; [split; [intros _; apply not_elem_of_nil|done]|].
  rewrite tapepool_count_cons, fmap_cons, not_elem_of_cons, <- IH.
  case_decide; split; [lia|naive_solver|naive_solver|naive_solver].
Qed.

Lemma tapepools_distinct jobs :
  Forall (λ j, tapepool_count (aj_tapepool j) jobs = 1%nat) jobs ↔ NoDup (aj_tapepool <$> jobs).
Proof.
  induction jobs as [|j jobs IH]; [split; constructor|].
  rewrite fmap_cons, NoDup_cons, Forall_cons, <- tapepool_count_zero, tapepool_count_cons, decide_True by done.
  assert (Hext : tapepool_count (aj_tapepool j) jobs = 0%nat →
    Forall (λ k, tapepool_count (aj_tapepool k) (j :: jobs) = 1%nat) jobs ↔
    Forall (λ k, tapepool_count (aj_tapepool k) jobs = 1%nat) jobs).
  { intros H0%tapepool_count_zero. rewrite !Forall_forall.
    apply forall_proper. intros k. apply forall_proper. intros Hk. rewrite tapepool_count_cons.
    rewrite decide_False; [done|]. intros E. apply H0. rewrite E. by apply list_elem_of_fmap_2. }
  split.
  - intros [H1 H2]. assert (H0 : tapepool_count (aj_tapepool j) jobs = 0%nat) by lia.
    split; [done|]. apply IH. by apply Hext.
  - intros [H0 Hnd]. split; [lia|]. apply Hext; [done|]. by apply IH.
Qed.

(** a request with two copies in one tape pool is never committed.  Through a
    handle that may write, the commit is accepted exactly when the tape pools of
    the jobs are distinct; it then stores the request, and otherwise throws and
    changes nothing. *)
Lemma request_commit_distinct_pools o s :
  be_wf s → writable o → checkPayloadReadable o = Ok tt → m_existingObject (m_flags o) = true →
  m_nameSet o = true → h_type (m_header o) = ArchiveRequest_t → is_Some (be_view s !! m_name o) →
  (NoDup (aj_tapepool <$> ar_jobs (m_payload o)) →
     ∃ s', request_commit (o, s) = (Ok tt, (push_payload o, s')) ∧
       stored s' (m_name o) = Some (m_header (push_payload o), m_payload o)) ∧
  (¬ NoDup (aj_tapepool <$> ar_jobs (m_payload o)) →
     ∃ e, request_commit (o, s) = (Throw e, (o, s))).
Proof.
  intros Hwf Hw Hr He Hn Ht Hex. unfold request_commit.
  assert (Hstep : ∀ k : M (HState B ArchiveRequest St) unit,
    (o ← self; _ ← lift (checkPayloadWritable o); _ ← lift (checkPayloadReadable o);
     if forallb (λ j, (tapepool_count (aj_tapepool j) (ar_jobs (m_payload o)) =? 1)%nat) (ar_jobs (m_payload o))
     then commit else k) (o, s) =
    (if decide (NoDup (aj_tapepool <$> ar_jobs (m_payload o))) then commit else k) (o, s)).
  { intros k. unfold self, gets, lift, mbind, M_bind. simpl.
    rewrite (proj2 (checkPayloadWritable_ok o) Hw), Hr.
    assert (Hb : forallb (λ j, (tapepool_count (aj_tapepool j) (ar_jobs (m_payload o)) =? 1)%nat) (ar_jobs (m_payload o)) =
      bool_decide (NoDup (aj_tapepool <$> ar_jobs (m_payload o)))).
    { apply eq_true_iff_eq. rewrite bool_decide_eq_true, <- tapepools_distinct, forallb_forall, Forall_forall.
      setoid_rewrite <- list_elem_of_In. by setoid_rewrite Nat.eqb_eq. }
    rewrite Hb. by case_bool_decide; case_decide. }
  rewrite Hstep. split; intros Hnd.
  - rewrite decide_True by done.
    destruct (commit_spec s o) as (s' & E & _ & _ & Hst); try done.
    exists s'. split; [done|]. by rewrite Hst, decide_True.
  - rewrite decide_False by done. unfold throw. eauto.
Qed.

(** ** Transfer failures *)

(** The decision after a failure, for the job with its counters updated. *)
Definition failure_step r (j : ArchiveJob) : EnqueueingNextStep :=
  if aj_maxtotalretries j <=? aj_totalretries j then
    if ar_isrepack r then mkNextStep EnqueueForReportForRepack AJS_ToReportToRepackForFailure
    else if ar_reportdecided r then mkNextStep StoreInFailedJobsContainer AJS_Failed
    else mkNextStep EnqueueForReportForUser AJS_ToReportToUserForFailure
  else
    let st := if ar_isrepack r then AJS_ToTransferForRepack else AJS_ToTransferForUser in
    if aj_maxretrieswithinmount j <=? aj_retrieswithinmount j then mkNextStep Nothing st
    else mkNextStep (if ar_isrepack r then EnqueueForTransferForRepack else EnqueueForTransferForUser) st.

Definition failure_decided r (j : ArchiveJob) : bool :=
  (aj_maxtotalretries j <=? aj_totalretries j) || ar_reportdecided r.

Definition failed_request (cn : Z) (j : ArchiveJob) r : ArchiveRequest :=
  ar_set_flags (failure_decided r j) (ar_isrepack r) (ar_set_jobs (update_job cn (λ _, j) (ar_jobs r)) r).

Lemma addTransferFailure_spec cn m why j o :
  writable o → find_job cn (ar_jobs (m_payload o)) = Some j →
  let j' := count_transfer_failure m why j in
  addTransferFailure cn m why o =
    (Ok (failure_step (m_payload o) j'), with_payload (failed_request cn j' (m_payload o)) o).
Proof.
  intros Hw Hj j'. unfold addTransferFailure. mstep (ar_writable_ok o Hw).
  unfold ar_payload, gets, mbind at 1, M_bind at 1. rewrite Hj. fold j'.
  unfold ar_modify at 1, modify, mbind at 1, M_bind at 1.
  set (o1 := with_payload (ar_set_jobs (update_job cn (λ _, j') (ar_jobs (m_payload o))) (m_payload o)) o).
  unfold failure_step, failed_request, failure_decided.
  destruct (aj_maxtotalretries j' <=? aj_totalretries j').
  - unfold determineNextStep. mstep (ar_writable_ok o1 Hw).
    unfold ar_payload, gets, mbind at 1, M_bind at 1.
    rewrite (existsb_find cn (ar_jobs (m_payload o1)) j').
    2:{ apply (find_update_same cn (λ _, j') _ j); [done|]. by apply find_job_Some in Hj as [_ ?]. }
    simpl ar_reportdecided. simpl ar_isrepack.
    destruct (ar_reportdecided (m_payload o)) eqn:Er; simpl.
    + destruct o as [? ? ? [] ?]. simpl in *. subst. done.
    + destruct o as [? ? ? [] ?]. simpl in *. subst. done.
  - by destruct o as [? ? ? [] ?].
Qed.

(** A series of failures of one copy, by mount and reason. *)
Definition fail_all (cn : Z) (ms : list (Z * string)) : M (ObjectOps B ArchiveRequest) unit :=
  mfor ms (λ m, _ ← addTransferFailure cn (fst m) (snd m); mret tt).

Definition count_all (j : ArchiveJob) (ms : list (Z * string)) : ArchiveJob :=
  foldl (λ j m, count_transfer_failure (fst m) (snd m) j) j ms.

(** Length of the series of equal mounts at the end. *)
Fixpoint leading (x : Z) (l : list Z) : Z :=
  match l with y :: l' => if y =? x then 1 + leading x l' else 0 | [] => 0 end.
Definition trailing (l : list Z) : Z :=
  match reverse l with x :: l' => 1 + leading x l' | [] => 0 end.

(** A job that was not tried yet. *)
Definition fresh_job (j : ArchiveJob) : Prop :=
  aj_totalretries j = 0 ∧ aj_retrieswithinmount j = 0 ∧ aj_lastmountwithfailure j = 0 ∧ aj_failurelogs j = [].

Lemma trailing_snoc l x :
  trailing (l ++ [x]) = 1 + (if decide (last l = Some x) then trailing l else 0).
Proof.
  unfold trailing. rewrite reverse_snoc. f_equal. destruct l as [|y l _] using rev_ind; [done|].
  rewrite last_snoc, reverse_snoc. simpl. destruct (Z.eqb_spec y x) as [->|Hne].
  - by rewrite decide_True.
  - rewrite decide_False; [done|]. congruence.
Qed.

Lemma trailing_bounds l : 0 <= trailing l <= Z.of_nat (length l).
Proof.
  induction l as [|x l IH] using rev_ind; [done|]. rewrite trailing_snoc, length_app. simpl.
  case_decide; lia.
Qed.

Lemma count_all_spec j ms :
  fresh_job j → Z.of_nat (length ms) < 2 ^ 32 →
  let j' := count_all j ms in
  aj_totalretries j' = Z.of_nat (length ms) ∧ aj_retrieswithinmount j' = trailing (fst <$> ms) ∧
  aj_lastmountwithfailure j' = default 0 (last (fst <$> ms)) ∧ aj_failurelogs j' = snd <$> ms ∧
  aj_maxtotalretries j' = aj_maxtotalretries j ∧ aj_maxretrieswithinmount j' = aj_maxretrieswithinmount j ∧
  aj_copynb j' = aj_copynb j ∧ aj_status j' = aj_status j.
Proof.
  intros (H1 & H2 & H3 & H4). induction ms as [|[m why] ms IH] using rev_ind; intros Hl; [done|].
  rewrite length_app in Hl. simpl in Hl.
  destruct IH as (I1 & I2 & I3 & I4 & I5 & I6 & I7 & I8); [lia|].
  unfold count_all. rewrite foldl_app. simpl. fold (count_all j ms).
  rewrite !fmap_app, length_app, I1, I4, I3, I2. simpl.
  rewrite u32_small by (unfold in_u32; lia).
  split; [lia|]. split; [|rewrite last_snoc; by split_and!].
  rewrite trailing_snoc. pose proof (trailing_bounds (fst <$> ms)) as Ht. rewrite length_fmap in Ht.
  rewrite u32_small by (unfold in_u32; lia).
  destruct (last (fst <$> ms)) as [x|] eqn:E; simpl.
  - destruct (Z.eqb_spec x m) as [->|Hne]; [rewrite decide_True by done; lia|].
    rewrite decide_False by congruence. lia.
  - apply last_None in E. rewrite E. simpl. by destruct m.
Qed.

Lemma update_update cn (j1 j2 : ArchiveJob) jobs j :
  find_job cn jobs = Some j → aj_copynb j1 = cn →
  update_job cn (λ _, j2) (update_job cn (λ _, j1) jobs) = update_job cn (λ _, j2) jobs.
Proof.
  unfold find_job. intros H H1. induction jobs as [|k jobs IH]; simpl in *; [done|].
  destruct (aj_copynb k =? cn) eqn:E; simpl.
  - by rewrite H1, Z.eqb_refl.
  - rewrite E. by rewrite IH.
Qed.

(** Failures below the maximum only change the counters of the job. *)
Lemma fail_all_spec cn ms j o :
  writable o → find_job cn (ar_jobs (m_payload o)) = Some j → fresh_job j →
  Z.of_nat (length ms) < 2 ^ 32 → Z.of_nat (length ms) < aj_maxtotalretries j →
  let r' := ar_set_jobs (update_job cn (λ _, count_all j ms) (ar_jobs (m_payload o))) (m_payload o) in
  fail_all cn ms o = (Ok tt, with_payload r' o).
Proof.
  intros Hw Hj Hfr Hl Hm. induction ms as [|[m why] ms IH] using rev_ind.
  - simpl. destruct (update_job_split _ _ _ Hj) as (l1 & l2 & E & Hu). unfold count_all. simpl.
    rewrite Hu, <- E. destruct o as [? ? ? [] ?]. done.
  - rewrite length_app in Hl, Hm. simpl in Hl, Hm. specialize (IH ltac:(lia) ltac:(lia)).
    unfold fail_all in *. rewrite mfor_app. mstep IH. simpl mfor.
    destruct (count_all_spec j ms Hfr ltac:(lia)) as (C1 & C2 & C3 & C4 & C5 & C6 & C7 & C8).
    assert (Hcn : aj_copynb (count_all j ms) = cn) by (rewrite C7; by apply find_job_Some in Hj as [_ ?]).
    set (o1 := with_payload _ o).
    assert (Hj1 : find_job cn (ar_jobs (m_payload o1)) = Some (count_all j ms)).
    { by apply (find_update_same cn (λ _, count_all j ms) _ j). }
    pose proof (addTransferFailure_spec cn m why _ o1 Hw Hj1) as E. cbv zeta in E.
    unfold mbind at 1, M_bind at 1. unfold mbind at 1, M_bind at 1. rewrite E.
    unfold mret, M_ret. f_equal. unfold count_all at 2. rewrite foldl_app. simpl. fold (count_all j ms).
    unfold failed_request, failure_decided. simpl.
    rewrite C1, C5, u32_small by (unfold in_u32; lia).
    rewrite (proj2 (Z.leb_gt _ _)) by lia. simpl.
    rewrite (update_update cn _ _ _ j) by done. unfold o1, with_payload, ar_set_flags. simpl.
    done.
Qed.

(** C16: retries are counted and bounded.  Let a job fail for the mounts and
    reasons [ms] and then once more, with at most as many failures as allowed in
    total.  No failure throws; the job then has the total number of failures, the
    length of the last series on one mount and all reasons in order, and the other
    copies are untouched.  The last decision is: below the total, the job goes back
    to be transferred, to the same mount only while the series is shorter than the
    limit within a mount; at the total, the failure is reported at once, to the
    repack request or to the user, or the job is stored as failed when a report was
    already decided.  (The comment in [determineNextStep] announces another policy:
    a failed job that is not the last is stored as failed and the last one reports.
    The code does not look at the other jobs.) *)
Theorem transfer_failures_counted cn ms m why j o :
  writable o → find_job cn (ar_jobs (m_payload o)) = Some j → fresh_job j →
  Z.of_nat (length ms) + 1 < 2 ^ 32 → Z.of_nat (length ms) + 1 <= aj_maxtotalretries j →
  let r := m_payload o in
  let n := Z.of_nat (length ms) + 1 in
  let series := trailing ((fst <$> ms) ++ [m]) in
  ∃ step o' j', (_ ← fail_all cn ms; addTransferFailure cn m why) o = (Ok step, o') ∧
    find_job cn (ar_jobs (m_payload o')) = Some j' ∧
    aj_totalretries j' = n ∧ aj_retrieswithinmount j' = series ∧ aj_failurelogs j' = (snd <$> ms) ++ [why] ∧
    (∀ cn', cn' ≠ cn → find_job cn' (ar_jobs (m_payload o')) = find_job cn' (ar_jobs r)) ∧
    (n < aj_maxtotalretries j →
       nextStatus step = (if ar_isrepack r then AJS_ToTransferForRepack else AJS_ToTransferForUser) ∧
       nextStep step = (if aj_maxretrieswithinmount j <=? series then Nothing
                        else if ar_isrepack r then EnqueueForTransferForRepack else EnqueueForTransferForUser) ∧
       ar_reportdecided (m_payload o') = ar_reportdecided r) ∧
    (n = aj_maxtotalretries j →
       step = (if ar_isrepack r then mkNextStep EnqueueForReportForRepack AJS_ToReportToRepackForFailure
               else if ar_reportdecided r then mkNextStep StoreInFailedJobsContainer AJS_Failed
               else mkNextStep EnqueueForReportForUser AJS_ToReportToUserForFailure) ∧
       ar_reportdecided (m_payload o') = true).
Proof.
  intros Hw Hj Hfr Hl Hm r n series.
  pose proof (fail_all_spec cn ms j o Hw Hj Hfr ltac:(lia) ltac:(lia)) as E1. cbv zeta in E1.
  set (o1 := with_payload _ o) in E1.
  destruct (count_all_spec j ms Hfr ltac:(lia)) as (_ & _ & _ & _ & _ & _ & C7 & _).
  assert (Hcn : aj_copynb (count_all j ms) = cn) by (rewrite C7; by apply find_job_Some in Hj as [_ ?]).
  assert (Hj1 : find_job cn (ar_jobs (m_payload o1)) = Some (count_all j ms)).
  { by apply (find_update_same cn (λ _, count_all j ms) _ j). }
  pose proof (addTransferFailure_spec cn m why _ o1 Hw Hj1) as E2. cbv zeta in E2.
  destruct (count_all_spec j (ms ++ [(m, why)]) Hfr) as (D1 & D2 & _ & D4 & D5 & D6 & D7 & _).
  { rewrite length_app. simpl. lia. }
  set (j' := count_transfer_failure m why (count_all j ms)) in *.
  assert (Ej : count_all j (ms ++ [(m, why)]) = j') by (unfold count_all; by rewrite foldl_app).
  rewrite Ej in D1, D2, D4, D5, D6, D7. clear Ej. clearbody j'.
  rewrite fmap_app in D2. rewrite fmap_app in D4. rewrite length_app in D1.
  assert (Dn : aj_totalretries j' = n) by (rewrite D1; unfold n; simpl; lia). clear D1.
  do 2 eexists. exists j'. mstep E1. split; [exact E2|].
  split; [by apply (find_update_same cn (λ _, j') _ (count_all j ms)); [|rewrite D7; apply find_job_Some in Hj as [_ ?]]|].
  do 2 (split; [done|]). split; [done|]. split; [|split].
  - intros cn' Hne. simpl. rewrite !find_update_other; try done; intros; by rewrite ?D7, ?C7; apply find_job_Some in Hj as [_ ?].
  - intros Hlt. unfold failure_step, failed_request, failure_decided. simpl.
    rewrite D5, D6, D2, Dn, (proj2 (Z.leb_gt _ _)) by lia. simpl. fold series.
    by destruct (aj_maxretrieswithinmount j <=? _).
  - intros Heq. unfold failure_step, failed_request, failure_decided. simpl.
    rewrite D5, Dn, Heq, Z.leb_refl. done.
Qed.
End Spec.
