(* ===== verification/ArchiveReport.v ===== *)
(** * Reports and ownership of archive requests

    The life of the jobs of a user request as a step relation over failed and
    successful transfers, with the number of reports it leads to; the hand-over of
    a job between owners; the destinations gathered for a repack. *)
From S2P Require Import Prelude DataTypes Backend ObjectOps Checksum ArchiveFile ArchiveRequest ArchiveRequestSpec.

(** ** Counting jobs by status *)
Definition to_transfer (j : ArchiveJob) : Prop := aj_status j = AJS_ToTransferForUser.
Definition reporting (j : ArchiveJob) : Prop :=
  aj_status j = AJS_ToReportToUserForTransfer ∨ aj_status j = AJS_ToReportToUserForFailure.

#[export] Instance to_transfer_dec j : Decision (to_transfer j).
Proof. unfold to_transfer. apply _. Defined.
#[export] Instance reporting_dec j : Decision (reporting j).
Proof. unfold reporting. apply _. Defined.

Definition transfers (jobs : list ArchiveJob) : nat := length (filter to_transfer jobs).
Definition reports (jobs : list ArchiveJob) : nat := length (filter reporting jobs).

(** The reports of a success and those of a failure. *)
Definition with_status (st : ArchiveJobStatus) (jobs : list ArchiveJob) : nat :=
  length (filter (λ j, aj_status j = st) jobs).
Definition success_reports : list ArchiveJob → nat := with_status AJS_ToReportToUserForTransfer.
Definition failure_reports : list ArchiveJob → nat := with_status AJS_ToReportToUserForFailure.

Lemma with_status_split st l1 j l2 :
  with_status st (l1 ++ j :: l2) =
    (with_status st l1 + with_status st l2 + if decide (aj_status j = st) then 1 else 0)%nat.
Proof. unfold with_status. rewrite filter_app, filter_cons, length_app. case_decide; simpl; lia. Qed.

Lemma with_status_none st jobs : Forall (λ j, aj_status j ≠ st) jobs → with_status st jobs = 0%nat.
Proof. intros H. unfold with_status. by rewrite list_filter_none. Qed.

Lemma reports_sum jobs : reports jobs = (success_reports jobs + failure_reports jobs)%nat.
Proof.
  unfold reports, success_reports, failure_reports, with_status, reporting.
  induction jobs as [|j jobs IH]; [done|]. rewrite !filter_cons.
  repeat case_decide; simpl in *; try lia; exfalso; intuition congruence.
Qed.

Lemma transfers_split l1 j l2 :
  transfers (l1 ++ j :: l2) = (transfers l1 + transfers l2 + if decide (to_transfer j) then 1 else 0)%nat.
Proof. unfold transfers. rewrite filter_app, filter_cons, length_app. case_decide; simpl; lia. Qed.

Lemma reports_split l1 j l2 :
  reports (l1 ++ j :: l2) = (reports l1 + reports l2 + if decide (reporting j) then 1 else 0)%nat.
Proof. unfold reports. rewrite filter_app, filter_cons, length_app. case_decide; simpl; lia. Qed.

Lemma transfers_zero l : transfers l = 0%nat ↔ Forall (λ j, ¬ to_transfer j) l.
Proof.
  unfold transfers. induction l as [|j l IH]; [by split; [constructor|]|].
  rewrite filter_cons, Forall_cons. case_decide; simpl; [|tauto]. split; [lia|tauto].
Qed.

(** ** Destinations of a repack *)
Lemma read_entries (l : list (Z * string)) m k :
  NoDup (fst <$> l) →
  read_destinations ((λ kv, mkDestination (snd kv) (fst kv)) <$> l) m !! k =
    match (list_to_map l : gmap Z string) !! k with Some v => Some v | None => m !! k end.
Proof.
  unfold read_destinations. revert m. induction l as [|[k0 v0] l IH]; intros m Hnd; [done|].
  rewrite fmap_cons in Hnd. rewrite fmap_cons. apply NoDup_cons in Hnd as [Hk Hnd]. cbn [foldl copy_nb destination_vid fst snd].
  rewrite IH by done. simpl list_to_map. destruct (decide (k = k0)) as [->|Hne].
  - by rewrite (not_elem_of_list_to_map_1 l k0), !lookup_insert_eq by done.
  - by rewrite !lookup_insert_ne by done.
Qed.

(** Destinations written again after older ones override them. *)
Lemma read_added (m : gmap Z string) l :
  read_destinations (add_destinations m l) ∅ = m ∪ read_destinations l ∅.
Proof.
  apply map_eq. intros k. unfold add_destinations, read_destinations at 1. rewrite foldl_app.
  fold (read_destinations l ∅).
  fold (read_destinations ((λ kv, mkDestination (snd kv) (fst kv)) <$> map_to_list m) (read_destinations l ∅)).
  rewrite read_entries by apply NoDup_fst_map_to_list. rewrite list_to_map_to_list, lookup_union.
  by destruct (m !! k), (read_destinations l ∅ !! k).
Qed.

Section Report.
Context {B St : Type} `{!Serializable B ArchiveRequest, !Serializable B (ObjectHeader B)}.
Context `{!Serializable bytes ChecksumPb, !Backend B St}.
Implicit Types (o : ObjectOps B ArchiveRequest) (r : ArchiveRequest).

(** ** The updates of the stored request *)
Lemma parse_stored s n h r :
  stored (B:=B) s n = Some (h, r) →
  ∃ c, be_view s !! n = Some c ∧ ∀ what, parse_request what c = Ok (h, r).
Proof.
  intros (c & Hc & Hh & Ht & Hp)%stored_view. exists c. split; [done|]. intros what.
  unfold parse_request. rewrite Hh. simpl in Ht. rewrite decide_True by done. by rewrite Hp.
Qed.

Lemma stored_payload_bytes s s' n h r r' :
  be_view s' = <[n := SerializeAsString (set_payload_bytes h r')]> (be_view s) →
  stored (B:=B) s n = Some (h, r) →
  stored s' n = Some (set_payload_bytes h r', r') ∧ ∀ m, m ≠ n → be_view s' !! m = be_view s !! m.
Proof.
  intros Hv (c & Hc & Hh & Ht & Hp)%stored_view. split.
  - unfold stored. rewrite Hv, lookup_insert_eq, parse_serialize. simpl in Ht |- *.
    rewrite decide_True by done. by rewrite parse_serialize.
  - intros m Hm. by rewrite Hv, lookup_insert_ne.
Qed.

(** The decision after a success: silent when another copy is still to be
    transferred or, according to the payload of the handle, a report was decided. *)
Definition silent_success (handle : ArchiveRequest) (cn : Z) (jobs : list ArchiveJob) : bool :=
  existsb (λ j, negb (aj_copynb j =? cn) && bool_decide (aj_status j = AJS_ToTransferForUser)) jobs
  || ar_reportdecided handle.

Definition succeeded_job (silent : bool) (j : ArchiveJob) : ArchiveJob :=
  if silent then aj_set_owner "" (aj_set_status AJS_Complete j)
  else aj_set_status AJS_ToReportToUserForTransfer j.

Lemma success_spec o s h r cn vid j :
  be_wf s → m_nameSet o = true → stored s (m_name o) = Some (h, r) → ar_isrepack r = false →
  find_job cn (ar_jobs r) = Some j →
  let silent := silent_success (m_payload o) cn (ar_jobs r) in
  let r' := ar_set_jobs (update_job cn (succeeded_job silent) (ar_jobs r)) r in
  ∃ ts s', asyncUpdateTransferSuccessful vid cn (o, s) = (Ok (Some ts), (o, s')) ∧ be_wf s' ∧
    m_doReportTransferSuccess ts = Some (negb silent) ∧
    stored s' (m_name o) = Some (set_payload_bytes h r', r').
Proof.
  intros Hwf Hn Hst Hre Hj silent r'. destruct (parse_stored _ _ _ _ Hst) as (c & Hc & Hparse).
  assert (Hf : update_success (m_payload o) vid cn c =
    Ok (SerializeAsString (set_payload_bytes h r'), mkSuccess (Some (negb silent)) (mkRepackInfo false 0 "" "" ∅))).
  { unfold update_success. rewrite Hparse. simpl. by rewrite Hj, Hre. }
  destruct (asyncUpdate_ok _ _ s c _ _ Hwf Hc Hf) as (s' & E & Hwf' & Hv).
  destruct (stored_payload_bytes s s' _ h r r' Hv Hst) as [Hst' _].
  eexists _, s'. split; [|split; [done|split; [|done]]].
  - unfold asyncUpdateTransferSuccessful. unfold self, gets, lift, on_store, mbind, M_bind. simpl.
    rewrite getAddressIfSet_ok by done. rewrite E. done.
  - done.
Qed.

(** ** The life of a user request

    A transfer of one copy fails: the failure is added through a handle that may
    write and the status given back is set.  A transfer succeeds: the request is
    updated in the backend.  The callers do that through a handle that was never
    fetched, whose payload is the default one ([fetched = false]); with
    [fetched = true] the payload of the handle is the stored one. *)
Inductive report_step (fetched : bool) : ArchiveRequest → ArchiveRequest → Prop :=
  | step_failure o o1 o2 cn mount why j step :
      writable o → find_job cn (ar_jobs (m_payload o)) = Some j → to_transfer j →
      addTransferFailure cn mount why o = (Ok step, o1) →
      setJobStatus cn (nextStatus step) o1 = (Ok tt, o2) →
      report_step fetched (m_payload o) (m_payload o2)
  | step_success o s s' h h' r r' cn vid j ts :
      be_wf s → m_nameSet o = true → stored s (m_name o) = Some (h, r) →
      m_payload o = (if fetched then r else default_message) →
      find_job cn (ar_jobs r) = Some j → to_transfer j →
      asyncUpdateTransferSuccessful vid cn (o, s) = (Ok (Some ts), (o, s')) →
      stored s' (m_name o) = Some (h', r') →
      report_step fetched r r'.

(** A user request before any transfer. *)
Definition new_request r : Prop :=
  ar_isrepack r = false ∧ ar_reportdecided r = false ∧ NoDup (aj_copynb <$> ar_jobs r) ∧
  ar_jobs r ≠ [] ∧ Forall to_transfer (ar_jobs r).

(** Invariant: a failure is to be reported exactly when that was decided, a success
    only when nothing is left to transfer, and then there is a report; the two kinds
    exclude each other when the decision is read in the stored request. *)
Definition report_inv (fetched : bool) r : Prop :=
  ar_isrepack r = false ∧ NoDup (aj_copynb <$> ar_jobs r) ∧
  failure_reports (ar_jobs r) = (if ar_reportdecided r then 1 else 0)%nat ∧
  (success_reports (ar_jobs r) <= if decide (transfers (ar_jobs r) = 0%nat) then 1 else 0)%nat ∧
  (transfers (ar_jobs r) = 0%nat → (1 <= success_reports (ar_jobs r) + failure_reports (ar_jobs r))%nat) ∧
  (fetched = true → (success_reports (ar_jobs r) + failure_reports (ar_jobs r) <= 1)%nat).

Lemma new_request_inv fetched r : new_request r → report_inv fetched r.
Proof.
  intros (H1 & H2 & H3 & H4 & H5).
  assert (Ht : transfers (ar_jobs r) ≠ 0%nat).
  { destruct (ar_jobs r) as [|j l]; [done|]. rewrite transfers_zero. intros Hf.
    apply Forall_cons in Hf as [Hf _], H5 as [H5 _]. done. }
  assert (Hno : ∀ st, st ≠ AJS_ToTransferForUser → with_status st (ar_jobs r) = 0%nat).
  { intros st Hst. apply with_status_none. eapply Forall_impl; [exact H5|]. unfold to_transfer. congruence. }
  unfold report_inv, success_reports, failure_reports. rewrite H2, !Hno by done.
  rewrite decide_False by done. split_and!; (done || lia).
Qed.

(** Replacing the only job with a copy number. *)
Lemma update_copynbs cn f jobs :
  (∀ j, aj_copynb (f j) = aj_copynb j) → aj_copynb <$> update_job cn f jobs = aj_copynb <$> jobs.
Proof.
  intros Hf. induction jobs as [|j jobs IH]; [done|]. simpl update_job.
  destruct (aj_copynb j =? cn); rewrite !fmap_cons; [by rewrite Hf|by rewrite IH].
Qed.

Lemma other_transfers cn jobs j :
  NoDup (aj_copynb <$> jobs) → find_job cn jobs = Some j →
  ∃ l1 l2, jobs = l1 ++ j :: l2 ∧ (∀ f, update_job cn f jobs = l1 ++ f j :: l2) ∧
    existsb (λ j, negb (aj_copynb j =? cn) && bool_decide (aj_status j = AJS_ToTransferForUser)) jobs =
      bool_decide (transfers l1 + transfers l2 ≠ 0)%nat.
Proof.
  intros Hnd Hj. destruct (update_job_split _ _ _ Hj) as (l1 & l2 & E & Hu). exists l1, l2.
  split; [done|]. split; [done|]. apply find_job_Some in Hj as [_ Hcn].
  assert (Hoth : ∀ k, k ∈ l1 ++ l2 → aj_copynb k ≠ cn).
  { intros k Hk Heq. rewrite E, fmap_app, fmap_cons, Hcn in Hnd.
    apply NoDup_app in Hnd as (_ & Hd & [Hn _]%NoDup_cons). apply elem_of_app in Hk as [Hk|Hk].
    - apply (Hd cn); [|left]. rewrite <- Heq. by apply list_elem_of_fmap_2.
    - apply Hn. rewrite <- Heq. by apply list_elem_of_fmap_2. }
  apply eq_true_iff_eq. rewrite bool_decide_eq_true, existsb_exists.
  assert (Hz : (transfers l1 + transfers l2 = 0)%nat ↔ Forall (λ j, ¬ to_transfer j) (l1 ++ l2)).
  { rewrite Forall_app, <- !transfers_zero. lia. }
  rewrite Hz, Forall_forall. split.
  - intros (k & Hk%list_elem_of_In & [Hk1 Hk2]%andb_true_iff) Hf.
    apply negb_true_iff, Z.eqb_neq in Hk1. apply bool_decide_eq_true in Hk2.
    rewrite E, elem_of_app, elem_of_cons in Hk. destruct Hk as [Hk|[->|Hk]]; [|done|];
      (eapply Hf; [|exact Hk2]); rewrite elem_of_app; auto.
  - intros Hn. destruct (decide (Exists to_transfer (l1 ++ l2))) as [Hex|Hex].
    + apply Exists_exists in Hex as (k & Hk & Hkt). exists k.
      rewrite E, <- list_elem_of_In, elem_of_app, elem_of_cons, andb_true_iff, negb_true_iff, Z.eqb_neq,
        bool_decide_eq_true. split; [rewrite elem_of_app in Hk; tauto|]. split; [by apply Hoth|done].
    + destruct Hn. intros k Hk Hkt. apply Hex. apply Exists_exists. eauto.
Qed.

Lemma update_update_status cn (j' : ArchiveJob) st jobs j l1 l2 :
  find_job cn jobs = Some j → aj_copynb j' = cn → (∀ f, update_job cn f jobs = l1 ++ f j :: l2) →
  update_job cn (aj_set_status st) (update_job cn (λ _, j') jobs) = l1 ++ aj_set_status st j' :: l2.
Proof.
  intros Hj Hc Hu. rewrite <- (Hu (λ _, aj_set_status st j')). clear Hu. unfold find_job in Hj.
  induction jobs as [|k jobs IH]; simpl in *; [done|]. destruct (aj_copynb k =? cn) eqn:E; simpl.
  - by rewrite Hc, Z.eqb_refl.
  - rewrite E. by rewrite IH.
Qed.

Lemma setJobStatus_spec cn st o j :
  writable o → find_job cn (ar_jobs (m_payload o)) = Some j →
  setJobStatus cn st o = (Ok tt, with_payload
    (ar_set_jobs (update_job cn (aj_set_status st) (ar_jobs (m_payload o))) (m_payload o)) o).
Proof.
  intros Hw Hj. unfold setJobStatus. mstep (ar_writable_ok o Hw).
  unfold ar_payload, gets, mbind, M_bind. by rewrite Hj.
Qed.

Lemma failure_preserves o o1 o2 cn mount why j step :
  writable o → find_job cn (ar_jobs (m_payload o)) = Some j → to_transfer j →
  addTransferFailure cn mount why o = (Ok step, o1) → setJobStatus cn (nextStatus step) o1 = (Ok tt, o2) →
  ∀ fetched, report_inv fetched (m_payload o) → report_inv fetched (m_payload o2).
Proof.
  intros Hw Hj Ht E1 E2 fetched (H1 & H2 & H3). rewrite (addTransferFailure_spec cn mount why j o Hw Hj) in E1.
  injection E1 as <- <-. set (j' := count_transfer_failure mount why j) in *.
  assert (Hcn : aj_copynb j' = cn) by (by apply find_job_Some in Hj as [_ ?]).
  erewrite setJobStatus_spec in E2; [|done|by apply (find_update_same cn (λ _, j') _ j)].
  injection E2 as <-. clearbody j'. destruct (other_transfers cn _ j H2 Hj) as (l1 & l2 & E & Hu & _).
  simpl. rewrite (update_update_status cn j' _ _ j l1 l2) by done.
  unfold success_reports, failure_reports in H3. unfold to_transfer in Ht.
  rewrite E, transfers_split, !with_status_split, Ht in H3. rewrite (decide_True (P := to_transfer j)) in H3 by done.
  simpl in H3.
  split; [done|]. split.
  { simpl. rewrite E, fmap_app, fmap_cons in H2. rewrite fmap_app, fmap_cons. simpl in *.
    apply find_job_Some in Hj as [_ Hj]. rewrite Hj in H2. by rewrite Hcn. }
  simpl. unfold success_reports, failure_reports. rewrite transfers_split, !with_status_split.
  unfold failure_step, failure_decided. rewrite H1.
  unfold to_transfer. destruct (aj_maxtotalretries j' <=? aj_totalretries j');
    destruct (ar_reportdecided (m_payload o)); simpl;
    try (destruct (aj_maxretrieswithinmount j' <=? aj_retrieswithinmount j')); simpl;
    repeat case_decide; simpl in *; simplify_eq; try lia; intuition lia.
Qed.

Lemma success_preserves (fetched : bool) o s s' h h' r r' cn vid j ts :
  be_wf s → m_nameSet o = true → stored s (m_name o) = Some (h, r) →
  m_payload o = (if fetched then r else default_message) →
  find_job cn (ar_jobs r) = Some j → to_transfer j →
  asyncUpdateTransferSuccessful vid cn (o, s) = (Ok (Some ts), (o, s')) →
  stored s' (m_name o) = Some (h', r') →
  report_inv fetched r → report_inv fetched r'.
Proof.
  intros Hwf Hn Hst Hp Hj Ht E Hst' (H1 & H2 & H3).
  destruct (success_spec o s h r cn vid j Hwf Hn Hst H1 Hj) as (ts' & s2 & E' & _ & _ & Hst2).
  rewrite E' in E. injection E as _ <-. rewrite Hst2 in Hst'. injection Hst' as _ <-.
  destruct (other_transfers cn _ j H2 Hj) as (l1 & l2 & El & Hu & Hex).
  assert (Hd : ar_reportdecided (m_payload o) = fetched && ar_reportdecided r) by (rewrite Hp; by destruct fetched).
  unfold silent_success. rewrite Hex, Hd. split; [done|]. split.
  { simpl. rewrite update_copynbs; [done|]. intros k. by destruct (_ || _). }
  simpl. unfold success_reports, failure_reports in *. rewrite Hu, transfers_split, !with_status_split.
  unfold to_transfer in Ht. rewrite El, transfers_split, !with_status_split, Ht in H3.
  rewrite (decide_True (P := to_transfer j)) in H3 by done. simpl in H3.
  destruct fetched, (ar_reportdecided r); cbn [andb]; rewrite ?orb_true_r, ?orb_false_r;
    unfold succeeded_job, to_transfer; try case_bool_decide; simpl;
    repeat case_decide; simpl in *; simplify_eq; try lia; intuition lia.
Qed.

Lemma report_step_preserves fetched r r' : report_step fetched r r' → report_inv fetched r → report_inv fetched r'.
Proof. destruct 1; [by eapply failure_preserves|by eapply success_preserves]. Qed.


(** The decision is read in the wrong payload: through a handle that was never
    fetched, the success of the last copy is reported to the user although the
    failure of another copy is already to be reported. *)
Theorem unfetched_success_reports_twice o s h r cn vid j :
  be_wf s → m_nameSet o = true → m_payload o = default_message → stored s (m_name o) = Some (h, r) →
  report_inv false r → ar_reportdecided r = true → find_job cn (ar_jobs r) = Some j → to_transfer j →
  transfers (ar_jobs r) = 1%nat →
  ∃ ts s' h' r', asyncUpdateTransferSuccessful vid cn (o, s) = (Ok (Some ts), (o, s')) ∧
    stored s' (m_name o) = Some (h', r') ∧ m_doReportTransferSuccess ts = Some true ∧
    reports (ar_jobs r') = 2%nat.
Proof.
  intros Hwf Hn Hp Hst (H1 & H2 & H3 & H4 & _) Hd Hj Ht Htr.
  destruct (success_spec o s h r cn vid j Hwf Hn Hst H1 Hj) as (ts & s' & E & _ & Hts & Hst').
  destruct (other_transfers cn _ j H2 Hj) as (l1 & l2 & El & Hu & Hex).
  rewrite Htr in H4. rewrite Hd in H3. rewrite decide_False in H4 by done.
  assert (Hr : reports (ar_jobs r) = 1%nat) by (rewrite reports_sum; lia).
  rewrite El, transfers_split, decide_True in Htr by done. rewrite El, reports_split in Hr.
  assert (Hs : silent_success (m_payload o) cn (ar_jobs r) = false).
  { unfold silent_success. rewrite Hex, Hp. simpl. rewrite orb_false_r. apply bool_decide_eq_false. lia. }
  rewrite Hs in *. exists ts, s'. do 2 eexists. split; [done|]. split; [done|]. split; [done|].
  assert (Hnr : ¬ reporting j) by (unfold reporting, to_transfer in *; rewrite Ht; naive_solver).
  rewrite decide_False in Hr by done.
  cbn [ar_jobs ar_set_jobs]. rewrite Hu, reports_split, decide_True by (by left). lia.
Qed.

(** ** Ownership *)
Definition owned (owner : string) (st : option ArchiveJobStatus) (j : ArchiveJob) : ArchiveJob :=
  match st with Some x => aj_set_status x (aj_set_owner owner j) | None => aj_set_owner owner j end.

Lemma owner_update_spec o s h r cn owner prev st j cs :
  be_wf s → m_nameSet o = true → stored s (m_name o) = Some (h, r) →
  cs_deserialize (ar_checksumblob r) = Ok cs → find_job cn (ar_jobs r) = Some j →
  let r' := ar_set_jobs (update_job cn (owned owner st) (ar_jobs r)) r in
  if decide (aj_owner j = owner ∨ aj_owner j = prev) then
    ∃ u s', asyncUpdateJobOwner cn owner prev st (o, s) = (Ok (Some u), (o, s')) ∧ be_wf s' ∧
      stored s' (m_name o) = Some (set_payload_bytes h r', r') ∧
      (∀ n, n ≠ m_name o → be_view s' !! n = be_view s !! n)
  else asyncUpdateJobOwner cn owner prev st (o, s) = (Throw WrongPreviousOwner, (o, s)).
Proof.
  intros Hwf Hn Hst Hcs Hj r'. destruct (parse_stored _ _ _ _ Hst) as (c & Hc & Hparse).
  assert (Hrun : ∀ x s', asyncUpdate (m_name o) (update_owner cn owner prev st) s = (x, s') →
    asyncUpdateJobOwner cn owner prev st (o, s) = (x, (o, s'))).
  { intros x s' E. unfold asyncUpdateJobOwner. unfold self, gets, lift, on_store, mbind, M_bind. simpl.
    rewrite getAddressIfSet_ok by done. by rewrite E. }
  case_decide as Hd.
  - assert (∃ u, update_owner cn owner prev st c = Ok (SerializeAsString (set_payload_bytes h r'), u)) as [u Hf].
    { unfold update_owner. rewrite Hparse. simpl. rewrite Hj.
      assert (negb (bool_decide (aj_owner j = owner)) && negb (bool_decide (aj_owner j = prev)) = false) as ->.
      { repeat case_bool_decide; simpl; tauto. }
      unfold file_of. simpl. rewrite Hcs. simpl. eexists. reflexivity. }
    destruct (asyncUpdate_ok _ _ s c _ _ Hwf Hc Hf) as (s' & E & Hwf' & Hv).
    destruct (stored_payload_bytes s s' _ h r r' Hv Hst) as [Hst' Hoth].
    exists u, s'. split; [by apply Hrun|]. by split_and!.
  - apply Hrun. eapply asyncUpdate_throw; [done|exact Hc| |done].
    unfold update_owner. rewrite Hparse. simpl. rewrite Hj.
    by rewrite !bool_decide_false by tauto.
Qed.

(** C18: of two agents that take over a job from the same owner, one wins.  When the
    first update of the owner of a copy, from [prev] to [a], has succeeded, the job
    is owned by [a] in the store and no other job changed; the update from [prev]
    to another agent [b] is refused and changes nothing; the first agent may repeat
    its update. *)
Theorem ownership_race o o2 s h r cn j cs a b prev st st2 :
  be_wf s → m_nameSet o = true → m_nameSet o2 = true → m_name o2 = m_name o →
  stored s (m_name o) = Some (h, r) → cs_deserialize (ar_checksumblob r) = Ok cs →
  find_job cn (ar_jobs r) = Some j → aj_owner j = prev → a ≠ prev → a ≠ b →
  ∃ u s' h' r', asyncUpdateJobOwner cn a prev st (o, s) = (Ok (Some u), (o, s')) ∧
    stored s' (m_name o) = Some (h', r') ∧
    (∃ j', find_job cn (ar_jobs r') = Some j' ∧ aj_owner j' = a) ∧
    (∀ cn', cn' ≠ cn → find_job cn' (ar_jobs r') = find_job cn' (ar_jobs r)) ∧
    asyncUpdateJobOwner cn b prev st2 (o2, s') = (Throw WrongPreviousOwner, (o2, s')) ∧
    ∃ u2 s2, asyncUpdateJobOwner cn a prev st (o, s') = (Ok (Some u2), (o, s2)).
Proof.
  intros Hwf Hn Hn2 Hname Hst Hcs Hj Ho Hap Hab.
  pose proof (owner_update_spec o s h r cn a prev st j cs Hwf Hn Hst Hcs Hj) as H. cbv zeta in H.
  rewrite decide_True in H by (by right). destruct H as (u & s' & E & Hwf' & Hst' & _).
  set (r' := ar_set_jobs _ r) in Hst'.
  assert (Hkeep : ∀ k, aj_copynb (owned a st k) = aj_copynb k) by (intros k; by destruct st).
  assert (Hj' : find_job cn (ar_jobs r') = Some (owned a st j)).
  { apply find_update_same; [done|]. rewrite Hkeep. by apply find_job_Some in Hj as [_ ?]. }
  assert (Hown : aj_owner (owned a st j) = a) by (by destruct st).
  exists u, s'. do 2 eexists. split; [done|]. split; [done|]. split; [by eexists|]. split; [|split].
  - intros cn' Hne. apply find_update_other; [done|]. intros k Hk. by rewrite Hkeep.
  - rewrite <- Hname in Hst'.
    pose proof (owner_update_spec o2 s' _ r' cn b prev st2 _ cs Hwf' Hn2 Hst' Hcs Hj') as H. cbv zeta in H.
    by rewrite Hown, decide_False in H by naive_solver.
  - pose proof (owner_update_spec o s' _ r' cn a prev st _ cs Hwf' Hn Hst' Hcs Hj') as H. cbv zeta in H.
    rewrite decide_True in H by (by left). destruct H as (u2 & s2 & E2 & _). eauto.
Qed.

(** ** Repack *)
Definition destinations r : gmap Z string := read_destinations (jobs_destination (ar_repack_info r)) ∅.

Lemma repack_success_spec o s h r cn vid j :
  be_wf s → m_nameSet o = true → stored s (m_name o) = Some (h, r) → ar_isrepack r = true →
  find_job cn (ar_jobs r) = Some j →
  ∃ ts s' h' r', asyncUpdateTransferSuccessful vid cn (o, s) = (Ok (Some ts), (o, s')) ∧ be_wf s' ∧
    stored s' (m_name o) = Some (h', r') ∧ ar_isrepack r' = true ∧
    ar_jobs r' = update_job cn (aj_set_status AJS_ToReportToRepackForSuccess) (ar_jobs r) ∧
    destinations r' = <[cn := vid]> (destinations r).
Proof.
  intros Hwf Hn Hst Hre Hj. destruct (parse_stored _ _ _ _ Hst) as (c & Hc & Hparse).
  set (r' := ar_set_jobs (update_job cn (aj_set_status AJS_ToReportToRepackForSuccess) (ar_jobs r))
    (ar_set_repack_info (mkRepackInfoPb (repack_request_address (ar_repack_info r))
       (file_buffer_url (ar_repack_info r)) (rip_fseq (ar_repack_info r))
       (add_destinations (<[cn := vid]> (destinations r)) (jobs_destination (ar_repack_info r)))) r)).
  assert (Hf : update_success (m_payload o) vid cn c = Ok (SerializeAsString (set_payload_bytes h r'), mkSuccess None
    (mkRepackInfo true (rip_fseq (ar_repack_info r)) (repack_request_address (ar_repack_info r))
       (file_buffer_url (ar_repack_info r)) (<[cn := vid]> (destinations r))))).
  { unfold update_success. rewrite Hparse. simpl. by rewrite Hj, Hre. }
  destruct (asyncUpdate_ok _ _ s c _ _ Hwf Hc Hf) as (s' & E & Hwf' & Hv).
  destruct (stored_payload_bytes s s' _ h r r' Hv Hst) as [Hst' _].
  eexists _, s', _, r'. split; [|split_and!; try done].
  - unfold asyncUpdateTransferSuccessful. unfold self, gets, lift, on_store, mbind, M_bind. simpl.
    rewrite getAddressIfSet_ok by done. by rewrite E.
  - unfold destinations. simpl. rewrite read_added. fold (destinations r).
    apply map_eq. intros k. rewrite lookup_union. destruct (decide (k = cn)) as [->|Hne].
    + rewrite !lookup_insert_eq. by destruct (destinations r !! cn).
    + rewrite !lookup_insert_ne by done. by destruct (destinations r !! k).
Qed.

(** Successive successful transfers of the copies of a repacked file. *)
Definition succeed_all (l : list (Z * string)) : M (HState B ArchiveRequest St) unit :=
  mfor l (λ x, _ ← asyncUpdateTransferSuccessful (snd x) (fst x); mret tt).

(** every copy written for a repack is reported with its destination.  After
    the successful transfers [l] (copy number and tape) of copies of a repack
    request, the stored request gives, by [getRepackInfo], the destination of each
    of these copies (the last one when a copy is repeated) on top of those known
    before, although the message only ever appends; each of these jobs is to be
    reported to the repack request and the other jobs are unchanged. *)
Lemma repack_destinations_accumulate l o s h r :
  be_wf s → m_nameSet o = true → stored s (m_name o) = Some (h, r) → ar_isrepack r = true →
  Forall (λ x, is_Some (find_job (fst x) (ar_jobs r))) l →
  ∃ s' h' r', succeed_all l (o, s) = (Ok tt, (o, s')) ∧ stored s' (m_name o) = Some (h', r') ∧
    destinations r' = foldl (λ m x, <[fst x := snd x]> m) (destinations r) l ∧
    (∀ cn j, find_job cn (ar_jobs r) = Some j →
       find_job cn (ar_jobs r') =
         Some (if decide (cn ∈ fst <$> l) then aj_set_status AJS_ToReportToRepackForSuccess j else j)).
Proof.
  intros Hwf Hn Hst Hre Hall. revert s h r Hwf Hst Hre Hall.
  induction l as [|[cn vid] l IH]; intros s h r Hwf Hst Hre Hall.
  - exists s, h, r. split; [done|]. split; [done|]. split; [done|]. intros cn j Hj.
    by rewrite decide_False by apply not_elem_of_nil.
  - apply Forall_cons in Hall as [[j Hj] Hall]. simpl in Hj.
    destruct (repack_success_spec o s h r cn vid j Hwf Hn Hst Hre Hj)
      as (ts & s1 & h1 & r1 & E1 & Hwf1 & Hst1 & Hre1 & Hjobs & Hd).
    assert (Hfind : ∀ cn' k, find_job cn' (ar_jobs r) = Some k → find_job cn' (ar_jobs r1) =
      Some (if decide (cn' = cn) then aj_set_status AJS_ToReportToRepackForSuccess k else k)).
    { intros cn' k Hk. rewrite Hjobs. case_decide as Hc.
      - subst cn'. apply find_update_same; [done|]. by apply find_job_Some in Hk as [_ ?].
      - rewrite find_update_other; [done|congruence|]. done. }
    destruct (IH s1 h1 r1 Hwf1 Hst1 Hre1) as (s2 & h2 & r2 & E2 & Hst2 & Hd2 & Hf2).
    { eapply Forall_impl; [exact Hall|]. intros [cn' v] [k Hk]. simpl in *. rewrite (Hfind _ _ Hk). eauto. }
    exists s2, h2, r2. split; [|split; [done|split]].
    + unfold succeed_all. simpl mfor. unfold mbind at 1, M_bind at 1. unfold mbind at 1, M_bind at 1.
      simpl. rewrite E1. exact E2.
    + by rewrite Hd2, Hd.
    + intros cn' k Hk. rewrite (Hf2 _ _ (Hfind _ _ Hk)). f_equal. csimpl.
      destruct (decide (cn' = cn)) as [->|Hne]; repeat case_decide; try done; set_solver.
Qed.

(** [getRepackInfo] gives these destinations. *)
Lemma getRepackInfo_spec o :
  checkPayloadReadable o = Ok tt →
  ∃ ri, getRepackInfo o = (Ok ri, o) ∧ jobsDestination ri = destinations (m_payload o).
Proof.
  intros Hr. unfold getRepackInfo, ar_readable, ar_payload, get, gets, lift, mbind, M_bind. rewrite Hr. eauto.
Qed.

(** ** File and failures *)

(** The file of a request is read back.  [setArchiveFile] followed by
    [getArchiveFile] gives the file without its tape copies, which a request does
    not hold; the jobs and the decision to report are untouched. *)
Lemma archive_file_set_get f o :
  writable o → checkPayloadReadable o = Ok tt → wf_archive_file f →
  ∃ o', setArchiveFile f o = (Ok tt, o') ∧ 
    getArchiveFile o' = (Ok (mkArchiveFile (archiveFileID f) (af_diskFileId f) (af_diskInstance f)
      (af_fileSize f) (af_checksumBlob f) (af_storageClass f) (af_diskFileInfo f) []
      (af_creationTime f) (af_reconciliationTime f)), o') ∧
    ar_jobs (m_payload o') = ar_jobs (m_payload o) ∧
    ar_reportdecided (m_payload o') = ar_reportdecided (m_payload o).
Proof.
  intros Hw Hr (H1 & H2 & H3 & _). unfold setArchiveFile. mstep (ar_writable_ok o Hw).
  eexists. split; [done|]. split; [|done].
  unfold getArchiveFile, ar_readable, ar_payload, get, gets, lift, mbind, M_bind. simpl.
  change (checkPayloadReadable (with_payload _ o)) with (checkPayloadReadable o). rewrite Hr.
  unfold file_of. simpl. rewrite cs_roundtrip by done. simpl. rewrite !s64_u64 by done.
  by destruct (af_diskFileInfo f).
Qed.

(** A failed report of a copy that is not the first job is not counted: the request
    is unchanged and the decision is taken from the counters of the first job. *)
Theorem report_failure_counts_first_job o cn session why j0 jobs :
  writable o → ar_jobs (m_payload o) = j0 :: jobs → aj_copynb j0 ≠ cn →
  addReportFailure cn session why o =
    (Ok (if aj_maxreportretries j0 <=? aj_totalreportretries j0
         then mkNextStep StoreInFailedJobsContainer AJS_Failed
         else mkNextStep EnqueueForReportForUser (aj_status j0)), o).
Proof.
  intros Hw Hj Hne. unfold addReportFailure. mstep (ar_writable_ok o Hw).
  unfold ar_payload, gets, mbind at 1, M_bind at 1. rewrite Hj.
  rewrite (proj2 (Z.eqb_neq _ _)) by done.
  unfold ar_modify, modify, mbind, M_bind, mret, M_ret. f_equal.
  destruct o as [? ? ? [] ?]. simpl in *. by rewrite <- Hj.
Qed.
End Report.
