(* ===== verification/ArchiveRequestExamples.v ===== *)
(** * A request with two copies

    A concrete archive request stored with [VFS], on which the theorems on archive
    requests are instantiated. *)
From S2P Require Import Prelude DataTypes Backend ObjectOps Checksum ArchiveFile ArchiveRequest ArchiveRequestSpec ArchiveReport.
Import Blob.
#[local] Existing Instance demo_codec.

Definition ex_copy (cn : Z) (pool : string) : ArchiveJob :=
  mkArchiveJob cn pool "" "agentA" AJS_ToTransferForUser 0 0 0 1 1 [] 2 0 [].

Definition ex_request (repack : bool) : ArchiveRequest :=
  mkArchiveRequest 12 empty_policy (cs_serialize demo_blob) 0 0 serializers.no_disk_info "" "" "" "" 1000
    (mkRequester "" "") "" "" (serializers.mkEntryLog "" "" 0) [ex_copy 1 "poolA"; ex_copy 2 "poolB"] false repack
    (mkRepackInfoPb "rr" "buf" 5 [mkDestination "OLD" 1]).

Definition ex_req_header (r : ArchiveRequest) : ObjectHeader (blob ArchiveRequest) :=
  mkHeader ArchiveRequest_t 0 "" "" (BMsg r).

(** A handle locked for writing, with the request in memory. *)
Definition ex_req_handle (r : ArchiveRequest) : ObjectOps (blob ArchiveRequest) ArchiveRequest :=
  mkOps true "request" (ex_req_header r) r (mkFlags true true true 1 1 false true false).

Definition ex_req_store (r : ArchiveRequest) : VFS.vfs (blob ArchiveRequest) :=
  VFS.mkVfs {["request" := BHdr ArchiveRequest_t 0 "" "" (BMsg r)]} {["request"]}.

Lemma ex_writable r : writable (ex_req_handle r).
Proof. split; [done|]. intros _. split; [done|by left]. Qed.

Lemma ex_stored r : stored (ex_req_store r) "request" = Some (ex_req_header r, r).
Proof. done. Qed.

Lemma ex_wf r : be_wf (ex_req_store r).
Proof. done. Qed.

Lemma request_commit_distinct_pools_witness :
  (NoDup (aj_tapepool <$> ar_jobs (ex_request false)) →
     ∃ s', request_commit (ex_req_handle (ex_request false), ex_req_store (ex_request false)) =
         (Ok tt, (push_payload (ex_req_handle (ex_request false)), s')) ∧
       stored s' "request" = Some (m_header (push_payload (ex_req_handle (ex_request false))), ex_request false)) ∧
  (¬ NoDup (aj_tapepool <$> ar_jobs (ex_request false)) →
     ∃ e, request_commit (ex_req_handle (ex_request false), ex_req_store (ex_request false)) =
       (Throw e, (ex_req_handle (ex_request false), ex_req_store (ex_request false)))).
Proof.
  apply (request_commit_distinct_pools (ex_req_handle (ex_request false)) (ex_req_store (ex_request false)));
    try done; solve [apply ex_writable | by eexists].
Defined.

(** Two failures allowed: one on mount 7, then one on mount 8. *)
Definition ex_copy_retry : ArchiveJob :=
  mkArchiveJob 1 "poolA" "" "agentA" AJS_ToTransferForUser 0 0 0 2 1 [] 2 0 [].
Definition ex_retry : ObjectOps (blob ArchiveRequest) ArchiveRequest :=
  ex_req_handle (ar_set_jobs [ex_copy_retry; ex_copy 2 "poolB"] (ex_request false)).

Lemma transfer_failures_counted_witness :
  let r := m_payload ex_retry in
  ∃ step o' j', (_ ← fail_all 1 [(7, "drive error")]; addTransferFailure 1 8 "again") ex_retry = (Ok step, o') ∧
    find_job 1 (ar_jobs (m_payload o')) = Some j' ∧
    aj_totalretries j' = 2 ∧ aj_retrieswithinmount j' = trailing ([7] ++ [8]) ∧
    aj_failurelogs j' = ["drive error"] ++ ["again"] ∧
    (∀ cn', cn' ≠ 1 → find_job cn' (ar_jobs (m_payload o')) = find_job cn' (ar_jobs r)) ∧
    (2 < 2 → nextStatus step = AJS_ToTransferForUser ∧
       nextStep step = (if 1 <=? trailing ([7] ++ [8]) then Nothing else EnqueueForTransferForUser) ∧
       ar_reportdecided (m_payload o') = false) ∧
    (2 = 2 → step = mkNextStep EnqueueForReportForUser AJS_ToReportToUserForFailure ∧
       ar_reportdecided (m_payload o') = true).
Proof.
  apply (transfer_failures_counted 1 [(7, "drive error")] 8 "again" ex_copy_retry ex_retry);
    try done. apply ex_writable.
Defined.

(** The first copy fails for good, then the second succeeds. *)
Definition ex_failed : ObjectOps (blob ArchiveRequest) ArchiveRequest :=
  snd (addTransferFailure 1 7 "bad" (ex_req_handle (ex_request false))).
Definition ex_after_failure : ArchiveRequest :=
  m_payload (snd (setJobStatus 1 AJS_ToReportToUserForFailure ex_failed)).
Definition ex_after_success : ArchiveRequest :=
  ar_set_jobs (update_job 2 (succeeded_job false) (ar_jobs ex_after_failure)) ex_after_failure.
(** The handle of the transfer that succeeds: it was never fetched. *)
Definition ex_unfetched : ObjectOps (blob ArchiveRequest) ArchiveRequest :=
  mkOps true "request" (ex_req_header ex_after_failure) default_message fresh_flags.

Lemma ex_new : new_request (ex_request false).
Proof. split_and!; try done; [by apply (bool_decide_unpack _)|by repeat constructor]. Qed.

Lemma ex_steps : rtc (report_step (B := blob ArchiveRequest) (St := VFS.vfs (blob ArchiveRequest)) false)
  (ex_request false) ex_after_success.
Proof.
  apply rtc_l with ex_after_failure; [|apply rtc_once].
  - apply (step_failure false (ex_req_handle (ex_request false)) ex_failed
      (snd (setJobStatus 1 AJS_ToReportToUserForFailure ex_failed)) 1 7 "bad" (ex_copy 1 "poolA")
      (mkNextStep EnqueueForReportForUser AJS_ToReportToUserForFailure));
      [apply ex_writable|done|done|by vm_compute|by vm_compute].
  - destruct (success_spec ex_unfetched (ex_req_store ex_after_failure)
      (ex_req_header ex_after_failure) ex_after_failure 2 "V00002" (ex_copy 2 "poolB"))
      as (ts & s' & E & _ & _ & Hst'); [apply ex_wf|done|apply ex_stored|done|done|].
    by eapply (step_success false ex_unfetched (ex_req_store ex_after_failure) s'
      (ex_req_header ex_after_failure) _ _ _ 2 "V00002" (ex_copy 2 "poolB")).
Qed.


Lemma ownership_race_witness :
  let s := ex_req_store (ex_request false) in
  let o := ex_req_handle (ex_request false) in
  ∃ u s' h' r', asyncUpdateJobOwner 1 "agentB" "agentA" None (o, s) = (Ok (Some u), (o, s')) ∧
    stored s' "request" = Some (h', r') ∧
    (∃ j', find_job 1 (ar_jobs r') = Some j' ∧ aj_owner j' = "agentB") ∧
    (∀ cn', cn' ≠ 1 → find_job cn' (ar_jobs r') = find_job cn' (ar_jobs (ex_request false))) ∧
    asyncUpdateJobOwner 1 "agentC" "agentA" None (o, s') = (Throw WrongPreviousOwner, (o, s')) ∧
    ∃ u2 s2, asyncUpdateJobOwner 1 "agentB" "agentA" None (o, s') = (Ok (Some u2), (o, s2)).
Proof.
  apply (ownership_race (ex_req_handle (ex_request false)) (ex_req_handle (ex_request false))
    (ex_req_store (ex_request false)) (ex_req_header (ex_request false)) (ex_request false) 1
    (ex_copy 1 "poolA") demo_blob "agentB" "agentC" "agentA" None None); try done.
Defined.

Lemma repack_destinations_accumulate_witness :
  let s := ex_req_store (ex_request true) in
  let o := ex_req_handle (ex_request true) in
  let l := [(1, "V00001"); (2, "V00002")] in
  ∃ s' h' r', succeed_all l (o, s) = (Ok tt, (o, s')) ∧ stored s' "request" = Some (h', r') ∧
    destinations r' = foldl (λ m x, <[fst x := snd x]> m) (destinations (ex_request true)) l ∧
    (∀ cn j, find_job cn (ar_jobs (ex_request true)) = Some j →
       find_job cn (ar_jobs r') =
         Some (if decide (cn ∈ fst <$> l) then aj_set_status AJS_ToReportToRepackForSuccess j else j)).
Proof.
  apply (repack_destinations_accumulate [(1, "V00001"); (2, "V00002")] (ex_req_handle (ex_request true))
    (ex_req_store (ex_request true)) (ex_req_header (ex_request true)) (ex_request true)); try done.
  repeat constructor; by eexists.
Defined.
