(* ===== verification/ProtoAlgorithms.v ===== *)
(** * Algorithms on repeated fields

    Model of [objectstore/ProtocolBuffersAlgorithms.hpp] and [.cpp]: search in and
    removal from a [RepeatedPtrField].  [removeOccurences] moves the last element
    into the hole, so it keeps the elements but not their order. *)
From S2P Require Import Prelude.

Section RepeatedField.
Context {A : Type}.
Implicit Types (p : A → bool) (field : list A).

(** [RepeatedPtrField::SwapElements]. *)
Definition SwapElements (i j : nat) field : list A :=
  match field !! i, field !! j with
  | Some x, Some y => <[j := x]> (<[i := y]> field)
  | _, _ => field
  end.

(** One turn of the [do]-[while] loop: [None] when nothing was found. *)
Definition removeOccurences_round p field : option (list A) :=
  match index_of p field with
  | Some i => Some (RemoveLast (SwapElements i (length field - 1) field))
  | None => None
  end.

Fixpoint removeOccurences_loop (fuel : nat) p field : list A :=
  match fuel with
  | O => field
  | S n =>
      match removeOccurences_round p field with
      | Some field' => removeOccurences_loop n p field'
      | None => field
      end
  end.

(** Each turn removes one element, so the length bounds the number of turns. *)
Definition removeOccurences p field : list A :=
  removeOccurences_loop (S (length field)) p field.

Definition findElement p field : result A :=
  match find_if p field with Some x => Ok x | None => Throw NotFound end.

Definition isElementPresent p field : bool := existsb p field.

(** ** What they compute *)
Lemma swap_last_perm i field :
  (i < length field)%nat → RemoveLast (SwapElements i (length field - 1) field) ≡ₚ delete i field.
Proof.
  intros Hi. destruct (lookup_lt_is_Some_2 field i Hi) as [x Hx].
  induction field as [|y l _] using rev_ind; [simpl in Hi; lia|].
  rewrite length_app in *. simpl in *. replace (length l + 1 - 1)%nat with (length l) by lia.
  unfold SwapElements, RemoveLast. rewrite Hx, list_lookup_middle by done.
  destruct (decide (i = length l)) as [->|Hne].
  - rewrite list_lookup_middle in Hx by done. simplify_eq.
    rewrite !length_insert, length_app. simpl. replace (length l + 1 - 1)%nat with (length l) by lia.
    rewrite delete_middle, app_nil_r.
    rewrite !insert_app_r_alt, Nat.sub_diag by lia. simpl. by rewrite take_app_length.
  - assert (i < length l)%nat by lia.
    rewrite !insert_app_l, insert_app_r_alt by (rewrite ?length_insert; lia).
    rewrite length_insert, Nat.sub_diag. simpl. rewrite length_app, length_insert. simpl.
    replace (length l + 1 - 1)%nat with (length (<[i:=y]> l)) by (rewrite length_insert; lia).
    rewrite take_app_length. rewrite lookup_app_l in Hx by done.
    rewrite insert_take_drop by done. rewrite delete_take_drop.
    rewrite take_app_le, drop_app_le by lia.
    rewrite app_assoc, <- Permutation_middle. solve_Permutation.
Qed.

Lemma removeOccurences_loop_perm fuel p field :
  (length field < fuel)%nat →
  removeOccurences_loop fuel p field ≡ₚ filter (λ x, p x = false) field.
Proof.
  revert field. induction fuel as [|n IH]; intros field Hf; [lia|]. simpl.
  unfold removeOccurences_round. destruct (index_of p field) as [i|] eqn:E.
  - apply index_of_Some in E as (x & Hx & Hp & _).
    pose proof (lookup_lt_Some _ _ _ Hx) as Hi. pose proof (swap_last_perm i field Hi) as HP.
    assert (length (delete i field) < n)%nat by (rewrite length_delete by eauto; lia).
    rewrite IH by (by rewrite HP). rewrite HP.
    apply delete_Permutation in Hx. rewrite Hx at 2.
    rewrite filter_cons, decide_False by congruence. done.
  - apply index_of_None in E. by rewrite list_filter_all.
Qed.

(** Exactly the elements that do not match are left. *)
Lemma removeOccurences_perm p field :
  removeOccurences p field ≡ₚ filter (λ x, p x = false) field.
Proof. apply removeOccurences_loop_perm. lia. Qed.

Lemma elem_of_removeOccurences p field x :
  x ∈ removeOccurences p field ↔ x ∈ field ∧ p x = false.
Proof. rewrite removeOccurences_perm, list_elem_of_filter. tauto. Qed.

Lemma NoDup_removeOccurences p field : NoDup field → NoDup (removeOccurences p field).
Proof. rewrite removeOccurences_perm. apply NoDup_filter. Qed.

Lemma NoDup_fmap_removeOccurences {K} (f : A → K) p field :
  NoDup (f <$> field) → NoDup (f <$> removeOccurences p field).
Proof.
  rewrite removeOccurences_perm. intros H. induction field as [|x l IH]; [done|].
  rewrite fmap_cons in H. apply NoDup_cons in H as [Hx H]. rewrite filter_cons. case_decide; [|auto].
  rewrite fmap_cons. apply NoDup_cons. split; [|auto].
  intros Hin. apply Hx. apply list_elem_of_fmap in Hin as (y & -> & Hy).
  apply list_elem_of_filter in Hy as [_ Hy]. by apply list_elem_of_fmap_2.
Qed.

Lemma findElement_Ok p field x : findElement p field = Ok x → x ∈ field ∧ p x = true.
Proof. unfold findElement. case_match eqn:E; intros; simplify_eq. by apply find_if_Some. Qed.

Lemma findElement_NotFound p field :
  findElement p field = Throw NotFound ↔ ∀ x, x ∈ field → p x = false.
Proof. rewrite <- find_if_None. unfold findElement. by case_match. Qed.

Lemma findElement_cases p field :
  (∃ x, findElement p field = Ok x) ∨ findElement p field = Throw NotFound.
Proof. unfold findElement. case_match; eauto. Qed.
End RepeatedField.

(** ** A repeated field of named values as a map: the first of a name counts *)
Section AssocMap.
Context {A : Type} (key val : A → string).
Implicit Types (l : list A) (k : string).

Definition assoc_map l : gmap string string := list_to_map ((λ x, (key x, val x)) <$> l).

Lemma assoc_map_cons x l : assoc_map (x :: l) = <[key x := val x]> (assoc_map l).
Proof. done. Qed.
Lemma assoc_map_lookup l k : assoc_map l !! k = val <$> find_if (λ x, bool_decide (key x = k)) l.
Proof.
  induction l as [|x l IH]; simpl; [done|]. rewrite assoc_map_cons, lookup_insert.
  destruct (decide (key x = k)); [by rewrite bool_decide_true|by rewrite bool_decide_false].
Qed.
Lemma assoc_map_present l k :
  existsb (λ x, bool_decide (key x = k)) l = bool_decide (is_Some (assoc_map l !! k)).
Proof.
  induction l as [|x l IH]; simpl; [by rewrite bool_decide_false by (intros []; done)|].
  rewrite assoc_map_cons, lookup_insert, IH. destruct (decide (key x = k)).
  - by rewrite !bool_decide_true by eauto.
  - by rewrite bool_decide_false by done.
Qed.
Lemma assoc_map_snoc l x : assoc_map l !! key x = None → assoc_map (l ++ [x]) = <[key x := val x]> (assoc_map l).
Proof.
  induction l as [|y l IH]; simpl; [done|]. rewrite !assoc_map_cons, lookup_insert. case_decide; [done|].
  intros Hn. rewrite IH by done. by rewrite insert_insert_ne.
Qed.
Lemma assoc_map_filter l k : assoc_map (filter (λ x, key x ≠ k) l) = delete k (assoc_map l).
Proof.
  induction l as [|x l IH]; [symmetry; apply delete_empty|]. rewrite filter_cons. case_decide as E.
  - rewrite !assoc_map_cons, IH. by rewrite delete_insert_ne.
  - rewrite assoc_map_cons, E, delete_insert_eq. done.
Qed.
Lemma assoc_map_perm l l' : NoDup (key <$> l) → l ≡ₚ l' → assoc_map l = assoc_map l'.
Proof.
  intros Hnd HP. apply list_to_map_proper; [|by rewrite HP].
  rewrite <- list_fmap_compose. exact Hnd.
Qed.
Lemma assoc_map_removed l k :
  NoDup (key <$> l) → assoc_map (removeOccurences (λ x, bool_decide (key x = k)) l) = delete k (assoc_map l).
Proof.
  intros Hnd. rewrite <- assoc_map_filter. apply assoc_map_perm; [by apply NoDup_fmap_removeOccurences|].
  rewrite removeOccurences_perm. erewrite list_filter_ext; [done|]. intros x _. simpl. by rewrite bool_decide_eq_false.
Qed.
End AssocMap.

(** [removeString] and [findString] on a repeated string field. *)
Definition removeString (value : string) (field : list string) : list string :=
  removeOccurences (λ x, bool_decide (value = x)) field.

Definition findStringFrom (fromIndex : nat) (value : string) (field : list string) : result nat :=
  match index_of (λ x, bool_decide (value = x)) (drop fromIndex field) with
  | Some i => Ok (fromIndex + i)%nat
  | None => Throw NotFound
  end.
Definition findString (value : string) (field : list string) : result nat :=
  findStringFrom 0 value field.

Lemma elem_of_removeString v field x : x ∈ removeString v field ↔ x ∈ field ∧ x ≠ v.
Proof. unfold removeString. rewrite elem_of_removeOccurences, bool_decide_eq_false. naive_solver. Qed.

Lemma NoDup_removeString v field : NoDup field → NoDup (removeString v field).
Proof. apply NoDup_removeOccurences. Qed.

Lemma findString_spec v field :
  (v ∈ field ∧ (∃ i, findString v field = Ok i ∧ field !! i = Some v)) ∨
  ((v ∉ field) ∧ findString v field = Throw NotFound).
Proof.
  unfold findString, findStringFrom. rewrite drop_0. destruct (index_of _ field) as [i|] eqn:E.
  - apply index_of_Some in E as (x & Hx & Hp & _). apply bool_decide_eq_true in Hp. subst.
    left. split; [by eapply list_elem_of_lookup_2|]. by exists i.
  - apply index_of_None in E. right. split; [|done]. intros Hv.
    eapply (proj1 (Forall_forall _ _)) in Hv; [|done]. simpl in Hv. by rewrite bool_decide_true in Hv.
Qed.

Example removeString_moves_last :
  removeString "b" ["a"; "b"; "c"; "b"; "d"] = ["a"; "d"; "c"].
Proof. reflexivity. Qed.
