(* ===== verification/Handles.v ===== *)
(** * Handles opened inside an operation

    The operations on the objects that tie the store together (root entry,
    registers, agents) open handles of other objects: the constructor with an
    address, a scoped lock, [fetch], changes in memory, then [commit], [insert] or
    [remove].  This file composes the operations of [ObjectOps.v] that way, in the
    monad of the backend alone, and gives the behaviour of the compositions. *)
From S2P Require Import Prelude Backend ObjectOps.

Section Handles.
Context {B St : Type} `{!Serializable B (ObjectHeader B), !Backend B St}.
(** The header bytes of a handle before anything is read; never looked at. *)
Context (dummy : B).

Section Typed.
Context {P : Type} `{!Serializable B P, !Message P}.
Implicit Types (o : ObjectOps B P).

(** The constructor [ObjectOps(os, address)]. *)
Definition object_at (address : string) : result (ObjectOps B P) :=
  setAddress address (new_object dummy).

(** Run an operation of a local handle. *)
Definition run_on {A} o (m : M (HState B P St) A) : M St (A * ObjectOps B P) := λ s,
  let '(r, (o', s')) := m (o, s) in
  (match r with Ok a => Ok (a, o') | Throw e => Throw e end, s').
Definition exec_on o (m : M (HState B P St) unit) : M St (ObjectOps B P) :=
  x ← run_on o m; mret (snd x).

(** [Scoped...Lock l(o); o.fetch();] *)
Definition lock_and_fetch (t : LockType) o : M St (ObjectOps B P) :=
  exec_on o (_ ← lock (mkLock t false); fetch).

(** [T o(address, os); Scoped...Lock l(o); o.fetch();] *)
Definition open_locked (t : LockType) (address : string) : M St (ObjectOps B P) :=
  o ← lift (object_at address); lock_and_fetch t o.

(** [initialize] of the derived classes that set up the payload with [f]. *)
Definition initialize_with (f : P → P) o : result (ObjectOps B P) :=
  o1 ← initialize o;
  let fl := m_flags o1 in
  Ok (with_flags (with_interpreted (m_headerInterpreted fl) true fl) (with_payload (f (m_payload o1)) o1)).

(** [setOwner(owner); setBackupOwner(backup);] *)
Definition set_owners (owner backup : string) o : result (ObjectOps B P) :=
  o1 ← setOwner owner o; setBackupOwner backup o1.

(** Access to the payload of a handle. *)
Definition read_payload {A} (f : P → A) o : result A :=
  _ ← checkPayloadReadable o; Ok (f (m_payload o)).
Definition write_payload (f : P → P) o : result (ObjectOps B P) :=
  _ ← checkPayloadWritable o; Ok (with_payload (f (m_payload o)) o).

(** ** Behaviour *)

(** A handle that holds a scoped lock and the fetched object. *)
Definition opened (t : LockType) (address : string) (h : ObjectHeader B) (p : P) : ObjectOps B P :=
  mkOps true address h p
    (mkFlags true true true 1 (match t with Shared => 0 | Exclusive => 1 end)
       false (match t with Shared => false | Exclusive => true end) false).

(** A handle on a new object, ready for [insert]. *)
Definition prepared (address owner backup : string) (p : P) : ObjectOps B P :=
  mkOps true address (mkHeader payloadTypeId 0 owner backup dummy) p
    (mkFlags true true false 0 0 false false false).

Lemma object_at_ok address :
  address ≠ "" →
  object_at address = Ok (mkOps true address (m_header (new_object dummy)) default_message fresh_flags).
Proof. intros. unfold object_at, setAddress. simpl. by rewrite decide_False. Qed.

Lemma open_locked_ok t address h p s :
  be_wf s → address ≠ "" → stored s address = Some (h, p) →
  open_locked t address s = (Ok (opened t address h p), s).
Proof.
  intros Hwf Ha Hst. unfold open_locked. rewrite object_at_ok by done. rewrite bind_lift.
  unfold lock_and_fetch, exec_on, run_on, lock, checkObjectAndAddressSet.
  unfold mbind at 1, M_bind at 1. unfold mbind, M_bind, lift, self, set_self, on_store, gets, modify. simpl.
  rewrite bool_decide_false by done. simpl.
  rewrite be_lock_ok by (done || by eapply stored_exists). simpl.
  destruct t; simpl; erewrite fetch_spec; done.
Qed.

Lemma open_locked_absent t address s :
  be_wf s → address ≠ "" → be_view s !! address = None →
  open_locked t address s = (Throw NoSuchObject, s).
Proof.
  intros Hwf Ha Hst. unfold open_locked. rewrite object_at_ok by done. rewrite bind_lift.
  unfold lock_and_fetch, exec_on, run_on, lock, checkObjectAndAddressSet.
  unfold mbind at 1, M_bind at 1. unfold mbind, M_bind, lift, self, set_self, on_store, gets, modify. simpl.
  rewrite bool_decide_false by done. simpl. by rewrite be_lock_absent.
Qed.

Lemma opened_writable address h p : writable (opened Exclusive address h p).
Proof. split; [done|]. intros _. split; [done|by left]. Qed.

Lemma opened_check_writable address h p : checkPayloadWritable (opened Exclusive address h p) = Ok tt.
Proof. done. Qed.
Lemma opened_check_readable t address h p : checkPayloadReadable (opened t address h p) = Ok tt.
Proof. by destruct t. Qed.

Lemma read_opened {A} (f : P → A) t address h p : read_payload f (opened t address h p) = Ok (f p).
Proof. by destruct t. Qed.
Lemma write_opened f address h p :
  write_payload f (opened Exclusive address h p) = Ok (opened Exclusive address h (f p)).
Proof. done. Qed.

(** Creation: the name, the header type and the payload are those asked for. *)
Lemma create_ok address owner backup f :
  address ≠ "" →
  (o ← object_at address; o1 ← initialize_with f o; set_owners owner backup o1) =
    Ok (prepared address owner backup (f default_message)).
Proof. intros Ha. rewrite object_at_ok by done. done. Qed.

Lemma insert_prepared address owner backup p s :
  be_wf s → be_view s !! address = None →
  ∃ o' s', exec_on (prepared address owner backup p) insert s = (Ok o', s') ∧ be_wf s' ∧
    m_name o' = address ∧ m_nameSet o' = true ∧ m_payload o' = p ∧
    m_flags o' = mkFlags true true true 0 0 false false false ∧
    stored s' address = Some (m_header o', p) ∧
    m_header o' = mkHeader payloadTypeId 0 owner backup (SerializeAsString p) ∧
    (∀ n, n ≠ address → be_view s' !! n = be_view s !! n).
Proof.
  intros Hwf Hn.
  destruct (insert_spec s (prepared address owner backup p) Hwf) as (s' & E & Hwf' & Hv & Hst);
    [by repeat split|done|].
  eexists _, s'. unfold exec_on, run_on. unfold mbind, M_bind. rewrite E. simpl.
  split; [done|]. do 5 (split; [done|]).
  split; [by rewrite Hst, decide_True|]. split; [done|].
  intros n Hne. rewrite Hv. by rewrite lookup_insert_ne.
Qed.

(** Commit of an opened object after changes of its header and payload. *)
Lemma commit_opened address h p s :
  be_wf s → is_Some (be_view s !! address) → h_type h = payloadTypeId →
  ∃ s', exec_on (opened Exclusive address h p) commit s =
      (Ok (push_payload (opened Exclusive address h p)), s') ∧ be_wf s' ∧
    stored s' address = Some (m_header (push_payload (opened Exclusive address h p)), p) ∧
    (∀ n, n ≠ address → be_view s' !! n = be_view s !! n).
Proof.
  intros Hwf Hex Ht.
  destruct (commit_spec s (opened Exclusive address h p) Hwf) as (s' & E & Hwf' & Hv & Hst); try done.
  { apply opened_writable. }
  exists s'. unfold exec_on, run_on, mbind, M_bind. rewrite E. simpl. split; [done|].
  split; [done|]. split; [by rewrite Hst, decide_True|].
  intros n Hne. rewrite Hv. by rewrite lookup_insert_ne.
Qed.

Lemma remove_opened address h p s :
  be_wf s → is_Some (be_view s !! address) →
  ∃ o' s', exec_on (opened Exclusive address h p) remove s = (Ok o', s') ∧ be_wf s' ∧
    m_nameSet o' = true ∧ m_name o' = address ∧
    be_view s' = delete address (be_view s).
Proof.
  intros Hwf Hex. unfold exec_on, run_on, remove.
  destruct (be_remove_ok s address Hwf Hex) as (s' & Hr & Hwf' & Hv).
  unfold mbind, M_bind, lift, self, set_self, on_store, gets, modify. simpl. rewrite Hr. simpl. eauto 10.
Qed.

(** [stored] only looks at the object of that name. *)
Lemma stored_frame s s' n :
  be_view s' !! n = be_view s !! n → stored (P:=P) s' n = stored s n.
Proof. unfold stored. by intros ->. Qed.
End Typed.
End Handles.
