(* ===== verification/Agent.v ===== *)
(** * Agents and their ownership lists

    Model of [objectstore/Agent.cpp] (the agent object: heartbeat, time-out, list
    of owned objects, garbage-collection flags) and of the part of
    [objectstore/AgentReference.cpp] that one thread runs: a batch of actions is
    applied to the agent object in one fetch/commit.  The life of an agent in the
    agent register is in [AgentLife.v], the queue shared by the threads in
    [AgentQueue.v]. *)
From stdpp Require Import sorting.
From S2P Require Import Prelude Backend ObjectOps Handles ProtoAlgorithms.

(** [serializers::Agent]; [gc_needed] is read with [has_gc_needed()]. *)
Record Agent := mkAgentObject {
  description : string;
  heartbeat : Z;
  timeout_us : Z;
  ownedobjects : list string;
  being_garbage_collected : bool;
  gc_needed : option bool
}.

#[export] Instance Agent_message : Message Agent := {|
  payloadTypeId := Agent_t;
  default_message := mkAgentObject "" 0 0 [] false None |}.

Definition set_heartbeat (x : Z) (a : Agent) : Agent :=
  mkAgentObject (description a) x (timeout_us a) (ownedobjects a) (being_garbage_collected a) (gc_needed a).
Definition set_timeout_us (x : Z) (a : Agent) : Agent :=
  mkAgentObject (description a) (heartbeat a) x (ownedobjects a) (being_garbage_collected a) (gc_needed a).
Definition set_ownedobjects (x : list string) (a : Agent) : Agent :=
  mkAgentObject (description a) (heartbeat a) (timeout_us a) x (being_garbage_collected a) (gc_needed a).
Definition set_being_garbage_collected (x : bool) (a : Agent) : Agent :=
  mkAgentObject (description a) (heartbeat a) (timeout_us a) (ownedobjects a) x (gc_needed a).
Definition set_gc_needed (x : option bool) (a : Agent) : Agent :=
  mkAgentObject (description a) (heartbeat a) (timeout_us a) (ownedobjects a) (being_garbage_collected a) x.

(** Iteration over a [std::set<std::string>], in increasing order. *)
Definition set_iter (X : gset string) : list string := merge_sort String.le (elements X).

Lemma set_iter_perm X : set_iter X ≡ₚ elements X.
Proof. apply merge_sort_Permutation. Qed.
Lemma elem_of_set_iter X x : x ∈ set_iter X ↔ x ∈ X.
Proof. by rewrite set_iter_perm, elem_of_elements. Qed.
Lemma NoDup_set_iter X : NoDup (set_iter X).
Proof. rewrite set_iter_perm. apply NoDup_elements. Qed.
Lemma set_iter_sorted X : Sorted String.le (set_iter X).
Proof. apply Sorted_merge_sort. apply _. Qed.
Lemma set_iter_to_set X : list_to_set (set_iter X) = X.
Proof. apply leibniz_equiv. intros x. by rewrite elem_of_list_to_set, elem_of_set_iter. Qed.

Section AgentObject.
Context {B : Type}.
Implicit Types (ag : ObjectOps B Agent).

(** [Agent::initialize]: the time-out is two minutes. *)
Definition agent_initialize ag : result (ObjectOps B Agent) :=
  initialize_with (λ p, mkAgentObject "" 0 (120 * 1000 * 1000) (ownedobjects p) false (Some false)) ag.

Definition agent_isEmpty ag : result bool :=
  read_payload (λ p, bool_decide (ownedobjects p = [])) ag.
Definition isBeingGarbageCollected ag : result bool := read_payload being_garbage_collected ag.
Definition setBeingGarbageCollected ag : result (ObjectOps B Agent) :=
  write_payload (set_being_garbage_collected true) ag.
Definition setNeedsGarbageCollection ag : result (ObjectOps B Agent) :=
  write_payload (set_gc_needed (Some true)) ag.
Definition needsGarbageCollection ag : result bool :=
  read_payload (λ p, match gc_needed p with None => false | Some b => b end) ag.

Definition agent_addToOwnership (name : string) ag : result (ObjectOps B Agent) :=
  write_payload (λ p, set_ownedobjects (ownedobjects p ++ [name]) p) ag.
Definition agent_removeFromOwnership (name : string) ag : result (ObjectOps B Agent) :=
  write_payload (λ p, set_ownedobjects (removeString name (ownedobjects p)) p) ag.
Definition getOwnershipList ag : result (list string) := read_payload ownedobjects ag.
Definition getOwnershipSet ag : result (gset string) :=
  read_payload (λ p, list_to_set (ownedobjects p)) ag.
Definition resetOwnership (ownershipSet : gset string) ag : result (ObjectOps B Agent) :=
  write_payload (set_ownedobjects (set_iter ownershipSet)) ag.
Definition getOwnershipListSize ag : result Z :=
  read_payload (λ p, Z.of_nat (length (ownedobjects p))) ag.

Definition agent_bumpHeartbeat ag : result (ObjectOps B Agent) :=
  write_payload (λ p, set_heartbeat (heartbeat p +u64 1) p) ag.
Definition getHeartbeatCount ag : result Z := read_payload heartbeat ag.
Definition setTimeout_us (timeout : Z) ag : result (ObjectOps B Agent) :=
  write_payload (set_timeout_us timeout) ag.
End AgentObject.

(** ** Actions on the agent, [AgentReference::Action] *)
Inductive Action :=
  | Add (objectAddress : string)
  | Remove (objectAddress : string)
  | AddBatch (objectAddressSet : list string)
  | RemoveBatch (objectAddressSet : list string)
  | Heartbeat.

(** [m_ownerShipModifyingOperations.count(op)]. *)
Definition modifies_ownership (a : Action) : bool :=
  match a with Heartbeat => false | _ => true end.

Section AgentReference.
Context {B St : Type} `{!Serializable B (ObjectHeader B), !Serializable B Agent, !Backend B St}.
Context (dummy : B).
Implicit Types (ag : ObjectOps B Agent).

(** [appyAction]: ownership actions work on the extracted set. *)
Definition appyAction (a : Action) (st : ObjectOps B Agent * gset string) :
    result (ObjectOps B Agent * gset string) :=
  let '(ag, ownershipSet) := st in
  match a with
  | Add oa => Ok (ag, {[oa]} ∪ ownershipSet)
  | AddBatch l => Ok (ag, foldl (λ X oa, {[oa]} ∪ X) ownershipSet l)
  | Remove oa => Ok (ag, ownershipSet ∖ {[oa]})
  | RemoveBatch l => Ok (ag, foldl (λ X oa, X ∖ {[oa]}) ownershipSet l)
  | Heartbeat => ag' ← agent_bumpHeartbeat ag; Ok (ag', ownershipSet)
  end.

Fixpoint apply_actions (l : list Action) (st : ObjectOps B Agent * gset string) :
    result (ObjectOps B Agent * gset string) :=
  match l with
  | [] => Ok st
  | a :: l' => st' ← appyAction a st; apply_actions l' st'
  end.

(** The part of [queueAndExecuteAction] where the thread that owns the queue
    applies its own action, then those queued by the other threads. *)
Definition executeActions (m_agentAddress : string) (action : Action) (queue : list Action) : M St unit :=
  ag ← open_locked dummy Exclusive m_agentAddress;
  gc ← lift (isBeingGarbageCollected ag);
  if (gc : bool) then throw ProcessExit
  else
    _ ← lift (getOwnershipListSize ag);
    let ownershipModification := modifies_ownership action || existsb modifies_ownership queue in
    ownershipSet ← lift (if ownershipModification then getOwnershipSet ag else Ok ∅);
    st ← lift (appyAction action (ag, ownershipSet));
    st' ← lift (apply_actions queue st);
    ag' ← lift (if ownershipModification then resetOwnership (snd st') (fst st') else Ok (fst st'));
    _ ← lift (getOwnershipListSize ag');
    _ ← exec_on ag' commit;
    mret tt.

(** The calls of a thread that finds no queue and whose queue gets no other
    action. *)
Definition queueAndExecuteAction (a : Action) (agentRef : AgentReference) : M St unit :=
  executeActions (m_agentAddress agentRef) a [].
Definition addToOwnership (objectAddress : string) (agentRef : AgentReference) : M St unit :=
  queueAndExecuteAction (Add objectAddress) agentRef.
Definition addBatchToOwnership (objectAdresses : list string) (agentRef : AgentReference) : M St unit :=
  queueAndExecuteAction (AddBatch objectAdresses) agentRef.
Definition removeFromOwnership (objectAddress : string) (agentRef : AgentReference) : M St unit :=
  queueAndExecuteAction (Remove objectAddress) agentRef.
Definition removeBatchFromOwnership (objectAdresses : list string) (agentRef : AgentReference) : M St unit :=
  queueAndExecuteAction (RemoveBatch objectAdresses) agentRef.
Definition bumpHeatbeat (agentRef : AgentReference) : M St unit :=
  queueAndExecuteAction Heartbeat agentRef.

(** ** What a batch does to the agent object *)
Definition owned_after (X : gset string) (a : Action) : gset string :=
  match a with
  | Add oa => X ∪ {[oa]}
  | AddBatch l => X ∪ list_to_set l
  | Remove oa => X ∖ {[oa]}
  | RemoveBatch l => X ∖ list_to_set l
  | Heartbeat => X
  end.
Definition beats (l : list Action) : Z :=
  Zsum ((λ a, match a with Heartbeat => 1 | _ => 0 end) <$> l).
Definition owned (p : Agent) : gset string := list_to_set (ownedobjects p).

(** The payload after the actions [l]. *)
Definition agent_after (l : list Action) (p : Agent) : Agent :=
  mkAgentObject (description p) (if decide (beats l = 0) then heartbeat p else u64 (heartbeat p + beats l))
    (timeout_us p)
    (if existsb modifies_ownership l then set_iter (foldl owned_after (owned p) l) else ownedobjects p)
    (being_garbage_collected p) (gc_needed p).

Lemma foldl_add X l : foldl (λ (X : gset string) oa, {[oa]} ∪ X) X l = X ∪ list_to_set l.
Proof.
  revert X. induction l as [|x l IH]; intros X; simpl; [set_solver|]. rewrite IH. set_solver.
Qed.
Lemma foldl_erase X l : foldl (λ (X : gset string) oa, X ∖ {[oa]}) X l = X ∖ list_to_set l.
Proof.
  revert X. induction l as [|x l IH]; intros X; simpl; [set_solver|]. rewrite IH. set_solver.
Qed.

Lemma beats_nonneg l : 0 <= beats l.
Proof. unfold beats. induction l as [|[] l IH]; csimpl; unfold Zsum in *; simpl; lia. Qed.
Lemma beats_cons a l : beats (a :: l) = beats [a] + beats l.
Proof. unfold beats. csimpl. unfold Zsum; simpl. lia. Qed.

(** One action on an opened agent. *)
Lemma appyAction_opened a address h p X :
  appyAction a (opened Exclusive address h p, X) =
    Ok (opened Exclusive address h (set_heartbeat (if decide (beats [a] = 0) then heartbeat p
          else u64 (heartbeat p + beats [a])) p), owned_after X a).
Proof.
  destruct a; simpl; rewrite ?foldl_add, ?foldl_erase, ?decide_True by done.
  all: try (replace (set_heartbeat (heartbeat p) p) with p by (by destruct p); do 2 f_equal; set_solver).
Qed.

Definition heartbeat_after (l : list Action) (p : Agent) : Z :=
  if decide (beats l = 0) then heartbeat p else u64 (heartbeat p + beats l).

Lemma heartbeat_after_cons a l p :
  heartbeat_after l (set_heartbeat (heartbeat_after [a] p) p) = heartbeat_after (a :: l) p.
Proof.
  unfold heartbeat_after. rewrite (beats_cons a l). pose proof (beats_nonneg l).
  pose proof (beats_nonneg [a]). simpl. repeat case_decide; try lia; try (f_equal; lia).
  - rewrite u64_add_l. f_equal. lia.
Qed.

Lemma apply_actions_opened l address h p X :
  apply_actions l (opened Exclusive address h p, X) =
    Ok (opened Exclusive address h (set_heartbeat (heartbeat_after l p) p), foldl owned_after X l).
Proof.
  revert p X. induction l as [|a l IH]; intros p X; cbn [apply_actions].
  - by destruct p.
  - rewrite appyAction_opened. cbn [mbind result_bind]. rewrite IH. fold (heartbeat_after [a] p).
    by rewrite heartbeat_after_cons.
Qed.

(** The agent object stored under an address. *)
Definition agent_stored (s : St) (address : string) (h : ObjectHeader B) (p : Agent) : Prop :=
  be_wf s ∧ address ≠ "" ∧ stored s address = Some (h, p) ∧ h_type h = Agent_t.

Lemma executeActions_spec address a q h p s :
  agent_stored s address h p → being_garbage_collected p = false →
  ∃ s' h', executeActions address a q s = (Ok tt, s') ∧
    agent_stored s' address h' (agent_after (a :: q) p) ∧
    h_owner h' = h_owner h ∧ h_backupowner h' = h_backupowner h ∧
    (∀ n, n ≠ address → be_view s' !! n = be_view s !! n).
Proof.
  intros (Hwf & Ha & Hst & Ht) Hgc. unfold executeActions.
  mstep (open_locked_ok dummy Exclusive address h p s Hwf Ha Hst).
  unfold isBeingGarbageCollected, getOwnershipListSize.
  rewrite !read_opened, Hgc, !bind_lift.
  set (X := if _ || _ then _ else _). assert (X = Ok (if existsb modifies_ownership (a :: q) then owned p else ∅)) as ->.
  { subst X. simpl. by destruct (_ || _). }
  rewrite bind_lift, appyAction_opened, bind_lift. fold (heartbeat_after [a] p).
  rewrite apply_actions_opened, bind_lift, heartbeat_after_cons.
  destruct (commit_opened address h (agent_after (a :: q) p) s Hwf) as (s' & E & Hwf' & Hst' & Hfr);
    [by eapply stored_exists|done|].
  exists s', (m_header (push_payload (opened Exclusive address h (agent_after (a :: q) p)))).
  split; [|done]. erewrite (bind_ok (lift _)); [|].
  2:{ unfold lift. instantiate (2 := opened Exclusive address h (agent_after (a :: q) p)).
      unfold agent_after. fold (heartbeat_after (a :: q) p). simpl. destruct (_ || _); done. }
  rewrite read_opened, bind_lift. by mstep E.
Qed.

(** An agent under garbage collection ends the process before any write. *)
Lemma executeActions_exit address a q h p s :
  agent_stored s address h p → being_garbage_collected p = true →
  executeActions address a q s = (Throw ProcessExit, s).
Proof.
  intros (Hwf & Ha & Hst & Ht) Hgc. unfold executeActions.
  mstep (open_locked_ok dummy Exclusive address h p s Hwf Ha Hst).
  unfold isBeingGarbageCollected. by rewrite read_opened, Hgc, bind_lift.
Qed.

Lemma agent_after_cons a l p : agent_after l (agent_after [a] p) = agent_after (a :: l) p.
Proof.
  unfold agent_after. fold (heartbeat_after [a] p) (heartbeat_after (a :: l) p). simpl.
  f_equal.
  - rewrite <- (heartbeat_after_cons a l p). done.
  - rewrite orb_false_r. destruct (modifies_ownership a) eqn:Ea; simpl.
    + unfold owned; simpl. rewrite set_iter_to_set. destruct (existsb _ l) eqn:El; [done|].
      f_equal. assert (∀ X, foldl owned_after X l = X) as ->; [|done].
      clear -El. induction l as [|b l IH]; intros X; [done|]. simpl in *.
      apply orb_false_iff in El as [Eb El]. destruct b; simplify_eq. simpl. auto.
    + destruct a; simplify_eq. unfold owned; simpl. done.
Qed.

Lemma owned_agent_after l p : owned (agent_after l p) = foldl owned_after (owned p) l.
Proof.
  unfold owned at 1, agent_after; simpl. destruct (existsb _ l) eqn:El; [apply set_iter_to_set|].
  fold (owned p). generalize (owned p). clear -El. induction l as [|b l IH]; intros X; [done|]. simpl in *.
  apply orb_false_iff in El as [Eb El]. destruct b; simplify_eq. simpl. auto.
Qed.

Lemma agent_after_nil p : agent_after [] p = p.
Proof. by destruct p. Qed.

(** The same actions executed one after the other. *)
Lemma sequential_spec address l h p s :
  agent_stored s address h p → being_garbage_collected p = false →
  ∃ s' h', mfor l (λ a, executeActions address a []) s = (Ok tt, s') ∧
    agent_stored s' address h' (agent_after l p) ∧
    h_owner h' = h_owner h ∧ h_backupowner h' = h_backupowner h ∧
    (∀ n, n ≠ address → be_view s' !! n = be_view s !! n).
Proof.
  revert h p s. induction l as [|a l IH]; intros h p s Hs Hgc; simpl.
  - exists s, h. by rewrite agent_after_nil.
  - destruct (executeActions_spec address a [] h p s Hs Hgc) as (s1 & h1 & E1 & Hs1 & Ho1 & Hb1 & Hf1).
    destruct (IH h1 _ s1 Hs1 Hgc) as (s2 & h2 & E2 & Hs2 & Ho2 & Hb2 & Hf2).
    exists s2, h2. mstep E1. split; [exact E2|].
    rewrite agent_after_cons in Hs2. split; [done|]. split; [congruence|]. split; [congruence|].
    intros n Hn. by rewrite Hf2, Hf1.
Qed.

(** A batch of actions executed by one thread on behalf of the others leaves the agent
    object exactly as the same actions executed one at a time in the order of the
    queue would: the owned set is the initial one with the additions and removals
    applied in order, listed in increasing order when an action touched it; the
    heartbeat counts the heartbeat actions modulo 2^64; the owner of the agent and
    every other object of the store are unchanged. *)
Lemma batch_is_sequential address a q h p s :
  agent_stored s address h p → being_garbage_collected p = false →
  ∃ s1 s2 h1 h2 p', executeActions address a q s = (Ok tt, s1) ∧
    mfor (a :: q) (λ x, executeActions address x []) s = (Ok tt, s2) ∧
    stored s1 address = Some (h1, p') ∧ stored s2 address = Some (h2, p') ∧
    owned p' = foldl owned_after (owned p) (a :: q) ∧
    (existsb modifies_ownership (a :: q) = true →
       ownedobjects p' = set_iter (owned p') ∧ NoDup (ownedobjects p') ∧ Sorted String.le (ownedobjects p')) ∧
    u64 (heartbeat p') = u64 (heartbeat p + beats (a :: q)) ∧
    h_owner h1 = h_owner h ∧ h_owner h2 = h_owner h ∧
    (∀ n, n ≠ address → be_view s1 !! n = be_view s !! n ∧ be_view s2 !! n = be_view s !! n).
Proof.
  intros Hs Hgc.
  destruct (executeActions_spec address a q h p s Hs Hgc) as (s1 & h1 & E1 & (_ & _ & Hs1 & _) & Ho1 & _ & Hf1).
  destruct (sequential_spec address (a :: q) h p s Hs Hgc) as (s2 & h2 & E2 & (_ & _ & Hs2 & _) & Ho2 & _ & Hf2).
  exists s1, s2, h1, h2, (agent_after (a :: q) p). do 4 (split; [done|]).
  split; [apply owned_agent_after|]. split; [|split; [|split; [done|split; [done|auto]]]].
  - intros Hm. rewrite owned_agent_after. unfold agent_after; cbn [ownedobjects]. rewrite Hm.
    split; [done|]. split; [apply NoDup_set_iter|apply set_iter_sorted].
  - cbn [agent_after heartbeat]. case_decide as Hb; [by rewrite Hb, Z.add_0_r|by rewrite u64_idemp].
Qed.
End AgentReference.

Section Witness.
Import Blob.
Definition demo_agent : Agent := mkAgentObject "" 4 120000000 ["b"; "a"] false (Some false).
Definition demo_agent_store : vfs (blob Agent) :=
  VFS.mkVfs {["agent" := BHdr Agent_t 0 "register" "register" (BMsg demo_agent)]} {["agent"]}.

Lemma demo_agent_stored :
  agent_stored demo_agent_store "agent" (mkHeader Agent_t 0 "register" "register" (BMsg demo_agent)) demo_agent.
Proof. split_and!; [by vm_compute|done|reflexivity|done]. Qed.

Lemma batch_is_sequential_witness :
  ∃ s1 s2 h1 h2 p',
    executeActions (BMsg demo_agent) "agent" (Add "c") [Heartbeat; RemoveBatch ["a"; "z"]] demo_agent_store = (Ok tt, s1) ∧
    mfor [Add "c"; Heartbeat; RemoveBatch ["a"; "z"]]
      (λ x, executeActions (BMsg demo_agent) "agent" x []) demo_agent_store = (Ok tt, s2) ∧
    stored s1 "agent" = Some (h1, p') ∧ stored s2 "agent" = Some (h2, p') ∧
    owned p' = {["b"; "c"]} ∧
    (true = true → ownedobjects p' = set_iter (owned p') ∧ NoDup (ownedobjects p') ∧
       Sorted String.le (ownedobjects p')) ∧
    u64 (heartbeat p') = u64 (4 + 1) ∧ h_owner h1 = "register" ∧ h_owner h2 = "register" ∧
    (∀ n, n ≠ "agent" → be_view s1 !! n = be_view demo_agent_store !! n ∧
       be_view s2 !! n = be_view demo_agent_store !! n).
Proof.
  exact (batch_is_sequential (BMsg demo_agent) "agent" (Add "c") [Heartbeat; RemoveBatch ["a"; "z"]]
    _ demo_agent demo_agent_store demo_agent_stored eq_refl).
Defined.
End Witness.
