(* ===== verification/AgentQueue.v ===== *)
(** * The action queue shared by the threads of an agent

    Model of [AgentReference::queueAndExecuteAction] as a state machine.  A thread
    that finds no listed queue creates one and serves it, the others append their
    action and wait.  Promises are chained: the thread that serves queue number
    [k] waits for promise [k] and fulfils promise [k + 1] after its commit.

    Each step is a critical section of the code (under [m_currentQueueMutex], or
    under the exclusive lock of the agent object for the execution) or the
    fulfilment of one promise.  A queue and the promise its server waits for are
    created in the same critical section and share their number here.  The fields
    [submitted] and [executed] record the history for the theorems. *)
From S2P Require Import Prelude Backend ObjectOps Handles Agent.

(** Where a thread is in [queueAndExecuteAction]. *)
Inductive pc :=
  | Idle
  | Follower (k : nat) (a : Action)             (** [actionFuture.get()] *)
  | Leader (k : nat) (a : Action)               (** [futureForThisQueue.get()] *)
  | Executing (k : nat) (a : Action)            (** queue closed, before the agent is locked *)
  | Signalling (k : nat) (r : result unit)      (** before [promiseForNextQueue->set_value()] *)
  | Releasing (k : nat) (r : result unit) (todo : list nat)  (** fulfilling the queued promises *)
  | Returned (r : result unit).

Record RefState (St : Type) := mkRef {
  m_currentQueue : option nat;
  m_nextPromise : nat;
  fulfilled : gset nat;
  queues : gmap nat (list (nat * Action));
  threads : list pc;
  ref_be : St;
  exited : bool;
  submitted : list Action;
  executed : list Action
}.
Arguments mkRef {St} _ _ _ _ _ _ _ _ _.
Arguments m_currentQueue {St} _.
Arguments m_nextPromise {St} _.
Arguments fulfilled {St} _.
Arguments queues {St} _.
Arguments threads {St} _.
Arguments ref_be {St} _.
Arguments exited {St} _.
Arguments submitted {St} _.
Arguments executed {St} _.

Section AgentQueue.
Context {B St : Type} `{!Serializable B (ObjectHeader B), !Serializable B Agent, !Backend B St}.
Context (dummy : B) (address : string).
Implicit Types (σ : RefState St) (t k : nat) (a : Action).

Definition queue_of k σ : list (nat * Action) := default [] (queues σ !! k).

(** A thread that is not in the function. *)
Definition outside (x : option pc) : bool :=
  match x with Some Idle | Some (Returned _) => true | _ => false end.

(** A thread calls the function: under the global mutex it joins the listed queue
    or creates and lists a new one, taking the pending promise and leaving a fresh
    one behind. *)
Definition submit t a σ : option (RefState St) :=
  if exited σ then None else
  if negb (outside (threads σ !! t)) then None else
      match m_currentQueue σ with
      | Some k =>
          Some (mkRef (Some k) (m_nextPromise σ) (fulfilled σ)
            (<[k := queue_of k σ ++ [(t, a)]]> (queues σ)) (<[t := Follower k a]> (threads σ))
            (ref_be σ) false (submitted σ ++ [a]) (executed σ))
      | None =>
          let k := m_nextPromise σ in
          Some (mkRef (Some k) (S k) (fulfilled σ) (<[k := []]> (queues σ))
            (<[t := Leader k a]> (threads σ)) (ref_be σ) false (submitted σ ++ [a]) (executed σ))
      end.

Definition set_thread t (x : pc) σ : RefState St :=
  mkRef (m_currentQueue σ) (m_nextPromise σ) (fulfilled σ) (queues σ) (<[t := x]> (threads σ))
    (ref_be σ) (exited σ) (submitted σ) (executed σ).

(** The next step of a thread inside the function, [None] when it has to wait. *)
Definition proceed t σ : option (RefState St) :=
  if exited σ then None else
  match threads σ !! t with
  | Some (Leader k a) =>
      if decide (k ∈ fulfilled σ) then
        if decide (m_currentQueue σ = Some k) then
          Some (set_thread t (Executing k a)
            (mkRef None (m_nextPromise σ) (fulfilled σ) (queues σ) (threads σ) (ref_be σ) false
               (submitted σ) (executed σ)))
        else Some (set_thread t (Returned (Throw (Exception "our queue is not the listed one as expected."))) σ)
      else None
  | Some (Executing k a) =>
      let q := snd <$> queue_of k σ in
      let '(r, s') := executeActions dummy address a q (ref_be σ) in
      Some (mkRef (m_currentQueue σ) (m_nextPromise σ) (fulfilled σ) (queues σ)
        (<[t := Signalling k r]> (threads σ)) s' (bool_decide (r = Throw ProcessExit))
        (submitted σ) (executed σ ++ a :: q))
  | Some (Signalling k r) =>
      Some (set_thread t (Releasing k r (fst <$> queue_of k σ))
        (mkRef (m_currentQueue σ) (m_nextPromise σ) ({[S k]} ∪ fulfilled σ) (queues σ) (threads σ)
           (ref_be σ) false (submitted σ) (executed σ)))
  | Some (Releasing k r (f :: todo)) =>
      Some (set_thread t (Releasing k r todo) (set_thread f (Returned r) σ))
  | Some (Releasing k r []) => Some (set_thread t (Returned r) σ)
  | _ => None
  end.

Inductive step : RefState St → RefState St → Prop :=
  | step_submit t a σ σ' : submit t a σ = Some σ' → step σ σ'
  | step_proceed t σ σ' : proceed t σ = Some σ' → step σ σ'.

(** After the constructor: no queue, promise 0 fulfilled. *)
Definition ref_init (n : nat) (s : St) : RefState St :=
  mkRef None 0 {[0%nat]} ∅ (replicate n Idle) s false [] [].

Inductive reachable (n : nat) (s : St) : RefState St → Prop :=
  | reach_init : reachable n s (ref_init n s)
  | reach_step σ σ' : reachable n s σ → step σ σ' → reachable n s σ'.

(** ** The invariant

    [m] is the last fulfilled promise; [ex] the thread between the closing of its
    queue and the fulfilment of the next promise; [wt] the thread whose queue is
    listed. *)
Definition listed_number (m : nat) (ex : option nat) : nat := match ex with Some _ => S m | None => m end.

(** The actions of the queue served by a thread that has not executed them. *)
Definition pending (ts : list pc) (Q : nat → list (nat * Action)) (o : option nat) : list Action :=
  match o ≫= λ t, ts !! t with
  | Some (Leader k a) | Some (Executing k a) => a :: (Q k).*2
  | _ => []
  end.

(** The threads [ts] and queues [Q], when [n] queues were created. *)
Record threads_ok (ts : list pc) (Q : nat → list (nat * Action)) (n m : nat) (ex wt : option nat) : Prop := {
  ok_wait t : wt = Some t → ∃ a, ts !! t = Some (Leader (listed_number m ex) a);
  ok_exec t : ex = Some t → (∃ a, ts !! t = Some (Executing m a)) ∨ (∃ r, ts !! t = Some (Signalling m r));
  ok_leader t k a : ts !! t = Some (Leader k a) → wt = Some t ∧ k = listed_number m ex;
  ok_executing t k a : ts !! t = Some (Executing k a) → ex = Some t ∧ k = m;
  ok_signalling t k r : ts !! t = Some (Signalling k r) → ex = Some t ∧ k = m;
  ok_queue k f a : (m ≤ k < n)%nat → (f, a) ∈ Q k → ts !! f = Some (Follower k a);
  ok_nodup k : NoDup (Q k).*1;
  ok_releasing t k r todo : ts !! t = Some (Releasing k r todo) →
    (k < m)%nat ∧ NoDup todo ∧ (∀ f, f ∈ todo → ∃ a, ts !! f = Some (Follower k a));
  ok_releaser t t' k r r' todo todo' : ts !! t = Some (Releasing k r todo) →
    ts !! t' = Some (Releasing k r' todo') → t = t';
  ok_follower f k a : ts !! f = Some (Follower k a) →
    ((m ≤ k < n)%nat ∧ (f, a) ∈ Q k) ∨ (∃ t r todo, ts !! t = Some (Releasing k r todo) ∧ f ∈ todo)
}.

Record inv σ (m : nat) (ex wt : option nat) : Prop := {
  inv_running : exited σ = false;
  inv_promises k : k ∈ fulfilled σ ↔ (k ≤ m)%nat;
  inv_current : m_currentQueue σ = (λ _, listed_number m ex) <$> wt;
  inv_next : m_nextPromise σ = (listed_number m ex + match wt with Some _ => 1 | None => 0 end)%nat;
  inv_threads : threads_ok (threads σ) (λ k, queue_of k σ) (m_nextPromise σ) m ex wt;
  inv_history : submitted σ = executed σ ++ pending (threads σ) (λ k, queue_of k σ) ex ++
    pending (threads σ) (λ k, queue_of k σ) wt
}.

Lemma queue_of_insert j q c n f qs ts s e h x k :
  queue_of k (mkRef c n f (<[j := q]> qs) ts s e h x : RefState St) =
    if decide (k = j) then q else default [] (qs !! k).
Proof.
  unfold queue_of; simpl. case_decide; subst; [by rewrite lookup_insert_eq|by rewrite lookup_insert_ne].
Qed.

(** *** Preservation for the threads *)
Lemma insert_thread (l : list pc) t x y t' :
  l !! t = Some y → <[t := x]> l !! t' = if decide (t' = t) then Some x else l !! t'.
Proof.
  intros H. case_decide; subst; [|by rewrite list_lookup_insert_ne].
  apply list_lookup_insert_eq. by eapply lookup_lt_Some.
Qed.

(** A thread outside the function. *)
Definition free (y : pc) : Prop := match y with Idle | Returned _ => True | _ => False end.

(** Case analysis on the thread that was updated, [Hl] being [insert_thread]. *)
Ltac by_thread Hl H := intros *; rewrite ?Hl; intros; repeat case_decide; simplify_eq/=; try done; try (by eapply H; eauto).

Section Kept.
Context (ts : list pc) (Q : nat → list (nat * Action)) (n m : nat) (ex wt : option nat).
Context (t : nat) (x y : pc) (H : threads_ok ts Q n m ex wt) (Hy : ts !! t = Some y).

Lemma kept_wait t' :
  (∀ k a, y ≠ Leader k a) → wt = Some t' →
  ∃ a, <[t := x]> ts !! t' = Some (Leader (listed_number m ex) a).
Proof.
  intros Hne E. destruct (ok_wait _ _ _ _ _ _ H t' E) as [a Ha]. exists a.
  rewrite (insert_thread _ _ _ _ _ Hy), decide_False; [done|naive_solver].
Qed.
Lemma kept_exec t' :
  (∀ k a, y ≠ Executing k a) → (∀ k r, y ≠ Signalling k r) → ex = Some t' →
  (∃ a, <[t := x]> ts !! t' = Some (Executing m a)) ∨ (∃ r, <[t := x]> ts !! t' = Some (Signalling m r)).
Proof.
  intros He Hs E. rewrite (insert_thread _ _ _ _ _ Hy).
  destruct (ok_exec _ _ _ _ _ _ H t' E) as [[a Ha]|[r Ha]]; rewrite decide_False by naive_solver; eauto.
Qed.
Lemma kept_queue k f a :
  (∀ k a, y ≠ Follower k a) → (m ≤ k < n)%nat → (f, a) ∈ Q k → <[t := x]> ts !! f = Some (Follower k a).
Proof.
  intros Hne Hk Hin. pose proof (ok_queue _ _ _ _ _ _ H k f a Hk Hin).
  rewrite (insert_thread _ _ _ _ _ Hy), decide_False; [done|naive_solver].
Qed.
Lemma kept_releasing t' k r todo :
  (∀ k a, y ≠ Follower k a) → ts !! t' = Some (Releasing k r todo) →
  (k < m)%nat ∧ NoDup todo ∧ (∀ f, f ∈ todo → ∃ a, <[t := x]> ts !! f = Some (Follower k a)).
Proof.
  intros Hne E. destruct (ok_releasing _ _ _ _ _ _ H _ _ _ _ E) as (? & ? & Hf).
  split; [done|]. split; [done|]. intros f Hin. destruct (Hf f Hin) as [a Ha]. exists a.
  rewrite (insert_thread _ _ _ _ _ Hy), decide_False; [done|naive_solver].
Qed.
Lemma kept_follower f k a :
  (∀ k r todo, f ∈ todo → y ≠ Releasing k r todo) → ts !! f = Some (Follower k a) →
  ((m ≤ k < n)%nat ∧ (f, a) ∈ Q k) ∨
  (∃ t' r todo, <[t := x]> ts !! t' = Some (Releasing k r todo) ∧ f ∈ todo).
Proof.
  intros Hne E. destruct (ok_follower _ _ _ _ _ _ H _ _ _ E) as [?|(t' & r & todo & Ht' & Hin)]; [by left|].
  right. exists t', r, todo. split; [|done].
  rewrite (insert_thread _ _ _ _ _ Hy), decide_False; [done|naive_solver].
Qed.
End Kept.

(** Fields about threads that the update of [t] leaves alone. *)
Ltac untouched Hl H := intros *; rewrite Hl; case_decide; [done|]; by apply H.

Lemma threads_join ts Q n m ex w t y a :
  threads_ok ts Q n m ex (Some w) → ts !! t = Some y → free y →
  (listed_number m ex < n)%nat →
  threads_ok (<[t := Follower (listed_number m ex) a]> ts)
    (λ k, if decide (k = listed_number m ex) then Q (listed_number m ex) ++ [(t, a)] else Q k) n m ex (Some w).
Proof.
  intros H Hy Hfree Hn. pose proof (λ x t', insert_thread _ t x _ t' Hy) as Hl.
  assert (Hm : (m ≤ listed_number m ex)%nat) by (destruct ex; simpl; lia).
  assert (Hnew : ∀ k a', (m ≤ k < n)%nat → (t, a') ∉ Q k).
  { intros k a' Hk Hin. apply (ok_queue _ _ _ _ _ _ H) in Hin; [|done]. rewrite Hy in Hin. by simplify_eq. }
  constructor.
  - intros t' E. eapply kept_wait; eauto. by destruct y.
  - intros t' E. eapply kept_exec; eauto; by destruct y.
  - untouched Hl (ok_leader _ _ _ _ _ _ H).
  - untouched Hl (ok_executing _ _ _ _ _ _ H).
  - untouched Hl (ok_signalling _ _ _ _ _ _ H).
  - intros k f a' Hk Hin. case_decide as E; [apply elem_of_app in Hin as [Hin|Hin]|].
    + eapply kept_queue; eauto; [by destruct y|by subst].
    + apply list_elem_of_singleton in Hin. simplify_eq. by rewrite Hl, decide_True.
    + eapply kept_queue; eauto. by destruct y.
  - intros k. case_decide; [|apply H]. rewrite fmap_app. apply NoDup_app. split; [apply H|].
    split; [|apply NoDup_singleton]. intros f Hf. simpl. rewrite list_elem_of_singleton. intros ->.
    apply list_elem_of_fmap in Hf as ([f' a'] & -> & Hin). eapply Hnew; [|exact Hin]. lia.
  - intros *. rewrite Hl. case_decide; [done|]. intros E. eapply kept_releasing; eauto. by destruct y.
  - by_thread Hl (ok_releaser _ _ _ _ _ _ H).
  - intros f k a'. rewrite Hl. case_decide as Hft.
    + intros; simplify_eq. left. split; [lia|]. rewrite decide_True by done. rewrite elem_of_app. right. by left.
    + intros E. destruct (kept_follower ts Q n m ex _ t (Follower (listed_number m ex) a) y H Hy f k a')
        as [[? Hin]|?]; [by destruct y|done| |by right].
      left. split; [done|]. case_decide; subst; [|done]. rewrite elem_of_app. by left.
Qed.

Lemma threads_new ts Q m ex t y a :
  let n := listed_number m ex in
  threads_ok ts Q n m ex None → ts !! t = Some y → free y →
  threads_ok (<[t := Leader n a]> ts) (λ k, if decide (k = n) then [] else Q k) (S n) m ex (Some t).
Proof.
  intros n H Hy Hfree. pose proof (λ x t', insert_thread _ t x _ t' Hy) as Hl.
  constructor.
  - intros t' E. simplify_eq. exists a. by rewrite Hl, decide_True.
  - intros t' E. eapply kept_exec; eauto; by destruct y.
  - intros *. rewrite Hl. case_decide; intros; simplify_eq; [done|].
    by destruct (ok_leader _ _ _ _ _ _ H t0 k a0).
  - untouched Hl (ok_executing _ _ _ _ _ _ H).
  - untouched Hl (ok_signalling _ _ _ _ _ _ H).
  - intros k f a' Hk. case_decide; [set_solver|]. intros Hin.
    eapply kept_queue; eauto; [by destruct y|lia].
  - intros k. case_decide; [constructor|apply H].
  - intros *. rewrite Hl. case_decide; [done|]. intros E. eapply kept_releasing; eauto. by destruct y.
  - by_thread Hl (ok_releaser _ _ _ _ _ _ H).
  - intros f k a'. rewrite Hl. case_decide as Hft; [done|]. intros E.
    destruct (kept_follower ts Q n m ex _ t (Leader n a) y H Hy f k a')
      as [[? Hin]|?]; [by destruct y|done| |by right].
    left. split; [lia|]. rewrite decide_False by lia. done.
Qed.

(** Steps of the serving thread that do not touch the queues nor the followers. *)
Lemma threads_close ts Q n m t a :
  threads_ok ts Q n m None (Some t) → ts !! t = Some (Leader m a) →
  threads_ok (<[t := Executing m a]> ts) Q n m (Some t) None.
Proof.
  intros H Hy. pose proof (λ x t', insert_thread _ t x _ t' Hy) as Hl. constructor.
  - done.
  - intros t' E. simplify_eq. left. exists a. by rewrite Hl, decide_True.
  - intros *. rewrite Hl. case_decide; [done|]. intros E. by destruct (ok_leader _ _ _ _ _ _ H t0 k a0 E); simplify_eq.
  - intros *. rewrite Hl. case_decide; intros; simplify_eq; [done|]. by destruct (ok_executing _ _ _ _ _ _ H t0 k a0).
  - intros *. rewrite Hl. case_decide; intros; simplify_eq. by destruct (ok_signalling _ _ _ _ _ _ H t0 k r).
  - intros k f a' Hk Hin. by eapply kept_queue.
  - apply H.
  - intros *. rewrite Hl. case_decide; [done|]. intros E. by eapply kept_releasing.
  - by_thread Hl (ok_releaser _ _ _ _ _ _ H).
  - intros f k a'. rewrite Hl. case_decide as Hft; [done|]. intros E.
    by eapply kept_follower.
Qed.

Lemma threads_execute ts Q n m wt t a r :
  threads_ok ts Q n m (Some t) wt → ts !! t = Some (Executing m a) →
  threads_ok (<[t := Signalling m r]> ts) Q n m (Some t) wt.
Proof.
  intros H Hy. pose proof (λ x t', insert_thread _ t x _ t' Hy) as Hl. constructor.
  - intros t' E. by eapply kept_wait.
  - intros t' E. simplify_eq. right. exists r. by rewrite Hl, decide_True.
  - untouched Hl (ok_leader _ _ _ _ _ _ H).
  - untouched Hl (ok_executing _ _ _ _ _ _ H).
  - intros *. rewrite Hl. case_decide; intros; simplify_eq; [done|]. by apply (ok_signalling _ _ _ _ _ _ H t0 k r0).
  - intros k f a' Hk Hin. by eapply kept_queue.
  - apply H.
  - intros *. rewrite Hl. case_decide; [done|]. intros E. by eapply kept_releasing.
  - by_thread Hl (ok_releaser _ _ _ _ _ _ H).
  - intros f k a'. rewrite Hl. case_decide as Hft; [done|]. intros E.
    by eapply kept_follower.
Qed.

Lemma threads_signal ts Q n m wt t r :
  threads_ok ts Q n m (Some t) wt → ts !! t = Some (Signalling m r) → (m < n)%nat →
  threads_ok (<[t := Releasing m r (Q m).*1]> ts) Q n (S m) None wt.
Proof.
  intros H Hy Hn. pose proof (λ x t', insert_thread _ t x _ t' Hy) as Hl. constructor.
  - intros t' E. by eapply (kept_wait ts Q n m (Some t)).
  - done.
  - untouched Hl (ok_leader _ _ _ _ _ _ H).
  - intros *. rewrite Hl. case_decide; [done|]. intros E. by destruct (ok_executing _ _ _ _ _ _ H t0 k a E); simplify_eq.
  - intros *. rewrite Hl. case_decide; [done|]. intros E. by destruct (ok_signalling _ _ _ _ _ _ H t0 k r0 E); simplify_eq.
  - intros k f a' Hk Hin. eapply (kept_queue ts Q n m); eauto; lia.
  - apply H.
  - intros t' k r' todo. rewrite Hl. case_decide; intros E; simplify_eq.
    + split; [lia|]. split; [apply H|]. intros f Hf. apply list_elem_of_fmap in Hf as ([f' a'] & -> & Hin). exists a'.
      eapply (kept_queue ts Q n k); eauto; lia.
    + destruct (kept_releasing ts Q n m _ _ t (Releasing m r (Q m).*1) _ H Hy t' k r' todo) as (? & ? & ?);
        [done..|]. split; [lia|done].
  - intros t1 t2 k r1 r2 l1 l2. rewrite !Hl. destruct (decide (t1 = t)), (decide (t2 = t)); intros E1 E2; [congruence| | |].
    + apply (ok_releasing _ _ _ _ _ _ H) in E2 as [? _]. simplify_eq. lia.
    + apply (ok_releasing _ _ _ _ _ _ H) in E1 as [? _]. simplify_eq. lia.
    + by eapply (ok_releaser _ _ _ _ _ _ H).
  - intros f k a'. rewrite Hl. case_decide as Hft; [done|]. intros E.
    destruct (kept_follower ts Q n m _ _ t (Releasing m r (Q m).*1) _ H Hy f k a')
      as [[? Hin]|?]; [done..| |by right].
    destruct (decide (k = m)) as [->|]; [right|left; split; [lia|done]].
    exists t, r, (Q m).*1. rewrite Hl, decide_True by done. split; [done|]. by apply (list_elem_of_fmap_2 fst) in Hin.
Qed.

Lemma threads_return ts Q n m ex wt t k r :
  threads_ok ts Q n m ex wt → ts !! t = Some (Releasing k r []) →
  threads_ok (<[t := Returned r]> ts) Q n m ex wt.
Proof.
  intros H Hy. pose proof (λ x t', insert_thread _ t x _ t' Hy) as Hl. constructor.
  - intros t' E. by eapply kept_wait.
  - intros t' E. by eapply kept_exec.
  - untouched Hl (ok_leader _ _ _ _ _ _ H).
  - untouched Hl (ok_executing _ _ _ _ _ _ H).
  - untouched Hl (ok_signalling _ _ _ _ _ _ H).
  - intros k' f a' Hk Hin. by eapply kept_queue.
  - apply H.
  - intros *. rewrite Hl. case_decide; [done|]. intros E. by eapply kept_releasing.
  - by_thread Hl (ok_releaser _ _ _ _ _ _ H).
  - intros f k' a'. rewrite Hl. case_decide as Hft; [done|]. intros E.
    eapply kept_follower; eauto. intros ??? Hin ?. simplify_eq. set_solver.
Qed.

Lemma threads_release ts Q n m ex wt t k r f todo :
  threads_ok ts Q n m ex wt → ts !! t = Some (Releasing k r (f :: todo)) →
  threads_ok (<[t := Releasing k r todo]> (<[f := Returned r]> ts)) Q n m ex wt.
Proof.
  intros H Hy. destruct (ok_releasing _ _ _ _ _ _ H _ _ _ _ Hy) as (Hk & Hnd & Hf).
  apply NoDup_cons in Hnd as [Hnf Hnd]. destruct (Hf f) as [a Ha]; [by left|].
  assert (Hl : ∀ t', <[t := Releasing k r todo]> (<[f := Returned r]> ts) !! t' =
    if decide (t' = t) then Some (Releasing k r todo) else if decide (t' = f) then Some (Returned r) else ts !! t').
  { intros t'. erewrite insert_thread; [by rewrite (insert_thread _ _ _ _ t' Ha)|].
    rewrite (insert_thread _ _ _ _ t Ha), decide_False; [exact Hy|congruence]. }
  assert (Hkeep : ∀ t' x, ts !! t' = Some x → t' ≠ t → t' ≠ f →
    <[t := Releasing k r todo]> (<[f := Returned r]> ts) !! t' = Some x).
  { intros. by rewrite Hl, !decide_False. }
  constructor.
  - intros t' E. destruct (ok_wait _ _ _ _ _ _ H t' E) as [a' Ha']. exists a'. apply Hkeep; congruence.
  - intros t' E. destruct (ok_exec _ _ _ _ _ _ H t' E) as [[a' Ha']|[r' Ha']]; [left; exists a'|right; exists r'];
      apply Hkeep; congruence.
  - intros *. rewrite Hl. do 2 (case_decide; [done|]). apply H.
  - intros *. rewrite Hl. do 2 (case_decide; [done|]). apply H.
  - intros *. rewrite Hl. do 2 (case_decide; [done|]). apply H.
  - intros k' f' a' Hk' Hin. pose proof (ok_queue _ _ _ _ _ _ H _ _ _ Hk' Hin) as E.
    apply Hkeep; [done|congruence|]. intros ->. simplify_eq. lia.
  - apply H.
  - intros t' k' r' todo'. rewrite Hl. case_decide as Ht; [|case_decide; [done|]]; intros E; simplify_eq.
    + split; [done|]. split; [done|]. intros f' Hf'. destruct (Hf f') as [a' Ha']; [by right|].
      exists a'. apply Hkeep; congruence.
    + destruct (ok_releasing _ _ _ _ _ _ H _ _ _ _ E) as (? & ? & Hf2). split; [done|]. split; [done|].
      intros f' Hf'. destruct (Hf2 f' Hf') as [a' Ha']. exists a'. apply Hkeep; [done|congruence|].
      intros ->. simplify_eq. apply Ht. by eapply (ok_releaser _ _ _ _ _ _ H).
  - intros t1 t2 k' r1 r2 l1 l2. rewrite !Hl.
    destruct (decide (t1 = t)), (decide (t2 = t)); repeat (case_decide; [done|]); intros E1 E2; simplify_eq; try done;
      by eapply (ok_releaser _ _ _ _ _ _ H).
  - intros f' k' a'. rewrite Hl. do 2 (case_decide; [done|]). intros E.
    destruct (ok_follower _ _ _ _ _ _ H _ _ _ E) as [?|(t' & r' & todo' & Ht' & Hin)]; [by left|]. right.
    destruct (decide (t' = t)) as [->|]; simplify_eq.
    + exists t, r, todo. rewrite Hl, decide_True by done. split; [done|]. set_solver.
    + exists t', r', todo'. split; [|done]. apply Hkeep; congruence.
Qed.

(** *** Preservation by the steps *)
Lemma pending_ex ts Q Q' n m ex wt t x y :
  threads_ok ts Q n m ex wt → ts !! t = Some y → ex ≠ Some t → (∀ t', ex = Some t' → Q' m = Q m) →
  pending (<[t := x]> ts) Q' ex = pending ts Q ex.
Proof.
  intros H Hy Ho HQ. unfold pending. destruct ex as [t'|]; [|done]. simpl.
  rewrite (insert_thread _ _ _ _ _ Hy), decide_False by congruence.
  destruct (ok_exec _ _ _ _ _ _ H t' eq_refl) as [[a ->]|[r ->]]; [by erewrite HQ|done].
Qed.
Lemma pending_wt ts Q Q' n m ex wt t x y :
  threads_ok ts Q n m ex wt → ts !! t = Some y → wt ≠ Some t → Q' (listed_number m ex) = Q (listed_number m ex) →
  pending (<[t := x]> ts) Q' wt = pending ts Q wt.
Proof.
  intros H Hy Ho HQ. unfold pending. destruct wt as [t'|]; [|done]. simpl.
  rewrite (insert_thread _ _ _ _ _ Hy), decide_False by congruence.
  destruct (ok_wait _ _ _ _ _ _ H t' eq_refl) as [a ->]. by rewrite HQ.
Qed.

(** An idle thread serves no queue. *)
Lemma free_not_serving ts Q n m ex wt t y :
  threads_ok ts Q n m ex wt → ts !! t = Some y → free y → ex ≠ Some t ∧ wt ≠ Some t.
Proof.
  intros H Hy Hfree. split; intros ->.
  - destruct (ok_exec _ _ _ _ _ _ H t eq_refl) as [[? ?]|[? ?]]; by simplify_eq.
  - destruct (ok_wait _ _ _ _ _ _ H t eq_refl) as [? ?]; by simplify_eq.
Qed.

Lemma threads_ok_ext ts Q Q' n m ex wt :
  (∀ k, Q' k = Q k) → threads_ok ts Q n m ex wt → threads_ok ts Q' n m ex wt.
Proof.
  intros HQ H. constructor; intros *; rewrite ?HQ; apply H.
Qed.
Lemma pending_ext ts Q Q' o : (∀ k, Q' k = Q k) → pending ts Q' o = pending ts Q o.
Proof. intros HQ. unfold pending. destruct (_ ≫= _) as [[]|]; by rewrite ?HQ. Qed.

Lemma inv_join σ m ex w t y a :
  let k := listed_number m ex in
  inv σ m ex (Some w) → threads σ !! t = Some y → free y →
  inv (mkRef (Some k) (m_nextPromise σ) (fulfilled σ)
            (<[k := queue_of k σ ++ [(t, a)]]> (queues σ)) (<[t := Follower k a]> (threads σ))
            (ref_be σ) false (submitted σ ++ [a]) (executed σ)) m ex (Some w).
Proof.
  intros k Hi Hy Hfree. pose proof (inv_threads _ _ _ _ Hi) as Hts.
  destruct (free_not_serving _ _ _ _ _ _ _ _ Hts Hy Hfree) as [Hex Hwt].
  pose proof (inv_next _ _ _ _ Hi) as Hn. simpl in Hn.
  constructor; simpl; try apply Hi; try done.
  - eapply threads_ok_ext; [intros j; apply queue_of_insert|].
    eapply (threads_join _ (λ j, queue_of j σ)); eauto. unfold k in *. lia.
  - rewrite !(pending_ext _ _ _ _ (queue_of_insert k _ _ _ _ _ _ _ _ _ _)), (inv_history _ _ _ _ Hi).
    rewrite (pending_ex _ (λ j, queue_of j σ) _ _ _ _ _ _ _ _ Hts Hy Hex)
      by (intros t' ->; unfold k; simpl; by rewrite decide_False by lia).
    rewrite <- !app_assoc. do 2 f_equal. unfold pending. simpl.
    destruct (ok_wait _ _ _ _ _ _ Hts w eq_refl) as [a' Ha'].
    rewrite (insert_thread _ _ _ _ _ Hy), (decide_False (P := w = t)), Ha' by congruence.
    by rewrite decide_True, fmap_app by done.
Qed.

Lemma inv_new σ m ex t y a :
  let k := m_nextPromise σ in
  inv σ m ex None → threads σ !! t = Some y → free y →
  inv (mkRef (Some k) (S k) (fulfilled σ) (<[k := []]> (queues σ))
            (<[t := Leader k a]> (threads σ)) (ref_be σ) false (submitted σ ++ [a]) (executed σ)) m ex (Some t).
Proof.
  intros k Hi Hy Hfree. pose proof (inv_threads _ _ _ _ Hi) as Hts.
  destruct (free_not_serving _ _ _ _ _ _ _ _ Hts Hy Hfree) as [Hex Hwt].
  pose proof (inv_next _ _ _ _ Hi) as Hn. simpl in Hn. rewrite Nat.add_0_r in Hn. rewrite Hn in Hts.
  unfold k. rewrite !Hn. constructor; simpl; try apply Hi; try done; [lia|..].
  - eapply threads_ok_ext; [intros j; apply queue_of_insert|].
    by eapply (threads_new _ (λ j, queue_of j σ)).
  - rewrite !(pending_ext _ _ _ _ (queue_of_insert _ _ _ _ _ _ _ _ _ _ _)), (inv_history _ _ _ _ Hi).
    rewrite (pending_ex _ (λ j, queue_of j σ) _ _ _ _ _ _ _ _ Hts Hy Hex)
      by (intros t' ->; simpl; by rewrite decide_False by lia).
    unfold pending at 3 4. simpl. rewrite (insert_thread _ _ _ _ _ Hy), !decide_True by done. simpl.
    by rewrite app_nil_r, <- app_assoc.
Qed.

Lemma inv_submit σ σ' m ex wt t a :
  inv σ m ex wt → submit t a σ = Some σ' → ∃ wt', inv σ' m ex wt'.
Proof.
  intros Hi. unfold submit. rewrite (inv_running _ _ _ _ Hi), (inv_current _ _ _ _ Hi).
  destruct (outside _) eqn:Ho; simpl; [|done].
  destruct (threads σ !! t) as [y|] eqn:Hy; [|done]. assert (free y) by (by destruct y).
  destruct wt as [w|]; simpl; intros; simplify_eq; eexists; [by eapply inv_join|by eapply inv_new].
Qed.

(** The server of a queue whose promise is fulfilled finds its queue listed. *)
Lemma inv_close σ m ex wt t k a :
  inv σ m ex wt → threads σ !! t = Some (Leader k a) → k ∈ fulfilled σ →
  m_currentQueue σ = Some k ∧ ex = None ∧
  inv (set_thread t (Executing k a)
    (mkRef None (m_nextPromise σ) (fulfilled σ) (queues σ) (threads σ) (ref_be σ) false
       (submitted σ) (executed σ))) m (Some t) None.
Proof.
  intros Hi Hy Hk. pose proof (inv_threads _ _ _ _ Hi) as Hts.
  destruct (ok_leader _ _ _ _ _ _ Hts _ _ _ Hy) as [-> ->].
  apply (inv_promises _ _ _ _ Hi) in Hk. destruct ex as [e|]; [simpl in Hk; lia|]. simpl in *.
  pose proof (inv_next _ _ _ _ Hi) as Hn. pose proof (inv_current _ _ _ _ Hi) as Hc. simpl in *.
  split; [done|]. split; [done|]. constructor; simpl; try apply Hi; try done; [lia|..].
  - by eapply threads_close.
  - rewrite (inv_history _ _ _ _ Hi). f_equal. unfold pending. simpl. rewrite Hy.
    rewrite (insert_thread _ _ _ _ _ Hy), decide_True by done. by rewrite app_nil_r.
Qed.

Lemma inv_execute σ m ex wt t k a r s' :
  inv σ m ex wt → threads σ !! t = Some (Executing k a) → r ≠ Throw ProcessExit →
  inv (mkRef (m_currentQueue σ) (m_nextPromise σ) (fulfilled σ) (queues σ)
        (<[t := Signalling k r]> (threads σ)) s' (bool_decide (r = Throw ProcessExit))
        (submitted σ) (executed σ ++ a :: (queue_of k σ).*2)) m ex wt.
Proof.
  intros Hi Hy Hr. pose proof (inv_threads _ _ _ _ Hi) as Hts.
  destruct (ok_executing _ _ _ _ _ _ Hts _ _ _ Hy) as [-> ->].
  assert (Hwt : wt ≠ Some t).
  { intros ->. destruct (ok_wait _ _ _ _ _ _ Hts t eq_refl). congruence. }
  constructor; simpl; try apply Hi; [by rewrite bool_decide_false|by eapply threads_execute|].
  rewrite (inv_history _ _ _ _ Hi), <- app_assoc. f_equal.
  rewrite (pending_wt _ (λ j, queue_of j σ) _ _ _ _ _ _ _ _ Hts Hy Hwt) by done.
  unfold pending at 1 3. simpl. rewrite Hy, (insert_thread _ _ _ _ _ Hy), decide_True by done. done.
Qed.

Lemma inv_signal σ m ex wt t k r :
  inv σ m ex wt → threads σ !! t = Some (Signalling k r) →
  inv (set_thread t (Releasing k r (queue_of k σ).*1)
        (mkRef (m_currentQueue σ) (m_nextPromise σ) ({[S k]} ∪ fulfilled σ) (queues σ) (threads σ)
           (ref_be σ) false (submitted σ) (executed σ))) (S m) None wt.
Proof.
  intros Hi Hy. pose proof (inv_threads _ _ _ _ Hi) as Hts.
  destruct (ok_signalling _ _ _ _ _ _ Hts _ _ _ Hy) as [-> ->].
  assert (Hwt : wt ≠ Some t).
  { intros ->. destruct (ok_wait _ _ _ _ _ _ Hts t eq_refl). congruence. }
  pose proof (inv_next _ _ _ _ Hi) as Hn. simpl in Hn.
  constructor; simpl; try apply Hi; try done.
  - intros j. rewrite elem_of_union, elem_of_singleton, (inv_promises _ _ _ _ Hi). lia.
  - apply (threads_signal _ (λ j, queue_of j σ)); [done..|]. lia.
  - rewrite (inv_history _ _ _ _ Hi). f_equal.
    rewrite (pending_wt _ (λ j, queue_of j σ) _ _ _ _ _ _ _ _ Hts Hy Hwt) by done.
    unfold pending at 1. simpl. by rewrite Hy.
Qed.

Lemma inv_release σ m ex wt t k r f todo :
  inv σ m ex wt → threads σ !! t = Some (Releasing k r (f :: todo)) →
  inv (set_thread t (Releasing k r todo) (set_thread f (Returned r) σ)) m ex wt.
Proof.
  intros Hi Hy. pose proof (inv_threads _ _ _ _ Hi) as Hts.
  pose proof (threads_release _ _ _ _ _ _ _ _ _ _ _ Hts Hy) as Hts'.
  constructor; simpl; try apply Hi; [done|].
  destruct (ok_releasing _ _ _ _ _ _ Hts _ _ _ _ Hy) as (_ & _ & Hf). destruct (Hf f) as [a Ha]; [by left|].
  rewrite (inv_history _ _ _ _ Hi). f_equal.
  assert (Hk : ∀ o, (∃ k' a', threads σ !! o = Some (Leader k' a')) ∨ (∃ k' a', threads σ !! o = Some (Executing k' a')) ∨
    (∃ k' r', threads σ !! o = Some (Signalling k' r')) →
    <[t:=Releasing k r todo]> (<[f:=Returned r]> (threads σ)) !! o = threads σ !! o).
  { intros o Ho. rewrite !list_lookup_insert_ne; [done|intros ->; naive_solver..]. }
  f_equal; unfold pending; [destruct ex as [o|]|destruct wt as [o|]]; try done; simpl; rewrite Hk; try done.
  - destruct (ok_exec _ _ _ _ _ _ Hts o eq_refl) as [[]|[]]; eauto.
  - destruct (ok_wait _ _ _ _ _ _ Hts o eq_refl); eauto.
Qed.

Lemma inv_return σ m ex wt t k r :
  inv σ m ex wt → threads σ !! t = Some (Releasing k r []) → inv (set_thread t (Returned r) σ) m ex wt.
Proof.
  intros Hi Hy. pose proof (inv_threads _ _ _ _ Hi) as Hts.
  constructor; simpl; try apply Hi; [by eapply threads_return|].
  rewrite (inv_history _ _ _ _ Hi).
  rewrite (pending_ex _ (λ j, queue_of j σ) _ _ _ _ _ _ _ _ Hts Hy),
    (pending_wt _ (λ j, queue_of j σ) _ _ _ _ _ _ _ _ Hts Hy); try done.
  - intros ->. destruct (ok_wait _ _ _ _ _ _ Hts t eq_refl). congruence.
  - intros ->. destruct (ok_exec _ _ _ _ _ _ Hts t eq_refl) as [[]|[]]; congruence.
Qed.

(** ** The agent object along the run *)
Lemma agent_after_app (l l2 : list Action) p : agent_after (l ++ l2) p = agent_after l2 (agent_after l p).
Proof.
  revert p. induction l as [|a l IH]; intros p; simpl; [by rewrite agent_after_nil|].
  by rewrite <- agent_after_cons, IH, <- (agent_after_cons a l).
Qed.

(** Results handed to the threads. *)
Definition results_ok (ts : list pc) : Prop :=
  ∀ t x, ts !! t = Some x →
    match x with Signalling _ r | Releasing _ r _ | Returned r => r = Ok tt | _ => True end.

Lemma results_insert ts t x :
  results_ok ts → match x with Signalling _ r | Releasing _ r _ | Returned r => r = Ok tt | _ => True end →
  results_ok (<[t := x]> ts).
Proof.
  intros H Hx t' y E. apply list_lookup_insert_Some in E as [(-> & <- & _)|[_ E]]; [done|by apply (H t')].
Qed.

Definition agent_inv (p : Agent) σ : Prop :=
  (∃ m ex wt, inv σ m ex wt) ∧ results_ok (threads σ) ∧
  ∃ h, agent_stored (ref_be σ) address h (agent_after (executed σ) p).

Lemma agent_inv_submit p σ σ' t a : agent_inv p σ → submit t a σ = Some σ' → agent_inv p σ'.
Proof.
  intros ((m & ex & wt & Hi) & Hr & Hs) E. destruct (inv_submit _ _ _ _ _ _ _ Hi E) as [wt' Hi'].
  split; [eauto|]. unfold submit in E. destruct (exited σ), (outside (threads σ !! t)), (m_currentQueue σ); simplify_eq/=;
    (split; [by apply results_insert|done]).
Qed.

Lemma agent_inv_proceed p σ σ' t :
  being_garbage_collected p = false → agent_inv p σ → proceed t σ = Some σ' → agent_inv p σ'.
Proof.
  intros Hgc ((m & ex & wt & Hi) & Hr & h & Hs). unfold proceed. rewrite (inv_running _ _ _ _ Hi).
  destruct (threads σ !! t) as [[]|] eqn:Hy; try done.
  - destruct (decide (k ∈ fulfilled σ)) as [Hk|]; [|done].
    destruct (inv_close _ _ _ _ _ _ _ Hi Hy Hk) as (Hc & -> & Hi'). rewrite decide_True by done.
    intros; simplify_eq. split; [eauto|]. split; [by apply results_insert|eauto].
  - destruct (executeActions_spec dummy address a (queue_of k σ).*2 h _ (ref_be σ) Hs) as (s' & h' & E & Hs' & _); [done|].
    rewrite E. intros; simplify_eq. split; [do 3 eexists; by eapply inv_execute|].
    split; [by apply results_insert|]. exists h'. simpl. by rewrite agent_after_app.
  - intros; simplify_eq. pose proof (Hr _ _ Hy) as Hok. simpl in Hok.
    split; [do 3 eexists; by eapply inv_signal|]. split; [by apply results_insert|eauto].
  - pose proof (Hr _ _ Hy) as Hok. simpl in Hok. destruct todo as [|f todo]; intros; simplify_eq.
    + split; [do 3 eexists; by eapply inv_return|]. split; [by apply results_insert|eauto].
    + split; [do 3 eexists; by eapply inv_release|]. split; [by apply results_insert; [apply results_insert|]|eauto].
Qed.

Lemma agent_inv_init n s h p : agent_stored s address h p → agent_inv p (ref_init n s).
Proof.
  intros Hs. split; [exists 0%nat, None, None; constructor|split].
  - done.
  - intros k. simpl. rewrite elem_of_singleton. lia.
  - done.
  - done.
  - assert (H : ∀ t x, replicate n Idle !! t = Some x → x = Idle) by (intros t x E; by apply lookup_replicate in E as [-> _]).
    assert (HQ : ∀ k, queue_of k (ref_init n s) = []) by (intros k; unfold queue_of; simpl; by rewrite lookup_empty).
    constructor; simpl; intros *; rewrite ?HQ; try done; try (by intros E%H).
    + intros _ ?. set_solver.
    + constructor.
  - done.
  - intros t x E. simpl in E. by apply lookup_replicate in E as [-> _].
  - exists h. simpl. by rewrite agent_after_nil.
Qed.

Lemma agent_inv_reachable n s h p σ :
  agent_stored s address h p → being_garbage_collected p = false → reachable n s σ → agent_inv p σ.
Proof.
  intros Hs Hgc. induction 1 as [|σ σ' _ IH Hstep]; [by eapply agent_inv_init|].
  destruct Hstep; [by eapply agent_inv_submit|by eapply agent_inv_proceed].
Qed.

(** C22: In every interleaving of any number of threads sharing an agent
    reference: the actions reach the agent object in the order in which the threads
    submitted them, none is lost or applied twice, the stored agent is the initial
    one with the executed actions applied, at most one thread is between the closing
    of its queue and the end of its commit, and no call returns an exception (in
    particular a server never finds another queue listed). *)
Theorem queue_linearizes n s σ h p :
  agent_stored s address h p → being_garbage_collected p = false → reachable n s σ →
  (∃ waiting, submitted σ = executed σ ++ waiting) ∧
  (∃ h', stored (ref_be σ) address = Some (h', agent_after (executed σ) p)) ∧
  (∀ t1 t2 k1 k2 a1 a2, threads σ !! t1 = Some (Executing k1 a1) → threads σ !! t2 = Some (Executing k2 a2) → t1 = t2) ∧
  (∀ t r, threads σ !! t = Some (Returned r) → r = Ok tt) ∧
  ((∀ t x, threads σ !! t = Some x → outside (Some x) = true) → executed σ = submitted σ).
Proof.
  intros Hs Hgc Hreach.
  destruct (agent_inv_reachable _ _ _ _ _ Hs Hgc Hreach) as ((m & ex & wt & Hi) & Hr & h' & Hs').
  pose proof (inv_threads _ _ _ _ Hi) as Hts. split; [eexists; apply Hi|].
  split; [exists h'; apply Hs'|]. split; [|split].
  - intros t1 t2 k1 k2 a1 a2 [E1 _]%(ok_executing _ _ _ _ _ _ Hts) [E2 _]%(ok_executing _ _ _ _ _ _ Hts). congruence.
  - intros t r Ht. apply (Hr _ _ Ht).
  - intros Hout. rewrite (inv_history _ _ _ _ Hi).
    assert (∀ o, pending (threads σ) (λ k, queue_of k σ) o = []) as Hp; [|by rewrite !Hp, !app_nil_r].
    intros [t|]; [|done]. unfold pending; simpl. destruct (threads σ !! t) as [x|] eqn:E; [|done].
    specialize (Hout _ _ E). by destruct x.
Qed.

(** ** Progress *)
Definition weight (x : pc) : nat :=
  match x with
  | Idle | Returned _ => 0 | Follower _ _ => 1 | Releasing _ _ _ => 1
  | Signalling _ _ => 2 | Executing _ _ => 3 | Leader _ _ => 4
  end.
Definition work σ : nat := sum_list_with weight (threads σ).

Lemma sum_list_insert (ts : list pc) t x y :
  ts !! t = Some y → (sum_list_with weight (<[t := x]> ts) + weight y = sum_list_with weight ts + weight x)%nat.
Proof.
  revert t. induction ts as [|z ts IH]; intros [|t] E; simplify_eq/=; [lia|].
  specialize (IH t E). lia.
Qed.

Lemma work_decreases p σ σ' t : agent_inv p σ → proceed t σ = Some σ' → (work σ' < work σ)%nat.
Proof.
  intros ((m & ex & wt & Hi) & _ & _). unfold proceed, work. rewrite (inv_running _ _ _ _ Hi).
  destruct (threads σ !! t) as [[]|] eqn:Hy; try done.
  all: pose proof (λ x, sum_list_insert (threads σ) t x _ Hy) as Hw; simpl in Hw.
  - repeat case_decide; intros; simplify_eq; simpl; match goal with |- context [<[t:=?x]> _] => specialize (Hw x) end;
      simpl in Hw; lia.
  - destruct (executeActions _ _ _ _ _) as [r s']. intros; simplify_eq; simpl. specialize (Hw (Signalling k r)). simpl in Hw. lia.
  - intros; simplify_eq; simpl. specialize (Hw (Releasing k r (queue_of k σ).*1)). simpl in Hw. lia.
  - destruct todo as [|f todo]; intros; simplify_eq; simpl; [specialize (Hw (Returned r)); simpl in Hw; lia|].
    destruct (ok_releasing _ _ _ _ _ _ (inv_threads _ _ _ _ Hi) _ _ _ _ Hy) as (_ & _ & Hf).
    destruct (Hf f) as [a Ha]; [by left|]. pose proof (sum_list_insert _ f (Returned r) _ Ha) as H1. simpl in H1.
    assert (Hy' : <[f := Returned r]> (threads σ) !! t = Some (Releasing k r (f :: todo))).
    { rewrite list_lookup_insert_ne; [done|congruence]. }
    pose proof (sum_list_insert _ t (Releasing k r todo) _ Hy') as H2. simpl in H2. lia.
Qed.

Lemma can_proceed σ t x :
  exited σ = false → threads σ !! t = Some x →
  match x with Executing _ _ | Signalling _ _ | Releasing _ _ _ => True | _ => False end →
  ∃ σ', proceed t σ = Some σ'.
Proof.
  intros He Hx Hp. unfold proceed. rewrite He, Hx. destruct x; try done; eauto.
  - destruct (executeActions _ _ _ _ _); eauto.
  - destruct todo; eauto.
Qed.

Lemma server_proceeds σ m ex wt : inv σ m ex wt → ex ≠ None ∨ wt ≠ None → ∃ t σ', proceed t σ = Some σ'.
Proof.
  intros Hi Ho. pose proof (inv_threads _ _ _ _ Hi) as Hts. pose proof (inv_running _ _ _ _ Hi) as He.
  destruct ex as [e|].
  - destruct (ok_exec _ _ _ _ _ _ Hts e eq_refl) as [[a Ha]|[r Ha]];
      destruct (can_proceed _ _ _ He Ha I) as [σ' ?]; eauto.
  - destruct wt as [w|]; [|naive_solver]. destruct (ok_wait _ _ _ _ _ _ Hts w eq_refl) as [a Ha]. simpl in Ha.
    exists w. unfold proceed. rewrite He, Ha, decide_True by (by apply (inv_promises _ _ _ _ Hi)).
    case_decide; eauto.
Qed.

(** C23: The shared queue never deadlocks and every schedule ends: as long as a
    thread is inside the function some thread can take a step, and every step
    inside the function decreases a natural number, so that after the last call
    all threads return (and then, with the ordering theorem, all submitted
    actions are executed). *)
Theorem queue_progress n s σ h p :
  agent_stored s address h p → being_garbage_collected p = false → reachable n s σ →
  (∀ t σ', proceed t σ = Some σ' → (work σ' < work σ)%nat) ∧
  ((∃ t x, threads σ !! t = Some x ∧ outside (Some x) = false) → ∃ t σ', proceed t σ = Some σ').
Proof.
  intros Hs Hgc Hreach. pose proof (agent_inv_reachable _ _ _ _ _ Hs Hgc Hreach) as HI.
  split; [intros t σ'; by eapply work_decreases|]. intros (t & x & Hx & Hout).
  destruct HI as ((m & ex & wt & Hi) & _ & _). pose proof (inv_threads _ _ _ _ Hi) as Hts.
  pose proof (inv_running _ _ _ _ Hi) as He.
  destruct x; simplify_eq/=; try (edestruct can_proceed; eauto; done).
  - destruct (ok_follower _ _ _ _ _ _ Hts _ _ _ Hx) as [[Hk _]|(t' & r & todo & Ht' & _)];
      [|edestruct can_proceed; eauto; done].
    eapply server_proceeds; [done|]. rewrite (inv_next _ _ _ _ Hi) in Hk.
    destruct ex; [by left|]. destruct wt; [by right|]. simpl in Hk. lia.
  - destruct (ok_leader _ _ _ _ _ _ Hts _ _ _ Hx) as [-> _]. eapply server_proceeds; [done|by right].
Qed.

(** ** Running a schedule: [(t, Some a)] is a call, [(t, None)] a step of [t]. *)
Fixpoint run_schedule (l : list (nat * option Action)) σ : RefState St :=
  match l with
  | [] => σ
  | (t, Some a) :: l' => match submit t a σ with Some σ' => run_schedule l' σ' | None => σ end
  | (t, None) :: l' => match proceed t σ with Some σ' => run_schedule l' σ' | None => σ end
  end.

Lemma run_schedule_reachable n s l σ : reachable n s σ → reachable n s (run_schedule l σ).
Proof.
  revert σ. induction l as [|[t [a|]] l IH]; intros σ H; simpl; [done| |]; case_match; try done;
    apply IH; eapply reach_step; eauto; by econstructor.
Qed.
End AgentQueue.

Section QueueWitness.
Import Blob.

(** Thread 0 serves the queue, thread 1 joins it, thread 2 creates the next queue
    while the first batch executes. *)
Definition demo_schedule : list (nat * option Action) :=
  [(0%nat, Some (Add "c")); (1%nat, Some (Remove "a")); (0%nat, None); (2%nat, Some Heartbeat); (0%nat, None)].
Definition demo_ref : RefState (vfs (blob Agent)) :=
  run_schedule (BMsg demo_agent) "agent" demo_schedule (ref_init 3 demo_agent_store).

Example demo_ref_threads :
  threads demo_ref = [Signalling 0 (Ok tt); Follower 0 (Remove "a"); Leader 1 Heartbeat] ∧
  executed demo_ref = [Add "c"; Remove "a"] ∧ submitted demo_ref = [Add "c"; Remove "a"; Heartbeat].
Proof. by vm_compute. Qed.

Lemma queue_linearizes_witness :
  (∃ waiting, submitted demo_ref = executed demo_ref ++ waiting) ∧
  (∃ h', stored (ref_be demo_ref) "agent" = Some (h', agent_after (executed demo_ref) demo_agent)) ∧
  (∀ t1 t2 k1 k2 a1 a2, threads demo_ref !! t1 = Some (Executing k1 a1) →
     threads demo_ref !! t2 = Some (Executing k2 a2) → t1 = t2) ∧
  (∀ t r, threads demo_ref !! t = Some (Returned r) → r = Ok tt) ∧
  ((∀ t x, threads demo_ref !! t = Some x → outside (Some x) = true) → executed demo_ref = submitted demo_ref).
Proof.
  apply (queue_linearizes (BMsg demo_agent) "agent" 3 demo_agent_store demo_ref _ demo_agent demo_agent_stored eq_refl).
  apply run_schedule_reachable. constructor.
Defined.

Lemma queue_progress_witness :
  (∀ t σ', proceed (BMsg demo_agent) "agent" t demo_ref = Some σ' → (work σ' < work demo_ref)%nat) ∧
  ((∃ t x, threads demo_ref !! t = Some x ∧ outside (Some x) = false) →
   ∃ t σ', proceed (BMsg demo_agent) "agent" t demo_ref = Some σ').
Proof.
  apply (queue_progress (BMsg demo_agent) "agent" 3 demo_agent_store demo_ref _ demo_agent demo_agent_stored eq_refl).
  apply run_schedule_reachable. constructor.
Defined.
End QueueWitness.
