(* ===== verification/Registers.v ===== *)
(** * Registers and the repack queue

    Models of [objectstore/AgentRegister.cpp] (prefix [ar_]), [DriveRegister.cpp]
    ([dr_]), [SchedulerGlobalLock.cpp] ([sgl_]), [RepackIndex.cpp] ([ri_]) and
    [RepackQueue.cpp] ([rq_]): the objects that the root entry points to.  The
    methods that look at the root entry ([garbageCollect]) are in
    [AgentLife.v]. *)
From S2P Require Import Prelude Backend ObjectOps Handles ProtoAlgorithms.

(** ** Agent register *)
Record AgentRegister := mkAgentRegister { agents : list string; untrackedagents : list string }.
#[export] Instance AgentRegister_message : Message AgentRegister := {|
  payloadTypeId := AgentRegister_t; default_message := mkAgentRegister [] [] |}.

Section AgentRegister.
Context {B : Type}.
Implicit Types (o : ObjectOps B AgentRegister) (name : string).

Definition ar_initialize o : result (ObjectOps B AgentRegister) := initialize_with id o.

Definition ar_isEmpty o : result bool :=
  read_payload (λ p, bool_decide (untrackedagents p = []) && bool_decide (agents p = [])) o.

Definition addAgent name o : result (ObjectOps B AgentRegister) :=
  write_payload (λ p, mkAgentRegister (agents p ++ [name]) (untrackedagents p ++ [name])) o.

(** [removeAgent] only checks that the payload is readable. *)
Definition removeAgent name o : result (ObjectOps B AgentRegister) :=
  _ ← checkPayloadReadable o;
  let p := m_payload o in
  Ok (with_payload (mkAgentRegister (removeString name (agents p)) (removeString name (untrackedagents p))) o).

Definition trackAgent name o : result (ObjectOps B AgentRegister) :=
  _ ← checkPayloadWritable o;
  let p := m_payload o in
  _ ← findString name (agents p);
  Ok (with_payload (mkAgentRegister (agents p) (removeString name (untrackedagents p))) o).

Definition untrackAgent name o : result (ObjectOps B AgentRegister) :=
  _ ← checkPayloadWritable o;
  let p := m_payload o in
  _ ← findString name (agents p);
  match findString name (untrackedagents p) with
  | Ok _ => Ok o
  | Throw NotFound => Ok (with_payload (mkAgentRegister (agents p) (untrackedagents p ++ [name])) o)
  | Throw e => Throw e
  end.

Definition getAgents o : list string := agents (m_payload o).
Definition getUntrackedAgents o : list string := untrackedagents (m_payload o).
End AgentRegister.

(** ** Drive register *)
Record DriveStatePointer := mkDrive { drivename : string; drivestateaddress : string }.
Record DriveRegister := mkDriveRegister { drives : list DriveStatePointer }.
#[export] Instance DriveRegister_message : Message DriveRegister := {|
  payloadTypeId := DriveRegister_t; default_message := mkDriveRegister [] |}.

(** The loops that stop at the first drive of that name. *)
Fixpoint set_drive (name addr : string) (l : list DriveStatePointer) : list DriveStatePointer :=
  match l with
  | [] => [mkDrive name addr]
  | d :: l' => if decide (drivename d = name) then mkDrive (drivename d) addr :: l' else d :: set_drive name addr l'
  end.
Fixpoint erase_drive (name : string) (l : list DriveStatePointer) : option (list DriveStatePointer) :=
  match l with
  | [] => None
  | d :: l' => if decide (drivename d = name) then Some l' else (λ k, d :: k) <$> erase_drive name l'
  end.

Section DriveRegister.
Context {B : Type}.
Implicit Types (o : ObjectOps B DriveRegister).

Definition dr_initialize o : result (ObjectOps B DriveRegister) := initialize_with id o.
Definition getDriveAddresses o : result (list (string * string)) :=
  read_payload (λ p, (λ d, (drivename d, drivestateaddress d)) <$> drives p) o.
Definition getDriveAddress (driveName : string) o : result string :=
  _ ← checkPayloadReadable o;
  match find_if (λ d, bool_decide (drivename d = driveName)) (drives (m_payload o)) with
  | Some d => Ok (drivestateaddress d)
  | None => Throw NoSuchDrive
  end.
Definition setDriveAddress (driveName driveAddress : string) o : result (ObjectOps B DriveRegister) :=
  write_payload (λ p, mkDriveRegister (set_drive driveName driveAddress (drives p))) o.
Definition removeDrive (driveName : string) o : result (ObjectOps B DriveRegister) :=
  _ ← checkPayloadWritable o;
  match erase_drive driveName (drives (m_payload o)) with
  | Some l => Ok (with_payload (mkDriveRegister l) o)
  | None => Throw (Exception "removeDrive: drive not found")
  end.
Definition dr_isEmpty o : result bool := read_payload (λ p, bool_decide (drives p = [])) o.
End DriveRegister.

(** ** Scheduler global lock *)
Record SchedulerGlobalLock := mkSGL { nextmountid : Z }.
#[export] Instance SchedulerGlobalLock_message : Message SchedulerGlobalLock := {|
  payloadTypeId := SchedulerGlobalLock_t; default_message := mkSGL 0 |}.

Section SchedulerGlobalLock.
Context {B : Type}.
Implicit Types (o : ObjectOps B SchedulerGlobalLock).

Definition sgl_initialize o : result (ObjectOps B SchedulerGlobalLock) := initialize_with (λ _, mkSGL 1) o.
(** Despite its name, the function does not commit. *)
Definition getIncreaseCommitMountId o : result (Z * ObjectOps B SchedulerGlobalLock) :=
  _ ← checkPayloadWritable o;
  let ret := nextmountid (m_payload o) in
  Ok (ret, with_payload (mkSGL (ret +u64 1)) o).
Definition setNextMountId (nextId : Z) o : result (ObjectOps B SchedulerGlobalLock) :=
  write_payload (λ _, mkSGL nextId) o.
Definition sgl_isEmpty o : result bool := read_payload (λ _, true) o.
End SchedulerGlobalLock.

(** ** Repack index *)
Record RepackRequestIndexPointer := mkRRIP { rrip_vid : string; rrip_address : string }.
Record RepackIndex := mkRepackIndex { ri_pointers : list RepackRequestIndexPointer }.
#[export] Instance RepackIndex_message : Message RepackIndex := {|
  payloadTypeId := RepackIndex_t; default_message := mkRepackIndex [] |}.

Section RepackIndex.
Context {B : Type}.
Implicit Types (o : ObjectOps B RepackIndex) (vid : string).

Definition ri_initialize o : result (ObjectOps B RepackIndex) := initialize_with id o.
Definition ri_garbageCollect o : result unit :=
  _ ← checkPayloadWritable o;
  _ ← getAddressIfSet o; _ ← getOwner o; _ ← getBackupOwner o;
  Throw (Exception "garbageCollect: Repack Tape Register should not require garbage collection").
Definition getRepackRequestAddress vid o : result string :=
  _ ← checkPayloadReadable o;
  match find_if (λ rt, bool_decide (rrip_vid rt = vid)) (ri_pointers (m_payload o)) with
  | Some rt => Ok (rrip_address rt)
  | None => Throw NoSuchVID
  end.
(** Only the header is checked to be readable here. *)
Definition getRepackRequestsAddresses o : result (list (string * string)) :=
  _ ← checkHeaderReadable o;
  Ok ((λ rt, (rrip_vid rt, rrip_address rt)) <$> ri_pointers (m_payload o)).
Definition ri_isEmpty o : result bool := read_payload (λ p, bool_decide (ri_pointers p = [])) o.
(** All the occurrences are erased, in place. *)
Definition removeRepackRequest vid o : result (ObjectOps B RepackIndex) :=
  _ ← checkPayloadWritable o;
  let l := ri_pointers (m_payload o) in
  if existsb (λ rt, bool_decide (rrip_vid rt = vid)) l
  then Ok (with_payload (mkRepackIndex (filter (λ rt, rrip_vid rt ≠ vid) l)) o)
  else Throw (Exception "removeRepackRequest: vid not found").
Definition addRepackRequestAddress vid (repackRequestAddress : string) o : result (ObjectOps B RepackIndex) :=
  _ ← checkPayloadWritable o;
  let l := ri_pointers (m_payload o) in
  if existsb (λ rt, bool_decide (rrip_vid rt = vid)) l then Throw VidAlreadyRegistered
  else Ok (with_payload (mkRepackIndex (l ++ [mkRRIP vid repackRequestAddress])) o).
End RepackIndex.

(** ** Repack queue *)
Record RepackQueue := mkRepackQueue { rq_pointers : list string }.
#[export] Instance RepackQueue_message : Message RepackQueue := {|
  payloadTypeId := RepackQueue_t; default_message := mkRepackQueue [] |}.

(** [RepackQueue::CandidateJobList], the candidates being request addresses. *)
Record RepackCandidates := mkRepackCandidates {
  remainingRequestsAfterCandidates : Z;
  candidateRequests : Z;
  rq_candidates : list string
}.

Section RepackQueue.
Context {B St : Type} `{!Serializable B RepackQueue, !Serializable B (ObjectHeader B), !Backend B St}.
Implicit Types (o : ObjectOps B RepackQueue).
Abbreviation RQ := (M (HState B RepackQueue St)).

Definition rq_initialize o : result (ObjectOps B RepackQueue) := initialize_with id o.
Definition rq_isEmpty o : result bool := read_payload (λ p, bool_decide (rq_pointers p = [])) o.

Definition addRequestsAndCommit (requestAddresses : list string) : RQ unit :=
  _ ← update_payload (λ p, mkRepackQueue (rq_pointers p ++ requestAddresses));
  commit.

(** The set of existing addresses is taken before the loop. *)
Definition addRequestsIfNecessaryAndCommit (requestAddresses : list string) : RQ unit :=
  o ← self;
  _ ← lift (checkPayloadWritable o);
  let existingAddresses : gset string := list_to_set (rq_pointers (m_payload o)) in
  let new := filter (λ a, a ∉ existingAddresses) requestAddresses in
  _ ← set_self (with_payload (mkRepackQueue (rq_pointers (m_payload o) ++ new)) o);
  if decide (new = []) then mret tt else commit.

Definition removeRequestsAndCommit (requestsAddresses : list string) : RQ unit :=
  o ← self;
  _ ← lift (checkPayloadWritable o);
  let requestsToRemove : gset string := list_to_set requestsAddresses in
  let didRemove := existsb (λ a, bool_decide (a ∈ requestsToRemove)) (rq_pointers (m_payload o)) in
  let newQueue := filter (λ a, a ∉ requestsToRemove) (rq_pointers (m_payload o)) in
  if didRemove then
    _ ← set_self (with_payload (mkRepackQueue newQueue) o); commit
  else mret tt.

Definition getRequestsSummary o : result Z :=
  read_payload (λ p, Z.of_nat (length (rq_pointers p))) o.

(** The loop stops after the request that makes the count reach the limit; the
    requests to skip are not looked at. *)
Fixpoint rq_candidate_loop (maxRequests count : Z) (l : list string) : list string :=
  match l with
  | [] => []
  | a :: l' => a :: (if (count +u64 1) >=? maxRequests then [] else rq_candidate_loop maxRequests (count +u64 1) l')
  end.
Definition rq_getCandidateList (maxRequests : Z) (repackRequestsToSkip : gset string) o : result RepackCandidates :=
  _ ← checkPayloadReadable o;
  let l := rq_pointers (m_payload o) in
  let c := rq_candidate_loop maxRequests 0 l in
  Ok (mkRepackCandidates (u64 (Z.of_nat (length l) - Z.of_nat (length c))) (Z.of_nat (length c)) c).

Definition rq_garbageCollect o : result unit := Throw (Exception "garbageCollect: not implemented").
End RepackQueue.
