(* ===== verification/RegistersSpec.v ===== *)
(** * What the registers promise

    Abstract specifications of the registers as finite maps and of the repack
    queue as a list, and the theorems that the operations of [Registers.v]
    implement them on every sequence of calls, refusals included. *)
From S2P Require Import Prelude Backend ObjectOps Handles ProtoAlgorithms Registers.

(** A sequence of operations that stops at the first exception. *)
Fixpoint run_all {Op S : Type} (step : Op → S → result S) (ops : list Op) (s : S) : result S :=
  match ops with
  | [] => Ok s
  | op :: ops' => s' ← step op s; run_all step ops' s'
  end.

(** Simulation of such sequences from the simulation of one operation. *)
Lemma run_all_simulates {Op S T} (f : Op → S → result S) (g : Op → T → result T) (R : S → T → Prop) :
  (∀ op s t, R s t →
     match g op t with Ok t' => ∃ s', f op s = Ok s' ∧ R s' t' | Throw e => f op s = Throw e end) →
  ∀ ops s t, R s t →
    match run_all g ops t with Ok t' => ∃ s', run_all f ops s = Ok s' ∧ R s' t' | Throw e => run_all f ops s = Throw e end.
Proof.
  intros Hstep. induction ops as [|op ops IH]; intros s t HR; simpl; [eauto|].
  specialize (Hstep op s t HR). destruct (g op t) as [t'|e]; simpl.
  - destruct Hstep as (s' & -> & HR'). simpl. by apply IH.
  - by rewrite Hstep.
Qed.

(** ** Agents: a map from the registered agents to whether they are tracked *)
Inductive reg_op := RegAdd (name : string) | RegRemove (name : string) | RegTrack (name : string) | RegUntrack (name : string).

Definition reg_spec (op : reg_op) (m : gmap string bool) : result (gmap string bool) :=
  match op with
  | RegAdd n => Ok (<[n := false]> m)
  | RegRemove n => Ok (delete n m)
  | RegTrack n => match m !! n with Some _ => Ok (<[n := true]> m) | None => Throw NotFound end
  | RegUntrack n => match m !! n with Some _ => Ok (<[n := false]> m) | None => Throw NotFound end
  end.

Definition reg_repr (p : AgentRegister) (m : gmap string bool) : Prop :=
  (∀ n, n ∈ untrackedagents p → n ∈ agents p) ∧
  ∀ n, m !! n = if decide (n ∈ agents p) then Some (bool_decide (n ∉ untrackedagents p)) else None.

Section AgentRegisterSpec.
Context {B : Type}.
Implicit Types (h : ObjectHeader B).

Definition reg_run (op : reg_op) (o : ObjectOps B AgentRegister) : result (ObjectOps B AgentRegister) :=
  match op with
  | RegAdd n => addAgent n o
  | RegRemove n => removeAgent n o
  | RegTrack n => trackAgent n o
  | RegUntrack n => untrackAgent n o
  end.

(** The handle [o] has the register locked and fetched, with the content [m]. *)
Definition reg_handle (address : string) h (o : ObjectOps B AgentRegister) (m : gmap string bool) : Prop :=
  ∃ p, o = opened Exclusive address h p ∧ reg_repr p m.

Lemma reg_step address h op o m :
  reg_handle address h o m →
  match reg_spec op m with
  | Ok m' => ∃ o', reg_run op o = Ok o' ∧ reg_handle address h o' m'
  | Throw e => reg_run op o = Throw e
  end.
Proof.
  intros (p & -> & Hsub & Hm). destruct op as [n|n|n|n]; simpl.
  - eexists; split; [done|]. eexists; split; [done|]. split; [set_solver|].
    intros n'. rewrite lookup_insert. simpl. case_decide; subst.
    + rewrite decide_True by set_solver. by rewrite bool_decide_false by set_solver.
    + rewrite Hm. repeat case_decide; set_solver.
  - eexists; split; [done|]. eexists; split; [done|]. split; simpl.
    { intros n'. rewrite !elem_of_removeString. naive_solver. }
    intros n'. rewrite lookup_delete. case_decide; subst.
    + rewrite decide_False; [done|]. rewrite elem_of_removeString. naive_solver.
    + rewrite Hm. destruct (decide (n' ∈ agents p)) as [Hin|Hin];
        [rewrite decide_True by (rewrite elem_of_removeString; naive_solver)|
         rewrite decide_False by (rewrite elem_of_removeString; naive_solver); done].
      f_equal. apply bool_decide_ext. rewrite elem_of_removeString. naive_solver.
  - unfold trackAgent. simpl. rewrite Hm.
    destruct (findString_spec n (agents p)) as [[Hin (i & -> & _)]|[Hin ->]]; [|by rewrite decide_False].
    rewrite decide_True by done. simpl. eexists; split; [done|]. eexists; split; [done|]. split; simpl.
    { intros n'. rewrite elem_of_removeString. naive_solver. }
    intros n'. rewrite lookup_insert. case_decide; subst.
    + rewrite decide_True by done. f_equal. symmetry. apply bool_decide_true. rewrite elem_of_removeString. naive_solver.
    + rewrite Hm. case_decide; [|done]. f_equal. apply bool_decide_ext. rewrite elem_of_removeString. naive_solver.
  - unfold untrackAgent. simpl. rewrite Hm.
    destruct (findString_spec n (agents p)) as [[Hin (i & -> & _)]|[Hin ->]]; [|by rewrite decide_False].
    rewrite decide_True by done. simpl.
    destruct (findString_spec n (untrackedagents p)) as [[Hu (j & -> & _)]|[Hu ->]]; simpl.
    + eexists; split; [done|]. eexists; split; [done|]. split; [done|].
      intros n'. rewrite lookup_insert, Hm. case_decide; subst; [|done].
      rewrite decide_True by done. by rewrite bool_decide_false by naive_solver.
    + eexists; split; [done|]. eexists; split; [done|]. split; [set_solver|]. simpl.
      intros n'. rewrite lookup_insert. case_decide; subst.
      * rewrite decide_True by done. by rewrite bool_decide_false by set_solver.
      * rewrite Hm. case_decide; [|done]. f_equal. apply bool_decide_ext. set_solver.
Qed.

Lemma reg_isEmpty address h o m : reg_handle address h o m → ar_isEmpty o = Ok (bool_decide (m = ∅)).
Proof.
  intros (p & -> & Hsub & Hm). unfold ar_isEmpty. rewrite read_opened. f_equal.
  rewrite <- bool_decide_and. apply bool_decide_ext. split.
  - intros [_ Ha]. apply map_eq. intros n. rewrite Hm, Ha, lookup_empty, decide_False; [done|set_solver].
  - intros ->. assert (agents p = []) as Ha.
    { destruct (agents p) as [|n l]; [done|]. specialize (Hm n).
      rewrite lookup_empty, decide_True in Hm by (by left). done. }
    split; [|done]. destruct (untrackedagents p) as [|n l]; [done|]. specialize (Hsub n). rewrite Ha in Hsub. set_solver.
Qed.

(** C24: The agent register implements a map from agent addresses to a "tracked"
    flag: through any sequence of additions, removals, trackings and untrackings
    the register and the map agree on the result of every call (an unknown agent is
    refused by track and untrack), on emptiness, on the registered agents and on
    the untracked ones. *)
Theorem agent_register_tracks ops address h o m :
  reg_handle address h o m →
  match run_all reg_spec ops m with
  | Throw e => run_all reg_run ops o = Throw e
  | Ok m' => ∃ o', run_all reg_run ops o = Ok o' ∧
      ar_isEmpty o' = Ok (bool_decide (m' = ∅)) ∧
      (∀ n, n ∈ getAgents o' ↔ is_Some (m' !! n)) ∧
      (∀ n, n ∈ getUntrackedAgents o' ↔ m' !! n = Some false)
  end.
Proof.
  intros Ho. pose proof (run_all_simulates reg_run reg_spec (reg_handle address h) (reg_step address h) ops o m Ho) as H.
  destruct (run_all reg_spec ops m) as [m'|e]; [|done]. destruct H as (o' & E & Ho').
  exists o'. split; [done|]. split; [by eapply reg_isEmpty|]. destruct Ho' as (p & -> & Hsub & Hm).
  unfold getAgents, getUntrackedAgents; simpl. split; intros n; rewrite Hm; specialize (Hsub n).
  - case_decide; split; naive_solver eauto.
  - case_decide; [|naive_solver]. split; [intros; by rewrite bool_decide_false by naive_solver|].
    intros E'. simplify_eq. apply bool_decide_eq_false in E'. destruct (decide (n ∈ untrackedagents p)); naive_solver.
Qed.
End AgentRegisterSpec.

(** ** Drives: a map from drive names to addresses *)
Inductive drive_op := DriveSet (name address : string) | DriveRemove (name : string).
Definition drive_spec (op : drive_op) (m : gmap string string) : result (gmap string string) :=
  match op with
  | DriveSet n a => Ok (<[n := a]> m)
  | DriveRemove n => match m !! n with Some _ => Ok (delete n m) | None => Throw (Exception "removeDrive: drive not found") end
  end.

Definition drive_map (l : list DriveStatePointer) : gmap string string :=
  list_to_map ((λ d, (drivename d, drivestateaddress d)) <$> l).
Definition drive_names (l : list DriveStatePointer) : list string := drivename <$> l.

Lemma drive_map_cons d l : drive_map (d :: l) = <[drivename d := drivestateaddress d]> (drive_map l).
Proof. done. Qed.
Lemma drive_map_none n l : n ∉ drive_names l → drive_map l !! n = None.
Proof.
  intros H. apply not_elem_of_list_to_map_1. unfold drive_names in H. rewrite <- list_fmap_compose. exact H.
Qed.
Lemma drive_map_some n l : n ∈ drive_names l → is_Some (drive_map l !! n).
Proof.
  induction l as [|d l IH]; unfold drive_names; [set_solver|]. rewrite fmap_cons, elem_of_cons, drive_map_cons.
  intros [->|H]; [by rewrite lookup_insert_eq; eauto|]. rewrite lookup_insert. case_decide; eauto.
Qed.

Lemma set_drive_names n a l :
  drive_names (set_drive n a l) = drive_names l ++ (if decide (n ∈ drive_names l) then [] else [n]).
Proof.
  unfold drive_names. induction l as [|d l IH]; csimpl; [done|].
  destruct (decide (drivename d = n)) as [Hd|Hd]; csimpl.
  - rewrite decide_True by set_solver. by rewrite app_nil_r.
  - rewrite IH. f_equal. f_equal. repeat case_decide; set_solver.
Qed.
Lemma set_drive_map n a l : drive_map (set_drive n a l) = <[n := a]> (drive_map l).
Proof.
  induction l as [|d l IH]; simpl; [done|]. case_decide as Hd; rewrite !drive_map_cons; simpl.
  - subst. by rewrite insert_insert_eq.
  - rewrite IH. by rewrite insert_insert_ne.
Qed.
Lemma erase_drive_spec n l :
  NoDup (drive_names l) →
  match erase_drive n l with
  | Some l' => n ∈ drive_names l ∧ drive_map l' = delete n (drive_map l) ∧ NoDup (drive_names l') ∧
      (∀ x, x ∈ drive_names l' → x ∈ drive_names l)
  | None => n ∉ drive_names l
  end.
Proof.
  unfold drive_names. induction l as [|d l IH]; csimpl; [set_solver|]. rewrite NoDup_cons.
  intros [Hd Hnd]. case_decide as En; subst.
  - split; [by left|]. split; [|split; [done|set_solver]].
    rewrite drive_map_cons, delete_insert_eq. symmetry. apply delete_id. by apply drive_map_none.
  - specialize (IH Hnd). destruct (erase_drive n l) as [l'|]; csimpl; [|set_solver].
    destruct IH as (Hin & Hm & Hnd' & Hsub). split; [by right|]. rewrite !drive_map_cons, Hm.
    split; [by rewrite delete_insert_ne|]. rewrite NoDup_cons. split; [split; [|done]|]; set_solver.
Qed.

Section DriveRegisterSpec.
Context {B : Type}.
Definition drive_run (op : drive_op) (o : ObjectOps B DriveRegister) : result (ObjectOps B DriveRegister) :=
  match op with DriveSet n a => setDriveAddress n a o | DriveRemove n => removeDrive n o end.
Definition drive_handle (address : string) (h : ObjectHeader B) (o : ObjectOps B DriveRegister) (m : gmap string string) : Prop :=
  ∃ l, o = opened Exclusive address h (mkDriveRegister l) ∧ NoDup (drive_names l) ∧ m = drive_map l.

Lemma drive_step address h op o m :
  drive_handle address h o m →
  match drive_spec op m with
  | Ok m' => ∃ o', drive_run op o = Ok o' ∧ drive_handle address h o' m'
  | Throw e => drive_run op o = Throw e
  end.
Proof.
  intros (l & -> & Hnd & ->). destruct op as [n a|n]; simpl.
  - eexists; split; [done|]. eexists; split; [done|]. split; [|by rewrite set_drive_map].
    simpl. rewrite set_drive_names. case_decide; [by rewrite app_nil_r|].
    apply NoDup_app. split; [done|]. split; [set_solver|apply NoDup_singleton].
  - unfold removeDrive. simpl. pose proof (erase_drive_spec n l Hnd) as H. destruct (erase_drive n l) as [l'|]; simpl.
    + destruct H as (Hin & Hm & Hnd' & _). destruct (drive_map_some n l Hin) as [a ->].
      eexists; split; [done|]. eexists; split; [done|]. done.
    + by rewrite drive_map_none.
Qed.

Lemma drive_get address h o m n :
  drive_handle address h o m →
  getDriveAddress n o = match m !! n with Some a => Ok a | None => Throw NoSuchDrive end.
Proof.
  intros (l & -> & _ & ->). unfold getDriveAddress. simpl. clear. induction l as [|d l IH]; simpl; [done|].
  rewrite drive_map_cons, lookup_insert. destruct (decide (drivename d = n)); [by rewrite bool_decide_true|].
  by rewrite bool_decide_false.
Qed.

(** The drive register implements a map from drive names to addresses:
    after any sequence of settings and removals (a removal of an unknown drive is
    refused) every look-up gives the mapped address or [NoSuchDrive], the listing
    holds each mapped drive exactly once, and emptiness is exact. *)
Lemma drive_register_is_map ops address h o m :
  drive_handle address h o m →
  match run_all drive_spec ops m with
  | Throw e => run_all drive_run ops o = Throw e
  | Ok m' => ∃ o' l, run_all drive_run ops o = Ok o' ∧
      (∀ n, getDriveAddress n o' = match m' !! n with Some a => Ok a | None => Throw NoSuchDrive end) ∧
      getDriveAddresses o' = Ok l ∧ NoDup l.*1 ∧ list_to_map l = m' ∧
      dr_isEmpty o' = Ok (bool_decide (m' = ∅))
  end.
Proof.
  intros Ho. pose proof (run_all_simulates drive_run drive_spec (drive_handle address h) (drive_step address h) ops o m Ho) as H.
  destruct (run_all drive_spec ops m) as [m'|e]; [|done]. destruct H as (o' & E & Ho').
  pose proof (λ n, drive_get address h o' m' n Ho') as Hget.
  destruct Ho' as (l & -> & Hnd & ->). eexists _, _. split; [exact E|]. split; [done|].
  unfold getDriveAddresses, dr_isEmpty. rewrite !read_opened. split; [done|]. split; [|split; [done|]].
  - rewrite <- list_fmap_compose. exact Hnd.
  - f_equal. apply bool_decide_ext. simpl. destruct l as [|d l]; [done|]. split; [done|]. rewrite drive_map_cons.
    intros Hm. by apply insert_non_empty in Hm.
Qed.
End DriveRegisterSpec.

(** ** Repack requests: a map from tapes to request addresses *)
Inductive index_op := IndexAdd (vid address : string) | IndexRemove (vid : string).
Definition index_spec (op : index_op) (m : gmap string string) : result (gmap string string) :=
  match op with
  | IndexAdd v a => match m !! v with Some _ => Throw VidAlreadyRegistered | None => Ok (<[v := a]> m) end
  | IndexRemove v => match m !! v with
                     | Some _ => Ok (delete v m)
                     | None => Throw (Exception "removeRepackRequest: vid not found") end
  end.
Abbreviation index_map := (assoc_map rrip_vid rrip_address).

Section RepackIndexSpec.
Context {B : Type}.
Definition index_run (op : index_op) (o : ObjectOps B RepackIndex) : result (ObjectOps B RepackIndex) :=
  match op with IndexAdd v a => addRepackRequestAddress v a o | IndexRemove v => removeRepackRequest v o end.
Definition index_handle (address : string) (h : ObjectHeader B) (o : ObjectOps B RepackIndex) (m : gmap string string) : Prop :=
  ∃ l, o = opened Exclusive address h (mkRepackIndex l) ∧ m = index_map l.

Lemma index_step address h op o m :
  index_handle address h o m →
  match index_spec op m with
  | Ok m' => ∃ o', index_run op o = Ok o' ∧ index_handle address h o' m'
  | Throw e => index_run op o = Throw e
  end.
Proof.
  intros (l & -> & ->). destruct op as [v a|v]; simpl; unfold addRepackRequestAddress, removeRepackRequest; simpl;
    rewrite (assoc_map_present rrip_vid rrip_address); destruct (index_map l !! v) as [x|] eqn:E.
  - by rewrite bool_decide_true.
  - rewrite bool_decide_false by (intros []; done). eexists; split; [done|]. eexists; split; [done|].
    by rewrite (assoc_map_snoc rrip_vid rrip_address l (mkRRIP v a)).
  - rewrite bool_decide_true by done. eexists; split; [done|]. eexists; split; [done|]. by rewrite assoc_map_filter.
  - by rewrite bool_decide_false by (intros []; done).
Qed.

(** The repack index implements a map from tapes to repack requests: through
    any sequence of calls a second request for a tape is refused with
    [VidAlreadyRegistered], the removal for a tape without request is refused, and
    afterwards the look-up of any tape gives its request or [NoSuchVID]; the index
    is empty exactly when the map is. *)
Lemma repack_index_is_map ops address h o m :
  index_handle address h o m →
  match run_all index_spec ops m with
  | Throw e => run_all index_run ops o = Throw e
  | Ok m' => ∃ o', run_all index_run ops o = Ok o' ∧
      (∀ v, getRepackRequestAddress v o' = match m' !! v with Some a => Ok a | None => Throw NoSuchVID end) ∧
      ri_isEmpty o' = Ok (bool_decide (m' = ∅))
  end.
Proof.
  intros Ho. pose proof (run_all_simulates index_run index_spec (index_handle address h) (index_step address h) ops o m Ho) as H.
  destruct (run_all index_spec ops m) as [m'|e]; [|done]. destruct H as (o' & E & (l & -> & ->)).
  eexists; split; [done|]. split.
  - intros v. unfold getRepackRequestAddress. simpl. rewrite assoc_map_lookup. by destruct (find_if _ l).
  - unfold ri_isEmpty. rewrite read_opened. f_equal. apply bool_decide_ext. simpl. destruct l as [|r l]; [done|].
    split; [done|]. rewrite assoc_map_cons. intros Hm. by apply insert_non_empty in Hm.
Qed.
End RepackIndexSpec.

(** ** The repack queue: a list of request addresses *)
Inductive rq_op := QAdd (l : list string) | QAddIfNecessary (l : list string) | QRemove (l : list string).
Definition rq_spec (op : rq_op) (q : list string) : list string :=
  match op with
  | QAdd l => q ++ l
  | QAddIfNecessary l => q ++ filter (λ a, a ∉ q) l
  | QRemove l => filter (λ a, a ∉ l) q
  end.

Section RepackQueueSpec.
Context {B St : Type} `{!Serializable B RepackQueue, !Serializable B (ObjectHeader B), !Backend B St}.

Definition rq_run (op : rq_op) : M (HState B RepackQueue St) unit :=
  match op with
  | QAdd l => addRequestsAndCommit l
  | QAddIfNecessary l => addRequestsIfNecessaryAndCommit l
  | QRemove l => removeRequestsAndCommit l
  end.

(** The handle has the queue [q] locked, and the store holds it. *)
Definition rq_holds (address : string) (hs : HState B RepackQueue St) (q : list string) : Prop :=
  be_wf (snd hs) ∧ ∃ h h', fst hs = opened Exclusive address h (mkRepackQueue q) ∧ h_type h = RepackQueue_t ∧
    stored (snd hs) address = Some (h', mkRepackQueue q).

Lemma rq_commit address h h' q q' s :
  be_wf s → h_type h = RepackQueue_t → stored s address = Some (h', q) →
  ∃ hs, commit (opened Exclusive address h (mkRepackQueue q'), s) = (Ok tt, hs) ∧ rq_holds address hs q' ∧
    (∀ n, n ≠ address → be_view (snd hs) !! n = be_view s !! n).
Proof.
  intros Hwf Ht Hst.
  destruct (commit_spec s (opened Exclusive address h (mkRepackQueue q')) Hwf) as (s' & E & Hwf' & Hv & Hs'); try done.
  { apply opened_writable. } { by eapply stored_exists. }
  eexists; split; [exact E|]. split; [split; [done|]|intros n Hn; simpl; rewrite Hv; by apply lookup_insert_ne]. simpl.
  eexists (m_header (push_payload (opened Exclusive address h (mkRepackQueue q')))), _.
  split; [done|]. split; [done|]. by rewrite Hs', decide_True.
Qed.

Lemma rq_step address op hs q :
  rq_holds address hs q → ∃ hs', rq_run op hs = (Ok tt, hs') ∧ rq_holds address hs' (rq_spec op q) ∧
    (∀ n, n ≠ address → be_view (snd hs') !! n = be_view (snd hs) !! n).
Proof.
  intros (Hwf & h & h' & Hf & Ht & Hst). destruct hs as [o s]; simpl in *. subst o.
  destruct op as [l|l|l]; simpl.
  - edestruct (rq_commit address h) as (hs' & E & Hh); [done..|]. exists hs'. split; [exact E|exact Hh].
  - unfold addRequestsIfNecessaryAndCommit, mbind, M_bind, self, gets, lift, set_self, modify. simpl.
    rewrite (list_filter_ext (λ a, a ∉ (list_to_set q : gset string)) (λ a, a ∉ q)) by set_solver.
    case_decide as En.
    + eexists; split; [done|]. rewrite En, app_nil_r. split; [split; [done|]; simpl; eauto 10|done].
    + edestruct (rq_commit address h) as (hs' & E & Hh); [done..|]. exists hs'. split; [exact E|exact Hh].
  - unfold removeRequestsAndCommit, mbind, M_bind, self, gets, lift, set_self, modify. simpl.
    rewrite (list_filter_ext (λ a, a ∉ (list_to_set l : gset string)) (λ a, a ∉ l)) by set_solver.
    destruct (existsb _ q) eqn:Ed.
    + edestruct (rq_commit address h) as (hs' & E & Hh); [done..|]. exists hs'. split; [exact E|exact Hh].
    + eexists; split; [done|]. rewrite list_filter_all; [split; [split; [done|]; simpl; eauto 10|done]|].
      apply Forall_forall. intros a Ha Hin. apply not_true_iff_false in Ed. apply Ed.
      apply existsb_exists. exists a. split; [by apply list_elem_of_In|]. apply bool_decide_true. set_solver.
Qed.

(** The candidates are a prefix of at least one request. *)
Lemma rq_candidate_loop_spec n c l :
  0 <= c → 0 <= n < 2 ^ 64 → c + Z.of_nat (length l) < 2 ^ 64 →
  rq_candidate_loop n c l = take (Z.to_nat (Z.max 1 (n - c))) l.
Proof.
  revert c. induction l as [|a l IH]; intros c Hc Hn Hl; simpl; [by rewrite take_nil|]. simpl in Hl.
  rewrite u64_small by (unfold in_u64; lia). destruct (Z.geb_spec (c + 1) n).
  - by replace (Z.max 1 (n - c)) with 1 by lia.
  - replace (Z.to_nat (Z.max 1 (n - c))) with (S (Z.to_nat (Z.max 1 (n - (c + 1))))) by lia.
    simpl. rewrite IH by lia. done.
Qed.

(** The repack queue implements a first-in first-out list in the store: any
    sequence of additions, additions of the missing requests and removals succeeds
    and leaves exactly the list that the specification gives, committed; the
    summary is its length, and the candidates are its first [max 1 maxRequests]
    requests with the exact remaining count (whatever the requests to skip, which
    the code ignores). *)
Lemma repack_queue_is_list ops address hs q maxRequests toSkip :
  rq_holds address hs q → 0 <= maxRequests < 2 ^ 64 →
  let q' := foldl (λ q op, rq_spec op q) q ops in
  let n := Z.to_nat (Z.max 1 maxRequests) in
  Z.of_nat (length q') < 2 ^ 64 →
  ∃ hs' h', mfor ops rq_run hs = (Ok tt, hs') ∧
    stored (snd hs') address = Some (h', mkRepackQueue q') ∧
    getRequestsSummary (fst hs') = Ok (Z.of_nat (length q')) ∧
    rq_isEmpty (fst hs') = Ok (bool_decide (q' = [])) ∧
    rq_getCandidateList maxRequests toSkip (fst hs') =
      Ok (mkRepackCandidates (Z.of_nat (length (drop n q'))) (Z.of_nat (length (take n q'))) (take n q')).
Proof.
  intros Hq Hm q' n Hlen.
  assert (∃ hs', mfor ops rq_run hs = (Ok tt, hs') ∧ rq_holds address hs' q') as (hs' & E & Hwf & h & h' & Hf & Ht & Hst).
  { clear Hlen. unfold q'. clear q'. revert hs q Hq. induction ops as [|op ops IH]; intros hs q Hq; simpl; [eauto|].
    destruct (rq_step address op hs q Hq) as (hs1 & E1 & Hq1 & _). mstep E1. by apply IH. }
  exists hs', h'. split; [done|]. split; [done|]. rewrite Hf. unfold getRequestsSummary, rq_isEmpty.
  rewrite !read_opened. split; [done|]. split; [done|].
  unfold rq_getCandidateList. simpl. rewrite rq_candidate_loop_spec, Z.sub_0_r by lia. fold n.
  do 2 f_equal. rewrite length_drop, length_take, u64_small; [lia|]. unfold in_u64. lia.
Qed.
End RepackQueueSpec.

(** ** Instances *)
Section Witness.
Import Blob.

Definition demo_reg : ObjectOps (blob nat) AgentRegister :=
  opened Exclusive "register" (mkHeader AgentRegister_t 0 "root" "root" (BMsg 0%nat)) (mkAgentRegister ["a"] ["a"]).
Definition demo_reg_ops : list reg_op := [RegTrack "a"; RegAdd "b"; RegTrack "b"; RegUntrack "a"; RegRemove "b"].
Lemma agent_register_tracks_witness :
  match run_all reg_spec demo_reg_ops {["a" := false]} with
  | Throw e => run_all reg_run demo_reg_ops demo_reg = Throw e
  | Ok m' => ∃ o', run_all reg_run demo_reg_ops demo_reg = Ok o' ∧
      ar_isEmpty o' = Ok (bool_decide (m' = ∅)) ∧
      (∀ n, n ∈ getAgents o' ↔ is_Some (m' !! n)) ∧ (∀ n, n ∈ getUntrackedAgents o' ↔ m' !! n = Some false)
  end.
Proof.
  apply (agent_register_tracks demo_reg_ops "register" (m_header demo_reg) demo_reg {["a" := false]}).
  eexists; split; [done|]. split; [set_solver|]. intros n. simpl. rewrite lookup_singleton.
  destruct (decide ("a" = n)) as [<-|]; [by rewrite decide_True by (by left)|].
  rewrite decide_False; [done|set_solver].
Defined.

Definition demo_drives : ObjectOps (blob nat) DriveRegister :=
  opened Exclusive "drives" (mkHeader DriveRegister_t 0 "root" "root" (BMsg 0%nat)) (mkDriveRegister [mkDrive "d1" "s1"]).
Definition demo_drive_ops : list drive_op := [DriveSet "d2" "s2"; DriveSet "d1" "s3"; DriveRemove "d2"].
Lemma drive_register_is_map_witness :
  match run_all drive_spec demo_drive_ops (drive_map [mkDrive "d1" "s1"]) with
  | Throw e => run_all drive_run demo_drive_ops demo_drives = Throw e
  | Ok m' => ∃ o' l, run_all drive_run demo_drive_ops demo_drives = Ok o' ∧
      (∀ n, getDriveAddress n o' = match m' !! n with Some a => Ok a | None => Throw NoSuchDrive end) ∧
      getDriveAddresses o' = Ok l ∧ NoDup l.*1 ∧ list_to_map l = m' ∧
      dr_isEmpty o' = Ok (bool_decide (m' = ∅))
  end.
Proof.
  apply (drive_register_is_map demo_drive_ops "drives" (m_header demo_drives) demo_drives (drive_map [mkDrive "d1" "s1"])).
  eexists; split; [done|]. split; [by apply (bool_decide_unpack _)|done].
Defined.

Definition demo_index : ObjectOps (blob nat) RepackIndex :=
  opened Exclusive "index" (mkHeader RepackIndex_t 0 "root" "root" (BMsg 0%nat)) (mkRepackIndex []).
Definition demo_index_ops : list index_op := [IndexAdd "V1" "r1"; IndexRemove "V1"; IndexAdd "V2" "r2"].
Lemma repack_index_is_map_witness :
  match run_all index_spec demo_index_ops ∅ with
  | Throw e => run_all index_run demo_index_ops demo_index = Throw e
  | Ok m' => ∃ o', run_all index_run demo_index_ops demo_index = Ok o' ∧
      (∀ v, getRepackRequestAddress v o' = match m' !! v with Some a => Ok a | None => Throw NoSuchVID end) ∧
      ri_isEmpty o' = Ok (bool_decide (m' = ∅))
  end.
Proof.
  apply (repack_index_is_map demo_index_ops "index" (m_header demo_index) demo_index ∅). by exists [].
Defined.

Definition demo_rq : HState (blob RepackQueue) RepackQueue (vfs (blob RepackQueue)) :=
  (opened Exclusive "queue" (mkHeader RepackQueue_t 0 "root" "root" (BMsg (mkRepackQueue ["r1"]))) (mkRepackQueue ["r1"]),
   VFS.mkVfs {["queue" := BHdr RepackQueue_t 0 "root" "root" (BMsg (mkRepackQueue ["r1"]))]} {["queue"]}).
Lemma repack_queue_is_list_witness :
  ∃ hs' h', mfor [QAdd ["r2"]; QAddIfNecessary ["r1"; "r3"]; QRemove ["r2"; "r9"]] rq_run demo_rq = (Ok tt, hs') ∧
    stored (snd hs') "queue" = Some (h', mkRepackQueue ["r1"; "r3"]) ∧
    getRequestsSummary (fst hs') = Ok 2 ∧ rq_isEmpty (fst hs') = Ok false ∧
    rq_getCandidateList 1 {["r1"]} (fst hs') = Ok (mkRepackCandidates 1 1 ["r1"]).
Proof.
  apply (repack_queue_is_list [QAdd ["r2"]; QAddIfNecessary ["r1"; "r3"]; QRemove ["r2"; "r9"]] "queue" demo_rq ["r1"] 1 {["r1"]}).
  - split; [by vm_compute|]. eexists _, _. split; [done|]. split; [done|]. reflexivity.
  - lia.
  - by vm_compute.
Defined.
End Witness.
