(* ===== verification/RetrieveActivity.v ===== *)
(** * Activity counters of the retrieve queues

    Model of [objectstore/RetrieveActivityCountMap.cpp]: the repeated field of
    (activity, count) pairs of a retrieve queue.  The key of a pair is its
    priority, disk instance and activity; the weight and its creation time are
    carried along.  Projected on keys and counts the operations are those of
    [ValueCountMap.v], from which the counting properties follow. *)
From S2P Require Import Prelude ValueCountMap.

(** [serializers::RetrieveActivityWeight] and [RetrieveActivityCountPair].  The
    weight is a C++ [double] that this code only copies: [raw_weight] stands for
    its 64-bit pattern. *)
Record RetrieveActivityWeight := mkWeight {
  raw_priority : Z;
  raw_disk_instance_name : string;
  raw_activity : string;
  raw_weight : Z;
  raw_creation_time : Z
}.
Record RetrieveActivityCountPair := mkActivityPair {
  retrieve_activity_weight : RetrieveActivityWeight;
  rac_count : Z
}.

(** [RetrieveActivityDescription]. *)
Record RetrieveActivityDescription := mkActivity {
  ad_priority : Z;
  ad_diskInstanceName : string;
  ad_activity : string;
  ad_creationTime : Z;
  ad_weight : Z;
  ad_count : Z
}.

(** [operator==] between a pair and a description. *)
Definition activity_eqb (serialized : RetrieveActivityCountPair) (memory : RetrieveActivityDescription) : bool :=
  let w := retrieve_activity_weight serialized in
  bool_decide (raw_priority w = ad_priority memory) &&
  bool_decide (raw_disk_instance_name w = ad_diskInstanceName memory) &&
  bool_decide (raw_activity w = ad_activity memory).

(** The counter with the weight brought up to date. *)
Definition update_weight (d : RetrieveActivityDescription) (w : RetrieveActivityWeight) : RetrieveActivityWeight :=
  if raw_creation_time w <? ad_creationTime d
  then mkWeight (raw_priority w) (raw_disk_instance_name w) (raw_activity w) (ad_weight d) (ad_creationTime d)
  else w.

Definition ra_incCount (d : RetrieveActivityDescription) (m : list RetrieveActivityCountPair) :
    result (list RetrieveActivityCountPair) :=
  match index_of (λ p, activity_eqb p d) m with
  | Some i =>
      match m !! i with
      | Some counter =>
          if rac_count counter <? 1 then Throw (Exception "incCount: unexpected count")
          else Ok (<[i := mkActivityPair (update_weight d (retrieve_activity_weight counter))
                            (rac_count counter +u64 1)]> m)
      | None => Throw (Exception "unreachable: index out of range")
      end
  | None =>
      Ok (m ++ [mkActivityPair (mkWeight (ad_priority d) (ad_diskInstanceName d) (ad_activity d)
                                  (ad_weight d) (ad_creationTime d)) 1])
  end.

(** [counter->Swap(&( *(end - 1)))] and [RemoveLast()]. *)
Definition ra_swapRemoveLast (i : nat) (m : list RetrieveActivityCountPair) : list RetrieveActivityCountPair :=
  match last m with
  | None => m
  | Some l => take (length m - 1) (<[i := l]> m)
  end.

Definition ra_decCount (d : RetrieveActivityDescription) (m : list RetrieveActivityCountPair) :
    result (list RetrieveActivityCountPair) :=
  match index_of (λ p, activity_eqb p d) m with
  | None => Throw (Exception "decCount: no entry found")
  | Some i =>
      match m !! i with
      | None => Throw (Exception "unreachable: index out of range")
      | Some counter =>
          if rac_count counter <? 1 then Throw (Exception "decCount: wrong count")
          else
            let m1 := <[i := mkActivityPair (retrieve_activity_weight counter) (rac_count counter -u64 1)]> m in
            if decide (rac_count counter -u64 1 = 0) then
              let size := length m1 in
              let m2 := ra_swapRemoveLast i m1 in
              if decide (Z.of_nat size - 1 ≠ Z.of_nat (length m2)) then
                Throw (Exception "decCount: unexpected size after trimming")
              else if index_of (λ p, activity_eqb p d) m2 is Some _ then
                Throw (Exception "decCount: still found the value")
              else Ok m2
            else Ok m1
      end
  end.

Definition ra_clear (m : list RetrieveActivityCountPair) : list RetrieveActivityCountPair := [].

Definition activity_description (p : RetrieveActivityCountPair) : RetrieveActivityDescription :=
  let w := retrieve_activity_weight p in
  mkActivity (raw_priority w) (raw_disk_instance_name w) (raw_activity w) (raw_creation_time w)
    (raw_weight w) (rac_count p).

Definition getActivities (priority : Z) (m : list RetrieveActivityCountPair) : list RetrieveActivityDescription :=
  activity_description <$> filter (λ p, raw_priority (retrieve_activity_weight p) = priority) m.

(** ** Projection on keys and counts *)
Definition activity_key : Type := Z * string * string.
Definition pair_key (p : RetrieveActivityCountPair) : activity_key :=
  let w := retrieve_activity_weight p in (raw_priority w, raw_disk_instance_name w, raw_activity w).
Definition desc_key (d : RetrieveActivityDescription) : activity_key :=
  (ad_priority d, ad_diskInstanceName d, ad_activity d).
Definition counters (m : list RetrieveActivityCountPair) : list (VCPair activity_key) :=
  (λ p, mkVC (pair_key p) (rac_count p)) <$> m.

Lemma activity_eqb_key p d : activity_eqb p d = bool_decide (pair_key p = desc_key d).
Proof.
  unfold activity_eqb, pair_key, desc_key. rewrite <- !bool_decide_and. apply bool_decide_ext.
  split; [intros [[? ?] ?]; congruence|intros ?; simplify_eq; split_and!; congruence].
Qed.
Lemma index_counters d m : index_of (λ p, activity_eqb p d) m = findIndex (desc_key d) (counters m).
Proof.
  induction m as [|p m IH]; csimpl; [done|]. rewrite activity_eqb_key, IH. simpl.
  case_decide; [by rewrite bool_decide_true|by rewrite bool_decide_false].
Qed.
Lemma update_weight_key d w c c' :
  pair_key (mkActivityPair (update_weight d w) c) = pair_key (mkActivityPair w c').
Proof. unfold update_weight. by case_match. Qed.

Lemma counters_lookup m i : counters m !! i = (λ p, mkVC (pair_key p) (rac_count p)) <$> m !! i.
Proof. apply list_lookup_fmap. Qed.
Lemma counters_insert m i p : counters (<[i := p]> m) = <[i := mkVC (pair_key p) (rac_count p)]> (counters m).
Proof. unfold counters. by rewrite list_fmap_insert. Qed.
Lemma counters_length m : length (counters m) = length m.
Proof. apply length_fmap. Qed.
Lemma counters_swap i m : counters (ra_swapRemoveLast i m) = swapRemoveLast i (counters m).
Proof.
  unfold ra_swapRemoveLast, swapRemoveLast, counters. rewrite fmap_last. destruct (last m) as [l|]; simpl; [|done].
  by rewrite fmap_take, list_fmap_insert, length_fmap.
Qed.

(** The operations are those of the plain counters. *)
Lemma ra_incCount_counters d m : counters <$> ra_incCount d m = incCount (desc_key d) (counters m).
Proof.
  unfold ra_incCount, incCount. rewrite index_counters. destruct (findIndex _ _) as [i|].
  - rewrite counters_lookup. destruct (m !! i) as [p|]; simpl; [|done]. case_match; simpl; [done|].
    rewrite counters_insert. do 2 f_equal. unfold update_weight; simpl. by case_match.
  - simpl. unfold counters. by rewrite fmap_app.
Qed.
Lemma ra_decCount_counters d m : counters <$> ra_decCount d m = decCount (desc_key d) (counters m).
Proof.
  unfold ra_decCount, decCount. rewrite index_counters. destruct (findIndex _ _) as [i|]; [|done].
  rewrite counters_lookup. destruct (m !! i) as [p|]; simpl; [|done]. case_match; simpl; [done|].
  case_decide; [|simpl; by rewrite counters_insert].
  set (m1 := <[i := _]> m).
  assert (<[i := mkVC (pair_key p) (rac_count p -u64 1)]> (counters m) = counters m1) as Hm1
    by (symmetry; apply counters_insert).
  rewrite Hm1, <- counters_swap, !counters_length, index_counters. case_decide; [done|]. by case_match.
Qed.

(** ** Sequences of operations *)
Inductive activity_event := IncActivity (d : RetrieveActivityDescription) | DecActivity (d : RetrieveActivityDescription).
Definition activity_run (e : activity_event) (m : list RetrieveActivityCountPair) : result (list RetrieveActivityCountPair) :=
  match e with IncActivity d => ra_incCount d m | DecActivity d => ra_decCount d m end.
Fixpoint activities_run (es : list activity_event) (m : list RetrieveActivityCountPair) : result (list RetrieveActivityCountPair) :=
  match es with
  | [] => Ok m
  | e :: es' => m' ← activity_run e m; activities_run es' m'
  end.
Definition key_event (e : activity_event) : event activity_key :=
  match e with IncActivity d => Inc (desc_key d) | DecActivity d => Dec (desc_key d) end.

Lemma activities_run_counters es m :
  counters <$> activities_run es m = events_run (key_event <$> es) (counters m).
Proof.
  revert m. induction es as [|e es IH]; intros m; csimpl; [done|].
  assert (counters <$> activity_run e m = event_run (key_event e) (counters m)) as He.
  { destruct e; [apply ra_incCount_counters|apply ra_decCount_counters]. }
  rewrite <- He. destruct (activity_run e m); simpl; [apply IH|done].
Qed.

(** The count of a key, as listed. *)
Definition listed_count (k : string * string) (l : list RetrieveActivityDescription) : Z :=
  match find_if (λ d, bool_decide ((ad_diskInstanceName d, ad_activity d) = k)) l with
  | Some d => ad_count d
  | None => 0
  end.

Lemma listed_multiplicity p i a m :
  listed_count (i, a) (getActivities p m) = multiplicity (p, i, a) (counters m).
Proof.
  unfold listed_count, getActivities. induction m as [|x m IH]; [done|]. rewrite filter_cons. csimpl.
  destruct x as [[xp xi xa xw xc] n]. simpl. destruct (decide (xp = p)) as [->|Hp]; csimpl.
  - destruct (decide ((xi, xa) = (i, a))) as [Hk|Hk].
    + rewrite bool_decide_true by done. by rewrite decide_True by (unfold pair_key; simpl; congruence).
    + rewrite bool_decide_false by done. rewrite decide_False by (unfold pair_key; simpl; congruence). exact IH.
  - rewrite decide_False by (unfold pair_key; simpl; congruence). exact IH.
Qed.

(** Over any meaningful sequence of increments and decrements of activities
    (shorter than 2^64, no absent activity decremented) the code throws nothing, and
    for every priority the listing of [getActivities] has, for each disk instance and
    activity, at most one entry, whose count is the number of such activities in the
    multiset. *)
Lemma activities_counted es g p :
  Z.of_nat (length es) < 2 ^ 64 → events_abs (key_event <$> es) (λ _, 0) = Some g →
  ∃ m, activities_run es [] = Ok m ∧
    (∀ i a, listed_count (i, a) (getActivities p m) = g (p, i, a)) ∧
    NoDup ((λ d, (ad_diskInstanceName d, ad_activity d)) <$> getActivities p m) ∧
    Forall (λ d, 1 <= ad_count d ∧ ad_priority d = p) (getActivities p m).
Proof.
  intros Hlen Hg.
  destruct (events_simulate (key_event <$> es) [] (λ _, 0) g) as (c & Hr & [Hnd Hc] & Hm & _); try done.
  { split; constructor. } { rewrite length_fmap. done. }
  pose proof (eq_trans (activities_run_counters es []) Hr) as Hs.
  destruct (activities_run es []) as [m|]; simplify_eq/=. exists m. split; [done|].
  split; [intros i a; by rewrite listed_multiplicity|].
  assert (Hcm : Forall (λ x, 1 <= rac_count x) m).
  { apply Forall_fmap in Hc. eapply Forall_impl; [exact Hc|]. intros x Hx. simpl in Hx. lia. }
  unfold getActivities. split.
  - clear -Hnd. induction m as [|x m IH]; [constructor|]. csimpl in Hnd. apply NoDup_cons in Hnd as [Hx Hnd].
    rewrite filter_cons. case_decide as Hp; [|auto]. csimpl. apply NoDup_cons. split; [|auto].
    intros Hin. apply Hx. rewrite <- list_fmap_compose in Hin. apply list_elem_of_fmap in Hin as (y & Ey & Hy).
    apply list_elem_of_filter in Hy as [Hyp Hy]. simpl in Ey.
    unfold counters. rewrite <- list_fmap_compose. apply list_elem_of_fmap. exists y. split; [|done].
    simpl. unfold pair_key. congruence.
  - apply Forall_fmap, Forall_forall. intros x [Hp Hx]%list_elem_of_filter.
    split; [|done]. apply (proj1 (Forall_forall _ _) Hcm x Hx).
Qed.

Definition demo_activity (i a : string) (t w : Z) : RetrieveActivityDescription := mkActivity 5 i a t w 0.
Definition demo_activity_events : list activity_event :=
  [IncActivity (demo_activity "eos" "t0" 1 10); IncActivity (demo_activity "eos" "prod" 1 20);
   IncActivity (demo_activity "eos" "t0" 2 30); DecActivity (demo_activity "eos" "prod" 0 0)].

Lemma activities_counted_witness :
  ∃ m g, events_abs (key_event <$> demo_activity_events) (λ _, 0) = Some g ∧
    activities_run demo_activity_events [] = Ok m ∧
    (∀ i a, listed_count (i, a) (getActivities 5 m) = g (5, i, a)) ∧
    NoDup ((λ d, (ad_diskInstanceName d, ad_activity d)) <$> getActivities 5 m) ∧
    Forall (λ d, 1 <= ad_count d ∧ ad_priority d = 5) (getActivities 5 m).
Proof.
  destruct (events_abs (key_event <$> demo_activity_events) (λ _, 0)) as [g|] eqn:E; [|by vm_compute in E].
  destruct (activities_counted demo_activity_events g 5 ltac:(by vm_compute) E) as (m & H).
  by exists m, g.
Defined.

Example demo_activity_listing :
  (getActivities 5) <$> activities_run demo_activity_events [] = Ok [mkActivity 5 "eos" "t0" 2 30 2].
Proof. reflexivity. Qed.
