(* ===== verification/RetrieveQueueShard.v ===== *)
(** * Shards of the retrieve queues

    Model of [objectstore/RetrieveQueueShard.cpp]: a shard holds job pointers
    sorted by position on tape ([fseq]).  A batch of jobs is inserted either in
    place, by swaps from the end, or through an ordered copy; a bisection estimates
    the cost of the first.  [std::multiset] is modelled by a sorted list: plain
    insertion goes after the equal keys, insertion with a hint as close as possible
    to the position just before the hint. *)
From S2P Require Import Prelude DataTypes Backend ObjectOps RetrieveActivity ProtoAlgorithms.

(** ** Data *)

(** [serializers::RetrieveJobPointer]. *)
Record RetrieveJobPointer := mkRJP {
  rjp_size : Z;
  rjp_address : string;
  rjp_copynb : Z;
  rjp_fseq : Z;
  rjp_priority : Z;
  rjp_minretrieverequestage : Z;
  rjp_starttime : Z;
  rjp_mountpolicyname : string;
  rjp_disk_instance_name : option string;
  rjp_activity : option string;
  rjp_destination_disk_system_name : option string
}.

(** [serializers::RetrieveQueueShard]. *)
Record RetrieveQueueShard := mkRQS { retrievejobs : list RetrieveJobPointer; rqs_retrievejobstotalsize : Z }.
#[export] Instance RetrieveQueueShard_message : Message RetrieveQueueShard := {|
  payloadTypeId := RetrieveQueueShard_t; default_message := mkRQS [] 0 |}.

(** [RetrieveQueue::JobToAdd]. *)
Record RetrieveJobToAdd := mkRJobToAdd {
  rja_copyNb : Z;
  rja_fSeq : Z;
  retrieveRequestAddress : string;
  rja_fileSize : Z;
  rja_policy : MountPolicy;
  rja_startTime : Z;
  rja_activityDescription : option RetrieveActivityDescription;
  rja_diskSystemName : option string
}.

(** [RetrieveQueue::JobDump::ActivityDescription] and [JobDump]. *)
Record ActivityName := mkActivityName { an_diskInstanceName : string; an_activity : string }.
Record RetrieveJobDump := mkRJobDump {
  rjd_address : string;
  rjd_copyNb : Z;
  rjd_size : Z;
  rjd_activity : option ActivityName;
  rjd_diskSystemName : option string
}.

(** [RetrieveQueue::CandidateJobList]. *)
Record RetrieveCandidates := mkRCandidates {
  rc_remainingFiles : Z;
  rc_remainingBytes : Z;
  rc_candidateFiles : Z;
  rc_candidateBytes : Z;
  rc_candidates : list RetrieveJobDump
}.

(** [RetrieveQueueShard::JobInfo]. *)
Record RetrieveJobInfo := mkRJobInfo {
  rji_size : Z;
  rji_address : string;
  rji_copyNb : Z;
  rji_priority : Z;
  rji_minRetrieveRequestAge : Z;
  rji_startTime : Z;
  rji_fSeq : Z;
  rji_mountPolicyName : string;
  rji_activityDescription : option ActivityName;
  rji_diskSystemName : option string
}.

(** [RetrieveQueueShard::RemovalResult] and [JobsSummary]. *)
Record RetrieveRemoval := mkRRemoval {
  rr_jobsRemoved : Z;
  rr_jobsAfter : Z;
  rr_bytesRemoved : Z;
  rr_bytesAfter : Z;
  rr_removedJobs : list RetrieveJobInfo
}.
Record RetrieveShardSummary := mkRSummary { rs_jobs : Z; rs_bytes : Z; rs_minFseq : Z; rs_maxFseq : Z }.

(** The activity is copied when [has_activity()]; an unset disk instance reads
    as the empty string. *)
Definition pointer_activity (j : RetrieveJobPointer) : option ActivityName :=
  (λ a, mkActivityName (default "" (rjp_disk_instance_name j)) a) <$> rjp_activity j.

Definition rjob_info (copynb : Z) (j : RetrieveJobPointer) : RetrieveJobInfo :=
  mkRJobInfo (rjp_size j) (rjp_address j) copynb (rjp_priority j) (rjp_minretrieverequestage j)
    (s64 (rjp_starttime j)) (rjp_fseq j) (rjp_mountpolicyname j) (pointer_activity j)
    (rjp_destination_disk_system_name j).

(** The pointer written for a job to add. *)
Definition rjob_pointer (j : RetrieveJobToAdd) : RetrieveJobPointer :=
  mkRJP (rja_fileSize j) (retrieveRequestAddress j) (rja_copyNb j) (rja_fSeq j)
    (retrievePriority (rja_policy j)) (retrieveMinRequestAge (rja_policy j)) (u64 (rja_startTime j))
    (mp_name (rja_policy j))
    (ad_diskInstanceName <$> rja_activityDescription j) (ad_activity <$> rja_activityDescription j)
    (rja_diskSystemName j).

(** ** Ordered multisets ([std::multiset] with a numeric key) *)
Section Multiset.
Context {A : Type} (key : A → Z).

(** [insert(x)]: at the upper bound of the equal keys. *)
Fixpoint ms_insert (x : A) (l : list A) : list A :=
  match l with
  | [] => [x]
  | y :: l' => if key x <? key y then x :: l else y :: ms_insert x l'
  end.

(** [lower_bound] and [upper_bound] of a key, as indices. *)
Fixpoint lower_bound (k : Z) (l : list A) : nat :=
  match l with
  | [] => 0
  | y :: l' => if key y <? k then S (lower_bound k l') else 0
  end.
Fixpoint upper_bound (k : Z) (l : list A) : nat :=
  match l with
  | [] => 0
  | y :: l' => if k <? key y then 0 else S (upper_bound k l')
  end.

(** [insert(hint, x)]: as close as possible to the position just before the hint;
    the new set and the position of the new element. *)
Definition ms_insert_hint (x : A) (st : list A * nat) : list A * nat :=
  let '(l, hint) := st in
  let i := Nat.max (lower_bound (key x) l) (Nat.min hint (upper_bound (key x) l)) in
  (take i l ++ x :: drop i l, i).

(** Successive insertions, each with the iterator returned by the previous one. *)
Definition ms_of_hints (l : list A) : list A := fst (foldl (λ st x, ms_insert_hint x st) ([], 0%nat) l).
Definition ms_of (l : list A) : list A := foldl (λ s x, ms_insert x s) [] l.
End Multiset.

Section Shard.
Context {B : Type}.
Implicit Types (rqs : ObjectOps B RetrieveQueueShard).

Definition rshard_initialize (owner : string) rqs : result (ObjectOps B RetrieveQueueShard) :=
  o1 ← initialize rqs;
  o2 ← setOwner owner o1;
  o3 ← setBackupOwner owner o2;
  let f := m_flags o3 in
  Ok (with_flags (with_interpreted (m_headerInterpreted f) true f)
        (with_payload (mkRQS (retrievejobs (m_payload o3)) 0) o3)).

Definition rshard_rebuild rqs : result (ObjectOps B RetrieveQueueShard) :=
  _ ← checkPayloadWritable rqs;
  let jobs := retrievejobs (m_payload rqs) in
  Ok (with_payload (mkRQS jobs (foldl (λ t j, t +u64 rjp_size j) 0 jobs)) rqs).

Definition rshard_garbageCollect rqs : result unit :=
  Throw (Exception "garbageCollect: garbage collection should not be necessary for this type of object.").

Definition rshard_dumpJobs rqs : result (list RetrieveJobInfo) :=
  _ ← checkPayloadReadable rqs;
  Ok ((λ j, rjob_info (u16 (rjp_copynb j)) j) <$> retrievejobs (m_payload rqs)).

(** The fields not set by [dumpJobsToAdd] keep the value they have in a fresh
    [JobToAdd]: [fresh]. *)
Definition rjob_to_add (fresh : RetrieveJobToAdd) (freshActivity : RetrieveActivityDescription) (j : RetrieveJobPointer) :
    RetrieveJobToAdd :=
  let p := rja_policy fresh in
  mkRJobToAdd (rjp_copynb j) (rjp_fseq j) (rjp_address j) (rjp_size j)
    (mkMountPolicy (rjp_mountpolicyname j) (archivePriority p) (archiveMinRequestAge p)
       (rjp_priority j) (rjp_minretrieverequestage j) (mp_creationLog p) (mp_lastModificationLog p) (mp_comment p))
    (s64 (rjp_starttime j))
    ((λ a, mkActivity (ad_priority freshActivity) (default "" (rjp_disk_instance_name j)) a
             (ad_creationTime freshActivity) (ad_weight freshActivity) (ad_count freshActivity)) <$> rjp_activity j)
    (rjp_destination_disk_system_name j).

Definition rshard_dumpJobsToAdd (fresh : RetrieveJobToAdd) (freshActivity : RetrieveActivityDescription) rqs :
    result (list RetrieveJobToAdd) :=
  _ ← checkPayloadReadable rqs;
  Ok (rjob_to_add fresh freshActivity <$> retrievejobs (m_payload rqs)).

(** The first and last job are read without a test: on an empty shard the access
    is out of range. *)
Definition rshard_getJobsSummary rqs : result RetrieveShardSummary :=
  _ ← checkPayloadReadable rqs;
  let jobs := retrievejobs (m_payload rqs) in
  match head jobs, last jobs with
  | Some j0, Some j1 =>
      if rjp_fseq j1 <? rjp_fseq j0 then Throw (Exception "getJobsSummary: wrong shard ordering.")
      else Ok (mkRSummary (Z.of_nat (length jobs)) (rqs_retrievejobstotalsize (m_payload rqs))
                 (rjp_fseq j0) (rjp_fseq j1))
  | _, _ => Throw (Exception "retrievejobs(0): index out of range")
  end.

(** ** Candidates *)
Definition rcandidate_step (requestsToSkip diskSystemsToSkip : gset string) (j : RetrieveJobPointer)
    (ret : RetrieveCandidates) : RetrieveCandidates :=
  let ret1 :=
    if decide ((rjp_address j ∉ requestsToSkip) ∧ default "" (rjp_destination_disk_system_name j) ∉ diskSystemsToSkip)
    then mkRCandidates (rc_remainingFiles ret) (rc_remainingBytes ret)
           (rc_candidateFiles ret +u64 1) (rc_candidateBytes ret +u64 rjp_size j)
           (rc_candidates ret ++ [mkRJobDump (rjp_address j) (u16 (rjp_copynb j)) (rjp_size j) (pointer_activity j)
                                    (rjp_destination_disk_system_name j)])
    else ret in
  mkRCandidates (rc_remainingFiles ret1 -u64 1) (rc_remainingBytes ret1 -u64 rjp_size j)
    (rc_candidateFiles ret1) (rc_candidateBytes ret1) (rc_candidates ret1).

Fixpoint rcandidate_loop (maxBytes maxFiles : Z) (requestsToSkip diskSystemsToSkip : gset string)
    (jobs : list RetrieveJobPointer) (ret : RetrieveCandidates) : RetrieveCandidates :=
  match jobs with
  | [] => ret
  | j :: jobs' =>
      let ret1 := rcandidate_step requestsToSkip diskSystemsToSkip j ret in
      if (maxBytes <=? rc_candidateBytes ret1) || (maxFiles <=? rc_candidateFiles ret1)
      then ret1 else rcandidate_loop maxBytes maxFiles requestsToSkip diskSystemsToSkip jobs' ret1
  end.

Definition rshard_getCandidateJobList (maxBytes maxFiles : Z) (requestsToSkip diskSystemsToSkip : gset string) rqs :
    result RetrieveCandidates :=
  _ ← checkPayloadReadable rqs;
  let p := m_payload rqs in
  Ok (rcandidate_loop maxBytes maxFiles requestsToSkip diskSystemsToSkip (retrievejobs p)
        (mkRCandidates (Z.of_nat (length (retrievejobs p))) (rqs_retrievejobstotalsize p) 0 0 [])).

(** ** Removal *)
Definition rremoval_state : Type := RetrieveQueueShard * Z * RetrieveRemoval.

Definition rremove_round (rrt : string) (st : rremoval_state) : option rremoval_state :=
  let '(p, totalSize, ret) := st in
  match index_of (λ j, bool_decide (rjp_address j = rrt)) (retrievejobs p) with
  | None => None
  | Some i =>
      match retrievejobs p !! i with
      | None => None
      | Some j =>
          Some (mkRQS (RemoveLast (push_to_end i (retrievejobs p))) (rqs_retrievejobstotalsize p -u64 rjp_size j),
                totalSize -u64 rjp_size j,
                mkRRemoval (rr_jobsRemoved ret +u64 1) (rr_jobsAfter ret) (rr_bytesRemoved ret +u64 rjp_size j)
                  (rr_bytesAfter ret) (rr_removedJobs ret ++ [rjob_info (rjp_copynb j) j]))
      end
  end.

Fixpoint rremove_rounds (fuel : nat) (rrt : string) (st : rremoval_state) : rremoval_state :=
  match fuel with
  | O => st
  | S fuel' => match rremove_round rrt st with Some st' => rremove_rounds fuel' rrt st' | None => st end
  end.

(** Each round removes a job, so the number of jobs bounds the rounds. *)
Definition rshard_removeJobs (jobsToRemove : list string) rqs :
    result (RetrieveRemoval * ObjectOps B RetrieveQueueShard) :=
  _ ← checkPayloadWritable rqs;
  let p := m_payload rqs in
  let '(p', totalSize, ret) :=
    foldl (λ st rrt, rremove_rounds (length (retrievejobs st.1.1)) rrt st)
      (p, rqs_retrievejobstotalsize p, mkRRemoval 0 0 0 0 []) jobsToRemove in
  Ok (mkRRemoval (rr_jobsRemoved ret) (Z.of_nat (length (retrievejobs p'))) (rr_bytesRemoved ret)
        totalSize (rr_removedJobs ret), with_payload p' rqs).

(** ** Insertion *)

(** The swaps that bring the job at [i] down to its place. *)
Fixpoint sort_down (i : nat) (jobs : list RetrieveJobPointer) : list RetrieveJobPointer :=
  match i with
  | O => jobs
  | S i' =>
      match jobs !! i, jobs !! i' with
      | Some x, Some y => if rjp_fseq x <? rjp_fseq y then sort_down i' (SwapElements i' i jobs) else jobs
      | _, _ => jobs
      end
  end.

Definition rshard_addJob (j : RetrieveJobToAdd) rqs : result (ObjectOps B RetrieveQueueShard) :=
  _ ← checkPayloadWritable rqs;
  let p := m_payload rqs in
  let jobs := retrievejobs p ++ [rjob_pointer j] in
  Ok (with_payload (mkRQS (sort_down (length jobs - 1) jobs) (rqs_retrievejobstotalsize p +u64 rja_fileSize j)) rqs).

Fixpoint addJobsInPlace (jobsToAdd : list RetrieveJobToAdd) rqs : result (ObjectOps B RetrieveQueueShard) :=
  match jobsToAdd with
  | [] => Ok rqs
  | j :: l => rqs' ← rshard_addJob j rqs; addJobsInPlace l rqs'
  end.

Definition addJobsThroughCopy (jobsToAdd : list RetrieveJobToAdd) rqs : result (ObjectOps B RetrieveQueueShard) :=
  _ ← checkPayloadWritable rqs;
  let p := m_payload rqs in
  let jobsSet := ms_of_hints rjp_fseq (retrievejobs p) in
  let serializedJobsToAdd := ms_of_hints rjp_fseq (rjob_pointer <$> jobsToAdd) in
  let totalSize := foldl (λ t j, t +u64 rja_fileSize j) (rqs_retrievejobstotalsize p) jobsToAdd in
  Ok (with_payload (mkRQS (foldl (λ s x, ms_insert rjp_fseq x s) jobsSet serializedJobsToAdd) totalSize) rqs).

(** The bisection of [addJobsBatch]: number of jobs after the last one whose
    position is not above the limit.  [None] when the fuel runs out. *)
Definition fseq_at (jobs : list RetrieveJobPointer) (i : nat) : Z :=
  match jobs !! i with Some j => rjp_fseq j | None => 0 end.

Fixpoint bisect (fuel : nat) (jobs : list RetrieveJobPointer) (fSeqLimit : Z) (iminmin iminmax imin : nat) : option nat :=
  let N := length jobs in
  match fuel with
  | O => None
  | S fuel' =>
      if fSeqLimit <? fseq_at jobs imin then
        let imin' := ((iminmin + imin) / 2)%nat in
        if decide (imin' = 0%nat) then (if fseq_at jobs 0 <=? fSeqLimit then Some (N - 1)%nat else Some N)
        else bisect fuel' jobs fSeqLimit iminmin imin imin'
      else if decide (N - 1 ≤ imin)%nat then (if fseq_at jobs (N - 1)%nat <=? fSeqLimit then Some 0%nat else Some 1%nat)
      else if fSeqLimit <? fseq_at jobs (imin + 1)%nat then Some (N - imin - 1)%nat
      else if decide (imin + 1 = N - 1)%nat then Some 0%nat
      else bisect fuel' jobs fSeqLimit imin iminmax ((imin + iminmax) / 2)%nat
  end.

Definition insertion_distance (jobs : list RetrieveJobPointer) (fSeqLimit : Z) : option nat :=
  let N := length jobs in
  match N with
  | 0%nat => Some 0%nat
  | 1%nat => (if fseq_at jobs 0 <=? fSeqLimit then Some 0%nat else Some 1%nat)
  | _ => bisect N jobs fSeqLimit 0 (N - 1)%nat (N / 2)%nat
  end.

(** [addJobsBatch]: [jobsToAdd] lists a [JobsToAddSet], in its order. *)
Definition addJobsBatch (jobsToAdd : list RetrieveJobToAdd) rqs : result (ObjectOps B RetrieveQueueShard) :=
  _ ← checkPayloadWritable rqs;
  match jobsToAdd with
  | [] => Ok rqs
  | j0 :: _ =>
      let jobs := retrievejobs (m_payload rqs) in
      match insertion_distance jobs (rja_fSeq j0) with
      | None => Throw OutOfFuel
      | Some np =>
          let N := Z.of_nat (length jobs) in
          let Np := Z.of_nat np in
          let k := Z.of_nat (length jobsToAdd) in
          if u64 (2 * N + 3 * k) <? u64 (3 * (k + 1) * Np) / 2
          then addJobsThroughCopy jobsToAdd rqs
          else addJobsInPlace jobsToAdd rqs
      end
  end.
End Shard.
