(* ===== verification/RetrieveShardSpec.v ===== *)
(** * Ordering and insertion in the shards of the retrieve queues

    Sorted lists of jobs, the number of steps and the result of the bisection, and
    the two insertion algorithms of [RetrieveQueueShard.v] against the
    specification "a sorted permutation of the old jobs and the new ones". *)
From stdpp Require Import sorting.
From S2P Require Import Prelude DataTypes Backend ObjectOps RetrieveActivity ProtoAlgorithms Handles RetrieveQueueShard.

Section Sorted.
Context {A : Type} (key : A → Z).
Implicit Types (l : list A) (x y : A) (k : Z).

Definition by_key : relation A := λ x y, key x <= key y.
Definition sorted l : Prop := StronglySorted by_key l.

(** Elements below and above the bounds. *)
Lemma lower_bound_le_upper k l : (lower_bound key k l ≤ upper_bound key k l)%nat.
Proof.
  induction l as [|y l IH]; simpl; [done|]. destruct (Z.ltb_spec (key y) k), (Z.ltb_spec k (key y)); lia.
Qed.
Lemma upper_bound_length k l : (upper_bound key k l ≤ length l)%nat.
Proof. induction l as [|y l IH]; simpl; [done|]. case_match; lia. Qed.

Lemma take_upper_bound k l i : (i ≤ upper_bound key k l)%nat → Forall (λ y, key y <= k) (take i l).
Proof.
  revert i. induction l as [|y l IH]; intros [|i]; simpl; try constructor.
  - destruct (Z.ltb_spec k (key y)); lia.
  - destruct (Z.ltb_spec k (key y)); [lia|]. intros. apply IH. lia.
Qed.
Lemma drop_lower_bound k l i : sorted l → (lower_bound key k l ≤ i)%nat → Forall (λ y, k <= key y) (drop i l).
Proof.
  intros Hs. revert i. induction Hs as [|y l Hs IH Hy]; intros i; [by rewrite drop_nil|]. simpl.
  destruct (Z.ltb_spec (key y) k).
  - destruct i as [|i]; [lia|]. simpl. intros. apply IH. lia.
  - intros _. apply Forall_drop, Forall_cons. split; [done|].
    eapply Forall_impl; [exact Hy|]. unfold by_key. intros; lia.
Qed.

(** Insertion between the bounds keeps the list sorted. *)
Lemma sorted_insert_at x l i :
  sorted l → (lower_bound key (key x) l ≤ i ≤ upper_bound key (key x) l)%nat → sorted (take i l ++ x :: drop i l).
Proof.
  intros Hs [Hlo Hup]. pose proof (take_upper_bound _ _ _ Hup) as Ht. pose proof (drop_lower_bound _ _ _ Hs Hlo) as Hd.
  rewrite <- (take_drop i l) in Hs. apply StronglySorted_app in Hs as (Hcross & Hst & Hsd).
  apply StronglySorted_app_2; [|done|].
  - intros y z Hy Hz. apply elem_of_cons in Hz as [->|Hz]; [by apply (proj1 (Forall_forall _ _) Ht)|by apply Hcross].
  - constructor; [done|]. done.
Qed.

Lemma ms_insert_at x l : ms_insert key x l = take (upper_bound key (key x) l) l ++ x :: drop (upper_bound key (key x) l) l.
Proof.
  induction l as [|y l IH]; simpl; [done|]. destruct (Z.ltb_spec (key x) (key y)); simpl; [done|]. by rewrite IH.
Qed.
Lemma ms_insert_sorted x l : sorted l → sorted (ms_insert key x l).
Proof. intros Hs. rewrite ms_insert_at. apply sorted_insert_at; [done|]. pose proof (lower_bound_le_upper (key x) l). lia. Qed.
Lemma ms_insert_perm x l : ms_insert key x l ≡ₚ x :: l.
Proof. rewrite ms_insert_at, <- Permutation_middle, take_drop. done. Qed.

Lemma ms_inserts_sorted xs l : sorted l → sorted (foldl (λ s x, ms_insert key x s) l xs).
Proof. revert l. induction xs as [|x xs IH]; intros l Hs; simpl; [done|]. by apply IH, ms_insert_sorted. Qed.
Lemma ms_inserts_perm xs l : foldl (λ s x, ms_insert key x s) l xs ≡ₚ l ++ xs.
Proof.
  revert l. induction xs as [|x xs IH]; intros l; simpl; [by rewrite app_nil_r|].
  rewrite IH, ms_insert_perm. by rewrite <- Permutation_middle.
Qed.

Lemma ms_insert_hint_spec x st :
  sorted (fst st) → sorted (fst (ms_insert_hint key x st)) ∧ fst (ms_insert_hint key x st) ≡ₚ x :: fst st.
Proof.
  intros Hs. destruct st as [l h]. simpl in *. pose proof (lower_bound_le_upper (key x) l). split.
  - apply sorted_insert_at; [done|]. lia.
  - by rewrite <- Permutation_middle, take_drop.
Qed.
Lemma ms_of_hints_spec l : sorted (ms_of_hints key l) ∧ ms_of_hints key l ≡ₚ l.
Proof.
  unfold ms_of_hints. assert (∀ st, sorted (fst st) →
    sorted (fst (foldl (λ st x, ms_insert_hint key x st) st l)) ∧
    fst (foldl (λ st x, ms_insert_hint key x st) st l) ≡ₚ l ++ fst st) as H.
  { induction l as [|x l IH]; intros st Hs; simpl; [done|].
    destruct (ms_insert_hint_spec x st Hs) as [Hs' Hp]. destruct (IH _ Hs') as [H1 H2].
    split; [done|]. rewrite H2, Hp. by rewrite <- Permutation_middle. }
  destruct (H ([], 0%nat)) as [H1 H2]; [constructor|]. split; [done|]. simpl in H2. by rewrite app_nil_r in H2.
Qed.

(** Sorted permutations with distinct keys are equal. *)
Lemma sorted_unique l1 l2 : NoDup (key <$> l1) → sorted l1 → sorted l2 → l1 ≡ₚ l2 → l1 = l2.
Proof.
  intros Hnd H1 H2 HP. eapply StronglySorted_unique_strong; [|exact H1|exact H2|exact HP].
  intros x y Hx Hy Hxy Hyx. unfold by_key in *. rewrite <- HP in Hy. assert (key x = key y) as Hk by lia.
  apply list_elem_of_lookup in Hx as [i Hi]. apply list_elem_of_lookup in Hy as [j Hj].
  assert (i = j) as ->; [|congruence].
  eapply NoDup_lookup; [exact Hnd|rewrite list_lookup_fmap, Hi; done|]. rewrite list_lookup_fmap, Hj. simpl. by rewrite Hk.
Qed.

(** The elements above a limit are those after its upper bound. *)
Lemma above_upper_bound k l :
  sorted l → length (filter (λ y, k < key y) l) = (length l - upper_bound key k l)%nat.
Proof.
  induction 1 as [|y l Hs IH Hy]; simpl; [done|]. rewrite filter_cons. destruct (Z.ltb_spec k (key y)).
  - rewrite decide_True by done. simpl. rewrite list_filter_all; [done|].
    eapply Forall_impl; [exact Hy|]. unfold by_key. intros; lia.
  - rewrite decide_False by lia. rewrite IH. lia.
Qed.
Lemma upper_bound_unique k l i :
  sorted l → (i ≤ length l)%nat →
  (∀ j y, l !! j = Some y → (j < i)%nat → key y <= k) → (∀ j y, l !! j = Some y → (i ≤ j)%nat → k < key y) →
  upper_bound key k l = i.
Proof.
  intros Hs. revert i. induction Hs as [|y l Hs IH Hy]; intros i Hi Hlo Hup; simpl in *; [lia|].
  destruct (Z.ltb_spec k (key y)).
  - destruct i as [|i]; [done|]. specialize (Hlo 0%nat y eq_refl ltac:(lia)). lia.
  - destruct i as [|i]; [specialize (Hup 0%nat y eq_refl ltac:(lia)); lia|]. f_equal.
    apply IH; [lia| |]; intros j z Hj ?; [apply (Hlo (S j))|apply (Hup (S j))]; (done || lia).
Qed.
Lemma sorted_lookup l i j x y : sorted l → l !! i = Some x → l !! j = Some y → (i ≤ j)%nat → key x <= key y.
Proof.
  intros Hs. revert i j. induction Hs as [|z l Hs IH Hz]; intros [|i] [|j] Hi Hj Hij; simplify_eq/=; try lia.
  - eapply (proj1 (Forall_forall _ _) Hz). by eapply list_elem_of_lookup_2.
  - apply (IH i j); [done..|lia].
Qed.
End Sorted.

(** ** The bisection *)
Section Bisect.
Context (jobs : list RetrieveJobPointer) (limit : Z).
Abbreviation N := (length jobs).

(** The interval of the search: [iminmax] is the last index or above the limit,
    [iminmin] the first or not above it. *)
Record search (iminmin iminmax imin : nat) : Prop := {
  search_order : (iminmin ≤ imin < iminmax)%nat;
  search_range : (iminmax ≤ N - 1)%nat;
  search_mid : imin = iminmin → (iminmax ≤ S iminmin)%nat;
  search_above : iminmax = (N - 1)%nat ∨ limit < fseq_at jobs iminmax;
  search_below : iminmin = 0%nat ∨ fseq_at jobs iminmin <= limit
}.

(** What the loop returns, when the jobs are sorted. *)
Definition distance_ok (np : nat) : Prop :=
  sorted rjp_fseq jobs → np = (N - upper_bound rjp_fseq limit jobs)%nat.

Lemma fseq_at_lookup i : (i < N)%nat → ∃ j, jobs !! i = Some j ∧ fseq_at jobs i = rjp_fseq j.
Proof. intros Hi. destruct (lookup_lt_is_Some_2 jobs i Hi) as [j Hj]. exists j. unfold fseq_at. by rewrite Hj. Qed.

(** The limit falls between two neighbours. *)
Lemma distance_between i :
  (S i < N)%nat → fseq_at jobs i <= limit < fseq_at jobs (S i) → distance_ok (N - i - 1).
Proof.
  intros Hi Hl Hs. destruct (fseq_at_lookup i ltac:(lia)) as (x & Hx & Ex).
  destruct (fseq_at_lookup (S i) Hi) as (y & Hy & Ey).
  rewrite (upper_bound_unique rjp_fseq limit jobs (S i)); [lia|done|lia| |].
  - intros j z Hj ?. pose proof (sorted_lookup rjp_fseq _ _ _ _ _ Hs Hj Hx ltac:(lia)). lia.
  - intros j z Hj ?. pose proof (sorted_lookup rjp_fseq _ _ _ _ _ Hs Hy Hj ltac:(lia)). lia.
Qed.
Lemma distance_all : (0 < N)%nat → limit < fseq_at jobs 0 → distance_ok N.
Proof.
  intros Hn Hl Hs. destruct (fseq_at_lookup 0 Hn) as (x & Hx & Ex).
  rewrite (upper_bound_unique rjp_fseq limit jobs 0); [lia|done|lia|lia|].
  intros j z Hj ?. pose proof (sorted_lookup rjp_fseq _ _ _ _ _ Hs Hx Hj ltac:(lia)). lia.
Qed.
Lemma distance_none : (0 < N)%nat → fseq_at jobs (N - 1) <= limit → distance_ok 0.
Proof.
  intros Hn Hl Hs. destruct (fseq_at_lookup (N - 1) ltac:(lia)) as (x & Hx & Ex).
  rewrite (upper_bound_unique rjp_fseq limit jobs N); [lia|done|lia| |].
  - intros j z Hj ?. pose proof (sorted_lookup rjp_fseq _ _ _ _ _ Hs Hj Hx ltac:(lia)). lia.
  - intros j z Hj ?. apply lookup_lt_Some in Hj. lia.
Qed.

Lemma bisect_spec fuel iminmin iminmax imin :
  search iminmin iminmax imin → (iminmax - iminmin < fuel)%nat →
  ∃ np, bisect fuel jobs limit iminmin iminmax imin = Some np ∧ distance_ok np.
Proof.
  revert iminmin iminmax imin. induction fuel as [|fuel IH]; intros lo hi i [Ho Hr Hm Ha Hb] Hf; [lia|].
  cbn [bisect]. destruct (Z.ltb_spec limit (fseq_at jobs i)) as [Hgt|Hle].
  - assert (Hi : lo = i → i = 0%nat) by (intros ->; destruct Hb; lia).
    case_decide as Hz.
    + destruct (Z.leb_spec (fseq_at jobs 0) limit) as [H0|H0]; (eexists; split; [done|]); [|by apply distance_all; lia].
      assert (i = 1%nat) as ->.
      { destruct (decide (i = 0%nat)) as [->|]; [lia|]. destruct (decide (i = 1%nat)); [done|].
        assert (2 <= lo + i)%nat by lia. pose proof (Nat.Div0.div_le_mono 2 (lo + i) 2 ltac:(lia)) as Hd. change (2 / 2)%nat with 1%nat in Hd. lia. }
      replace (N - 1)%nat with (N - 0 - 1)%nat by lia. apply distance_between; [lia|done].
    + assert (lo < i)%nat by (destruct (decide (lo = i)) as [->|]; [rewrite Hi in * by done; done|lia]).
      pose proof (Nat.div_mod (lo + i) 2 ltac:(lia)). pose proof (Nat.mod_upper_bound (lo + i) 2 ltac:(lia)).
      apply IH; [|lia]. constructor; [lia|lia|lia|by right|done].
  - case_decide; [lia|]. destruct (Z.ltb_spec limit (fseq_at jobs (i + 1))) as [H1|H1].
    { eexists; split; [done|]. apply distance_between; [lia|]. by replace (S i) with (i + 1)%nat by lia. }
    case_decide as Hlast.
    { eexists; split; [done|]. apply distance_none; [lia|]. by rewrite <- Hlast. }
    assert (S i < hi)%nat.
    { destruct (decide (hi = S i)) as [->|]; [|lia]. replace (i + 1)%nat with (S i) in * by lia. destruct Ha; lia. }
    pose proof (Nat.div_mod (i + hi) 2 ltac:(lia)). pose proof (Nat.mod_upper_bound (i + hi) 2 ltac:(lia)).
    apply IH; [|lia]. constructor; [lia|lia|lia|done|by right].
Qed.

Lemma insertion_distance_spec : ∃ np, insertion_distance jobs limit = Some np ∧ distance_ok np.
Proof.
  unfold insertion_distance. destruct N as [|[|n]] eqn:En.
  - eexists; split; [done|]. intros _. lia.
  - destruct (Z.leb_spec (fseq_at jobs 0) limit); (eexists; split; [done|]).
    + apply distance_none; [lia|]. by rewrite En.
    + replace 1%nat with N by lia. apply distance_all; [lia|done].
  - rewrite <- En. destruct n as [|n].
    + rewrite En. simpl. destruct (Z.ltb_spec limit (fseq_at jobs 1)) as [H1|H1].
      * simpl. destruct (Z.leb_spec (fseq_at jobs 0) limit); rewrite En; (eexists; split; [done|]).
        -- replace (2 - 1)%nat with (N - 0 - 1)%nat by lia. apply distance_between; [lia|done].
        -- replace 2%nat with N by lia. apply distance_all; [lia|done].
      * rewrite En. simpl. rewrite (proj2 (Z.leb_le _ _)) by done. eexists; split; [done|].
        apply distance_none; [lia|]. by rewrite En.
    + pose proof (Nat.div_mod N 2 ltac:(lia)). pose proof (Nat.mod_upper_bound N 2 ltac:(lia)).
      apply bisect_spec; [|lia]. constructor; [lia|lia|lia|by left|by left].
Qed.
Lemma insertion_distance_total : ∃ np, insertion_distance jobs limit = Some np.
Proof. destruct insertion_distance_spec as (np & E & _). eauto. Qed.

(** The bisection that estimates the cost of an insertion terminates on every
    array of jobs, sorted or not, within as many steps as there are jobs, and on a
    sorted array it returns exactly the number of jobs that lie beyond the
    insertion point. *)
Lemma bisection_exact :
  ∃ np, insertion_distance jobs limit = Some np ∧
    (sorted rjp_fseq jobs → np = length (filter (λ j, limit < rjp_fseq j) jobs)).
Proof.
  destruct insertion_distance_spec as (np & E & Hd). exists np. split; [done|].
  intros Hs. by rewrite above_upper_bound, Hd.
Qed.
End Bisect.


(** ** Insertion by swaps *)
Abbreviation ins := (ms_insert rjp_fseq).
Abbreviation jobs_sorted := (sorted rjp_fseq).

Lemma ms_insert_last_lt x l y : rjp_fseq x < rjp_fseq y → ins x (l ++ [y]) = ins x l ++ [y].
Proof.
  intros Hlt. induction l as [|z l IH]; simpl; [by rewrite (proj2 (Z.ltb_lt _ _))|].
  case_match; [done|]. by rewrite IH.
Qed.
Lemma ms_insert_all_le x l : Forall (λ y, rjp_fseq y <= rjp_fseq x) l → ins x l = l ++ [x].
Proof.
  induction 1 as [|y l Hy _ IH]; simpl; [reflexivity|]. rewrite (proj2 (Z.ltb_ge _ _)) by done. by rewrite IH.
Qed.
Lemma sorted_last_le l y : jobs_sorted (l ++ [y]) → Forall (λ z, rjp_fseq z <= rjp_fseq y) (l ++ [y]).
Proof.
  intros Hs. apply StronglySorted_app in Hs as (Hc & _ & _). apply Forall_app. split; [|apply Forall_singleton; lia].
  apply Forall_forall. intros z Hz. apply Hc; [done|]. by apply list_elem_of_singleton.
Qed.

(** The swaps from the end of the field insert where [std::multiset] does. *)
Lemma sort_down_insert l1 : ∀ x l2,
  jobs_sorted l1 → sort_down (length l1) (l1 ++ x :: l2) = ins x l1 ++ l2.
Proof.
  induction l1 as [|y l IH] using rev_ind; intros x l2 Hs; [done|].
  rewrite length_app, Nat.add_1_r, <- app_assoc. cbn [sort_down app].
  rewrite (list_lookup_middle l _ y (length l)) by done. rewrite (lookup_app_r l _ (S (length l))) by lia.
  replace (S (length l) - length l)%nat with 1%nat by lia. simpl.
  destruct (Z.ltb_spec (rjp_fseq x) (rjp_fseq y)) as [Hlt|Hge].
  - rewrite ms_insert_last_lt, <- app_assoc by done. simpl. rewrite <- IH by by apply StronglySorted_app in Hs as (_ & ? & _).
    f_equal. unfold SwapElements. rewrite (list_lookup_middle l _ y (length l)) by done. rewrite (lookup_app_r l _ (S (length l))) by lia.
    replace (S (length l) - length l)%nat with 1%nat by lia. simpl.
    rewrite !insert_app_r_alt by lia. rewrite Nat.sub_diag. by replace (S (length l) - length l)%nat with 1%nat by lia.
  - rewrite ms_insert_all_le; [by rewrite <- !app_assoc|].
    eapply Forall_impl; [by apply sorted_last_le|]. simpl. intros; lia.
Qed.

Section Batch.
Context {B : Type}.
Implicit Types (rqs : ObjectOps B RetrieveQueueShard) (js : list RetrieveJobToAdd).

Definition add_sizes (t : Z) js : Z := foldl (λ t j, t +u64 rja_fileSize j) t js.

Lemma addJobsInPlace_ok js rqs :
  writable rqs → jobs_sorted (retrievejobs (m_payload rqs)) →
  addJobsInPlace js rqs = Ok (with_payload (mkRQS
    (foldl (λ s x, ins x s) (retrievejobs (m_payload rqs)) (rjob_pointer <$> js))
    (add_sizes (rqs_retrievejobstotalsize (m_payload rqs)) js)) rqs).
Proof.
  revert rqs. induction js as [|j js IH]; intros rqs Hw Hs; csimpl.
  - by destruct rqs as [? ? ? [? ?] ?].
  - unfold rshard_addJob. rewrite (proj2 (checkPayloadWritable_ok rqs) Hw). csimpl.
    rewrite length_app. simpl. replace (length (retrievejobs (m_payload rqs)) + 1 - 1)%nat
      with (length (retrievejobs (m_payload rqs))) by lia.
    rewrite sort_down_insert, app_nil_r by done.
    rewrite IH; [done|done|]. by apply ms_insert_sorted.
Qed.

Lemma addJobsThroughCopy_ok js rqs :
  writable rqs →
  ∃ l, addJobsThroughCopy js rqs = Ok (with_payload (mkRQS l
         (add_sizes (rqs_retrievejobstotalsize (m_payload rqs)) js)) rqs) ∧
    jobs_sorted l ∧ l ≡ₚ retrievejobs (m_payload rqs) ++ (rjob_pointer <$> js).
Proof.
  intros Hw. unfold addJobsThroughCopy. rewrite (proj2 (checkPayloadWritable_ok rqs) Hw).
  unfold mbind, result_bind. eexists. split; [done|].
  destruct (ms_of_hints_spec rjp_fseq (retrievejobs (m_payload rqs))) as [Hs Hp].
  destruct (ms_of_hints_spec rjp_fseq (rjob_pointer <$> js)) as [_ Hp'].
  split; [by apply ms_inserts_sorted|]. by rewrite ms_inserts_perm, Hp, Hp'.
Qed.

(** The two algorithms agree when no two jobs share a position. *)
Lemma insertion_algorithms_agree js rqs :
  writable rqs → jobs_sorted (retrievejobs (m_payload rqs)) →
  NoDup (rjp_fseq <$> (retrievejobs (m_payload rqs) ++ (rjob_pointer <$> js))) →
  addJobsThroughCopy js rqs = addJobsInPlace js rqs.
Proof.
  intros Hw Hs Hnd. destruct (addJobsThroughCopy_ok js rqs Hw) as (l & -> & Hsl & Hp).
  rewrite addJobsInPlace_ok by done. do 3 f_equal. apply (sorted_unique rjp_fseq); [by rewrite Hp|done| |].
  - by apply ms_inserts_sorted.
  - by rewrite Hp, ms_inserts_perm.
Qed.

(** Whichever algorithm is selected. *)
Lemma addJobsBatch_ok js rqs :
  writable rqs → jobs_sorted (retrievejobs (m_payload rqs)) →
  ∃ l, addJobsBatch js rqs = Ok (with_payload (mkRQS l
         (add_sizes (rqs_retrievejobstotalsize (m_payload rqs)) js)) rqs) ∧
    jobs_sorted l ∧ l ≡ₚ retrievejobs (m_payload rqs) ++ (rjob_pointer <$> js) ∧
    (NoDup (rjp_fseq <$> (retrievejobs (m_payload rqs) ++ (rjob_pointer <$> js))) →
     addJobsBatch js rqs = addJobsInPlace js rqs).
Proof.
  intros Hw Hs. unfold addJobsBatch. rewrite (proj2 (checkPayloadWritable_ok rqs) Hw).
  unfold mbind at 1 2, result_bind at 1 2. destruct js as [|j0 js'] eqn:Ej.
  { exists (retrievejobs (m_payload rqs)). csimpl. rewrite app_nil_r. split_and!; try done.
    by destruct rqs as [? ? ? [? ?] ?]. }
  rewrite <- Ej. destruct (insertion_distance_total (retrievejobs (m_payload rqs)) (rja_fSeq j0)) as [np ->].
  case_match.
  - destruct (addJobsThroughCopy_ok js rqs Hw) as (l & E & Hsl & Hp). exists l. split_and!; [done..|].
    by apply insertion_algorithms_agree.
  - eexists. split; [by apply addJobsInPlace_ok|]. split; [by apply ms_inserts_sorted|].
    split; [by apply ms_inserts_perm|done].
Qed.

(** Adding a batch of jobs to a sorted, writable shard succeeds whichever of
    the two insertion algorithms the cost estimate selects: only the payload
    changes, the jobs are again sorted by position on tape, they are the old
    jobs and the new ones, and the total size grows by the sizes of the new jobs.
    With distinct positions the resulting order is the same for both algorithms. *)
Lemma batch_keeps_order js rqs :
  writable rqs → jobs_sorted (retrievejobs (m_payload rqs)) →
  ∃ l, addJobsBatch js rqs = Ok (with_payload (mkRQS l
         (add_sizes (rqs_retrievejobstotalsize (m_payload rqs)) js)) rqs) ∧
    jobs_sorted l ∧ l ≡ₚ retrievejobs (m_payload rqs) ++ (rjob_pointer <$> js) ∧
    (NoDup (rjp_fseq <$> (retrievejobs (m_payload rqs) ++ (rjob_pointer <$> js))) →
     addJobsBatch js rqs = addJobsInPlace js rqs).
Proof. apply addJobsBatch_ok. Qed.
End Batch.

(** ** A shard and a batch *)
Definition ex_rpolicy : MountPolicy :=
  mkMountPolicy "mp" 1 0 2 0 (mkEntryLog "u" "h" 0) (mkEntryLog "u" "h" 0) "".
Definition ex_rjob (fSeq : Z) (address : string) (size : Z) : RetrieveJobToAdd :=
  mkRJobToAdd 1 fSeq address size ex_rpolicy 5 None None.
Definition ex_rshard (jobs : list RetrieveJobToAdd) (total : Z) : ObjectOps unit RetrieveQueueShard :=
  mkOps true "shard" (mkHeader RetrieveQueueShard_t 0 "q" "" ()) (mkRQS (rjob_pointer <$> jobs) total)
    (mkFlags true true true 1 1 false true false).

(** A batch of three jobs goes around the two jobs of the shard. *)
Example ex_batch :
  addJobsBatch [ex_rjob 1 "c" 5; ex_rjob 9 "d" 6; ex_rjob 4 "e" 7] (ex_rshard [ex_rjob 3 "a" 10; ex_rjob 8 "b" 20] 30) =
    Ok (ex_rshard [ex_rjob 1 "c" 5; ex_rjob 3 "a" 10; ex_rjob 4 "e" 7; ex_rjob 8 "b" 20; ex_rjob 9 "d" 6] 48).
Proof. vm_compute. reflexivity. Qed.

Lemma batch_keeps_order_witness :
  match addJobsBatch [ex_rjob 1 "c" 5; ex_rjob 4 "e" 7] (ex_rshard [ex_rjob 3 "a" 10; ex_rjob 8 "b" 20] 30) with
  | Ok o => jobs_sorted (retrievejobs (m_payload o))
  | Throw _ => False
  end.
Proof.
  destruct (batch_keeps_order [ex_rjob 1 "c" 5; ex_rjob 4 "e" 7] (ex_rshard [ex_rjob 3 "a" 10; ex_rjob 8 "b" 20] 30))
    as (l & -> & Hs & _).
  - apply checkPayloadWritable_ok. reflexivity.
  - unfold ex_rshard. simpl. repeat constructor; unfold by_key; simpl; lia.
  - exact Hs.
Defined.

(** ** Removal of jobs *)
Definition rsizes (l : list RetrieveJobPointer) : Z := Zsum (rjp_size <$> l).
Definition removed_info (j : RetrieveJobPointer) : RetrieveJobInfo := rjob_info (rjp_copynb j) j.

(** A removal state after [gone] was taken out and [rest] is left. *)
Definition take_out (gone rest : list RetrieveJobPointer) (st : rremoval_state) : rremoval_state :=
  let '(p, ts, ret) := st in
  (mkRQS rest (u64 (rqs_retrievejobstotalsize p - rsizes gone)), u64 (ts - rsizes gone),
   mkRRemoval (u64 (rr_jobsRemoved ret + Z.of_nat (length gone))) (rr_jobsAfter ret)
     (u64 (rr_bytesRemoved ret + rsizes gone)) (rr_bytesAfter ret) (rr_removedJobs ret ++ (removed_info <$> gone))).

Definition rremoval_range (st : rremoval_state) : Prop :=
  let '(p, ts, ret) := st in
  in_u64 (rqs_retrievejobstotalsize p) ∧ in_u64 ts ∧ in_u64 (rr_jobsRemoved ret) ∧ in_u64 (rr_bytesRemoved ret).

Lemma take_out_range gone rest st : rremoval_range (take_out gone rest st).
Proof. destruct st as [[p ts] ret]. repeat split; apply u64_range. Qed.
Lemma take_out_nil st : rremoval_range st → take_out [] (retrievejobs st.1.1) st = st.
Proof.
  destruct st as [[[jobs tot] ts] [r1 r2 r3 r4 r5]]. intros (H1 & H2 & H3 & H4). unfold take_out, rsizes. simpl in *.
  rewrite !Z.sub_0_r, !Z.add_0_r, !u64_small, app_nil_r by done. done.
Qed.
Lemma take_out_trans g1 r1 g2 r2 st : take_out g2 r2 (take_out g1 r1 st) = take_out (g1 ++ g2) r2 st.
Proof.
  destruct st as [[p ts] ret]. unfold take_out, rsizes. simpl. rewrite !fmap_app, !Zsum_app, length_app, <- app_assoc.
  rewrite !u64_sub_l, !u64_add_l, Nat2Z.inj_add, !Z.sub_add_distr, !Z.add_assoc. done.
Qed.

Abbreviation other a l := (filter (λ j, rjp_address j ≠ a) l).
Abbreviation same a l := (filter (λ j, rjp_address j = a) l).

Lemma rremove_round_cases a st :
  (rremove_round a st = None ∧ Forall (λ j, rjp_address j ≠ a) (retrievejobs st.1.1)) ∨
  ∃ j l1 l2, retrievejobs st.1.1 = l1 ++ j :: l2 ∧ rjp_address j = a ∧ Forall (λ j, rjp_address j ≠ a) l1 ∧
    rremove_round a st = Some (take_out [j] (l1 ++ l2) st).
Proof.
  destruct st as [[p ts] ret]. unfold rremove_round. destruct (index_of _ _) as [i|] eqn:Hi.
  - right. destruct (index_of_Some _ _ _ Hi) as (j & Hj & Ha & Hl). rewrite Hj. apply bool_decide_eq_true in Ha.
    exists j, (take i (retrievejobs p)), (drop (S i) (retrievejobs p)).
    pose proof (lookup_lt_Some _ _ _ Hj). rewrite RemoveLast_push_to_end, delete_take_drop by done. simpl.
    rewrite take_drop_middle by done. split_and!; [done..| |].
    + eapply Forall_impl; [exact Hl|]. intros x Hx. by apply bool_decide_eq_false in Hx.
    + unfold rsizes. simpl. rewrite Z.add_0_r. done.
  - left. split; [done|]. apply index_of_None in Hi. eapply Forall_impl; [exact Hi|]. intros x Hx. by apply bool_decide_eq_false in Hx.
Qed.

Lemma filter_none {A} (P : A → Prop) `{!∀ x, Decision (P x)} (l : list A) : Forall (λ x, ¬ P x) l → filter P l = [].
Proof. induction 1 as [|x l Hx _ IH]; [done|]. by rewrite filter_cons, decide_False. Qed.
Lemma same_none a l : Forall (λ j, rjp_address j ≠ a) l → same a l = [] ∧ other a l = l.
Proof.
  intros Hl. split; [|by apply list_filter_all]. by apply filter_none.
Qed.

Lemma rremove_rounds_spec n a st :
  (length (retrievejobs st.1.1) <= n)%nat → rremoval_range st →
  rremove_rounds n a st = take_out (same a (retrievejobs st.1.1)) (other a (retrievejobs st.1.1)) st.
Proof.
  revert st. induction n as [|n IH]; intros st Hn Hr; cbn [rremove_rounds].
  { destruct (retrievejobs st.1.1) eqn:E; [|simpl in Hn; lia]. rewrite <- (take_out_nil st) at 1 by done. by rewrite E. }
  destruct (rremove_round_cases a st) as [[-> Hl]|(j & l1 & l2 & El & Ha & Hl & ->)].
  - destruct (same_none _ _ Hl) as [-> ->]. by rewrite take_out_nil.
  - assert (retrievejobs (take_out [j] (l1 ++ l2) st).1.1 = l1 ++ l2) as Ej by by destruct st as [[? ?] ?].
    rewrite IH; [|rewrite Ej; rewrite El in Hn; rewrite length_app in *; simpl in Hn; lia|apply take_out_range].
    rewrite Ej, El, take_out_trans. destruct (same_none _ _ Hl) as [Hs Ho].
    rewrite !filter_app, !filter_cons, Hs, Ho. rewrite decide_True by done. rewrite decide_False by congruence. done.
Qed.

(** All rounds: the jobs come out address by address. *)
Fixpoint gone_all (L : list string) (jobs : list RetrieveJobPointer) : list RetrieveJobPointer :=
  match L with
  | [] => []
  | a :: L' => same a jobs ++ gone_all L' (other a jobs)
  end.
Definition rkept (L : list string) (jobs : list RetrieveJobPointer) := filter (λ j, rjp_address j ∉ L) jobs.

Lemma rkept_cons a L jobs : rkept L (other a jobs) = rkept (a :: L) jobs.
Proof.
  unfold rkept. rewrite list_filter_and. apply list_filter_ext. intros j _. rewrite not_elem_of_cons. tauto.
Qed.
Lemma gone_all_perm L jobs : gone_all L jobs ≡ₚ filter (λ j, rjp_address j ∈ L) jobs.
Proof.
  revert jobs. induction L as [|a L IH]; intros jobs; simpl.
  - symmetry. rewrite filter_none; [done|]. apply Forall_forall. intros j _. apply not_elem_of_nil.
  - rewrite IH. clear IH. induction jobs as [|j jobs IHj]; [done|]. rewrite !filter_cons.
    destruct (decide (rjp_address j = a)) as [->|Hne].
    + rewrite decide_False by tauto. rewrite decide_True by by left. simpl. by rewrite IHj.
    + rewrite (decide_True (P := rjp_address j ≠ a)) by done. rewrite filter_cons.
      destruct (decide (rjp_address j ∈ L)).
      * rewrite decide_True by by right. rewrite <- Permutation_middle. by rewrite IHj.
      * rewrite decide_False; [done|]. by intros [?|?]%elem_of_cons.
Qed.

Lemma rremove_all_spec L st :
  rremoval_range st →
  foldl (λ st rrt, rremove_rounds (length (retrievejobs st.1.1)) rrt st) st L =
    take_out (gone_all L (retrievejobs st.1.1)) (rkept L (retrievejobs st.1.1)) st.
Proof.
  revert st. induction L as [|a L IH]; intros st Hr; simpl.
  - unfold rkept. rewrite list_filter_all; [by rewrite take_out_nil|]. apply Forall_forall. intros j _. apply not_elem_of_nil.
  - rewrite rremove_rounds_spec by done. rewrite IH by apply take_out_range.
    assert (∀ g r, retrievejobs (take_out g r st).1.1 = r) as E by by destruct st as [[? ?] ?].
    by rewrite E, take_out_trans, rkept_cons.
Qed.

(** A shard whose total is the sum of its jobs. *)
Definition rshard_wf (p : RetrieveQueueShard) : Prop := rqs_retrievejobstotalsize p = u64 (rsizes (retrievejobs p)).

Section Removal.
Context {B : Type}.
Implicit Types (rqs : ObjectOps B RetrieveQueueShard).

Lemma rshard_removeJobs_ok L rqs :
  writable rqs → in_u64 (rqs_retrievejobstotalsize (m_payload rqs)) →
  let p := m_payload rqs in
  let gone := gone_all L (retrievejobs p) in
  let left := rkept L (retrievejobs p) in
  let bytes := u64 (rqs_retrievejobstotalsize p - rsizes gone) in
  rshard_removeJobs L rqs =
    Ok (mkRRemoval (u64 (Z.of_nat (length gone))) (Z.of_nat (length left)) (u64 (rsizes gone)) bytes (removed_info <$> gone),
        with_payload (mkRQS left bytes) rqs).
Proof.
  intros Hw Hr p gone left bytes. unfold rshard_removeJobs. rewrite (proj2 (checkPayloadWritable_ok rqs) Hw).
  unfold mbind, result_bind. rewrite rremove_all_spec; [done|]. repeat split; simpl; unfold in_u64 in *; lia.
Qed.
End Removal.
