(* ===== verification/RetrievePlan.v ===== *)
(** * Planning of additions to a retrieve queue

    Model of the first half of [RetrieveQueue::addJobsAndCommit]
    ([objectstore/RetrieveQueue.cpp]): the jobs to add are distributed over the
    shards of the queue before any shard is touched.  A full shard that receives a
    job is split in two around the middle of its range of positions.

    The plan is a [std::list] of nodes that point to one another, so a node has an
    identity here; [splitSource] and [splitDestination] are identities. *)
From S2P Require Import Prelude DataTypes Backend ObjectOps RetrieveActivity ProtoAlgorithms RetrieveQueueShard.

(** [serializers::RetrieveQueueShardPointer]. *)
Record RetrieveShardPointer := mkRSP {
  rsp_address : string;
  rsp_shardjobscount : Z;
  rsp_shardbytescount : Z;
  rsp_minfseq : Z;
  rsp_maxfseq : Z
}.

(** [RetrieveQueue::ShardForAddition]; [shardIndex] is unset before the numbering.
    The members [creationDone], [splitDone] and [comitted], written and never read,
    are left out. *)
Record ShardForAddition := mkSFA {
  sfa_id : nat;
  newShard : bool;
  toSplit : bool;
  splitDestination : option nat;
  fromSplit : bool;
  splitSource : option nat;
  sfa_address : string;
  sfa_minFseq : Z;
  sfa_maxFseq : Z;
  sfa_jobsCount : Z;
  sfa_jobsToAdd : list RetrieveJobToAdd;
  shardIndex : option nat
}.

(** Field updates. *)
Definition sfa_set_limits (lo hi : Z) (s : ShardForAddition) : ShardForAddition :=
  mkSFA (sfa_id s) (newShard s) (toSplit s) (splitDestination s)
    (fromSplit s) (splitSource s) (sfa_address s) lo hi (sfa_jobsCount s) (sfa_jobsToAdd s) (shardIndex s).
Definition sfa_set_jobs (count : Z) (jobs : list RetrieveJobToAdd) (s : ShardForAddition) : ShardForAddition :=
  mkSFA (sfa_id s) (newShard s) (toSplit s) (splitDestination s)
    (fromSplit s) (splitSource s) (sfa_address s) (sfa_minFseq s) (sfa_maxFseq s) count jobs (shardIndex s).
Definition sfa_set_split (destination : nat) (s : ShardForAddition) : ShardForAddition :=
  mkSFA (sfa_id s) (newShard s) true (Some destination)
    (fromSplit s) (splitSource s) (sfa_address s) (sfa_minFseq s) (sfa_maxFseq s) (sfa_jobsCount s)
    (sfa_jobsToAdd s) (shardIndex s).
Definition sfa_set_index (i : nat) (s : ShardForAddition) : ShardForAddition :=
  mkSFA (sfa_id s) (newShard s) (toSplit s) (splitDestination s)
    (fromSplit s) (splitSource s) (sfa_address s) (sfa_minFseq s) (sfa_maxFseq s) (sfa_jobsCount s)
    (sfa_jobsToAdd s) (Some i).

(** The plan: the list and the identity of the next node. *)
Record Plan := mkPlan { plan_nodes : list ShardForAddition; plan_next : nat }.

(** A node for an existing shard. *)
Definition sfa_of_pointer (id : nat) (p : RetrieveShardPointer) : ShardForAddition :=
  mkSFA id false false None false None (rsp_address p) (rsp_minfseq p) (rsp_maxfseq p)
    (rsp_shardjobscount p) [] None.

Definition updateShardLimits (fSeq : Z) (s : ShardForAddition) : ShardForAddition :=
  sfa_set_limits (if fSeq <? sfa_minFseq s then fSeq else sfa_minFseq s)
    (if sfa_maxFseq s <? fSeq then fSeq else sfa_maxFseq s) s.

(** A job joins a node. *)
Definition join (j : RetrieveJobToAdd) (s : ShardForAddition) : ShardForAddition :=
  updateShardLimits (rja_fSeq j) (sfa_set_jobs (sfa_jobsCount s +u64 1) (sfa_jobsToAdd s ++ [j]) s).

(** The two halves of a full shard: the new node takes the low positions. *)
Definition split_nodes (next : nat) (s : ShardForAddition) : ShardForAddition * ShardForAddition :=
  let shardRange := sfa_maxFseq s -u64 sfa_minFseq s in
  let newMax := sfa_minFseq s +u64 shardRange / 2 in
  let count := sfa_jobsCount s / 2 in
  (mkSFA next true false None true (Some (sfa_id s)) "" (sfa_minFseq s) newMax count
     (filter (λ j, rja_fSeq j <= newMax) (sfa_jobsToAdd s)) None,
   sfa_set_split next
     (sfa_set_jobs count (filter (λ j, ¬ rja_fSeq j <= newMax) (sfa_jobsToAdd s))
        (sfa_set_limits (u64 (sfa_minFseq s + shardRange / 2 + 1)) (sfa_maxFseq s) s))).

(** The nodes that replace the one the job lands on. *)
Definition add_to_node (m_maxShardSize : Z) (j : RetrieveJobToAdd) (next : nat) (s : ShardForAddition) :
    list ShardForAddition :=
  if (sfa_jobsCount s <? m_maxShardSize) || fromSplit s || newShard s then [join j s]
  else
    let '(newSfa, old) := split_nodes next s in
    if sfa_minFseq old <=? rja_fSeq j then [newSfa; join j old] else [join j newSfa; old].

Definition addJobToShardAndMaybeSplit (m_maxShardSize : Z) (j : RetrieveJobToAdd) (i : nat) (p : Plan) : Plan :=
  match plan_nodes p !! i with
  | None => p
  | Some s =>
      mkPlan (take i (plan_nodes p) ++ add_to_node m_maxShardSize j (plan_next p) s ++ drop (S i) (plan_nodes p))
        (S (plan_next p))
  end.

(** The limits are pushed forward to be in order. *)
Fixpoint order_limits (highestFseqSoFar : Z) (l : list ShardForAddition) : list ShardForAddition :=
  match l with
  | [] => []
  | s :: l' =>
      let lo := Z.max highestFseqSoFar (sfa_minFseq s) in
      let hi := Z.max lo (sfa_maxFseq s) in
      sfa_set_limits lo hi s :: order_limits (hi +u64 1) l'
  end.

Definition plan_of_pointers (l : list RetrieveShardPointer) : Plan :=
  mkPlan (order_limits 0 (imap sfa_of_pointer l)) (length l).

(** Where a job lands: the index of the node that receives it. *)
Fixpoint find_shard (fSeq : Z) (l : list ShardForAddition) : option nat :=
  match l with
  | [] => None
  | sfa :: l' =>
      if fSeq <? sfa_minFseq sfa then Some 0%nat
      else if (sfa_minFseq sfa <=? fSeq) && (fSeq <=? sfa_maxFseq sfa) then Some 0%nat
      else
        match l' with
        | nextSfa :: _ =>
            if (sfa_maxFseq sfa <? fSeq) && (fSeq <? sfa_minFseq nextSfa) then
              (if sfa_jobsCount sfa <? sfa_jobsCount nextSfa then Some 0%nat else Some 1%nat)
            else S <$> find_shard fSeq l'
        | [] => if sfa_maxFseq sfa <? fSeq then Some 0%nat else S <$> find_shard fSeq l'
        end
  end.

Definition plan_job (m_maxShardSize : Z) (j : RetrieveJobToAdd) (p : Plan) : result Plan :=
  match plan_nodes p with
  | [] =>
      Ok (mkPlan [mkSFA (plan_next p) true false None false None "" (rja_fSeq j) (rja_fSeq j) 1
                    [j] None] (S (plan_next p)))
  | l =>
      match find_shard (rja_fSeq j) l with
      | Some i => Ok (addJobToShardAndMaybeSplit m_maxShardSize j i p)
      | None => Throw (Exception "addJobsAndCommit: could not find an appropriate shard for job")
      end
  end.

Fixpoint plan_jobs (m_maxShardSize : Z) (jobs : list RetrieveJobToAdd) (p : Plan) : result Plan :=
  match jobs with
  | [] => Ok p
  | j :: jobs' => p' ← plan_job m_maxShardSize j p; plan_jobs m_maxShardSize jobs' p'
  end.

(** The final numbering of the nodes. *)
Definition number_shards (l : list ShardForAddition) : list ShardForAddition := imap sfa_set_index l.

(** The whole planning phase. *)
Definition plan_addition (m_maxShardSize : Z) (pointers : list RetrieveShardPointer) (jobs : list RetrieveJobToAdd) :
    result (list ShardForAddition) :=
  p ← plan_jobs m_maxShardSize jobs (plan_of_pointers pointers);
  Ok (number_shards (plan_nodes p)).
