(* ===== verification/RetrievePlanSpec.v ===== *)
(** * Correctness of the planning of additions

    No job is lost or planned twice, the existing shards keep their order, every
    split points to an existing shard further on, and the limits stay ordered. *)
From stdpp Require Import sorting.
From S2P Require Import Prelude DataTypes Backend ObjectOps RetrieveActivity ProtoAlgorithms RetrieveQueueShard RetrievePlan.

Implicit Types (s : ShardForAddition) (l : list ShardForAddition) (j : RetrieveJobToAdd) (p : Plan).

(** ** Searching *)
Lemma find_shard_total fSeq l : l ≠ [] → ∃ i s, find_shard fSeq l = Some i ∧ l !! i = Some s.
Proof.
  induction l as [|a l IH]; intros Hne; [done|]. simpl.
  destruct (Z.ltb_spec fSeq (sfa_minFseq a)); [by exists 0%nat; eauto|].
  destruct ((sfa_minFseq a <=? fSeq) && (fSeq <=? sfa_maxFseq a)) eqn:E; [by exists 0%nat; eauto|].
  destruct l as [|b l].
  - apply andb_false_iff in E as [E|E]; apply Z.leb_gt in E; [lia|].
    rewrite (proj2 (Z.ltb_lt _ _)) by lia. by exists 0%nat; eauto.
  - case_match; [case_match; [by exists 0%nat; eauto|by exists 1%nat; eauto]|].
    destruct IH as (i & s & E' & Hs); [done|]. rewrite E'. exists (S i), s. done.
Qed.

(** With ordered limits the chosen node is the only one the job can join. *)
Definition before s1 s2 : Prop := sfa_maxFseq s1 < sfa_minFseq s2.
Abbreviation ordered := (StronglySorted before).

Definition weak s : Prop := sfa_minFseq s <= sfa_maxFseq s + 1.

Lemma ordered_below fSeq s l : fSeq < sfa_minFseq s → weak s → ordered (s :: l) → Forall (λ b, fSeq < sfa_minFseq b) l.
Proof.
  intros Hlt Hw Ho. apply StronglySorted_inv in Ho as [_ Ho]. eapply Forall_impl; [exact Ho|].
  unfold before, weak in *. simpl. intros; lia.
Qed.

Lemma find_shard_fits fSeq l1 s l2 :
  ordered (l1 ++ s :: l2) → Forall weak (l1 ++ s :: l2) → find_shard fSeq (l1 ++ s :: l2) = Some (length l1) →
  Forall (λ a, sfa_maxFseq a < fSeq) l1 ∧ Forall (λ b, fSeq < sfa_minFseq b) l2.
Proof.
  induction l1 as [|a l1 IH]; intros Ho Hw Hf; cbn [app find_shard] in *.
  - split; [constructor|]. apply Forall_cons in Hw as [Hs Hw].
    destruct (Z.ltb_spec fSeq (sfa_minFseq s)) as [Hlt|Hge]; [by eapply ordered_below|].
    destruct ((sfa_minFseq s <=? fSeq) && (fSeq <=? sfa_maxFseq s)) eqn:E.
    { apply andb_true_iff in E as [_ E]. apply Z.leb_le in E. apply StronglySorted_inv in Ho as [_ Ho].
      eapply Forall_impl; [exact Ho|]. unfold before. simpl. intros; lia. }
    destruct l2 as [|b l2]; [constructor|]. case_match eqn:Hb; [|by destruct (find_shard fSeq (b :: l2))].
    apply andb_true_iff in Hb as [_ Hb]. apply Z.ltb_lt in Hb. apply Forall_cons in Hw as [Hwb _].
    constructor; [done|]. apply StronglySorted_inv in Ho as [Ho _]. by eapply ordered_below.
  - apply StronglySorted_inv in Ho as [Ho Ha]. apply Forall_cons in Hw as [Hwa Hw].
    destruct (Z.ltb_spec fSeq (sfa_minFseq a)) as [Hlt|Hge]; [done|].
    destruct ((sfa_minFseq a <=? fSeq) && (fSeq <=? sfa_maxFseq a)) eqn:E; [done|].
    assert (sfa_maxFseq a < fSeq) by (apply andb_false_iff in E as [E|E]; apply Z.leb_gt in E; lia).
    assert (Hrec : find_shard fSeq (l1 ++ s :: l2) = Some (length l1) →
      Forall (λ a, sfa_maxFseq a < fSeq) (a :: l1) ∧ Forall (λ b, fSeq < sfa_minFseq b) l2).
    { intros Hf'. destruct (IH Ho Hw Hf') as [H1 H2]. split; [by constructor|done]. }
    destruct (l1 ++ s :: l2) as [|b l'] eqn:El; [by destruct l1|]. case_match eqn:Hb.
    + case_match; [done|]. destruct l1 as [|b' l1]; [|done]. simplify_eq/=. apply andb_true_iff in Hb as [_ Hb].
      apply Z.ltb_lt in Hb. split; [by repeat constructor|]. apply Forall_cons in Hw as [Hwb _]. by eapply ordered_below.
    + apply Hrec. destruct (find_shard fSeq (b :: l')); [|done]. simpl in Hf. by simplify_eq.
Qed.

(** ** One node *)
Definition existing l : list string := sfa_address <$> filter (λ s, newShard s = false) l.
Definition planned l : list RetrieveJobToAdd := concat (sfa_jobsToAdd <$> l).

Lemma planned_app l1 l2 : planned (l1 ++ l2) = planned l1 ++ planned l2.
Proof. unfold planned. by rewrite fmap_app, concat_app. Qed.
Lemma existing_app l1 l2 : existing (l1 ++ l2) = existing l1 ++ existing l2.
Proof. unfold existing. by rewrite filter_app, fmap_app. Qed.
Lemma existing_cons s l : existing (s :: l) = (if newShard s then [] else [sfa_address s]) ++ existing l.
Proof. unfold existing. rewrite filter_cons. by destruct (newShard s). Qed.

Lemma filter_halves {A} (P : A → Prop) `{!∀ x, Decision (P x)} (k : list A) :
  filter P k ++ filter (λ x, ¬ P x) k ≡ₚ k.
Proof.
  induction k as [|x k IH]; [done|]. rewrite !filter_cons. destruct (decide (P x)) as [Hp|Hp].
  - rewrite (decide_False (P := ¬ P x)) by tauto. simpl. by rewrite IH.
  - rewrite (decide_True (P := ¬ P x)) by done. rewrite <- Permutation_middle. by rewrite IH.
Qed.

Lemma add_to_node_jobs M j n s : planned (add_to_node M j n s) ≡ₚ sfa_jobsToAdd s ++ [j].
Proof.
  unfold add_to_node, planned. case_match; [by simpl; rewrite app_nil_r|].
  set (newMax := sfa_minFseq s +u64 (sfa_maxFseq s -u64 sfa_minFseq s) / 2).
  pose proof (filter_halves (λ j, rja_fSeq j <= newMax) (sfa_jobsToAdd s)) as Hp.
  unfold split_nodes. fold newMax. case_match; simpl; rewrite app_nil_r.
  - by rewrite app_assoc, Hp.
  - rewrite <- app_assoc, (Permutation_app_comm [j]), app_assoc. by rewrite Hp.
Qed.

Lemma add_to_node_existing M j n s : existing (add_to_node M j n s) = existing [s].
Proof.
  unfold add_to_node. case_match; [by rewrite !existing_cons|]. unfold split_nodes. case_match; by rewrite !existing_cons.
Qed.

(** ** Sources of splits *)

(** A node made by a split is new, and its source is an existing shard of the list
    after it. *)
Definition source_in s l : Prop :=
  fromSplit s = true → newShard s = true ∧ ∃ s', s' ∈ l ∧ newShard s' = false ∧ splitSource s = Some (sfa_id s').
Fixpoint sources_ok l : Prop :=
  match l with [] => True | s :: l' => source_in s l' ∧ sources_ok l' end.

(** The identities and kinds of existing shards are what a source is looked up by. *)
Definition keeps l l' : Prop :=
  ∀ s, s ∈ l → newShard s = false → ∃ s', s' ∈ l' ∧ newShard s' = false ∧ sfa_id s' = sfa_id s.

Lemma source_in_keeps s l l' : keeps l l' → source_in s l → source_in s l'.
Proof.
  intros Hk Hs Hf. destruct (Hs Hf) as (Hn & s' & Hin & Hn' & Heq). split; [done|].
  destruct (Hk s' Hin Hn') as (s'' & ? & ? & Hid). exists s''. by rewrite Hid.
Qed.
Lemma sources_ok_app l1 l2 l2' : keeps l2 l2' → sources_ok l2' → sources_ok (l1 ++ l2) → sources_ok (l1 ++ l2').
Proof.
  intros Hk Hl. induction l1 as [|a l1 IH]; simpl; [done|]. intros [Ha Hs]. split; [|by apply IH].
  eapply source_in_keeps; [|exact Ha]. intros s Hin Hn. apply elem_of_app in Hin as [Hin|Hin].
  - exists s. split; [by apply elem_of_app; left|done].
  - destruct (Hk s Hin Hn) as (s' & ? & ?). exists s'. split; [by apply elem_of_app; right|done].
Qed.
Lemma sources_ok_suffix l1 l2 : sources_ok (l1 ++ l2) → sources_ok l2.
Proof. induction l1 as [|a l1 IH]; simpl; [done|]. intros [_ ?]. auto. Qed.

Lemma add_to_node_sources M j n s l : sources_ok (s :: l) → sources_ok (add_to_node M j n s ++ l).
Proof.
  intros [Hs Hl]. unfold add_to_node. case_match eqn:E; [done|].
  apply orb_false_iff in E as [E Hn]. apply orb_false_iff in E as [_ Hf].
  unfold split_nodes. case_match; simpl; (split; [|split; [|done]]).
  all: try (unfold source_in; simpl; congruence).
  all: intros _; split; [done|]; eexists; (split; [by left|]); done.
Qed.
Lemma add_to_node_keeps M j n s l : keeps (s :: l) (add_to_node M j n s ++ l).
Proof.
  intros a Ha Hn. apply elem_of_cons in Ha as [->|Ha]; last first.
  { exists a. split; [by apply elem_of_app; right|done]. }
  unfold add_to_node. case_match eqn:E.
  { eexists. split; [by left|done]. }
  unfold split_nodes. case_match; (eexists; split; [simpl; right; left|]); done.
Qed.

(** ** Limits *)
Definition sane_position (z : Z) : Prop := 0 <= z < 2 ^ 64 - 1.

(** The limits of a node: a range of positions that holds the jobs planned for it.
    The range is empty only for a shard just split in the middle of a single
    position, which is not full then. *)
Record node_ok (M : Z) s : Prop := {
  no_min : 0 <= sfa_minFseq s;
  no_max : sfa_maxFseq s < 2 ^ 64 - 1;
  no_weak : weak s;
  no_split : fromSplit s = true → newShard s = true;
  no_count : newShard s = false → 0 <= sfa_jobsCount s < 2 * M;
  no_empty : sfa_maxFseq s < sfa_minFseq s → newShard s = false ∧ sfa_jobsCount s < M;
  no_jobs : Forall (λ j, sfa_minFseq s <= rja_fSeq j <= sfa_maxFseq s) (sfa_jobsToAdd s)
}.
Definition plan_ranges (M : Z) l : Prop := ordered l ∧ Forall (node_ok M) l.

Lemma join_min j s : sfa_minFseq (join j s) = Z.min (rja_fSeq j) (sfa_minFseq s).
Proof. simpl. destruct (Z.ltb_spec (rja_fSeq j) (sfa_minFseq s)); lia. Qed.
Lemma join_max j s : sfa_maxFseq (join j s) = Z.max (rja_fSeq j) (sfa_maxFseq s).
Proof. simpl. destruct (Z.ltb_spec (sfa_maxFseq s) (rja_fSeq j)); lia. Qed.

Section Limits.
Context (M : Z) (HM : 0 < M < 2 ^ 63).

Lemma join_ok j s :
  node_ok M s → newShard s = true ∨ sfa_jobsCount s < M → sane_position (rja_fSeq j) → node_ok M (join j s).
Proof.
  intros [Hlo Hhi Hw Hsp Hc He Hj] Hroom [? ?]. unfold weak in *. split.
  - rewrite join_min. lia.
  - rewrite join_max. lia.
  - unfold weak. rewrite join_min, join_max. lia.
  - done.
  - intros Hn. simpl in *. destruct Hroom as [?|Hr]; [congruence|]. specialize (Hc Hn).
    rewrite u64_small; unfold in_u64; lia.
  - rewrite join_min, join_max. lia.
  - rewrite join_min, join_max. simpl. apply Forall_app. split; [|by repeat constructor; lia].
    eapply Forall_impl; [exact Hj|]. simpl. intros; lia.
Qed.

(** The middle of a range. *)
Lemma split_middle lo hi :
  0 <= lo <= hi → hi < 2 ^ 64 - 1 →
  let mid := lo +u64 (hi -u64 lo) / 2 in lo <= mid <= hi ∧ u64 (lo + (hi -u64 lo) / 2 + 1) = mid + 1.
Proof.
  intros [? ?] ?. rewrite (u64_small (hi - lo)) by (unfold in_u64; lia).
  assert (0 <= (hi - lo) / 2 <= hi - lo) by (split; [apply Z.div_pos; lia|apply Z.div_le_upper_bound; lia]).
  rewrite !u64_small by (unfold in_u64; lia). lia.
Qed.

Lemma split_nodes_ok n s :
  node_ok M s → newShard s = false → M <= sfa_jobsCount s →
  let '(a, b) := split_nodes n s in
  node_ok M a ∧ node_ok M b ∧ sfa_jobsCount b < M ∧ sfa_minFseq a = sfa_minFseq s ∧ sfa_maxFseq b = sfa_maxFseq s ∧
  sfa_minFseq b = sfa_maxFseq a + 1 ∧ newShard a = true ∧ newShard b = false ∧ sfa_minFseq a <= sfa_maxFseq a <= sfa_maxFseq b.
Proof.
  intros [Hlo Hhi Hw Hsp Hc He Hj] Hn Hfull. specialize (Hc Hn). unfold weak in Hw.
  assert (sfa_minFseq s <= sfa_maxFseq s) by (destruct (Z.lt_ge_cases (sfa_maxFseq s) (sfa_minFseq s)) as [H|H]; [destruct (He H)|]; lia).
  destruct (split_middle (sfa_minFseq s) (sfa_maxFseq s)) as [Hm Hm1]; [lia|lia|].
  unfold split_nodes. set (mid := sfa_minFseq s +u64 (sfa_maxFseq s -u64 sfa_minFseq s) / 2) in *.
  assert (0 <= sfa_jobsCount s / 2 < M) by (split; [apply Z.div_pos; lia|apply Z.div_lt_upper_bound; lia]).
  rewrite Hm1. split_and!; simpl; try done; try lia.
  all: split; simpl; try done; try (intros; lia); try (unfold weak; simpl; lia); try (intros; split; [done|lia]).
  all: apply Forall_forall; intros j [? Hin]%list_elem_of_filter.
  all: pose proof (proj1 (Forall_forall _ _) Hj j Hin); simpl in *; lia.
Qed.

(** A job that joins a node, or one half of it, stays within the node's limits
    extended to the job. *)
Lemma add_to_node_ok j n s :
  node_ok M s → sane_position (rja_fSeq j) →
  plan_ranges M (add_to_node M j n s) ∧
  Forall (λ a, Z.min (rja_fSeq j) (sfa_minFseq s) <= sfa_minFseq a ∧
               sfa_maxFseq a <= Z.max (rja_fSeq j) (sfa_maxFseq s)) (add_to_node M j n s).
Proof.
  intros Hs Hj. unfold add_to_node. case_match eqn:E.
  - assert (node_ok M (join j s)) as Hok.
    { apply join_ok; try done. apply orb_true_iff in E as [E|E]; [|by left].
      apply orb_true_iff in E as [E|E]; [right; by apply Z.ltb_lt|]. left. by apply (no_split M s). }
    split; [split; [repeat constructor|by apply Forall_singleton]|]. apply Forall_singleton. rewrite join_min, join_max. lia.
  - apply orb_false_iff in E as [E Hn]. apply orb_false_iff in E as [E _]. apply Z.ltb_ge in E.
    pose proof (split_nodes_ok n s Hs Hn E) as Hsplit. destruct (split_nodes n s) as [a b].
    destruct Hsplit as (Ha & Hb & Hcb & Ela & Ehb & Elb & Hna & Hnb & Hab). case_match eqn:Ej.
    + apply Z.leb_le in Ej. assert (node_ok M (join j b)) as Hok by (apply join_ok; try done; by right).
      split; [split; [|by rewrite !Forall_cons, Forall_nil]|].
      * repeat constructor. unfold before. rewrite join_min. lia.
      * repeat constructor; rewrite ?join_min, ?join_max; lia.
    + apply Z.leb_gt in Ej. assert (node_ok M (join j a)) as Hok by (apply join_ok; try done; by left).
      split; [split; [|by rewrite !Forall_cons, Forall_nil]|].
      * repeat constructor. unfold before. rewrite join_max. lia.
      * repeat constructor; rewrite ?join_min, ?join_max; lia.
Qed.

Lemma plan_ranges_replace j n l1 s l2 :
  plan_ranges M (l1 ++ s :: l2) → sane_position (rja_fSeq j) →
  find_shard (rja_fSeq j) (l1 ++ s :: l2) = Some (length l1) →
  plan_ranges M (l1 ++ add_to_node M j n s ++ l2).
Proof.
  intros [Ho Hn] Hj Hf. assert (Forall weak (l1 ++ s :: l2)) as Hw.
  { eapply Forall_impl; [exact Hn|]. intros ? []. done. }
  destruct (find_shard_fits _ _ _ _ Ho Hw Hf) as [H1 H2].
  apply Forall_app in Hn as [Hn1 Hn]. apply Forall_cons in Hn as [Hs Hn2].
  destruct (add_to_node_ok j n s Hs Hj) as [[Hon Hnn] Hlim].
  apply StronglySorted_app in Ho as (Hc & Ho1 & Ho2). apply StronglySorted_inv in Ho2 as [Ho2 Hs2].
  split; [|by rewrite !Forall_app]. rewrite Forall_forall in Hlim, H1, H2, Hs2. unfold before in *.
  apply StronglySorted_app_2; [|done|apply StronglySorted_app_2; [|done..]].
  - intros x y Hx Hy. apply elem_of_app in Hy as [Hy|Hy].
    + pose proof (Hlim y Hy). pose proof (H1 x Hx). pose proof (Hc x s Hx ltac:(by left)). simpl in *. lia.
    + apply Hc; [done|]. by right.
  - intros x y Hx Hy. pose proof (Hlim x Hx). pose proof (H2 y Hy). pose proof (Hs2 y Hy). simpl in *. lia.
Qed.
End Limits.

(** ** The whole plan *)
Definition first_node n j : ShardForAddition :=
  mkSFA n true false None false None "" (rja_fSeq j) (rja_fSeq j) 1 [j] None.

Lemma plan_job_cases M j p :
  (plan_nodes p = [] ∧ plan_job M j p = Ok (mkPlan [first_node (plan_next p) j] (S (plan_next p)))) ∨
  ∃ l1 s l2, plan_nodes p = l1 ++ s :: l2 ∧ find_shard (rja_fSeq j) (l1 ++ s :: l2) = Some (length l1) ∧
    plan_job M j p = Ok (mkPlan (l1 ++ add_to_node M j (plan_next p) s ++ l2) (S (plan_next p))).
Proof.
  unfold plan_job. destruct (plan_nodes p) as [|a l] eqn:El; [by left|right].
  destruct (find_shard_total (rja_fSeq j) (a :: l)) as (i & s & Hf & Hs); [done|].
  rewrite Hf. unfold addJobToShardAndMaybeSplit. rewrite El, Hs.
  exists (take i (a :: l)), s, (drop (S i) (a :: l)). rewrite take_drop_middle by done. split; [done|]. split; [|done].
  rewrite length_take_le; [done|]. apply lookup_lt_Some in Hs. lia.
Qed.

(** What every plan satisfies. *)
Definition plan_inv (addresses : list string) (jobs : list RetrieveJobToAdd) l : Prop :=
  planned l ≡ₚ jobs ∧ existing l = addresses ∧ sources_ok l.

Lemma plan_job_inv M addresses jobs j p :
  plan_inv addresses jobs (plan_nodes p) →
  ∃ p', plan_job M j p = Ok p' ∧ plan_inv addresses (jobs ++ [j]) (plan_nodes p').
Proof.
  intros (Hj & He & Hs).
  destruct (plan_job_cases M j p) as [[Hl ->]|(l1 & s & l2 & Hl & Hf & ->)]; eexists; (split; [done|]); rewrite Hl in *.
  - split_and!; [|done|]; [|by repeat split]. by rewrite <- Hj.
  - simpl. split_and!.
    + rewrite <- Hj, !planned_app, add_to_node_jobs.
      assert (planned (s :: l2) = sfa_jobsToAdd s ++ planned l2) as -> by done.
      rewrite <- !app_assoc. do 2 f_equiv. apply Permutation_app_comm.
    + rewrite !existing_app, add_to_node_existing, <- existing_app. rewrite existing_app in He. done.
    + eapply sources_ok_app; [apply add_to_node_keeps|apply add_to_node_sources|exact Hs].
      by eapply sources_ok_suffix.
Qed.

Lemma plan_jobs_inv M addresses jobs js p :
  plan_inv addresses jobs (plan_nodes p) →
  ∃ p', plan_jobs M js p = Ok p' ∧ plan_inv addresses (jobs ++ js) (plan_nodes p').
Proof.
  revert jobs p. induction js as [|j js IH]; intros jobs p Hp; simpl.
  { exists p. by rewrite app_nil_r. }
  destruct (plan_job_inv M _ _ j _ Hp) as (p1 & -> & Hp1). destruct (IH _ _ Hp1) as (p2 & E & Hp2).
  exists p2. split; [exact E|]. by rewrite <- app_assoc in Hp2.
Qed.

Lemma plan_jobs_ranges M js p p' :
  0 < M < 2 ^ 63 → Forall (λ j, sane_position (rja_fSeq j)) js →
  plan_ranges M (plan_nodes p) → plan_jobs M js p = Ok p' → plan_ranges M (plan_nodes p').
Proof.
  intros HM Hjs. revert p. induction Hjs as [|j js Hj _ IH]; intros p Hp E; simpl in E; [by simplify_eq|].
  destruct (plan_job_cases M j p) as [[Hl Ej]|(l1 & s & l2 & Hl & Hf & Ej)]; rewrite Ej in E; (eapply IH; [|exact E]); simpl.
  - split; [repeat constructor|]. apply Forall_singleton. destruct Hj as [? ?].
    split; simpl; try done; try lia; [unfold weak; simpl; lia|by apply Forall_singleton].
  - rewrite Hl in Hp. by apply plan_ranges_replace.
Qed.

(** ** The initial plan *)
Lemma order_limits_planned h l : planned (order_limits h l) = planned l ∧ existing (order_limits h l) = existing l.
Proof.
  revert h. induction l as [|s l IH]; intros h; [done|]. cbn [order_limits].
  set (hi := Z.max _ (sfa_maxFseq s)). destruct (IH (hi +u64 1)) as [H1 H2].
  rewrite !existing_cons, H2. split; [|done]. change (sfa_jobsToAdd s ++ planned (order_limits (hi +u64 1) l) = sfa_jobsToAdd s ++ planned l). by rewrite H1.
Qed.
Lemma order_limits_sources h l : Forall (λ s, fromSplit s = false) l → sources_ok (order_limits h l).
Proof.
  intros Hl. revert h. induction Hl as [|s l Hs _ IH]; intros h; [done|]. split; [|apply IH].
  unfold source_in. simpl. congruence.
Qed.

Section Pointers.
Implicit Types (ps : list RetrieveShardPointer).

Lemma imap_planned (f : nat → RetrieveShardPointer → ShardForAddition) ps :
  (∀ i x, sfa_jobsToAdd (f i x) = []) → planned (imap f ps) = [].
Proof.
  revert f. induction ps as [|x ps IH]; intros f Hf; [done|]. rewrite imap_cons. unfold planned in *. simpl.
  rewrite Hf. apply IH. intros. apply Hf.
Qed.
Lemma imap_existing (f : nat → RetrieveShardPointer → ShardForAddition) ps :
  (∀ i x, newShard (f i x) = false ∧ sfa_address (f i x) = rsp_address x) → existing (imap f ps) = rsp_address <$> ps.
Proof.
  revert f. induction ps as [|x ps IH]; intros f Hf; [done|]. rewrite imap_cons, existing_cons. destruct (Hf 0%nat x) as [-> ->].
  csimpl. rewrite IH; [done|]. intros. apply Hf.
Qed.
Lemma imap_all (Q : ShardForAddition → Prop) (f : nat → RetrieveShardPointer → ShardForAddition) ps :
  (∀ i x, x ∈ ps → Q (f i x)) → Forall Q (imap f ps).
Proof.
  intros Hf. apply Forall_lookup. intros i y Hy. rewrite list_lookup_imap in Hy.
  destruct (ps !! i) as [x|] eqn:E; [|done]. simpl in Hy. simplify_eq. apply Hf. by eapply list_elem_of_lookup_2.
Qed.

Lemma plan_of_pointers_inv ps : plan_inv (rsp_address <$> ps) [] (plan_nodes (plan_of_pointers ps)).
Proof.
  unfold plan_of_pointers. simpl. destruct (order_limits_planned 0 (imap sfa_of_pointer ps)) as [H1 H2]. split_and!.
  - by rewrite H1, imap_planned.
  - rewrite H2. by apply imap_existing.
  - by apply order_limits_sources, imap_all.
Qed.

Definition sane_pointer (M : Z) (x : RetrieveShardPointer) : Prop :=
  0 <= rsp_minfseq x < 2 ^ 63 ∧ 0 <= rsp_maxfseq x < 2 ^ 63 ∧ 0 <= rsp_shardjobscount x < 2 * M.

Lemma order_limits_ranges M h l :
  0 <= h → h + Z.of_nat (length l) <= 2 ^ 63 + 2 ^ 62 →
  Forall (λ s, newShard s = false ∧ fromSplit s = false ∧ sfa_jobsToAdd s = [] ∧ 0 <= sfa_minFseq s < 2 ^ 63 ∧
               sfa_maxFseq s < 2 ^ 63 ∧ 0 <= sfa_jobsCount s < 2 * M) l →
  Z.of_nat (length l) < 2 ^ 62 →
  plan_ranges M (order_limits h l) ∧ Forall (λ s, h <= sfa_minFseq s) (order_limits h l).
Proof.
  intros Hh Hb Hl. revert h Hh Hb.
  induction Hl as [|s l (Hn & Hf & Hj & Hlo & Hhi & Hc) _ IH]; intros h Hh Hb Hlen; simpl in *; [by repeat constructor|].
  set (lo := Z.max h (sfa_minFseq s)). set (hi := Z.max lo (sfa_maxFseq s)).
  assert (hi < 2 ^ 63 ∨ hi = h) by lia. rewrite u64_small by (unfold in_u64; lia).
  destruct (IH (hi + 1)) as [[Ho Hk] Hmin]; [lia|lia|lia|].
  split; [split|].
  - constructor; [done|]. eapply Forall_impl; [exact Hmin|]. unfold before. simpl. intros; lia.
  - constructor; [|done]. split; simpl; try lia; try done; [unfold weak; simpl; lia|congruence|by rewrite Hj].
  - constructor; [simpl; lia|]. eapply Forall_impl; [exact Hmin|]. simpl. intros; lia.
Qed.

Lemma plan_of_pointers_ranges M ps :
  Forall (sane_pointer M) ps → Z.of_nat (length ps) < 2 ^ 62 → plan_ranges M (plan_nodes (plan_of_pointers ps)).
Proof.
  intros Hps Hlen. eapply order_limits_ranges; rewrite ?length_imap; [lia|lia| |done].
  apply imap_all. intros i x Hx. destruct (proj1 (Forall_forall _ _) Hps x Hx) as (H1 & H2 & H3).
  simpl. split_and!; (done || lia).
Qed.
End Pointers.

(** ** Numbering *)
Section Numbering.
(** A change of the index only. *)
Definition renumbers (f : nat → ShardForAddition → ShardForAddition) : Prop := ∀ i s, ∃ k, f i s = sfa_set_index k s.

Lemma renumber_inv f addresses jobs l :
  renumbers f → planned l ≡ₚ jobs ∧ existing l = addresses → planned (imap f l) ≡ₚ jobs ∧ existing (imap f l) = addresses.
Proof.
  intros Hf. assert (planned (imap f l) = planned l ∧ existing (imap f l) = existing l) as [-> ->]; [|done].
  revert f Hf. induction l as [|s l IH]; intros f Hf; [done|]. rewrite imap_cons, !existing_cons.
  destruct (Hf 0%nat s) as [k ->]. destruct (IH (f ∘ S)) as [H1 H2]; [intros i; apply Hf|]. rewrite H2. split; [|done].
  change (sfa_jobsToAdd s ++ planned (imap (f ∘ S) l) = sfa_jobsToAdd s ++ planned l). by rewrite H1.
Qed.
Lemma renumber_keeps f l : renumbers f → keeps l (imap f l).
Proof.
  intros Hf s Hs Hn. apply list_elem_of_lookup in Hs as [i Hi]. destruct (Hf i s) as [k Hk]. exists (f i s). rewrite Hk. split; [|done].
  rewrite <- Hk. eapply list_elem_of_lookup_2 with i. by rewrite list_lookup_imap, Hi.
Qed.
Lemma renumber_sources f l : renumbers f → sources_ok l → sources_ok (imap f l).
Proof.
  revert f. induction l as [|s l IH]; intros f Hf; [done|]. rewrite imap_cons. intros [Hs Hl].
  assert (renumbers (f ∘ S)) by (intros i; apply Hf). split; [|by apply IH].
  assert (source_in s (imap (f ∘ S) l)) as H' by (by eapply source_in_keeps; [apply renumber_keeps|]).
  destruct (Hf 0%nat s) as [k ->]. exact H'.
Qed.
Lemma renumber_forall f (Q : ShardForAddition → Prop) l :
  renumbers f → (∀ k s, Q s → Q (sfa_set_index k s)) → Forall Q l → Forall Q (imap f l).
Proof.
  intros Hf HQ Hl. revert f Hf. induction Hl as [|s l Hs _ IH]; intros f Hf; [constructor|].
  rewrite imap_cons. destruct (Hf 0%nat s) as [k ->]. constructor; [by apply HQ|]. apply IH. intros i. apply Hf.
Qed.
Lemma renumber_ranges f M l : renumbers f → plan_ranges M l → plan_ranges M (imap f l).
Proof.
  intros Hf [Ho Hn]. split; [|eapply renumber_forall; [done| |done]; by intros k s []; split].
  clear Hn. revert f Hf. induction Ho as [|s l _ IH Hs]; intros f Hf; [constructor|]. rewrite imap_cons.
  destruct (Hf 0%nat s) as [k ->]. assert (renumbers (f ∘ S)) by (intros i; apply Hf).
  constructor; [by apply IH|]. by apply renumber_forall.
Qed.
End Numbering.

(** C31: The planning of an addition to a retrieve queue never fails.  Every job to
    add is planned for exactly one shard; the shards that exist keep their order
    and lose nothing; a shard made by a split is new and its source is an existing
    shard further on; the numbering gives each node its place.  When the summaries
    are sane (positions below 2^63, no shard twice as large as the cap), the
    limits of the planned shards are moreover ordered and disjoint, and each job is
    planned within the limits of its shard. *)
Theorem planning_complete M pointers jobs :
  ∃ nodes, plan_addition M pointers jobs = Ok nodes ∧
    planned nodes ≡ₚ jobs ∧ existing nodes = rsp_address <$> pointers ∧ sources_ok nodes ∧
    (∀ i s, nodes !! i = Some s → shardIndex s = Some i) ∧
    (0 < M < 2 ^ 63 → Forall (sane_pointer M) pointers → Z.of_nat (length pointers) < 2 ^ 62 →
     Forall (λ j, sane_position (rja_fSeq j)) jobs → plan_ranges M nodes).
Proof.
  destruct (plan_jobs_inv M _ [] jobs _ (plan_of_pointers_inv pointers)) as (p & E & Hj & He & Hs).
  assert (renumbers sfa_set_index) as Hr by (intros i s; by exists i).
  unfold plan_addition. rewrite E. eexists. split; [done|]. unfold number_shards.
  destruct (renumber_inv _ _ _ _ Hr (conj Hj He)) as [H1 H2]. split_and!; [done..| | |].
  - by apply renumber_sources.
  - intros i s. rewrite list_lookup_imap. destruct (plan_nodes p !! i) as [x|]; [|done]. simpl. by intros [= <-].
  - intros HM Hps Hlen Hjs. apply renumber_ranges; [done|]. eapply plan_jobs_ranges; try done.
    by apply plan_of_pointers_ranges.
Qed.

(** ** A plan *)
Definition ex_pointers : list RetrieveShardPointer := [mkRSP "s1" 2 20 10 20; mkRSP "s2" 1 10 30 30].
Definition ex_plan_job (fSeq : Z) (address : string) : RetrieveJobToAdd :=
  mkRJobToAdd 1 fSeq address 7
    (mkMountPolicy "mp" 1 0 2 0 (mkEntryLog "u" "h" 0) (mkEntryLog "u" "h" 0) "") 5 None None.

(** The first shard is full (the cap is 2): it is split at position 15; the jobs
    after it go to the smaller neighbour. *)
Example ex_plan :
  (λ l, (λ s, (sfa_address s, sfa_minFseq s, sfa_maxFseq s, retrieveRequestAddress <$> sfa_jobsToAdd s)) <$> l) <$>
    plan_addition 2 ex_pointers [ex_plan_job 12 "a"; ex_plan_job 25 "b"; ex_plan_job 18 "c"] =
  Ok [("", 10, 15, ["a"]); ("s1", 16, 20, ["c"]); ("s2", 25, 30, ["b"])].
Proof. vm_compute. reflexivity. Qed.

Lemma planning_complete_witness :
  match plan_addition 2 ex_pointers [ex_plan_job 12 "a"; ex_plan_job 25 "b"; ex_plan_job 18 "c"] with
  | Ok nodes => plan_ranges 2 nodes
  | Throw _ => False
  end.
Proof.
  destruct (planning_complete 2 ex_pointers [ex_plan_job 12 "a"; ex_plan_job 25 "b"; ex_plan_job 18 "c"])
    as (nodes & -> & _ & _ & _ & _ & H).
  apply H; [lia| |simpl; lia|]; repeat constructor; simpl; lia.
Defined.
