(* ===== verification/RetrieveQueue.v ===== *)
(** * Retrieve queues

    Model of [objectstore/RetrieveQueue.cpp]: the queue of the retrieve jobs of a
    tape, with summaries and pointers to the shards, which are ordered by position
    on the tape.  The planning of additions is in [RetrievePlan.v].

    An access to a repeated field past its end is undefined in C++; here it throws
    [index_out_of_range]. *)
From S2P Require Import Prelude DataTypes ValueCountMap Backend ObjectOps RetrieveActivity ProtoAlgorithms RetrieveQueueShard RetrievePlan.

(** [serializers::RetrieveQueue]. *)
Record RetrieveQueue := mkRetrieveQueue {
  vid : string;
  retrievequeueshards : list RetrieveShardPointer;
  rq_prioritymap : list (VCPair Z);
  minretrieverequestagemap : list (VCPair Z);
  rq_mountpolicynamemap : list (VCPair string);
  activity_map : list RetrieveActivityCountPair;
  retrievejobstotalsize : Z;
  retrievejobscount : Z;
  rq_oldestjobcreationtime : Z;
  rq_mapsrebuildcount : Z;
  maxshardsize : Z;
  sleep_for_free_space_since : option Z;
  disk_system_slept_for : option string;
  sleep_time : option Z
}.

#[export] Instance RetrieveQueue_message : Message RetrieveQueue := {|
  payloadTypeId := RetrieveQueue_t;
  default_message := mkRetrieveQueue "" [] [] [] [] [] 0 0 0 0 0 None None None |}.

(** [RetrieveQueue::JobsSummary] with [ActivityCount] and [SleepInfo]. *)
Record ActivityCount := mkActivityCount { ac_diskInstanceName : string; ac_activity : string; ac_weight : Z; ac_count : Z }.
Record SleepInfo := mkSleepInfo { sleepStartTime : Z; diskSystemSleptFor : string; sleepTime : Z }.
Record RetrieveJobsSummary := mkRJobsSummary {
  rjs_jobs : Z;
  rjs_bytes : Z;
  rjs_oldestJobStartTime : Z;
  rjs_priority : Z;
  rjs_minRetrieveRequestAge : Z;
  rjs_mountPolicyCountMap : gmap string Z;
  activityCounts : list ActivityCount;
  sleepInfo : option SleepInfo
}.

(** [RetrieveQueue::AdditionSummary]. *)
Record RetrieveAddition := mkRAddition { ra_files : Z; ra_bytes : Z }.

Definition c_defaultMaxShardSize : Z := 25000.

(** Field updates of the payload. *)
Definition rq_set_shards (x : list RetrieveShardPointer) (q : RetrieveQueue) : RetrieveQueue :=
  mkRetrieveQueue (vid q) x (rq_prioritymap q) (minretrieverequestagemap q) (rq_mountpolicynamemap q) (activity_map q)
    (retrievejobstotalsize q) (retrievejobscount q) (rq_oldestjobcreationtime q) (rq_mapsrebuildcount q) (maxshardsize q)
    (sleep_for_free_space_since q) (disk_system_slept_for q) (sleep_time q).
Definition rq_set_maps (p a : list (VCPair Z)) (n : list (VCPair string)) (act : list RetrieveActivityCountPair)
    (q : RetrieveQueue) : RetrieveQueue :=
  mkRetrieveQueue (vid q) (retrievequeueshards q) p a n act
    (retrievejobstotalsize q) (retrievejobscount q) (rq_oldestjobcreationtime q) (rq_mapsrebuildcount q) (maxshardsize q)
    (sleep_for_free_space_since q) (disk_system_slept_for q) (sleep_time q).
Definition rq_set_totals (bytes jobs oldest : Z) (q : RetrieveQueue) : RetrieveQueue :=
  mkRetrieveQueue (vid q) (retrievequeueshards q) (rq_prioritymap q) (minretrieverequestagemap q) (rq_mountpolicynamemap q)
    (activity_map q) bytes jobs oldest (rq_mapsrebuildcount q) (maxshardsize q)
    (sleep_for_free_space_since q) (disk_system_slept_for q) (sleep_time q).
Definition rq_set_rebuilds (n : Z) (q : RetrieveQueue) : RetrieveQueue :=
  mkRetrieveQueue (vid q) (retrievequeueshards q) (rq_prioritymap q) (minretrieverequestagemap q) (rq_mountpolicynamemap q)
    (activity_map q) (retrievejobstotalsize q) (retrievejobscount q) (rq_oldestjobcreationtime q) n (maxshardsize q)
    (sleep_for_free_space_since q) (disk_system_slept_for q) (sleep_time q).
Definition rq_set_identity (v : string) (size : Z) (q : RetrieveQueue) : RetrieveQueue :=
  mkRetrieveQueue v (retrievequeueshards q) (rq_prioritymap q) (minretrieverequestagemap q) (rq_mountpolicynamemap q)
    (activity_map q) (retrievejobstotalsize q) (retrievejobscount q) (rq_oldestjobcreationtime q) (rq_mapsrebuildcount q) size
    (sleep_for_free_space_since q) (disk_system_slept_for q) (sleep_time q).
Definition rq_set_sleep (since : option Z) (system : option string) (time : option Z) (q : RetrieveQueue) : RetrieveQueue :=
  mkRetrieveQueue (vid q) (retrievequeueshards q) (rq_prioritymap q) (minretrieverequestagemap q) (rq_mountpolicynamemap q)
    (activity_map q) (retrievejobstotalsize q) (retrievejobscount q) (rq_oldestjobcreationtime q) (rq_mapsrebuildcount q)
    (maxshardsize q) since system time.

(** The state of an operation: the queue handle with its member [m_maxShardSize],
    the exclusive lock on it, the backend and the agent that names new objects. *)
Record RQState (B St : Type) := mkRQState {
  rq : ObjectOps B RetrieveQueue;
  m_maxShardSize : Z;
  rq_lock : ScopedLock;
  rq_be : St;
  rq_agent : AgentReference
}.
Arguments mkRQState {B St} _ _ _ _ _.
Arguments rq {B St} _.
Arguments m_maxShardSize {B St} _.
Arguments rq_lock {B St} _.
Arguments rq_be {B St} _.
Arguments rq_agent {B St} _.

Section RetrieveQueue.
Context {B St : Type} `{!Serializable B RetrieveQueue, !Serializable B RetrieveQueueShard}.
Context `{!Serializable B (ObjectHeader B), !Backend B St}.
(** The header bytes of a handle before anything is read; never looked at. *)
Context (dummy : B).
(** What a fresh [JobToAdd] and a fresh activity description hold in the fields
    that [dumpJobsToAdd] does not set. *)
Context (fresh : RetrieveJobToAdd) (freshActivity : RetrieveActivityDescription).

Abbreviation RQ := (M (RQState B St)).

Definition rq_this : RQ (ObjectOps B RetrieveQueue) := gets rq.
Definition rq_payload : RQ RetrieveQueue := gets (λ s, m_payload (rq s)).
Definition rq_set_payload (f : RetrieveQueue → RetrieveQueue) : RQ unit :=
  modify (λ s, mkRQState (with_payload (f (m_payload (rq s))) (rq s)) (m_maxShardSize s) (rq_lock s) (rq_be s) (rq_agent s)).

(** Run an operation of another handle on the same backend. *)
Definition rq_with_obj {P A} (o : ObjectOps B P) (m : M (HState B P St) A) : RQ (A * ObjectOps B P) := λ s,
  let '(r, (o', be')) := m (o, rq_be s) in
  (match r with Ok a => Ok (a, o') | Throw e => Throw e end,
   mkRQState (rq s) (m_maxShardSize s) (rq_lock s) be' (rq_agent s)).

(** Run an operation of [ObjectOps] on the queue itself. *)
Definition rq_with_self (m : M (HState B RetrieveQueue St) unit) : RQ unit := λ s,
  let '(r, (o', be')) := m (rq s, rq_be s) in
  (r, mkRQState o' (m_maxShardSize s) (rq_lock s) be' (rq_agent s)).

(** [fetch]: [getPayloadFromHeader] also reads the shard size. *)
Definition rq_fetch : RQ unit :=
  _ ← rq_with_self fetch;
  modify (λ s, mkRQState (rq s) (maxshardsize (m_payload (rq s))) (rq_lock s) (rq_be s) (rq_agent s)).

Definition rq_check_writable : RQ unit := o ← rq_this; lift (checkPayloadWritable o).
Definition rq_check_readable : RQ unit := o ← rq_this; lift (checkPayloadReadable o).

Definition rshard_at (address : string) : result (ObjectOps B RetrieveQueueShard) :=
  setAddress address (new_object dummy).

(** The lock-free fetch of a shard, [None] when it disappeared. *)
Definition lockfree_rshard (address : string) : RQ (option (ObjectOps B RetrieveQueueShard)) :=
  rqs ← lift (rshard_at address);
  catch (x ← rq_with_obj rqs lockfreeFetch; mret (Some (snd x)))
    (λ e, match e with NoSuchObject => Some (mret None) | _ => None end).

(** [rqs.setAddress(address); m_exclusiveLock->includeSubObject(rqs); rqs.fetch();] *)
Definition locked_rshard (address : string) : RQ (ObjectOps B RetrieveQueueShard) :=
  rqs0 ← lift (rshard_at address);
  l ← gets rq_lock;
  rqs1 ← lift (includeSubObject l rqs0);
  x ← rq_with_obj rqs1 fetch;
  mret (snd x).

Definition rqueue_initialize (v : string) (size : Z) (o : ObjectOps B RetrieveQueue) : result (ObjectOps B RetrieveQueue) :=
  o1 ← initialize o;
  let f := m_flags o1 in
  Ok (with_flags (with_interpreted (m_headerInterpreted f) true f)
        (with_payload (rq_set_rebuilds 0 (rq_set_totals 0 0 0 (rq_set_identity v size (m_payload o1)))) o1)).

Definition rq_checkMapsAndShardsCoherency : RQ bool :=
  _ ← rq_check_readable;
  q ← rq_payload;
  let bytesFromShardPointers := foldl (λ t sp, t +u64 rsp_shardbytescount sp) 0 (retrievequeueshards q) in
  let jobsExpectedFromShardsPointers := foldl (λ t sp, t +u64 rsp_shardjobscount sp) 0 (retrievequeueshards q) in
  if decide (retrievejobstotalsize q ≠ bytesFromShardPointers ∨ retrievejobscount q ≠ jobsExpectedFromShardsPointers)
  then mret false
  else
    t1 ← lift (total (rq_prioritymap q));
    if decide (t1 ≠ retrievejobscount q) then mret false
    else
      t2 ← lift (total (minretrieverequestagemap q));
      if decide (t2 ≠ retrievejobscount q) then mret false
      else
        t3 ← lift (total (rq_mountpolicynamemap q));
        if decide (t3 ≠ retrievejobscount q) then mret false else mret true.

(** ** Rebuild *)

(** The three counters that follow a job. *)
Definition count_job (count : ∀ A, EqDecision A → A → list (VCPair A) → result (list (VCPair A)))
    (priority age : Z) (policy : string) : RQ unit :=
  q ← rq_payload;
  pm ← lift (count Z _ priority (rq_prioritymap q));
  _ ← rq_set_payload (λ q, rq_set_maps pm (minretrieverequestagemap q) (rq_mountpolicynamemap q) (activity_map q) q);
  am ← lift (count Z _ age (minretrieverequestagemap q));
  _ ← rq_set_payload (λ q, rq_set_maps (rq_prioritymap q) am (rq_mountpolicynamemap q) (activity_map q) q);
  nm ← lift (count string _ policy (rq_mountpolicynamemap q));
  rq_set_payload (λ q, rq_set_maps (rq_prioritymap q) (minretrieverequestagemap q) nm (activity_map q) q).

(** Locals of the loop over the jobs of a shard: jobs, size, limits, and the
    oldest start time so far. *)
Record rshard_locals := mkRLocals { rl_jobs : Z; rl_size : Z; rl_minFseq : Z; rl_maxFseq : Z; rl_oldest : Z }.

Definition rq_rebuild_job (acc : rshard_locals) (j : RetrieveJobInfo) : RQ rshard_locals :=
  _ ← count_job (@incCount) (rji_priority j) (rji_minRetrieveRequestAge j) (rji_mountPolicyName j);
  mret (mkRLocals (rl_jobs acc +u64 1) (rl_size acc +u64 rji_size j)
          (if rji_fSeq j <? rl_minFseq acc then rji_fSeq j else rl_minFseq acc)
          (if rl_maxFseq acc <? rji_fSeq j then rji_fSeq j else rl_maxFseq acc)
          (if rji_startTime j <? rl_oldest acc then rji_startTime j else rl_oldest acc)).

Definition rq_record_summary (address : string) (acc : rshard_locals) : RQ unit :=
  q ← rq_payload;
  match index_of (λ sp, bool_decide (rsp_address sp = address)) (retrievequeueshards q) with
  | Some i =>
      rq_set_payload (λ q, rq_set_shards (<[i := mkRSP address (rl_jobs acc) (rl_size acc) (rl_minFseq acc) (rl_maxFseq acc)]>
                                            (retrievequeueshards q)) q)
  | None => throw (Exception "rebuild: failed to record summary for shard")
  end.

(** A shard with a wrong byte total is rewritten under the lock of the queue. *)
Definition rq_repair_shard (address : string) (size total : Z) : RQ unit :=
  if decide (size ≠ total) then
    r1 ← locked_rshard address;
    r2 ← lift (rshard_rebuild r1);
    _ ← rq_with_obj r2 commit; mret tt
  else mret tt.

Record rq_rebuild_locals := mkRRebuild { rrb_totalJobs : Z; rrb_totalBytes : Z; rrb_oldest : Z }.

Definition rq_rebuild_shard (loc : rq_rebuild_locals) (address : string) : RQ rq_rebuild_locals :=
  fetched ← lockfree_rshard address;
  match fetched with
  | None =>
      _ ← rq_set_payload (λ q, rq_set_shards (filter (λ sp, rsp_address sp ≠ address) (retrievequeueshards q)) q);
      mret loc
  | Some s1 =>
      dump ← lift (rshard_dumpJobs s1);
      acc ← mfold rq_rebuild_job (mkRLocals 0 0 max_uint64 0 (rrb_oldest loc)) dump;
      _ ← rq_record_summary address acc;
      summary ← lift (rshard_getJobsSummary s1);
      _ ← rq_repair_shard address (rl_size acc) (rs_bytes summary);
      mret (mkRRebuild (rrb_totalJobs loc +u64 rl_jobs acc) (rrb_totalBytes loc +u64 rl_size acc) (rl_oldest acc))
  end.

Definition rq_rebuild : RQ unit :=
  _ ← rq_check_writable;
  _ ← rq_set_payload (λ q, rq_set_maps (clear (rq_prioritymap q)) (clear (minretrieverequestagemap q))
                             (clear (rq_mountpolicynamemap q)) (activity_map q) q);
  q ← rq_payload;
  loc ← mfold rq_rebuild_shard (mkRRebuild 0 0 max_time_t) (rsp_address <$> retrievequeueshards q);
  rq_set_payload (rq_set_totals (rrb_totalBytes loc) (rrb_totalJobs loc) (u64 (rrb_oldest loc))).

(** [RetrieveQueue::commit]: the override that checks the summaries first. *)
Definition rqueue_commit : RQ unit :=
  b ← rq_checkMapsAndShardsCoherency;
  _ ← (if (b : bool) then mret tt
       else _ ← rq_rebuild; rq_set_payload (λ q, rq_set_rebuilds (rq_mapsrebuildcount q +u64 1) q));
  rq_with_self commit.

(** ** Accessors *)
Definition rqueue_isEmpty : RQ bool :=
  _ ← rq_check_readable; q ← rq_payload;
  mret (bool_decide (retrievejobstotalsize q = 0) && bool_decide (retrievequeueshards q = [])).

Definition rq_removeIfEmpty : RQ unit :=
  _ ← rq_check_writable;
  b ← rqueue_isEmpty;
  if negb b then throw NotEmpty else rq_with_self remove.

Definition getVid : RQ string := _ ← rq_check_readable; q ← rq_payload; mret (vid q).

Definition resetSleepForFreeSpaceStartTime : RQ unit :=
  _ ← rq_check_writable; rq_set_payload (λ q, rq_set_sleep None None (sleep_time q) q).
Definition setSleepForFreeSpaceStartTimeAndName (time : Z) (diskSystemName : string) (sleepTime : Z) : RQ unit :=
  _ ← rq_check_writable; rq_set_payload (rq_set_sleep (Some (u64 time)) (Some diskSystemName) (Some sleepTime)).

Definition rqueue_garbageCollect : RQ unit := throw (Exception "garbageCollect(): not implemented").
Definition setShardSize (shardSize : Z) : RQ unit :=
  _ ← rq_check_writable; rq_set_payload (λ q, rq_set_identity (vid q) shardSize q).
Definition getShardCount : RQ Z :=
  _ ← rq_check_readable; q ← rq_payload; mret (Z.of_nat (length (retrievequeueshards q))).
(** ** Addition of jobs *)

(** [m_payload.mutable_retrievequeueshards(i)]. *)
Definition pointer_at (i : nat) : RQ RetrieveShardPointer :=
  q ← rq_payload;
  match retrievequeueshards q !! i with Some sp => mret sp | None => throw index_out_of_range end.
Definition set_pointer (i : nat) (f : RetrieveShardPointer → RetrieveShardPointer) : RQ unit :=
  rq_set_payload (λ q, rq_set_shards (alter f i (retrievequeueshards q)) q).

(** The pointer of a new shard, appended and moved down to its place by swaps. *)
Fixpoint move_pointer (fuel from to : nat) (l : list RetrieveShardPointer) : list RetrieveShardPointer :=
  match fuel with
  | O => l
  | S fuel' => if decide (from = to) then l else move_pointer fuel' (from - 1) to (SwapElements (from - 1) from l)
  end.

Definition new_rshard (index : nat) : RQ (ObjectOps B RetrieveQueueShard) :=
  q ← rq_payload;
  a ← gets rq_agent;
  let '(name, a') := nextId ("RetrieveQueueShard-" +:+ vid q) a in
  _ ← modify (λ s, mkRQState (rq s) (m_maxShardSize s) (rq_lock s) (rq_be s) a');
  rqs0 ← lift (setAddress name (new_object dummy));
  o ← rq_this;
  owner ← lift (getAddressIfSet o);
  rqs1 ← lift (rshard_initialize owner rqs0);
  _ ← rq_set_payload (λ q,
        let l := retrievequeueshards q ++ [mkRSP name 0 0 0 0] in
        rq_set_shards (move_pointer (length l) (length l - 1) index l) q);
  _ ← pointer_at index;
  mret rqs1.

(** What a shard receives: jobs, bytes. *)
Record added := mkAdded { addedJobs : Z; addedBytes : Z; transferedInSplitJobs : Z; transferedInSplitBytes : Z }.

(** The jobs of the split shard that belong to the new one are copied there. *)
Fixpoint transfer_jobs (lo hi : Z) (jobsFromSource : list RetrieveJobToAdd) (rqs : ObjectOps B RetrieveQueueShard)
    (acc : Z * Z * list string) : result (ObjectOps B RetrieveQueueShard * (Z * Z * list string)) :=
  match jobsFromSource with
  | [] => Ok (rqs, acc)
  | j :: l =>
      let '(jobs, bytes, addresses) := acc in
      if (lo <=? rja_fSeq j) && (rja_fSeq j <=? hi) then
        rqs' ← addJobsBatch [j] rqs;
        transfer_jobs lo hi l rqs' (jobs +u64 1, bytes +u64 rja_fileSize j, addresses ++ [retrieveRequestAddress j])
      else
        rqs' ← addJobsBatch [] rqs;
        transfer_jobs lo hi l rqs' acc
  end.

(** The redistribution of the jobs: the new shard, the source without the jobs that
    moved, and the counts. *)
Definition split_jobs (lo hi : Z) (rqsSplitFrom rqs : ObjectOps B RetrieveQueueShard) :
    result (ObjectOps B RetrieveQueueShard * ObjectOps B RetrieveQueueShard * added) :=
  jobsFromSource ← rshard_dumpJobsToAdd fresh freshActivity rqsSplitFrom;
  t ← transfer_jobs lo hi jobsFromSource rqs (0, 0, []);
  let '(rqs', (jobs, bytes, addresses)) := t in
  r ← rshard_removeJobs addresses rqsSplitFrom;
  let '(res, rqsSplitFrom') := r in
  Ok (rqs', rqsSplitFrom', mkAdded jobs bytes (rr_jobsRemoved res) (rr_bytesRemoved res)).

Definition find_node (id : nat) (nodes : list ShardForAddition) : option ShardForAddition :=
  find_if (λ s, bool_decide (sfa_id s = id)) nodes.

(** The fill-up of a new shard from the one it splits; [i] and [k] are the indices
    of the pointers.  Returns the new shard and the source, changed in memory. *)
Definition split_from (shard source : ShardForAddition) (i : nat) (rqs : ObjectOps B RetrieveQueueShard) :
    RQ (ObjectOps B RetrieveQueueShard * ObjectOps B RetrieveQueueShard * added) :=
  _ ← lift (rshard_at (sfa_address source));
  k ← match shardIndex source with Some k => mret k | None => throw index_out_of_range end;
  _ ← pointer_at k;
  rqsSplitFrom ← locked_rshard (sfa_address source);
  x ← lift (split_jobs (sfa_minFseq shard) (sfa_maxFseq shard) rqsSplitFrom rqs);
  _ ← set_pointer i (λ sp, mkRSP (rsp_address sp) (sfa_jobsCount shard) 1 (sfa_minFseq shard) (sfa_maxFseq shard));
  _ ← set_pointer k (λ sp, mkRSP (rsp_address sp) (sfa_jobsCount source) (rsp_shardbytescount sp)
                             (sfa_minFseq source) (sfa_maxFseq source));
  _ ← set_pointer i (λ sp, mkRSP (rsp_address sp) (rsp_shardjobscount sp) 1 (rsp_minfseq sp) (rsp_maxfseq sp));
  mret x.

(** The counters and the oldest job of the queue, for one job. *)
Definition account_job (j : RetrieveJobToAdd) : RQ unit :=
  _ ← count_job (@incCount) (retrievePriority (rja_policy j)) (retrieveMinRequestAge (rja_policy j)) (mp_name (rja_policy j));
  _ ← match rja_activityDescription j with
      | None => mret tt
      | Some d =>
          q ← rq_payload;
          am ← lift (ra_incCount d (activity_map q));
          rq_set_payload (λ q, rq_set_maps (rq_prioritymap q) (minretrieverequestagemap q) (rq_mountpolicynamemap q) am q)
      end;
  rq_set_payload (λ q,
    rq_set_totals (retrievejobstotalsize q) (retrievejobscount q)
      (if decide (rq_oldestjobcreationtime q ≠ 0) then
         (if u64 (rja_startTime j) <? rq_oldestjobcreationtime q then u64 (rja_startTime j)
          else rq_oldestjobcreationtime q)
       else u64 (rja_startTime j)) q).

(** The shard of a node, with what it received so far and the shard it splits. *)
Definition prepare_shard (nodes : list ShardForAddition) (shard : ShardForAddition) (i : nat) :
    RQ (ObjectOps B RetrieveQueueShard * option (ObjectOps B RetrieveQueueShard) * added) :=
  if newShard shard then
    rqs ← new_rshard i;
    if fromSplit shard then
      match splitSource shard ≫= λ id, find_node id nodes with
      | None => throw (Exception "null pointer: splitSource")
      | Some source =>
          x ← split_from shard source i rqs;
          let '(rqs', from, acc) := x in mret (rqs', Some from, acc)
      end
    else mret (rqs, None, mkAdded 0 0 0 0)
  else
    rqs ← locked_rshard (sfa_address shard);
    _ ← pointer_at i;
    mret (rqs, None, mkAdded 0 0 0 0).

(** One turn of the loop over the planned shards. *)
Definition execute_shard (nodes : list ShardForAddition) (shard : ShardForAddition) : RQ unit :=
  i ← match shardIndex shard with Some i => mret i | None => throw index_out_of_range end;
  x ← prepare_shard nodes shard i;
  let '(rqs, from, acc) := x in
  _ ← mfor (sfa_jobsToAdd shard) account_job;
  let jobs := foldl (λ n j, n +u64 1) (addedJobs acc) (sfa_jobsToAdd shard) in
  let bytes := foldl (λ n j, n +u64 rja_fileSize j) (addedBytes acc) (sfa_jobsToAdd shard) in
  rqs' ← lift (addJobsBatch (ms_of rja_fSeq (sfa_jobsToAdd shard)) rqs);
  summary ← lift (rshard_getJobsSummary rqs');
  _ ← set_pointer i (λ sp, mkRSP (rsp_address sp) (rs_jobs summary) (rs_bytes summary) (rs_minFseq summary) (rs_maxFseq summary));
  _ ← rq_set_payload (λ q, rq_set_totals (u64 (retrievejobstotalsize q + bytes - transferedInSplitBytes acc))
                             (u64 (retrievejobscount q + jobs - transferedInSplitJobs acc)) (rq_oldestjobcreationtime q) q);
  _ ← (if fromSplit shard then rq_with_self commit else rqueue_commit);
  if newShard shard then
    _ ← rq_with_obj rqs' insert;
    match from with Some f => _ ← rq_with_obj f commit; mret tt | None => mret tt end
  else _ ← rq_with_obj rqs' commit; mret tt.

Definition rq_addJobsAndCommit (jobsToAdd : list RetrieveJobToAdd) : RQ unit :=
  _ ← rq_check_writable;
  match jobsToAdd with
  | [] => mret tt
  | _ =>
      q ← rq_payload;
      size ← gets m_maxShardSize;
      nodes ← lift (plan_addition size (retrievequeueshards q) jobsToAdd);
      mfor nodes (execute_shard nodes)
  end.

(** The job dumps of the shards that are there. *)
Definition dump_rshard (acc : list RetrieveJobDump) (address : string) : RQ (list RetrieveJobDump) :=
  fetched ← lockfree_rshard address;
  match fetched with
  | None => mret acc
  | Some s1 =>
      dump ← lift (rshard_dumpJobs s1);
      mret (acc ++ ((λ j, mkRJobDump (rji_address j) (rji_copyNb j) (rji_size j) (rji_activityDescription j)
                            (rji_diskSystemName j)) <$> dump))
  end.

Definition rq_dumpJobs : RQ (list RetrieveJobDump) :=
  _ ← rq_check_readable;
  q ← rq_payload;
  mfold dump_rshard [] (rsp_address <$> retrievequeueshards q).

Definition rq_addJobsIfNecessaryAndCommit (jobsToAdd : list RetrieveJobToAdd) : RQ RetrieveAddition :=
  _ ← rq_check_writable;
  q ← rq_payload;
  dumps ← mfold dump_rshard [] (rsp_address <$> retrievequeueshards q);
  let jobsToReallyAdd := filter (λ j, Forall (λ d, rjd_address d ≠ retrieveRequestAddress j) dumps) jobsToAdd in
  let ret := foldl (λ a j, mkRAddition (ra_files a +u64 1) (ra_bytes a +u64 rja_fileSize j)) (mkRAddition 0 0) jobsToReallyAdd in
  _ ← rq_addJobsAndCommit jobsToReallyAdd;
  mret ret.

(** ** Summaries and candidates *)
Definition rq_getJobsSummary : RQ RetrieveJobsSummary :=
  _ ← rq_check_readable;
  q ← rq_payload;
  let oldest := s64 (rq_oldestjobcreationtime q) in
  if decide (retrievejobscount q ≠ 0) then
    priority ← lift (maxValue (rq_prioritymap q));
    age ← lift (minValue (minretrieverequestagemap q));
    mret (mkRJobsSummary (retrievejobscount q) (retrievejobstotalsize q) oldest priority age
            (getMap (rq_mountpolicynamemap q))
            ((λ d, mkActivityCount (ad_diskInstanceName d) (ad_activity d) (ad_weight d) (ad_count d)) <$>
               getActivities priority (activity_map q))
            ((λ t, mkSleepInfo (s64 t) (default "" (disk_system_slept_for q)) (default 0 (sleep_time q))) <$>
               sleep_for_free_space_since q))
  else mret (mkRJobsSummary (retrievejobscount q) (retrievejobstotalsize q) oldest 0 0 ∅ [] None).

Definition rcandidate_shard (maxBytes maxFiles : Z) (requestsToSkip diskSystemsToSkip : gset string)
    (ret : RetrieveCandidates) (sp : RetrieveShardPointer) : RQ RetrieveCandidates :=
  if (rc_candidateBytes ret <? maxBytes) && (rc_candidateFiles ret <? maxFiles) then
    rqs0 ← lift (rshard_at (rsp_address sp));
    rqs1 ← rq_with_obj rqs0 fetchNoLock;
    c ← lift (rshard_getCandidateJobList (maxBytes -u64 rc_candidateBytes ret) (maxFiles -u64 rc_candidateFiles ret)
                requestsToSkip diskSystemsToSkip (snd rqs1));
    mret (mkRCandidates (rc_remainingFiles c) (rc_remainingBytes c)
            (rc_candidateFiles ret +u64 rc_candidateFiles c) (rc_candidateBytes ret +u64 rc_candidateBytes c)
            (rc_candidates ret ++ rc_candidates c))
  else
    mret (mkRCandidates (rc_remainingFiles ret +u64 rsp_shardjobscount sp) (rc_remainingBytes ret +u64 rsp_shardbytescount sp)
            (rc_candidateFiles ret) (rc_candidateBytes ret) (rc_candidates ret)).

Definition rq_getCandidateList (maxBytes maxFiles : Z) (requestsToSkip diskSystemsToSkip : gset string) : RQ RetrieveCandidates :=
  _ ← rq_check_readable;
  q ← rq_payload;
  mfold (rcandidate_shard maxBytes maxFiles requestsToSkip diskSystemsToSkip) (mkRCandidates 0 0 0 0 []) (retrievequeueshards q).

Definition rq_getCandidateSummary : RQ RetrieveCandidates :=
  _ ← rq_check_readable;
  q ← rq_payload;
  mret (foldl (λ ret sp, mkRCandidates 0 0 (rc_candidateFiles ret +u64 rsp_shardjobscount sp)
                           (rc_candidateBytes ret +u64 rsp_shardbytescount sp) [])
          (mkRCandidates 0 0 0 0 []) (retrievequeueshards q)).

(** ** Removal of jobs *)

(** The counters for one removed job; [true] when the job was the oldest. *)
Definition discount_job (oldest : Z) (needToRebuild : bool) (j : RetrieveJobInfo) : RQ bool :=
  _ ← count_job (@decCount) (rji_priority j) (rji_minRetrieveRequestAge j) (rji_mountPolicyName j);
  _ ← match rji_activityDescription j with
      | None => mret tt
      | Some d =>
          q ← rq_payload;
          am ← lift (ra_decCount (mkActivity (rji_priority j) (an_diskInstanceName d) (an_activity d)
                                    (ad_creationTime freshActivity) (ad_weight freshActivity) (ad_count freshActivity))
                       (activity_map q));
          rq_set_payload (λ q, rq_set_maps (rq_prioritymap q) (minretrieverequestagemap q) (rq_mountpolicynamemap q) am q)
      end;
  mret (needToRebuild || (rji_startTime j <=? oldest)).

(** Update the pointer of the shard, or drop it; returns the next index. *)
Definition rq_update_pointer (needToRebuild : bool) (index : nat) (res : RetrieveRemoval) : RQ nat :=
  if decide (rr_jobsAfter res ≠ 0) then
    _ ← set_pointer index (λ sp, mkRSP (rsp_address sp) (rsp_shardjobscount sp -u64 rr_jobsRemoved res)
                                   (rsp_shardbytescount sp -u64 rr_bytesRemoved res) (rsp_minfseq sp) (rsp_maxfseq sp));
    sp ← pointer_at index;
    _ ← (if decide (needToRebuild = false ∧
                    (rsp_shardbytescount sp ≠ rr_bytesAfter res ∨ rsp_shardjobscount sp ≠ rr_jobsAfter res))
         then rq_rebuild else mret tt);
    mret (S index)
  else
    _ ← rq_set_payload (λ q, rq_set_shards (RemoveLast (push_to_end index (retrievequeueshards q))) q);
    mret index.

Definition rq_remove_round (index : nat) (todo : list string) (sp : RetrieveShardPointer) : RQ (nat * list string) :=
  rqs ← locked_rshard (rsp_address sp);
  r ← lift (rshard_removeJobs todo rqs);
  let '(res, rqs') := r in
  _ ← (if decide (rr_jobsAfter res ≠ 0) then rq_with_obj rqs' commit else rq_with_obj rqs' remove);
  q ← rq_payload;
  needToRebuild ← mfold (discount_job (s64 (rq_oldestjobcreationtime q))) false (rr_removedJobs res);
  _ ← rq_set_payload (λ q, rq_set_totals (retrievejobstotalsize q -u64 rr_bytesRemoved res)
                             (retrievejobscount q -u64 rr_jobsRemoved res) (rq_oldestjobcreationtime q) q);
  next ← rq_update_pointer needToRebuild index res;
  let todo' := filter (λ ja, Forall (λ j, rji_address j ≠ ja) (rr_removedJobs res)) todo in
  _ ← (if (needToRebuild : bool) then rq_rebuild else mret tt);
  _ ← rqueue_commit;
  mret (next, todo').

Fixpoint rq_remove_loop (fuel : nat) (index : nat) (todo : list string) : RQ unit :=
  match todo with
  | [] => mret tt
  | _ =>
      q ← rq_payload;
      match retrievequeueshards q !! index with
      | None => mret tt
      | Some sp =>
          match fuel with
          | O => throw OutOfFuel
          | S fuel' =>
              r ← rq_remove_round index todo sp;
              let '(index', todo') := r in rq_remove_loop fuel' index' todo'
          end
      end
  end.

(** Every turn either moves to the next shard or drops one, so the number of
    shards bounds the turns. *)
Definition rq_removeJobsAndCommit (jobsToRemove : list string) : RQ unit :=
  _ ← rq_check_writable;
  q ← rq_payload;
  rq_remove_loop (length (retrievequeueshards q)) 0 jobsToRemove.
End RetrieveQueue.
