(* ===== verification/RetrieveSplit.v ===== *)
(** * Splitting a shard of a retrieve queue

    What [addJobsAndCommit] does with the shard it splits: the jobs of the low half
    are copied to the new shard and removed from the source by address. *)
From S2P Require Import Prelude DataTypes ValueCountMap Backend ObjectOps RetrieveActivity ProtoAlgorithms RetrieveQueueShard RetrieveShardSpec RetrievePlan RetrievePlanSpec RetrieveQueue.

(** ** Copying job pointers *)

(** A pointer as the queue writes it. *)
Definition pointer_wf (j : RetrieveJobPointer) : Prop :=
  in_u64 (rjp_starttime j) ∧ (is_Some (rjp_activity j) ↔ is_Some (rjp_disk_instance_name j)).

Lemma u64_s64 z : in_u64 z → u64 (s64 z) = z.
Proof.
  intros Hz. unfold s64. change (z mod 2 ^ 64) with (u64 z). rewrite (u64_small z) by done. unfold in_u64 in Hz.
  case_match; [by apply u64_small|]. rewrite <- (Z.add_opp_r z). unfold u64.
  replace (z + - 2 ^ 64) with (z + (-1) * 2 ^ 64) by lia. rewrite Z.mod_add by lia. by apply Z.mod_small.
Qed.

Section Split.
Context (fresh : RetrieveJobToAdd) (freshActivity : RetrieveActivityDescription).
Abbreviation to_add := (rjob_to_add fresh freshActivity).

Lemma pointer_roundtrip j : pointer_wf j → rjob_pointer (to_add j) = j.
Proof.
  destruct j as [size addr nb fseq prio age start policy disk act dest]. intros [Hs Ha]. unfold rjob_pointer, to_add in *.
  simpl in *. rewrite u64_s64 by done. f_equal; destruct act as [a|], disk as [d|]; simpl in *; try done.
  - destruct Ha as [Ha _]. destruct Ha; [done|]. done.
  - destruct Ha as [_ Ha]. destruct Ha; [done|]. done.
Qed.

Context {B : Type}.
Implicit Types (rqs src : ObjectOps B RetrieveQueueShard).

Definition in_limits (lo hi : Z) (j : RetrieveJobPointer) : Prop := lo <= rjp_fseq j <= hi.
#[local] Instance in_limits_dec lo hi j : Decision (in_limits lo hi j).
Proof. unfold in_limits. apply _. Defined.

Lemma in_limits_bool lo hi j : (lo <=? rjp_fseq j) && (rjp_fseq j <=? hi) = bool_decide (in_limits lo hi j).
Proof.
  unfold in_limits. destruct (Z.leb_spec lo (rjp_fseq j)), (Z.leb_spec (rjp_fseq j) hi); simpl; symmetry;
    (apply bool_decide_eq_true || apply bool_decide_eq_false); lia.
Qed.

(** A pending copy: the new shard, and what was counted. *)
Lemma transfer_jobs_ok lo hi js rqs jobs bytes addresses :
  Forall pointer_wf js → writable rqs → jobs_sorted (retrievejobs (m_payload rqs)) → rshard_wf (m_payload rqs) →
  in_u64 jobs → in_u64 bytes →
  let moved := filter (in_limits lo hi) js in
  ∃ l, transfer_jobs lo hi (to_add <$> js) rqs (jobs, bytes, addresses) =
      Ok (with_payload (mkRQS l (u64 (rsizes l))) rqs,
          (u64 (jobs + Z.of_nat (length moved)), u64 (bytes + rsizes moved), addresses ++ (rjp_address <$> moved))) ∧
    jobs_sorted l ∧ l ≡ₚ retrievejobs (m_payload rqs) ++ moved.
Proof.
  intros Hwf. revert rqs jobs bytes addresses.
  induction Hwf as [|j js Hj _ IH]; intros rqs jobs bytes addresses Hw Hs Ht Hjr Hbr; csimpl.
  { exists (retrievejobs (m_payload rqs)). unfold rsizes at 2. simpl. rewrite !Z.add_0_r, !app_nil_r, (u64_small jobs), (u64_small bytes) by done.
    split; [|done]. rewrite <- Ht at 1. by destruct rqs as [? ? ? [? ?] ?]. }
  rewrite filter_cons, in_limits_bool. case_bool_decide as Hin.
  - rewrite decide_True by done.
    destruct (addJobsBatch_ok [to_add j] rqs Hw Hs) as (l1 & E1 & Hs1 & Hp1 & _). rewrite E1.
    unfold mbind, result_bind. simpl in Hp1. rewrite pointer_roundtrip in Hp1 by done.
    assert (rshard_wf (mkRQS l1 (add_sizes (rqs_retrievejobstotalsize (m_payload rqs)) [to_add j]))) as Hw1.
    { unfold rshard_wf, rsizes. simpl. rewrite Hp1, fmap_app, Zsum_app. rewrite Ht. unfold rsizes. rewrite u64_add_l.
      f_equal. unfold Zsum at 3. simpl. lia. }
    destruct (IH (with_payload (mkRQS l1 (add_sizes (rqs_retrievejobstotalsize (m_payload rqs)) [to_add j])) rqs)
                (jobs +u64 1) (bytes +u64 rjp_size j) (addresses ++ [rjp_address j])) as (l & E & Hsl & Hpl);
      try done; try apply u64_range.
    exists l. split; [|split; [done|]].
    + rewrite E. unfold rsizes. csimpl. rewrite !u64_add_l, <- app_assoc, <- !Z.add_assoc.
      by replace (1 + Z.of_nat (length (filter (in_limits lo hi) js))) with (Z.of_nat (S (length (filter (in_limits lo hi) js)))) by lia.
    + rewrite Hpl. simpl. rewrite Hp1, <- app_assoc. done.
  - rewrite decide_False by done. unfold addJobsBatch. rewrite (proj2 (checkPayloadWritable_ok rqs) Hw).
    unfold mbind, result_bind. by apply IH.
Qed.

Lemma NoDup_same (P : RetrieveJobPointer → Prop) `{!∀ j, Decision (P j)} jobs j :
  NoDup (rjp_address <$> jobs) → j ∈ jobs → rjp_address j ∈ rjp_address <$> filter P jobs ↔ P j.
Proof.
  intros Hnd Hj. split.
  - intros (k & Ek & [Hk Hin]%list_elem_of_filter)%list_elem_of_fmap.
    apply list_elem_of_lookup in Hj as [i Hi]. apply list_elem_of_lookup in Hin as [i' Hi'].
    assert (i = i') as <-; [|congruence].
    eapply NoDup_lookup; [exact Hnd| |]; rewrite list_lookup_fmap; [by rewrite Hi|]. rewrite Hi'. simpl. by rewrite Ek.
  - intros HP. apply list_elem_of_fmap. exists j. split; [done|]. by apply list_elem_of_filter.
Qed.

(** A new shard, before its first job. *)
Definition empty_shard rqs : Prop := writable rqs ∧ m_payload rqs = mkRQS [] 0.

Lemma split_jobs_ok lo hi src dst :
  writable src → checkPayloadReadable src = Ok tt → rshard_wf (m_payload src) →
  Forall pointer_wf (retrievejobs (m_payload src)) → NoDup (rjp_address <$> retrievejobs (m_payload src)) →
  empty_shard dst →
  let low := filter (in_limits lo hi) (retrievejobs (m_payload src)) in
  let rest := filter (λ j, ¬ in_limits lo hi j) (retrievejobs (m_payload src)) in
  let n := u64 (Z.of_nat (length low)) in
  ∃ l, split_jobs fresh freshActivity lo hi src dst =
      Ok (with_payload (mkRQS l (u64 (rsizes l))) dst, with_payload (mkRQS rest (u64 (rsizes rest))) src,
          mkAdded n (u64 (rsizes low)) n (u64 (rsizes low))) ∧
    jobs_sorted l ∧ l ≡ₚ low.
Proof.
  intros Hw Hr Hwf Hp Hnd [Hd Ed] low rest n. unfold split_jobs, rshard_dumpJobsToAdd. rewrite Hr.
  destruct (transfer_jobs_ok lo hi (retrievejobs (m_payload src)) dst 0 0 []) as (l & E & Hs & Hl);
    [done|done|rewrite Ed; constructor|by rewrite Ed|done|done|].
  unfold mbind, result_bind. rewrite E. fold low. simpl.
  rewrite rshard_removeJobs_ok; [|done|rewrite Hwf; apply u64_range].
  exists l. split; [|split; [done|by rewrite Ed in Hl]].
  set (jobs := retrievejobs (m_payload src)) in *.
  assert (rkept (rjp_address <$> low) jobs = rest) as ->.
  { unfold rkept, rest. apply list_filter_ext. intros j Hj.
    pose proof (NoDup_same (in_limits lo hi) jobs j Hnd Hj). tauto. }
  assert (gone_all (rjp_address <$> low) jobs ≡ₚ low) as Hg.
  { rewrite gone_all_perm. unfold low at 2. rewrite (list_filter_ext _ (in_limits lo hi)); [done|].
    intros j Hj.
    pose proof (NoDup_same (in_limits lo hi) jobs j Hnd Hj). tauto. }
  assert (rsizes (gone_all (rjp_address <$> low) jobs) = rsizes low) as -> by (unfold rsizes; by rewrite Hg).
  assert (length (gone_all (rjp_address <$> low) jobs) = length low) as -> by by rewrite Hg.
  cbn [rr_jobsRemoved rr_bytesRemoved]. rewrite Hwf, u64_sub_l. fold jobs. rewrite ?Z.add_0_l.
  assert (rsizes jobs = rsizes low + rsizes rest) as ->; [|by replace (rsizes low + rsizes rest - rsizes low) with (rsizes rest) by lia].
  unfold rsizes. rewrite <- Zsum_app, <- fmap_app. unfold low, rest. by rewrite filter_halves.
Qed.

(** When a shard is split, its jobs are partitioned.  The jobs whose position
    lies within the limits of the new shard, and no others, are in the new shard,
    sorted by position; the source keeps the others, in their order; both totals
    are the sums of the sizes; and as many jobs and bytes are counted out of the
    source as into the new shard, so the totals of the queue do not change. *)
Lemma split_partitions lo hi src dst :
  writable src → checkPayloadReadable src = Ok tt → rshard_wf (m_payload src) →
  Forall pointer_wf (retrievejobs (m_payload src)) → NoDup (rjp_address <$> retrievejobs (m_payload src)) →
  empty_shard dst →
  ∃ dst' src' counts, split_jobs fresh freshActivity lo hi src dst = Ok (dst', src', counts) ∧
    jobs_sorted (retrievejobs (m_payload dst')) ∧
    retrievejobs (m_payload dst') ≡ₚ filter (in_limits lo hi) (retrievejobs (m_payload src)) ∧
    retrievejobs (m_payload src') = filter (λ j, ¬ in_limits lo hi j) (retrievejobs (m_payload src)) ∧
    rshard_wf (m_payload dst') ∧ rshard_wf (m_payload src') ∧
    addedJobs counts = transferedInSplitJobs counts ∧ addedBytes counts = transferedInSplitBytes counts.
Proof.
  intros Hw Hr Hwf Hp Hnd Hd.
  destruct (split_jobs_ok lo hi src dst Hw Hr Hwf Hp Hnd Hd) as (l & E & Hs & Hl).
  eexists _, _, _. split; [exact E|]. by split_and!.
Qed.

(** The plan for a full shard of one position. *)
Lemma plan_single M address count bytes m j :
  M <= count → 0 <= m < 2 ^ 64 - 1 → rja_fSeq j = m →
  ∃ new old, plan_addition M [mkRSP address count bytes m m] [j] = Ok [new; old] ∧
    fromSplit new = true ∧ splitSource new = Some (sfa_id old) ∧ sfa_address old = address ∧ sfa_jobsToAdd old = [] ∧
    sfa_minFseq new = m ∧ sfa_maxFseq new = m.
Proof.
  intros Hc Hm Hj. unfold plan_addition, plan_of_pointers, plan_jobs, plan_job. simpl.
  replace (Z.max 0 m) with m by lia. rewrite Z.max_id, Hj, Z.ltb_irrefl, Z.leb_refl. simpl.
  unfold addJobToShardAndMaybeSplit. simpl. unfold add_to_node. simpl. rewrite (proj2 (Z.ltb_ge _ _)) by done. simpl.
  rewrite Z.sub_diag. change (u64 0 / 2) with 0. rewrite Z.add_0_r, (u64_small m), (u64_small (m + 1)) by (unfold in_u64; lia).
  rewrite (proj2 (Z.leb_gt _ _)) by lia. do 2 eexists. split; [done|]. simpl. rewrite Hj, Z.ltb_irrefl. done.
Qed.

(** A full shard whose jobs are all at one position (a file requested many
    times) cannot take another job of that file.  The plan splits it into a new
    shard that covers the position and a source that covers nothing; the split
    moves every job, and the summary of the drained source, which the next turn of
    the loop reads, is out of range. *)
Lemma single_position_split M address count bytes m j src dst :
  M <= count → 0 <= m < 2 ^ 64 - 1 → rja_fSeq j = m →
  writable src → checkPayloadReadable src = Ok tt → rshard_wf (m_payload src) →
  Forall pointer_wf (retrievejobs (m_payload src)) → NoDup (rjp_address <$> retrievejobs (m_payload src)) →
  Forall (λ k, rjp_fseq k = m) (retrievejobs (m_payload src)) → empty_shard dst →
  ∃ new old dst' src' counts,
    plan_addition M [mkRSP address count bytes m m] [j] = Ok [new; old] ∧
    fromSplit new = true ∧ splitSource new = Some (sfa_id old) ∧ sfa_address old = address ∧ sfa_jobsToAdd old = [] ∧
    split_jobs fresh freshActivity (sfa_minFseq new) (sfa_maxFseq new) src dst = Ok (dst', src', counts) ∧
    addJobsBatch (ms_of rja_fSeq (sfa_jobsToAdd old)) src' = Ok src' ∧
    rshard_getJobsSummary src' = Throw (Exception "retrievejobs(0): index out of range").
Proof.
  intros Hc Hm Hj Hw Hr Hwf Hp Hnd Hall Hd.
  destruct (split_jobs_ok m m src dst Hw Hr Hwf Hp Hnd Hd) as (l & E & Hs & Hl).
  assert (filter (λ k, ¬ in_limits m m k) (retrievejobs (m_payload src)) = []) as Hrest.
  { apply filter_none. eapply Forall_impl; [exact Hall|]. unfold in_limits. simpl. intros k -> Hn. apply Hn. lia. }
  rewrite Hrest in E.
  destruct (plan_single M address count bytes m j Hc Hm Hj) as (new & old & Ep & H1 & H2 & H3 & H4 & H5 & H6).
  exists new, old. rewrite H4, H5, H6. eexists _, _, _. do 5 (split; [done|]). split; [exact E|]. split.
  - unfold addJobsBatch. assert (checkPayloadWritable (with_payload (mkRQS [] (u64 (rsizes []))) src) = Ok tt) as ->; [|done].
    by apply checkPayloadWritable_ok.
  - unfold rshard_getJobsSummary. assert (checkPayloadReadable (with_payload (mkRQS [] (u64 (rsizes []))) src) = Ok tt) as -> by exact Hr.
    done.
Qed.
End Split.

(** ** Witnesses *)
Definition ex_fresh : RetrieveJobToAdd := mkRJobToAdd 0 0 "" 0 ex_rpolicy 0 None None.
Definition ex_fresh_activity : RetrieveActivityDescription := mkActivity 0 "" "" 0 0 0.
Definition ex_new_shard : ObjectOps unit RetrieveQueueShard :=
  mkOps true "new" (mkHeader RetrieveQueueShard_t 0 "q" "" ()) (mkRQS [] 0) (mkFlags true true false 0 0 false false false).

Lemma split_partitions_witness :
  match split_jobs ex_fresh ex_fresh_activity 1 4 (ex_rshard [ex_rjob 3 "a" 10; ex_rjob 8 "b" 20] 30) ex_new_shard with
  | Ok (dst, src, _) => jobs_sorted (retrievejobs (m_payload dst)) ∧ rshard_wf (m_payload src)
  | Throw _ => False
  end.
Proof.
  destruct (split_partitions ex_fresh ex_fresh_activity 1 4 (ex_rshard [ex_rjob 3 "a" 10; ex_rjob 8 "b" 20] 30) ex_new_shard)
    as (dst & src & counts & -> & Hs & _ & _ & _ & Hw & _).
  - by apply checkPayloadWritable_ok.
  - reflexivity.
  - reflexivity.
  - repeat constructor; simpl; try (intros [? ?]; discriminate); unfold in_u64; simpl; vm_compute; (reflexivity || discriminate).
  - by apply (bool_decide_unpack _).
  - split; [by apply checkPayloadWritable_ok|reflexivity].
  - by split.
Defined.

Lemma single_position_split_witness :
  match plan_addition 2 [mkRSP "shard" 2 30 3 3] [ex_rjob 3 "c" 5],
        split_jobs ex_fresh ex_fresh_activity 3 3 (ex_rshard [ex_rjob 3 "a" 10; ex_rjob 3 "b" 20] 30) ex_new_shard with
  | Ok [new; old], Ok (_, src', _) => sfa_address old = "shard" ∧ is_ok (rshard_getJobsSummary src') = false
  | _, _ => False
  end.
Proof.
  destruct (single_position_split ex_fresh ex_fresh_activity 2 "shard" 2 30 3 (ex_rjob 3 "c" 5)
              (ex_rshard [ex_rjob 3 "a" 10; ex_rjob 3 "b" 20] 30) ex_new_shard)
    as (new & old & dst' & src' & counts & Ep & _ & _ & Ha & _ & Es & _ & Hsum); try lia; try reflexivity.
  - by apply checkPayloadWritable_ok.
  - repeat constructor; simpl; try (intros [? ?]; discriminate); unfold in_u64; simpl; vm_compute; (reflexivity || discriminate).
  - by apply (bool_decide_unpack _).
  - by repeat constructor.
  - split; [by apply checkPayloadWritable_ok|reflexivity].
  - rewrite Ep. assert (sfa_minFseq new = 3 ∧ sfa_maxFseq new = 3) as [El Eh].
    { vm_compute in Ep. by simplify_eq. }
    rewrite El, Eh in Es. rewrite Es, Hsum. done.
Defined.
