(* ===== verification/RetrieveQueueExamples.v ===== *)
(** * A retrieve queue in the file system backend

    The operations of the retrieve queue executed on concrete queues: additions
    that fill, extend and split shards, removals that drain them, and the two
    additions that leave the range of a repeated field. *)
From S2P Require Import Prelude DataTypes ValueCountMap Backend ObjectOps RetrieveActivity ProtoAlgorithms RetrieveQueueShard RetrieveShardSpec RetrievePlan RetrieveQueue RetrieveSplit.
Import Blob.

Definition rmsg : Type := RetrieveQueue + RetrieveQueueShard.

#[export] Program Instance OneOf_rqueue : OneOf rmsg RetrieveQueue := {|
  inj_msg := inl; proj_msg m := match m with inl q => Some q | inr _ => None end |}.
Next Obligation. done. Qed.
#[export] Program Instance OneOf_rshard : OneOf rmsg RetrieveQueueShard := {|
  inj_msg := inr; proj_msg m := match m with inr p => Some p | inl _ => None end |}.
Next Obligation. done. Qed.

Definition rnothing : blob rmsg := BMsg (inr (mkRQS [] 0)).

(** An empty queue with a small shard size. *)
Definition ex_rqueue : RetrieveQueue := mkRetrieveQueue "V01" [] [] [] [] [] 0 0 0 0 3 None None None.
Definition ex_rqhandle : ObjectOps (blob rmsg) RetrieveQueue :=
  mkOps true "queue" (mkHeader RetrieveQueue_t 0 "root" "" (BMsg (inl ex_rqueue))) ex_rqueue
    (mkFlags true true true 1 1 false true false).
Definition ex_rstate : RQState (blob rmsg) (VFS.vfs (blob rmsg)) :=
  mkRQState ex_rqhandle 3 (mkLock Exclusive true)
    (VFS.mkVfs {["queue" := BHdr RetrieveQueue_t 0 "root" "" (BMsg (inl ex_rqueue))]} {["queue"]}) (mkAgent "agent" 0).

Abbreviation add := (rq_addJobsAndCommit rnothing ex_fresh ex_fresh_activity).

(** The positions and addresses in each shard, and the summaries. *)
Definition shards_of : M (RQState (blob rmsg) (VFS.vfs (blob rmsg))) (list (list string) * Z * Z * Z) :=
  q ← rq_payload;
  dumps ← mfold (λ acc a, d ← dump_rshard rnothing [] a; mret (acc ++ [rjd_address <$> d])) [] (rsp_address <$> retrievequeueshards q);
  mret (dumps, retrievejobscount q, retrievejobstotalsize q, rq_mapsrebuildcount q).

Definition outcome {S A} (m : M S A) (s : S) : result A := fst (m s).

(** Five jobs, then a sixth in the full range of the first shard. *)
Example ex_additions :
  outcome (_ ← add [ex_rjob 10 "a" 1; ex_rjob 30 "b" 2; ex_rjob 20 "c" 3];
           _ ← add [ex_rjob 15 "d" 4]; _ ← add [ex_rjob 40 "e" 5]; shards_of) ex_rstate =
  Ok ([["a"; "d"; "c"]; ["b"; "e"]], 5, 15, 0).
Proof. vm_compute. reflexivity. Qed.

(** Removal drains the first shard and drops it. *)
Example ex_removal :
  outcome (_ ← add [ex_rjob 10 "a" 1; ex_rjob 30 "b" 2; ex_rjob 20 "c" 3];
           _ ← add [ex_rjob 15 "d" 4; ex_rjob 40 "e" 5];
           _ ← rq_removeJobsAndCommit rnothing ex_fresh_activity ["c"; "a"; "d"]; shards_of) ex_rstate =
  Ok ([["b"; "e"]], 2, 7, 0).
Proof. vm_compute. reflexivity. Qed.

(** A job already there is not added again. *)
Example ex_if_necessary :
  outcome (_ ← add [ex_rjob 10 "a" 1];
           rq_addJobsIfNecessaryAndCommit rnothing ex_fresh ex_fresh_activity [ex_rjob 10 "a" 1; ex_rjob 5 "z" 9]) ex_rstate =
  Ok (mkRAddition 1 9).
Proof. vm_compute. reflexivity. Qed.

(** Four requests for the same file: the fourth addition fails. *)
Example ex_same_file :
  outcome (_ ← add [ex_rjob 10 "a" 1; ex_rjob 10 "b" 2; ex_rjob 10 "c" 3]; add [ex_rjob 10 "d" 4]) ex_rstate =
  Throw (Exception "retrievejobs(0): index out of range").
Proof. vm_compute. reflexivity. Qed.

(** A batch that splits the last shard twice reads past the pointers: the shard
    that was split is not protected from a second split. *)
Example ex_double_split :
  outcome (_ ← add [ex_rjob 10 "a" 1; ex_rjob 20 "b" 2; ex_rjob 30 "c" 3];
           add [ex_rjob 28 "d" 1; ex_rjob 29 "e" 1; ex_rjob 27 "f" 1]) ex_rstate =
  Throw index_out_of_range.
Proof. vm_compute. reflexivity. Qed.
