(* ===== verification/RootEntry.v ===== *)
(** * The root entry

    Model of [objectstore/RootEntry.cpp]: the object named "root" that points to
    every other permanent object of the store (queues by type and name, registers,
    scheduler lock, repack index and queues).  Every operation is translated with
    the objects it creates, opens and removes, in the order of the writes.

    Locks on other objects are scoped: the handle dies with its lock at the end of
    the operation. *)
From S2P Require Import Prelude DataTypes ValueCountMap Backend ObjectOps Handles ProtoAlgorithms ArchiveQueueShard ArchiveQueue RetrieveActivity RetrieveQueueShard RetrievePlan RetrieveQueue Agent Registers.

(** ** Data *)

(** [serializers::ArchiveQueuePointer] and [RetrieveQueuePointer]: the name is a
    tape pool or a tape. *)
Record QueuePointer := mkQP { qp_address : string; qp_name : string }.
(** [DriveRegisterPointer], [AgentRegisterPointer], [SchedulerGlobalLockPointer]. *)
Record RegisterPointer := mkRP { rp_address : string; rp_log : serializers.EntryLog }.

(** The repeated fields of the pointers to the queues of one kind. *)
Record QueuePointers := mkQPs {
  to_transfer_for_user : list QueuePointer;
  failed : list QueuePointer;
  to_report_for_user : list QueuePointer;
  to_transfer_for_repack : list QueuePointer;
  to_report_to_repack_for_success : list QueuePointer;
  to_report_to_repack_for_failure : list QueuePointer
}.

(** [serializers::RootEntry]. *)
Record RootEntry := mkRoot {
  archive_queues : QueuePointers;
  retrieve_queues : QueuePointers;
  driveregisterpointer : option RegisterPointer;
  agentregisterpointer : option RegisterPointer;
  repackindexpointer : option string;
  repackrequestspendingqueuepointer : option string;
  repackrequeststoexpandqueuepointer : option string;
  agentregisterintent : option string;
  schedulerlockpointer : option RegisterPointer
}.
Definition no_queues : QueuePointers := mkQPs [] [] [] [] [] [].
#[export] Instance RootEntry_message : Message RootEntry := {|
  payloadTypeId := RootEntry_t;
  default_message := mkRoot no_queues no_queues None None None None None None None |}.

Definition root_address : string := "root".

(** [common::dataStructures::RepackQueueType]. *)
Inductive RepackQueueType := Pending | ToExpand.
#[export] Instance RepackQueueType_eq_dec : EqDecision RepackQueueType.
Proof. solve_decision. Defined.

(** The field selected by a queue type ([archiveQueuePointers],
    [retrieveQueuePointers] and their mutable versions). *)
Definition pointers (qt : JobQueueType) (q : QueuePointers) : list QueuePointer :=
  match qt with
  | JobsToTransferForUser => to_transfer_for_user q
  | JobsToReportToUser => to_report_for_user q
  | FailedJobs => failed q
  | JobsToTransferForRepack => to_transfer_for_repack q
  | JobsToReportToRepackForSuccess => to_report_to_repack_for_success q
  | JobsToReportToRepackForFailure => to_report_to_repack_for_failure q
  end.
Definition set_pointers (qt : JobQueueType) (l : list QueuePointer) (q : QueuePointers) : QueuePointers :=
  match qt with
  | JobsToTransferForUser => mkQPs l (failed q) (to_report_for_user q) (to_transfer_for_repack q) (to_report_to_repack_for_success q) (to_report_to_repack_for_failure q)
  | FailedJobs => mkQPs (to_transfer_for_user q) l (to_report_for_user q) (to_transfer_for_repack q) (to_report_to_repack_for_success q) (to_report_to_repack_for_failure q)
  | JobsToReportToUser => mkQPs (to_transfer_for_user q) (failed q) l (to_transfer_for_repack q) (to_report_to_repack_for_success q) (to_report_to_repack_for_failure q)
  | JobsToTransferForRepack => mkQPs (to_transfer_for_user q) (failed q) (to_report_for_user q) l (to_report_to_repack_for_success q) (to_report_to_repack_for_failure q)
  | JobsToReportToRepackForSuccess => mkQPs (to_transfer_for_user q) (failed q) (to_report_for_user q) (to_transfer_for_repack q) l (to_report_to_repack_for_failure q)
  | JobsToReportToRepackForFailure => mkQPs (to_transfer_for_user q) (failed q) (to_report_for_user q) (to_transfer_for_repack q) (to_report_to_repack_for_success q) l
  end.

Definition archiveQueuePointers (qt : JobQueueType) (r : RootEntry) : list QueuePointer := pointers qt (archive_queues r).
Definition retrieveQueuePointers (qt : JobQueueType) (r : RootEntry) : list QueuePointer := pointers qt (retrieve_queues r).

(** Field updates. *)
Definition set_archive_queues (q : QueuePointers) (r : RootEntry) : RootEntry :=
  mkRoot q (retrieve_queues r) (driveregisterpointer r) (agentregisterpointer r) (repackindexpointer r)
    (repackrequestspendingqueuepointer r) (repackrequeststoexpandqueuepointer r) (agentregisterintent r) (schedulerlockpointer r).
Definition set_retrieve_queues (q : QueuePointers) (r : RootEntry) : RootEntry :=
  mkRoot (archive_queues r) q (driveregisterpointer r) (agentregisterpointer r) (repackindexpointer r)
    (repackrequestspendingqueuepointer r) (repackrequeststoexpandqueuepointer r) (agentregisterintent r) (schedulerlockpointer r).
Definition set_driveregisterpointer (p : option RegisterPointer) (r : RootEntry) : RootEntry :=
  mkRoot (archive_queues r) (retrieve_queues r) p (agentregisterpointer r) (repackindexpointer r)
    (repackrequestspendingqueuepointer r) (repackrequeststoexpandqueuepointer r) (agentregisterintent r) (schedulerlockpointer r).
Definition set_agentregisterpointer (p : option RegisterPointer) (r : RootEntry) : RootEntry :=
  mkRoot (archive_queues r) (retrieve_queues r) (driveregisterpointer r) p (repackindexpointer r)
    (repackrequestspendingqueuepointer r) (repackrequeststoexpandqueuepointer r) (agentregisterintent r) (schedulerlockpointer r).
Definition set_repackindexpointer (p : option string) (r : RootEntry) : RootEntry :=
  mkRoot (archive_queues r) (retrieve_queues r) (driveregisterpointer r) (agentregisterpointer r) p
    (repackrequestspendingqueuepointer r) (repackrequeststoexpandqueuepointer r) (agentregisterintent r) (schedulerlockpointer r).
Definition set_repackqueuepointer (qt : RepackQueueType) (p : option string) (r : RootEntry) : RootEntry :=
  mkRoot (archive_queues r) (retrieve_queues r) (driveregisterpointer r) (agentregisterpointer r) (repackindexpointer r)
    (match qt with Pending => p | ToExpand => repackrequestspendingqueuepointer r end)
    (match qt with ToExpand => p | Pending => repackrequeststoexpandqueuepointer r end)
    (agentregisterintent r) (schedulerlockpointer r).
Definition set_agentregisterintent (p : option string) (r : RootEntry) : RootEntry :=
  mkRoot (archive_queues r) (retrieve_queues r) (driveregisterpointer r) (agentregisterpointer r) (repackindexpointer r)
    (repackrequestspendingqueuepointer r) (repackrequeststoexpandqueuepointer r) p (schedulerlockpointer r).
Definition set_schedulerlockpointer (p : option RegisterPointer) (r : RootEntry) : RootEntry :=
  mkRoot (archive_queues r) (retrieve_queues r) (driveregisterpointer r) (agentregisterpointer r) (repackindexpointer r)
    (repackrequestspendingqueuepointer r) (repackrequeststoexpandqueuepointer r) (agentregisterintent r) p.

(** [has_p() && p().address().size()]: the address, when there is one. *)
Definition address_of (p : option RegisterPointer) : option string :=
  match p with Some x => if decide (rp_address x = "") then None else Some (rp_address x) | None => None end.
Definition nonempty (p : option string) : option string :=
  match p with Some x => if decide (x = "") then None else Some x | None => None end.
(** [mutable_p()->set_address("")], which keeps the log. *)
Definition forget_address (p : option RegisterPointer) : option RegisterPointer :=
  match p with
  | Some x => Some (mkRP "" (rp_log x))
  | None => Some (mkRP "" (serializers.mkEntryLog "" "" 0))
  end.
Definition repackqueuepointer (qt : RepackQueueType) (r : RootEntry) : option string :=
  match qt with Pending => repackrequestspendingqueuepointer r | ToExpand => repackrequeststoexpandqueuepointer r end.

Definition archive_name_header (qt : JobQueueType) : string :=
  "ArchiveQueue" +:+
  match qt with
  | JobsToTransferForUser => "ToTransferForUser"
  | JobsToReportToRepackForFailure => "ToReportToRepackForSuccess"
  | JobsToReportToRepackForSuccess => "ToReportToRepackForSuccess"
  | JobsToReportToUser => "ToReportForUser"
  | FailedJobs => "Failed"
  | JobsToTransferForRepack => "ToTransferForRepack"
  end.
Definition retrieve_name_header (qt : JobQueueType) : string :=
  "RetrieveQueue" +:+
  match qt with
  | JobsToTransferForUser => "ToTransferForUser"
  | JobsToReportToUser => "ToReportForUser"
  | FailedJobs => "Failed"
  | JobsToReportToRepackForSuccess => "ToReportToRepackForSuccess"
  | JobsToReportToRepackForFailure => "ToReportToRepackForFailure"
  | JobsToTransferForRepack => "ToTransferForRepack"
  end.
Definition repack_name_header (qt : RepackQueueType) : string :=
  "RepackQueue" +:+ match qt with Pending => "Pending" | ToExpand => "ToExpand" end.

(** ** Operations *)

(** The state of an operation: the handle of the root entry, the backend and the
    agent on whose behalf it runs. *)
Record REState (B St : Type) := mkREState { re : ObjectOps B RootEntry; re_be : St; re_agent : AgentReference }.
Arguments mkREState {B St} _ _ _.
Arguments re {B St} _.
Arguments re_be {B St} _.
Arguments re_agent {B St} _.

Section RootEntry.
Context {B St : Type} `{!Serializable B (ObjectHeader B), !Backend B St}.
Context `{!Serializable B RootEntry, !Serializable B ArchiveQueue, !Serializable B RetrieveQueue, !Serializable B Agent}.
Context `{!Serializable B DriveRegister, !Serializable B AgentRegister, !Serializable B SchedulerGlobalLock}.
Context `{!Serializable B RepackIndex, !Serializable B RepackQueue}.
(** The header bytes of a handle before anything is read; never looked at. *)
Context (dummy : B).

Abbreviation RE := (M (REState B St)).

Definition re_payload : RE RootEntry := gets (λ s, m_payload (re s)).
Definition re_modify (f : RootEntry → RootEntry) : RE unit :=
  modify (λ s, mkREState (with_payload (f (m_payload (re s))) (re s)) (re_be s) (re_agent s)).
Definition re_writable : RE unit := o ← gets re; lift (checkPayloadWritable o).
Definition re_readable : RE unit := o ← gets re; lift (checkPayloadReadable o).

(** An operation of [ObjectOps] on the root entry itself. *)
Definition re_self (m : M (HState B RootEntry St) unit) : RE unit := λ s,
  let '(r, (o', be')) := m (re s, re_be s) in (r, mkREState o' be' (re_agent s)).
(** An operation on other objects of the store. *)
Definition on_be {A} (m : M St A) : RE A := λ s,
  let '(r, be') := m (re_be s) in (r, mkREState (re s) be' (re_agent s)).
Definition re_nextId (childType : string) : RE string := λ s,
  let '(name, a') := nextId childType (re_agent s) in (Ok name, mkREState (re s) (re_be s) a').
Definition re_self_address : RE string := o ← gets re; lift (getAddressIfSet o).

(** [T o(address, os); o.initialize(...); o.setOwner(owner); o.setBackupOwner(backup);] *)
Definition new_child {P} `{!Serializable B P, !Message P} (init : ObjectOps B P → result (ObjectOps B P))
    (address owner backup : string) : result (ObjectOps B P) :=
  o ← object_at dummy address; o1 ← init o; set_owners owner backup o1.

(** A lock and a fetch that may find the object gone: the exception passes through
    when the object exists. *)
Definition open_or_gone {P} `{!Serializable B P, !Message P} (address : string) : RE (option (ObjectOps B P)) :=
  o ← lift (object_at dummy address);
  catch (o' ← on_be (lock_and_fetch Exclusive o); mret (Some o'))
    (λ e, Some (b ← on_be (be_exists address); if (b : bool) then throw e else mret None)).

Definition root_initialize (o : ObjectOps B RootEntry) : result (ObjectOps B RootEntry) := initialize_with id o.

Definition root_isEmpty : RE bool :=
  _ ← re_readable;
  r ← re_payload;
  mret (bool_decide (address_of (driveregisterpointer r) = None) &&
        bool_decide (nonempty (agentregisterintent r) = None) &&
        bool_decide (address_of (agentregisterpointer r) = None) &&
        bool_decide (address_of (schedulerlockpointer r) = None) &&
        forallb (λ qt, bool_decide (length (archiveQueuePointers qt r) = 0%nat))
          [JobsToTransferForUser; JobsToReportToUser; FailedJobs] &&
        forallb (λ qt, bool_decide (length (retrieveQueuePointers qt r) = 0%nat))
          [JobsToTransferForUser; JobsToReportToUser; FailedJobs; JobsToReportToRepackForSuccess]).

Definition root_removeIfEmpty : RE unit :=
  _ ← re_writable;
  b ← root_isEmpty;
  if negb b then throw NotEmpty else re_self remove.

Definition root_garbageCollect : RE unit := throw ForbiddenOperation.

(** *** Archive queues *)
Definition named (name : string) (p : QueuePointer) : bool := bool_decide (qp_name p = name).

Definition getArchiveQueueAddress (tapePool : string) (qt : JobQueueType) : RE string :=
  _ ← re_readable;
  r ← re_payload;
  match findElement (named tapePool) (archiveQueuePointers qt r) with
  | Ok p => mret (qp_address p)
  | Throw _ => throw NoSuchArchiveQueue
  end.

Definition addOrGetArchiveQueueAndCommit (tapePool : string) (qt : JobQueueType) : RE string :=
  _ ← re_writable;
  r ← re_payload;
  match findElement (named tapePool) (archiveQueuePointers qt r) with
  | Ok p => mret (qp_address p)
  | Throw _ =>
      address ← re_nextId (archive_name_header qt +:+ "-" +:+ tapePool);
      _ ← re_modify (λ r, set_archive_queues
            (set_pointers qt (archiveQueuePointers qt r ++ [mkQP address tapePool]) (archive_queues r)) r);
      _ ← re_self commit;
      root ← re_self_address;
      aq ← lift (new_child (queue_initialize tapePool) address root root);
      _ ← on_be (exec_on aq insert);
      mret address
  end.

(** Reads of a queue handle, with the definitions of the queue. *)
Definition on_archive_queue {A} (o : ObjectOps B ArchiveQueue) (m : M (AQState B St) A) : RE A := λ s,
  let '(r, s') := m (mkAQState o (mkLock Exclusive true) (re_be s) (re_agent s)) in (r, s).
Definition on_retrieve_queue {A} (o : ObjectOps B RetrieveQueue) (m : M (RQState B St) A) : RE A := λ s,
  let '(r, s') := m (mkRQState o (maxshardsize (m_payload o)) (mkLock Exclusive true) (re_be s) (re_agent s)) in (r, s).

Definition remove_archive_pointer (tapePool : string) (qt : JobQueueType) : RE unit :=
  re_modify (λ r, set_archive_queues
    (set_pointers qt (removeOccurences (named tapePool) (archiveQueuePointers qt r)) (archive_queues r)) r).

Definition removeArchiveQueueAndCommit (tapePool : string) (qt : JobQueueType) : RE unit :=
  _ ← re_writable;
  r ← re_payload;
  match findElement (named tapePool) (archiveQueuePointers qt r) with
  | Throw _ => throw NoSuchArchiveQueue
  | Ok aqp =>
      opened ← open_or_gone (P := ArchiveQueue) (qp_address aqp);
      _ ← match opened with
          | None => mret tt
          | Some aq =>
              found ← on_archive_queue aq getTapePool;
              if decide (found ≠ tapePool) then throw WrongArchiveQueue
              else
                b ← on_archive_queue aq isEmpty;
                if negb b then throw ArchiveQueueNotEmpty
                else _ ← on_be (exec_on aq remove); mret tt
          end;
      _ ← remove_archive_pointer tapePool qt;
      re_self commit
  end.

(** No access check and no commit. *)
Definition removeMissingArchiveQueueReference (tapePool : string) (qt : JobQueueType) : RE unit :=
  remove_archive_pointer tapePool qt.

Definition dumpArchiveQueues (qt : JobQueueType) : RE (list (string * string)) :=
  _ ← re_readable;
  r ← re_payload;
  mret ((λ p, (qp_address p, qp_name p)) <$> archiveQueuePointers qt r).

(** *** Retrieve queues *)
Definition getRetrieveQueueAddress (vid : string) (qt : JobQueueType) : RE string :=
  _ ← re_readable;
  r ← re_payload;
  match findElement (named vid) (retrieveQueuePointers qt r) with
  | Ok p => mret (qp_address p)
  | Throw _ => throw NoSuchRetrieveQueue
  end.

Definition addOrGetRetrieveQueueAndCommit (vid : string) (qt : JobQueueType) : RE string :=
  _ ← re_writable;
  r ← re_payload;
  match findElement (named vid) (retrieveQueuePointers qt r) with
  | Ok p => mret (qp_address p)
  | Throw _ =>
      address ← re_nextId (retrieve_name_header qt +:+ "-" +:+ vid);
      _ ← re_modify (λ r, set_retrieve_queues
            (set_pointers qt (retrieveQueuePointers qt r ++ [mkQP address vid]) (retrieve_queues r)) r);
      _ ← re_self commit;
      root ← re_self_address;
      rq ← lift (new_child (rqueue_initialize vid c_defaultMaxShardSize) address root "root");
      _ ← on_be (exec_on rq insert);
      mret address
  end.

Definition remove_retrieve_pointer (vid : string) (qt : JobQueueType) : RE unit :=
  re_modify (λ r, set_retrieve_queues
    (set_pointers qt (removeOccurences (named vid) (retrieveQueuePointers qt r)) (retrieve_queues r)) r).

Definition removeRetrieveQueueAndCommit (vid : string) (qt : JobQueueType) : RE unit :=
  _ ← re_writable;
  r ← re_payload;
  match findElement (named vid) (retrieveQueuePointers qt r) with
  | Throw _ => throw NoSuchRetrieveQueue
  | Ok rqp =>
      opened ← open_or_gone (P := RetrieveQueue) (qp_address rqp);
      _ ← match opened with
          | None => mret tt
          | Some rq =>
              found ← on_retrieve_queue rq getVid;
              if decide (found ≠ vid) then throw WrongRetrieveQueue
              else
                b ← on_retrieve_queue rq rqueue_isEmpty;
                if negb b then throw RetrieveQueueNotEmpty
                else _ ← on_be (exec_on rq remove); mret tt
          end;
      _ ← remove_retrieve_pointer vid qt;
      re_self commit
  end.

Definition removeMissingRetrieveQueueReference (vid : string) (qt : JobQueueType) : RE unit :=
  remove_retrieve_pointer vid qt.

Definition dumpRetrieveQueues (qt : JobQueueType) : RE (list (string * string)) :=
  _ ← re_readable;
  r ← re_payload;
  mret ((λ p, (qp_address p, qp_name p)) <$> retrieveQueuePointers qt r).
(** *** Registers and locks *)

(** [catch (NotAllocated &)]. *)
Definition or_allocate (get : RE string) (k : RE string) : RE string :=
  catch get (λ e, match e with NotAllocated => Some k | _ => None end).

Definition getDriveRegisterAddress : RE string :=
  _ ← re_readable;
  r ← re_payload;
  match address_of (driveregisterpointer r) with Some a => mret a | None => throw NotAllocated end.

(** The creation shared by the drive register and the scheduler lock: the object is
    created for the agent, referenced by the root entry, then handed over. *)
Definition create_owned {P} `{!Serializable B P, !Message P} (childType : string)
    (init : ObjectOps B P → result (ObjectOps B P)) (refer : string → RootEntry → RootEntry) : RE string :=
  address ← re_nextId childType;
  agent ← gets re_agent;
  _ ← on_be (addToOwnership dummy address agent);
  root ← re_self_address;
  o ← lift (new_child init address (m_agentAddress agent) root);
  o1 ← on_be (exec_on o insert);
  o2 ← on_be (exec_on o1 (_ ← lock (mkLock Exclusive false); mret tt));
  _ ← re_modify (refer address);
  _ ← re_self commit;
  o3 ← lift (set_owners root root o2);
  _ ← on_be (exec_on o3 commit);
  _ ← on_be (removeFromOwnership dummy address agent);
  mret address.

Definition addOrGetDriveRegisterPointerAndCommit (log : EntryLog) : RE string :=
  _ ← re_writable;
  or_allocate getDriveRegisterAddress
    (create_owned "DriveRegister" dr_initialize
       (λ address, set_driveregisterpointer (Some (mkRP address (EntryLog_serialize log))))).

(** Removal of a referenced object that must be empty. *)
Definition remove_child {P} `{!Serializable B P, !Message P} (isEmpty : ObjectOps B P → result bool) (refused : exn)
    (address : string) : RE unit :=
  o ← on_be (open_locked dummy Exclusive address);
  b ← lift (isEmpty o);
  if negb b then throw refused
  else _ ← on_be (exec_on o remove); mret tt.

Definition removeDriveRegisterAndCommit : RE unit :=
  _ ← re_writable;
  r ← re_payload;
  match address_of (driveregisterpointer r) with
  | None => mret tt
  | Some drAddr =>
      _ ← remove_child dr_isEmpty DriveRegisterNotEmpty drAddr;
      _ ← re_modify (λ r, set_driveregisterpointer (forget_address (driveregisterpointer r)) r);
      re_self commit
  end.

Definition getAgentRegisterAddress : RE string :=
  _ ← re_readable;
  r ← re_payload;
  match address_of (agentregisterpointer r) with Some a => mret a | None => throw NotAllocated end.

(** A previous intent is cleaned up: the object is fetched without a lock. *)
Definition addIntendedAgentRegistry (address : string) : RE unit :=
  _ ← re_writable;
  r ← re_payload;
  match address_of (agentregisterpointer r) with
  | Some _ => throw (Exception "addIntendedAgentRegistry: pointer to registry already set")
  | None =>
      _ ← match nonempty (agentregisterintent r) with
          | None => mret tt
          | Some intent =>
              b ← on_be (be_exists intent);
              if (b : bool) then
                iar ← lift (object_at dummy intent);
                iar1 ← on_be (exec_on iar fetch);
                e ← lift (ar_isEmpty iar1);
                if negb e then throw AgentRegisterNotEmpty
                else _ ← on_be (exec_on iar1 remove); mret tt
              else mret tt
          end;
      re_modify (set_agentregisterintent (Some address))
  end.

Definition create_agent_register (log : EntryLog) : RE string :=
  _ ← re_writable;
  _ ← re_self fetch;
  r ← re_payload;
  match address_of (agentregisterpointer r) with
  | Some a => mret a
  | None =>
      address ← re_nextId "AgentRegister";
      _ ← addIntendedAgentRegistry address;
      _ ← re_self commit;
      ar ← lift (new_child ar_initialize address "" "");
      ar1 ← on_be (exec_on ar insert);
      ar2 ← on_be (exec_on ar1 (_ ← lock (mkLock Exclusive false); mret tt));
      _ ← re_modify (λ r, set_agentregisterintent (Some "")
            (set_agentregisterpointer (Some (mkRP address (EntryLog_serialize log))) r));
      _ ← re_self commit;
      root ← re_self_address;
      ar3 ← lift (set_owners root root ar2);
      _ ← on_be (exec_on ar3 commit);
      mret address
  end.
Definition addOrGetAgentRegisterPointerAndCommit (log : EntryLog) : RE string :=
  or_allocate getAgentRegisterAddress (create_agent_register log).

Definition removeAgentRegisterAndCommit : RE unit :=
  _ ← re_writable;
  r ← re_payload;
  _ ← match nonempty (agentregisterintent r) with
      | None => mret tt
      | Some intent =>
          _ ← remove_child ar_isEmpty AgentRegisterNotEmpty intent;
          _ ← re_modify (set_agentregisterintent (Some ""));
          re_self commit
      end;
  match address_of (agentregisterpointer r) with
  | None => mret tt
  | Some address =>
      _ ← remove_child ar_isEmpty AgentRegisterNotEmpty address;
      _ ← re_modify (λ r, set_agentregisterpointer (forget_address (agentregisterpointer r)) r);
      re_self commit
  end.

Definition getSchedulerGlobalLock : RE string :=
  _ ← re_readable;
  r ← re_payload;
  match address_of (schedulerlockpointer r) with Some a => mret a | None => throw NotAllocated end.

Definition addOrGetSchedulerGlobalLockAndCommit (log : EntryLog) : RE string :=
  _ ← re_writable;
  or_allocate getSchedulerGlobalLock
    (create_owned "SchedulerGlobalLock" sgl_initialize
       (λ address, set_schedulerlockpointer (Some (mkRP address (EntryLog_serialize log))))).

Definition removeSchedulerGlobalLockAndCommit : RE unit :=
  _ ← re_writable;
  r ← re_payload;
  match address_of (schedulerlockpointer r) with
  | None => mret tt
  | Some address =>
      _ ← remove_child sgl_isEmpty DriveRegisterNotEmpty address;
      _ ← re_modify (λ r, set_schedulerlockpointer (forget_address (schedulerlockpointer r)) r);
      re_self commit
  end.

(** *** Repack index and queues *)
Definition getRepackIndexAddress : RE string :=
  _ ← re_readable;
  r ← re_payload;
  match nonempty (repackindexpointer r) with
  | Some a => mret a
  | None => throw (Exception "getRepackIndexAddress: repack tape register not yet allocated")
  end.

(** Any exception of the lookup leads to the creation. *)
Definition addOrGetRepackIndexAndCommit : RE string :=
  _ ← re_writable;
  catch getRepackIndexAddress (λ _, Some (
    address ← re_nextId "RepackIndex";
    root ← re_self_address;
    ri ← lift (new_child ri_initialize address root root);
    _ ← re_modify (set_repackindexpointer (Some address));
    _ ← re_self commit;
    _ ← on_be (exec_on ri insert);
    mret address)).

Definition removeRepackIndexAndCommit : RE unit :=
  _ ← re_writable;
  r ← re_payload;
  match nonempty (repackindexpointer r) with
  | None => mret tt
  | Some address =>
      _ ← catch (remove_child ri_isEmpty DriveRegisterNotEmpty address)
            (λ e, match e with NoSuchObject => Some (mret tt) | _ => None end);
      _ ← re_modify (set_repackindexpointer (Some ""));
      re_self commit
  end.

Definition getRepackQueueAddress (qt : RepackQueueType) : RE string :=
  _ ← re_readable;
  r ← re_payload;
  match repackqueuepointer qt r with Some a => mret a | None => throw NoSuchRepackQueue end.

(** [Clear()] of the pointer: the field stays present, with an empty address. *)
Definition clearRepackQueueAddress (qt : RepackQueueType) : RE unit :=
  _ ← re_writable;
  r ← re_payload;
  match repackqueuepointer qt r with
  | Some _ => re_modify (set_repackqueuepointer qt (Some ""))
  | None => throw NoSuchRepackQueue
  end.

Definition addOrGetRepackQueueAndCommit (qt : RepackQueueType) : RE string :=
  _ ← re_writable;
  catch (getRepackQueueAddress qt)
    (λ e, match e with
          | NoSuchRepackQueue => Some (
              address ← re_nextId (repack_name_header qt);
              _ ← re_modify (set_repackqueuepointer qt (Some address));
              _ ← re_self commit;
              root ← re_self_address;
              rq ← lift (new_child rq_initialize address root root);
              _ ← on_be (exec_on rq insert);
              mret address)
          | _ => None
          end).

Definition removeRepackQueueAndCommit (qt : RepackQueueType) : RE unit :=
  _ ← re_writable;
  r ← re_payload;
  match repackqueuepointer qt r with
  | None => throw NoSuchRepackQueue
  | Some address =>
      opened ← open_or_gone (P := RepackQueue) address;
      _ ← match opened with
          | None => mret tt
          | Some rq =>
              b ← lift (rq_isEmpty rq);
              if negb b then throw RepackQueueNotEmpty
              else _ ← on_be (exec_on rq remove); mret tt
          end;
      _ ← re_modify (set_repackqueuepointer qt None);
      re_self commit
  end.
End RootEntry.
