(* ===== verification/RootEntrySpec.v ===== *)
(** * The root entry as a directory

    Creation, look-up and removal of the queues that the root entry references:
    the fields of pointers as maps from names to addresses, and the writes to the
    store on every branch. *)
From S2P Require Import Prelude DataTypes ValueCountMap Backend ObjectOps Handles ProtoAlgorithms ArchiveQueueShard ArchiveQueue RetrieveActivity RetrieveQueueShard RetrievePlan RetrieveQueue Agent Registers RootEntry.

(** A block of two statements followed by others. *)
Lemma bind_block {S A X} (m : M S X) (n : M S unit) (k : unit → M S A) s s' :
  (_ ← m; n) s = (Ok tt, s') → (_ ← m; x ← n; k x) s = k tt s'.
Proof. unfold mbind, M_bind. destruct (m s) as [[u|e] s1]; [|done]. by intros ->. Qed.

(** ** Directories *)
Abbreviation directory := (assoc_map qp_name qp_address).

Lemma pointers_set_same qt l q : pointers qt (set_pointers qt l q) = l.
Proof. by destruct qt. Qed.
Lemma pointers_set_other qt qt' l q : qt' ≠ qt → pointers qt' (set_pointers qt l q) = pointers qt' q.
Proof. by destruct qt, qt'. Qed.

(** The look-up by name is that of the map. *)
Lemma find_in_directory name l :
  (∃ p, findElement (named name) l = Ok p ∧ directory l !! name = Some (qp_address p)) ∨
  (findElement (named name) l = Throw NotFound ∧ directory l !! name = None).
Proof.
  rewrite assoc_map_lookup. unfold findElement, named. destruct (find_if _ l) as [p|]; [left|right]; eauto.
Qed.

Section RootSpec.
Context {B St : Type} `{!Serializable B (ObjectHeader B), !Backend B St}.
Context `{!Serializable B RootEntry, !Serializable B ArchiveQueue, !Serializable B RetrieveQueue, !Serializable B Agent}.
Context `{!Serializable B DriveRegister, !Serializable B AgentRegister, !Serializable B SchedulerGlobalLock}.
Context `{!Serializable B RepackIndex, !Serializable B RepackQueue}.
Context (dummy : B).
Implicit Types (s : REState B St) (r : RootEntry).

(** The handle of the root entry, locked for writing; it may have been read without
    a lock before. *)
Definition root_handle (noLock : bool) (h : ObjectHeader B) r : ObjectOps B RootEntry :=
  mkOps true root_address h r (mkFlags true true true 1 1 noLock true false).
Definition open_root s r : Prop := ∃ noLock h, re s = root_handle noLock h r ∧ h_type h = RootEntry_t.

(** The root entry is open for writing and holds what the store holds. *)
Record root_state s r : Prop := {
  rs_wf : be_wf (re_be s);
  rs_handle : open_root s r;
  rs_stored : ∃ h, stored (re_be s) root_address = Some (h, r)
}.

(** Objects of the store other than the listed ones. *)
Definition untouched (names : list string) s s' : Prop :=
  ∀ n, n ∉ names → be_view (re_be s') !! n = be_view (re_be s) !! n.

Lemma untouched_trans l1 l2 s1 s2 s3 : untouched l1 s1 s2 → untouched l2 s2 s3 → untouched (l1 ++ l2) s1 s3.
Proof. intros H1 H2 n Hn. apply not_elem_of_app in Hn as [? ?]. by rewrite H2, H1. Qed.

Lemma root_writable s r : root_state s r → re_writable s = (Ok tt, s).
Proof. intros [_ (nl & h & Hh & _) _]. unfold re_writable, mbind, M_bind, gets, lift. by rewrite Hh. Qed.
Lemma root_readable s r : root_state s r → re_readable s = (Ok tt, s).
Proof. intros [_ (nl & h & Hh & _) _]. unfold re_readable, mbind, M_bind, gets, lift. by rewrite Hh. Qed.
Lemma root_payload s r : root_state s r → re_payload s = (Ok r, s).
Proof. intros [_ (nl & h & Hh & _) _]. unfold re_payload, gets. by rewrite Hh. Qed.

Lemma root_exists s r : root_state s r → is_Some (be_view (re_be s) !! root_address).
Proof. intros [_ _ (h & Hst)]. exact (stored_exists _ _ _ Hst). Qed.

Lemma root_own_address s r : root_state s r → re_self_address s = (Ok root_address, s).
Proof. intros [_ (nl & h & Hh & _) _]. unfold re_self_address, mbind, M_bind, gets, lift. by rewrite Hh. Qed.

(** A change in memory followed by a commit, from a state where only other objects
    were written since. *)
Lemma root_update s r f :
  be_wf (re_be s) → open_root s r → is_Some (be_view (re_be s) !! root_address) →
  ∃ s', (_ ← re_modify f; re_self commit) s = (Ok tt, s') ∧ root_state s' (f r) ∧
    re_agent s' = re_agent s ∧ untouched [root_address] s s'.
Proof.
  intros Hwf (nl & h & Hh & Ht) Hex.
  destruct (commit_spec (re_be s) (root_handle nl h (f r)) Hwf) as (be' & E & Hwf' & Hv & Hst); try done.
  { split; [done|]. intros _. split; [done|by left]. }
  exists (mkREState (push_payload (root_handle nl h (f r))) be' (re_agent s)).
  split_and!.
  - unfold re_modify. erewrite bind_ok by reflexivity. unfold re_self. simpl. rewrite Hh.
    exact (f_equal (λ x, let '(r, (o', be')) := x in (r, mkREState o' be' (re_agent s))) E).
  - split; [done| |]; [by eexists nl, _|]. eexists. simpl. by rewrite Hst, decide_True.
  - done.
  - intros n Hn. simpl. rewrite Hv, lookup_insert_ne; [done|]. intros <-. apply Hn. by left.
Qed.

(** A new object owned by the root entry. *)
Lemma insert_child {P} `{!Serializable B P, !Message P} (f : P → P) address owner backup s :
  be_wf (re_be s) → be_view (re_be s) !! address = None →
  let h := mkHeader payloadTypeId 0 owner backup (SerializeAsString (f default_message)) in
  ∃ s', on_be (exec_on (prepared dummy address owner backup (f default_message)) insert) s =
      (Ok (mkOps true address h (f default_message) (mkFlags true true true 0 0 false false false)), s') ∧
    be_wf (re_be s') ∧ re s' = re s ∧ re_agent s' = re_agent s ∧ untouched [address] s s' ∧
    stored (re_be s') address = Some (h, f default_message).
Proof.
  intros Hwf Hn h.
  destruct (insert_prepared dummy address owner backup (f default_message) (re_be s) Hwf Hn)
    as (o' & be' & E & Hwf' & H1 & H2 & H3 & H4 & Hst & Hh & Hv).
  exists (mkREState (re s) be' (re_agent s)). split_and!; try done.
  - unfold on_be. rewrite E. destruct o'. simpl in *. by subst.
  - intros n Hne. simpl. apply Hv. by rewrite not_elem_of_cons in Hne; destruct Hne.
  - simpl. by rewrite Hst, Hh.
Qed.

Lemma untouched_stored {P} `{!Serializable B P, !Message P} l n s s' :
  untouched l s s' → n ∉ l → stored (P:=P) (re_be s') n = stored (re_be s) n.
Proof. intros Hu Hn. by apply stored_frame, Hu. Qed.

(** The root state survives writes to other objects. *)
Lemma root_state_frame l s s' r :
  root_state s r → be_wf (re_be s') → re s' = re s → untouched l s s' → root_address ∉ l → root_state s' r.
Proof.
  intros [Hwf Hh (h & Hst)] Hwf' Hre Hu Hn. split; [done|unfold open_root; by rewrite Hre|]. exists h. by rewrite (untouched_stored l _ s s').
Qed.

(** Addresses made by [nextId] are not empty. *)
Lemma nextId_nonempty t a : fst (nextId t a) ≠ "".
Proof. unfold nextId. simpl. by destruct t. Qed.

(** ** Opening and removing referenced objects *)
Section Opening.
Context {P : Type} `{!Serializable B P, !Message P}.

Lemma lock_and_fetch_ok address (x : ObjectHeader B * P) be :
  be_wf be → address ≠ "" → stored be address = Some x →
  ∃ o, object_at dummy address = Ok o ∧ lock_and_fetch Exclusive o be = (Ok (opened Exclusive address x.1 x.2), be).
Proof.
  intros Hwf Ha Hst. destruct x as [h p]. eexists. split; [by apply object_at_ok|].
  pose proof (open_locked_ok dummy Exclusive address h p be Hwf Ha Hst) as E.
  unfold open_locked in E. by rewrite object_at_ok, bind_lift in E.
Qed.

Lemma open_or_gone_present address (x : ObjectHeader B * P) s :
  be_wf (re_be s) → address ≠ "" → stored (re_be s) address = Some x →
  open_or_gone (P := P) dummy address s = (Ok (Some (opened Exclusive address x.1 x.2)), s).
Proof.
  intros Hwf Ha Hst. destruct (lock_and_fetch_ok address x (re_be s) Hwf Ha Hst) as (o & E1 & E2).
  unfold open_or_gone. rewrite E1, bind_lift. apply catch_ok.
  erewrite bind_ok; [reflexivity|]. unfold on_be. rewrite E2. by destruct s.
Qed.

Lemma open_or_gone_absent address s :
  be_wf (re_be s) → address ≠ "" → be_view (re_be s) !! address = None →
  open_or_gone (P := P) dummy address s = (Ok None, s).
Proof.
  intros Hwf Ha Hn. unfold open_or_gone. rewrite object_at_ok, bind_lift by done.
  pose proof (open_locked_absent dummy (P := P) Exclusive address (re_be s) Hwf Ha Hn) as E.
  unfold open_locked in E. rewrite object_at_ok, bind_lift in E by done.
  unfold catch. erewrite bind_throw; [|unfold on_be; rewrite E; reflexivity]. simpl.
  unfold mbind, M_bind, on_be. simpl. rewrite be_exists_spec by done. rewrite bool_decide_false; [by destruct s|].
  rewrite Hn. by intros [].
Qed.

(** Removal of an object that is open. *)
Lemma remove_open address (x : ObjectHeader B * P) s :
  be_wf (re_be s) → stored (re_be s) address = Some x →
  ∃ o' s', on_be (exec_on (opened Exclusive address x.1 x.2) remove) s = (Ok o', s') ∧
    be_wf (re_be s') ∧ re s' = re s ∧ re_agent s' = re_agent s ∧ untouched [address] s s' ∧
    be_view (re_be s') !! address = None.
Proof.
  intros Hwf Hst.
  destruct (remove_opened address x.1 x.2 (re_be s) Hwf (stored_exists _ _ _ Hst)) as (o' & be' & E & Hwf' & _ & _ & Hv).
  exists o', (mkREState (re s) be' (re_agent s)). split_and!; try done.
  - unfold on_be. by rewrite E.
  - intros n Hn. simpl. rewrite Hv, lookup_delete_ne; [done|]. intros ->. apply Hn. by left.
  - simpl. by rewrite Hv, lookup_delete_eq.
Qed.
End Opening.

(** ** A kind of queue

    Archive and retrieve queues are managed in the same way: what differs is a kind
    (which pointers, how a queue is initialised and read, which exceptions), and
    the operations of both are instances of the same three. *)
Record queue_kind (P : Type) := mkKind {
  k_pointers : RootEntry → list QueuePointer;
  k_update : list QueuePointer → RootEntry → RootEntry;
  k_header : string;
  k_init : string → ObjectOps B P → result (ObjectOps B P);
  k_backup : string → string;
  k_name : ObjectOps B P → M (REState B St) string;
  k_isEmpty : ObjectOps B P → M (REState B St) bool;
  k_missing : exn;
  k_wrong : exn;
  k_notEmpty : exn
}.
Arguments mkKind {P} _ _ _ _ _ _ _ _ _ _.
Arguments k_pointers {P} _ _.
Arguments k_update {P} _ _ _.
Arguments k_header {P} _.
Arguments k_init {P} _ _ _.
Arguments k_backup {P} _ _.
Arguments k_name {P} _ _.
Arguments k_isEmpty {P} _ _.
Arguments k_missing {P} _.
Arguments k_wrong {P} _.
Arguments k_notEmpty {P} _.

Definition archive_kind (qt : JobQueueType) : queue_kind ArchiveQueue := {|
  k_pointers := archiveQueuePointers qt;
  k_update := λ l r, set_archive_queues (set_pointers qt l (archive_queues r)) r;
  k_header := archive_name_header qt;
  k_init := queue_initialize;
  k_backup := λ root, root;
  k_name := λ o, on_archive_queue o getTapePool;
  k_isEmpty := λ o, on_archive_queue o isEmpty;
  k_missing := NoSuchArchiveQueue; k_wrong := WrongArchiveQueue; k_notEmpty := ArchiveQueueNotEmpty |}.
Definition retrieve_kind (qt : JobQueueType) : queue_kind RetrieveQueue := {|
  k_pointers := retrieveQueuePointers qt;
  k_update := λ l r, set_retrieve_queues (set_pointers qt l (retrieve_queues r)) r;
  k_header := retrieve_name_header qt;
  k_init := λ vid, rqueue_initialize vid c_defaultMaxShardSize;
  k_backup := λ _, "root";
  k_name := λ o, on_retrieve_queue o getVid;
  k_isEmpty := λ o, on_retrieve_queue o rqueue_isEmpty;
  k_missing := NoSuchRetrieveQueue; k_wrong := WrongRetrieveQueue; k_notEmpty := RetrieveQueueNotEmpty |}.

Section Kind.
Context {P : Type} `{!Serializable B P, !Message P} (K : queue_kind P).

Definition kind_get (name : string) : M (REState B St) string :=
  _ ← re_readable;
  r ← re_payload;
  match findElement (named name) (k_pointers K r) with
  | Ok p => mret (qp_address p)
  | Throw _ => throw (k_missing K)
  end.
Definition kind_addOrGet (name : string) : M (REState B St) string :=
  _ ← re_writable;
  r ← re_payload;
  match findElement (named name) (k_pointers K r) with
  | Ok p => mret (qp_address p)
  | Throw _ =>
      address ← re_nextId (k_header K +:+ "-" +:+ name);
      _ ← re_modify (λ r, k_update K (k_pointers K r ++ [mkQP address name]) r);
      _ ← re_self commit;
      root ← re_self_address;
      q ← lift (new_child dummy (k_init K name) address root (k_backup K root));
      _ ← on_be (exec_on q insert);
      mret address
  end.
Definition kind_remove (name : string) : M (REState B St) unit :=
  _ ← re_writable;
  r ← re_payload;
  match findElement (named name) (k_pointers K r) with
  | Throw _ => throw (k_missing K)
  | Ok p =>
      opened ← open_or_gone (P := P) dummy (qp_address p);
      _ ← match opened with
          | None => mret tt
          | Some q =>
              found ← k_name K q;
              if decide (found ≠ name) then throw (k_wrong K)
              else
                b ← k_isEmpty K q;
                if negb b then throw (k_notEmpty K)
                else _ ← on_be (exec_on q remove); mret tt
          end;
      _ ← re_modify (λ r, k_update K (removeOccurences (named name) (k_pointers K r)) r);
      re_self commit
  end.

(** What the proofs use of a kind: [new] is the payload of a new queue, [name_of] and
    [is_empty] what the reads return. *)
Context (new : string → P) (name_of : P → string) (is_empty : P → bool).
Record kind_ok : Prop := {
  k_pointers_update l r : k_pointers K (k_update K l r) = l;
  k_init_ok name address owner backup : address ≠ "" →
    new_child dummy (k_init K name) address owner backup = Ok (prepared dummy address owner backup (new name));
  k_name_ok a h q s : k_name K (opened Exclusive a h q) s = (Ok (name_of q), s);
  k_isEmpty_ok a h q s : k_isEmpty K (opened Exclusive a h q) s = (Ok (is_empty q), s);
  k_address name a : fst (nextId (k_header K +:+ "-" +:+ name) a) ≠ root_address;
  k_new name : name_of (new name) = name ∧ is_empty (new name) = true;
  k_backup_ok : k_backup K root_address = root_address
}.
Context (HK : kind_ok).

Definition with_queue name address r : RootEntry := k_update K (k_pointers K r ++ [mkQP address name]) r.
Definition without_queue name r : RootEntry := k_update K (removeOccurences (named name) (k_pointers K r)) r.

Lemma not_root_singleton a : a ≠ root_address → root_address ∉ [a].
Proof. intros. apply not_elem_of_cons. split; [done|apply not_elem_of_nil]. Qed.

Lemma kind_get_ok s r name :
  root_state s r →
  kind_get name s = (match directory (k_pointers K r) !! name with Some a => Ok a | None => Throw (k_missing K) end, s).
Proof.
  intros Hs. unfold kind_get. rewrite (bind_ok _ _ _ _ _ (root_readable _ _ Hs)), (bind_ok _ _ _ _ _ (root_payload _ _ Hs)).
  by destruct (find_in_directory name (k_pointers K r)) as [(p & -> & ->)|[-> ->]].
Qed.

Lemma kind_addOrGet_present s r name a :
  root_state s r → directory (k_pointers K r) !! name = Some a → kind_addOrGet name s = (Ok a, s).
Proof.
  intros Hs Hd. unfold kind_addOrGet. rewrite (bind_ok _ _ _ _ _ (root_writable _ _ Hs)), (bind_ok _ _ _ _ _ (root_payload _ _ Hs)).
  destruct (find_in_directory name (k_pointers K r)) as [(p & -> & Hp)|[_ ?]]; [|congruence]. by simplify_eq.
Qed.

Lemma kind_addOrGet_new s r name :
  root_state s r → directory (k_pointers K r) !! name = None →
  let address := fst (nextId (k_header K +:+ "-" +:+ name) (re_agent s)) in
  be_view (re_be s) !! address = None →
  ∃ s' h, kind_addOrGet name s = (Ok address, s') ∧
    root_state s' (with_queue name address r) ∧ untouched [root_address; address] s s' ∧
    stored (re_be s') address = Some (h, new name) ∧ h_owner h = root_address ∧ h_backupowner h = root_address ∧
    m_agentAddress (re_agent s') = m_agentAddress (re_agent s).
Proof.
  intros Hs Hd address Hnew. pose proof (nextId_nonempty (k_header K +:+ "-" +:+ name) (re_agent s)) as Hne.
  pose proof (k_address HK name (re_agent s)) as Hnr. fold address in Hne, Hnr.
  unfold kind_addOrGet. rewrite (bind_ok _ _ _ _ _ (root_writable _ _ Hs)), (bind_ok _ _ _ _ _ (root_payload _ _ Hs)).
  destruct (find_in_directory name (k_pointers K r)) as [(p & _ & Hp)|[-> _]]; [congruence|].
  set (s1 := mkREState (re s) (re_be s) (snd (nextId (k_header K +:+ "-" +:+ name) (re_agent s)))).
  rewrite (bind_ok _ _ _ address s1) by done.
  destruct (root_update s1 r (with_queue name address)) as (s2 & E2 & Hs2 & Hag2 & Hu2);
    [apply Hs|apply Hs|by apply (root_exists s r)|].
  rewrite (bind_block _ _ _ _ _ E2). rewrite (bind_ok _ _ _ _ _ (root_own_address s2 _ Hs2)), (k_init_ok HK), bind_lift by done.
  destruct (insert_child (λ _, new name) address root_address (k_backup K root_address) s2)
    as (s3 & E3 & Hwf3 & Hre3 & Hag3 & Hu3 & Hst3); [apply Hs2|rewrite Hu2; [done|by apply not_elem_of_cons; split; [|apply not_elem_of_nil]]|].
  rewrite (bind_ok _ _ _ _ _ E3). do 2 eexists. split; [done|].
  assert (untouched [root_address; address] s s3) as Hu by exact (untouched_trans [root_address] [address] s s2 s3 Hu2 Hu3).
  split_and!; [|done|exact Hst3|done|by apply (k_backup_ok HK)|by rewrite Hag3, Hag2].
  apply (root_state_frame [address] s2 s3); [exact Hs2|done|done|done|by apply not_root_singleton].
Qed.

(** The last steps: the reference is dropped and the root entry committed. *)
Lemma drop_reference a s s1 r name :
  root_state s r → be_wf (re_be s1) → re s1 = re s → untouched [a] s s1 → a ≠ root_address → be_view (re_be s1) !! a = None →
  ∃ s', (_ ← re_modify (λ r, k_update K (removeOccurences (named name) (k_pointers K r)) r); re_self commit) s1 = (Ok tt, s') ∧
    root_state s' (without_queue name r) ∧ untouched [a; root_address] s s' ∧ be_view (re_be s') !! a = None ∧
    re_agent s' = re_agent s1.
Proof.
  intros Hs Hwf1 Hre Hu Hl Hg. pose proof (root_state_frame [a] s s1 r Hs Hwf1 Hre Hu (not_root_singleton _ Hl)) as Hs1.
  destruct (root_update s1 r (without_queue name)) as (s2 & E & Hs2 & Hag & Hu2); [done|apply Hs1|by eapply root_exists|].
  exists s2. split_and!; [exact E|done|exact (untouched_trans [a] [root_address] s s1 s2 Hu Hu2)| |done].
  rewrite Hu2; [done|]. apply not_elem_of_cons. split; [done|apply not_elem_of_nil].
Qed.

(** Removal when the object is gone, or is an empty queue of that name. *)
Lemma kind_remove_ok s r name a :
  root_state s r → directory (k_pointers K r) !! name = Some a → a ≠ "" → a ≠ root_address →
  be_view (re_be s) !! a = None ∨ (∃ h q, stored (re_be s) a = Some (h, q) ∧ name_of q = name ∧ is_empty q = true) →
  ∃ s', kind_remove name s = (Ok tt, s') ∧
    root_state s' (without_queue name r) ∧ untouched [a; root_address] s s' ∧ be_view (re_be s') !! a = None ∧
    re_agent s' = re_agent s.
Proof.
  intros Hs Hd Ha Hnr Hcase. unfold kind_remove.
  rewrite (bind_ok _ _ _ _ _ (root_writable _ _ Hs)), (bind_ok _ _ _ _ _ (root_payload _ _ Hs)).
  destruct (find_in_directory name (k_pointers K r)) as [(p & -> & Hp)|[_ ?]]; [|congruence].
  assert (qp_address p = a) as -> by congruence.
  destruct Hcase as [Hgone|(h & q & Hst & Hpool & Hempty)].
  - rewrite (bind_ok _ _ _ _ _ (open_or_gone_absent a s (rs_wf _ _ Hs) Ha Hgone)).
    by apply (drop_reference a s s r name Hs (rs_wf _ _ Hs) eq_refl).
  - rewrite (bind_ok _ _ _ _ _ (open_or_gone_present a (h, q) s (rs_wf _ _ Hs) Ha Hst)).
    destruct (remove_open a (h, q) s (rs_wf _ _ Hs) Hst) as (o' & s1 & E1 & Hwf1 & Hre1 & Hag1 & Hu1 & Hgone1).
    destruct (drop_reference a s s1 r name Hs Hwf1 Hre1 Hu1 Hnr Hgone1) as (s' & E & H'). rewrite Hag1 in H'.
    exists s'. split; [|done]. erewrite bind_ok; [exact E|].
    rewrite (bind_ok _ _ _ _ _ (k_name_ok HK a h q s)), Hpool, decide_False by auto.
    rewrite (bind_ok _ _ _ _ _ (k_isEmpty_ok HK a h q s)), Hempty. simpl. by rewrite (bind_ok _ _ _ _ _ E1).
Qed.

(** Removal refused: the store is not written. *)
Lemma kind_remove_refused s r name a h q :
  root_state s r → directory (k_pointers K r) !! name = Some a → a ≠ "" → stored (re_be s) a = Some (h, q) →
  name_of q ≠ name ∨ is_empty q = false →
  kind_remove name s = (Throw (if decide (name_of q ≠ name) then k_wrong K else k_notEmpty K), s).
Proof.
  intros Hs Hd Ha Hst Hbad. unfold kind_remove.
  rewrite (bind_ok _ _ _ _ _ (root_writable _ _ Hs)), (bind_ok _ _ _ _ _ (root_payload _ _ Hs)).
  destruct (find_in_directory name (k_pointers K r)) as [(p & -> & Hp)|[_ ?]]; [|congruence].
  assert (qp_address p = a) as -> by congruence.
  rewrite (bind_ok _ _ _ _ _ (open_or_gone_present a (h, q) s (rs_wf _ _ Hs) Ha Hst)). apply bind_throw.
  rewrite (bind_ok _ _ _ _ _ (k_name_ok HK a h q s)). destruct (decide (name_of q ≠ name)) as [|Hn]; [done|].
  rewrite (bind_ok _ _ _ _ _ (k_isEmpty_ok HK a h q s)). destruct Hbad as [?| ->]; [tauto|]. done.
Qed.
Lemma kind_remove_missing s r name :
  root_state s r → directory (k_pointers K r) !! name = None → kind_remove name s = (Throw (k_missing K), s).
Proof.
  intros Hs Hd. unfold kind_remove.
  rewrite (bind_ok _ _ _ _ _ (root_writable _ _ Hs)), (bind_ok _ _ _ _ _ (root_payload _ _ Hs)).
  destruct (find_in_directory name (k_pointers K r)) as [(p & _ & ?)|[-> _]]; [congruence|done].
Qed.
End Kind.
End RootSpec.
Arguments k_pointers {B St P} _ _.
Arguments k_update {B St P} _ _ _.
Arguments k_header {B St P} _.
Arguments k_missing {B St P} _.
Arguments k_wrong {B St P} _.
Arguments k_notEmpty {B St P} _.
Arguments with_queue {B St P} _ _ _ _.
Arguments without_queue {B St P} _ _ _.
