(* ===== verification/RootEntryTheorems.v ===== *)
(** * Properties of the root entry

    The directory of queues, for archive and retrieve queues, and the creation of
    the agent register after an interrupted attempt; witnesses in the file system
    backend. *)
From S2P Require Import Prelude DataTypes ValueCountMap Backend ObjectOps Handles ProtoAlgorithms ArchiveQueueShard ArchiveQueue RetrieveActivity RetrieveQueueShard RetrievePlan RetrieveQueue Agent Registers RootEntry RootEntrySpec.

(** A queue as it is created. *)
Definition new_archive_queue (tapePool : string) : ArchiveQueue := mkArchiveQueue tapePool [] [] [] [] 0 0 0 0.
Definition new_retrieve_queue (v : string) : RetrieveQueue :=
  mkRetrieveQueue v [] [] [] [] [] 0 0 0 0 c_defaultMaxShardSize None None None.
Definition archive_isEmpty (q : ArchiveQueue) : bool := bool_decide (archivequeueshards q = []).
Definition retrieve_isEmpty (q : RetrieveQueue) : bool :=
  bool_decide (retrievejobstotalsize q = 0) && bool_decide (retrievequeueshards q = []).

Section RootTheorems.
Context {B St : Type} `{!Serializable B (ObjectHeader B), !Backend B St}.
Context `{!Serializable B RootEntry, !Serializable B ArchiveQueue, !Serializable B RetrieveQueue, !Serializable B Agent}.
Context `{!Serializable B DriveRegister, !Serializable B AgentRegister, !Serializable B SchedulerGlobalLock}.
Context `{!Serializable B RepackIndex, !Serializable B RepackQueue}.
Context (dummy : B).
Implicit Types (s : REState B St) (r : RootEntry).

Lemma archive_kind_ok qt :
  kind_ok dummy (archive_kind (B:=B) (St:=St) qt) new_archive_queue tapepool archive_isEmpty.
Proof.
  split; try done.
  - intros l r. apply pointers_set_same.
  - intros name address owner backup Ha. unfold new_child. by rewrite object_at_ok.
Qed.
Lemma retrieve_kind_ok qt :
  kind_ok dummy (retrieve_kind (B:=B) (St:=St) qt) new_retrieve_queue vid retrieve_isEmpty.
Proof.
  split; try done.
  - intros l r. apply pointers_set_same.
  - intros name address owner backup Ha. unfold new_child. by rewrite object_at_ok.
Qed.

(** The promise of creation and look-up for one kind of queue. *)
Definition creates {P} `{!Serializable B P, !Message P} (K : queue_kind (B:=B) (St:=St) P) (new : string → P) (name : string)
    (add get : M (REState B St) string) s r : Prop :=
  match directory (k_pointers K r) !! name with
  | Some a => add s = (Ok a, s) ∧ get s = (Ok a, s)
  | None =>
      get s = (Throw (k_missing K), s) ∧
      let a := fst (nextId (k_header K +:+ "-" +:+ name) (re_agent s)) in
      be_view (re_be s) !! a = None →
      ∃ s' h, add s = (Ok a, s') ∧ root_state s' (with_queue K name a r) ∧
        directory (k_pointers K (with_queue K name a r)) = <[name := a]> (directory (k_pointers K r)) ∧
        stored (re_be s') a = Some (h, new name) ∧ h_owner h = root_address ∧ h_backupowner h = root_address ∧
        untouched [root_address; a] s s' ∧ get s' = (Ok a, s')
  end.

Lemma kind_creates {P} `{!Serializable B P, !Message P} (K : queue_kind (B:=B) (St:=St) P) new name_of is_empty name s r :
  kind_ok dummy K new name_of is_empty → root_state s r → creates K new name (kind_addOrGet dummy K name) (kind_get K name) s r.
Proof.
  intros HK Hs. unfold creates. destruct (directory (k_pointers K r) !! name) as [a|] eqn:Hd.
  - split; [by eapply kind_addOrGet_present|]. by rewrite (kind_get_ok K s r), Hd.
  - split; [by rewrite (kind_get_ok K s r), Hd|]. intros Hn.
    set (a := (nextId (k_header K +:+ "-" +:+ name) (re_agent s)).1) in *.
    destruct (kind_addOrGet_new dummy K new name_of is_empty HK s r name Hs Hd Hn) as (s' & h & E & Hs' & Hu & Hst & Ho & Hb & _).
    assert (directory (k_pointers K (with_queue K name a r)) = <[name := a]> (directory (k_pointers K r))) as Hdir.
    { unfold with_queue. rewrite (k_pointers_update _ _ _ _ _ HK). exact (assoc_map_snoc _ _ _ (mkQP a name) Hd). }
    exists s', h. split_and!; try done. rewrite (kind_get_ok K s' _ name Hs'). fold a. by rewrite Hdir, lookup_insert_eq.
Qed.

(** C34: The root entry is a directory of queues.  Looking up a queue that is
    referenced, or asking for its creation, returns its address and changes
    nothing; looking up one that is not is refused.  Creation gives a fresh address:
    the root entry is committed with exactly one reference more, an empty queue
    object owned by the root entry is stored there, no other object is touched,
    and the queue is then found.  This holds for archive queues by tape pool and
    for retrieve queues by tape, for each of the six queue types. *)
Theorem queue_directory_create name qt s r :
  root_state s r →
  creates (archive_kind qt) new_archive_queue name
    (addOrGetArchiveQueueAndCommit dummy name qt) (getArchiveQueueAddress name qt) s r ∧
  creates (retrieve_kind qt) new_retrieve_queue name
    (addOrGetRetrieveQueueAndCommit dummy name qt) (getRetrieveQueueAddress name qt) s r.
Proof.
  intros Hs. split.
  - exact (kind_creates (archive_kind qt) _ _ _ name s r (archive_kind_ok qt) Hs).
  - exact (kind_creates (retrieve_kind qt) _ _ _ name s r (retrieve_kind_ok qt) Hs).
Qed.

(** The object and the reference are gone, and nothing else changed. *)
Definition removed {P} (K : queue_kind (B:=B) (St:=St) P) (name a : string) (remove : M (REState B St) unit) s r : Prop :=
  ∃ s', remove s = (Ok tt, s') ∧ root_state s' (without_queue K name r) ∧
    directory (k_pointers K (without_queue K name r)) = delete name (directory (k_pointers K r)) ∧
    be_view (re_be s') !! a = None ∧ untouched [a; root_address] s s'.

(** The promise of removal for one kind of queue. *)
Definition deletes {P} `{!Serializable B P, !Message P} (K : queue_kind (B:=B) (St:=St) P) (name_of : P → string) (is_empty : P → bool)
    (name : string) (remove : M (REState B St) unit) s r : Prop :=
  match directory (k_pointers K r) !! name with
  | None => remove s = (Throw (k_missing K), s)
  | Some a =>
      a ≠ "" → a ≠ root_address →
      (be_view (re_be s) !! a = None → removed K name a remove s r) ∧
      ∀ h q, stored (re_be s) a = Some (h, q) →
        if decide (name_of q ≠ name) then remove s = (Throw (k_wrong K), s)
        else if is_empty q then removed K name a remove s r else remove s = (Throw (k_notEmpty K), s)
  end.

Lemma kind_deletes {P} `{!Serializable B P, !Message P} (K : queue_kind (B:=B) (St:=St) P) new name_of is_empty name s r :
  kind_ok dummy K new name_of is_empty → root_state s r → NoDup (qp_name <$> k_pointers K r) →
  deletes K name_of is_empty name (kind_remove dummy K name) s r.
Proof.
  intros HK Hs Hnd. unfold deletes. destruct (directory (k_pointers K r) !! name) as [a|] eqn:Hd; [|by eapply kind_remove_missing].
  intros Ha Hr.
  assert (be_view (re_be s) !! a = None ∨ (∃ h q, stored (re_be s) a = Some (h, q) ∧ name_of q = name ∧ is_empty q = true) →
    removed K name a (kind_remove dummy K name) s r) as Hok.
  { intros Hc. destruct (kind_remove_ok dummy K new name_of is_empty HK s r name a Hs Hd Ha Hr Hc) as (s' & E & Hs' & Hu & Hg & _).
    exists s'. split_and!; try done. unfold without_queue. rewrite (k_pointers_update _ _ _ _ _ HK).
    by apply (assoc_map_removed qp_name qp_address). }
  split; [by intros; apply Hok; left|]. intros h q Hst.
  destruct (decide (name_of q ≠ name)) as [Hne|He].
  - rewrite (kind_remove_refused dummy K new name_of is_empty HK s r name a h q Hs Hd Ha Hst); [|by left].
    by rewrite decide_True.
  - assert (name_of q = name) by (destruct (decide (name_of q = name)); tauto). destruct (is_empty q) eqn:Eq.
    + apply Hok. right. by exists h, q.
    + rewrite (kind_remove_refused dummy K new name_of is_empty HK s r name a h q Hs Hd Ha Hst); [|by right].
      by rewrite decide_False.
Qed.

(** C35: Removal of a queue from the root entry, on every branch: without a
    reference it is refused; when the object has disappeared the reference is
    dropped; when the object is the queue of another name, or holds jobs, the
    removal is refused and nothing is written; when it is an empty queue the object
    is deleted and the reference dropped, and no other object or reference
    changes.  This holds for archive and retrieve queues of each type. *)
Theorem queue_directory_remove name qt s r :
  root_state s r → NoDup (qp_name <$> archiveQueuePointers qt r) → NoDup (qp_name <$> retrieveQueuePointers qt r) →
  deletes (archive_kind qt) tapepool archive_isEmpty name (removeArchiveQueueAndCommit dummy name qt) s r ∧
  deletes (retrieve_kind qt) vid retrieve_isEmpty name (removeRetrieveQueueAndCommit dummy name qt) s r.
Proof.
  intros Hs Ha Hr. split.
  - exact (kind_deletes (archive_kind qt) _ _ _ name s r (archive_kind_ok qt) Hs Ha).
  - exact (kind_deletes (retrieve_kind qt) _ _ _ name s r (retrieve_kind_ok qt) Hs Hr).
Qed.

(** ** The agent register *)
Lemma stored_type {P} `{!Serializable B P, !Message P} be name h (p : P) :
  stored be name = Some (h, p) → h_type h = @payloadTypeId P _.
Proof. unfold stored. repeat case_match; try done. intros [= <- <-]. done. Qed.

Lemma root_fetch s r : root_state s r → ∃ s', re_self fetch s = (Ok tt, s') ∧ root_state s' r ∧ re_be s' = re_be s ∧ re_agent s' = re_agent s.
Proof.
  intros [Hwf (nl & h & Hh & Ht) (h' & Hst)].
  pose proof (fetch_spec (re_be s) h' r (re s) Hwf ltac:(by rewrite Hh) ltac:(by rewrite Hh) ltac:(by rewrite Hh)) as E.
  eexists. unfold re_self. rewrite E. split; [done|]. split; [|done]. split; [done| |by exists h'].
  exists nl, h'. rewrite Hh. split; [done|]. exact (stored_type _ _ _ _ Hst).
Qed.

Lemma bind_same {A C} (m n : M (REState B St) A) (k : A → M (REState B St) C) s : m s = n s → (m ≫= k) s = (n ≫= k) s.
Proof. unfold mbind, M_bind. by intros ->. Qed.

Lemma exists_on_be i s : be_wf (re_be s) → on_be (be_exists i) s = (Ok (bool_decide (is_Some (be_view (re_be s) !! i))), s).
Proof. intros Hwf. unfold on_be. rewrite be_exists_spec by done. by destruct s. Qed.

(** Without a usable previous intent, the new one is recorded. *)
Lemma addIntended_ok s r address :
  root_state s r → address_of (agentregisterpointer r) = None →
  (∀ i, nonempty (agentregisterintent r) = Some i → be_view (re_be s) !! i = None) →
  addIntendedAgentRegistry dummy address s = re_modify (set_agentregisterintent (Some address)) s.
Proof.
  intros Hs Hp Hi. unfold addIntendedAgentRegistry.
  rewrite (bind_ok _ _ _ _ _ (root_writable _ _ Hs)), (bind_ok _ _ _ _ _ (root_payload _ _ Hs)), Hp.
  destruct (nonempty (agentregisterintent r)) as [i|] eqn:Ei; [|done].
  erewrite bind_ok; [reflexivity|]. rewrite (bind_ok _ _ _ _ _ (exists_on_be i s (rs_wf _ _ Hs))).
  rewrite bool_decide_false by (rewrite Hi by done; by intros []). done.
Qed.

(** With one, the clean-up fetches an object that is not locked. *)
Lemma addIntended_stuck s r address i :
  root_state s r → address_of (agentregisterpointer r) = None →
  nonempty (agentregisterintent r) = Some i → is_Some (be_view (re_be s) !! i) →
  addIntendedAgentRegistry dummy address s = (Throw NotLocked, s).
Proof.
  intros Hs Hp Ei Hex. unfold addIntendedAgentRegistry.
  rewrite (bind_ok _ _ _ _ _ (root_writable _ _ Hs)), (bind_ok _ _ _ _ _ (root_payload _ _ Hs)), Hp, Ei. apply bind_throw.
  rewrite (bind_ok _ _ _ _ _ (exists_on_be i s (rs_wf _ _ Hs))).
  rewrite bool_decide_true by done. simpl. rewrite object_at_ok; [|intros ->; unfold nonempty in Ei; repeat case_match; by simplify_eq].
  rewrite bind_lift. apply bind_throw. by destruct s.
Qed.

(** A new object, locked, then handed over to the root entry. *)
Lemma lock_new {P} `{!Serializable B P, !Message P} address h (p : P) s :
  be_wf (re_be s) → address ≠ "" → is_Some (be_view (re_be s) !! address) →
  on_be (exec_on (mkOps true address h p (mkFlags true true true 0 0 false false false))
    (_ ← lock (mkLock Exclusive false); mret tt)) s = (Ok (opened Exclusive address h p), s).
Proof.
  intros Hwf Ha Hex. unfold on_be, exec_on, run_on, lock, checkObjectAndAddressSet.
  unfold mbind at 1, M_bind at 1. unfold mbind, M_bind, lift, self, set_self, on_store, gets, modify. simpl.
  rewrite bool_decide_false by done. simpl. rewrite be_lock_ok by done. simpl. by destruct s.
Qed.
Lemma commit_child {P} `{!Serializable B P, !Message P} address h (p : P) s :
  be_wf (re_be s) → is_Some (be_view (re_be s) !! address) → h_type h = @payloadTypeId P _ →
  ∃ o s', on_be (exec_on (opened Exclusive address h p) commit) s = (Ok o, s') ∧ be_wf (re_be s') ∧ re s' = re s ∧
    stored (re_be s') address = Some (mkHeader (h_type h) (h_version h) (h_owner h) (h_backupowner h) (SerializeAsString p), p) ∧
    untouched [address] s s'.
Proof.
  intros Hwf Hex Ht. destruct (commit_opened address h p (re_be s) Hwf Hex Ht) as (be' & E & Hwf' & Hst & Hv).
  exists (push_payload (opened Exclusive address h p)), (mkREState (re s) be' (re_agent s)). split_and!; try done.
  - unfold on_be. by rewrite E.
  - intros n Hn. simpl. apply Hv. by rewrite not_elem_of_cons in Hn; destruct Hn.
Qed.

Definition with_agent_register (address : string) (log : EntryLog) r : RootEntry :=
  set_agentregisterintent (Some "") (set_agentregisterpointer (Some (mkRP address (EntryLog_serialize log))) r).

Lemma new_agent_register address :
  address ≠ "" → new_child dummy ar_initialize address "" "" = Ok (prepared dummy address "" "" (mkAgentRegister [] [])).
Proof. intros Ha. unfold new_child. by rewrite object_at_ok. Qed.

Lemma singleton_ne (a b : string) : a ≠ b → a ∉ [b].
Proof. intros. apply not_elem_of_cons. split; [done|apply not_elem_of_nil]. Qed.

(** From the recorded intent to the end. *)
Lemma finish_agent_register s r address log :
  root_state s r → address ≠ "" → address ≠ root_address → be_view (re_be s) !! address = None →
  ∃ s' h, (ar ← lift (new_child dummy ar_initialize address "" "");
           ar1 ← on_be (exec_on ar insert);
           ar2 ← on_be (exec_on ar1 (_ ← lock (mkLock Exclusive false); mret tt));
           _ ← re_modify (λ r, set_agentregisterintent (Some "")
                 (set_agentregisterpointer (Some (mkRP address (EntryLog_serialize log))) r));
           _ ← re_self commit;
           root ← re_self_address;
           ar3 ← lift (set_owners root root ar2);
           _ ← on_be (exec_on ar3 commit);
           mret address) s = (Ok address, s') ∧
    root_state s' (with_agent_register address log r) ∧ untouched [root_address; address] s s' ∧
    stored (re_be s') address = Some (h, mkAgentRegister [] []) ∧ h_owner h = root_address ∧ h_backupowner h = root_address.
Proof.
  intros Hs Ha Hr Hn. rewrite new_agent_register, bind_lift by done.
  destruct (insert_child dummy (λ _, mkAgentRegister [] []) address "" "" s (rs_wf _ _ Hs) Hn) as (s1 & E1 & Hwf1 & Hre1 & _ & Hu1 & Hst1).
  rewrite (bind_ok _ _ _ _ _ E1). pose proof (stored_exists _ _ _ Hst1) as Hex1.
  rewrite (bind_ok _ _ _ _ _ (lock_new address _ _ s1 Hwf1 Ha Hex1)).
  assert (root_state s1 r) as Hs1 by (apply (root_state_frame [address] s s1 r Hs Hwf1 Hre1 Hu1); by apply singleton_ne).
  destruct (root_update s1 r (with_agent_register address log)) as (s2 & E2 & Hs2 & _ & Hu2);
    [done|apply Hs1|by eapply root_exists|].
  rewrite (bind_block _ _ _ _ _ E2). rewrite (bind_ok _ _ _ _ _ (root_own_address s2 _ Hs2)).
  assert (is_Some (be_view (re_be s2) !! address)) as Hex2 by (rewrite Hu2; [done|by apply singleton_ne]).
  match goal with |- context [opened Exclusive address ?h0 ?p] =>
    set (h2 := mkHeader (h_type h0) (h_version h0) root_address root_address (h_payload h0));
    assert (set_owners root_address root_address (opened Exclusive address h0 p) = Ok (opened Exclusive address h2 p)) as -> by done
  end.
  rewrite bind_lift.
  destruct (commit_child address h2 (mkAgentRegister [] []) s2 (rs_wf _ _ Hs2) Hex2) as (o & s3 & E3 & Hwf3 & Hre3 & Hst3 & Hu3); [done|].
  rewrite (bind_ok _ _ _ _ _ E3). do 2 eexists. split; [done|]. split_and!; [|..|exact Hst3|done|done].
  - apply (root_state_frame [address] s2 s3); try done. by apply singleton_ne.
  - intros n Hnn. apply not_elem_of_cons in Hnn as [Hn1 Hn2]. rewrite Hu3, Hu2, Hu1; try done. by apply singleton_ne.
Qed.

(** Getting the agent register from the root entry, on every branch.  When it
    is referenced its address is returned and nothing changes.  Otherwise, when no
    object is left from an earlier attempt, an empty register owned by the root
    entry is created, referenced with the log given, and the intent is cleared.
    But when an earlier attempt was interrupted after the object was created, every
    call fails with [NotLocked] and leaves the store as it is, so the agent
    register can never be created: the clean-up fetches the abandoned object
    without locking it. *)
Lemma agent_register_creation log s r :
  root_state s r →
  match address_of (agentregisterpointer r) with
  | Some a => addOrGetAgentRegisterPointerAndCommit dummy log s = (Ok a, s)
  | None =>
      (∀ i, nonempty (agentregisterintent r) = Some i → is_Some (be_view (re_be s) !! i) →
        ∃ s', addOrGetAgentRegisterPointerAndCommit dummy log s = (Throw NotLocked, s') ∧ re_be s' = re_be s) ∧
      let a := fst (nextId "AgentRegister" (re_agent s)) in
      be_view (re_be s) !! a = None →
      (∀ i, nonempty (agentregisterintent r) = Some i → be_view (re_be s) !! i = None) →
      ∃ s' h, addOrGetAgentRegisterPointerAndCommit dummy log s = (Ok a, s') ∧
        root_state s' (with_agent_register a log r) ∧ untouched [root_address; a] s s' ∧
        stored (re_be s') a = Some (h, mkAgentRegister [] []) ∧ h_owner h = root_address ∧ h_backupowner h = root_address
  end.
Proof.
  intros Hs. unfold addOrGetAgentRegisterPointerAndCommit, or_allocate.
  assert (getAgentRegisterAddress s = (match address_of (agentregisterpointer r) with Some a => Ok a | None => Throw NotAllocated end, s)) as Eg.
  { unfold getAgentRegisterAddress. rewrite (bind_ok _ _ _ _ _ (root_readable _ _ Hs)), (bind_ok _ _ _ _ _ (root_payload _ _ Hs)).
    by destruct (address_of _). }
  unfold catch. rewrite Eg. destruct (address_of (agentregisterpointer r)) as [a|] eqn:Ep; [done|].
  unfold create_agent_register. rewrite (bind_ok _ _ _ _ _ (root_writable _ _ Hs)).
  destruct (root_fetch s r Hs) as (s1 & E1 & Hs1 & Hbe & Hag). rewrite (bind_ok _ _ _ _ _ E1), (bind_ok _ _ _ _ _ (root_payload _ _ Hs1)), Ep.
  set (s2 := mkREState (re s1) (re_be s1) (snd (nextId "AgentRegister" (re_agent s1)))).
  rewrite (bind_ok _ _ _ (fst (nextId "AgentRegister" (re_agent s1))) s2) by done. rewrite Hag.
  assert (root_state s2 r) as Hs2 by (split; apply Hs1).
  split.
  - intros i Hi Hex. exists s2. split; [|done]. apply bind_throw. eapply addIntended_stuck; [exact Hs2|done..|].
    simpl. by rewrite Hbe.
  - set (a := fst (nextId "AgentRegister" (re_agent s))) in *. intros Hn Hi.
    assert (a ≠ "" ∧ a ≠ root_address) as [Ha Hr] by (split; [apply nextId_nonempty|done]).
    rewrite (bind_same _ _ _ s2 (addIntended_ok s2 r a Hs2 Ep ltac:(simpl; by rewrite Hbe))).
    destruct (root_update s2 r (set_agentregisterintent (Some a))) as (s3 & E3 & Hs3 & _ & Hu3);
      [apply Hs2|apply Hs2|by eapply root_exists|].
    rewrite (bind_block _ _ _ _ _ E3).
    destruct (finish_agent_register s3 _ a log Hs3 Ha Hr) as (s4 & h & E4 & Hs4 & Hu4 & Hst4 & Ho & Hb).
    { rewrite Hu3; [simpl; by rewrite Hbe|by apply singleton_ne]. }
    exists s4, h. split; [exact E4|]. split_and!; try done.
    intros n Hnn. rewrite Hu4 by done. apply not_elem_of_cons in Hnn as [Hn1 _]. rewrite Hu3 by by apply singleton_ne.
    simpl. by rewrite Hbe.
Qed.
End RootTheorems.
