(* ===== verification/RootEntryExamples.v ===== *)
(** * A root entry in the file system backend

    A store with a root entry that references one archive queue, and witnesses of
    the properties of the root entry. *)
From S2P Require Import Prelude DataTypes ValueCountMap Backend ObjectOps Handles ProtoAlgorithms ArchiveQueueShard ArchiveQueue RetrieveActivity RetrieveQueueShard RetrievePlan RetrieveQueue Agent Registers RootEntry RootEntrySpec RootEntryTheorems.
Import Blob.

Inductive root_msg :=
  | MRoot (m : RootEntry) | MArchive (m : ArchiveQueue) | MRetrieve (m : RetrieveQueue) | MAgent (m : Agent)
  | MDrives (m : DriveRegister) | MAgents (m : AgentRegister) | MLock (m : SchedulerGlobalLock)
  | MIndex (m : RepackIndex) | MRepack (m : RepackQueue).

#[export] Instance OneOf_root : OneOf root_msg RootEntry := {|
  inj_msg := MRoot; proj_msg m := match m with MRoot x => Some x | _ => None end; proj_inj p := eq_refl |}.
#[export] Instance OneOf_archive : OneOf root_msg ArchiveQueue := {|
  inj_msg := MArchive; proj_msg m := match m with MArchive x => Some x | _ => None end; proj_inj p := eq_refl |}.
#[export] Instance OneOf_retrieve : OneOf root_msg RetrieveQueue := {|
  inj_msg := MRetrieve; proj_msg m := match m with MRetrieve x => Some x | _ => None end; proj_inj p := eq_refl |}.
#[export] Instance OneOf_agent : OneOf root_msg Agent := {|
  inj_msg := MAgent; proj_msg m := match m with MAgent x => Some x | _ => None end; proj_inj p := eq_refl |}.
#[export] Instance OneOf_drives : OneOf root_msg DriveRegister := {|
  inj_msg := MDrives; proj_msg m := match m with MDrives x => Some x | _ => None end; proj_inj p := eq_refl |}.
#[export] Instance OneOf_agents : OneOf root_msg AgentRegister := {|
  inj_msg := MAgents; proj_msg m := match m with MAgents x => Some x | _ => None end; proj_inj p := eq_refl |}.
#[export] Instance OneOf_lock : OneOf root_msg SchedulerGlobalLock := {|
  inj_msg := MLock; proj_msg m := match m with MLock x => Some x | _ => None end; proj_inj p := eq_refl |}.
#[export] Instance OneOf_index : OneOf root_msg RepackIndex := {|
  inj_msg := MIndex; proj_msg m := match m with MIndex x => Some x | _ => None end; proj_inj p := eq_refl |}.
#[export] Instance OneOf_repack : OneOf root_msg RepackQueue := {|
  inj_msg := MRepack; proj_msg m := match m with MRepack x => Some x | _ => None end; proj_inj p := eq_refl |}.

Abbreviation content := (blob root_msg).
Definition no_content : content := BMsg (MAgents (mkAgentRegister [] [])).

(** One archive queue is referenced, and an attempt to create the agent register
    was interrupted when [abandoned] holds. *)
Definition ex_root (intent : option string) : RootEntry :=
  mkRoot (mkQPs [mkQP "aq" "pool"] [] [] [] [] []) no_queues None None None None None intent None.
Definition ex_root_store (intent : option string) : VFS.vfs content :=
  VFS.mkVfs (<["root" := BHdr RootEntry_t 0 "root" "root" (BMsg (MRoot (ex_root intent)))]>
    (<["aq" := BHdr ArchiveQueue_t 0 "root" "root" (BMsg (MArchive (new_archive_queue "pool")))]>
    {["abandoned" := BHdr AgentRegister_t 0 "" "" (BMsg (MAgents (mkAgentRegister [] [])))]})) {["root"; "aq"; "abandoned"]}.
Definition ex_root_state (intent : option string) : REState content (VFS.vfs content) :=
  mkREState (opened Exclusive "root" (mkHeader RootEntry_t 0 "root" "root" (BMsg (MRoot (ex_root intent)))) (ex_root intent))
    (ex_root_store intent) (mkAgent "agent" 0).

Lemma ex_root_ok intent : root_state (ex_root_state intent) (ex_root intent).
Proof. split; [by vm_compute|by eexists false, _|by eexists]. Qed.

Definition ex_log : EntryLog := mkEntryLog "u" "h" 0.

(** Two queues are created next to the one that exists, and one is removed. *)
Example ex_root_session :
  fst ((_ ← addOrGetArchiveQueueAndCommit no_content "other" JobsToTransferForUser;
        a ← addOrGetRetrieveQueueAndCommit no_content "V01" FailedJobs;
        _ ← removeArchiveQueueAndCommit no_content "pool" JobsToTransferForUser;
        l ← dumpArchiveQueues JobsToTransferForUser;
        d ← addOrGetAgentRegisterPointerAndCommit no_content ex_log;
        mret (a, l, d)) (ex_root_state None)) =
  Ok ("RetrieveQueueFailed-V01-agent-1", [("ArchiveQueueToTransferForUser-other-agent-0", "other")], "AgentRegister-agent-2").
Proof. vm_compute. reflexivity. Qed.

Lemma queue_directory_create_witness :
  creates (archive_kind JobsToTransferForUser) new_archive_queue "new"
    (addOrGetArchiveQueueAndCommit no_content "new" JobsToTransferForUser)
    (getArchiveQueueAddress "new" JobsToTransferForUser) (ex_root_state None) (ex_root None).
Proof. exact (proj1 (queue_directory_create no_content "new" JobsToTransferForUser (ex_root_state None) (ex_root None) (ex_root_ok None))). Defined.

Lemma queue_directory_remove_witness :
  deletes (archive_kind JobsToTransferForUser) tapepool archive_isEmpty "pool"
    (removeArchiveQueueAndCommit no_content "pool" JobsToTransferForUser) (ex_root_state None) (ex_root None).
Proof.
  refine (proj1 (queue_directory_remove no_content "pool" JobsToTransferForUser (ex_root_state None) (ex_root None) (ex_root_ok None) _ _));
    by apply (bool_decide_unpack _).
Defined.

Lemma agent_register_creation_witness :
  ∃ s', addOrGetAgentRegisterPointerAndCommit no_content ex_log (ex_root_state (Some "abandoned")) = (Throw NotLocked, s') ∧
    re_be s' = ex_root_store (Some "abandoned").
Proof.
  refine (proj1 (agent_register_creation no_content ex_log (ex_root_state (Some "abandoned")) (ex_root (Some "abandoned"))
    (ex_root_ok (Some "abandoned"))) "abandoned" eq_refl _).
  by eexists.
Defined.
