(* ===== verification/AgentLife.v ===== *)
(** * Registration of agents and collection of the registers

    Models of [Agent::insertAndRegisterSelf], [removeAndUnregisterSelf] and
    [garbageCollect] ([objectstore/Agent.cpp]) and of the [garbageCollect] methods
    of [AgentRegister.cpp], [DriveRegister.cpp] and [SchedulerGlobalLock.cpp]: the
    methods of objects that look at the root entry. *)
From S2P Require Import Prelude DataTypes Backend ObjectOps Handles ProtoAlgorithms Agent Registers RootEntry.

Section AgentLife.
Context {B St : Type} `{!Serializable B (ObjectHeader B), !Backend B St}.
Context `{!Serializable B RootEntry, !Serializable B Agent, !Serializable B AgentRegister}.
Context `{!Serializable B DriveRegister, !Serializable B SchedulerGlobalLock}.
(** The header bytes of a handle before anything is read; never looked at. *)
Context (dummy : B).

(** Read from a handle of the root entry. *)
Definition on_root {A} (o : ObjectOps B RootEntry) (m : M (REState B St) A) : M St A := λ s,
  let '(r, s') := m (mkREState o s (mkAgent "" 0)) in (r, re_be s').

(** [RootEntry re; ScopedSharedLock l(re); re.fetch(); re.getAgentRegisterAddress()]. *)
Definition register_address : M St string :=
  root ← open_locked dummy Shared root_address; on_root root getAgentRegisterAddress.

(** [RootEntry re; re.fetchNoLock(); re.getAgentRegisterAddress()]. *)
Definition register_address_noLock : M St string :=
  root0 ← lift (object_at dummy root_address);
  root ← exec_on root0 fetchNoLock;
  on_root root getAgentRegisterAddress.

(** Open the agent register, change it, commit. *)
Definition update_register (address : string) (f : ObjectOps B AgentRegister → result (ObjectOps B AgentRegister)) : M St unit :=
  ar ← open_locked dummy Exclusive address;
  ar1 ← lift (f ar);
  _ ← exec_on ar1 commit; mret tt.

Abbreviation AG := (M (HState B Agent St)).
Definition change_self {P} (f : ObjectOps B P → result (ObjectOps B P)) : M (HState B P St) unit :=
  o ← self; o' ← lift (f o); set_self o'.
Definition own_address {P} : M (HState B P St) string := o ← self; lift (getAddressIfSet o).

Definition insertAndRegisterSelf : AG unit :=
  address ← on_store register_address;
  name ← own_address;
  _ ← on_store (update_register address (addAgent name));
  _ ← change_self (setBackupOwner address);
  _ ← change_self (setOwner address);
  insert.

Definition removeAndUnregisterSelf : AG unit :=
  o ← self;
  _ ← lift (checkPayloadWritable o);
  b ← lift (agent_isEmpty o);
  if negb b then throw AgentStillOwnsObjects
  else
    _ ← remove;
    address ← on_store register_address_noLock;
    name ← own_address;
    on_store (update_register address (removeAgent name)).

Definition agent_garbageCollect (presumedOwner : string) : AG unit :=
  o ← self;
  _ ← lift (checkPayloadWritable o);
  if decide (h_owner (m_header o) = presumedOwner) then
    address ← on_store register_address;
    name ← own_address;
    _ ← on_store (update_register address (untrackAgent name));
    _ ← change_self (setOwner address);
    commit
  else mret tt.

Definition ar_garbageCollect : M (HState B AgentRegister St) unit :=
  o ← self;
  _ ← lift (checkPayloadWritable o);
  b ← lift (ar_isEmpty o);
  if negb b then throw NotEmpty else remove.

(** The collection of an object created for the agent and referenced by the root
    entry, or not: shared by the drive register and the scheduler lock. *)
Definition collect_owned {P} `{!Serializable B P, !Message P} (get : M (REState B St) string)
    (isEmpty : ObjectOps B P → result bool) (presumedOwner : string) : M (HState B P St) unit :=
  o ← self;
  _ ← lift (checkPayloadWritable o);
  if decide (presumedOwner ≠ h_owner (m_header o)) then mret tt
  else
    root ← on_store (open_locked dummy Shared root_address);
    rootAddress ← lift (getAddressIfSet root);
    referenced ← catch (a ← on_store (on_root root get); name ← own_address; mret (bool_decide (a = name)))
                   (λ e, match e with NotAllocated => Some (mret false) | _ => None end);
    if (referenced : bool) then _ ← change_self (setOwner rootAddress); commit
    else
      b ← lift (isEmpty o);
      if negb b then throw NotEmpty else remove.

(** The drive register compares its address with that of the agent register. *)
Definition dr_garbageCollect (presumedOwner : string) : M (HState B DriveRegister St) unit :=
  collect_owned getAgentRegisterAddress dr_isEmpty presumedOwner.
Definition sgl_garbageCollect (presumedOwner : string) : M (HState B SchedulerGlobalLock St) unit :=
  collect_owned getSchedulerGlobalLock sgl_isEmpty presumedOwner.
End AgentLife.
