(* ===== verification/AgentLifeSpec.v ===== *)
(** * The life of an agent in the agent register

    Registration and unregistration: the register always lists the agents that
    exist. *)
From S2P Require Import Prelude DataTypes Backend ObjectOps Handles ProtoAlgorithms Agent Registers RootEntry AgentLife.

(** ** A backend that keeps a journal

    The operations of a backend, noting each state that a write leaves: what another
    process can find there, or what is left when the writer dies. *)
Record journal (St : Type) := mkJournal { j_state : St; j_written : list St }.
Arguments mkJournal {St} _ _.
Arguments j_state {St} _.
Arguments j_written {St} _.

Section Journal.
Context {B St : Type} `{!Backend B St}.

Definition j_quiet {A} (m : M St A) : M (journal St) A := λ j,
  let '(r, s) := m (j_state j) in (r, mkJournal s (j_written j)).
Definition j_write (m : M St unit) : M (journal St) unit := λ j,
  let '(r, s) := m (j_state j) in
  (r, mkJournal s (match r with Ok _ => j_written j ++ [s] | Throw _ => j_written j end)).

#[export] Program Instance journal_Backend : Backend B (journal St) := {|
  be_create n c := j_write (be_create n c);
  be_atomicOverwrite n c := j_write (be_atomicOverwrite n c);
  be_read n := j_quiet (be_read n);
  be_remove n := j_write (be_remove n);
  be_exists n := j_quiet (be_exists n);
  be_lock n := j_quiet (be_lock n);
  be_view j := be_view (j_state j);
  be_wf j := be_wf (j_state j)
|}.
Next Obligation. intros [s l] n c Hwf Hn. unfold j_write. simpl in *. destruct (be_create_new s n c Hwf Hn) as (s' & -> & ?). by eexists. Qed.
Next Obligation. intros [s l] n c Hwf Hn. unfold j_write. simpl in *. destruct (be_create_exists s n c Hwf Hn) as (e & ->). by eexists. Qed.
Next Obligation. intros [s l] n c Hwf Hn. unfold j_write. simpl in *. destruct (be_overwrite_ok s n c Hwf Hn) as (s' & -> & ?). by eexists. Qed.
Next Obligation. intros [s l] n c Hwf Hn. unfold j_write. simpl in *. destruct (be_overwrite_absent s n c Hwf Hn) as (e & ->). by eexists. Qed.
Next Obligation. intros [s l] n Hwf. unfold j_quiet. simpl in *. by rewrite be_read_spec. Qed.
Next Obligation. intros [s l] n Hwf Hn. unfold j_write. simpl in *. destruct (be_remove_ok s n Hwf Hn) as (s' & -> & ?). by eexists. Qed.
Next Obligation. intros [s l] n Hwf Hn. unfold j_write. simpl in *. destruct (be_remove_absent s n Hwf Hn) as (e & ->). by eexists. Qed.
Next Obligation. intros [s l] n Hwf. unfold j_quiet. simpl in *. by rewrite be_exists_spec. Qed.
Next Obligation. intros [s l] n Hwf Hn. unfold j_quiet. simpl in *. by rewrite be_lock_ok. Qed.
Next Obligation. intros [s l] n Hwf Hn. unfold j_quiet. simpl in *. by rewrite be_lock_absent. Qed.

(** Each write that succeeds adds the state it leaves. *)
Definition one_write (j j' : journal St) : Prop := j_written j' = j_written j ++ [j_state j'].
Lemma j_write_ok m j j' : j_write m j = (Ok tt, j') → one_write j j'.
Proof. unfold j_write. destruct (m (j_state j)) as [[[]|] s]; [|done]. by intros [= <-]. Qed.

Context {P : Type} `{!Serializable B P, !Serializable B (ObjectHeader B), !Message P}.
Lemma insert_journal (o o' : ObjectOps B P) j j' : insert (o, j) = (Ok tt, (o', j')) → one_write j j'.
Proof.
  unfold insert, throw, mbind, M_bind, lift, self, set_self, on_store, gets, modify. simpl. destruct (m_existingObject _); [done|]. destruct (_ || _); [done|]. simpl.
  destruct (getAddressIfSet _) as [n|]; [|done].
  destruct (j_write _ _) as [[[]|] j1] eqn:E; [|done]. intros [= <- <-]. by eapply j_write_ok.
Qed.
Lemma commit_journal (o o' : ObjectOps B P) j j' : commit (o, j) = (Ok tt, (o', j')) → one_write j j'.
Proof.
  unfold commit, throw, mbind, M_bind, lift, self, set_self, on_store, gets, modify. simpl. destruct (checkPayloadWritable o); [|done]. destruct (m_existingObject _); [|done]. simpl.
  destruct (getAddressIfSet _) as [n|]; [|done].
  destruct (j_write _ _) as [[[]|] j1] eqn:E; [|done]. intros [= <- <-]. by eapply j_write_ok.
Qed.
End Journal.

Section AgentLifeSpec.
Context {B St : Type} `{!Serializable B (ObjectHeader B), !Backend B St}.
Context `{!Serializable B RootEntry, !Serializable B Agent, !Serializable B AgentRegister}.
Context `{!Serializable B DriveRegister, !Serializable B SchedulerGlobalLock}.
Context (dummy : B).
Implicit Types (s : St) (reg : AgentRegister) (name a : string).

(** A store with a root entry that references an agent register at [a]. *)
Record registered s a reg : Prop := {
  rg_wf : be_wf s;
  rg_root : ∃ h r, stored s root_address = Some (h, r) ∧ address_of (agentregisterpointer r) = Some a;
  rg_register : ∃ h, stored s a = Some (h, reg)
}.

Definition same_but (names : list string) s s' : Prop := ∀ n, n ∉ names → be_view s' !! n = be_view s !! n.

Lemma same_but_trans l1 l2 s1 s2 s3 : same_but l1 s1 s2 → same_but l2 s2 s3 → same_but (l1 ++ l2) s1 s3.
Proof. intros H1 H2 n Hn. apply not_elem_of_app in Hn as [? ?]. by rewrite H2, H1. Qed.
Lemma not_in_singleton n a : n ≠ a → n ∉ [a].
Proof. intros. apply not_elem_of_cons. split; [done|apply not_elem_of_nil]. Qed.

Lemma address_of_nonempty p a : address_of p = Some a → a ≠ "".
Proof. unfold address_of. repeat case_match; try done. intros. by simplify_eq. Qed.

Lemma register_address_ok s a reg : registered s a reg → register_address dummy s = (Ok a, s).
Proof.
  intros [Hwf (h & r & Hst & Ha) _]. unfold register_address.
  rewrite (bind_ok _ _ _ _ _ (open_locked_ok dummy Shared root_address h r s Hwf ltac:(done) Hst)).
  unfold on_root, getAgentRegisterAddress, mbind, M_bind, re_readable, re_payload, gets, lift. simpl.
  unfold mbind, M_bind. simpl. by rewrite Ha.
Qed.

Lemma register_address_noLock_ok s a reg : registered s a reg → register_address_noLock dummy s = (Ok a, s).
Proof.
  intros [Hwf (h & r & Hst & Ha) _]. unfold register_address_noLock. rewrite object_at_ok, bind_lift by done.
  unfold exec_on, run_on, mbind, M_bind. erewrite fetchNoLock_spec; [|done|exact Hst|done].
  unfold on_root, getAgentRegisterAddress, mbind, M_bind, re_readable, re_payload, gets, lift. simpl.
  unfold mbind, M_bind. simpl. by rewrite Ha.
Qed.

(** A change of the register. *)
Lemma update_register_ok s a reg reg' f :
  registered s a reg → a ≠ root_address →
  (∀ h, f (opened Exclusive a h reg) = Ok (opened Exclusive a h reg')) →
  ∃ s', update_register dummy a f s = (Ok tt, s') ∧ registered s' a reg' ∧ same_but [a] s s'.
Proof.
  intros [Hwf (hr & r & Hroot & Ha) (h & Hst)] Hne Hf. pose proof (address_of_nonempty _ _ Ha) as Hna.
  unfold update_register. rewrite (bind_ok _ _ _ _ _ (open_locked_ok dummy Exclusive a h reg s Hwf Hna Hst)), Hf, bind_lift.
  assert (h_type h = @payloadTypeId AgentRegister _) as Ht.
  { revert Hst. unfold stored. repeat case_match; try done. by intros [= <- _]. }
  destruct (commit_opened a h reg' s Hwf (stored_exists _ _ _ Hst) Ht) as (s' & E & Hwf' & Hst' & Hv).
  rewrite (bind_ok _ _ _ _ _ E). exists s'. split; [done|]. split.
  - split; [done| |by eexists]. exists hr, r. split; [|done]. rewrite <- Hroot. by apply stored_frame, Hv.
  - intros n Hn. apply Hv. by rewrite not_elem_of_cons in Hn; destruct Hn.
Qed.

Lemma registered_frame l s s' a reg :
  registered s a reg → be_wf s' → same_but l s s' → a ∉ l → root_address ∉ l → registered s' a reg.
Proof.
  intros [Hwf (hr & r & Hroot & Ha) (h & Hst)] Hwf' Hs Hal Hrl. split; [done| |].
  - exists hr, r. split; [|done]. rewrite <- Hroot. by apply stored_frame, Hs.
  - exists h. rewrite <- Hst. by apply stored_frame, Hs.
Qed.

Definition reg_add name reg : AgentRegister := mkAgentRegister (agents reg ++ [name]) (untrackedagents reg ++ [name]).
Definition reg_remove name reg : AgentRegister :=
  mkAgentRegister (removeString name (agents reg)) (removeString name (untrackedagents reg)).

(** Before the last step of the creation the agent is listed, and its handle names
    the register as owner. *)
Lemma on_store_ok {P A C} (m : M St A) (k : A → M (HState B P St) C) o s x s' :
  m s = (Ok x, s') → (on_store m ≫= k) (o, s) = k x (o, s').
Proof. intros E. apply bind_ok. unfold on_store. simpl. by rewrite E. Qed.

Lemma register_steps s a reg name p :
  registered s a reg → a ≠ root_address →
  ∃ s1, insertAndRegisterSelf dummy (prepared dummy name "" "" p, s) = insert (prepared dummy name a a p, s1) ∧
    update_register dummy a (addAgent name) s = (Ok tt, s1) ∧ registered s1 a (reg_add name reg) ∧ same_but [a] s s1.
Proof.
  intros Hr Hne. destruct (update_register_ok s a reg (reg_add name reg) (addAgent name) Hr Hne) as (s1 & E1 & Hr1 & Hs1); [done|].
  exists s1. split; [|done]. unfold insertAndRegisterSelf. rewrite (on_store_ok _ _ _ _ _ _ (register_address_ok s a reg Hr)).
  rewrite (bind_ok _ _ _ name (prepared dummy name "" "" p, s)) by done.
  by rewrite (on_store_ok _ _ _ _ _ _ E1).
Qed.

(** The agent is deleted, and only then taken out of the register. *)
Lemma unregister_through s a reg name h p :
  registered s a reg → a ≠ root_address → name ≠ a → name ≠ root_address → stored s name = Some (h, p) → ownedobjects p = [] →
  ∃ o s1 s', removeAndUnregisterSelf dummy (opened Exclusive name h p, s) = (Ok tt, (o, s')) ∧ getAddressIfSet o = Ok name ∧
    be_remove name s = (Ok tt, s1) ∧ registered s1 a reg ∧ be_view s1 !! name = None ∧ same_but [name] s s1 ∧
    update_register dummy a (removeAgent name) s1 = (Ok tt, s') ∧ registered s' a (reg_remove name reg) ∧ same_but [a] s1 s'.
Proof.
  intros Hr Hne Hna Hnr Hst Hown. destruct (be_remove_ok s name (rg_wf _ _ _ Hr) (stored_exists _ _ _ Hst)) as (s1 & E1 & Hwf1 & Hv1).
  assert (same_but [name] s s1) as Hs1.
  { intros n Hn. rewrite Hv1, lookup_delete_ne; [done|]. intros ->. apply Hn. by left. }
  assert (registered s1 a reg) as Hr1 by (eapply registered_frame; [exact Hr|done|exact Hs1|by apply not_in_singleton; auto..]).
  destruct (update_register_ok s1 a reg (reg_remove name reg) (removeAgent name) Hr1 Hne) as (s2 & E2 & Hr2 & Hs2); [done|].
  unfold removeAndUnregisterSelf. rewrite (bind_ok _ _ _ (opened Exclusive name h p) (opened Exclusive name h p, s)) by done.
  rewrite opened_check_writable, bind_lift. unfold agent_isEmpty. rewrite read_opened, bind_lift, Hown. simpl.
  set (o1 := with_flags (with_existing false (with_interpreted false false (m_flags (opened Exclusive name h p)))) (opened Exclusive name h p)).
  rewrite (bind_ok _ _ _ tt (o1, s1)); last first.
  { unfold remove, mbind, M_bind, lift, self, set_self, on_store, gets, modify. simpl. by rewrite E1. }
  rewrite (on_store_ok _ _ _ _ _ _ (register_address_noLock_ok s1 a reg Hr1)).
  rewrite (bind_ok _ _ _ name (o1, s1)) by done. exists o1, s1, s2. split; [unfold on_store; simpl; by rewrite E2|].
  split_and!; try done. by rewrite Hv1, lookup_delete_eq.
Qed.

Lemma unregister_steps s a reg name h p :
  registered s a reg → a ≠ root_address → name ≠ a → name ≠ root_address → stored s name = Some (h, p) → ownedobjects p = [] →
  ∃ o s', removeAndUnregisterSelf dummy (opened Exclusive name h p, s) = (Ok tt, (o, s')) ∧
    registered s' a (reg_remove name reg) ∧ be_view s' !! name = None ∧ same_but [name; a] s s' ∧ getAddressIfSet o = Ok name.
Proof.
  intros Hr Hne Hna Hnr Hst Hown.
  destruct (unregister_through s a reg name h p Hr Hne Hna Hnr Hst Hown) as (o & s1 & s' & E & Ho & _ & _ & Hv & Hs1 & _ & Hr' & Hs2).
  exists o, s'. split_and!; [done|done| |exact (same_but_trans [name] [a] s s1 s' Hs1 Hs2)|done].
  by rewrite Hs2 by by apply not_in_singleton.
Qed.

Lemma insert_taken {P} `{!Serializable B P, !Message P} name owner backup (p : P) s :
  be_wf s → is_Some (be_view s !! name) →
  ∃ e o, insert (prepared dummy name owner backup p, s) = (Throw e, (o, s)).
Proof.
  intros Hwf Hex. destruct (be_create_exists s name (SerializeAsString (m_header (push_payload (prepared dummy name owner backup p)))) Hwf Hex)
    as (e & E). exists e. eexists. unfold insert, mbind, M_bind, lift, self, set_self, on_store, gets, modify. simpl.
  unfold push_payload in E. simpl in E. by rewrite E.
Qed.

(** ** Creation and removal *)

(** An agent whose name is not taken is created with the register as owner. *)
Lemma create_registered s a reg name p :
  registered s a reg → a ≠ root_address → name ≠ a → name ≠ root_address → be_view s !! name = None →
  ∃ o s1 s2 h, insertAndRegisterSelf dummy (prepared dummy name "" "" p, s) = (Ok tt, (o, s2)) ∧
    update_register dummy a (addAgent name) s = (Ok tt, s1) ∧
    registered s1 a (reg_add name reg) ∧ be_view s1 !! name = None ∧ same_but [a] s s1 ∧
    insert (prepared dummy name a a p, s1) = (Ok tt, (o, s2)) ∧
    registered s2 a (reg_add name reg) ∧ stored s2 name = Some (h, p) ∧ h_owner h = a ∧ h_backupowner h = a ∧ same_but [name] s1 s2.
Proof.
  intros Hr Har Hna Hnr Hn. destruct (register_steps s a reg name p Hr Har) as (s1 & E1 & Eu & Hr1 & Hs1).
  assert (Hn1 : be_view s1 !! name = None) by (rewrite Hs1 by (by apply not_in_singleton); done).
  destruct (insert_spec s1 (prepared dummy name a a p) (rg_wf _ _ _ Hr1)) as (s2 & E2 & Hwf2 & Hv2 & Hst2); [by repeat split|done|].
  assert (same_but [name] s1 s2) as Hs2.
  { intros n Hn'. rewrite Hv2, lookup_insert_ne; [done|]. intros <-. apply Hn'. by left. }
  eexists _, s1, s2, _. rewrite E1. split; [exact E2|]. split_and!; try done.
  - eapply registered_frame; [exact Hr1|done|exact Hs2|by apply not_in_singleton; auto..].
  - rewrite Hst2. by rewrite decide_True.
  - done.
  - done.
Qed.

Lemma remove_refused s name h p :
  ownedobjects p ≠ [] →
  removeAndUnregisterSelf dummy (opened Exclusive name h p, s) = (Throw AgentStillOwnsObjects, (opened Exclusive name h p, s)).
Proof.
  intros Ho. unfold removeAndUnregisterSelf. rewrite (bind_ok _ _ _ (opened Exclusive name h p) (opened Exclusive name h p, s)) by done.
  rewrite opened_check_writable, bind_lift. unfold agent_isEmpty. by rewrite read_opened, bind_lift, bool_decide_false.
Qed.

(** ** Collection of what an interrupted creation left *)

Lemma collect_owned_ok {P} `{!Serializable B P, !Message P} (get : M (REState B St) string) (isEmpty : ObjectOps B P → result bool)
    s hr r name h (p : P) res :
  be_wf s → stored s root_address = Some (hr, r) → stored s name = Some (h, p) → h_type h = @payloadTypeId P _ →
  on_root (opened Shared root_address hr r) get s = (res, s) →
  res = Throw NotAllocated ∨ (∃ a, res = Ok a) →
  isEmpty (opened Exclusive name h p) = Ok true →
  ∃ o s', collect_owned dummy get isEmpty (h_owner h) (opened Exclusive name h p, s) = (Ok tt, (o, s')) ∧ same_but [name] s s' ∧
    if decide (res = Ok name) then ∃ h', stored s' name = Some (h', p) ∧ h_owner h' = root_address
    else be_view s' !! name = None.
Proof.
  intros Hwf Hroot Hst Ht Hget Hres Hempty. unfold collect_owned.
  rewrite (bind_ok _ _ _ (opened Exclusive name h p) (opened Exclusive name h p, s)) by done.
  rewrite opened_check_writable, bind_lift, decide_False by (simpl; tauto).
  rewrite (on_store_ok _ _ _ _ _ _ (open_locked_ok dummy Shared root_address hr r s Hwf ltac:(done) Hroot)).
  change (getAddressIfSet (opened Shared root_address hr r)) with (Ok root_address). rewrite bind_lift.
  rewrite (bind_ok _ _ _ (bool_decide (res = Ok name)) (opened Exclusive name h p, s)); last first.
  { unfold catch. destruct Hres as [-> |[a ->]].
    - erewrite bind_throw; [|unfold on_store; simpl; rewrite Hget; reflexivity]. by rewrite bool_decide_false.
    - rewrite (on_store_ok _ _ _ _ _ _ Hget). rewrite (bind_ok _ _ _ name (opened Exclusive name h p, s)) by done.
      unfold mret, M_ret. do 2 f_equal. apply bool_decide_ext. split; [by intros ->|by intros [= ->]]. }
  destruct (decide (res = Ok name)) as [Hrn|Hrn].
  - rewrite bool_decide_true by done.
    set (h2 := mkHeader (h_type h) (h_version h) root_address (h_backupowner h) (h_payload h)).
    rewrite (bind_ok _ _ _ tt (opened Exclusive name h2 p, s)) by done.
    destruct (commit_spec s (opened Exclusive name h2 p) Hwf) as (s' & E & Hwf' & Hv & Hst'); try done.
    { apply opened_writable. }
    { exact (stored_exists _ _ _ Hst). }
    do 2 eexists. split; [exact E|]. split.
    + intros n Hn. rewrite Hv, lookup_insert_ne; [done|]. intros <-. apply Hn. by left.
    + eexists. split; [rewrite Hst'; by rewrite decide_True|done].
  - rewrite bool_decide_false by done. rewrite Hempty, bind_lift. simpl.
    destruct (be_remove_ok s name Hwf (stored_exists _ _ _ Hst)) as (s1 & E1 & Hwf1 & Hv1).
    eexists _, s1. split.
    { unfold remove, mbind, M_bind, lift, self, set_self, on_store, gets, modify. simpl. rewrite E1. reflexivity. }
    split; [|by rewrite Hv1, lookup_delete_eq]. intros n Hn. rewrite Hv1, lookup_delete_ne; [done|]. intros ->. apply Hn. by left.
Qed.

(** Collection of an object that an agent created and whose creation was
    interrupted between the reference in the root entry and the change of owner.
    The scheduler lock that the root entry references is kept and becomes owned by
    the root entry.  The drive register that the root entry references is deleted,
    if no drive is in it and the agent register is another object: the reference
    of the root entry dangles from then on. *)
Lemma interrupted_creation_collected s hr r name h :
  be_wf s → stored s root_address = Some (hr, r) →
  (∀ p, stored s name = Some (h, p) → h_type h = SchedulerGlobalLock_t → address_of (schedulerlockpointer r) = Some name →
    ∃ o s' h', sgl_garbageCollect dummy (h_owner h) (opened Exclusive name h p, s) = (Ok tt, (o, s')) ∧
      stored s' name = Some (h', p) ∧ h_owner h' = root_address) ∧
  (stored s name = Some (h, mkDriveRegister []) → h_type h = DriveRegister_t → address_of (driveregisterpointer r) = Some name →
    address_of (agentregisterpointer r) ≠ Some name →
    ∃ o s', dr_garbageCollect dummy (h_owner h) (opened Exclusive name h (mkDriveRegister []), s) = (Ok tt, (o, s')) ∧
      be_view s' !! name = None ∧ (name ≠ root_address → stored s' root_address = Some (hr, r))).
Proof.
  intros Hwf Hroot. split.
  - intros p Hst Ht Hp.
    destruct (collect_owned_ok getSchedulerGlobalLock sgl_isEmpty s hr r name h p (Ok name) Hwf Hroot Hst Ht) as (o & s' & E & _ & H).
    + unfold on_root, getSchedulerGlobalLock, mbind, M_bind, re_readable, re_payload, gets, lift. simpl.
      unfold mbind, M_bind. simpl. by rewrite Hp.
    + right. by eexists.
    + done.
    + rewrite decide_True in H by done. destruct H as (h' & ? & ?). by exists o, s', h'.
  - intros Hst Ht _ Hna.
    set (res := match address_of (agentregisterpointer r) with Some a => Ok a | None => Throw NotAllocated end).
    destruct (collect_owned_ok getAgentRegisterAddress dr_isEmpty s hr r name h (mkDriveRegister []) res Hwf Hroot Hst Ht)
      as (o & s' & E & Hs & H).
    + unfold on_root, getAgentRegisterAddress, mbind, M_bind, re_readable, re_payload, gets, lift. simpl.
      unfold mbind, M_bind. simpl. unfold res. by destruct (address_of _).
    + unfold res. destruct (address_of _); eauto.
    + done.
    + rewrite decide_False in H; [|unfold res; destruct (address_of _); congruence].
      exists o, s'. split_and!; [exact E|done|]. intros Hnr. rewrite <- Hroot. apply stored_frame, Hs. by apply not_in_singleton.
Qed.
End AgentLifeSpec.

(** ** The states that are passed through *)
Section JournalSpec.
Context {B St : Type} `{!Serializable B (ObjectHeader B), !Backend B St}.
Context `{!Serializable B RootEntry, !Serializable B Agent, !Serializable B AgentRegister}.
Context (dummy : B).
Implicit Types (s : St) (j : journal St) (reg : AgentRegister) (name a : string).

Definition record s : journal St := mkJournal s [].

Lemma registered_journal j a reg : registered j a reg ↔ registered (j_state j) a reg.
Proof. split; intros [? ? ?]; by split. Qed.
Lemma one_write_record j j' l : one_write j j' → j_written j = l → j' = mkJournal (j_state j') (l ++ [j_state j']).
Proof. unfold one_write. destruct j'; simpl. by intros -> ->. Qed.

Lemma update_register_journal j a reg f j' :
  registered j a reg → update_register dummy a f j = (Ok tt, j') → one_write j j'.
Proof.
  intros [Hwf (hr & r & Hroot & Ha) (h & Hst)]. unfold update_register.
  rewrite (bind_ok _ _ _ _ _ (open_locked_ok dummy Exclusive a h reg j Hwf (address_of_nonempty _ _ Ha) Hst)).
  destruct (f _) as [ar|]; [|done]. rewrite bind_lift. unfold exec_on, run_on, mbind, M_bind.
  destruct (commit (ar, j)) as [[[]|] [o1 j1]] eqn:E; [|done]. intros [= <-]. by eapply commit_journal.
Qed.

(** C37: Registration of an agent, with the states that each write leaves.  A creation
    writes twice: first the agent is listed in the register of the root entry,
    untracked, and its object is not there yet, so that a creation that is interrupted
    leaves a dangling reference; then the object is created with the register as
    owner.  When the name is taken already, the creation is refused after the
    listing, and the object is not touched.  An agent that owns objects cannot be
    removed and nothing is written.  The removal of one that owns none writes twice:
    first the object is deleted and is still listed, then it is taken off the
    register.  So an agent that exists is listed in every state.  No other object is
    touched. *)
Theorem agent_registration s a reg name :
  registered s a reg → a ≠ root_address → name ≠ a → name ≠ root_address →
  (∀ p, be_view s !! name = None →
    ∃ o s1 s2 h, insertAndRegisterSelf dummy (prepared dummy name "" "" p, record s) = (Ok tt, (o, mkJournal s2 [s1; s2])) ∧
      registered s1 a (reg_add name reg) ∧ be_view s1 !! name = None ∧ same_but [a] s s1 ∧
      registered s2 a (reg_add name reg) ∧ stored s2 name = Some (h, p) ∧ h_owner h = a ∧ h_backupowner h = a ∧
      same_but [name] s1 s2) ∧
  (∀ p, is_Some (be_view s !! name) →
    ∃ e o s1, insertAndRegisterSelf dummy (prepared dummy name "" "" p, record s) = (Throw e, (o, mkJournal s1 [s1])) ∧
      registered s1 a (reg_add name reg) ∧ same_but [a] s s1) ∧
  (∀ h p, stored s name = Some (h, p) →
    if decide (ownedobjects p = []) then
      ∃ o s1 s2, removeAndUnregisterSelf dummy (opened Exclusive name h p, record s) = (Ok tt, (o, mkJournal s2 [s1; s2])) ∧
        registered s1 a reg ∧ be_view s1 !! name = None ∧ same_but [name] s s1 ∧
        registered s2 a (reg_remove name reg) ∧ same_but [a] s1 s2
    else removeAndUnregisterSelf dummy (opened Exclusive name h p, record s) =
           (Throw AgentStillOwnsObjects, (opened Exclusive name h p, record s))).
Proof.
  intros Hr Har Hna Hnr. assert (Hj : registered (record s) a reg) by by apply registered_journal. split_and!.
  - intros p Hn. destruct (create_registered dummy (record s) a reg name p Hj Har Hna Hnr Hn)
      as (o & j1 & j2 & h & E & Eu & Hr1 & Hn1 & Hs1 & Ei & Hr2 & Hst & Ho & Hb & Hs2).
    apply (update_register_journal _ _ _ _ _ Hj) in Eu. apply insert_journal in Ei.
    pose proof (one_write_record _ _ [] Eu eq_refl) as Ej1. apply (one_write_record _ _ [j_state j1]) in Ei; [|by rewrite Ej1].
    exists o, (j_state j1), (j_state j2), h. rewrite Ei in E. split; [exact E|]. split_and!; try done; by apply registered_journal.
  - intros p Hex. destruct (register_steps dummy (record s) a reg name p Hj Har) as (j1 & E1 & Eu & Hr1 & Hs1).
    apply (update_register_journal _ _ _ _ _ Hj) in Eu. pose proof (one_write_record _ _ [] Eu eq_refl) as Ej1.
    destruct (insert_taken dummy name a a p j1 (rg_wf _ _ _ Hr1)) as (e & o & E2); [rewrite Hs1 by (by apply not_in_singleton); done|].
    exists e, o, (j_state j1). rewrite E1, E2. split; [by rewrite Ej1|]. split; [by apply registered_journal|done].
  - intros h p Hst. case_decide as Ho; [|by apply remove_refused].
    destruct (unregister_through dummy (record s) a reg name h p Hj Har Hna Hnr Hst Ho)
      as (o & j1 & j2 & E & _ & Er & Hr1 & Hn1 & Hs1 & Eu & Hr2 & Hs2).
    apply (update_register_journal _ _ _ _ _ Hr1) in Eu. apply j_write_ok in Er.
    pose proof (one_write_record _ _ [] Er eq_refl) as Ej1. apply (one_write_record _ _ [j_state j1]) in Eu; [|by rewrite Ej1].
    exists o, (j_state j1), (j_state j2). rewrite Eu in E. split; [exact E|]. split_and!; try done; by apply registered_journal.
Qed.
End JournalSpec.
