(* ===== verification/AgentLifeExamples.v ===== *)
(** * Agents and interrupted creations in the file system backend

    Witnesses of the properties of [AgentLifeSpec.v]. *)
From S2P Require Import Prelude DataTypes Backend ObjectOps Handles ProtoAlgorithms ArchiveQueue RetrieveQueue Agent Registers RootEntry RootEntryExamples AgentLife AgentLifeSpec.
Import Blob.

Definition ex_pointer (address : string) : option RegisterPointer :=
  Some (mkRP address (EntryLog_serialize ex_log)).

(** A root entry with an agent register, a drive register and a scheduler lock, the
    last two still owned by the agent that created them. *)
Definition ex_life_root : RootEntry :=
  mkRoot no_queues no_queues (ex_pointer "drives") (ex_pointer "agents") None None None (Some "") (ex_pointer "lock").
Definition ex_life_store : VFS.vfs content :=
  VFS.mkVfs (<["root" := BHdr RootEntry_t 0 "root" "root" (BMsg (MRoot ex_life_root))]>
    (<["agents" := BHdr AgentRegister_t 0 "root" "root" (BMsg (MAgents (mkAgentRegister ["dead"] ["dead"])))]>
    (<["drives" := BHdr DriveRegister_t 0 "dead" "root" (BMsg (MDrives (mkDriveRegister [])))]>
    {["lock" := BHdr SchedulerGlobalLock_t 0 "dead" "root" (BMsg (MLock (mkSGL 7)))]})))
    {["root"; "agents"; "drives"; "lock"]}.

Lemma ex_registered : registered ex_life_store "agents" (mkAgentRegister ["dead"] ["dead"]).
Proof. split; [by vm_compute|by do 2 eexists|by eexists]. Qed.

Definition ex_new_agent : Agent := mkAgentObject "" 0 120000000 [] false (Some false).

Lemma agent_registration_witness :
  ∃ o s1 s2 h, insertAndRegisterSelf no_content (prepared no_content "agent" "" "" ex_new_agent, record ex_life_store) =
      (Ok tt, (o, mkJournal s2 [s1; s2])) ∧
    registered s1 "agents" (mkAgentRegister ["dead"; "agent"] ["dead"; "agent"]) ∧ be_view s1 !! "agent" = None ∧
    same_but ["agents"] ex_life_store s1 ∧
    registered s2 "agents" (mkAgentRegister ["dead"; "agent"] ["dead"; "agent"]) ∧
    stored s2 "agent" = Some (h, ex_new_agent) ∧ h_owner h = "agents" ∧ h_backupowner h = "agents" ∧
    same_but ["agent"] s1 s2.
Proof.
  exact (proj1 (agent_registration no_content ex_life_store "agents" (mkAgentRegister ["dead"] ["dead"]) "agent"
    ex_registered ltac:(done) ltac:(done) ltac:(done)) ex_new_agent eq_refl).
Defined.

Lemma interrupted_creation_collected_witness :
  ∃ o s', dr_garbageCollect no_content "dead"
      (opened Exclusive "drives" (mkHeader DriveRegister_t 0 "dead" "root" (BMsg (MDrives (mkDriveRegister [])))) (mkDriveRegister []), ex_life_store) =
      (Ok tt, (o, s')) ∧
    be_view s' !! "drives" = None ∧
    ("drives" ≠ root_address → stored s' root_address = Some (mkHeader RootEntry_t 0 "root" "root" (BMsg (MRoot ex_life_root)), ex_life_root)).
Proof.
  exact (proj2 (interrupted_creation_collected no_content ex_life_store
    (mkHeader RootEntry_t 0 "root" "root" (BMsg (MRoot ex_life_root))) ex_life_root "drives"
    (mkHeader DriveRegister_t 0 "dead" "root" (BMsg (MDrives (mkDriveRegister []))))
    (rg_wf _ _ _ ex_registered) eq_refl) eq_refl eq_refl eq_refl ltac:(done)).
Defined.

(** The agent is created, owns nothing, and is removed again. *)
Example ex_agent_life :
  match insertAndRegisterSelf no_content (prepared no_content "agent" "" "" ex_new_agent, ex_life_store) with
  | (Ok _, (_, s)) =>
      match open_locked (P := Agent) no_content Exclusive "agent" s with
      | (Ok ag, s1) =>
          match removeAndUnregisterSelf no_content (ag, s1) with
          | (Ok _, (_, s2)) => snd <$> stored (P := AgentRegister) s2 "agents"
          | _ => None
          end
      | _ => None
      end
  | _ => None
  end = Some (mkAgentRegister ["dead"] ["dead"]).
Proof. vm_compute. reflexivity. Qed.
