(* ===== verification/RetrieveRequest.v ===== *)
(** * Retrieve requests

    Model of [objectstore/RetrieveRequest.cpp] and [.hpp]: the request of a user, or
    of a repack, to read a file from tape, with one job per tape copy.  Unlike an
    archive request it is owned as a whole, through the header of the object.  The
    asynchronous updates run in the backend under the lock of the object; one of
    them turns the request of a repack into an archive request.  [garbageCollect],
    which needs the catalogue and the queues, is not part of this file.

    Optional fields that the code reads without testing their presence have their
    default when absent. *)
From stdpp Require Import sorting.
From S2P Require Import Prelude DataTypes Backend ObjectOps Checksum ArchiveFile ArchiveRequest RetrieveActivity.

(** ** Data structures *)

(** [common::dataStructures::LifecycleTimings]. *)
Record LifecycleTimings := mkTimings {
  lt_creation_time : Z;
  lt_first_selected_time : Z;
  lt_completed_time : Z
}.
Definition no_timings : LifecycleTimings := mkTimings 0 0 0.

Definition getTimeForSelection (t : LifecycleTimings) : Z :=
  if negb (lt_first_selected_time t =? 0) && negb (lt_creation_time t =? 0)
  then lt_first_selected_time t - lt_creation_time t else 0.
Definition getTimeForCompletion (t : LifecycleTimings) : Z :=
  if negb (lt_completed_time t =? 0) && negb (lt_creation_time t =? 0)
  then lt_completed_time t - lt_creation_time t else 0.

(** [common::dataStructures::RetrieveRequest], as the front ends fill it. *)
Record RetrieveRequestData := mkRetrieveData {
  rd_requester : RequesterIdentity;
  rd_archiveFileID : Z;
  rd_dstURL : string;
  rd_errorReportURL : string;
  rd_diskFileInfo : DiskFileInfo;
  rd_creationLog : EntryLog;
  rd_isVerifyOnly : bool;
  rd_vid : option string;
  rd_lifecycleTimings : LifecycleTimings;
  rd_activity : option string
}.

#[export] Instance RequesterIdentity_eq_dec : EqDecision RequesterIdentity.
Proof. solve_decision. Defined.

(** [RetrieveRequest::operator==]: the URL of error reports, the timings and the
    activity are not compared. *)
Definition RetrieveRequestData_eqb (a b : RetrieveRequestData) : bool :=
  bool_decide (rd_requester a = rd_requester b) && (rd_archiveFileID a =? rd_archiveFileID b) &&
  bool_decide (rd_dstURL a = rd_dstURL b) && DiskFileInfo_eqb (rd_diskFileInfo a) (rd_diskFileInfo b) &&
  bool_decide (rd_creationLog a = rd_creationLog b) &&
  bool_decide (rd_isVerifyOnly a = rd_isVerifyOnly b) && bool_decide (rd_vid a = rd_vid b).

(** [ActivitiesFairShareWeights]: a weight is a [double] that this code only copies;
    an integer stands for its 64-bit pattern. *)
Record ActivitiesFairShareWeights := mkFairShares {
  fs_diskInstance : string;
  activitiesWeights : gmap string Z
}.

(** [RetrieveFileQueueCriteria]. *)
Record RetrieveFileQueueCriteria := mkCriteria {
  rc_archiveFile : ArchiveFile;
  rc_mountPolicy : MountPolicy;
  activitiesFairShareWeight : ActivitiesFairShareWeights
}.

(** ** Messages *)
Record LifecycleTimingsPb := mkTimingsPb {
  creation_time : Z;
  first_selected_time : Z;
  completed_time : Z
}.

Record SchedulerRetrieveRequest := mkSchedulerRequest {
  sr_requester : RequesterIdentity;
  sr_archivefileid : Z;
  sr_dsturl : string;
  sr_diskfileinfo : serializers.DiskFileInfo;
  sr_entrylog : serializers.EntryLog;
  sr_retrieveerrorreporturl : string;
  sr_isverifyonly : bool
}.

Record RetrieveJob := mkRetrieveJob {
  rj_copynb : Z;
  rj_maxtotalretries : Z;
  rj_maxretrieswithinmount : Z;
  rj_retrieswithinmount : Z;
  rj_totalretries : Z;
  rj_status : RetrieveJobStatus;
  rj_lastmountwithfailure : Z;
  rj_failurelogs : list string;
  rj_maxreportretries : Z;
  rj_totalreportretries : Z;
  rj_reportfailurelogs : list string
}.

Record RetrieveRequestArchiveRoute := mkArchiveRoute { route_copynb : Z; route_tapepool : string }.

Record RetrieveRequestRepackInfo := mkRetrieveRepackInfo {
  archive_routes : list RetrieveRequestArchiveRoute;
  copy_nbs_to_rearchive : list Z;
  rrri_repack_request_address : string;
  rrri_file_buffer_url : string;
  rrri_fseq : Z;
  force_disabled_tape : bool;
  has_user_provided_file : option bool
}.

Record RetrieveRequest := mkRetrieveRequest {
  rr_schedulerrequest : SchedulerRetrieveRequest;
  rr_mountpolicy : serializers.MountPolicy;
  rr_activity_weight : option RetrieveActivityWeight;
  rr_archivefile : ArchiveFilePb;
  rr_activecopynb : Z;
  rr_jobs : list RetrieveJob;
  rr_failurereporturl : string;
  rr_failurereportlog : string;
  rr_isrepack : bool;
  rr_repack_info : RetrieveRequestRepackInfo;
  rr_lifecycle_timings : LifecycleTimingsPb;
  rr_disk_system_name : option string;
  rr_isverifyonly : bool
}.

Definition no_rearchive_info : RetrieveRequestRepackInfo := mkRetrieveRepackInfo [] [] "" "" 0 false None.
Definition no_file_pb : ArchiveFilePb := mkArchiveFilePb 0 0 "" "" serializers.no_disk_info [] 0 [] 0 "".

#[export] Instance RetrieveRequest_message : Message RetrieveRequest := {|
  payloadTypeId := RetrieveRequest_t;
  default_message := mkRetrieveRequest
    (mkSchedulerRequest (mkRequester "" "") 0 "" serializers.no_disk_info (serializers.mkEntryLog "" "" 0) "" false)
    empty_policy None no_file_pb 0 [] "" "" false no_rearchive_info (mkTimingsPb 0 0 0) None false |}.

(** [RetrieveRequest::JobDump], [RetryStatus], [JobEvent] and [EnqueueingNextStep]. *)
Record RetrieveRequestJobDump := mkRetrieveJobDump { rjd_copyNb : Z; rjd_status : RetrieveJobStatus }.
Record RetrieveRetryStatus := mkRetrieveRetryStatus {
  rrs_retriesWithinMount : Z;
  rrs_maxRetriesWithinMount : Z;
  rrs_totalRetries : Z;
  rrs_maxTotalRetries : Z;
  rrs_totalReportRetries : Z;
  rrs_maxReportRetries : Z
}.
Inductive RetrieveJobEvent := RetrieveTransferFailed | RetrieveReportFailed.
Inductive RetrieveNextStep :=
  | RNothing | REnqueueForTransferForUser | REnqueueForReportForUser | REnqueueForReportForRepack
  | RStoreInFailedJobsContainer | RDelete.
Record RetrieveEnqueueing := mkRetrieveStep { rNextStep : RetrieveNextStep; rNextStatus : RetrieveJobStatus }.

(** [RetrieveRequest::RepackInfo].  A [std::map] or [std::set] is enumerated in
    ascending order of the keys. *)
Record RetrieveRepackInfo := mkRetrieveRepack {
  rri_isRepack : bool;
  forceDisabledTape : bool;
  archiveRouteMap : gmap Z string;
  copyNbsToRearchive : gset Z;
  rri_repackRequestAddress : string;
  rri_fSeq : Z;
  rri_fileBufferURL : string;
  hasUserProvidedFile : bool
}.
(** The default object; [fSeq] has no initial value in the code. *)
Definition no_retrieve_repack : RetrieveRepackInfo := mkRetrieveRepack false false ∅ ∅ "" 0 "" false.

Definition ascending (X : gset Z) : list Z := merge_sort Z.le (elements X).
Definition routes_ascending (m : gmap Z string) : list RetrieveRequestArchiveRoute :=
  (λ cn, mkArchiveRoute cn (default "" (m !! cn))) <$> ascending (dom m).

(** ** Field updates *)
Definition rj_set_status (x : RetrieveJobStatus) (j : RetrieveJob) : RetrieveJob :=
  mkRetrieveJob (rj_copynb j) (rj_maxtotalretries j) (rj_maxretrieswithinmount j) (rj_retrieswithinmount j)
    (rj_totalretries j) x (rj_lastmountwithfailure j) (rj_failurelogs j) (rj_maxreportretries j)
    (rj_totalreportretries j) (rj_reportfailurelogs j).
Definition rj_set_retries (total within mount : Z) (logs : list string) (j : RetrieveJob) : RetrieveJob :=
  mkRetrieveJob (rj_copynb j) (rj_maxtotalretries j) (rj_maxretrieswithinmount j) within
    total (rj_status j) mount logs (rj_maxreportretries j)
    (rj_totalreportretries j) (rj_reportfailurelogs j).
Definition rj_set_reports (total : Z) (logs : list string) (j : RetrieveJob) : RetrieveJob :=
  mkRetrieveJob (rj_copynb j) (rj_maxtotalretries j) (rj_maxretrieswithinmount j) (rj_retrieswithinmount j)
    (rj_totalretries j) (rj_status j) (rj_lastmountwithfailure j) (rj_failurelogs j) (rj_maxreportretries j)
    total logs.

Definition rr_set_schedulerrequest (x : SchedulerRetrieveRequest) (r : RetrieveRequest) : RetrieveRequest :=
  mkRetrieveRequest x (rr_mountpolicy r) (rr_activity_weight r) (rr_archivefile r)
    (rr_activecopynb r) (rr_jobs r) (rr_failurereporturl r) (rr_failurereportlog r) (rr_isrepack r)
    (rr_repack_info r) (rr_lifecycle_timings r) (rr_disk_system_name r) (rr_isverifyonly r).
Definition rr_set_mountpolicy (x : serializers.MountPolicy) (r : RetrieveRequest) : RetrieveRequest :=
  mkRetrieveRequest (rr_schedulerrequest r) x (rr_activity_weight r) (rr_archivefile r)
    (rr_activecopynb r) (rr_jobs r) (rr_failurereporturl r) (rr_failurereportlog r) (rr_isrepack r)
    (rr_repack_info r) (rr_lifecycle_timings r) (rr_disk_system_name r) (rr_isverifyonly r).
Definition rr_set_activity_weight (x : option RetrieveActivityWeight) (r : RetrieveRequest) : RetrieveRequest :=
  mkRetrieveRequest (rr_schedulerrequest r) (rr_mountpolicy r) x (rr_archivefile r)
    (rr_activecopynb r) (rr_jobs r) (rr_failurereporturl r) (rr_failurereportlog r) (rr_isrepack r)
    (rr_repack_info r) (rr_lifecycle_timings r) (rr_disk_system_name r) (rr_isverifyonly r).
Definition rr_set_archivefile (x : ArchiveFilePb) (r : RetrieveRequest) : RetrieveRequest :=
  mkRetrieveRequest (rr_schedulerrequest r) (rr_mountpolicy r) (rr_activity_weight r) x
    (rr_activecopynb r) (rr_jobs r) (rr_failurereporturl r) (rr_failurereportlog r) (rr_isrepack r)
    (rr_repack_info r) (rr_lifecycle_timings r) (rr_disk_system_name r) (rr_isverifyonly r).
Definition rr_set_activecopynb (x : Z) (r : RetrieveRequest) : RetrieveRequest :=
  mkRetrieveRequest (rr_schedulerrequest r) (rr_mountpolicy r) (rr_activity_weight r)
    (rr_archivefile r) x (rr_jobs r) (rr_failurereporturl r) (rr_failurereportlog r) (rr_isrepack r)
    (rr_repack_info r) (rr_lifecycle_timings r) (rr_disk_system_name r) (rr_isverifyonly r).
Definition rr_set_jobs (x : list RetrieveJob) (r : RetrieveRequest) : RetrieveRequest :=
  mkRetrieveRequest (rr_schedulerrequest r) (rr_mountpolicy r) (rr_activity_weight r)
    (rr_archivefile r) (rr_activecopynb r) x (rr_failurereporturl r) (rr_failurereportlog r)
    (rr_isrepack r) (rr_repack_info r) (rr_lifecycle_timings r) (rr_disk_system_name r)
    (rr_isverifyonly r).
Definition rr_set_failurereporturl (x : string) (r : RetrieveRequest) : RetrieveRequest :=
  mkRetrieveRequest (rr_schedulerrequest r) (rr_mountpolicy r) (rr_activity_weight r)
    (rr_archivefile r) (rr_activecopynb r) (rr_jobs r) x (rr_failurereportlog r) (rr_isrepack r)
    (rr_repack_info r) (rr_lifecycle_timings r) (rr_disk_system_name r) (rr_isverifyonly r).
Definition rr_set_failurereportlog (x : string) (r : RetrieveRequest) : RetrieveRequest :=
  mkRetrieveRequest (rr_schedulerrequest r) (rr_mountpolicy r) (rr_activity_weight r)
    (rr_archivefile r) (rr_activecopynb r) (rr_jobs r) (rr_failurereporturl r) x (rr_isrepack r)
    (rr_repack_info r) (rr_lifecycle_timings r) (rr_disk_system_name r) (rr_isverifyonly r).
Definition rr_set_isrepack (x : bool) (r : RetrieveRequest) : RetrieveRequest :=
  mkRetrieveRequest (rr_schedulerrequest r) (rr_mountpolicy r) (rr_activity_weight r)
    (rr_archivefile r) (rr_activecopynb r) (rr_jobs r) (rr_failurereporturl r)
    (rr_failurereportlog r) x (rr_repack_info r) (rr_lifecycle_timings r) (rr_disk_system_name r)
    (rr_isverifyonly r).
Definition rr_set_repack_info (x : RetrieveRequestRepackInfo) (r : RetrieveRequest) : RetrieveRequest :=
  mkRetrieveRequest (rr_schedulerrequest r) (rr_mountpolicy r) (rr_activity_weight r)
    (rr_archivefile r) (rr_activecopynb r) (rr_jobs r) (rr_failurereporturl r)
    (rr_failurereportlog r) (rr_isrepack r) x (rr_lifecycle_timings r) (rr_disk_system_name r)
    (rr_isverifyonly r).
Definition rr_set_lifecycle_timings (x : LifecycleTimingsPb) (r : RetrieveRequest) : RetrieveRequest :=
  mkRetrieveRequest (rr_schedulerrequest r) (rr_mountpolicy r) (rr_activity_weight r)
    (rr_archivefile r) (rr_activecopynb r) (rr_jobs r) (rr_failurereporturl r)
    (rr_failurereportlog r) (rr_isrepack r) (rr_repack_info r) x (rr_disk_system_name r)
    (rr_isverifyonly r).
Definition rr_set_disk_system_name (x : option string) (r : RetrieveRequest) : RetrieveRequest :=
  mkRetrieveRequest (rr_schedulerrequest r) (rr_mountpolicy r) (rr_activity_weight r)
    (rr_archivefile r) (rr_activecopynb r) (rr_jobs r) (rr_failurereporturl r)
    (rr_failurereportlog r) (rr_isrepack r) (rr_repack_info r) (rr_lifecycle_timings r) x
    (rr_isverifyonly r).
Definition rr_set_isverifyonly (x : bool) (r : RetrieveRequest) : RetrieveRequest :=
  mkRetrieveRequest (rr_schedulerrequest r) (rr_mountpolicy r) (rr_activity_weight r)
    (rr_archivefile r) (rr_activecopynb r) (rr_jobs r) (rr_failurereporturl r)
    (rr_failurereportlog r) (rr_isrepack r) (rr_repack_info r) (rr_lifecycle_timings r)
    (rr_disk_system_name r) x.

(** First job with a copy number, and its update. *)
Definition rr_find_job (cn : Z) (jobs : list RetrieveJob) : option RetrieveJob :=
  find_if (λ j, rj_copynb j =? cn) jobs.
Fixpoint rr_update_job (cn : Z) (f : RetrieveJob → RetrieveJob) (jobs : list RetrieveJob) : list RetrieveJob :=
  match jobs with
  | [] => []
  | j :: jobs' => if rj_copynb j =? cn then f j :: jobs' else j :: rr_update_job cn f jobs'
  end.

(** ** Conversions *)

(** [LifecycleTimingsSerDeser]: a [time_t] is stored as a [uint64]. *)
Definition LifecycleTimings_deserialize (m : LifecycleTimingsPb) : LifecycleTimings :=
  mkTimings (s64 (creation_time m)) (s64 (first_selected_time m)) (s64 (completed_time m)).
Definition LifecycleTimings_serialize (t : LifecycleTimings) : LifecycleTimingsPb :=
  mkTimingsPb (u64 (lt_creation_time t)) (u64 (lt_first_selected_time t)) (u64 (lt_completed_time t)).

(** [archiveRouteMap[route.copynb()] = route.tapepool()], for each route. *)
Definition read_routes (l : list RetrieveRequestArchiveRoute) (m : gmap Z string) : gmap Z string :=
  foldl (λ m r, <[route_copynb r := route_tapepool r]> m) m l.

(** [RepackInfoSerDeser::deserialize]. *)
Definition RetrieveRepack_deserialize (m : RetrieveRequestRepackInfo) (ri : RetrieveRepackInfo) : RetrieveRepackInfo :=
  mkRetrieveRepack true (force_disabled_tape m) (read_routes (archive_routes m) (archiveRouteMap ri))
    (list_to_set (copy_nbs_to_rearchive m) ∪ copyNbsToRearchive ri) (rrri_repack_request_address m) (rrri_fseq m)
    (rrri_file_buffer_url m) (default (hasUserProvidedFile ri) (has_user_provided_file m)).

(** [RepackInfoSerDeser::serialize]: the flag of a file provided by the user is
    written only when the message already has it. *)
Definition RetrieveRepack_serialize (ri : RetrieveRepackInfo) (m : RetrieveRequestRepackInfo) :
    result RetrieveRequestRepackInfo :=
  if rri_isRepack ri then
    Ok (mkRetrieveRepackInfo (archive_routes m ++ routes_ascending (archiveRouteMap ri))
          (copy_nbs_to_rearchive m ++ ascending (copyNbsToRearchive ri)) (rri_repackRequestAddress ri)
          (rri_fileBufferURL ri) (rri_fSeq ri) (forceDisabledTape ri)
          (match has_user_provided_file m with Some _ => Some (hasUserProvidedFile ri) | None => None end))
  else Throw (Exception "In RetrieveRequest::RepackInfoSerDeser::serialize(): isRepack is false.").

(** ** Names of statuses and events *)
Definition rr_statusToString (status : RetrieveJobStatus) : string :=
  match status with
  | RJS_ToTransfer => "ToTransfer"
  | RJS_Failed => "Failed"
  | _ => "Unknown (" +:+ pretty (RetrieveJobStatus_num status) +:+ ")"
  end.
Definition rr_eventToString (jobEvent : RetrieveJobEvent) : string :=
  match jobEvent with RetrieveReportFailed => "ReportFailed" | RetrieveTransferFailed => "EventFailed" end.

Section Operations.
Context {B St : Type} `{!Serializable B RetrieveRequest, !Serializable B ArchiveRequest}.
Context `{!Serializable B (ObjectHeader B), !Serializable bytes ChecksumPb, !Backend B St}.

(** Operations in memory: the state is the handle. *)
Abbreviation RR := (M (ObjectOps B RetrieveRequest)).

Definition rr_payload : RR RetrieveRequest := gets m_payload.
Definition rr_modify (f : RetrieveRequest → RetrieveRequest) : RR unit :=
  modify (λ o, with_payload (f (m_payload o)) o).
Definition rr_writable : RR unit := o ← get; lift (checkPayloadWritable o).
Definition rr_readable : RR unit := o ← get; lift (checkPayloadReadable o).

Definition rr_initialize : RR unit :=
  o ← get;
  o1 ← lift (initialize o);
  _ ← modify (λ _, o1);
  _ ← rr_modify (rr_set_failurereportlog "");
  _ ← rr_modify (rr_set_failurereporturl "");
  _ ← rr_modify (rr_set_isrepack false);
  _ ← rr_modify (rr_set_isverifyonly false);
  modify (λ o, with_flags (with_interpreted (m_headerInterpreted (m_flags o)) true (m_flags o)) o).

(** ** Jobs *)
Definition rr_addJob (copyNb maxRetriesWithinMount maxTotalRetries maxReportRetries : Z) : RR unit :=
  _ ← rr_writable;
  rr_modify (λ r, rr_set_jobs (rr_jobs r ++
    [mkRetrieveJob copyNb maxTotalRetries maxRetriesWithinMount 0 0 RJS_ToTransfer 0 [] maxReportRetries 0 []]) r).

(** [determineNextStep]: the warnings on unexpected statuses are only logged. *)
Definition rr_determineNextStep (copyNumberUpdated : Z) (jobEvent : RetrieveJobEvent) : RR RetrieveEnqueueing :=
  _ ← rr_writable;
  r ← rr_payload;
  if existsb (λ j, rj_copynb j =? copyNumberUpdated) (rr_jobs r) then
    mret (match jobEvent with
          | RetrieveTransferFailed =>
              if rr_isrepack r then mkRetrieveStep REnqueueForReportForRepack RJS_ToReportToRepackForFailure
              else mkRetrieveStep REnqueueForReportForUser RJS_ToReportToUserForFailure
          | RetrieveReportFailed => mkRetrieveStep RStoreInFailedJobsContainer RJS_Failed
          end)
  else throw (Exception "In RetrieveRequest::updateJobStatus(): copynb not found").

(** The counters of a job after one more failure ([uint32] fields). *)
Definition rr_count_failure (mountId : Z) (failureReason : string) (j : RetrieveJob) : RetrieveJob :=
  let within := if rj_lastmountwithfailure j =? mountId then u32 (rj_retrieswithinmount j + 1) else 1 in
  rj_set_retries (u32 (rj_totalretries j + 1)) within mountId (rj_failurelogs j ++ [failureReason]) j.

(** [addTransferFailure]: every path of the loop body returns, so only the first job
    is looked at, whatever the copy number. *)
Definition rr_addTransferFailure (copyNumber mountId : Z) (failureReason : string) : RR RetrieveEnqueueing :=
  _ ← rr_writable;
  r ← rr_payload;
  match rr_jobs r with
  | [] => throw NoSuchJob
  | j0 :: jobs =>
      let j := if rj_copynb j0 =? copyNumber then rr_count_failure mountId failureReason j0 else j0 in
      _ ← rr_modify (rr_set_jobs (j :: jobs));
      if rr_isverifyonly r then rr_determineNextStep copyNumber RetrieveTransferFailed
      else if rj_totalretries j <? rj_maxtotalretries j then
        mret (mkRetrieveStep
          (if rj_retrieswithinmount j <? rj_maxretrieswithinmount j then REnqueueForTransferForUser else RNothing)
          RJS_ToTransfer)
      else rr_determineNextStep copyNumber RetrieveTransferFailed
  end.

(** [addReportFailure] looks at the first job only, as well. *)
Definition rr_addReportFailure (copyNumber sessionId : Z) (failureReason : string) : RR RetrieveEnqueueing :=
  _ ← rr_writable;
  r ← rr_payload;
  match rr_jobs r with
  | [] => throw NoSuchJob
  | j0 :: jobs =>
      let j := if rj_copynb j0 =? copyNumber
               then rj_set_reports (u32 (rj_totalreportretries j0 + 1))
                      (rj_reportfailurelogs j0 ++ [failureReason]) j0
               else j0 in
      _ ← rr_modify (rr_set_jobs (j :: jobs));
      mret (if rj_maxreportretries j <=? rj_totalreportretries j
            then mkRetrieveStep RStoreInFailedJobsContainer RJS_Failed
            else mkRetrieveStep REnqueueForReportForUser (rj_status j))
  end.

(** [addJobFailure]: true when the request has failed completely.  The first job
    only, as well. *)
Definition rr_addJobFailure (copyNumber mountId : Z) (failureReason : string) : RR bool :=
  _ ← rr_writable;
  r ← rr_payload;
  match rr_jobs r with
  | [] => throw NoSuchJob
  | j0 :: jobs =>
      let j := if rj_copynb j0 =? copyNumber then rr_count_failure mountId failureReason j0 else j0 in
      if rj_maxtotalretries j <=? rj_totalretries j then
        let jobs' := rj_set_status RJS_ToReportToUserForFailure j :: jobs in
        _ ← rr_modify (rr_set_jobs jobs');
        mret (negb (existsb (λ j2, bool_decide (rj_status j2 = RJS_ToTransfer)) jobs'))
      else
        _ ← rr_modify (rr_set_jobs (rj_set_status RJS_ToTransfer j :: jobs));
        mret false
  end.

(** [getRepackInfo]. *)
Definition rr_getRepackInfo : RR RetrieveRepackInfo :=
  _ ← rr_readable;
  r ← rr_payload;
  mret (if rr_isrepack r then RetrieveRepack_deserialize (rr_repack_info r) no_retrieve_repack
        else no_retrieve_repack).

(** [addReportAbort] counts the failure in every job of the copy. *)
Definition rr_addReportAbort (copyNumber mountId : Z) (abortReason : string) : RR RetrieveEnqueueing :=
  _ ← rr_writable;
  _ ← rr_modify (λ r, rr_set_jobs ((λ j, if rj_copynb j =? copyNumber
                                         then rr_count_failure mountId abortReason j else j) <$> rr_jobs r) r);
  ri ← rr_getRepackInfo;
  mret (if rri_isRepack ri then mkRetrieveStep REnqueueForReportForRepack RJS_ToReportToRepackForFailure
        else mkRetrieveStep RStoreInFailedJobsContainer RJS_Failed).

(** Without a tape file of the active copy the first one is read, which may not
    exist. *)
Definition rr_getLastActiveVid : RR string :=
  _ ← rr_readable;
  r ← rr_payload;
  match find_if (λ tf, tfp_copynb tf =? rr_activecopynb r) (afp_tapefiles (rr_archivefile r)) with
  | Some tf => mret (tfp_vid tf)
  | None => match afp_tapefiles (rr_archivefile r) with
            | tf :: _ => mret (tfp_vid tf)
            | [] => throw index_out_of_range
            end
  end.

Definition rr_dumpJobs : RR (list RetrieveRequestJobDump) :=
  _ ← rr_readable;
  r ← rr_payload;
  mret ((λ j, mkRetrieveJobDump (rj_copynb j) (rj_status j)) <$> rr_jobs r).
Definition rr_getJobs : RR (list RetrieveRequestJobDump) :=
  _ ← rr_readable;
  r ← rr_payload;
  mret ((λ j, mkRetrieveJobDump (rj_copynb j) (rj_status j)) <$> rr_jobs r).

Definition rr_getJob (copyNb : Z) : RR RetrieveRequestJobDump :=
  _ ← rr_readable;
  r ← rr_payload;
  match rr_find_job copyNb (rr_jobs r) with
  | Some j => mret (mkRetrieveJobDump copyNb (rj_status j))
  | None => throw NoSuchJob
  end.

Definition rr_getRetryStatus (copyNumber : Z) : RR RetrieveRetryStatus :=
  _ ← rr_readable;
  r ← rr_payload;
  match rr_find_job copyNumber (rr_jobs r) with
  | Some j => mret (mkRetrieveRetryStatus (rj_retrieswithinmount j) (rj_maxretrieswithinmount j)
                      (rj_totalretries j) (rj_maxtotalretries j) (rj_totalreportretries j) (rj_maxreportretries j))
  | None => throw (Exception "In RetrieveRequest::getRetryStatus(): job not found()")
  end.

Definition rr_getJobStatus (copyNumber : Z) : RR RetrieveJobStatus :=
  _ ← rr_readable;
  r ← rr_payload;
  match rr_find_job copyNumber (rr_jobs r) with
  | Some j => mret (rj_status j)
  | None => throw (Exception "In RetrieveRequest::getJobStatus(): could not find job")
  end.

Definition rr_setJobStatus (copyNumber : Z) (status : RetrieveJobStatus) : RR unit :=
  _ ← rr_writable;
  r ← rr_payload;
  match rr_find_job copyNumber (rr_jobs r) with
  | Some _ => rr_modify (λ r, rr_set_jobs (rr_update_job copyNumber (rj_set_status status) (rr_jobs r)) r)
  | None => throw (Exception "In RetrieveRequest::setJobStatus(): job not found.")
  end.

(** The loop of [getQueueType()]: the first job whose status decides. *)
Fixpoint queue_type_loop (jobs : list RetrieveJob) (hasToReport : bool) : JobQueueType :=
  match jobs with
  | [] => if hasToReport then JobsToReportToUser else FailedJobs
  | j :: jobs' =>
      match rj_status j with
      | RJS_ToTransfer => JobsToTransferForUser
      | RJS_ToReportToRepackForSuccess => JobsToReportToRepackForSuccess
      | RJS_ToReportToUserForFailure => queue_type_loop jobs' true
      | RJS_ToReportToRepackForFailure => JobsToReportToRepackForFailure
      | RJS_Failed => queue_type_loop jobs' hasToReport
      end
  end.
Definition rr_getQueueType : RR JobQueueType :=
  _ ← rr_readable; r ← rr_payload; mret (queue_type_loop (rr_jobs r) false).

(** [getQueueType(copyNb)]. *)
Definition rr_getJobQueueType (copyNb : Z) : RR JobQueueType :=
  _ ← rr_readable;
  r ← rr_payload;
  match rr_find_job copyNb (rr_jobs r) with
  | Some j => mret (match rj_status j with
                    | RJS_ToTransfer => JobsToTransferForUser
                    | RJS_ToReportToRepackForSuccess => JobsToReportToRepackForSuccess
                    | RJS_ToReportToUserForFailure => JobsToReportToUser
                    | RJS_Failed => FailedJobs
                    | RJS_ToReportToRepackForFailure => JobsToReportToRepackForFailure
                    end)
  | None => throw (Exception "In RetrieveRequest::getJobQueueType(): Copy number not found.")
  end.

Definition rr_getFailures : RR (list string) :=
  _ ← rr_readable; r ← rr_payload; mret (concat (rj_failurelogs <$> rr_jobs r)).
Definition rr_getReportFailures : RR (list string) :=
  _ ← rr_readable; r ← rr_payload; mret (concat (rj_reportfailurelogs <$> rr_jobs r)).
Definition rr_setFailureReason (reason : string) : RR unit :=
  _ ← rr_writable; rr_modify (rr_set_failurereportlog reason).

(** ** Content of the request *)
Definition rr_setSchedulerRequest (q : RetrieveRequestData) : RR unit :=
  _ ← rr_writable;
  rr_modify (rr_set_schedulerrequest (mkSchedulerRequest
    (mkRequester (ri_name (rd_requester q)) (ri_group (rd_requester q))) (rd_archiveFileID q) (rd_dstURL q)
    (DiskFileInfo_serialize (rd_diskFileInfo q)) (EntryLog_serialize (rd_creationLog q)) (rd_errorReportURL q) (rd_isVerifyOnly q))).

(** The fields that the code does not set keep the values of a new object. *)
Definition rr_getSchedulerRequest : RR RetrieveRequestData :=
  _ ← rr_readable;
  r ← rr_payload;
  let sr := rr_schedulerrequest r in
  mret (mkRetrieveData (mkRequester (ri_name (sr_requester sr)) (ri_group (sr_requester sr)))
    (sr_archivefileid sr) (sr_dsturl sr) (sr_retrieveerrorreporturl sr) (DiskFileInfo_deserialize (sr_diskfileinfo sr))
    (EntryLog_deserialize (sr_entrylog sr)) (sr_isverifyonly sr) None no_timings None).

(** No check of the handle. *)
Definition rr_getArchiveFile : RR ArchiveFile :=
  r ← rr_payload; lift (ArchiveFile_deserialize (rr_archivefile r)).

Definition hardcodedRetriesWithinMount : Z := 3.
Definition hardcodedTotalRetries : Z := 6.
Definition hardcodedReportRetries : Z := 2.

(** One job per tape file; the mount policy is set in the loop, so a file without
    tape copies leaves it unset. *)
Definition rr_setRetrieveFileQueueCriteria (criteria : RetrieveFileQueueCriteria) : RR unit :=
  _ ← rr_writable;
  _ ← rr_modify (λ r, rr_set_archivefile (ArchiveFile_serialize (rc_archiveFile criteria) (rr_archivefile r)) r);
  mfor (af_tapeFiles (rc_archiveFile criteria)) (λ tf,
    _ ← rr_modify (rr_set_mountpolicy (MountPolicy_serialize (rc_mountPolicy criteria)));
    rr_addJob (tf_copyNb tf) hardcodedRetriesWithinMount hardcodedTotalRetries hardcodedReportRetries).

Definition rr_getRetrieveFileQueueCriteria : RR RetrieveFileQueueCriteria :=
  _ ← rr_readable;
  r ← rr_payload;
  af ← lift (ArchiveFile_deserialize (rr_archivefile r));
  mret (mkCriteria af (MountPolicy_deserialize (rr_mountpolicy r)) (mkFairShares "" ∅)).

(** [setActivityIfNeeded]: the weight is looked up after the other fields were
    written; [std::map::at] throws when the activity is unknown. *)
Definition rr_setActivityIfNeeded (q : RetrieveRequestData) (criteria : RetrieveFileQueueCriteria) : RR unit :=
  _ ← rr_writable;
  match rd_activity q with
  | None => mret tt
  | Some activity =>
      let fs := activitiesFairShareWeight criteria in
      r ← rr_payload;
      let w := default (mkWeight 0 "" "" 0 0) (rr_activity_weight r) in
      let w1 := mkWeight (retrievePriority (rc_mountPolicy criteria)) (fs_diskInstance fs) activity
                  (raw_weight w) (raw_creation_time w) in
      _ ← rr_modify (rr_set_activity_weight (Some w1));
      match activitiesWeights fs !! activity with
      | None => throw (Exception "map::at")
      | Some weight =>
          rr_modify (rr_set_activity_weight (Some (mkWeight (raw_priority w1) (raw_disk_instance_name w1)
            (raw_activity w1) weight (el_time (rd_creationLog q)))))
      end
  end.

(** The description of the activity of a message; the count of a description that
    [getActivity] fills has no initial value in the code. *)
Definition activity_of (r : RetrieveRequest) : option RetrieveActivityDescription :=
  (λ w, mkActivity (raw_priority w) (raw_disk_instance_name w) (raw_activity w) (raw_creation_time w)
          (raw_weight w) 0) <$> rr_activity_weight r.
Definition rr_getActivity : RR (option RetrieveActivityDescription) :=
  _ ← rr_readable; r ← rr_payload; mret (activity_of r).

Definition rr_setDiskSystemName (diskSystemName : string) : RR unit :=
  _ ← rr_writable; rr_modify (rr_set_disk_system_name (Some diskSystemName)).
Definition rr_getDiskSystemName : RR (option string) :=
  _ ← rr_readable; r ← rr_payload; mret (rr_disk_system_name r).

(** The routes and copy numbers are appended to those of the message. *)
Definition rr_setRepackInfo (ri : RetrieveRepackInfo) : RR unit :=
  _ ← rr_writable;
  _ ← rr_modify (rr_set_isrepack (rri_isRepack ri));
  if rri_isRepack ri then
    rr_modify (λ r,
      let m := rr_repack_info r in
      rr_set_repack_info (mkRetrieveRepackInfo (archive_routes m ++ routes_ascending (archiveRouteMap ri))
        (copy_nbs_to_rearchive m ++ ascending (copyNbsToRearchive ri)) (rri_repackRequestAddress ri)
        (rri_fileBufferURL ri) (rri_fSeq ri) (forceDisabledTape ri) (Some (hasUserProvidedFile ri))) r)
  else mret tt.

Definition rr_getLifecycleTimings : RR LifecycleTimings :=
  _ ← rr_readable; r ← rr_payload; mret (LifecycleTimings_deserialize (rr_lifecycle_timings r)).
Definition rr_setCreationTime (t : Z) : RR unit :=
  _ ← rr_writable;
  rr_modify (λ r, let m := rr_lifecycle_timings r in
    rr_set_lifecycle_timings (mkTimingsPb t (first_selected_time m) (completed_time m)) r).
Definition rr_setFirstSelectedTime (t : Z) : RR unit :=
  _ ← rr_writable;
  rr_modify (λ r, let m := rr_lifecycle_timings r in
    rr_set_lifecycle_timings (mkTimingsPb (creation_time m) t (completed_time m)) r).
Definition rr_setCompletedTime (t : Z) : RR unit :=
  _ ← rr_writable;
  rr_modify (λ r, let m := rr_lifecycle_timings r in
    rr_set_lifecycle_timings (mkTimingsPb (creation_time m) (first_selected_time m) t) r).

Definition rr_setActiveCopyNumber (activeCopyNb : Z) : RR unit :=
  _ ← rr_writable; rr_modify (rr_set_activecopynb activeCopyNb).
Definition rr_getActiveCopyNumber : RR Z := r ← rr_payload; mret (rr_activecopynb r).
Definition rr_getEntryLog : RR EntryLog :=
  _ ← rr_readable; r ← rr_payload; mret (EntryLog_deserialize (sr_entrylog (rr_schedulerrequest r))).
Definition rr_setIsVerifyOnly (isVerifyOnly : bool) : RR unit := rr_modify (rr_set_isverifyonly isVerifyOnly).

(** ** Asynchronous updates *)

(** Header of the object to update, whose type is checked. *)
Definition rr_parse_header (what : string) (c : B) : result (ObjectHeader B) :=
  match ParseFromString c with
  | None => Throw (Exception (what +:+ "could not parse header"))
  | Some oh =>
      if decide (h_type oh = RetrieveRequest_t) then Ok oh
      else Throw (Exception (what +:+ "wrong object type"))
  end.
Definition rr_parse_payload (what : string) (oh : ObjectHeader B) : result RetrieveRequest :=
  match ParseFromString (h_payload oh) with
  | None => Throw (Exception (what +:+ "could not parse payload"))
  | Some r => Ok r
  end.

(** [updateLifecycleTiming]; [now] is [time(nullptr)]. *)
Definition updateLifecycleTiming (now : Z) (j : RetrieveJob) (r : RetrieveRequest) : RetrieveRequest :=
  let t := LifecycleTimings_deserialize (rr_lifecycle_timings r) in
  let t' := match rj_status j with
            | RJS_ToTransfer =>
                if rj_totalretries j =? 0 then mkTimings (lt_creation_time t) now (lt_completed_time t) else t
            | _ => t
            end in
  rr_set_lifecycle_timings (LifecycleTimings_serialize t') r.

(** What the owner updater gathers for its caller. *)
Record RetrieveOwnerUpdate := mkRetrieveUpdate {
  ru_retrieveRequest : RetrieveRequestData;
  ru_archiveFile : ArchiveFile;
  ru_repackInfo : RetrieveRepackInfo;
  ru_jobStatus : RetrieveJobStatus;
  ru_activity : option RetrieveActivityDescription;
  ru_diskSystemName : option string
}.

(** The callback of [asyncUpdateJobOwner]. *)
Definition rr_update_owner (now : Z) (copyNumber : Z) (owner previousOwner : string) (c : B) :
    result (B * RetrieveOwnerUpdate) :=
  let what := "In RetrieveRequest::asyncUpdateJobOwner(): " in
  oh ← rr_parse_header what c;
  if negb (bool_decide (h_owner oh = previousOwner)) then Throw WrongPreviousOwner
  else
    r ← rr_parse_payload what oh;
    match rr_find_job copyNumber (rr_jobs r) with
    | None => Throw WrongPreviousOwner
    | Some j =>
        let sr := rr_schedulerrequest r in
        af ← ArchiveFile_deserialize (rr_archivefile r);
        let r' := updateLifecycleTiming now j r in
        let q := mkRetrieveData (mkRequester (ri_name (sr_requester sr)) (ri_group (sr_requester sr)))
          (afp_archivefileid (rr_archivefile r)) (sr_dsturl sr) (sr_retrieveerrorreporturl sr)
          (DiskFileInfo_deserialize (sr_diskfileinfo sr)) (EntryLog_deserialize (sr_entrylog sr)) (sr_isverifyonly sr) None
          (LifecycleTimings_deserialize (rr_lifecycle_timings r')) None in
        let ri := if rr_isrepack r then RetrieveRepack_deserialize (rr_repack_info r) no_retrieve_repack
                  else no_retrieve_repack in
        Ok (SerializeAsString (mkHeader (h_type oh) (h_version oh) owner (h_backupowner oh) (SerializeAsString r')),
            mkRetrieveUpdate q af ri (rj_status j) (activity_of r) (rr_disk_system_name r))
    end.

Definition rr_asyncUpdateJobOwner (now : Z) (copyNumber : Z) (owner previousOwner : string) :
    M (HState B RetrieveRequest St) (option RetrieveOwnerUpdate) :=
  o ← self;
  name ← lift (getAddressIfSet o);
  on_store (asyncUpdate name (rr_update_owner now copyNumber owner previousOwner)).

Definition rr_asyncDeleteJob : M (HState B RetrieveRequest St) unit :=
  o ← self;
  name ← lift (getAddressIfSet o);
  on_store (asyncDelete name).

(** The callback of [asyncReportSucceedForRepack]. *)
Definition rr_report_success (copyNb : Z) (c : B) : result (B * unit) :=
  let what := "In RetrieveRequest::asyncReportSucceedForRepack(): " in
  oh ← rr_parse_header what c;
  r ← rr_parse_payload what oh;
  match rr_find_job copyNb (rr_jobs r) with
  | Some _ =>
      let r' := rr_set_jobs (rr_update_job copyNb (rj_set_status RJS_ToReportToRepackForSuccess) (rr_jobs r)) r in
      Ok (SerializeAsString (mkHeader (h_type oh) (h_version oh) (h_owner oh) (h_backupowner oh)
            (SerializeAsString r')), tt)
  | None => Throw (Exception "In RetrieveRequest::asyncReportSucceedForRepack::lambda(): copyNb not found")
  end.
Definition rr_asyncReportSucceedForRepack (copyNb : Z) : M (HState B RetrieveRequest St) (option unit) :=
  o ← self;
  name ← lift (getAddressIfSet o);
  on_store (asyncUpdate name (rr_report_success copyNb)).

(** ** From a retrieve request to an archive request *)

(** The job that archives a copy again, with the limits of the retrieve job [j0]. *)
Definition rearchive_job (j0 : RetrieveJob) (routes : gmap Z string) (agent : string) (cn : Z) : ArchiveJob :=
  mkArchiveJob cn (default "" (routes !! cn)) "" agent AJS_ToTransferForRepack 0 0 0 (rj_maxtotalretries j0)
    (rj_maxretrieswithinmount j0) [] (rj_maxreportretries j0) 0 [].

(** The archive request built from the message; [jobs(0)] is read whatever the
    number of jobs.  [now] is [time(nullptr)] and [hostname] that of the process. *)
Definition archive_request_of (now : Z) (hostname agent : string) (r : RetrieveRequest) : result ArchiveRequest :=
  let file := rr_archivefile r in
  let ri := RetrieveRepack_deserialize (rr_repack_info r) no_retrieve_repack in
  m ← RepackInfo_serialize
        (mkRepackInfo true (rri_fSeq ri) (rri_repackRequestAddress ri) (rri_fileBufferURL ri) ∅) empty_repack_info;
  let cl := serializers.creationlog (rr_mountpolicy r) in
  match rr_jobs r with
  | [] => Throw index_out_of_range
  | j0 :: _ =>
      Ok (mkArchiveRequest (afp_archivefileid file) (rr_mountpolicy r) (afp_checksumblob file)
        (afp_creationtime file) (afp_reconciliationtime file) (afp_diskfileinfo file) (afp_diskfileid file)
        (afp_diskinstance file) "" "" (afp_filesize file) (sr_requester (rr_schedulerrequest r))
        (sr_dsturl (rr_schedulerrequest r)) (afp_storageclass file)
        (serializers.mkEntryLog (serializers.username cl) hostname (u64 now))
        (rearchive_job j0 (archiveRouteMap ri) agent <$> ascending (copyNbsToRearchive ri))
        false true m)
  end.

(** The callback of [asyncTransformToArchiveRequest]. *)
Definition rr_transform (now : Z) (hostname agent : string) (c : B) : result (B * unit) :=
  let what := "In RetrieveRequest::asyncTransformToArchiveRequest(): " in
  oh ← rr_parse_header what c;
  r ← rr_parse_payload what oh;
  ar ← archive_request_of now hostname agent r;
  Ok (SerializeAsString (mkHeader ArchiveRequest_t (h_version oh) (h_owner oh) (h_backupowner oh)
        (SerializeAsString ar)), tt).
Definition rr_asyncTransformToArchiveRequest (now : Z) (hostname : string) (processAgent : AgentReference) :
    M (HState B RetrieveRequest St) (option unit) :=
  o ← self;
  name ← lift (getAddressIfSet o);
  on_store (asyncUpdate name (rr_transform now hostname (m_agentAddress processAgent))).
End Operations.
