(* ===== verification/RetrieveRequestSpec.v ===== *)
(** * Correctness of retrieve requests

    Counting of failures and the decision after them, the hand-over of a request
    between owners, and the transformation of the request of a repack into an
    archive request. *)
From stdpp Require Import sorting.
From S2P Require Import Prelude DataTypes Backend ObjectOps Checksum ArchiveFile ArchiveRequest ArchiveRequestSpec RetrieveActivity RetrieveRequest.

(** ** Ascending enumeration of a set *)
Lemma ascending_perm (X : gset Z) : ascending X ≡ₚ elements X.
Proof. apply merge_sort_Permutation. Qed.

Lemma ascending_NoDup (X : gset Z) : NoDup (ascending X).
Proof. rewrite ascending_perm. apply NoDup_elements. Qed.

Lemma elem_of_ascending (X : gset Z) x : x ∈ ascending X ↔ x ∈ X.
Proof. by rewrite ascending_perm, elem_of_elements. Qed.

Lemma ascending_sorted (X : gset Z) : StronglySorted Z.le (ascending X).
Proof. apply Sorted_StronglySorted; [intros ???; lia|]. apply Sorted_merge_sort. intros x y. lia. Qed.

(** ** Counters

    The counters of a retrieve job are those of an archive job. *)
Definition counters_of (j : RetrieveJob) : ArchiveJob :=
  mkArchiveJob (rj_copynb j) "" "" "" AJS_ToTransferForUser (rj_totalretries j) (rj_retrieswithinmount j)
    (rj_lastmountwithfailure j) (rj_maxtotalretries j) (rj_maxretrieswithinmount j) (rj_failurelogs j)
    (rj_maxreportretries j) (rj_totalreportretries j) (rj_reportfailurelogs j).

Definition rr_count_all (j : RetrieveJob) (ms : list (Z * string)) : RetrieveJob :=
  foldl (λ j m, rr_count_failure (fst m) (snd m) j) j ms.

Lemma counters_of_count_all j ms : counters_of (rr_count_all j ms) = count_all (counters_of j) ms.
Proof.
  unfold rr_count_all, count_all. revert j. induction ms as [|m ms IH]; intros j; [done|].
  cbn [foldl]. by rewrite IH.
Qed.

Lemma rr_count_all_kept j ms :
  rj_copynb (rr_count_all j ms) = rj_copynb j ∧ rj_status (rr_count_all j ms) = rj_status j.
Proof.
  unfold rr_count_all. revert j. induction ms as [|m ms IH]; intros j; [done|]. cbn [foldl].
  by destruct (IH (rr_count_failure (fst m) (snd m) j)) as [-> ->].
Qed.

(** A job that was not tried yet. *)
Definition fresh_retrieve_job (j : RetrieveJob) : Prop :=
  rj_totalretries j = 0 ∧ rj_retrieswithinmount j = 0 ∧ rj_lastmountwithfailure j = 0 ∧ rj_failurelogs j = [].

Lemma rr_count_all_spec j ms :
  fresh_retrieve_job j → Z.of_nat (length ms) < 2 ^ 32 →
  let j' := rr_count_all j ms in
  rj_totalretries j' = Z.of_nat (length ms) ∧ rj_retrieswithinmount j' = trailing (fst <$> ms) ∧
  rj_failurelogs j' = snd <$> ms ∧
  rj_maxtotalretries j' = rj_maxtotalretries j ∧ rj_maxretrieswithinmount j' = rj_maxretrieswithinmount j.
Proof.
  intros Hfr Hl j'. pose proof (count_all_spec (counters_of j) ms Hfr Hl) as H. cbv zeta in H.
  rewrite <- counters_of_count_all in H. by destruct H as (? & ? & _ & ? & ? & ? & _).
Qed.

Section Spec.
Context {B St : Type} `{!Serializable B RetrieveRequest, !Serializable B ArchiveRequest}.
Context `{!Serializable B (ObjectHeader B), !Serializable bytes ChecksumPb, !Backend B St}.
Implicit Types (o : ObjectOps B RetrieveRequest) (r : RetrieveRequest).

Lemma rr_writable_ok o : writable o → rr_writable o = (Ok tt, o).
Proof. intros H. unfold rr_writable, get, lift, mbind, M_bind. by rewrite (proj2 (checkPayloadWritable_ok o) H). Qed.

(** ** Transfer failures *)

(** The report of a failure, and the decision after a failure that left the first
    job with the counters of [j]. *)
Definition failure_report r : RetrieveEnqueueing :=
  if rr_isrepack r then mkRetrieveStep REnqueueForReportForRepack RJS_ToReportToRepackForFailure
  else mkRetrieveStep REnqueueForReportForUser RJS_ToReportToUserForFailure.
Definition retrieve_step r (j : RetrieveJob) : RetrieveEnqueueing :=
  if rr_isverifyonly r || (rj_maxtotalretries j <=? rj_totalretries j) then failure_report r
  else mkRetrieveStep
         (if rj_retrieswithinmount j <? rj_maxretrieswithinmount j then REnqueueForTransferForUser else RNothing)
         RJS_ToTransfer.

Lemma rr_determineNextStep_spec cn o :
  writable o → cn ∈ rj_copynb <$> rr_jobs (m_payload o) →
  rr_determineNextStep cn RetrieveTransferFailed o = (Ok (failure_report (m_payload o)), o).
Proof.
  intros Hw Hcn. unfold rr_determineNextStep. mstep (rr_writable_ok o Hw).
  unfold rr_payload, gets, mbind, M_bind.
  assert (existsb (λ j, rj_copynb j =? cn) (rr_jobs (m_payload o)) = true) as ->; [|done].
  apply list_elem_of_fmap in Hcn as (j & -> & Hj). apply existsb_exists. exists j.
  rewrite <- list_elem_of_In. by rewrite Z.eqb_refl.
Qed.

(** The first job after a failure of copy [cn]. *)
Definition first_failed (cn m : Z) (why : string) (j0 : RetrieveJob) : RetrieveJob :=
  if rj_copynb j0 =? cn then rr_count_failure m why j0 else j0.

Lemma first_failed_copynb cn m why j0 : rj_copynb (first_failed cn m why j0) = rj_copynb j0.
Proof. unfold first_failed. by case_match. Qed.

Lemma rr_addTransferFailure_spec cn m why o j0 jobs :
  writable o → rr_jobs (m_payload o) = j0 :: jobs → cn ∈ rj_copynb <$> (j0 :: jobs) →
  let j := first_failed cn m why j0 in
  rr_addTransferFailure cn m why o =
    (Ok (retrieve_step (m_payload o) j), with_payload (rr_set_jobs (j :: jobs) (m_payload o)) o).
Proof.
  intros Hw Hjobs Hcn j. unfold rr_addTransferFailure. mstep (rr_writable_ok o Hw).
  unfold rr_payload, gets, mbind at 1, M_bind at 1. rewrite Hjobs. fold (first_failed cn m why j0). fold j.
  unfold rr_modify, modify, mbind at 1, M_bind at 1. cbn zeta.
  set (o1 := with_payload (rr_set_jobs (j :: jobs) (m_payload o)) o).
  assert (Hd : rr_determineNextStep cn RetrieveTransferFailed o1 = (Ok (failure_report (m_payload o)), o1)).
  { apply (rr_determineNextStep_spec cn o1); [done|]. simpl. unfold j. by rewrite first_failed_copynb. }
  unfold retrieve_step. destruct (rr_isverifyonly (m_payload o)); [exact Hd|]. simpl orb.
  rewrite Z.leb_antisym. destruct (rj_totalretries j <? rj_maxtotalretries j); [done|exact Hd].
Qed.

(** A series of failures: copy number, mount and reason. *)
Definition rr_fail_all (evs : list (Z * (Z * string))) : M (ObjectOps B RetrieveRequest) unit :=
  mfor evs (λ e, _ ← rr_addTransferFailure (fst e) (fst (snd e)) (snd (snd e)); mret tt).

(** The failures of one copy. *)
Definition failures_of (cn : Z) (evs : list (Z * (Z * string))) : list (Z * string) :=
  snd <$> filter (λ e, fst e = cn) evs.

Lemma failures_of_snoc cn evs e j :
  rr_count_all j (failures_of cn (evs ++ [e])) =
    (if decide (fst e = cn) then rr_count_failure (fst (snd e)) (snd (snd e)) else id)
      (rr_count_all j (failures_of cn evs)).
Proof.
  unfold failures_of, rr_count_all. rewrite filter_app, fmap_app, foldl_app, filter_cons.
  by case_decide.
Qed.

Lemma failures_of_length cn evs : (length (failures_of cn evs) <= length evs)%nat.
Proof. unfold failures_of. rewrite length_fmap. apply length_filter. Qed.

Lemma rr_fail_all_spec evs o j0 jobs :
  writable o → rr_jobs (m_payload o) = j0 :: jobs →
  Forall (λ e, fst e ∈ rj_copynb <$> (j0 :: jobs)) evs →
  rr_fail_all evs o =
    (Ok tt, with_payload (rr_set_jobs (rr_count_all j0 (failures_of (rj_copynb j0) evs) :: jobs) (m_payload o)) o).
Proof.
  intros Hw Hjobs. induction evs as [|e evs IH] using rev_ind; intros Hall.
  - unfold rr_fail_all. simpl. rewrite <- Hjobs. by destruct o as [? ? ? [] ?].
  - apply Forall_app in Hall as [Hall He]. apply Forall_cons in He as [He _]. specialize (IH Hall).
    unfold rr_fail_all in *. rewrite mfor_app. mstep IH. set (o1 := with_payload _ o). simpl mfor.
    set (j1 := rr_count_all j0 (failures_of (rj_copynb j0) evs)) in *.
    assert (Hcn : rj_copynb j1 = rj_copynb j0) by apply rr_count_all_kept.
    pose proof (rr_addTransferFailure_spec (fst e) (fst (snd e)) (snd (snd e)) o1 j1 jobs Hw eq_refl) as E.
    cbv zeta in E. rewrite fmap_cons, Hcn in E. specialize (E He).
    unfold mbind, M_bind. rewrite E. unfold mret, M_ret. f_equal.
    rewrite failures_of_snoc. fold j1. unfold first_failed, o1. rewrite Hcn.
    destruct (Z.eqb_spec (rj_copynb j0) (fst e)) as [->|Hne]; [by rewrite decide_True|].
    by rewrite decide_False by congruence.
Qed.

(** C39: failed transfers of a retrieve request are counted for its first copy only,
    and bounded through it.  Let transfers of the copies of a request fail in any
    order, the last time on copy [cn].  No call throws; the first job then has the
    number of failures of its own copy, the length of its last series on one mount
    and its reasons in order, and the other jobs are unchanged.  The last decision,
    whatever the copy that failed, follows these counters: below the limit of the
    first job the request goes back to be transferred, to the same mount while the
    series is below the limit within a mount; from the limit on, or when the request
    only verifies the tape, the failure is reported to the repack request or to the
    user.  So the failures of another copy are never counted; one is reported only
    when the first copy is at its limit or the request only verifies. *)
Theorem retrieve_failures_counted evs cn m why o j0 jobs :
  writable o → rr_jobs (m_payload o) = j0 :: jobs → fresh_retrieve_job j0 →
  Forall (λ e, fst e ∈ rj_copynb <$> (j0 :: jobs)) evs → cn ∈ rj_copynb <$> (j0 :: jobs) →
  Z.of_nat (length evs) + 1 < 2 ^ 32 →
  let r := m_payload o in
  let ms := failures_of (rj_copynb j0) (evs ++ [(cn, (m, why))]) in
  let n := Z.of_nat (length ms) in
  let series := trailing (fst <$> ms) in
  ∃ step o' j', (_ ← rr_fail_all evs; rr_addTransferFailure cn m why) o = (Ok step, o') ∧
    m_payload o' = rr_set_jobs (j' :: jobs) r ∧
    rj_totalretries j' = n ∧ rj_retrieswithinmount j' = series ∧ rj_failurelogs j' = snd <$> ms ∧
    rj_status j' = rj_status j0 ∧
    (rr_isverifyonly r = false → n < rj_maxtotalretries j0 →
       step = mkRetrieveStep (if series <? rj_maxretrieswithinmount j0 then REnqueueForTransferForUser else RNothing)
                RJS_ToTransfer) ∧
    (rr_isverifyonly r = true ∨ rj_maxtotalretries j0 <= n →
       step = if rr_isrepack r then mkRetrieveStep REnqueueForReportForRepack RJS_ToReportToRepackForFailure
              else mkRetrieveStep REnqueueForReportForUser RJS_ToReportToUserForFailure).
Proof.
  intros Hw Hjobs Hfr Hall Hcn Hl r ms n series.
  pose proof (rr_fail_all_spec evs o j0 jobs Hw Hjobs Hall) as E1. set (o1 := with_payload _ o) in E1.
  set (j1 := rr_count_all j0 (failures_of (rj_copynb j0) evs)) in *.
  assert (Hcn1 : rj_copynb j1 = rj_copynb j0) by apply rr_count_all_kept.
  pose proof (rr_addTransferFailure_spec cn m why o1 j1 jobs Hw eq_refl) as E2. cbv zeta in E2.
  rewrite fmap_cons, Hcn1 in E2. specialize (E2 Hcn).
  assert (Ej : first_failed cn m why j1 = rr_count_all j0 ms).
  { unfold ms. rewrite failures_of_snoc. fold j1. unfold first_failed. rewrite Hcn1. simpl.
    destruct (Z.eqb_spec (rj_copynb j0) cn) as [->|]; [by rewrite decide_True|by rewrite decide_False by congruence]. }
  rewrite Ej in E2.
  destruct (rr_count_all_spec j0 ms Hfr) as (C1 & C2 & C3 & C4 & C5).
  { pose proof (failures_of_length (rj_copynb j0) (evs ++ [(cn, (m, why))])) as H.
    rewrite length_app in H. simpl in H. unfold ms. lia. }
  do 2 eexists. exists (rr_count_all j0 ms). split; [mstep E1; exact E2|].
  split_and!; try done; [apply rr_count_all_kept|..]; unfold retrieve_step, failure_report, o1; simpl;
    rewrite C1, C2, C4, C5; fold n series r.
  - intros -> Hn. by rewrite (proj2 (Z.leb_gt _ _)).
  - intros [->|Hn]; [done|]. by rewrite (proj2 (Z.leb_le _ _) Hn), orb_true_r.
Qed.

(** ** Updates of the stored request *)
Lemma rr_parse_stored s n h r :
  stored (B:=B) s n = Some (h, r) →
  ∃ c, be_view s !! n = Some c ∧ ∀ what, rr_parse_header what c = Ok h ∧ rr_parse_payload what h = Ok r.
Proof.
  intros (c & Hc & Hh & Ht & Hp)%stored_view. exists c. split; [done|]. intros what.
  unfold rr_parse_header, rr_parse_payload. rewrite Hh, Hp. simpl in Ht. by rewrite decide_True by done.
Qed.

(** An update of the object of a handle is an update of the store. *)
Lemma async_on_store {A} o (f : B → result (B * A)) s x s' :
  m_nameSet o = true → asyncUpdate (m_name o) f s = (x, s') →
  (o ← self; name ← lift (getAddressIfSet o); on_store (asyncUpdate name f)) (o, s) = (x, (o, s')).
Proof.
  intros Hn E. unfold self, gets, lift, on_store, mbind, M_bind. simpl.
  rewrite getAddressIfSet_ok by done. by rewrite E.
Qed.

(** The object of another message type in the store. *)
Lemma stored_overwritten {P} `{!Serializable B P, !Message P} (s s' : St) n (h : ObjectHeader B) (p : P) :
  be_view s' = <[n := SerializeAsString h]> (be_view s) → h_type h = payloadTypeId (P:=P) →
  h_payload h = SerializeAsString p →
  stored s' n = Some (h, p) ∧ ∀ m, m ≠ n → be_view s' !! m = be_view s !! m.
Proof.
  intros Hv Ht Hp. split.
  - unfold stored. rewrite Hv, lookup_insert_eq, parse_serialize. rewrite decide_True by done.
    by rewrite Hp, parse_serialize.
  - intros m Hm. by rewrite Hv, lookup_insert_ne.
Qed.

(** ** Ownership *)
Lemma rr_update_refused now o s h r cn owner prev :
  be_wf s → m_nameSet o = true → stored s (m_name o) = Some (h, r) →
  h_owner h ≠ prev ∨ rr_find_job cn (rr_jobs r) = None →
  rr_asyncUpdateJobOwner now cn owner prev (o, s) = (Throw WrongPreviousOwner, (o, s)).
Proof.
  intros Hwf Hn Hst H. destruct (rr_parse_stored _ _ _ _ Hst) as (c & Hc & Hparse).
  apply async_on_store; [done|]. eapply asyncUpdate_throw; [done|exact Hc| |done].
  unfold rr_update_owner. rewrite (proj1 (Hparse _)). simpl.
  case_bool_decide as Ho; [|done]. simpl. rewrite (proj2 (Hparse _)). simpl.
  by destruct H as [Hne|Hnone]; [|rewrite Hnone].
Qed.

(** The timings after the request was taken over at time [now]. *)
Definition selected_timings (now : Z) (j : RetrieveJob) (m : LifecycleTimingsPb) : LifecycleTimingsPb :=
  mkTimingsPb (u64 (s64 (creation_time m)))
    (u64 (if bool_decide (rj_status j = RJS_ToTransfer) && (rj_totalretries j =? 0) then now
          else s64 (first_selected_time m)))
    (u64 (s64 (completed_time m))).

Lemma updateLifecycleTiming_spec now j r :
  updateLifecycleTiming now j r = rr_set_lifecycle_timings (selected_timings now j (rr_lifecycle_timings r)) r.
Proof. unfold updateLifecycleTiming, selected_timings. destruct (rj_status j); simpl; try done. by case_match. Qed.

(** a retrieve request is owned as a whole and passes from owner to owner once.
    When an agent [a] takes over a stored request from its owner [prev], the object
    is owned by [a], only the timings of the payload change (the time of the first
    selection is set when the job has never failed), the agent receives the file and
    the status of its copy, and no other object changes.  Any later attempt to take
    the request from [prev], by another agent or by [a] itself, for any copy, is
    refused and changes nothing; so is an attempt for a copy the request does not
    have. *)
Lemma retrieve_ownership_race now now2 o o2 s h r cn cn2 j f a b prev :
  be_wf s → m_nameSet o = true → m_nameSet o2 = true → m_name o2 = m_name o →
  stored s (m_name o) = Some (h, r) → h_owner h = prev → a ≠ prev →
  ArchiveFile_deserialize (rr_archivefile r) = Ok f → rr_find_job cn (rr_jobs r) = Some j →
  (∃ u s' h', rr_asyncUpdateJobOwner now cn a prev (o, s) = (Ok (Some u), (o, s')) ∧ be_wf s' ∧
     stored s' (m_name o) =
       Some (h', rr_set_lifecycle_timings (selected_timings now j (rr_lifecycle_timings r)) r) ∧
     h_owner h' = a ∧ ru_archiveFile u = f ∧ ru_jobStatus u = rj_status j ∧
     (∀ n, n ≠ m_name o → be_view s' !! n = be_view s !! n) ∧
     rr_asyncUpdateJobOwner now2 cn2 b prev (o2, s') = (Throw WrongPreviousOwner, (o2, s'))) ∧
  (rr_find_job cn2 (rr_jobs r) = None →
     rr_asyncUpdateJobOwner now cn2 a prev (o, s) = (Throw WrongPreviousOwner, (o, s))).
Proof.
  intros Hwf Hn Hn2 Hname Hst Ho Hap Hf Hj. split; [|intros; eapply rr_update_refused; eauto].
  destruct (rr_parse_stored _ _ _ _ Hst) as (c & Hc & Hparse).
  set (r' := rr_set_lifecycle_timings _ r).
  set (h' := mkHeader (h_type h) (h_version h) a (h_backupowner h) (SerializeAsString r')).
  assert (∃ u, rr_update_owner now cn a prev c = Ok (SerializeAsString h', u) ∧
            ru_archiveFile u = f ∧ ru_jobStatus u = rj_status j) as (u & Hu & Hu1 & Hu2).
  { unfold rr_update_owner. rewrite (proj1 (Hparse _)). simpl. rewrite bool_decide_true by done. simpl.
    rewrite (proj2 (Hparse _)). simpl. rewrite Hj, Hf. simpl. rewrite updateLifecycleTiming_spec.
    eexists. by split_and!. }
  destruct (asyncUpdate_ok _ _ s c _ _ Hwf Hc Hu) as (s' & E & Hwf' & Hv).
  destruct (stored_overwritten s s' _ h' r' Hv) as [Hst' Hoth]; [|done|].
  { apply stored_view in Hst as (? & _ & _ & Ht & _). exact Ht. }
  exists u, s', h'. split_and!; try done; [by apply async_on_store|].
  apply (rr_update_refused now2 o2 s' h' r'); [done|done|by rewrite Hname|by left].
Qed.

(** ** From a retrieve request to an archive request *)
Definition repack_of r : RetrieveRepackInfo := RetrieveRepack_deserialize (rr_repack_info r) no_retrieve_repack.

Definition without_tape_files (f : ArchiveFile) : ArchiveFile :=
  mkArchiveFile (archiveFileID f) (af_diskFileId f) (af_diskInstance f) (af_fileSize f) (af_checksumBlob f)
    (af_storageClass f) (af_diskFileInfo f) [] (af_creationTime f) (af_reconciliationTime f).

Lemma archive_request_of_spec now host agent r j0 jobs :
  rr_jobs r = j0 :: jobs →
  ∃ ar, archive_request_of now host agent r = Ok ar ∧
    ar_jobs ar = rearchive_job j0 (archiveRouteMap (repack_of r)) agent <$> ascending (copyNbsToRearchive (repack_of r)) ∧
    ar_isrepack ar = true ∧ ar_reportdecided ar = false ∧
    ar_srcurl ar = sr_dsturl (rr_schedulerrequest r) ∧ ar_mountpolicy ar = rr_mountpolicy r ∧
    RepackInfo_deserialize (ar_repack_info ar) no_repack_info =
      mkRepackInfo true (rri_fSeq (repack_of r)) (rri_repackRequestAddress (repack_of r))
        (rri_fileBufferURL (repack_of r)) ∅ ∧
    (∀ f, ArchiveFile_deserialize (rr_archivefile r) = Ok f → file_of ar = Ok (without_tape_files f)).
Proof.
  intros Hjobs. unfold archive_request_of. simpl. rewrite Hjobs. eexists. split; [reflexivity|].
  split_and!; try done. intros f. unfold ArchiveFile_deserialize, file_of. simpl.
  destruct (cs_deserialize (afp_checksumblob (rr_archivefile r))) as [cs|]; [|done]. simpl.
  destruct (deserialize_tapefiles (afp_tapefiles (rr_archivefile r))) as [ts|]; [|done]. simpl.
  intros [= <-]. unfold without_tape_files. simpl. by destruct (afp_diskfileinfo (rr_archivefile r)).
Qed.

(** The object has another type: a handle of a retrieve request cannot be used. *)
Lemma rr_fetch_wrong_type o s n c (h : ObjectHeader B) :
  be_wf s → m_nameSet o = true → m_name o = n → be_view s !! n = Some c → ParseFromString c = Some h →
  h_type h ≠ RetrieveRequest_t → ∃ o', lockfreeFetch (o, s) = (Throw WrongType, (o', s)).
Proof.
  intros Hwf Hn <- Hc Hh Ht. unfold lockfreeFetch, self, set_self, gets, modify, lift, on_store, mbind, M_bind. simpl.
  rewrite getAddressIfSet_ok by done. rewrite be_read_spec, Hc by done. simpl.
  unfold getHeaderFromObjectData, self, set_self, gets, modify, mbind, M_bind. simpl. rewrite Hh. simpl.
  rewrite decide_False by done. unfold throw. simpl. by eexists.
Qed.

(** a stored retrieve request of a repack becomes the archive request that writes
    the file again.  The update succeeds and replaces the object by an archive
    request of the same owner, and touches no other object.  The new request has the
    file without its tape copies, the disk buffer as source, the address of the
    repack request, and exactly one job per copy to rearchive, in ascending order,
    for the tape pool of its route, owned by the agent, with no failure counted and
    the limits of the first retrieve job.  If no two of these copies have the same
    route, the tape pools are distinct, as the commit of an archive request demands.
    The handle of the retrieve request can neither be fetched nor transformed again. *)
Lemma transform_to_archive_request now host agent o s h r j0 jobs :
  be_wf s → m_nameSet o = true → stored s (m_name o) = Some (h, r) → rr_jobs r = j0 :: jobs →
  let routes := archiveRouteMap (repack_of r) in
  let copies := copyNbsToRearchive (repack_of r) in
  ∃ s' h' ar, rr_asyncTransformToArchiveRequest now host agent (o, s) = (Ok (Some tt), (o, s')) ∧ be_wf s' ∧
    stored s' (m_name o) = Some (h', ar) ∧ h_owner h' = h_owner h ∧
    (∀ n, n ≠ m_name o → be_view s' !! n = be_view s !! n) ∧
    (∀ f, ArchiveFile_deserialize (rr_archivefile r) = Ok f → file_of ar = Ok (without_tape_files f)) ∧
    ar_srcurl ar = sr_dsturl (rr_schedulerrequest r) ∧ ar_isrepack ar = true ∧ ar_reportdecided ar = false ∧
    repackRequestAddress (RepackInfo_deserialize (ar_repack_info ar) no_repack_info) =
      rri_repackRequestAddress (repack_of r) ∧
    NoDup (aj_copynb <$> ar_jobs ar) ∧ StronglySorted Z.le (aj_copynb <$> ar_jobs ar) ∧
    (∀ cn, cn ∈ aj_copynb <$> ar_jobs ar ↔ cn ∈ copies) ∧
    Forall (λ j, aj_tapepool j = default "" (routes !! aj_copynb j) ∧ aj_owner j = m_agentAddress agent ∧
      aj_status j = AJS_ToTransferForRepack ∧ fresh_job j ∧ aj_maxtotalretries j = rj_maxtotalretries j0 ∧
      aj_maxretrieswithinmount j = rj_maxretrieswithinmount j0) (ar_jobs ar) ∧
    ((∀ c1 c2, c1 ∈ copies → c2 ∈ copies → default "" (routes !! c1) = default "" (routes !! c2) → c1 = c2) →
       NoDup (aj_tapepool <$> ar_jobs ar)) ∧
    (∃ o', lockfreeFetch (o, s') = (Throw WrongType, (o', s'))) ∧
    ∃ e, rr_asyncTransformToArchiveRequest now host agent (o, s') = (Throw (Exception e), (o, s')).
Proof.
  intros Hwf Hn Hst Hjobs routes copies. destruct (rr_parse_stored _ _ _ _ Hst) as (c & Hc & Hparse).
  destruct (archive_request_of_spec now host (m_agentAddress agent) r j0 jobs Hjobs)
    as (ar & Har & Hj & Hre & Hrd & Hsrc & _ & Hri & Hfile).
  set (h' := mkHeader ArchiveRequest_t (h_version h) (h_owner h) (h_backupowner h) (SerializeAsString ar)).
  assert (Hf : rr_transform now host (m_agentAddress agent) c = Ok (SerializeAsString h', tt)).
  { unfold rr_transform. rewrite (proj1 (Hparse _)). simpl. rewrite (proj2 (Hparse _)). simpl. by rewrite Har. }
  destruct (asyncUpdate_ok _ _ s c _ _ Hwf Hc Hf) as (s' & E & Hwf' & Hv).
  destruct (stored_overwritten s s' _ h' ar Hv) as [Hst' Hoth]; [done|done|].
  assert (Hc' : be_view s' !! m_name o = Some (SerializeAsString h')) by (by rewrite Hv, lookup_insert_eq).
  assert (Hcopies : aj_copynb <$> ar_jobs ar = ascending copies).
  { rewrite Hj, <- list_fmap_compose. apply list_fmap_id. }
  exists s', h', ar. split; [by apply async_on_store|]. rewrite Hcopies, Hri.
  split_and!; try done.
  - apply ascending_NoDup.
  - apply ascending_sorted.
  - apply elem_of_ascending.
  - rewrite Hj. apply Forall_fmap, Forall_true. by intros cn.
  - intros Hinj. rewrite Hj, <- list_fmap_compose. apply NoDup_fmap_2_strong; [|apply ascending_NoDup].
    intros c1 c2 H1%elem_of_ascending H2%elem_of_ascending. apply Hinj; done.
  - apply (rr_fetch_wrong_type o s' _ _ h' Hwf' Hn eq_refl Hc'); [apply parse_serialize|done].
  - eexists. apply async_on_store; [done|]. eapply asyncUpdate_throw; [done|exact Hc'| |done].
    unfold rr_transform, rr_parse_header. rewrite parse_serialize. simpl. reflexivity.
Qed.
End Spec.
