(* ===== verification/RetrieveRequestExamples.v ===== *)
(** * A retrieve request of a repack in the file system backend

    A request built with the operations of [RetrieveRequest.v] and stored with
    [VFS], on which the theorems on retrieve requests are instantiated. *)
From S2P Require Import Prelude DataTypes Backend ObjectOps Checksum ArchiveFile ArchiveRequest ArchiveRequestSpec RetrieveActivity RetrieveRequest RetrieveRequestSpec.
Import Blob.
#[local] Existing Instance demo_codec.

(** The messages of the example. *)
Definition rr_msg : Type := RetrieveRequest + ArchiveRequest.
#[export] Program Instance OneOf_retrieve_request : OneOf rr_msg RetrieveRequest := {|
  inj_msg := inl; proj_msg m := match m with inl x => Some x | inr _ => None end |}.
Next Obligation. done. Qed.
#[export] Program Instance OneOf_archive_request : OneOf rr_msg ArchiveRequest := {|
  inj_msg := inr; proj_msg m := match m with inr x => Some x | inl _ => None end |}.
Next Obligation. done. Qed.

Definition rr_dummy : blob rr_msg := BHdr GenericObject_t 0 "" "" (BMsg (inl default_message)).

Definition rr_ex_file : ArchiveFile :=
  mkArchiveFile 12 "df" "eos" 1000 demo_blob "sc" (mkDiskFileInfo "/f" 1 2)
    [mkTapeFile "V01" 5 0 1000 1 7 demo_blob; mkTapeFile "V02" 9 0 1000 2 7 demo_blob] 3 4.
Definition rr_ex_policy : MountPolicy :=
  mkMountPolicy "policy" 1 2 3 4 (mkEntryLog "op" "h" 5) (mkEntryLog "op" "h" 6) "".
Definition rr_ex_data : RetrieveRequestData :=
  mkRetrieveData (mkRequester "user" "group") 12 "buffer/f" "" (mkDiskFileInfo "/f" 1 2) (mkEntryLog "u" "h" 8)
    false None no_timings (Some "reprocessing").
Definition rr_ex_criteria : RetrieveFileQueueCriteria :=
  mkCriteria rr_ex_file rr_ex_policy (mkFairShares "eos" {["reprocessing" := 77]}).
Definition rr_ex_repack : RetrieveRepackInfo :=
  mkRetrieveRepack true true (<[2 := "poolB"]> {[1 := "poolA"]}) {[2; 1]} "repackRequest" 5 "buffer/f" false.

(** The request as the operations fill it, and its handle. *)
Definition rr_ex_build : result unit * ObjectOps (blob rr_msg) RetrieveRequest :=
  (_ ← rr_initialize;
   _ ← rr_setSchedulerRequest rr_ex_data;
   _ ← rr_setRetrieveFileQueueCriteria rr_ex_criteria;
   _ ← rr_setActivityIfNeeded rr_ex_data rr_ex_criteria;
   _ ← rr_setRepackInfo rr_ex_repack;
   _ ← rr_setActiveCopyNumber 1;
   rr_setCreationTime 100) (new_object rr_dummy).
Definition rr_ex : RetrieveRequest := m_payload (snd rr_ex_build).

Definition rr_ex_header : ObjectHeader (blob rr_msg) := mkHeader RetrieveRequest_t 0 "agentA" "" (BMsg (inl rr_ex)).
Definition rr_ex_handle : ObjectOps (blob rr_msg) RetrieveRequest :=
  mkOps true "request" rr_ex_header rr_ex (mkFlags true true true 1 1 false true false).
Definition rr_ex_store : VFS.vfs (blob rr_msg) :=
  VFS.mkVfs {["request" := BHdr RetrieveRequest_t 0 "agentA" "" (BMsg (inl rr_ex))]} {["request"]}.

(** What was set is read back. *)
Example rr_ex_reads :
  fst rr_ex_build = Ok tt ∧
  fst (rr_getRepackInfo rr_ex_handle) = Ok rr_ex_repack ∧
  fst (rr_getArchiveFile rr_ex_handle) = Ok rr_ex_file ∧
  fst (rr_getLastActiveVid rr_ex_handle) = Ok "V01" ∧
  fst (rr_getQueueType rr_ex_handle) = Ok JobsToTransferForUser ∧
  fst (rr_getActivity rr_ex_handle) = Ok (Some (mkActivity 3 "eos" "reprocessing" 8 77 0)) ∧
  fst (rr_getSchedulerRequest rr_ex_handle) =
    Ok (mkRetrieveData (mkRequester "user" "group") 12 "buffer/f" "" (mkDiskFileInfo "/f" 1 2)
          (mkEntryLog "u" "h" 8) false None no_timings None) ∧
  fst (rr_getRetryStatus 2 rr_ex_handle) = Ok (mkRetrieveRetryStatus 0 3 0 6 0 2).
Proof. by vm_compute. Qed.

(** An activity without a weight throws, after the activity was written. *)
Example rr_ex_unknown_activity :
  let q := mkRetrieveData (mkRequester "user" "group") 12 "" "" (mkDiskFileInfo "/f" 1 2) (mkEntryLog "u" "h" 8)
             false None no_timings (Some "other") in
  let '(res, o) := rr_setActivityIfNeeded q rr_ex_criteria rr_ex_handle in
  res = Throw (Exception "map::at") ∧ (raw_activity <$> rr_activity_weight (m_payload o)) = Some "other".
Proof. by vm_compute. Qed.

(** The second copy fails a hundred times and is still to be retried. *)
Example rr_ex_endless_retries :
  fst ((_ ← rr_fail_all (replicate 99 (2, (7, "bad tape"))); rr_addTransferFailure 2 7 "bad tape") rr_ex_handle) =
    Ok (mkRetrieveStep REnqueueForTransferForUser RJS_ToTransfer).
Proof. by vm_compute. Qed.

(** An aborted mount counts in the copy it concerns and is reported to the repack. *)
Example rr_ex_abort :
  let '(res, o) := rr_addReportAbort 2 7 "aborted" rr_ex_handle in
  res = Ok (mkRetrieveStep REnqueueForReportForRepack RJS_ToReportToRepackForFailure) ∧
  rj_totalretries <$> rr_jobs (m_payload o) = [0; 1].
Proof. by vm_compute. Qed.

Lemma rr_ex_wf : be_wf rr_ex_store.
Proof. done. Qed.
Lemma rr_ex_stored : stored rr_ex_store "request" = Some (rr_ex_header, rr_ex).
Proof. by vm_compute. Qed.
Lemma rr_ex_writable : writable rr_ex_handle.
Proof. split; [done|]. intros _. split; [done|by left]. Qed.

(** The first copy fails twice on mount 7 and the second once in between. *)
Lemma retrieve_failures_counted_witness :
  ∃ step o', (_ ← rr_fail_all [(1, (7, "a")); (2, (7, "b"))]; rr_addTransferFailure 1 7 "c") rr_ex_handle =
    (Ok step, o') ∧ step = mkRetrieveStep REnqueueForTransferForUser RJS_ToTransfer.
Proof.
  destruct (retrieve_failures_counted [(1, (7, "a")); (2, (7, "b"))] 1 7 "c" rr_ex_handle
    (default (mkRetrieveJob 0 0 0 0 0 RJS_Failed 0 [] 0 0 []) (head (rr_jobs rr_ex))) (tail (rr_jobs rr_ex)))
    as (step & o' & j' & E & _ & _ & _ & _ & _ & H & _).
  - apply rr_ex_writable.
  - by vm_compute.
  - by vm_compute.
  - by apply (bool_decide_unpack _); vm_compute.
  - by apply (bool_decide_unpack _); vm_compute.
  - by vm_compute.
  - exists step, o'. split; [exact E|]. apply H; by vm_compute.
Defined.

Lemma retrieve_ownership_race_witness :
  ∃ u s' h', rr_asyncUpdateJobOwner 200 1 "agentB" "agentA" (rr_ex_handle, rr_ex_store) =
      (Ok (Some u), (rr_ex_handle, s')) ∧ be_wf s' ∧
    stored s' "request" = Some (h', rr_set_lifecycle_timings (mkTimingsPb 100 200 0) rr_ex) ∧
    h_owner h' = "agentB" ∧
    rr_asyncUpdateJobOwner 300 2 "agentC" "agentA" (rr_ex_handle, s') =
      (Throw WrongPreviousOwner, (rr_ex_handle, s')).
Proof.
  destruct (proj1 (retrieve_ownership_race 200 300 rr_ex_handle rr_ex_handle rr_ex_store rr_ex_header rr_ex 1 2
    (default (mkRetrieveJob 0 0 0 0 0 RJS_Failed 0 [] 0 0 []) (head (rr_jobs rr_ex))) rr_ex_file
    "agentB" "agentC" "agentA" rr_ex_wf eq_refl eq_refl eq_refl rr_ex_stored eq_refl ltac:(discriminate)
    ltac:(by vm_compute) ltac:(by vm_compute))) as (u & s' & h' & E & Hwf & Hst & Ho & _ & _ & _ & Hr).
  exists u, s', h'. by split_and!.
Defined.

Lemma transform_to_archive_request_witness :
  ∃ s' h' ar, rr_asyncTransformToArchiveRequest 400 "host" (mkAgent "agentB" 0) (rr_ex_handle, rr_ex_store) =
      (Ok (Some tt), (rr_ex_handle, s')) ∧ be_wf s' ∧ stored s' "request" = Some (h', ar) ∧
    h_owner h' = "agentA" ∧ NoDup (aj_tapepool <$> ar_jobs ar).
Proof.
  destruct (transform_to_archive_request 400 "host" (mkAgent "agentB" 0) rr_ex_handle rr_ex_store rr_ex_header rr_ex
    (default (mkRetrieveJob 0 0 0 0 0 RJS_Failed 0 [] 0 0 []) (head (rr_jobs rr_ex))) (tail (rr_jobs rr_ex))
    rr_ex_wf eq_refl rr_ex_stored ltac:(by vm_compute))
    as (s' & h' & ar & E & Hwf & Hst & Ho & _ & _ & _ & _ & _ & _ & _ & _ & _ & _ & Hpools & _).
  exists s', h', ar. split_and!; [exact E|exact Hwf|exact Hst|exact Ho|]. apply Hpools.
  assert (Hc : copyNbsToRearchive (repack_of rr_ex) = {[1; 2]}) by (by apply (bool_decide_unpack _); vm_compute).
  rewrite Hc. intros c1 c2. rewrite !elem_of_union, !elem_of_singleton.
  intros [->| ->] [->| ->]; by vm_compute.
Defined.
