(* ===== verification/AgentWrapper.v ===== *)
(** * Ownership through an agent object

    Model of [objectstore/AgentWrapper.cpp]: the ownership list of an agent is
    changed through a handle of the agent object, one lock, fetch and commit per
    call, without the queue of [AgentReference].  The garbage collector and the
    repack requests use it for agents that are not their own. *)
From S2P Require Import Prelude Backend ObjectOps Handles ProtoAlgorithms Agent.

Section AgentWrapper.
Context {B St : Type} `{!Serializable B (ObjectHeader B), !Serializable B Agent, !Backend B St}.
Context (dummy : B).

(** [for (auto & address: objectAdresses) m_agent.f(address);] *)
Fixpoint for_agent (f : string → ObjectOps B Agent → result (ObjectOps B Agent)) (l : list string)
    (ag : ObjectOps B Agent) : result (ObjectOps B Agent) :=
  match l with
  | [] => Ok ag
  | x :: l' => ag' ← f x ag; for_agent f l' ag'
  end.

(** Lock, fetch, change, commit and release of the agent at an address. *)
Definition change_agent (agent : string) (f : ObjectOps B Agent → result (ObjectOps B Agent)) : M St unit :=
  ag ← open_locked dummy Exclusive agent;
  ag' ← lift (f ag);
  _ ← exec_on ag' commit; mret tt.

Definition aw_addToOwnership (agent objectAddress : string) : M St unit :=
  change_agent agent (agent_addToOwnership objectAddress).
Definition aw_addBatchToOwnership (agent : string) (objectAdresses : list string) : M St unit :=
  change_agent agent (for_agent agent_addToOwnership objectAdresses).
Definition aw_removeFromOwnership (agent objectAddress : string) : M St unit :=
  change_agent agent (agent_removeFromOwnership objectAddress).
Definition aw_removeBatchFromOwnership (agent : string) (objectAdresses : list string) : M St unit :=
  change_agent agent (for_agent agent_removeFromOwnership objectAdresses).

(** A change of the payload alone reaches the store. *)
Lemma change_agent_spec agent f g h p s :
  agent_stored s agent h p → f (opened Exclusive agent h p) = Ok (opened Exclusive agent h (g p)) →
  ∃ s' h', change_agent agent f s = (Ok tt, s') ∧ agent_stored s' agent h' (g p) ∧
    (∀ n, n ≠ agent → be_view s' !! n = be_view s !! n).
Proof.
  intros (Hwf & Ha & Hst & Ht) Hf. unfold change_agent.
  mstep (open_locked_ok dummy Exclusive agent h p s Hwf Ha Hst). rewrite Hf, bind_lift.
  destruct (commit_opened agent h (g p) s Hwf) as (s' & E & Hwf' & Hst' & Hfr);
    [by eapply stored_exists|done|].
  exists s', (m_header (push_payload (opened Exclusive agent h (g p)))). by mstep E.
Qed.

Lemma aw_removeFromOwnership_spec agent x h p s :
  agent_stored s agent h p →
  ∃ s' h' p', aw_removeFromOwnership agent x s = (Ok tt, s') ∧ agent_stored s' agent h' p' ∧
    (x ∉ ownedobjects p') ∧ (∀ y, y ≠ x → y ∈ ownedobjects p' ↔ y ∈ ownedobjects p) ∧
    (∀ n, n ≠ agent → be_view s' !! n = be_view s !! n).
Proof.
  intros Hs.
  destruct (change_agent_spec agent (agent_removeFromOwnership x)
    (λ p, set_ownedobjects (removeString x (ownedobjects p)) p) h p s Hs) as (s' & h' & E & Hs' & Hfr); [done|].
  exists s', h', (set_ownedobjects (removeString x (ownedobjects p)) p). simpl.
  split_and!; [done|done| | |done]; [|intros y Hy]; rewrite elem_of_removeString; tauto.
Qed.
End AgentWrapper.
