(* ===== verification/RepackRequest.v ===== *)
(** * Repack requests

    Model of [objectstore/RepackRequest.cpp] and [.hpp]: the request to move the
    files of a tape, which is expanded into one sub-request per file.  It accounts
    for the reports of the retrieve and archive jobs of its sub-requests, each once,
    and derives its status from the counts.

    The 31 fields of the message are grouped in records by purpose. *)
From stdpp Require Import sorting.
From S2P Require Import Prelude DataTypes Backend ObjectOps Handles Checksum ArchiveFile ArchiveRequest RetrieveRequest Agent AgentWrapper RootEntry.

(** [RepackInfo::Status], whose numbers are those of [serializers::RepackRequestStatus]
    but for [Undefined], which is not stored. *)
Inductive RepackStatus :=
  | RS_Pending | RS_ToExpand | RS_Starting | RS_Running | RS_Complete | RS_Failed | RS_Undefined.
(** [RepackInfo::Type]. *)
Inductive RepackType := MoveAndAddCopies | AddCopiesOnly | MoveOnly | UndefinedType.

#[export] Instance RepackStatus_eq_dec : EqDecision RepackStatus.
Proof. solve_decision. Defined.

Definition RepackType_toString (t : RepackType) : string :=
  match t with
  | MoveAndAddCopies => "move and add copies"
  | AddCopiesOnly => "add copies only"
  | MoveOnly => "move only"
  | UndefinedType => "UNKNOWN"
  end.
Definition RepackStatus_toString (s : RepackStatus) : string :=
  match s with
  | RS_Complete => "Complete"
  | RS_Failed => "Failed"
  | RS_Pending => "Pending"
  | RS_Running => "Running"
  | RS_Starting => "Starting"
  | RS_ToExpand => "ToExpand"
  | RS_Undefined => "UNKNOWN"
  end.

(** ** Messages *)
Record RepackSubRequestPb := mkSubRequestPb {
  sub_address : string;
  sub_fseq : Z;
  retrieve_accounted : bool;
  archive_copynb_accounted : list Z;
  subrequest_deleted : bool
}.

Record RepackDestinationInfo := mkDestinationInfo { rdi_vid : string; rdi_files : Z; rdi_bytes : Z }.

(** What is to be done, what was done, and the modes. *)
Record RepackTotals := mkTotals {
  totalfilestoretrieve : Z;
  totalbytestoretrieve : Z;
  totalfilestoarchive : Z;
  totalbytestoarchive : Z;
  userprovidedfiles : Z;
  userprovidedbytes : Z
}.

Record RepackProgress := mkProgress {
  retrievedfiles : Z;
  retrievedbytes : Z;
  archivedfiles : Z;
  archivedbytes : Z;
  failedtoretrievefiles : Z;
  failedtoretrievebytes : Z;
  failedtocreatearchivereq : Z;
  failedtoarchivefiles : Z;
  failedtoarchivebytes : Z
}.

Record RepackFlags := mkRepackFlags {
  add_copies_mode : bool;
  move_mode : bool;
  is_expand_finished : bool;
  is_expand_started : bool;
  rp_force_disabled_tape : bool;
  is_complete : bool;
  no_recall : bool
}.

Record RepackRequest := mkRepackRequest {
  rp_vid : string;
  buffer_url : string;
  rp_status : RepackStatus;
  totals : RepackTotals;
  progress : RepackProgress;
  rp_flags : RepackFlags;
  lastexpandedfseq : Z;
  mount_policy : serializers.MountPolicy;
  subrequests : list RepackSubRequestPb;
  destination_infos : list RepackDestinationInfo;
  rp_creation_log : serializers.EntryLog;
  repack_finished_time : Z
}.

#[export] Instance RepackRequest_message : Message RepackRequest := {|
  payloadTypeId := RepackRequest_t;
  default_message := mkRepackRequest "" "" RS_Pending (mkTotals 0 0 0 0 0 0) (mkProgress 0 0 0 0 0 0 0 0 0)
    (mkRepackFlags false false false false false false false) 0 empty_policy [] []
    (serializers.mkEntryLog "" "" 0) 0 |}.

(** ** Data structures *)

(** [common::dataStructures::RepackInfo]. *)
Record TapeRepackInfo := mkTapeRepackInfo {
  tri_vid : string;
  tri_repackBufferBaseURL : string;
  tri_type : RepackType;
  tri_status : RepackStatus;
  tri_totalFilesToArchive : Z;
  tri_totalBytesToArchive : Z;
  tri_totalFilesToRetrieve : Z;
  tri_totalBytesToRetrieve : Z;
  tri_failedFilesToArchive : Z;
  tri_failedBytesToArchive : Z;
  tri_failedFilesToRetrieve : Z;
  tri_failedBytesToRetrieve : Z;
  tri_lastExpandedFseq : Z;
  tri_userProvidedFiles : Z;
  tri_retrievedFiles : Z;
  tri_retrievedBytes : Z;
  tri_archivedFiles : Z;
  tri_archivedBytes : Z;
  tri_isExpandFinished : bool;
  tri_forceDisabledTape : bool;
  tri_noRecall : bool;
  tri_creationLog : EntryLog;
  tri_repackFinishedTime : Z;
  tri_destinationInfos : list RepackDestinationInfo
}.

(** [RepackInfo::getQueueType]. *)
Definition getQueueType_of (status : RepackStatus) (isExpandFinished : bool) : result RepackQueueType :=
  match status with
  | RS_Pending => Ok Pending
  | RS_ToExpand => Ok ToExpand
  | RS_Running | RS_Starting =>
      if negb isExpandFinished then Ok ToExpand
      else Throw (Exception ("The status " +:+ RepackStatus_toString status +:+ " has no corresponding queue type."))
  | _ => Throw (Exception ("The status " +:+ RepackStatus_toString status +:+ " has no corresponding queue type."))
  end.
Definition repackInfo_getQueueType (i : TapeRepackInfo) : result RepackQueueType :=
  getQueueType_of (tri_status i) (tri_isExpandFinished i).

(** [RepackRequest::RepackSubRequestPointer], [SubrequestInfo], [SubrequestStatistics]. *)
Record RepackSubRequestPointer := mkSubPointer {
  sp_address : string;
  sp_fSeq : Z;
  retrieveAccounted : bool;
  archiveCopyNbsAccounted : gset Z;
  sp_subrequestDeleted : bool
}.
Record SubrequestInfo := mkSubInfo { si_address : string; si_fSeq : Z; si_subrequestDeleted : bool }.
Record SubrequestStatistics := mkSubStats {
  st_fSeq : Z;
  st_files : Z;
  st_bytes : Z;
  st_copyNb : Z;
  st_subrequestDeleted : bool;
  st_hasUserProvidedFile : bool;
  st_destinationVid : string
}.
(** [SchedulerDatabase::RepackRequest::TotalStatsFiles] and the part of a [Subrequest]
    that is read here: size of the file and copies to rearchive. *)
Record TotalStatsFiles := mkTotalStats {
  totalFilesToArchive : Z;
  totalBytesToArchive : Z;
  totalFilesToRetrieve : Z;
  totalBytesToRetrieve : Z;
  ts_userProvidedFiles : Z
}.
Record NotCreatedSubrequest := mkNotCreated { nc_fileSize : Z; nc_copyNbsToRearchive : gset Z }.

(** [StatsType] and [StatsValues]. *)
Inductive StatsType :=
  | UserProvided | RetrieveSuccess | RetrieveFailure | RetrieveTotal
  | ArchiveSuccess | ArchiveFailure | ArchiveTotal.
Record StatsValues := mkStatsValues { sv_files : Z; sv_bytes : Z }.

(** ** Field updates *)
Definition rp_set_totalfilestoretrieve (x : Z) (t : RepackTotals) : RepackTotals :=
  mkTotals x (totalbytestoretrieve t) (totalfilestoarchive t) (totalbytestoarchive t)
    (userprovidedfiles t) (userprovidedbytes t).
Definition rp_set_totalbytestoretrieve (x : Z) (t : RepackTotals) : RepackTotals :=
  mkTotals (totalfilestoretrieve t) x (totalfilestoarchive t) (totalbytestoarchive t)
    (userprovidedfiles t) (userprovidedbytes t).
Definition rp_set_totalfilestoarchive (x : Z) (t : RepackTotals) : RepackTotals :=
  mkTotals (totalfilestoretrieve t) (totalbytestoretrieve t) x (totalbytestoarchive t)
    (userprovidedfiles t) (userprovidedbytes t).
Definition rp_set_totalbytestoarchive (x : Z) (t : RepackTotals) : RepackTotals :=
  mkTotals (totalfilestoretrieve t) (totalbytestoretrieve t) (totalfilestoarchive t) x
    (userprovidedfiles t) (userprovidedbytes t).
Definition rp_set_userprovidedfiles (x : Z) (t : RepackTotals) : RepackTotals :=
  mkTotals (totalfilestoretrieve t) (totalbytestoretrieve t) (totalfilestoarchive t)
    (totalbytestoarchive t) x (userprovidedbytes t).
Definition rp_set_retrievedfiles (x : Z) (g : RepackProgress) : RepackProgress :=
  mkProgress x (retrievedbytes g) (archivedfiles g) (archivedbytes g) (failedtoretrievefiles g)
    (failedtoretrievebytes g) (failedtocreatearchivereq g) (failedtoarchivefiles g)
    (failedtoarchivebytes g).
Definition rp_set_retrievedbytes (x : Z) (g : RepackProgress) : RepackProgress :=
  mkProgress (retrievedfiles g) x (archivedfiles g) (archivedbytes g) (failedtoretrievefiles g)
    (failedtoretrievebytes g) (failedtocreatearchivereq g) (failedtoarchivefiles g)
    (failedtoarchivebytes g).
Definition rp_set_archivedfiles (x : Z) (g : RepackProgress) : RepackProgress :=
  mkProgress (retrievedfiles g) (retrievedbytes g) x (archivedbytes g) (failedtoretrievefiles g)
    (failedtoretrievebytes g) (failedtocreatearchivereq g) (failedtoarchivefiles g)
    (failedtoarchivebytes g).
Definition rp_set_archivedbytes (x : Z) (g : RepackProgress) : RepackProgress :=
  mkProgress (retrievedfiles g) (retrievedbytes g) (archivedfiles g) x (failedtoretrievefiles g)
    (failedtoretrievebytes g) (failedtocreatearchivereq g) (failedtoarchivefiles g)
    (failedtoarchivebytes g).
Definition rp_set_failedtoretrievefiles (x : Z) (g : RepackProgress) : RepackProgress :=
  mkProgress (retrievedfiles g) (retrievedbytes g) (archivedfiles g) (archivedbytes g) x
    (failedtoretrievebytes g) (failedtocreatearchivereq g) (failedtoarchivefiles g)
    (failedtoarchivebytes g).
Definition rp_set_failedtoretrievebytes (x : Z) (g : RepackProgress) : RepackProgress :=
  mkProgress (retrievedfiles g) (retrievedbytes g) (archivedfiles g) (archivedbytes g)
    (failedtoretrievefiles g) x (failedtocreatearchivereq g) (failedtoarchivefiles g)
    (failedtoarchivebytes g).
Definition rp_set_failedtocreatearchivereq (x : Z) (g : RepackProgress) : RepackProgress :=
  mkProgress (retrievedfiles g) (retrievedbytes g) (archivedfiles g) (archivedbytes g)
    (failedtoretrievefiles g) (failedtoretrievebytes g) x (failedtoarchivefiles g)
    (failedtoarchivebytes g).
Definition rp_set_failedtoarchivefiles (x : Z) (g : RepackProgress) : RepackProgress :=
  mkProgress (retrievedfiles g) (retrievedbytes g) (archivedfiles g) (archivedbytes g)
    (failedtoretrievefiles g) (failedtoretrievebytes g) (failedtocreatearchivereq g) x
    (failedtoarchivebytes g).
Definition rp_set_failedtoarchivebytes (x : Z) (g : RepackProgress) : RepackProgress :=
  mkProgress (retrievedfiles g) (retrievedbytes g) (archivedfiles g) (archivedbytes g)
    (failedtoretrievefiles g) (failedtoretrievebytes g) (failedtocreatearchivereq g)
    (failedtoarchivefiles g) x.
Definition rp_set_add_copies_mode (x : bool) (f : RepackFlags) : RepackFlags :=
  mkRepackFlags x (move_mode f) (is_expand_finished f) (is_expand_started f) (rp_force_disabled_tape f)
    (is_complete f) (no_recall f).
Definition rp_set_move_mode (x : bool) (f : RepackFlags) : RepackFlags :=
  mkRepackFlags (add_copies_mode f) x (is_expand_finished f) (is_expand_started f)
    (rp_force_disabled_tape f) (is_complete f) (no_recall f).
Definition rp_set_is_expand_finished (x : bool) (f : RepackFlags) : RepackFlags :=
  mkRepackFlags (add_copies_mode f) (move_mode f) x (is_expand_started f) (rp_force_disabled_tape f)
    (is_complete f) (no_recall f).
Definition rp_set_is_expand_started (x : bool) (f : RepackFlags) : RepackFlags :=
  mkRepackFlags (add_copies_mode f) (move_mode f) (is_expand_finished f) x (rp_force_disabled_tape f)
    (is_complete f) (no_recall f).
Definition rp_set_force_disabled_tape (x : bool) (f : RepackFlags) : RepackFlags :=
  mkRepackFlags (add_copies_mode f) (move_mode f) (is_expand_finished f) (is_expand_started f) x
    (is_complete f) (no_recall f).
Definition rp_set_is_complete (x : bool) (f : RepackFlags) : RepackFlags :=
  mkRepackFlags (add_copies_mode f) (move_mode f) (is_expand_finished f) (is_expand_started f)
    (rp_force_disabled_tape f) x (no_recall f).
Definition rp_set_no_recall (x : bool) (f : RepackFlags) : RepackFlags :=
  mkRepackFlags (add_copies_mode f) (move_mode f) (is_expand_finished f) (is_expand_started f)
    (rp_force_disabled_tape f) (is_complete f) x.
Definition rp_set_vid (x : string) (r : RepackRequest) : RepackRequest :=
  mkRepackRequest x (buffer_url r) (rp_status r) (totals r) (progress r) (rp_flags r)
    (lastexpandedfseq r) (mount_policy r) (subrequests r) (destination_infos r) (rp_creation_log r)
    (repack_finished_time r).
Definition rp_set_buffer_url (x : string) (r : RepackRequest) : RepackRequest :=
  mkRepackRequest (rp_vid r) x (rp_status r) (totals r) (progress r) (rp_flags r) (lastexpandedfseq r)
    (mount_policy r) (subrequests r) (destination_infos r) (rp_creation_log r) (repack_finished_time r).
Definition rp_set_status (x : RepackStatus) (r : RepackRequest) : RepackRequest :=
  mkRepackRequest (rp_vid r) (buffer_url r) x (totals r) (progress r) (rp_flags r) (lastexpandedfseq r)
    (mount_policy r) (subrequests r) (destination_infos r) (rp_creation_log r) (repack_finished_time r).
Definition rp_set_totals (x : RepackTotals) (r : RepackRequest) : RepackRequest :=
  mkRepackRequest (rp_vid r) (buffer_url r) (rp_status r) x (progress r) (rp_flags r)
    (lastexpandedfseq r) (mount_policy r) (subrequests r) (destination_infos r) (rp_creation_log r)
    (repack_finished_time r).
Definition rp_set_progress (x : RepackProgress) (r : RepackRequest) : RepackRequest :=
  mkRepackRequest (rp_vid r) (buffer_url r) (rp_status r) (totals r) x (rp_flags r) (lastexpandedfseq r)
    (mount_policy r) (subrequests r) (destination_infos r) (rp_creation_log r) (repack_finished_time r).
Definition rp_set_flags (x : RepackFlags) (r : RepackRequest) : RepackRequest :=
  mkRepackRequest (rp_vid r) (buffer_url r) (rp_status r) (totals r) (progress r) x (lastexpandedfseq r)
    (mount_policy r) (subrequests r) (destination_infos r) (rp_creation_log r) (repack_finished_time r).
Definition rp_set_lastexpandedfseq (x : Z) (r : RepackRequest) : RepackRequest :=
  mkRepackRequest (rp_vid r) (buffer_url r) (rp_status r) (totals r) (progress r) (rp_flags r) x
    (mount_policy r) (subrequests r) (destination_infos r) (rp_creation_log r) (repack_finished_time r).
Definition rp_set_mount_policy (x : serializers.MountPolicy) (r : RepackRequest) : RepackRequest :=
  mkRepackRequest (rp_vid r) (buffer_url r) (rp_status r) (totals r) (progress r) (rp_flags r)
    (lastexpandedfseq r) x (subrequests r) (destination_infos r) (rp_creation_log r)
    (repack_finished_time r).
Definition rp_set_subrequests (x : list RepackSubRequestPb) (r : RepackRequest) : RepackRequest :=
  mkRepackRequest (rp_vid r) (buffer_url r) (rp_status r) (totals r) (progress r) (rp_flags r)
    (lastexpandedfseq r) (mount_policy r) x (destination_infos r) (rp_creation_log r)
    (repack_finished_time r).
Definition rp_set_destination_infos (x : list RepackDestinationInfo) (r : RepackRequest) : RepackRequest :=
  mkRepackRequest (rp_vid r) (buffer_url r) (rp_status r) (totals r) (progress r) (rp_flags r)
    (lastexpandedfseq r) (mount_policy r) (subrequests r) x (rp_creation_log r) (repack_finished_time r).
Definition rp_set_creation_log (x : serializers.EntryLog) (r : RepackRequest) : RepackRequest :=
  mkRepackRequest (rp_vid r) (buffer_url r) (rp_status r) (totals r) (progress r) (rp_flags r)
    (lastexpandedfseq r) (mount_policy r) (subrequests r) (destination_infos r) x
    (repack_finished_time r).
Definition rp_set_repack_finished_time (x : Z) (r : RepackRequest) : RepackRequest :=
  mkRepackRequest (rp_vid r) (buffer_url r) (rp_status r) (totals r) (progress r) (rp_flags r)
    (lastexpandedfseq r) (mount_policy r) (subrequests r) (destination_infos r) (rp_creation_log r) x.

(** ** The map of the sub-requests *)
Definition SubPointer_deserialize (m : RepackSubRequestPb) : RepackSubRequestPointer :=
  mkSubPointer (sub_address m) (sub_fseq m) (retrieve_accounted m)
    (list_to_set (archive_copynb_accounted m)) (subrequest_deleted m).
Definition SubPointer_serialize (p : RepackSubRequestPointer) : RepackSubRequestPb :=
  mkSubRequestPb (sp_address p) (sp_fSeq p) (retrieveAccounted p)
    (ascending (archiveCopyNbsAccounted p)) (sp_subrequestDeleted p).

(** [for (auto &rsrp: m_payload.subrequests()) pointerMap[rsrp.fseq()].deserialize(rsrp);] *)
Abbreviation pointer_map := (gmap Z RepackSubRequestPointer).
Definition read_map (l : list RepackSubRequestPb) : pointer_map :=
  foldl (λ m x, <[sub_fseq x := SubPointer_deserialize x]> m) ∅ l.
(** [for (auto & p: pointerMap) p.second.serialize(...)], in increasing order of the keys. *)
Definition write_map (m : pointer_map) : list RepackSubRequestPb :=
  omap (λ k, SubPointer_serialize <$> m !! k) (ascending (dom m)).

Definition sp_set_retrieved (p : RepackSubRequestPointer) : RepackSubRequestPointer :=
  mkSubPointer (sp_address p) (sp_fSeq p) true (archiveCopyNbsAccounted p) (sp_subrequestDeleted p).
Definition sp_add_copy (cn : Z) (deleted : bool) (p : RepackSubRequestPointer) : RepackSubRequestPointer :=
  mkSubPointer (sp_address p) (sp_fSeq p) (retrieveAccounted p) ({[cn]} ∪ archiveCopyNbsAccounted p) deleted.
Definition sp_set_deleted (p : RepackSubRequestPointer) : RepackSubRequestPointer :=
  mkSubPointer (sp_address p) (sp_fSeq p) (retrieveAccounted p) (archiveCopyNbsAccounted p) true.

Section Operations.
Context {B St : Type} `{!Serializable B (ObjectHeader B), !Backend B St}.
Context `{!Serializable B RepackRequest, !Serializable B ArchiveRequest, !Serializable B Agent}.
Context `{!Serializable bytes ChecksumPb}.
(** The header bytes of a handle before anything is read; never looked at. *)
Context (dummy : B).

Abbreviation RP := (M (HState B RepackRequest St)).

Definition rp_payload : RP RepackRequest := o ← self; mret (m_payload o).
Definition rp_modify (f : RepackRequest → RepackRequest) : RP unit :=
  o ← self; set_self (with_payload (f (m_payload o)) o).
Definition rp_writable : RP unit := o ← self; lift (checkPayloadWritable o).
Definition rp_readable : RP unit := o ← self; lift (checkPayloadReadable o).
(** Updates of the groups. *)
Definition rp_progress_modify (f : RepackProgress → RepackProgress) : RP unit :=
  rp_modify (λ r, rp_set_progress (f (progress r)) r).
Definition rp_totals_modify (f : RepackTotals → RepackTotals) : RP unit :=
  rp_modify (λ r, rp_set_totals (f (totals r)) r).
Definition rp_flags_modify (f : RepackFlags → RepackFlags) : RP unit :=
  rp_modify (λ r, rp_set_flags (f (rp_flags r)) r).

Definition rp_initialize (o : ObjectOps B RepackRequest) : result (ObjectOps B RepackRequest) :=
  initialize_with (λ r, mkRepackRequest (rp_vid r) (buffer_url r) RS_Pending (mkTotals 0 0 0 0 0 0)
    (mkProgress 0 0 0 0 0 0 0 0 0) (mkRepackFlags true true false false false false false) 0 (mount_policy r)
    (subrequests r) (destination_infos r) (rp_creation_log r) 0) o.

(** ** Parameters *)
Definition rp_setVid (vid : string) : RP unit :=
  _ ← rp_writable;
  if decide (vid = "") then throw (Exception "In RepackRequest::setVid(): empty vid")
  else rp_modify (rp_set_vid vid).

Definition rp_setType (repackType : RepackType) : RP unit :=
  _ ← rp_writable;
  match repackType with
  | MoveAndAddCopies => mret tt
  | AddCopiesOnly => rp_flags_modify (rp_set_move_mode false)
  | MoveOnly => rp_flags_modify (rp_set_add_copies_mode false)
  | UndefinedType => throw (Exception "In RepackRequest::setRepackType(): unexpected type.")
  end.

(** [setStatus(repackStatus)]; [now] is [time(nullptr)]. *)
Definition rp_setStatusTo (now : Z) (repackStatus : RepackStatus) : RP unit :=
  _ ← rp_writable;
  _ ← (match repackStatus with
       | RS_Complete | RS_Failed => rp_modify (rp_set_repack_finished_time (u64 now))
       | _ => mret tt
       end);
  rp_modify (rp_set_status repackStatus).

Definition type_of (f : RepackFlags) : option RepackType :=
  if move_mode f then Some (if add_copies_mode f then MoveAndAddCopies else MoveOnly)
  else if add_copies_mode f then Some AddCopiesOnly else None.

Definition rp_getInfo : RP TapeRepackInfo :=
  _ ← rp_readable;
  r ← rp_payload;
  match type_of (rp_flags r) with
  | None => throw (Exception "In RepackRequest::getInfo(): unexpected mode: neither expand nor repack.")
  | Some t =>
      let tt_ := totals r in let g := progress r in
      mret (mkTapeRepackInfo (rp_vid r) (buffer_url r) t (rp_status r)
        (totalfilestoarchive tt_) (totalbytestoarchive tt_) (totalfilestoretrieve tt_) (totalbytestoretrieve tt_)
        (failedtoarchivefiles g) (failedtoarchivebytes g) (failedtoretrievefiles g) (failedtoretrievebytes g)
        (lastexpandedfseq r) (userprovidedfiles tt_) (retrievedfiles g) (retrievedbytes g) (archivedfiles g) (archivedbytes g)
        (is_expand_finished (rp_flags r)) (rp_force_disabled_tape (rp_flags r)) (no_recall (rp_flags r))
        (EntryLog_deserialize (rp_creation_log r)) (s64 (repack_finished_time r)) (destination_infos r))
  end.

Definition rp_setExpandFinished (b : bool) : RP unit :=
  _ ← rp_writable; rp_flags_modify (rp_set_is_expand_finished b).
Definition rp_setExpandStarted (b : bool) : RP unit :=
  _ ← rp_writable; rp_flags_modify (rp_set_is_expand_started b).
Definition rp_setIsComplete (b : bool) : RP unit :=
  _ ← rp_writable; rp_flags_modify (rp_set_is_complete b).
Definition rp_setForceDisabledTape (b : bool) : RP unit :=
  _ ← rp_writable; rp_flags_modify (rp_set_force_disabled_tape b).
Definition rp_getForceDisabledTape : RP bool :=
  _ ← rp_readable; r ← rp_payload; mret (rp_force_disabled_tape (rp_flags r)).
Definition rp_setNoRecall (b : bool) : RP unit := _ ← rp_writable; rp_flags_modify (rp_set_no_recall b).
Definition rp_getNoRecall : RP bool := _ ← rp_readable; r ← rp_payload; mret (no_recall (rp_flags r)).
Definition rp_isExpandFinished : RP bool :=
  _ ← rp_readable; r ← rp_payload; mret (is_expand_finished (rp_flags r)).
Definition rp_setBufferURL (bufferURL : string) : RP unit := _ ← rp_writable; rp_modify (rp_set_buffer_url bufferURL).
Definition rp_setLastExpandedFSeq (n : Z) : RP unit := _ ← rp_writable; rp_modify (rp_set_lastexpandedfseq n).
Definition rp_getLastExpandedFSeq : RP Z := _ ← rp_readable; r ← rp_payload; mret (lastexpandedfseq r).

Definition rp_setTotalFileToRetrieve (n : Z) : RP unit :=
  _ ← rp_writable; rp_totals_modify (rp_set_totalfilestoretrieve n).
Definition rp_setTotalBytesToRetrieve (n : Z) : RP unit :=
  _ ← rp_writable; rp_totals_modify (rp_set_totalbytestoretrieve n).
Definition rp_setTotalFileToArchive (n : Z) : RP unit :=
  _ ← rp_writable; rp_totals_modify (rp_set_totalfilestoarchive n).
Definition rp_setTotalBytesToArchive (n : Z) : RP unit :=
  _ ← rp_writable; rp_totals_modify (rp_set_totalbytestoarchive n).
Definition rp_setUserProvidedFiles (n : Z) : RP unit :=
  _ ← rp_writable; rp_totals_modify (rp_set_userprovidedfiles n).
Definition rp_setTotalStats (t : TotalStatsFiles) : RP unit :=
  _ ← rp_setTotalFileToRetrieve (totalFilesToRetrieve t);
  _ ← rp_setTotalFileToArchive (totalFilesToArchive t);
  _ ← rp_setTotalBytesToArchive (totalBytesToArchive t);
  _ ← rp_setTotalBytesToRetrieve (totalBytesToRetrieve t);
  rp_setUserProvidedFiles (ts_userProvidedFiles t).
Definition rp_getTotalStatsFile : RP TotalStatsFiles :=
  _ ← rp_readable;
  r ← rp_payload;
  let t := totals r in
  mret (mkTotalStats (totalfilestoarchive t) (totalbytestoarchive t) (totalfilestoretrieve t)
          (totalbytestoretrieve t) (userprovidedfiles t)).

Definition rp_setMountPolicy (mp : MountPolicy) : RP unit :=
  _ ← rp_writable; rp_modify (rp_set_mount_policy (MountPolicy_serialize mp)).
Definition rp_getMountPolicy : RP MountPolicy :=
  _ ← rp_readable; r ← rp_payload; mret (MountPolicy_deserialize (mount_policy r)).
Definition rp_setCreationLog (l : EntryLog) : RP unit :=
  _ ← rp_writable; rp_modify (rp_set_creation_log (EntryLog_serialize l)).
Definition rp_getCreationLog : RP EntryLog :=
  _ ← rp_readable; r ← rp_payload; mret (EntryLog_deserialize (rp_creation_log r)).

(** ** Sub-requests *)

(** Deletions of a batch: all are started, then waited for in order.  The first
    failure ends the wait. *)
Fixpoint delete_all (addresses : list string) : M St (list (result unit)) :=
  match addresses with
  | [] => mret []
  | a :: l => λ s, let '(r, s') := asyncDelete a s in (rs ← delete_all l; mret (r :: rs)) s'
  end.
Definition wait_all (rs : list (result unit)) : result unit :=
  default (Ok tt) (find_if (λ r, negb (is_ok r)) rs).

(** One round of the outer loop: the sub-requests are marked, an object that is
    already gone is tolerated. *)
Definition delete_batch (addresses : list string) : M St unit :=
  catch (rs ← delete_all addresses; lift (wait_all rs))
    (λ e, match e with NoSuchObject => Some (mret tt) | _ => None end).

Definition sub_mark_deleted (m : RepackSubRequestPb) : RepackSubRequestPb :=
  mkSubRequestPb (sub_address m) (sub_fseq m) (retrieve_accounted m) (archive_copynb_accounted m) true.
Definition batch_size : nat := 500.

(** The outer loop: the first [processed] sub-requests were processed. *)
Fixpoint delete_rounds (fuel : nat) (processed : nat) : RP unit :=
  r ← rp_payload;
  if decide (length (subrequests r) <= processed)%nat then mret tt
  else
    match fuel with
    | O => throw OutOfFuel
    | S fuel' =>
        let batch := take batch_size (drop processed (subrequests r)) in
        _ ← rp_modify (rp_set_subrequests (take processed (subrequests r) ++ (sub_mark_deleted <$> batch)
              ++ drop batch_size (drop processed (subrequests r))));
        _ ← on_store (delete_batch (sub_address <$> batch));
        delete_rounds fuel' (processed + length batch)
    end.

Definition rp_deleteAllSubrequests : RP unit :=
  _ ← rp_writable;
  r ← rp_payload;
  if is_complete (rp_flags r) then mret tt
  else
    _ ← rp_modify (rp_set_destination_infos []);
    delete_rounds (length (subrequests r)) 0.

(** The counters of a destination tape. *)
Fixpoint count_destination (fileSize : Z) (vid : string) (l : list RepackDestinationInfo) : list RepackDestinationInfo :=
  match l with
  | [] => [mkDestinationInfo vid (u64 1) (u64 fileSize)]
  | d :: l' =>
      if decide (rdi_vid d = vid)
      then mkDestinationInfo (rdi_vid d) (rdi_files d +u64 1) (rdi_bytes d +u64 fileSize) :: l'
      else d :: count_destination fileSize vid l'
  end.
Definition rp_updateRepackDestinationInfos (f : ArchiveFile) (destinationVid : string) : RP unit :=
  _ ← rp_writable;
  rp_modify (λ r, rp_set_destination_infos
    (count_destination (af_fileSize f) destinationVid (destination_infos r)) r).
Definition rp_getRepackDestinationInfos : RP (list RepackDestinationInfo) :=
  _ ← rp_readable; r ← rp_payload; mret (destination_infos r).

(** [getOrPrepareSubrequestInfo], one file: the address on record, or a new one. *)
Definition prepare_one (fs : Z) (st : pointer_map * AgentReference * bool) :
    SubrequestInfo * (pointer_map * AgentReference * bool) :=
  let '(m, agent, created) := st in
  match m !! fs with
  | Some srp => (mkSubInfo (sp_address srp) (sp_fSeq srp) (sp_subrequestDeleted srp), st)
  | None =>
      let '(address, agent') := nextId "RepackSubRequest" agent in
      (mkSubInfo address fs false, (<[fs := mkSubPointer address fs false ∅ false]> m, agent', true))
  end.
Fixpoint prepare_loop (l : list Z) (st : pointer_map * AgentReference * bool) :
    list SubrequestInfo * (pointer_map * AgentReference * bool) :=
  match l with
  | [] => ([], st)
  | fs :: l' =>
      let '(i, st1) := prepare_one fs st in
      let '(infos, st2) := prepare_loop l' st1 in (i :: infos, st2)
  end.
Definition rp_getOrPrepareSubrequestInfo (fSeqs : gset Z) (agent : AgentReference) :
    RP (list SubrequestInfo * AgentReference) :=
  _ ← rp_writable;
  r ← rp_payload;
  let '(infos, (m, agent', newElementCreated)) :=
    prepare_loop (ascending fSeqs) (read_map (subrequests r), agent, false) in
  _ ← (if (newElementCreated : bool) then rp_modify (rp_set_subrequests (write_map m)) else mret tt);
  mret (infos, agent').

(** ** Status *)
Definition rp_removeFromOwnerAgentOwnership : RP unit :=
  _ ← rp_readable;
  _ ← rp_writable;
  o ← self;
  owner ← lift (getOwner o);
  _ ← lift (object_at (P := Agent) dummy owner);
  address ← lift (getAddressIfSet o);
  on_store (aw_removeFromOwnership dummy owner address).

(** The sums are those of [uint64_t]. *)
Definition all_accounted (r : RepackRequest) : bool :=
  let g := progress r in
  (totalfilestoretrieve (totals r) <=? retrievedfiles g +u64 failedtoretrievefiles g) &&
  (totalfilestoarchive (totals r) <=?
     (archivedfiles g +u64 failedtoarchivefiles g) +u64 failedtocreatearchivereq g).
Definition any_failed (g : RepackProgress) : bool :=
  negb (failedtoretrievefiles g =? 0) || negb (failedtoarchivefiles g =? 0).
Definition any_processed (g : RepackProgress) : bool :=
  negb (retrievedfiles g =? 0) || negb (failedtoretrievefiles g =? 0) ||
  negb (archivedfiles g =? 0) || negb (failedtoarchivefiles g =? 0).

Definition rp_setStatus (now : Z) : RP unit :=
  _ ← rp_writable;
  _ ← rp_readable;
  r ← rp_payload;
  if is_expand_started (rp_flags r) then
    if is_expand_finished (rp_flags r) && all_accounted r then
      _ ← (if any_failed (progress r)
           then _ ← rp_modify (rp_set_repack_finished_time (u64 now)); rp_setStatusTo now RS_Failed
           else _ ← rp_modify (rp_set_repack_finished_time (u64 now)); rp_setStatusTo now RS_Complete);
      rp_removeFromOwnerAgentOwnership
    else rp_setStatusTo now (if any_processed (progress r) then RS_Running else RS_Starting)
  else mret tt.

(** ** Reports

    The loop of the report functions: [step] accounts for a report of a sub-request
    and gives its new pointer, or [None] when the report was already accounted for.
    The counters of the request change as the loop goes; the map is local. *)
Fixpoint report_loop (unknown : string) (step : SubrequestStatistics → RepackSubRequestPointer → RP (option RepackSubRequestPointer))
    (l : list SubrequestStatistics) (m : pointer_map) (didUpdate : bool) : RP (pointer_map * bool) :=
  match l with
  | [] => mret (m, didUpdate)
  | rs :: l' =>
      match m !! st_fSeq rs with
      | None => throw (Exception unknown)
      | Some p =>
          x ← step rs p;
          match x with
          | Some p' => report_loop unknown step l' (<[st_fSeq rs := p']> m) true
          | None => report_loop unknown step l' m didUpdate
          end
      end
  end.

(** The frame of the four report functions. *)
Definition report (now : Z) (unknown : string)
    (step : SubrequestStatistics → RepackSubRequestPointer → RP (option RepackSubRequestPointer))
    (l : list SubrequestStatistics) : RP unit :=
  _ ← rp_writable;
  r ← rp_payload;
  x ← report_loop unknown step l (read_map (subrequests r)) false;
  let '(m, didUpdate) := x in
  if (didUpdate : bool) then
    _ ← rp_setStatus now;
    rp_modify (rp_set_subrequests (write_map m))
  else mret tt.

Definition count_retrieved (rs : SubrequestStatistics) (g : RepackProgress) : RepackProgress :=
  if st_hasUserProvidedFile rs then g
  else rp_set_retrievedfiles (retrievedfiles g +u64 st_files rs)
         (rp_set_retrievedbytes (retrievedbytes g +u64 st_bytes rs) g).
Definition retrieve_success_step (rs : SubrequestStatistics) (p : RepackSubRequestPointer) :
    RP (option RepackSubRequestPointer) :=
  if retrieveAccounted p then mret None
  else _ ← rp_progress_modify (count_retrieved rs); mret (Some (sp_set_retrieved p)).
Definition rp_reportRetriveSuccesses (now : Z) (l : list SubrequestStatistics) : RP unit :=
  report now "In RepackRequest::reportRetriveSuccesses(): got a report for unknown fSeq" retrieve_success_step l.

Definition count_failed_retrieve (rs : SubrequestStatistics) (g : RepackProgress) : RepackProgress :=
  rp_set_failedtoretrievefiles (failedtoretrievefiles g +u64 st_files rs)
    (rp_set_failedtoretrievebytes (failedtoretrievebytes g +u64 st_bytes rs) g).
Definition retrieve_failure_step (rf : SubrequestStatistics) (p : RepackSubRequestPointer) :
    RP (option RepackSubRequestPointer) :=
  if retrieveAccounted p then mret None
  else _ ← rp_progress_modify (count_failed_retrieve rf); mret (Some (sp_set_retrieved p)).
Definition rp_reportRetriveFailures (now : Z) (l : list SubrequestStatistics) : RP unit :=
  report now "In RepackRequest::reportRetriveFailures(): got a report for unknown fSeq" retrieve_failure_step l.

(** [ArchiveRequest ar(p.address,m_objectStore); ar.fetchNoLock(); ar.getArchiveFile()]. *)
Definition fetch_archive_file (address : string) : M St ArchiveFile :=
  o ← lift (object_at (P := ArchiveRequest) dummy address);
  o' ← exec_on o fetchNoLock;
  lift (fst (getArchiveFile o')).

Definition count_archived (rs : SubrequestStatistics) (g : RepackProgress) : RepackProgress :=
  rp_set_archivedfiles (archivedfiles g +u64 st_files rs)
    (rp_set_archivedbytes (archivedbytes g +u64 st_bytes rs) g).
Definition archive_success_step (rs : SubrequestStatistics) (p : RepackSubRequestPointer) :
    RP (option RepackSubRequestPointer) :=
  if decide (st_copyNb rs ∈ archiveCopyNbsAccounted p) then mret None
  else
    f ← on_store (fetch_archive_file (sp_address p));
    _ ← rp_updateRepackDestinationInfos f (st_destinationVid rs);
    _ ← rp_progress_modify (count_archived rs);
    mret (Some (sp_add_copy (st_copyNb rs) (st_subrequestDeleted rs) p)).
Definition rp_reportArchiveSuccesses (now : Z) (l : list SubrequestStatistics) : RP RepackStatus :=
  _ ← report now "In RepackRequest::reportArchiveSuccesses(): got a report for unknown fSeq" archive_success_step l;
  r ← rp_payload; mret (rp_status r).

Definition count_failed_archive (rs : SubrequestStatistics) (g : RepackProgress) : RepackProgress :=
  rp_set_failedtoarchivefiles (failedtoarchivefiles g +u64 st_files rs)
    (rp_set_failedtoarchivebytes (failedtoarchivebytes g +u64 st_bytes rs) g).
Definition archive_failure_step (af : SubrequestStatistics) (p : RepackSubRequestPointer) :
    RP (option RepackSubRequestPointer) :=
  if decide (st_copyNb af ∈ archiveCopyNbsAccounted p) then mret None
  else _ ← rp_progress_modify (count_failed_archive af); mret (Some (sp_add_copy (st_copyNb af) true p)).
Definition rp_reportArchiveFailures (now : Z) (l : list SubrequestStatistics) : RP RepackStatus :=
  _ ← report now "In RepackRequest::reportArchiveFailures(): got a report for unknown fSeq" archive_failure_step l;
  r ← rp_payload; mret (rp_status r).

(** [reportSubRequestsForDeletion]: the loop, then the map is recorded. *)
Fixpoint deletion_loop (l : list Z) (m : pointer_map) (didUpdate : bool) : result (pointer_map * bool) :=
  match l with
  | [] => Ok (m, didUpdate)
  | fs :: l' =>
      match m !! fs with
      | None => Throw (Exception "In RepackRequest::reportSubRequestsForDeletion(): got a report for unknown fSeq")
      | Some p => if sp_subrequestDeleted p then deletion_loop l' m didUpdate
                  else deletion_loop l' (<[fs := sp_set_deleted p]> m) true
      end
  end.
Definition rp_reportSubRequestsForDeletion (fSeqs : list Z) : RP unit :=
  _ ← rp_writable;
  r ← rp_payload;
  x ← lift (deletion_loop fSeqs (read_map (subrequests r)) false);
  let '(m, didUpdate) := x in
  if (didUpdate : bool) then rp_modify (rp_set_subrequests (write_map m)) else mret tt.

Definition rp_getStats : RP (StatsType → StatsValues) :=
  _ ← rp_readable;
  r ← rp_payload;
  let t := totals r in let g := progress r in
  mret (λ st, match st with
    | ArchiveTotal => mkStatsValues (totalfilestoarchive t) (totalbytestoarchive t)
    | RetrieveTotal => mkStatsValues (totalfilestoretrieve t) (totalbytestoretrieve t)
    | UserProvided => mkStatsValues (userprovidedfiles t) (userprovidedbytes t)
    | RetrieveFailure => mkStatsValues (failedtoretrievefiles g) (failedtoretrievebytes g)
    | RetrieveSuccess => mkStatsValues (retrievedfiles g) (retrievedbytes g)
    | ArchiveFailure => mkStatsValues (failedtoarchivefiles g) (failedtoarchivebytes g)
    | ArchiveSuccess => mkStatsValues (archivedfiles g) (archivedbytes g)
    end).

Definition rp_reportArchiveCreationFailures (n : Z) : RP unit :=
  _ ← rp_writable;
  rp_progress_modify (λ g, rp_set_failedtocreatearchivereq (failedtocreatearchivereq g +u64 n) g).

(** The totals over the sub-requests that could not be created. *)
Definition not_created_files (l : list NotCreatedSubrequest) : Z := u64 (Z.of_nat (length l)).
Definition not_created_bytes (l : list NotCreatedSubrequest) : Z := foldl (λ b x, b +u64 nc_fileSize x) 0 l.
Definition not_created_copies (l : list NotCreatedSubrequest) : Z :=
  foldl (λ n x, n +u64 Z.of_nat (size (nc_copyNbsToRearchive x))) 0 l.
Definition rp_reportRetrieveCreationFailures (now : Z) (l : list NotCreatedSubrequest) : RP unit :=
  _ ← rp_writable;
  _ ← rp_readable;
  _ ← rp_progress_modify (λ g, rp_set_failedtoretrievebytes (failedtoretrievebytes g +u64 not_created_bytes l) g);
  _ ← rp_progress_modify (λ g, rp_set_failedtoretrievefiles (failedtoretrievefiles g +u64 not_created_files l) g);
  _ ← rp_reportArchiveCreationFailures (not_created_copies l);
  rp_setStatus now.

(** ** Ownership *)

(** What [asyncUpdateOwnerAndStatus] reports of the request. *)
Record RepackOwnerInfo := mkRepackOwnerInfo {
  roi_status : RepackStatus;
  roi_vid : string;
  roi_repackBufferBaseURL : string;
  roi_forceDisabledTape : bool;
  roi_noRecall : bool;
  roi_type : RepackType
}.

Definition rp_update_owner (owner previousOwner : string) (newStatus : option RepackStatus) (c : B) :
    result (B * RepackOwnerInfo) :=
  match ParseFromString c with
  | None => Throw (Exception "In RepackRequest::asyncUpdateOwner(): could not parse header")
  | Some oh =>
      if decide (h_type oh = RepackRequest_t) then
        if decide (h_owner oh = previousOwner) then
          match ParseFromString (h_payload oh) with
          | None => Throw (Exception "In RepackRequest::asyncUpdateOwner(): could not parse payload")
          | Some r =>
              let r' := match newStatus with Some st => rp_set_status st r | None => r end in
              match type_of (rp_flags r') with
              | None => Throw (Exception "In RepackRequest::asyncUpdateOwner()::lambda(): unexpcted mode: neither expand nor repack.")
              | Some t =>
                  let payload := match newStatus with Some _ => SerializeAsString r' | None => h_payload oh end in
                  Ok (SerializeAsString (mkHeader (h_type oh) (h_version oh) owner (h_backupowner oh) payload),
                      mkRepackOwnerInfo (rp_status r') (rp_vid r') (buffer_url r') (rp_force_disabled_tape (rp_flags r'))
                        (no_recall (rp_flags r')) t)
              end
          end
        else Throw WrongPreviousOwner
      else Throw (Exception "In RepackRequest::asyncUpdateOwner()::lambda(): wrong object type")
  end.
Definition rp_asyncUpdateOwnerAndStatus (owner previousOwner : string) (newStatus : option RepackStatus) :
    RP (option RepackOwnerInfo) :=
  o ← self;
  name ← lift (getAddressIfSet o);
  on_store (asyncUpdate name (rp_update_owner owner previousOwner newStatus)).
End Operations.
