(* ===== verification/RepackRequestSpec.v ===== *)
(** * Accounting of repack requests

    The map of the sub-requests and its stored form; the report functions as an
    accounting of events, each key once; the status derived from the counts. *)
From stdpp Require Import sorting.
From S2P Require Import Prelude DataTypes Backend ObjectOps Handles Checksum ArchiveFile ArchiveRequest RetrieveRequest RetrieveRequestSpec Agent AgentWrapper RepackRequest.

(** ** The map of the sub-requests *)
Lemma list_to_set_ascending (X : gset Z) : list_to_set (ascending X) = X.
Proof. apply leibniz_equiv. intros x. by rewrite elem_of_list_to_set, elem_of_ascending. Qed.

Lemma SubPointer_roundtrip p : SubPointer_deserialize (SubPointer_serialize p) = p.
Proof.
  destruct p. unfold SubPointer_deserialize, SubPointer_serialize. simpl. by rewrite list_to_set_ascending.
Qed.

(** Every pointer is filed under its own file sequence number. *)
Definition keyed (m : pointer_map) : Prop := map_Forall (λ k p, sp_fSeq p = k) m.

Lemma read_map_snoc l x :
  read_map (l ++ [x]) = <[sub_fseq x := SubPointer_deserialize x]> (read_map l).
Proof. unfold read_map. by rewrite foldl_app. Qed.

Lemma read_map_keyed l : keyed (read_map l).
Proof.
  induction l as [|x l IH] using rev_ind; [apply map_Forall_empty|]. rewrite read_map_snoc.
  by apply map_Forall_insert_2.
Qed.

Lemma read_map_lookup_None l k : k ∉ sub_fseq <$> l → read_map l !! k = None.
Proof.
  induction l as [|x l IH] using rev_ind; [done|]. rewrite fmap_app, read_map_snoc. simpl.
  intros Hk. rewrite lookup_insert_ne by set_solver. apply IH. set_solver.
Qed.

Lemma read_map_lookup l x :
  NoDup (sub_fseq <$> l) → x ∈ l → read_map l !! sub_fseq x = Some (SubPointer_deserialize x).
Proof.
  induction l as [|y l IH] using rev_ind; [set_solver|]. rewrite fmap_app, read_map_snoc. simpl.
  intros (Hl & Hy & _)%NoDup_app Hx. apply elem_of_app in Hx as [Hx|Hx%list_elem_of_singleton].
  - rewrite lookup_insert_ne; [by apply IH|]. intros E. apply (Hy (sub_fseq x)); [by apply list_elem_of_fmap_2|].
    rewrite <- E. set_solver.
  - subst. by rewrite lookup_insert_eq.
Qed.

Lemma elem_of_write_map m x : x ∈ write_map m ↔ ∃ k p, m !! k = Some p ∧ x = SubPointer_serialize p.
Proof.
  unfold write_map. rewrite list_elem_of_omap. split.
  - intros (k & _ & Hk). apply fmap_Some in Hk as (p & Hp & ->). eauto.
  - intros (k & p & Hp & ->). exists k. rewrite elem_of_ascending, Hp. split; [by eapply elem_of_dom_2|done].
Qed.

Lemma write_map_keys m : keyed m → sub_fseq <$> write_map m = ascending (dom m).
Proof.
  intros Hk. unfold write_map.
  assert (Hin : ∀ k, k ∈ ascending (dom m) → is_Some (m !! k)) by (intros k; by rewrite elem_of_ascending, elem_of_dom).
  induction (ascending (dom m)) as [|k l IH]; [done|]. cbn [omap list_omap].
  destruct (Hin k ltac:(left)) as [p Hp]. rewrite Hp. cbn [fmap option_fmap option_map list_fmap].
  f_equal; [|apply IH; set_solver]. simpl. by apply (Hk k p).
Qed.

(** What is recorded is read back. *)
Lemma read_write_map m : keyed m → read_map (write_map m) = m.
Proof.
  intros Hk. apply map_eq. intros k. destruct (m !! k) as [p|] eqn:Hp.
  - assert (Hx : SubPointer_serialize p ∈ write_map m) by (apply elem_of_write_map; eauto).
    assert (Hf : sub_fseq (SubPointer_serialize p) = k) by (by apply (Hk k p)).
    rewrite <- Hf, read_map_lookup, SubPointer_roundtrip; [done| |done].
    rewrite write_map_keys by done. apply ascending_NoDup.
  - apply read_map_lookup_None. rewrite write_map_keys, elem_of_ascending by done. by apply not_elem_of_dom.
Qed.

(** ** Reports as events *)
Inductive report_kind := RetrieveOK | RetrieveKO | ArchiveOK | ArchiveKO.
#[export] Instance report_kind_eq_dec : EqDecision report_kind.
Proof. solve_decision. Defined.

Definition event : Type := report_kind * SubrequestStatistics.
(** What a report is about: the retrieval of a file, or the archiving of a copy of it. *)
Definition event_key (e : event) : Z * option Z :=
  (st_fSeq (snd e), match fst e with RetrieveOK | RetrieveKO => None | _ => Some (st_copyNb (snd e)) end).

Definition accounted (m : pointer_map) (k : Z * option Z) : bool :=
  match m !! fst k with
  | None => false
  | Some p => match snd k with
              | None => retrieveAccounted p
              | Some cn => bool_decide (cn ∈ archiveCopyNbsAccounted p)
              end
  end.

(** The events that are accounted for, given the keys already seen: the first of each key. *)
Fixpoint fresh_events (seen : Z * option Z → bool) (l : list event) : list event :=
  match l with
  | [] => []
  | e :: l' =>
      if seen (event_key e) then fresh_events seen l'
      else e :: fresh_events (λ k, bool_decide (k = event_key e) || seen k) l'
  end.

Definition count_event (g : RepackProgress) (e : event) : RepackProgress :=
  match fst e with
  | RetrieveOK => count_retrieved (snd e) g
  | RetrieveKO => count_failed_retrieve (snd e) g
  | ArchiveOK => count_archived (snd e) g
  | ArchiveKO => count_failed_archive (snd e) g
  end.
Definition mark_event (e : event) (p : RepackSubRequestPointer) : RepackSubRequestPointer :=
  match fst e with
  | RetrieveOK | RetrieveKO => sp_set_retrieved p
  | ArchiveOK => sp_add_copy (st_copyNb (snd e)) (st_subrequestDeleted (snd e)) p
  | ArchiveKO => sp_add_copy (st_copyNb (snd e)) true p
  end.

(** The counter of files of a kind of reports, and what an event adds to it: nothing
    when the file was provided by the user. *)
Definition files_counter (kd : report_kind) (g : RepackProgress) : Z :=
  match kd with
  | RetrieveOK => retrievedfiles g
  | RetrieveKO => failedtoretrievefiles g
  | ArchiveOK => archivedfiles g
  | ArchiveKO => failedtoarchivefiles g
  end.
Definition files_of (kd : report_kind) (e : event) : Z :=
  if decide (fst e = kd)
  then match kd with RetrieveOK => if st_hasUserProvidedFile (snd e) then 0 else st_files (snd e) | _ => st_files (snd e) end
  else 0.
Definition sum_files (kd : report_kind) (l : list event) : Z := foldr (λ e n, files_of kd e + n) 0 l.

Lemma count_event_files kd g e : u64 (files_counter kd (count_event g e)) = u64 (files_counter kd g + files_of kd e).
Proof.
  destruct e as [k rs]. unfold count_event, files_of, count_retrieved. simpl.
  destruct kd, k; simpl; try (by rewrite Z.add_0_r); try (by rewrite u64_idemp);
    destruct (st_hasUserProvidedFile rs); simpl; by rewrite ?Z.add_0_r, ?u64_idemp.
Qed.

Lemma counted_files kd g l :
  u64 (files_counter kd (foldl count_event g l)) = u64 (files_counter kd g + sum_files kd l).
Proof.
  revert g. induction l as [|e l IH]; intros g; simpl; [by rewrite Z.add_0_r|].
  rewrite IH, <- u64_add_l, count_event_files, u64_add_l. f_equal. lia.
Qed.

Lemma fresh_events_ext f g l : (∀ k, f k = g k) → fresh_events f l = fresh_events g l.
Proof.
  revert f g. induction l as [|e l IH]; intros f g H; [done|]. simpl. rewrite H. case_match; [by apply IH|].
  f_equal. apply IH. intros k. by rewrite H.
Qed.

Lemma fresh_events_app f l1 l2 :
  fresh_events f (l1 ++ l2) = fresh_events f l1 ++ fresh_events (λ k, bool_decide (k ∈ event_key <$> l1) || f k) l2.
Proof.
  revert f. induction l1 as [|e l1 IH]; intros f; simpl; [done|]. case_match eqn:E; rewrite IH; [|simpl; f_equal]; f_equal;
    apply fresh_events_ext; intros k.
  - destruct (f k) eqn:Ek; [by rewrite !orb_true_r|]. rewrite !orb_false_r. apply bool_decide_ext.
    rewrite elem_of_cons. split; [tauto|]. intros [->|]; [congruence|done].
  - rewrite orb_assoc. f_equal. rewrite <- bool_decide_or. apply bool_decide_ext. rewrite elem_of_cons. tauto.
Qed.

Lemma fresh_events_fresh f l e : e ∈ fresh_events f l → f (event_key e) = false ∧ e ∈ l.
Proof.
  revert f. induction l as [|x l IH]; intros f; simpl; [set_solver|]. destruct (f (event_key x)) eqn:E.
  - intros H%IH. set_solver.
  - rewrite elem_of_cons. intros [->|[H1 H2]%IH]; [split; [done|left]|].
    apply orb_false_iff in H1 as [_ ?]. split; [done|by right].
Qed.

Lemma fresh_events_NoDup f l : NoDup (event_key <$> fresh_events f l).
Proof.
  revert f. induction l as [|x l IH]; intros f; simpl; [constructor|]. destruct (f (event_key x)); [apply IH|].
  rewrite fmap_cons. apply NoDup_cons. split; [|apply IH].
  intros (e & He & [H _]%fresh_events_fresh)%list_elem_of_fmap. rewrite <- He, bool_decide_true in H by done. done.
Qed.

Lemma fresh_events_all_seen f l : (∀ e, e ∈ l → f (event_key e) = true) → fresh_events f l = [].
Proof.
  revert f. induction l as [|x l IH]; intros f H; simpl; [done|]. rewrite H by left. apply IH. intros e He. apply H. by right.
Qed.

Lemma fresh_events_nil f l : fresh_events f l = [] → ∀ e, e ∈ l → f (event_key e) = true.
Proof.
  induction l as [|x l IH]; simpl; [set_solver|]. destruct (f (event_key x)) eqn:E; [|done].
  intros H e [->|He]%elem_of_cons; [done|by apply IH].
Qed.

(** Accounting for an event changes the answer for its key only. *)
Lemma accounted_mark e p m k :
  m !! st_fSeq (snd e) = Some p →
  accounted (<[st_fSeq (snd e) := mark_event e p]> m) k = bool_decide (k = event_key e) || accounted m k.
Proof.
  intros Hp. destruct k as [fs c], e as [kd rs]. unfold accounted, event_key; simpl in *.
  destruct (decide (fs = st_fSeq rs)) as [->|Hne].
  - rewrite lookup_insert_eq, Hp.
    destruct kd, c as [c|]; simpl; try (rewrite bool_decide_false by congruence; done);
      try (rewrite (bool_decide_true (_ = _)) by done; done);
      rewrite <- bool_decide_or; apply bool_decide_ext; set_solver.
  - rewrite lookup_insert_ne by done. by rewrite bool_decide_false by congruence.
Qed.

Section Spec.
Context {B St : Type} `{!Serializable B (ObjectHeader B), !Backend B St}.
Context `{!Serializable B RepackRequest, !Serializable B ArchiveRequest, !Serializable B Agent}.
Context `{!Serializable bytes ChecksumPb}.
Context (dummy : B).
(** The handle of the request: its address and header; it is locked and fetched. *)
Context (a : string) (h : ObjectHeader B).
Implicit Types (r : RepackRequest) (s : St) (m : pointer_map).
Abbreviation handle := (opened Exclusive a h).

Definition step_of (kd : report_kind) : SubrequestStatistics → RepackSubRequestPointer →
    M (HState B RepackRequest St) (option RepackSubRequestPointer) :=
  match kd with
  | RetrieveOK => retrieve_success_step
  | RetrieveKO => retrieve_failure_step
  | ArchiveOK => archive_success_step dummy
  | ArchiveKO => archive_failure_step
  end.

(** The archive request of a sub-request can be read. *)
Definition file_readable s (address : string) : Prop :=
  address ≠ "" ∧ ∃ hr (rq : ArchiveRequest) f, stored s address = Some (hr, rq) ∧ file_of rq = Ok f.
(** The archive request of a reported sub-request, if it is one of the map, can be read. *)
Definition archivable s m (rs : SubrequestStatistics) : Prop :=
  ∀ p, m !! st_fSeq rs = Some p → file_readable s (sp_address p).

Lemma fetch_archive_file_ok s address :
  be_wf s → file_readable s address → ∃ f, fetch_archive_file dummy address s = (Ok f, s).
Proof.
  intros Hwf (Ha & hr & rq & f & Hst & Hf). exists f. unfold fetch_archive_file.
  rewrite object_at_ok by done. rewrite bind_lift. unfold exec_on, run_on, mbind, M_bind.
  set (o := mkOps _ _ _ _ _). rewrite (fetchNoLock_spec s hr rq o) by done. simpl.
  unfold lift. f_equal. unfold getArchiveFile, ar_readable, ar_payload, get, gets, lift, mbind, M_bind. simpl. by rewrite Hf.
Qed.

(** What the report functions leave as it is. *)
Definition kept r r' : Prop :=
  totals r' = totals r ∧ rp_flags r' = rp_flags r ∧ rp_status r' = rp_status r ∧ subrequests r' = subrequests r.

Lemma kept_trans r1 r2 r3 : kept r1 r2 → kept r2 r3 → kept r1 r3.
Proof. intros (?&?&?&?) (?&?&?&?). repeat split; congruence. Qed.

Lemma archivable_same s m m' rs :
  sp_address <$> m' = sp_address <$> m → archivable s m rs → archivable s m' rs.
Proof.
  intros E Hr p' Hp'. assert (H : (sp_address <$> m') !! st_fSeq rs = Some (sp_address p')) by by rewrite lookup_fmap, Hp'.
  rewrite E, lookup_fmap in H. apply fmap_Some in H as (p & Hp & ->). by apply Hr.
Qed.

Definition accounted_in (kd : report_kind) (rs : SubrequestStatistics) (p : RepackSubRequestPointer) : bool :=
  match kd with
  | RetrieveOK | RetrieveKO => retrieveAccounted p
  | _ => bool_decide (st_copyNb rs ∈ archiveCopyNbsAccounted p)
  end.

Lemma step_of_spec kd rs p r s :
  be_wf s → (kd = ArchiveOK → file_readable s (sp_address p)) →
  ∃ r', step_of kd rs p (handle r, s) =
      (Ok (if accounted_in kd rs p then None else Some (mark_event (kd, rs) p)), (handle r', s)) ∧
    kept r r' ∧ (accounted_in kd rs p = true → r' = r) ∧
    progress r' = if accounted_in kd rs p then progress r else count_event (progress r) (kd, rs).
Proof.
  intros Hwf Hr. destruct kd; unfold step_of, accounted_in, retrieve_success_step, retrieve_failure_step,
    archive_success_step, archive_failure_step.
  1,2: destruct (retrieveAccounted p); eexists; by repeat split.
  all: destruct (decide (st_copyNb rs ∈ archiveCopyNbsAccounted p)) as [Hin|Hin];
    [rewrite bool_decide_true by done; eexists; by repeat split|rewrite bool_decide_false by done].
  - destruct (fetch_archive_file_ok s (sp_address p) Hwf (Hr eq_refl)) as [f Hf].
    unfold on_store at 1, mbind at 1, M_bind at 1. cbn [snd fst]. rewrite Hf. eexists; by repeat split.
  - eexists; by repeat split.
Qed.

Lemma mark_event_kept e p : sp_address (mark_event e p) = sp_address p ∧ sp_fSeq (mark_event e p) = sp_fSeq p.
Proof. by destruct e as [[] ?]. Qed.

Lemma report_loop_spec unknown kd l m did r s :
  be_wf s → keyed m → (kd = ArchiveOK → Forall (archivable s m) l) → Forall (λ rs, is_Some (m !! st_fSeq rs)) l →
  let fresh := fresh_events (accounted m) (pair kd <$> l) in
  ∃ m' r', report_loop unknown (step_of kd) l m did (handle r, s) =
      (Ok (m', did || negb (bool_decide (length fresh = 0%nat))), (handle r', s)) ∧
    kept r r' ∧ progress r' = foldl count_event (progress r) fresh ∧ keyed m' ∧
    (∀ k, accounted m' k = bool_decide (k ∈ event_key <$> (pair kd <$> l)) || accounted m k) ∧
    sp_address <$> m' = sp_address <$> m ∧ (fresh = [] → r' = r).
Proof.
  intros Hwf. revert m did r. induction l as [|rs l IH]; intros m did r Hk Hr Hl fresh.
  - exists m, r. unfold fresh. simpl. rewrite orb_false_r. split_and!; eauto. by repeat split.
  - apply Forall_cons in Hl as [[p Hp] Hl].
    assert (Hr' : kd = ArchiveOK → archivable s m rs ∧ Forall (archivable s m) l) by (intros E; by apply Forall_cons, Hr).
    destruct (step_of_spec kd rs p r s Hwf) as (r1 & E & Hk1 & Hr1 & Hg1); [intros E; by apply (proj1 (Hr' E))|].
    assert (Hacc : accounted m (event_key (kd, rs)) = accounted_in kd rs p).
    { unfold accounted, event_key, accounted_in. simpl. rewrite Hp. by destruct kd. }
    unfold fresh. rewrite !fmap_cons. cbn [fresh_events]. rewrite Hacc.
    cbn [report_loop]. rewrite Hp. mstep E. clear fresh.
    destruct (accounted_in kd rs p) eqn:Ha.
    + destruct (IH m did r1 Hk) as (m' & r' & E' & Hk' & Hg' & Hkey & Hac & Had & Hno); [naive_solver|done|].
      exists m', r'. rewrite E'. split_and!; try done.
      * by eapply kept_trans.
      * by rewrite Hg', Hg1.
      * intros k. rewrite Hac. destruct (accounted m k) eqn:Ek; [by rewrite !orb_true_r|].
        rewrite !orb_false_r. apply bool_decide_ext. rewrite elem_of_cons. split; [tauto|].
        intros [->|]; [congruence|done].
      * intros Hf. by rewrite Hno, Hr1.
    + set (m1 := <[st_fSeq rs := mark_event (kd, rs) p]> m).
      assert (Hm1 : ∀ k, accounted m1 k = bool_decide (k = event_key (kd, rs)) || accounted m k)
        by (intros k; by apply (accounted_mark (kd, rs))).
      assert (Had1 : sp_address <$> m1 = sp_address <$> m).
      { unfold m1. rewrite fmap_insert, (proj1 (mark_event_kept _ _)). apply insert_id. by rewrite lookup_fmap, Hp. }
      destruct (IH m1 true r1) as (m' & r' & E' & Hk' & Hg' & Hkey & Hac & Had & _).
      * apply map_Forall_insert_2; [|done]. rewrite (proj2 (mark_event_kept _ _)). by apply (Hk _ _ Hp).
      * intros Ek. eapply Forall_impl; [apply (Hr' Ek)|]. intros x. by eapply archivable_same.
      * eapply Forall_impl; [exact Hl|]. intros x Hx. unfold m1. rewrite lookup_insert_is_Some'. tauto.
      * exists m', r'. rewrite E'. rewrite (fresh_events_ext _ _ _ Hm1) in Hg'. rewrite orb_true_r.
        split_and!; try done.
        -- by eapply kept_trans.
        -- by rewrite Hg', Hg1.
        -- intros k. rewrite Hac, Hm1, orb_assoc. f_equal. rewrite <- bool_decide_or.
           apply bool_decide_ext. rewrite elem_of_cons. tauto.
        -- by rewrite Had.
Qed.

(** ** Status *)
Definition expected_status r : RepackStatus :=
  if is_expand_started (rp_flags r) then
    if is_expand_finished (rp_flags r) && all_accounted r then if any_failed (progress r) then RS_Failed else RS_Complete
    else if any_processed (progress r) then RS_Running else RS_Starting
  else rp_status r.

(** The repack has ended. *)
Definition ended r : bool :=
  is_expand_started (rp_flags r) && is_expand_finished (rp_flags r) && all_accounted r.

Definition with_expected_status (now : Z) r : RepackRequest :=
  if is_expand_started (rp_flags r)
  then rp_set_status (expected_status r) (if ended r then rp_set_repack_finished_time (u64 now) r else r)
  else r.

(** The agent that owns the request. *)
Definition owner_stored s : Prop := ∃ ha p, agent_stored s (h_owner h) ha p.
Definition released s : Prop :=
  ∃ ha (p : Agent), stored s (h_owner h) = Some (ha, p) ∧ a ∉ ownedobjects p.

Lemma rp_setStatusTo_spec now st r s :
  rp_setStatusTo now st (handle r, s) =
    (Ok tt, (handle (rp_set_status st (match st with RS_Complete | RS_Failed => rp_set_repack_finished_time (u64 now) r
                                       | _ => r end)), s)).
Proof. by destruct st. Qed.

Lemma rp_setStatus_eq now r s :
  rp_setStatus dummy now (handle r, s) =
    (if is_expand_started (rp_flags r) then
       if is_expand_finished (rp_flags r) && all_accounted r then
         _ ← (if any_failed (progress r)
              then _ ← rp_modify (rp_set_repack_finished_time (u64 now)); rp_setStatusTo now RS_Failed
              else _ ← rp_modify (rp_set_repack_finished_time (u64 now)); rp_setStatusTo now RS_Complete);
         rp_removeFromOwnerAgentOwnership dummy
       else rp_setStatusTo now (if any_processed (progress r) then RS_Running else RS_Starting)
     else mret tt) (handle r, s).
Proof. done. Qed.

Lemma rp_removeFromOwner_eq r s :
  h_owner h ≠ "" →
  rp_removeFromOwnerAgentOwnership dummy (handle r, s) = on_store (aw_removeFromOwnership dummy (h_owner h) a) (handle r, s).
Proof.
  intros Ho. unfold rp_removeFromOwnerAgentOwnership, rp_readable, rp_writable, self, gets, mbind, M_bind, lift.
  cbn -[object_at aw_removeFromOwnership on_store]. by rewrite object_at_ok.
Qed.

Lemma rp_setStatus_spec now r s :
  owner_stored s →
  ∃ s', rp_setStatus dummy now (handle r, s) = (Ok tt, (handle (with_expected_status now r), s')) ∧
    owner_stored s' ∧ (∀ n, n ≠ h_owner h → be_view s' !! n = be_view s !! n) ∧
    (ended r = true → released s') ∧ (ended r = false → s' = s).
Proof.
  intros (ha & p & Hs). unfold with_expected_status, ended, expected_status.
  destruct (is_expand_started (rp_flags r)) eqn:Es; cbn [andb].
  2:{ exists s. split; [by rewrite rp_setStatus_eq, Es|]. split; [by exists ha, p|]. done. }
  destruct (is_expand_finished (rp_flags r) && all_accounted r) eqn:Ef; cbn [andb].
  - destruct (aw_removeFromOwnership_spec dummy (h_owner h) a ha p s Hs) as (s' & h' & p' & E & Hs' & Hnot & _ & Hfr).
    exists s'. split_and!; [|by exists h', p'|done| |done].
    + rewrite rp_setStatus_eq, Es, Ef.
      assert (Hrm : ∀ r', rp_removeFromOwnerAgentOwnership dummy (handle r', s) = (Ok tt, (handle r', s'))).
      { intros r'. rewrite rp_removeFromOwner_eq by apply (proj2 Hs). unfold on_store. cbn [fst snd]. by rewrite E. }
      destruct (any_failed (progress r)); apply Hrm.
    + intros _. exists h', p'. by destruct Hs' as (_ & _ & ? & _).
  - exists s. split_and!; [|by exists ha, p|done|done|done].
    rewrite rp_setStatus_eq, Es, Ef. by destruct (any_processed (progress r)).
Qed.

(** ** A call *)

(** What every call of a report function finds: the agent of the owner, the archive
    requests of the successes, a status that follows from the counts, and the
    request released once it has ended. *)
Record ready r s : Prop := {
  ready_wf : be_wf s;
  ready_owner : owner_stored s;
  ready_apart : map_Forall (λ _ p, sp_address p ≠ h_owner h) (read_map (subrequests r));
  ready_status : rp_status r = expected_status r;
  ready_ended : ended r = true → released s
}.

(** The reports of a call are about sub-requests on record, and the successes about
    archive requests that can be read. *)
Definition reportable s m (e : event) : Prop :=
  is_Some (m !! st_fSeq (snd e)) ∧ (fst e = ArchiveOK → archivable s m (snd e)).

Definition addresses_of r : gmap Z string := sp_address <$> read_map (subrequests r).
Abbreviation accounted_of r := (accounted (read_map (subrequests r))).

(** The effect of reports on a request: the keys of the events are accounted for and
    the first event of each key is counted. *)
Record reported r (l : list event) r' : Prop := {
  reported_totals : totals r' = totals r;
  reported_flags : rp_flags r' = rp_flags r;
  reported_addresses : addresses_of r' = addresses_of r;
  reported_progress : progress r' = foldl count_event (progress r) (fresh_events (accounted_of r) l);
  reported_keys k : accounted_of r' k = bool_decide (k ∈ event_key <$> l) || accounted_of r k
}.

Lemma with_expected_status_kept now r :
  let r' := with_expected_status now r in
  totals r' = totals r ∧ rp_flags r' = rp_flags r ∧ progress r' = progress r ∧ subrequests r' = subrequests r ∧
  rp_status r' = expected_status r.
Proof.
  unfold with_expected_status, expected_status. destruct (is_expand_started (rp_flags r)); [|done].
  by destruct (ended r).
Qed.

Lemma expected_status_eq r r' :
  totals r' = totals r → rp_flags r' = rp_flags r → progress r' = progress r → rp_status r' = expected_status r →
  rp_status r' = expected_status r' ∧ ended r' = ended r.
Proof.
  intros Ht Hf Hg Hs. unfold ended, expected_status, all_accounted in *. rewrite Ht, Hf, Hg. split; [|done].
  destruct (is_expand_started (rp_flags r)); done.
Qed.

Lemma archivable_frame s s' m rs :
  map_Forall (λ _ p, sp_address p ≠ h_owner h) m → (∀ n, n ≠ h_owner h → be_view s' !! n = be_view s !! n) →
  archivable s m rs → archivable s' m rs.
Proof.
  intros Hap Hfr Hr p Hp. destruct (Hr p Hp) as (Ha & hr & rq & f & Hst & Hf). split; [done|].
  exists hr, rq, f. split; [|done]. rewrite (stored_frame s); [done|]. apply Hfr. by apply (Hap _ _ Hp).
Qed.

Lemma apart_same r r' :
  addresses_of r' = addresses_of r → map_Forall (λ _ p, sp_address p ≠ h_owner h) (read_map (subrequests r)) →
  map_Forall (λ _ p, sp_address p ≠ h_owner h) (read_map (subrequests r')).
Proof.
  unfold addresses_of. intros E H k p Hp.
  assert (Hq : (sp_address <$> read_map (subrequests r')) !! k = Some (sp_address p)) by by rewrite lookup_fmap, Hp.
  rewrite E, lookup_fmap in Hq. apply fmap_Some in Hq as (q & Hq & ->). by apply (H k q).
Qed.

(** A call accounts for its reports; one whose reports were all accounted for
    before changes nothing. *)
Lemma report_spec now unknown kd l r s :
  ready r s → Forall (reportable s (read_map (subrequests r))) (pair kd <$> l) →
  ∃ r' s', report dummy now unknown (step_of kd) l (handle r, s) = (Ok tt, (handle r', s')) ∧
    ready r' s' ∧ reported r (pair kd <$> l) r' ∧
    (∀ n, n ≠ h_owner h → be_view s' !! n = be_view s !! n) ∧
    (fresh_events (accounted_of r) (pair kd <$> l) = [] → r' = r ∧ s' = s).
Proof.
  intros Hrd Hl. rewrite Forall_fmap in Hl.
  assert (Hl1 : Forall (λ rs, is_Some (read_map (subrequests r) !! st_fSeq rs)) l)
    by (eapply Forall_impl; [exact Hl|]; intros x Hx; apply Hx).
  assert (Hl2 : kd = ArchiveOK → Forall (archivable s (read_map (subrequests r))) l)
    by (intros ->; eapply Forall_impl; [exact Hl|]; intros x Hx; by apply Hx).
  destruct (report_loop_spec unknown kd l (read_map (subrequests r)) false r s (ready_wf _ _ Hrd) (read_map_keyed _) Hl2 Hl1)
    as (m & r1 & E & (Ht & Hf & Hs & Hsub) & Hg & Hkey & Hac & Had & Hno).
  assert (Hw : rp_writable (handle r, s) = (Ok tt, (handle r, s))) by done.
  assert (Hpl : rp_payload (handle r, s) = (Ok r, (handle r, s))) by done.
  unfold report. mstep Hw. mstep Hpl. mstep E. cbn [orb].
  destruct (fresh_events (accounted_of r) (pair kd <$> l)) as [|e0 fl] eqn:Efr.
  - rewrite bool_decide_true by done. cbn [negb]. rewrite (Hno eq_refl). exists r, s.
    split; [done|]. split; [done|]. split; [|done].
    split; rewrite ?Efr; try done. intros k. destruct (bool_decide_reflect (k ∈ event_key <$> (pair kd <$> l))) as [Hin|]; [|done].
    apply list_elem_of_fmap in Hin as (e & -> & He). by rewrite (fresh_events_nil _ _ Efr e He).
  - rewrite bool_decide_false by done. cbn [negb].
    destruct (rp_setStatus_spec now r1 s (ready_owner _ _ Hrd)) as (s' & Es & How & Hfr & Hend & Hnend).
    destruct (with_expected_status_kept now r1) as (Ht1 & Hf1 & Hg1 & Hsub1 & Hs1).
    mstep Es. set (r2 := with_expected_status now r1) in *.
    exists (rp_set_subrequests (write_map m) r2), s'. split; [done|].
    assert (Hrep : reported r (pair kd <$> l) (rp_set_subrequests (write_map m) r2)).
    { split; simpl; rewrite ?Efr, ?read_write_map; try done; try congruence.
      unfold addresses_of. simpl. by rewrite read_write_map. }
    destruct (expected_status_eq r1 (rp_set_subrequests (write_map m) r2)) as [Hst' Hen']; [done..|].
    split; [|done]. split; try done.
    + by destruct How as (ha & p & ? & _).
    + eapply apart_same, (ready_apart _ _ Hrd). apply Hrep.
    + rewrite Hen'. apply Hend.
Qed.

(** ** Any sequence of calls *)
Definition report_call (now : Z) (kd : report_kind) (l : list SubrequestStatistics) : M (HState B RepackRequest St) unit :=
  match kd with
  | RetrieveOK => rp_reportRetriveSuccesses dummy now l
  | RetrieveKO => rp_reportRetriveFailures dummy now l
  | ArchiveOK => _ ← rp_reportArchiveSuccesses dummy now l; mret tt
  | ArchiveKO => _ ← rp_reportArchiveFailures dummy now l; mret tt
  end.

Fixpoint report_calls (calls : list (Z * report_kind * list SubrequestStatistics)) : M (HState B RepackRequest St) unit :=
  match calls with
  | [] => mret tt
  | (now, kd, l) :: calls' => _ ← report_call now kd l; report_calls calls'
  end.
Definition events_of (calls : list (Z * report_kind * list SubrequestStatistics)) : list event :=
  calls ≫= λ c, pair (snd (fst c)) <$> snd c.

Lemma report_call_spec now kd l r s :
  ready r s → Forall (reportable s (read_map (subrequests r))) (pair kd <$> l) →
  ∃ r' s', report_call now kd l (handle r, s) = (Ok tt, (handle r', s')) ∧
    ready r' s' ∧ reported r (pair kd <$> l) r' ∧
    (∀ n, n ≠ h_owner h → be_view s' !! n = be_view s !! n) ∧
    (fresh_events (accounted_of r) (pair kd <$> l) = [] → r' = r ∧ s' = s).
Proof.
  intros Hrd Hl. pose proof (λ u, report_spec now u kd l r s Hrd Hl) as Hspec.
  destruct kd; cbn [report_call step_of] in *; unfold rp_reportRetriveSuccesses, rp_reportRetriveFailures,
    rp_reportArchiveSuccesses, rp_reportArchiveFailures;
    match goal with |- context [report _ _ ?u _ _] => destruct (Hspec u) as (r' & s' & E & H) end;
    exists r', s'; (split; [|exact H]); rewrite ?bind_assoc; first [exact E|unfold mbind, M_bind; by rewrite E].
Qed.

Lemma reportable_next s s' r r' e :
  ready r s → addresses_of r' = addresses_of r → (∀ n, n ≠ h_owner h → be_view s' !! n = be_view s !! n) →
  reportable s (read_map (subrequests r)) e → reportable s' (read_map (subrequests r')) e.
Proof.
  intros Hrd Had Hfr [[p Hp] Hr]. unfold addresses_of in Had. split.
  - assert (H : (sp_address <$> read_map (subrequests r')) !! st_fSeq (snd e) = Some (sp_address p))
      by by rewrite Had, lookup_fmap, Hp.
    rewrite lookup_fmap in H. by apply fmap_Some in H as (q & -> & _).
  - intros Ek. eapply archivable_same; [exact Had|]. eapply archivable_frame; [apply Hrd|exact Hfr|by apply Hr].
Qed.

Lemma reported_trans r r1 r2 l1 l2 : reported r l1 r1 → reported r1 l2 r2 → reported r (l1 ++ l2) r2.
Proof.
  intros [Ht1 Hf1 Ha1 Hp1 Hk1] [Ht2 Hf2 Ha2 Hp2 Hk2]. split; try congruence.
  - rewrite Hp2, Hp1, fresh_events_app, foldl_app. f_equal. by apply fresh_events_ext.
  - intros k. rewrite Hk2, Hk1, orb_assoc, fmap_app. f_equal. rewrite <- bool_decide_or. apply bool_decide_ext.
    rewrite elem_of_app. tauto.
Qed.

Lemma report_calls_spec calls r s :
  ready r s → Forall (reportable s (read_map (subrequests r))) (events_of calls) →
  ∃ r' s', report_calls calls (handle r, s) = (Ok tt, (handle r', s')) ∧ ready r' s' ∧ reported r (events_of calls) r' ∧
    (fresh_events (accounted_of r) (events_of calls) = [] → r' = r ∧ s' = s).
Proof.
  revert r s. induction calls as [|[[now kd] l] calls IH]; intros r s Hrd Hl.
  - exists r, s. split_and!; try done.
  - unfold events_of in Hl |- *. rewrite bind_cons in Hl |- *. cbn [fst snd] in Hl |- *. apply Forall_app in Hl as [Hl1 Hl2].
    destruct (report_call_spec now kd l r s Hrd Hl1) as (r1 & s1 & E1 & Hrd1 & Hrep1 & Hfr1 & Hno1).
    destruct (IH r1 s1 Hrd1) as (r2 & s2 & E2 & Hrd2 & Hrep2 & Hno2).
    { eapply Forall_impl; [exact Hl2|]. intros e. by eapply reportable_next; [|apply Hrep1|]. }
    exists r2, s2. cbn [report_calls]. mstep E1. split_and!; [done|done|by eapply reported_trans|].
    rewrite fresh_events_app. intros [Hn1 Hn2]%app_eq_nil. destruct (Hno1 Hn1) as [-> ->]. apply Hno2.
    unfold events_of. rewrite <- Hn2. apply fresh_events_ext. intros k. destruct (bool_decide_reflect (k ∈ event_key <$> (pair kd <$> l))) as [Hin|]; [|done].
    apply list_elem_of_fmap in Hin as (e & -> & He). by apply (fresh_events_nil _ _ Hn1 e He).
Qed.

(** C7: the report functions of a repack request, called in any order and with any
    repetitions, raise no exception, and count the first report of each retrieval
    and of each archived copy that was not accounted for before: the counters of
    files grow, in 64 bits, by the files of those reports and of no other, the
    reported keys are accounted for, the status is the one the counts give, and once
    the repack has ended the request is no longer owned by its agent.  Reports that
    were all accounted for before change neither the request nor the store. *)
Theorem repack_reports_counted_once calls r s :
  ready r s → Forall (reportable s (read_map (subrequests r))) (events_of calls) →
  let fresh := fresh_events (accounted_of r) (events_of calls) in
  ∃ r' s', report_calls calls (handle r, s) = (Ok tt, (handle r', s')) ∧
    NoDup (event_key <$> fresh) ∧
    (∀ kd, u64 (files_counter kd (progress r')) = u64 (files_counter kd (progress r) + sum_files kd fresh)) ∧
    (∀ k, accounted_of r' k = bool_decide (k ∈ event_key <$> events_of calls) || accounted_of r k) ∧
    totals r' = totals r ∧ rp_flags r' = rp_flags r ∧
    rp_status r' = expected_status r' ∧ (ended r' = true → released s') ∧
    (fresh = [] → r' = r ∧ s' = s).
Proof.
  intros Hrd Hl fresh. destruct (report_calls_spec calls r s Hrd Hl) as (r' & s' & E & [] & [] & Hno).
  exists r', s'. split_and!; try done; [apply fresh_events_NoDup|].
  intros kd. rewrite reported_progress0. apply counted_files.
Qed.
End Spec.
