(* ===== verification/RepackSubrequests.v ===== *)
(** * The sub-requests of a repack request

    Their addresses are decided once, whatever interrupts the expansion of the
    tape; the deletion of all of them ends and removes every object. *)
From stdpp Require Import sorting.
From S2P Require Import Prelude DataTypes Backend ObjectOps Handles Checksum ArchiveFile ArchiveRequest RetrieveRequest RetrieveRequestSpec Agent AgentWrapper RepackRequest RepackRequestSpec.

(** ** Preparation *)
Abbreviation prepare_state := (pointer_map * AgentReference * bool)%type.
Abbreviation st_map st := (fst (fst (st : prepare_state))).

(** The information returned for a sub-request is on record. *)
Definition on_record (m : pointer_map) (i : SubrequestInfo) : Prop :=
  ∃ p, m !! si_fSeq i = Some p ∧ i = mkSubInfo (sp_address p) (sp_fSeq p) (sp_subrequestDeleted p).

Lemma prepare_one_spec fs m ag c i st :
  keyed m → prepare_one fs (m, ag, c) = (i, st) →
  si_fSeq i = fs ∧ on_record (st_map st) i ∧ keyed (st_map st) ∧ m ⊆ st_map st ∧
  (fs ∈ dom m → st = (m, ag, c)) ∧ (snd st = false → st = (m, ag, c)).
Proof.
  intros Hk. unfold prepare_one. destruct (m !! fs) as [p|] eqn:Hp; intros [= <- <-]; simpl.
  - pose proof (Hk _ _ Hp) as Hf. split_and!; try done. exists p. by rewrite Hf.
  - split_and!; try done.
    + eexists. by rewrite lookup_insert_eq.
    + by apply map_Forall_insert_2.
    + by apply insert_subseteq.
    + intros Hd. apply elem_of_dom in Hd as [? ?]. congruence.
Qed.

Lemma on_record_mono m m' i : m ⊆ m' → on_record m i → on_record m' i.
Proof. intros Hm (p & Hp & Hi). exists p. split; [by eapply lookup_weaken|done]. Qed.

Lemma prepare_loop_spec l m ag c infos st :
  keyed m → prepare_loop l (m, ag, c) = (infos, st) →
  si_fSeq <$> infos = l ∧ Forall (on_record (st_map st)) infos ∧ keyed (st_map st) ∧ m ⊆ st_map st ∧
  (list_to_set l ⊆ dom m → st = (m, ag, c)) ∧ (snd st = false → st = (m, ag, c)).
Proof.
  revert m ag c infos st. induction l as [|fs l IH]; intros m ag c infos st Hk; cbn [prepare_loop].
  { intros [= <- <-]. by split_and!. }
  destruct (prepare_one fs (m, ag, c)) as [i st1] eqn:E1. destruct (prepare_one_spec _ _ _ _ _ _ Hk E1) as (Hi & Hon & Hk1 & Hm1 & Hd1 & Hc1).
  destruct st1 as [[m1 ag1] c1]. destruct (prepare_loop l (m1, ag1, c1)) as [infos' st2] eqn:E2. intros [= <- <-].
  destruct (IH _ _ _ _ _ Hk1 E2) as (Hi2 & Hon2 & Hk2 & Hm2 & Hd2 & Hc2). simpl in *. split_and!; [by f_equal| |done|by etrans| |].
  - constructor; [by eapply on_record_mono|done].
  - intros Hs. rewrite Hd2, Hd1; [done|set_solver|]. apply subseteq_dom in Hm1. set_solver.
  - intros Hs. rewrite Hc2, Hc1; [done| |done]. by rewrite Hc2 in Hs.
Qed.

(** With everything on record the loop reads the record. *)
Lemma prepare_loop_again l m ag c infos :
  si_fSeq <$> infos = l → Forall (on_record m) infos → prepare_loop l (m, ag, c) = (infos, (m, ag, c)).
Proof.
  intros <-. induction 1 as [|i infos (p & Hp & Hi) _ IH]; [done|]. rewrite fmap_cons. cbn [prepare_loop].
  unfold prepare_one. rewrite Hp, IH. by rewrite Hi.
Qed.

Section Subrequests.
Context {B St : Type} `{!Serializable B (ObjectHeader B), !Backend B St}.
Context `{!Serializable B RepackRequest, !Serializable B ArchiveRequest, !Serializable B Agent}.
Context `{!Serializable bytes ChecksumPb}.
Context (a : string) (h : ObjectHeader B).
Implicit Types (r : RepackRequest) (s : St) (m : pointer_map).
Abbreviation handle := (opened Exclusive a h).

Lemma getOrPrepare_eq fSeqs agent r s :
  rp_getOrPrepareSubrequestInfo fSeqs agent (handle r, s) =
    (let '(infos, (m, agent', c)) := prepare_loop (ascending fSeqs) (read_map (subrequests r), agent, false) in
     (Ok (infos, agent'), (handle (if (c : bool) then rp_set_subrequests (write_map m) r else r), s))).
Proof.
  unfold rp_getOrPrepareSubrequestInfo.
  mstep (eq_refl : rp_writable (handle r, s) = (Ok tt, (handle r, s))).
  mstep (eq_refl : rp_payload (handle r, s) = (Ok r, (handle r, s))).
  destruct (prepare_loop _ _) as [infos [[m agent'] c]]. by destruct c.
Qed.

(** [getOrPrepareSubrequestInfo] returns one entry per file of the request, in
    increasing order, whose address is on record in the repack request when it
    returns; the addresses that were on record before are not changed; and a second
    call for the same files, by the same or by another agent, returns the same
    entries, takes no new identifier and changes nothing. *)
Lemma subrequest_addresses_decided_once fSeqs agent r s :
  ∃ infos agent' r', rp_getOrPrepareSubrequestInfo fSeqs agent (handle r, s) = (Ok (infos, agent'), (handle r', s)) ∧
    si_fSeq <$> infos = ascending fSeqs ∧
    Forall (λ i, addresses_of r' !! si_fSeq i = Some (si_address i)) infos ∧
    addresses_of r ⊆ addresses_of r' ∧
    (∀ agent2, rp_getOrPrepareSubrequestInfo fSeqs agent2 (handle r', s) = (Ok (infos, agent2), (handle r', s))).
Proof.
  pose proof (read_map_keyed (subrequests r)) as Hk.
  destruct (prepare_loop (ascending fSeqs) (read_map (subrequests r), agent, false)) as [infos [[m agent'] c]] eqn:E.
  destruct (prepare_loop_spec _ _ _ _ _ _ Hk E) as (Hi & Hon & Hk' & Hm & _ & Hc). cbn [fst snd] in *.
  set (r' := if c then rp_set_subrequests (write_map m) r else r).
  assert (Hr' : read_map (subrequests r') = m).
  { unfold r'. destruct c; [by apply read_write_map|]. by injection (Hc eq_refl) as ->. }
  exists infos, agent', r'. split_and!; [by rewrite getOrPrepare_eq, E|done| | |].
  - unfold addresses_of. rewrite Hr'. eapply Forall_impl; [exact Hon|]. intros i (p & Hp & ->). simpl in *.
    by rewrite lookup_fmap, Hp.
  - unfold addresses_of. rewrite Hr'. by apply map_fmap_mono.
  - intros agent2. rewrite getOrPrepare_eq, Hr', (prepare_loop_again _ _ _ _ infos) by done. done.
Qed.

(** ** Deletion *)

(** The objects of [s'] are those of [s] but for the names [l]. *)
Definition deleted_from s (l : list string) s' : Prop :=
  be_wf s' ∧ ∀ n, be_view s' !! n = if decide (n ∈ l) then None else be_view s !! n.

Lemma deleted_from_app s l1 s1 l2 s2 :
  deleted_from s l1 s1 → deleted_from s1 l2 s2 → deleted_from s (l1 ++ l2) s2.
Proof.
  intros [_ H1] [Hwf H2]. split; [done|]. intros n. rewrite H2, H1.
  destruct (decide (n ∈ l2)); [by rewrite decide_True by set_solver|].
  destruct (decide (n ∈ l1)); [by rewrite decide_True by set_solver|by rewrite decide_False by set_solver].
Qed.

Lemma asyncDelete_spec n s :
  be_wf s → ∃ res s', asyncDelete n s = (res, s') ∧ deleted_from s [n] s' ∧ (res = Ok tt ∨ res = Throw NoSuchObject).
Proof.
  intros Hwf. unfold asyncDelete. destruct (be_view s !! n) as [c|] eqn:Hc.
  - destruct (be_remove_ok s n Hwf) as (s' & E & Hwf' & Hv); [eauto|].
    exists (Ok tt), s'. rewrite (bind_ok _ _ _ _ _ (lock_for_async_ok n s Hwf (ex_intro _ c Hc))).
    rewrite (catch_ok _ _ _ _ _ E). split_and!; [done| |by left]. split; [done|]. intros k. rewrite Hv.
    destruct (decide (k ∈ [n])) as [->%list_elem_of_singleton|Hne]; [by rewrite lookup_delete_eq|].
    rewrite lookup_delete_ne; [done|set_solver].
  - exists (Throw NoSuchObject), s. split_and!; [| |by right].
    + unfold lock_for_async, mbind, M_bind, catch. by rewrite be_lock_absent.
    + split; [done|]. intros k. destruct (decide (k ∈ [n])) as [->%list_elem_of_singleton|]; done.
Qed.

Lemma delete_all_spec l s :
  be_wf s → ∃ rs s', delete_all l s = (Ok rs, s') ∧ deleted_from s l s' ∧
    Forall (λ x, x = Ok tt ∨ x = Throw NoSuchObject) rs.
Proof.
  revert s. induction l as [|n l IH]; intros s Hwf; cbn [delete_all].
  { exists [], s. split_and!; [done|by split|constructor]. }
  destruct (asyncDelete_spec n s Hwf) as (res & s1 & E & Hd & Hres). rewrite E.
  destruct (IH s1 (proj1 Hd)) as (rs & s2 & E2 & Hd2 & Hrs). mstep E2.
  exists (res :: rs), s2. split_and!; [done|by apply (deleted_from_app s [n] s1)|by constructor].
Qed.

Lemma wait_all_tolerated rs :
  Forall (λ x, x = Ok tt ∨ x = Throw NoSuchObject) rs → wait_all rs = Ok tt ∨ wait_all rs = Throw NoSuchObject.
Proof.
  unfold wait_all. induction 1 as [|x rs [->| ->] _ IH]; simpl; [by left|apply IH|by right].
Qed.

Lemma delete_batch_spec l s : be_wf s → ∃ s', delete_batch l s = (Ok tt, s') ∧ deleted_from s l s'.
Proof.
  intros Hwf. destruct (delete_all_spec l s Hwf) as (rs & s' & E & Hd & Hrs). exists s'. split; [|done].
  unfold delete_batch, catch. mstep E. destruct (wait_all_tolerated rs Hrs) as [-> | ->]; done.
Qed.

Lemma delete_rounds_spec fuel processed r s :
  be_wf s → (length (subrequests r) <= processed + fuel)%nat →
  ∃ s', delete_rounds fuel processed (handle r, s) =
      (Ok tt, (handle (rp_set_subrequests (take processed (subrequests r) ++
                        (sub_mark_deleted <$> drop processed (subrequests r))) r), s')) ∧
    deleted_from s (sub_address <$> drop processed (subrequests r)) s'.
Proof.
  revert processed r s. induction fuel as [|fuel IH]; intros processed r s Hwf Hlen; cbn [delete_rounds];
    mstep (eq_refl : rp_payload (handle r, s) = (Ok r, (handle r, s))).
  - rewrite decide_True by lia. exists s. rewrite drop_ge, take_ge by lia. rewrite app_nil_r. split; [by destruct r|by split].
  - case_decide as Hp.
    { exists s. rewrite drop_ge, take_ge by lia. rewrite app_nil_r. split; [by destruct r|by split]. }
    set (batch := take batch_size (drop processed (subrequests r))).
    set (rest := drop batch_size (drop processed (subrequests r))).
    set (done_ := take processed (subrequests r)).
    assert (Hsub : drop processed (subrequests r) = batch ++ rest) by (unfold batch, rest; by rewrite take_drop).
    assert (Hdone : length done_ = processed) by (apply length_take_le; lia).
    assert (Hb : (0 < length batch)%nat).
    { unfold batch, batch_size. rewrite length_take, length_drop. lia. }
    set (r1 := rp_set_subrequests (done_ ++ (sub_mark_deleted <$> batch) ++ rest) r).
    destruct (delete_batch_spec (sub_address <$> batch) s Hwf) as (s1 & E1 & Hd1).
    destruct (IH (processed + length batch)%nat r1 s1) as (s2 & E2 & Hd2); [apply Hd1| |].
    { simpl. rewrite !length_app, length_fmap. pose proof (f_equal length Hsub) as Hl. rewrite length_app, length_drop in Hl. lia. }
    assert (Hpl : length (done_ ++ (sub_mark_deleted <$> batch)) = (processed + length batch)%nat)
      by (by rewrite length_app, length_fmap, Hdone).
    exists s2.
    erewrite bind_ok; [|done]. erewrite bind_ok; [|unfold on_store; cbn [fst snd]; by rewrite E1].
    change (subrequests r1) with (done_ ++ (sub_mark_deleted <$> batch) ++ rest) in *.
    rewrite app_assoc, <- Hpl, take_app_length, drop_app_length in E2.
    rewrite app_assoc, <- Hpl, drop_app_length in Hd2.
    rewrite Hpl, <- app_assoc in E2. rewrite Hsub, fmap_app. split; [exact E2|].
    rewrite fmap_app. by eapply deleted_from_app.
Qed.

(** [deleteAllSubrequests] ends, whatever the number of sub-requests and
    whichever of their objects are already gone: every sub-request is marked as
    deleted, no object is left at any of their addresses, the other objects are
    untouched, and the destination counters are cleared; on a request that is
    marked complete it does nothing. *)
Lemma all_subrequests_deleted r s :
  be_wf s →
  ∃ r' s', rp_deleteAllSubrequests (handle r, s) = (Ok tt, (handle r', s')) ∧
    (is_complete (rp_flags r) = true → r' = r ∧ s' = s) ∧
    (is_complete (rp_flags r) = false →
       subrequests r' = sub_mark_deleted <$> subrequests r ∧ destination_infos r' = [] ∧
       progress r' = progress r ∧ rp_status r' = rp_status r ∧
       (∀ n, be_view s' !! n = if decide (n ∈ sub_address <$> subrequests r) then None else be_view s !! n)).
Proof.
  intros Hwf. unfold rp_deleteAllSubrequests.
  mstep (eq_refl : rp_writable (handle r, s) = (Ok tt, (handle r, s))).
  mstep (eq_refl : rp_payload (handle r, s) = (Ok r, (handle r, s))).
  destruct (is_complete (rp_flags r)); [by exists r, s|].
  destruct (delete_rounds_spec (length (subrequests r)) 0 (rp_set_destination_infos [] r) s Hwf) as (s' & E & _ & Hv); [done|].
  eexists _, s'. split; [erewrite bind_ok; [exact E|done]|]. done.
Qed.
End Subrequests.
