(* ===== verification/RepackRequestExamples.v ===== *)
(** * A repack of one file in the file system backend

    A request with one sub-request, its archive request and its agent stored with
    [VFS], on which the theorems on repack requests are instantiated. *)
From S2P Require Import Prelude DataTypes Backend ObjectOps Handles Checksum ArchiveFile ArchiveRequest ArchiveRequestSpec ArchiveRequestExamples RetrieveRequest Agent AgentWrapper RepackRequest RepackRequestSpec RepackSubrequests.
Import Blob.
#[local] Existing Instance demo_codec.

(** The messages of the example. *)
Definition rp_msg : Type := RepackRequest + (ArchiveRequest + Agent).
#[export] Program Instance OneOf_rp_repack : OneOf rp_msg RepackRequest := {|
  inj_msg := inl; proj_msg m := match m with inl x => Some x | inr _ => None end |}.
Next Obligation. done. Qed.
#[export] Program Instance OneOf_rp_archive : OneOf rp_msg ArchiveRequest := {|
  inj_msg x := inr (inl x); proj_msg m := match m with inr y => match y with inl x => Some x | inr _ => None end | inl _ => None end |}.
Next Obligation. done. Qed.
#[export] Program Instance OneOf_rp_agent : OneOf rp_msg Agent := {|
  inj_msg x := inr (inr x); proj_msg m := match m with inr y => match y with inr x => Some x | inl _ => None end | inl _ => None end |}.
Next Obligation. done. Qed.

Definition rp_dummy : blob rp_msg := BHdr GenericObject_t 0 "" "" (BMsg (inl default_message)).

(** File 5 of the tape is to be retrieved and archived once; the expansion is over. *)
Definition rp_ex : RepackRequest :=
  mkRepackRequest "V01" "buffer" RS_Starting (mkTotals 1 100 1 100 0 0) (mkProgress 0 0 0 0 0 0 0 0 0)
    (mkRepackFlags false true true true false false false) 5 empty_policy
    [mkSubRequestPb "sub" 5 false [] false] [] (serializers.mkEntryLog "" "" 0) 0.
Definition rp_ex_header : ObjectHeader (blob rp_msg) := mkHeader RepackRequest_t 0 "agent" "" (BMsg (inl rp_ex)).
Definition rp_ex_store : VFS.vfs (blob rp_msg) :=
  VFS.mkVfs (<["sub" := BHdr ArchiveRequest_t 0 "agent" "" (BMsg (inr (inl (ex_request true))))]>
             {["agent" := BHdr Agent_t 0 "" "" (BMsg (inr (inr (mkAgentObject "" 0 0 ["repack"] false None))))]})
    {["sub"; "agent"]}.
Definition rp_ex_handle : ObjectOps (blob rp_msg) RepackRequest := opened Exclusive "repack" rp_ex_header rp_ex.

Definition rp_ex_stats : SubrequestStatistics := mkSubStats 5 1 100 1 true false "V02".
(** Every report comes twice. *)
Definition rp_ex_calls : list (Z * report_kind * list SubrequestStatistics) :=
  [(10, RetrieveOK, [rp_ex_stats; rp_ex_stats]); (11, ArchiveOK, [rp_ex_stats]); (12, ArchiveOK, [rp_ex_stats]);
   (13, ArchiveKO, [rp_ex_stats])].

(** The counters are those of one file, the repack is complete and released. *)
Example rp_ex_run :
  let '(res, (o, s)) := report_calls rp_dummy rp_ex_calls (rp_ex_handle, rp_ex_store) in
  res = Ok tt ∧ progress (m_payload o) = mkProgress 1 100 1 100 0 0 0 0 0 ∧
  rp_status (m_payload o) = RS_Complete ∧ repack_finished_time (m_payload o) = 11 ∧
  destination_infos (m_payload o) = [mkDestinationInfo "V02" 1 1000] ∧
  (snd <$> stored (P := Agent) s "agent") = Some (mkAgentObject "" 0 0 [] false None).
Proof. by vm_compute. Qed.

(** A report for an unknown file throws, after the counters of the reports before it
    in the batch were changed in memory. *)
Example rp_ex_unknown :
  let '(res, (o, s)) := rp_reportRetriveFailures rp_dummy 10 [rp_ex_stats; mkSubStats 6 1 100 1 true false "V02"]
    (rp_ex_handle, rp_ex_store) in
  is_ok res = false ∧ failedtoretrievefiles (progress (m_payload o)) = 1 ∧
  retrieve_accounted <$> subrequests (m_payload o) = [false].
Proof. by vm_compute. Qed.

(** Archive requests that could not be created count as processed, not as failures. *)
Example rp_ex_not_created_complete :
  let '(res, (o, s)) := (_ ← rp_reportArchiveCreationFailures 1;
                         rp_reportRetriveSuccesses rp_dummy 10 [rp_ex_stats]) (rp_ex_handle, rp_ex_store) in
  res = Ok tt ∧ failedtocreatearchivereq (progress (m_payload o)) = 1 ∧ archivedfiles (progress (m_payload o)) = 0 ∧
  rp_status (m_payload o) = RS_Complete.
Proof. by vm_compute. Qed.

Lemma rp_ex_wf : be_wf rp_ex_store.
Proof. done. Qed.
Lemma rp_ex_map : read_map (subrequests rp_ex) = {[5 := mkSubPointer "sub" 5 false ∅ false]}.
Proof. done. Qed.

Lemma rp_ex_ready : ready "repack" rp_ex_header rp_ex rp_ex_store.
Proof.
  split; [done| | |done|done].
  - by eexists _, _.
  - by apply map_Forall_singleton.
Qed.

Lemma rp_ex_reportable : Forall (reportable rp_ex_store (read_map (subrequests rp_ex))) (events_of rp_ex_calls).
Proof.
  assert (H : ∀ kd, reportable rp_ex_store (read_map (subrequests rp_ex)) (kd, rp_ex_stats)).
  { intros kd. rewrite rp_ex_map. split; [by exists (mkSubPointer "sub" 5 false ∅ false)|].
    intros _ p Hp. apply lookup_singleton_Some in Hp as [_ <-]. split; [done|]. by eexists _, _, _. }
  change (events_of rp_ex_calls) with [(RetrieveOK, rp_ex_stats); (RetrieveOK, rp_ex_stats); (ArchiveOK, rp_ex_stats);
    (ArchiveOK, rp_ex_stats); (ArchiveKO, rp_ex_stats)].
  do 5 (apply Forall_cons_2; [apply H|]). by apply Forall_nil_2.
Qed.

Lemma repack_reports_counted_once_witness :
  ∃ r' s', report_calls rp_dummy rp_ex_calls (rp_ex_handle, rp_ex_store) =
      (Ok tt, (opened Exclusive "repack" rp_ex_header r', s')) ∧
    u64 (retrievedfiles (progress r')) = 1 ∧ rp_flags r' = rp_flags rp_ex.
Proof.
  destruct (repack_reports_counted_once rp_dummy "repack" rp_ex_header rp_ex_calls rp_ex rp_ex_store rp_ex_ready rp_ex_reportable)
    as (r' & s' & E & _ & Hc & _ & _ & Hf & _).
  exists r', s'. split; [exact E|]. split; [exact (Hc RetrieveOK)|exact Hf].
Defined.

(** The object of the second sub-request is already gone. *)
Definition rp_ex_two : RepackRequest :=
  rp_set_subrequests [mkSubRequestPb "gone" 4 false [] false; mkSubRequestPb "sub" 5 false [] false] rp_ex.

Lemma all_subrequests_deleted_witness :
  ∃ r' s', rp_deleteAllSubrequests (opened Exclusive "repack" rp_ex_header rp_ex_two, rp_ex_store) =
      (Ok tt, (opened Exclusive "repack" rp_ex_header r', s')) ∧
    subrequest_deleted <$> subrequests r' = [true; true] ∧ be_view s' !! "sub" = None.
Proof.
  destruct (all_subrequests_deleted "repack" rp_ex_header rp_ex_two rp_ex_store rp_ex_wf) as (r' & s' & E & _ & H).
  destruct (H eq_refl) as (Hs & _ & _ & _ & Hv).
  exists r', s'. split; [exact E|]. split; [by rewrite Hs|exact (Hv "sub")].
Defined.

(** Two files are prepared by one agent, then again by another. *)
Example rp_ex_prepare :
  let '(res, (o, s)) := (x ← rp_getOrPrepareSubrequestInfo {[5; 6]} (mkAgent "A" 0);
                         y ← rp_getOrPrepareSubrequestInfo {[6; 5]} (mkAgent "B" 7); mret (x, y)) (rp_ex_handle, rp_ex_store) in
  res = Ok (([mkSubInfo "sub" 5 false; mkSubInfo "RepackSubRequest-A-0" 6 false], mkAgent "A" 1),
            ([mkSubInfo "sub" 5 false; mkSubInfo "RepackSubRequest-A-0" 6 false], mkAgent "B" 7)).
Proof. by vm_compute. Qed.
