(* ===== verification/Helpers.v ===== *)
(** * Operations on several objects

    Model of [objectstore/Helpers.cpp]: finding or creating a queue through the
    root entry and locking it, with the retries and the clean-up of references to
    queues that are gone; registration of repack requests in the repack index. *)
From S2P Require Import Prelude DataTypes ValueCountMap Backend ObjectOps Handles ProtoAlgorithms ArchiveQueueShard ArchiveQueue RetrieveActivity RetrieveQueueShard RetrievePlan RetrieveQueue Agent Registers RootEntry AgentLife.

(** The state of [getLockedAndFetched...]: the handle and the lock of the caller,
    the backend and the agent that names new objects. *)
Record QState (B P St : Type) := mkQState {
  q_obj : ObjectOps B P;
  q_lock : ScopedLock;
  q_be : St;
  q_agent : AgentReference
}.
Arguments mkQState {B P St} _ _ _ _.
Arguments q_obj {B P St} _.
Arguments q_lock {B P St} _.
Arguments q_be {B P St} _.
Arguments q_agent {B P St} _.

Section Helpers.
Context {B St : Type} `{!Serializable B (ObjectHeader B), !Backend B St}.
Context `{!Serializable B RootEntry, !Serializable B ArchiveQueue, !Serializable B RetrieveQueue, !Serializable B Agent}.
Context `{!Serializable B RepackIndex, !Serializable B RepackQueue}.
(** The header bytes of a handle before anything is read; never looked at. *)
Context (dummy : B).

(** ** Finding or creating a queue *)
Section Locate.
Context {P : Type} `{!Serializable B P, !Message P}.
Abbreviation QM := (M (QState B P St)).

(** An operation on the backend, on the queue and on a handle of the root entry. *)
Definition q_store {A} (m : M St A) : QM A := λ s,
  let '(r, be') := m (q_be s) in (r, mkQState (q_obj s) (q_lock s) be' (q_agent s)).
Definition q_self {A} (m : M (HState B P St) A) : QM A := λ s,
  let '(r, (o', be')) := m (q_obj s, q_be s) in (r, mkQState o' (q_lock s) be' (q_agent s)).
Definition q_root {A} (root : ObjectOps B RootEntry) (m : M (REState B St) A) : QM A := λ s,
  let '(r, s') := m (mkREState root (q_be s) (q_agent s)) in
  (r, mkQState (q_obj s) (q_lock s) (re_be s') (re_agent s')).
Definition q_change (f : ObjectOps B P → result (ObjectOps B P)) : QM unit := λ s,
  match f (q_obj s) with
  | Ok o' => (Ok tt, mkQState o' (q_lock s) (q_be s) (q_agent s))
  | Throw e => (Throw e, s)
  end.

(** [queueLock.lock(queue)] and [if (queueLock.isLocked()) queueLock.release();] *)
Definition q_take_lock : QM unit :=
  l ← gets q_lock;
  l' ← q_self (lock l);
  modify (λ s, mkQState (q_obj s) l' (q_be s) (q_agent s)).
Definition q_release_if_locked : QM unit := λ s,
  if m_locked (q_lock s)
  then match release (q_lock s) (q_obj s) with
       | Ok (l', o') => (Ok tt, mkQState o' l' (q_be s) (q_agent s))
       | Throw e => (Throw e, s)
       end
  else (Ok tt, s).

(** The operations of the root entry for one queue: look-up of its address,
    creation, and removal of the reference. *)
Context (find_address add_queue : M (REState B St) string) (remove_queue : M (REState B St) unit).

(** The look-up in a root entry read without a lock; when it fails the root entry
    is locked, read again, and the queue is created if it is still missing. *)
Definition locate_queue : QM unit :=
  root ← q_store (o ← lift (object_at dummy root_address); exec_on o fetchNoLock);
  catch (a ← q_root root find_address; q_change (setAddress a))
    (λ _, Some (
      root' ← q_store (exec_on root (_ ← lock (mkLock Exclusive false); fetch));
      a ← q_root root' add_queue;
      q_change (setAddress a))).

(** The reference to a queue that is gone is removed; a failure of the removal is
    ignored. *)
Definition dereference_gone_queue : QM unit :=
  root ← q_store (open_locked dummy Exclusive root_address);
  catch (q_root root remove_queue) (λ _, Some (mret tt)).

(** The handler of a failed lock or fetch in attempt [i]. *)
Definition recover (i : nat) (e : exn) : QM bool :=
  _ ← (match e with
       | NoSuchObject => if decide (i ≠ 0)%nat then dereference_gone_queue else mret tt
       | _ => mret tt
       end);
  _ ← q_release_if_locked;
  _ ← q_change resetAddress;
  mret false.
Definition lock_attempt (i : nat) : QM bool :=
  _ ← locate_queue;
  catch (_ ← q_take_lock; _ ← q_self fetch; mret true) (λ e, Some (recover i e)).

(** [n] attempts, from attempt [i] on. *)
Fixpoint lock_attempts (failed : string) (n i : nat) : QM unit :=
  match n with
  | O =>
      _ ← q_release_if_locked;
      _ ← q_change resetAddress;
      throw (Exception failed)
  | S n' => got ← lock_attempt i; if (got : bool) then mret tt else lock_attempts failed n' (S i)
  end.
End Locate.

Definition max_attempts : nat := 5.

(** [getLockedAndFetchedJobQueue<ArchiveQueue>]. *)
Definition find_archive_queue (tapePool : string) (qt : JobQueueType) : M (QState B ArchiveQueue St) unit :=
  lock_attempts (getArchiveQueueAddress tapePool qt) (addOrGetArchiveQueueAndCommit dummy tapePool qt)
    (removeArchiveQueueAndCommit dummy tapePool qt)
    ("failed to find or create and lock archive queue after 5 retries for tapepool: " +:+ tapePool) max_attempts 0.
Definition getLockedAndFetchedArchiveQueue (tapePool : string) (qt : JobQueueType) : M (AQState B St) unit := λ s,
  let '(r, s') := find_archive_queue tapePool qt (mkQState (aq s) (aq_lock s) (aq_be s) (aq_agent s)) in
  (r, mkAQState (q_obj s') (q_lock s') (q_be s') (q_agent s')).

(** [getLockedAndFetchedJobQueue<RetrieveQueue>]: the fetch of a retrieve queue also
    reads its shard size. *)
Definition find_retrieve_queue (vid : string) (qt : JobQueueType) : M (QState B RetrieveQueue St) unit :=
  lock_attempts (getRetrieveQueueAddress vid qt) (addOrGetRetrieveQueueAndCommit dummy vid qt)
    (removeRetrieveQueueAndCommit dummy vid qt)
    ("failed to find or create and lock archive queue after 5 retries for vid: " +:+ vid) max_attempts 0.
Definition getLockedAndFetchedRetrieveQueue (vid : string) (qt : JobQueueType) : M (RQState B St) unit := λ s,
  let '(r, s') := find_retrieve_queue vid qt (mkQState (rq s) (rq_lock s) (rq_be s) (rq_agent s)) in
  (r, mkRQState (q_obj s') (match r with Ok _ => maxshardsize (m_payload (q_obj s')) | Throw _ => m_maxShardSize s end)
        (q_lock s') (q_be s') (q_agent s')).

Definition getLockedAndFetchedRepackQueue (qt : RepackQueueType) : M (QState B RepackQueue St) unit :=
  lock_attempts (getRepackQueueAddress qt) (addOrGetRepackQueueAndCommit dummy qt) (removeRepackQueueAndCommit dummy qt)
    "failed to find or create and lock repack queue after 5 retries" max_attempts 0.

(** ** The repack index *)

(** The root entry read without a lock. *)
Definition root_noLock : M St (ObjectOps B RootEntry) :=
  o ← lift (object_at dummy root_address); exec_on o fetchNoLock.

(** An operation of the root entry for an agent. *)
Definition for_agent_on_root {A} (root : ObjectOps B RootEntry) (m : M (REState B St) A) : M (St * AgentReference) A := λ s,
  let '(r, s') := m (mkREState root (fst s) (snd s)) in (r, (re_be s', re_agent s')).
Definition store_only {A} (m : M St A) : M (St * AgentReference) A := λ s,
  let '(r, be') := m (fst s) in (r, (be', snd s)).

Definition update_index (address : string) (f : ObjectOps B RepackIndex → result (ObjectOps B RepackIndex)) : M St unit :=
  ri ← open_locked dummy Exclusive address;
  ri' ← lift (f ri);
  _ ← exec_on ri' commit; mret tt.

Definition registerRepackRequestToIndex (vid requestAddress : string) : M (St * AgentReference) unit :=
  root ← store_only root_noLock;
  repackIndexAddress ← catch (for_agent_on_root root getRepackIndexAddress)
    (λ _, Some (
      root' ← store_only (exec_on root (_ ← lock (mkLock Exclusive false); fetch));
      for_agent_on_root root' (addOrGetRepackIndexAndCommit dummy)));
  store_only (update_index repackIndexAddress (addRepackRequestAddress vid requestAddress)).

Definition removeRepackRequestToIndex (vid : string) : M St unit :=
  root ← root_noLock;
  repackIndexAddress ← catch (a ← on_root root getRepackIndexAddress; mret (Some a)) (λ _, Some (mret None));
  match repackIndexAddress with
  | None => mret tt
  | Some a => update_index a (removeRepackRequest vid)
  end.
End Helpers.
