(* ===== verification/HelpersSpec.v ===== *)
(** * Finding and locking a queue

    The loop of [getLockedAndFetched...] against what the root entry promises: an
    existing queue is found, a missing one is created, and a reference to a queue
    that is gone is replaced. *)
From S2P Require Import Prelude DataTypes ValueCountMap Backend ObjectOps Handles ProtoAlgorithms ArchiveQueueShard ArchiveQueue RetrieveActivity RetrieveQueueShard RetrievePlan RetrieveQueue Agent Registers RootEntry AgentLife RootEntrySpec RootEntryTheorems Helpers.

Section HelpersSpec.
Context {B St : Type} `{!Serializable B (ObjectHeader B), !Backend B St}.
Context `{!Serializable B RootEntry, !Serializable B ArchiveQueue, !Serializable B RetrieveQueue, !Serializable B Agent}.
Context `{!Serializable B DriveRegister, !Serializable B AgentRegister, !Serializable B SchedulerGlobalLock}.
Context `{!Serializable B RepackIndex, !Serializable B RepackQueue}.
Context (dummy : B).
Implicit Types (be : St) (ag : AgentReference) (r : RootEntry).

(** ** What the root entry promises for one queue *)
Class QueueDirectory (P : Type) `{!Serializable B P, !Message P} (find add : M (REState B St) string) (drop : M (REState B St) unit)
    (lookup : RootEntry → option string) (fresh : AgentReference → string)
    (added : string → RootEntry → RootEntry) (dropped : RootEntry → RootEntry) (new : P) : Prop := {
  (** The look-up only needs a root entry that can be read. *)
  qd_find (s : REState B St) r :
    re_readable s = (Ok tt, s) → re_payload s = (Ok r, s) →
    ∃ res, find s = (res, s) ∧ match lookup r with Some a => res = Ok a | None => ∃ e, res = Throw e end;
  qd_add (s : REState B St) r :
    root_state s r → lookup r = None → be_view (re_be s) !! fresh (re_agent s) = None →
    ∃ s' h, add s = (Ok (fresh (re_agent s)), s') ∧ root_state s' (added (fresh (re_agent s)) r) ∧
      untouched [root_address; fresh (re_agent s)] s s' ∧
      stored (re_be s') (fresh (re_agent s)) = Some (h, new) ∧ h_owner h = root_address ∧
      m_agentAddress (re_agent s') = m_agentAddress (re_agent s);
  qd_drop (s : REState B St) r a :
    root_state s r → lookup r = Some a → a ≠ "" → a ≠ root_address → be_view (re_be s) !! a = None →
    ∃ s', drop s = (Ok tt, s') ∧ root_state s' (dropped r) ∧ untouched [root_address] s s' ∧ re_agent s' = re_agent s;
  qd_fresh ag : fresh ag ≠ "" ∧ fresh ag ≠ root_address;
  qd_dropped r : lookup (dropped r) = None
}.

(** The root entry of a store. *)
Definition root_in be r : Prop := be_wf be ∧ ∃ h, stored be root_address = Some (h, r).

Section Locate.
Context {P : Type} `{!Serializable B P, !Message P}.
Context {find add : M (REState B St) string} {drop : M (REState B St) unit}.
Context {lookup : RootEntry → option string} {fresh : AgentReference → string}.
Context {added : string → RootEntry → RootEntry} {dropped : RootEntry → RootEntry} {new : P}.
Context (D : QueueDirectory P find add drop lookup fresh added dropped new).

(** The handle and the lock as the caller provides them, the handle with an address,
    and the locked and fetched queue. *)
Definition start (o : ObjectOps B P) be ag : QState B P St := mkQState o (mkLock Exclusive false) be ag.
Definition named_at (a : string) (o : ObjectOps B P) : ObjectOps B P := mkOps true a (m_header o) (m_payload o) (m_flags o).
Abbreviation addressed a o be ag := (start (named_at a o) be ag).
Definition holding (a : string) (h : ObjectHeader B) (q : P) be ag : QState B P St :=
  mkQState (opened Exclusive a h q) (mkLock Exclusive true) be ag.

(** ** Handles of the root entry *)
Definition read_root (h : ObjectHeader B) r : ObjectOps B RootEntry :=
  mkOps true root_address h r (mkFlags true true true 0 0 true false false).

Lemma read_root_ok be h r :
  be_wf be → stored be root_address = Some (h, r) →
  (o ← lift (object_at dummy root_address); exec_on o fetchNoLock) be = (Ok (read_root h r), be).
Proof.
  intros Hwf Hst. rewrite object_at_ok, bind_lift by done. unfold exec_on, run_on, mbind, M_bind.
  set (o := mkOps _ _ _ _ _). by rewrite (fetchNoLock_spec be h r o).
Qed.

Lemma relock_root_ok be h r :
  be_wf be → stored be root_address = Some (h, r) →
  exec_on (read_root h r) (_ ← lock (mkLock Exclusive false); fetch) be = (Ok (root_handle true h r), be).
Proof.
  intros Hwf Hst. pose proof (stored_exists _ _ _ Hst) as Hex. unfold exec_on, run_on, lock, checkObjectAndAddressSet.
  unfold mbind at 1, M_bind at 1. unfold mbind, M_bind, lift, self, set_self, on_store, gets, modify. simpl.
  rewrite be_lock_ok by done. simpl. by erewrite fetch_spec.
Qed.

Lemma relocked_state be ag h r :
  be_wf be → stored be root_address = Some (h, r) → root_state (mkREState (root_handle true h r) be ag) r.
Proof.
  intros Hwf Hst. split; [done| |by exists h]. exists true, h. split; [done|]. exact (stored_type _ _ _ _ Hst).
Qed.
Lemma opened_state be ag h r :
  be_wf be → stored be root_address = Some (h, r) → root_state (mkREState (opened Exclusive root_address h r) be ag) r.
Proof.
  intros Hwf Hst. split; [done| |by exists h]. exists false, h. split; [done|]. exact (stored_type _ _ _ _ Hst).
Qed.

(** ** One attempt *)
Lemma locate_found o be ag r a :
  root_in be r → lookup r = Some a → a ≠ "" → m_nameSet o = false →
  locate_queue dummy find add (start o be ag) = (Ok tt, addressed a o be ag).
Proof.
  intros [Hwf (h & Hst)] Hl Ha Ho. unfold locate_queue.
  rewrite (bind_ok _ _ _ (read_root h r) (start o be ag)); last first.
  { unfold q_store. cbn [q_be start]. by rewrite read_root_ok with (r:=r) (h:=h). }
  apply catch_ok.
  destruct (qd_find (QueueDirectory:=D) (mkREState (read_root h r) be ag) r) as (res & E & Hres); [done|done|].
  rewrite Hl in Hres. subst res.
  erewrite bind_ok; [|unfold q_root; cbn [start q_be q_agent]; by rewrite E].
  unfold q_change, setAddress. cbn. by rewrite Ho, decide_False.
Qed.

Lemma locate_created o be ag r :
  root_in be r → lookup r = None → be_view be !! fresh ag = None → m_nameSet o = false →
  ∃ be' ag' h, locate_queue dummy find add (start o be ag) = (Ok tt, addressed (fresh ag) o be' ag') ∧
    root_in be' (added (fresh ag) r) ∧ stored be' (fresh ag) = Some (h, new) ∧ h_owner h = root_address ∧
    m_agentAddress ag' = m_agentAddress ag ∧
    (∀ n, n ≠ root_address → n ≠ fresh ag → be_view be' !! n = be_view be !! n).
Proof.
  intros [Hwf (h & Hst)] Hl Hn Hset. unfold locate_queue.
  destruct (qd_find (QueueDirectory:=D) (mkREState (read_root h r) be ag) r) as (res & E & Hres); [done|done|].
  rewrite Hl in Hres. destruct Hres as [e ->].
  destruct (qd_add (QueueDirectory:=D) _ _ (relocked_state be ag h r Hwf Hst) Hl Hn) as (s' & hq & Ea & Hs' & Hu & Hq & Ho & Hag).
  exists (re_be s'), (re_agent s'), hq. split_and!; [|split; [apply Hs'|apply Hs']|done|done|done|].
  - rewrite (bind_ok _ _ _ (read_root h r) (start o be ag)); last first.
    { unfold q_store. cbn [q_be start]. by rewrite read_root_ok with (r:=r) (h:=h). }
    erewrite catch_throw; [| |reflexivity]; last first.
    { apply bind_throw. unfold q_root. cbn [start q_be q_agent]. by rewrite E. }
    rewrite (bind_ok _ _ _ (root_handle true h r) (start o be ag)); last first.
    { unfold q_store. cbn [q_be]. by rewrite relock_root_ok. }
    erewrite bind_ok; [|unfold q_root; cbn [start q_be q_agent]; rewrite Ea; done].
    unfold q_change, setAddress. cbn. rewrite Hset, decide_False; [done|]. apply (qd_fresh (QueueDirectory:=D)).
  - intros n H1 H2. apply Hu. rewrite !not_elem_of_cons. split_and!; [done|done|apply not_elem_of_nil].
Qed.

(** *** Locking and fetching *)
Abbreviation take := (_ ← q_take_lock; _ ← q_self fetch; mret true).

Lemma take_lock_ok a o be ag :
  be_wf be → a ≠ "" → is_Some (be_view be !! a) →
  q_take_lock (addressed a o be ag) =
    (Ok tt, mkQState (with_flags (with_exclusiveLock true (m_flags (setObjectLocked (mkLock Exclusive false) (named_at a o))))
                        (setObjectLocked (mkLock Exclusive false) (named_at a o))) (mkLock Exclusive true) be ag).
Proof.
  intros Hwf Ha Hex. unfold q_take_lock, q_self, lock, checkObjectAndAddressSet.
  unfold mbind, M_bind, lift, self, set_self, on_store, gets, modify. simpl. rewrite bool_decide_false by done. simpl.
  by rewrite be_lock_ok.
Qed.

Lemma take_ok a be ag h q :
  be_wf be → a ≠ "" → stored be a = Some (h, q) →
  take (addressed a (new_object dummy) be ag) = (Ok true, holding a h q be ag).
Proof.
  intros Hwf Ha Hst. mstep (take_lock_ok a (new_object dummy) be ag Hwf Ha (stored_exists _ _ _ Hst)).
  unfold q_self at 1, mbind at 1, M_bind at 1. cbn [q_obj q_be]. by erewrite fetch_spec.
Qed.

Lemma take_gone a o be ag :
  be_wf be → a ≠ "" → be_view be !! a = None → take (addressed a o be ag) = (Throw NoSuchObject, addressed a o be ag).
Proof.
  intros Hwf Ha Hn. apply bind_throw. unfold q_take_lock, q_self, lock, checkObjectAndAddressSet.
  unfold mbind, M_bind, lift, self, set_self, on_store, gets, modify. simpl. rewrite bool_decide_false by done. simpl.
  by rewrite be_lock_absent.
Qed.

(** *** Recovery *)
Lemma dereference_gone_ok a o be ag r :
  root_in be r → lookup r = Some a → a ≠ "" → a ≠ root_address → be_view be !! a = None →
  ∃ be', dereference_gone_queue dummy drop (start o be ag) = (Ok tt, start o be' ag) ∧ root_in be' (dropped r) ∧
    (∀ n, n ≠ root_address → be_view be' !! n = be_view be !! n).
Proof.
  intros [Hwf (h & Hst)] Hl Ha Hr Hn.
  destruct (qd_drop (QueueDirectory:=D) _ _ a (opened_state be ag h r Hwf Hst) Hl Ha Hr Hn) as (s' & E & Hs' & Hu & Hag).
  exists (re_be s'). split_and!; [|split; [apply Hs'|apply Hs']|].
  - unfold dereference_gone_queue. rewrite (bind_ok _ _ _ (opened Exclusive root_address h r) (start o be ag)); last first.
    { unfold q_store. cbn [q_be start]. by rewrite (open_locked_ok dummy Exclusive root_address h r be). }
    apply catch_ok. unfold q_root. cbn [start q_be q_agent]. rewrite E. cbn [re_agent] in Hag. by rewrite Hag.
  - intros n Hne. apply Hu. rewrite not_elem_of_cons. split; [done|apply not_elem_of_nil].
Qed.

Lemma reset_addressed a be ag :
  (_ ← q_release_if_locked; _ ← q_change resetAddress; mret false) (addressed a (new_object dummy) be ag) =
    (Ok false, start (new_object dummy) be ag).
Proof. done. Qed.

(** ** The attempts *)
Abbreviation attempt := (lock_attempt dummy find add drop).

Lemma attempt_found be ag r a h q i :
  root_in be r → lookup r = Some a → a ≠ "" → stored be a = Some (h, q) →
  attempt i (start (new_object dummy) be ag) = (Ok true, holding a h q be ag).
Proof.
  intros Hr Hl Ha Hst. unfold lock_attempt. mstep (locate_found (new_object dummy) be ag r a Hr Hl Ha eq_refl).
  apply catch_ok. apply take_ok; [apply Hr|done|done].
Qed.

Lemma attempt_created be ag r i :
  root_in be r → lookup r = None → be_view be !! fresh ag = None →
  ∃ be' ag' h, attempt i (start (new_object dummy) be ag) = (Ok true, holding (fresh ag) h new be' ag') ∧
    root_in be' (added (fresh ag) r) ∧ stored be' (fresh ag) = Some (h, new) ∧ h_owner h = root_address ∧
    m_agentAddress ag' = m_agentAddress ag ∧
    (∀ n, n ≠ root_address → n ≠ fresh ag → be_view be' !! n = be_view be !! n).
Proof.
  intros Hr Hl Hn. destruct (locate_created (new_object dummy) be ag r Hr Hl Hn eq_refl) as (be' & ag' & h & E & Hr' & Hst & H).
  exists be', ag', h. split; [|done]. unfold lock_attempt. mstep E. apply catch_ok. apply take_ok; [apply Hr'| |done].
  apply (qd_fresh (QueueDirectory:=D)).
Qed.

(** A queue that is gone: the first attempt leaves the reference, the next drops it. *)
Lemma attempt_gone be ag r a i :
  root_in be r → lookup r = Some a → a ≠ "" → a ≠ root_address → be_view be !! a = None →
  ∃ be', attempt i (start (new_object dummy) be ag) = (Ok false, start (new_object dummy) be' ag) ∧
    root_in be' (if decide (i = 0)%nat then r else dropped r) ∧
    (∀ n, n ≠ root_address → be_view be' !! n = be_view be !! n).
Proof.
  intros Hr Hl Ha Hnr Hn. unfold lock_attempt. mstep (locate_found (new_object dummy) be ag r a Hr Hl Ha eq_refl).
  pose proof (take_gone a (new_object dummy) be ag (proj1 Hr) Ha Hn) as Et.
  destruct (decide (i = 0)%nat) as [->|Hi].
  - exists be. split; [|done]. by erewrite catch_throw; [|exact Et|reflexivity].
  - destruct (dereference_gone_ok a (named_at a (new_object dummy)) be ag r Hr Hl Ha Hnr Hn) as (be' & E & H).
    exists be'. split; [|done]. erewrite catch_throw; [|exact Et|reflexivity]. unfold recover.
    rewrite decide_True by done. by mstep E.
Qed.

(** *** An object that is not a queue *)
Definition idle (o : ObjectOps B P) : Prop :=
  m_nameSet o = false ∧ m_locksCount (m_flags o) = 0 ∧ m_locksForWriteCount (m_flags o) = 0.

Lemma fetch_unreadable o be c :
  be_wf be → m_nameSet o = true → be_view be !! m_name o = Some c → stored (P:=P) be (m_name o) = None →
  m_locksCount (m_flags o) ≠ 0 →
  ∃ e o', fetch (o, be) = (Throw e, (o', be)) ∧ e ≠ NoSuchObject ∧
    m_locksCount (m_flags o') = m_locksCount (m_flags o) ∧ m_locksForWriteCount (m_flags o') = m_locksForWriteCount (m_flags o).
Proof.
  intros Hwf Hset Hv Hst Hl. unfold stored in Hst. rewrite Hv in Hst.
  unfold fetch, fetchBottomHalf, getHeaderFromObjectStore, getHeaderFromObjectData, getPayloadFromHeader, getAddressIfSet.
  unfold mbind, M_bind, lift, self, set_self, on_store, gets, modify. simpl.
  rewrite (proj2 (Z.eqb_neq _ _)) by done. simpl. rewrite Hset. simpl. rewrite be_read_spec, Hv by done. simpl.
  destruct (ParseFromString c) as [hd|]; simpl; [|by eexists _, _].
  destruct (decide (h_type hd = payloadTypeId)) as [Ht|]; simpl; [|by eexists _, _].
  destruct (ParseFromString (h_payload hd)) as [p|] eqn:Hp; simpl; [done|]. by eexists _, _.
Qed.

Lemma attempt_unreadable o be ag r a c i :
  idle o → root_in be r → lookup r = Some a → a ≠ "" → be_view be !! a = Some c → stored (P:=P) be a = None →
  ∃ o', idle o' ∧ attempt i (start o be ag) = (Ok false, start o' be ag).
Proof.
  intros (Hset & Hl & Hw) Hr Hlk Ha Hv Hst. unfold lock_attempt. mstep (locate_found o be ag r a Hr Hlk Ha Hset).
  pose proof (take_lock_ok a o be ag (proj1 Hr) Ha (ex_intro _ c Hv)) as Et.
  set (o1 := with_flags _ _) in Et.
  destruct (fetch_unreadable o1 be c (proj1 Hr) eq_refl Hv Hst) as (e & o2 & Ef & He & Hl2 & Hw2).
  { simpl. lia. }
  simpl in Hl2, Hw2.
  set (o3 := mkOps false "" (m_header o2) (m_payload o2)
     (with_existing false (with_interpreted false false
        (with_interpreted (m_headerInterpreted (m_flags o2)) false (with_locks (m_locksCount (m_flags o2) - 1) (m_locksForWriteCount (m_flags o2) - 1) (m_flags o2)))))).
  exists o3. split; [unfold idle, o3; simpl; split; [done|lia]|].
  erewrite catch_throw; [| |reflexivity]; last first.
  { mstep Et. apply bind_throw. unfold q_self. cbn [q_obj q_be]. rewrite Ef. reflexivity. }
  assert (recover dummy drop i e (mkQState o2 (mkLock Exclusive true) be ag) = (Ok false, start o3 be ag)) as Hrec.
  { unfold recover. rewrite (bind_ok _ _ _ tt (mkQState o2 (mkLock Exclusive true) be ag)) by (by destruct e).
    unfold q_release_if_locked, q_change, resetAddress, release, releaseIfNeeded, mbind, M_bind. simpl.
    rewrite Hl2, Hw2, Hl, Hw. simpl. unfold start, o3. by rewrite Hl2, Hw2, Hl, Hw. }
  exact Hrec.
Qed.

Lemma attempts_unreadable failed n i o be ag r a c :
  idle o → root_in be r → lookup r = Some a → a ≠ "" → be_view be !! a = Some c → stored (P:=P) be a = None →
  ∃ o', lock_attempts dummy find add drop failed n i (start o be ag) = (Throw (Exception failed), start o' be ag).
Proof.
  intros Ho Hr Hlk Ha Hv Hst. revert i o Ho. induction n as [|n IH]; intros i o Ho; cbn [lock_attempts].
  - destruct Ho as (Hs & Hl & Hw). unfold q_release_if_locked, q_change, resetAddress, mbind, M_bind. simpl.
    rewrite Hl, Hw. by eexists.
  - destruct (attempt_unreadable o be ag r a c i Ho Hr Hlk Ha Hv Hst) as (o' & Ho' & E). mstep E. by apply IH.
Qed.

(** ** The promise of [getLockedAndFetched...] *)

(** A new queue, owned and referenced by the root entry, is locked. *)
Definition obtains_new (run : M (QState B P St) unit) be ag r : Prop :=
  ∃ be' ag' h, run (start (new_object dummy) be ag) = (Ok tt, holding (fresh ag) h new be' ag') ∧
    root_in be' (added (fresh ag) r) ∧ stored be' (fresh ag) = Some (h, new) ∧ h_owner h = root_address ∧
    m_agentAddress ag' = m_agentAddress ag ∧
    (∀ n, n ≠ root_address → n ≠ fresh ag → be_view be' !! n = be_view be !! n).

Definition obtains (run : M (QState B P St) unit) be ag r : Prop :=
  match lookup r with
  | None => be_view be !! fresh ag = None → obtains_new run be ag r
  | Some a =>
      a ≠ "" → a ≠ root_address →
      (∀ h q, stored be a = Some (h, q) → run (start (new_object dummy) be ag) = (Ok tt, holding a h q be ag)) ∧
      (be_view be !! a = None → be_view be !! fresh ag = None → obtains_new run be ag (dropped r)) ∧
      (is_Some (be_view be !! a) → stored (P:=P) be a = None →
         ∃ e o, run (start (new_object dummy) be ag) = (Throw e, mkQState o (mkLock Exclusive false) be ag))
  end.

Lemma lock_attempts_obtain failed be ag r :
  root_in be r → obtains (lock_attempts dummy find add drop failed max_attempts 0) be ag r.
Proof.
  intros Hr. unfold obtains. unfold max_attempts. cbn [lock_attempts]. destruct (lookup r) as [a|] eqn:Hl.
  - intros Ha Hnr. split_and!.
    + intros h q Hst. by mstep (attempt_found be ag r a h q 0 Hr Hl Ha Hst).
    + intros Hn Hf. destruct (attempt_gone be ag r a 0 Hr Hl Ha Hnr Hn) as (be1 & E1 & Hr1 & Hfr1). simpl in Hr1.
      assert (Hn1 : be_view be1 !! a = None) by (by rewrite Hfr1).
      destruct (attempt_gone be1 ag r a 1 Hr1 Hl Ha Hnr Hn1) as (be2 & E2 & Hr2 & Hfr2). simpl in Hr2.
      assert (Hf2 : be_view be2 !! fresh ag = None).
      { rewrite Hfr2, Hfr1; [done| |]; apply (qd_fresh (QueueDirectory:=D)). }
      destruct (attempt_created be2 ag (dropped r) 2 Hr2 (qd_dropped (QueueDirectory:=D) r) Hf2)
        as (be3 & ag3 & h & E3 & Hr3 & Hst & Ho & Hag3 & Hfr3).
      exists be3, ag3, h. split_and!; try done.
      * mstep E1. mstep E2. by mstep E3.
      * intros n H1 H2. by rewrite Hfr3, Hfr2, Hfr1.
    + intros [c Hc] Hst. destruct (attempts_unreadable failed 5 0 (new_object dummy) be ag r a c) as (o' & E); try done.
      exists (Exception failed), o'. exact E.
  - intros Hf. destruct (attempt_created be ag r 0 Hr Hl Hf) as (be' & ag' & h & E & H).
    exists be', ag', h. split; [by mstep E|done].
Qed.
End Locate.

(** ** The directories of the root entry *)
Lemma directory_removed name l : directory (removeOccurences (named name) l) !! name = None.
Proof.
  destruct (directory (removeOccurences (named name) l) !! name) as [a|] eqn:E; [|done].
  rewrite assoc_map_lookup in E. apply fmap_Some in E as (p & Hp & _).
  apply find_if_Some in Hp as [Hin Hp]. rewrite removeOccurences_perm in Hin. apply list_elem_of_filter in Hin as [Hno _].
  unfold named in Hno. congruence.
Qed.

#[export] Instance kind_directory {P} `{!Serializable B P, !Message P} (K : queue_kind (B:=B) (St:=St) P) new name_of is_empty name :
  kind_ok dummy K new name_of is_empty →
  QueueDirectory P (kind_get K name) (kind_addOrGet dummy K name) (kind_remove dummy K name)
    (λ r, directory (k_pointers K r) !! name) (λ ag, fst (nextId (k_header K +:+ "-" +:+ name) ag))
    (with_queue K name) (without_queue K name) (new name).
Proof.
  intros HK. split.
  - intros s r Hrd Hp. unfold kind_get. rewrite (bind_ok _ _ _ _ _ Hrd), (bind_ok _ _ _ _ _ Hp).
    destruct (find_in_directory name (k_pointers K r)) as [(p & -> & ->)|[-> ->]]; eexists; split; try done. by eexists.
  - intros s r Hs Hl Hn. destruct (kind_addOrGet_new dummy K new name_of is_empty HK s r name Hs Hl Hn) as (s' & h & E & Hs' & Hu & Hst & Ho & _ & Hag).
    by exists s', h.
  - intros s r a Hs Hl Ha Hr Hn.
    destruct (kind_remove_ok dummy K new name_of is_empty HK s r name a Hs Hl Ha Hr (or_introl Hn)) as (s' & E & Hs' & Hu & Hg & Hag).
    exists s'. split_and!; try done. intros n Hne. destruct (decide (n = a)) as [->|Hna]; [by rewrite Hg, Hn|].
    apply Hu. apply not_elem_of_cons. by split.
  - intros ag. split; [apply nextId_nonempty|apply (k_address _ _ _ _ _ HK)].
  - intros r. unfold without_queue. rewrite (k_pointers_update _ _ _ _ _ HK). apply directory_removed.
Qed.
(** *** Repack queues *)
Lemma repackqueuepointer_set qt p r : repackqueuepointer qt (set_repackqueuepointer qt p r) = p.
Proof. by destruct qt. Qed.

Lemma new_repack_queue address :
  address ≠ "" → new_child dummy rq_initialize address root_address root_address =
    Ok (prepared dummy address root_address root_address (mkRepackQueue [])).
Proof. intros Ha. unfold new_child. by rewrite object_at_ok. Qed.

#[export] Instance repack_directory qt :
  QueueDirectory RepackQueue (getRepackQueueAddress qt) (addOrGetRepackQueueAndCommit dummy qt) (removeRepackQueueAndCommit dummy qt)
    (repackqueuepointer qt) (λ ag, fst (nextId (repack_name_header qt) ag))
    (λ a, set_repackqueuepointer qt (Some a)) (set_repackqueuepointer qt None) (mkRepackQueue []).
Proof.
  split.
  - intros s r Hrd Hp. unfold getRepackQueueAddress. rewrite (bind_ok _ _ _ _ _ Hrd), (bind_ok _ _ _ _ _ Hp).
    destruct (repackqueuepointer qt r); eexists; split; try done. by eexists.
  - intros s r Hs Hl Hn. set (a := fst (nextId (repack_name_header qt) (re_agent s))) in *.
    assert (Ha : a ≠ "") by apply nextId_nonempty. assert (Hr : a ≠ root_address) by by destruct qt.
    unfold addOrGetRepackQueueAndCommit. rewrite (bind_ok _ _ _ _ _ (root_writable _ _ Hs)).
    assert (E : getRepackQueueAddress qt s = (Throw NoSuchRepackQueue, s)).
    { unfold getRepackQueueAddress. rewrite (bind_ok _ _ _ _ _ (root_readable _ _ Hs)), (bind_ok _ _ _ _ _ (root_payload _ _ Hs)). by rewrite Hl. }
    erewrite catch_throw; [|exact E|reflexivity].
    set (s1 := mkREState (re s) (re_be s) (snd (nextId (repack_name_header qt) (re_agent s)))).
    rewrite (bind_ok _ _ _ a s1) by done.
    destruct (root_update s1 r (set_repackqueuepointer qt (Some a))) as (s2 & E2 & Hs2 & Hag2 & Hu2);
      [apply Hs|apply Hs|by apply (root_exists s r)|].
    rewrite (bind_block _ _ _ _ _ E2), (bind_ok _ _ _ _ _ (root_own_address s2 _ Hs2)), new_repack_queue, bind_lift by done.
    destruct (insert_child dummy (λ _, mkRepackQueue []) a root_address root_address s2)
      as (s3 & E3 & Hwf3 & Hre3 & Hag3 & Hu3 & Hst3); [apply Hs2|rewrite Hu2; [done|by apply singleton_ne]|].
    rewrite (bind_ok _ _ _ _ _ E3). do 2 eexists. split; [done|].
    split_and!; [|exact (untouched_trans [root_address] [a] s s2 s3 Hu2 Hu3)|exact Hst3|done|by rewrite Hag3, Hag2].
    apply (root_state_frame [a] s2 s3); [exact Hs2|done|done|done|by apply not_root_singleton].
  - intros s r a Hs Hl Ha Hr Hn. unfold removeRepackQueueAndCommit.
    rewrite (bind_ok _ _ _ _ _ (root_writable _ _ Hs)), (bind_ok _ _ _ _ _ (root_payload _ _ Hs)), Hl.
    rewrite (bind_ok _ _ _ _ _ (open_or_gone_absent dummy a s (rs_wf _ _ Hs) Ha Hn)).
    destruct (root_update s r (set_repackqueuepointer qt None)) as (s2 & E & Hs2 & Hag & Hu2); [apply Hs|apply Hs|by eapply root_exists|].
    exists s2. split; [exact E|]. by split_and!.
  - intros ag. split; [apply nextId_nonempty|by destruct qt].
  - intros r. apply repackqueuepointer_set.
Qed.

(** C12: [getLockedAndFetched...] for archive, retrieve and repack queues of every
    type, called with an empty handle and an unlocked lock.  A queue that the root
    entry references is returned locked and fetched, and nothing is written.
    Without a reference, an empty queue owned by the root entry is created,
    referenced and returned locked.  When the referenced object is gone, the first
    attempt leaves the root entry as it is, the second drops the reference and the
    third creates the queue, so the call succeeds within its five attempts.  When
    the referenced object is not a queue of that kind, the call fails with the lock
    released and nothing written. *)
Theorem queue_found_or_created name qt rqt be ag r :
  root_in be r →
  obtains (lookup := λ r, directory (archiveQueuePointers qt r) !! name)
    (fresh := λ ag, fst (nextId (archive_name_header qt +:+ "-" +:+ name) ag))
    (added := with_queue (archive_kind (B:=B) (St:=St) qt) name) (dropped := without_queue (archive_kind (B:=B) (St:=St) qt) name)
    (new := new_archive_queue name) (find_archive_queue dummy name qt) be ag r ∧
  obtains (lookup := λ r, directory (retrieveQueuePointers qt r) !! name)
    (fresh := λ ag, fst (nextId (retrieve_name_header qt +:+ "-" +:+ name) ag))
    (added := with_queue (retrieve_kind (B:=B) (St:=St) qt) name) (dropped := without_queue (retrieve_kind (B:=B) (St:=St) qt) name)
    (new := new_retrieve_queue name) (find_retrieve_queue dummy name qt) be ag r ∧
  obtains (lookup := repackqueuepointer rqt) (fresh := λ ag, fst (nextId (repack_name_header rqt) ag))
    (added := λ a, set_repackqueuepointer rqt (Some a)) (dropped := set_repackqueuepointer rqt None)
    (new := mkRepackQueue []) (getLockedAndFetchedRepackQueue dummy rqt) be ag r.
Proof.
  intros Hr. split_and!.
  - exact (lock_attempts_obtain (kind_directory (archive_kind qt) _ _ _ name (archive_kind_ok dummy qt)) _ be ag r Hr).
  - exact (lock_attempts_obtain (kind_directory (retrieve_kind qt) _ _ _ name (retrieve_kind_ok dummy qt)) _ be ag r Hr).
  - exact (lock_attempts_obtain (repack_directory rqt) _ be ag r Hr).
Qed.
End HelpersSpec.
