(* ===== verification/RetrieveCache.v ===== *)
(** * Choice of the tape of a retrieve request

    Model of [selectBestRetrieveQueue], [getRetrieveQueueStatistics],
    [updateRetrieveQueueStatisticsCache] and [flushRetrieveQueueStatisticsCache] of
    [objectstore/Helpers.cpp].  A call runs to its end before the next one starts, so
    an entry that a call finds under update was left so by a call that ended with an
    exception, and the wait on its broken promise returns at once.

    The catalogue, the sorting of a [std::list] and the random number generator are
    parameters: the order of the statistics is not a strict weak order, so the
    standard only fixes that sorting permutes the list. *)
From stdpp Require Import sorting.
From S2P Require Import Prelude DataTypes ValueCountMap Backend ObjectOps Handles ProtoAlgorithms ArchiveQueueShard ArchiveQueue RetrieveActivity RetrieveQueueShard RetrievePlan RetrieveQueue Agent Registers RootEntry AgentLife RootEntrySpec RootEntryTheorems.

(** [SchedulerDatabase::RetrieveQueueStatistics]. *)
Record RetrieveQueueStatistics := mkStatistics {
  rqs_vid : string;
  bytesQueued : Z;
  filesQueued : Z;
  currentPriority : Z
}.
Definition stats_gt (l r : RetrieveQueueStatistics) : bool :=
  (bytesQueued r <? bytesQueued l) || (currentPriority r <? currentPriority l).
Definition stats_lt (l r : RetrieveQueueStatistics) : bool := stats_gt r l.

(** [Tape::State], and what is looked at of a [Tape]. *)
Inductive TapeState := ACTIVE | BROKEN | DISABLED.
#[export] Instance TapeState_eq_dec : EqDecision TapeState.
Proof. solve_decision. Defined.
Record Tape := mkTape { tape_state : TapeState; tape_full : bool }.
(** [Tape()]. *)
Definition default_tape : Tape := mkTape ACTIVE false.

(** [RetrieveQueueStatisticsWithTime], and the entry that [operator[]] creates. *)
Record CacheEntry := mkEntry {
  stats : RetrieveQueueStatistics;
  tapeStatus : Tape;
  updating : bool;
  updateTime : Z
}.
Definition default_entry : CacheEntry := mkEntry (mkStatistics "" 0 0 0) default_tape false 0.
Abbreviation Cache := (gmap string CacheEntry).
Definition cache_entry (v : string) (c : Cache) : CacheEntry := default default_entry (c !! v).
Definition c_retrieveQueueCacheMaxAge : Z := 10.

(** The condition for a tape to be a candidate. *)
Definition usable (forceDisabledTape : bool) (t : Tape) : bool :=
  bool_decide (tape_state t = ACTIVE) || (bool_decide (tape_state t = DISABLED) && forceDisabledTape).
Definition candidate_of (forceDisabledTape : bool) (e : CacheEntry) : list RetrieveQueueStatistics :=
  if usable forceDisabledTape (tapeStatus e) then [stats e] else [].

Section RetrieveCache.
Context {B St : Type} `{!Serializable B (ObjectHeader B), !Backend B St}.
Context `{!Serializable B RootEntry, !Serializable B ArchiveQueue, !Serializable B RetrieveQueue, !Serializable B Agent}.
(** The header bytes of a handle before anything is read; never looked at. *)
Context (dummy : B).

(** ** Statistics of the queues *)

(** [RootEntry re; ScopedSharedLock rel(re); re.fetch(); rel.release();] The release
    voids the content of the handle. *)
Definition root_then_released : M St (ObjectOps B RootEntry) :=
  root ← open_locked dummy Shared root_address;
  mret (snd (releaseIfNeeded (mkLock Shared true) root)).

(** A read of a queue handle. *)
Definition on_queue {A} (o : ObjectOps B RetrieveQueue) (m : M (RQState B St) A) : M St A := λ be,
  (fst (m (mkRQState o 0 (mkLock Shared false) be (mkAgent "" 0))), be).

(** The statistics of one tape file.  The address that the look-up returns is stored
    in a variable of the [try] block; the one used below is always empty. *)
Definition queue_statistics (root : ObjectOps B RootEntry) (vid : string) : M St RetrieveQueueStatistics :=
  found ← catch (_ ← on_root root (getRetrieveQueueAddress vid JobsToTransferForUser); mret true) (λ _, Some (mret false));
  if (found : bool) then
    o ← lift (object_at (P := RetrieveQueue) dummy "");
    o' ← lock_and_fetch Shared o;
    let rq := snd (releaseIfNeeded (mkLock Shared true) o') in
    v ← on_queue rq getVid;
    if decide (v ≠ vid) then throw (Exception "getRetrieveQueueStatistics(): unexpected vid for retrieve queue")
    else sm ← on_queue rq rq_getJobsSummary; mret (mkStatistics v (rjs_bytes sm) (rjs_jobs sm) (rjs_priority sm))
  else mret (mkStatistics vid 0 0 0).

Fixpoint queues_statistics (root : ObjectOps B RootEntry) (vids : list string) (vidsToConsider : gset string) :
    M St (list RetrieveQueueStatistics) :=
  match vids with
  | [] => mret []
  | v :: vids' =>
      if decide (v ∈ vidsToConsider) then
        x ← queue_statistics root v;
        l ← queues_statistics root vids' vidsToConsider;
        mret (x :: l)
      else queues_statistics root vids' vidsToConsider
  end.
(** The criteria give the tapes of the files. *)
Definition getRetrieveQueueStatistics (vids : list string) (vidsToConsider : gset string) :
    M St (list RetrieveQueueStatistics) :=
  root ← root_then_released; queues_statistics root vids vidsToConsider.

(** ** The cache *)
Abbreviation CM := (M (Cache * St)).
Definition cache : CM Cache := gets fst.
Definition cache_update (v : string) (f : CacheEntry → CacheEntry) : CM unit :=
  modify (λ s, (<[v := f (cache_entry v (fst s))]> (fst s), snd s)).
Definition cache_store {A} (m : M St A) : CM A := λ s,
  let '(r, be') := m (snd s) in (r, (fst s, be')).

Definition set_updating (b : bool) (e : CacheEntry) : CacheEntry := mkEntry (stats e) (tapeStatus e) b (updateTime e).

(** [Catalogue::getTapesByVid], [std::list::sort], the index drawn, and the time. *)
Context (getTapesByVid : gset string → result (gmap string Tape)).
Context (sort : list RetrieveQueueStatistics → list RetrieveQueueStatistics).

(** A missing or stale entry is read again. *)
Definition refresh (now : Z) (v : string) : CM unit :=
  _ ← cache_update v (set_updating true);
  tapes ← lift (getTapesByVid {[v]});
  queuesStats ← cache_store (getRetrieveQueueStatistics [v] {[v]});
  _ ← cache_update v (set_updating false);
  match queuesStats with
  | [q] =>
      if decide (rqs_vid q ≠ v) then throw (Exception "selectBestRetrieveQueue(): unexpected vid in queueStats.")
      else if decide (size tapes ≠ 1%nat) then throw (Exception "selectBestRetrieveQueue(): unexpected size for tapeStatus.")
      else
        match tapes !! v with
        | None => throw (Exception "selectBestRetrieveQueue(): unexpected vid in tapeStatus.")
        | Some t => cache_update v (λ e, mkEntry q t (updating e) now)
        end
  | _ => throw (Exception "selectBestRetrieveQueue(): unexpected size for queueStats.")
  end.

Definition fresh_entry (now : Z) (e : CacheEntry) : bool :=
  updating e || bool_decide (now - updateTime e <= c_retrieveQueueCacheMaxAge).

(** One candidate: its statistics if the tape is usable. *)
Definition consider (now : Z) (forceDisabledTape : bool) (v : string) : CM (list RetrieveQueueStatistics) :=
  c ← cache;
  match c !! v with
  | Some e =>
      if fresh_entry now e then mret (candidate_of forceDisabledTape e)
      else _ ← refresh now v; c' ← cache; mret (candidate_of forceDisabledTape (cache_entry v c'))
  | None => _ ← refresh now v; c' ← cache; mret (candidate_of forceDisabledTape (cache_entry v c'))
  end.
Fixpoint consider_all (now : Z) (forceDisabledTape : bool) (vids : list string) : CM (list RetrieveQueueStatistics) :=
  match vids with
  | [] => mret []
  | v :: vids' =>
      l ← consider now forceDisabledTape v; l' ← consider_all now forceDisabledTape vids'; mret (l ++ l')
  end.

(** The best tapes: neither below nor above the first of the sorted list. *)
Definition shortlist (l : list RetrieveQueueStatistics) : gset string :=
  match l with
  | [] => ∅
  | front :: _ => list_to_set (rqs_vid <$> filter (λ s, stats_lt s front = false ∧ stats_gt s front = false) l)
  end.

(** [candidateVids] in increasing order, and the index drawn below its size. *)
Definition selectBestRetrieveQueue (now : Z) (index : nat) (candidateVids : list string) (forceDisabledTape : bool) : CM string :=
  candidateVidsStats ← consider_all now forceDisabledTape candidateVids;
  match candidateVidsStats with
  | [] => throw NoTapeAvailableForRetrieve
  | _ =>
      match elements (shortlist (sort candidateVidsStats)) with
      | [v] => mret v
      | _ => lift (match candidateVids !! index with
                   | Some v => Ok v
                   | None => Throw (Exception "std::advance past the end")
                   end)
      end
  end.

Definition updateRetrieveQueueStatisticsCache (now : Z) (vid : string) (files bytes priority : Z) : CM unit :=
  c ← cache;
  match c !! vid with
  | Some _ => cache_update vid (λ e, mkEntry (mkStatistics (rqs_vid (stats e)) bytes files priority) (tapeStatus e) (updating e) (updateTime e))
  | None => cache_update vid (λ e, mkEntry (mkStatistics vid bytes files priority) (mkTape ACTIVE false) false now)
  end.

Definition flushRetrieveQueueStatisticsCache : CM unit := modify (λ s, (∅, snd s)).
End RetrieveCache.
