(* ===== verification/RetrieveCacheSpec.v ===== *)
(** * Properties of the choice of a tape

    The statistics of the queues as they are computed, the cache after a call, and
    which tapes can be chosen. *)
From stdpp Require Import sorting.
From S2P Require Import Prelude DataTypes ValueCountMap Backend ObjectOps Handles ProtoAlgorithms ArchiveQueueShard ArchiveQueue RetrieveActivity RetrieveQueueShard RetrievePlan RetrieveQueue Agent Registers RootEntry AgentLife RootEntrySpec RootEntryTheorems Helpers HelpersSpec RetrieveCache.

Definition no_statistics (v : string) : RetrieveQueueStatistics := mkStatistics v 0 0 0.

Lemma bind_ext_in {A C} (f g : A → list C) l : (∀ x, x ∈ l → f x = g x) → l ≫= f = l ≫= g.
Proof.
  induction l as [|x l IH]; intros H; [done|]. rewrite !bind_cons, H by left. f_equal. apply IH. intros y Hy. apply H. by right.
Qed.

Section RetrieveCacheSpec.
Context {B St : Type} `{!Serializable B (ObjectHeader B), !Backend B St}.
Context `{!Serializable B RootEntry, !Serializable B ArchiveQueue, !Serializable B RetrieveQueue, !Serializable B Agent}.
Context (dummy : B).
Implicit Types (be : St) (c : Cache).

(** The root entry is read after the release of its lock has voided it: the look-up
    fails for every tape, and the handler reports an empty queue. *)
Lemma queue_statistics_void h r v be :
  queue_statistics dummy (snd (releaseIfNeeded (mkLock Shared true) (opened Shared root_address h r))) v be =
    (Ok (no_statistics v), be).
Proof. done. Qed.

Lemma queues_statistics_void h r vids considered be :
  queues_statistics dummy (snd (releaseIfNeeded (mkLock Shared true) (opened Shared root_address h r))) vids considered be =
    (Ok (no_statistics <$> filter (.∈ considered) vids), be).
Proof.
  induction vids as [|v vids IH]; [done|]. cbn [queues_statistics]. rewrite filter_cons. case_decide; [|done].
  mstep (queue_statistics_void h r v be). by mstep IH.
Qed.

Lemma getRetrieveQueueStatistics_void vids considered be r :
  root_in be r →
  getRetrieveQueueStatistics dummy vids considered be = (Ok (no_statistics <$> filter (.∈ considered) vids), be).
Proof.
  intros [Hwf (h & Hst)]. unfold getRetrieveQueueStatistics, root_then_released.
  erewrite bind_ok; [apply (queues_statistics_void h r)|].
  by mstep (open_locked_ok dummy Shared root_address h r be Hwf ltac:(done) Hst).
Qed.

(** ** The cache *)
Context (getTapesByVid : gset string → result (gmap string Tape)).
Context (sort : list RetrieveQueueStatistics → list RetrieveQueueStatistics).
(** The state of the tapes in the catalogue; the call for one tape returns that tape. *)
Context (tape : string → Tape) (now : Z) (force : bool).
Hypothesis (Hcat : ∀ v, getTapesByVid {[v]} = Ok {[v := tape v]}).
Hypothesis (Hsort : ∀ l, sort l ≡ₚ l).

Definition refreshed (v : string) : CacheEntry := mkEntry (no_statistics v) (tape v) false now.
(** The entry of a tape after it was considered. *)
Definition entry_after c (v : string) : CacheEntry :=
  match c !! v with Some e => if fresh_entry now e then e else refreshed v | None => refreshed v end.
Definition cache_ok c : Prop := map_Forall (λ v e, rqs_vid (stats e) = v) c.

Lemma refresh_ok v c be r :
  root_in be r → refresh dummy getTapesByVid now v (c, be) = (Ok tt, (<[v := refreshed v]> c, be)).
Proof.
  intros Hr. unfold refresh. erewrite bind_ok; [|done]. rewrite Hcat, bind_lift.
  erewrite bind_ok; [|unfold cache_store; cbn [snd fst]; rewrite (getRetrieveQueueStatistics_void [v] {[v]} be r Hr); done].
  rewrite filter_cons_True by set_solver. rewrite filter_nil. cbn [fmap list_fmap].
  erewrite bind_ok; [|done]. rewrite decide_False by (simpl; tauto).
  rewrite decide_False by (rewrite map_size_singleton; tauto). rewrite lookup_singleton_eq.
  unfold cache_update, modify, cache_entry, refreshed. cbn. rewrite !lookup_insert_eq. cbn. by rewrite !insert_insert_eq.
Qed.

Lemma consider_ok v c be r :
  root_in be r →
  ∃ c', consider dummy getTapesByVid now force v (c, be) = (Ok (candidate_of force (entry_after c v)), (c', be)) ∧
    ∀ w, c' !! w = if decide (w = v) then Some (entry_after c v) else c !! w.
Proof.
  intros Hr. unfold consider, entry_after. unfold mbind at 1, M_bind at 1. cbn [cache gets fst].
  assert (Href : ∃ c', (_ ← refresh dummy getTapesByVid now v; c' ← cache; mret (candidate_of force (cache_entry v c'))) (c, be) =
      (Ok (candidate_of force (refreshed v)), (c', be)) ∧
      ∀ w, c' !! w = if decide (w = v) then Some (refreshed v) else c !! w).
  { eexists. mstep (refresh_ok v c be r Hr). split.
    - unfold mbind, M_bind. cbn. unfold cache_entry. rewrite lookup_insert_eq. done.
    - intros w. rewrite lookup_insert. repeat case_decide; congruence. }
  destruct (c !! v) as [e|] eqn:E; [|done]. destruct (fresh_entry now e); [|done].
  exists c. split; [done|]. intros w. case_decide; [by subst|done].
Qed.

Lemma consider_all_ok vids c be r :
  root_in be r → NoDup vids →
  ∃ c', consider_all dummy getTapesByVid now force vids (c, be) =
      (Ok (vids ≫= λ v, candidate_of force (entry_after c v)), (c', be)) ∧
    ∀ w, c' !! w = if decide (w ∈ vids) then Some (entry_after c w) else c !! w.
Proof.
  intros Hr. revert c. induction vids as [|v vids IH]; intros c Hnd.
  { exists c. split; [done|]. intros w. by rewrite decide_False by set_solver. }
  apply NoDup_cons in Hnd as [Hv Hnd]. destruct (consider_ok v c be r Hr) as (c1 & E1 & H1).
  destruct (IH c1 Hnd) as (c2 & E2 & H2).
  assert (Hsame : ∀ w, w ∈ vids → entry_after c1 w = entry_after c w).
  { intros w Hw. unfold entry_after. rewrite H1, decide_False by (by intros ->). done. }
  exists c2. cbn [consider_all]. mstep E1. mstep E2. split.
  - rewrite bind_cons, (bind_ext_in _ (λ v, candidate_of force (entry_after c v)) vids); [done|].
    intros w Hw. by rewrite Hsame.
  - intros w. rewrite H2, H1. destruct (decide (w = v)) as [->|Hne].
    + rewrite decide_False, (decide_True (P := v ∈ v :: vids)) by (done || by left). done.
    + destruct (decide (w ∈ vids)).
      * rewrite decide_True by (by right). by rewrite Hsame.
      * by rewrite decide_False by (rewrite elem_of_cons; tauto).
Qed.

(** ** The choice *)
Abbreviation candidates c vids := (filter (λ v, usable force (tapeStatus (entry_after c v)) = true) vids).

Lemma candidates_vids c vids :
  cache_ok c → rqs_vid <$> (vids ≫= λ v, candidate_of force (entry_after c v)) = candidates c vids.
Proof.
  intros Hc. induction vids as [|v vids IH]; [done|]. rewrite bind_cons, fmap_app, IH, filter_cons.
  unfold candidate_of. destruct (usable force (tapeStatus (entry_after c v))) eqn:E.
  - rewrite decide_True by done. simpl. f_equal. unfold entry_after. destruct (c !! v) as [e|] eqn:Ev; [|done].
    destruct (fresh_entry now e); [by apply (Hc v e)|done].
  - by rewrite decide_False.
Qed.

Lemma stats_gt_irrefl s : stats_gt s s = false.
Proof. unfold stats_gt. by rewrite !Z.ltb_irrefl. Qed.

Lemma shortlist_subset l : shortlist l ⊆ list_to_set (rqs_vid <$> l).
Proof.
  destruct l as [|x l]; [done|]. unfold shortlist. intros v. rewrite !elem_of_list_to_set, !list_elem_of_fmap.
  intros (y & -> & [_ Hy]%list_elem_of_filter). eauto.
Qed.
Lemma shortlist_front x l : rqs_vid x ∈ shortlist (x :: l).
Proof.
  unfold shortlist. rewrite elem_of_list_to_set. apply list_elem_of_fmap_2, list_elem_of_filter.
  unfold stats_lt. rewrite stats_gt_irrefl. split; [done|left].
Qed.

(** The statistics of the usable candidates, in the order of the candidates, and the
    candidates the code takes for equivalent to the best one. *)
Definition usable_stats c vids : list RetrieveQueueStatistics :=
  vids ≫= λ v, candidate_of force (entry_after c v).
Definition equivalent (a b : RetrieveQueueStatistics) : Prop := stats_lt a b = false ∧ stats_gt a b = false.

Lemma elem_of_shortlist v x l :
  v ∈ shortlist (x :: l) ↔ ∃ s, s ∈ x :: l ∧ equivalent s x ∧ rqs_vid s = v.
Proof.
  unfold shortlist, equivalent. rewrite elem_of_list_to_set, list_elem_of_fmap.
  split; intros (y & H); exists y; rewrite list_elem_of_filter in *; naive_solver.
Qed.

(** A shortlist of one tape holds the first of the list only. *)
Lemma shortlist_one v x l :
  elements (shortlist (x :: l)) = [v] ↔
  v = rqs_vid x ∧ ∀ s, s ∈ x :: l → equivalent s x → rqs_vid s = rqs_vid x.
Proof.
  pose proof (shortlist_front x l) as Hx. split.
  - intros E. assert (Hin : ∀ w, w ∈ shortlist (x :: l) → w = v).
    { intros w. rewrite <- elem_of_elements, E, list_elem_of_singleton. done. }
    rewrite <- (Hin _ Hx). split; [done|]. intros s Hs He. rewrite (Hin _ Hx). apply Hin, elem_of_shortlist. eauto.
  - intros [-> H]. replace (shortlist (x :: l)) with ({[rqs_vid x]} : gset string); [apply elements_singleton|].
    apply set_eq. intros w. rewrite elem_of_singleton, elem_of_shortlist. split.
    + intros ->. exists x. split_and!; [left| |done]. unfold equivalent, stats_lt. by rewrite stats_gt_irrefl.
    + intros (s & Hs & He & <-). by apply H.
Qed.

Lemma sorted_front_best x l s :
  StronglySorted (λ a b, stats_gt b a = false) (x :: l) → s ∈ x :: l → stats_gt s x = false.
Proof.
  intros [_ Hall]%StronglySorted_inv [->|Hs]%elem_of_cons; [apply stats_gt_irrefl|].
  rewrite Forall_forall in Hall. auto.
Qed.

End RetrieveCacheSpec.
