(* ===== verification/HelpersExamples.v ===== *)
(** * Queues found, created and chosen in the file system backend

    Witnesses and runs of the properties of [HelpersSpec.v] and
    [RetrieveCacheSpec.v]. *)
From S2P Require Import Prelude DataTypes ValueCountMap Backend ObjectOps Handles ProtoAlgorithms ArchiveQueueShard ArchiveQueue RetrieveActivity RetrieveQueueShard RetrievePlan RetrieveQueue Agent Registers RootEntry RootEntrySpec RootEntryTheorems RootEntryExamples AgentLife Helpers HelpersSpec RetrieveCache RetrieveCacheSpec.
Import Blob.

(** The root entry references the archive queue of one pool, which exists, that of
    another, which is gone, and a retrieve queue with jobs. *)
Definition ex_h_root : RootEntry :=
  mkRoot (mkQPs [mkQP "aq" "pool"; mkQP "lost" "gone"] [] [] [] [] []) (mkQPs [mkQP "rq" "V01"] [] [] [] [] [])
    None None None None None None None.
Definition ex_h_queue : RetrieveQueue :=
  mkRetrieveQueue "V01" [] [mkVC 5 3] [] [] [] 7 5000 3 0 c_defaultMaxShardSize None None None.
Definition ex_h_store : VFS.vfs content :=
  VFS.mkVfs (<["root" := BHdr RootEntry_t 0 "root" "root" (BMsg (MRoot ex_h_root))]>
    (<["aq" := BHdr ArchiveQueue_t 0 "root" "root" (BMsg (MArchive (new_archive_queue "pool")))]>
    {["rq" := BHdr RetrieveQueue_t 0 "root" "root" (BMsg (MRetrieve ex_h_queue))]})) {["root"; "aq"; "rq"]}.
Definition ex_h_agent : AgentReference := mkAgent "agent" 0.

Lemma ex_h_root_in : root_in ex_h_store ex_h_root.
Proof. split; [by vm_compute|by eexists]. Qed.

(** The queue of the pool [gone] is created again. *)
Lemma queue_found_or_created_witness :
  ∃ be' ag' h, find_archive_queue no_content "gone" JobsToTransferForUser (start (new_object no_content) ex_h_store ex_h_agent) =
      (Ok tt, holding "ArchiveQueueToTransferForUser-gone-agent-0" h (new_archive_queue "gone") be' ag') ∧
    stored be' "ArchiveQueueToTransferForUser-gone-agent-0" = Some (h, new_archive_queue "gone").
Proof.
  destruct (proj1 (proj2 (proj1 (queue_found_or_created no_content "gone" JobsToTransferForUser Pending ex_h_store ex_h_agent ex_h_root
    ex_h_root_in) ltac:(done) ltac:(done))) eq_refl eq_refl) as (be' & ag' & h & E & _ & Hst & _).
  exists be', ag', h. split; [exact E|exact Hst].
Defined.

(** The handle of the caller is locked on the queue that exists. *)
Example ex_h_found :
  let '(res, s) := find_archive_queue no_content "pool" JobsToTransferForUser (start (new_object no_content) ex_h_store ex_h_agent) in
  res = Ok tt ∧ m_name (q_obj s) = "aq" ∧ m_locked (q_lock s) = true ∧ m_nextId (q_agent s) = 0.
Proof. by vm_compute. Qed.

(** Two repack requests for one tape: the second is refused. *)
Example ex_h_index :
  let '(res, (be, ag)) := (_ ← registerRepackRequestToIndex no_content "V01" "repack1";
                           registerRepackRequestToIndex no_content "V01" "repack2") (ex_h_store, ex_h_agent) in
  res = Throw VidAlreadyRegistered ∧
  (snd <$> stored (P := RepackIndex) be "RepackIndex-agent-0") = Some (mkRepackIndex [mkRRIP "V01" "repack1"]) ∧
  let '(res', be') := removeRepackRequestToIndex no_content "V01" be in
  res' = Ok tt ∧ (snd <$> stored (P := RepackIndex) be' "RepackIndex-agent-0") = Some (mkRepackIndex []).
Proof. by vm_compute. Qed.

(** ** Tapes *)
Definition ex_h_tape (v : string) : Tape := mkTape (if decide (v = "V03") then DISABLED else ACTIVE) false.
Definition ex_h_catalogue (vids : gset string) : result (gmap string Tape) := Ok (set_to_map (λ v, (v, ex_h_tape v)) vids).

Lemma ex_h_catalogue_ok v : ex_h_catalogue {[v]} = Ok {[v := ex_h_tape v]}.
Proof.
  unfold ex_h_catalogue, set_to_map. rewrite elements_singleton. done.
Qed.

(** The queue of the tape holds 5000 bytes; the statistics say zero. *)
Example ex_h_statistics :
  getRetrieveQueueStatistics no_content ["V01"] {["V01"]} ex_h_store = (Ok [mkStatistics "V01" 0 0 0], ex_h_store).
Proof. by vm_compute. Qed.

(** Two active tapes are equivalent; the disabled one can be drawn. *)
Example ex_h_disabled_chosen :
  fst (selectBestRetrieveQueue no_content ex_h_catalogue id 100 2 ["V01"; "V02"; "V03"] false (∅, ex_h_store)) = Ok "V03".
Proof. by vm_compute. Qed.

(** The statistics are no strict weak order: each of two tapes is above the other. *)
Example ex_h_no_order :
  let a := mkStatistics "V01" 10 1 1 in let b := mkStatistics "V02" 5 1 2 in stats_gt a b = true ∧ stats_gt b a = true.
Proof. done. Qed.

