(* ===== verification/Algorithms.v ===== *)
(** * Algorithms on containers

    Model of [objectstore/Algorithms.hpp]: the template [ContainerAlgorithms], which
    moves requests between an agent and a queue.  A request is referenced by its new
    owner before its owner is changed, and dereferenced by the previous one after.

    [ContainerTraits] is a class of operations; the algorithms are defined once for
    all its instances, as the template is.  The summaries of the container before
    and after, which are only logged, are left out.  [OwnershipSwitchFailure] is
    modelled by the list of failures that it carries: an algorithm returns the empty
    list when the code returns normally, and the failures when it throws. *)
From S2P Require Import Prelude DataTypes Backend ObjectOps Handles ProtoAlgorithms ArchiveQueue RetrieveQueue Agent Registers RootEntry AgentLife Helpers.

(** Run [f] on every element; the exceptions are collected. *)
Fixpoint attempt_all {S A C} (f : A → M S C) (l : list A) : M S (list (result C)) :=
  match l with
  | [] => mret []
  | a :: l' => λ s, let '(r, s') := f a s in (rs ← attempt_all f l'; mret (r :: rs)) s'
  end.
Definition failure_of {A C} (x : A * result C) : option (A * exn) :=
  match snd x with Ok _ => None | Throw e => Some (fst x, e) end.
Definition failures {A C} (l : list A) (rs : list (result C)) : list (A * exn) := omap failure_of (zip l rs).

(** [InsertedElement], [PoppedElement], [PopCriteria], [PoppedElementsSummary] and
    [ElementStatus] are the types [El], [Pop], [Crit], [Sum] and [Status]. *)
Class ContainerTraits (B P St El Pop Crit Sum Status : Type) := {
  getLockedAndFetched : M (QState B P St) unit;
  getLockedAndFetchedNoCreate : M (QState B P St) unit;
  cont_fetch : M (QState B P St) unit;
  addReferencesAndCommit : list El → M (QState B P St) unit;
  addReferencesIfNecessaryAndCommit : list El → M (QState B P St) unit;
  removeReferencesAndCommit : list string → M (QState B P St) unit;
  getElementAddress : El → string;
  getPoppedAddress : Pop → string;
  (** The update of the owner of an element: new owner, previous owner. *)
  switchElement : string → string → El → M St unit;
  switchPopped : option Status → string → string → Pop → M St Pop;
  getPoppingElementsCandidates : Crit → gset string → M (QState B P St) (list Pop);
  trimContainerIfNeeded : M (QState B P St) bool;
  getElementSummary : Pop → Sum;
  no_summary : Sum;
  summary_plus : Sum → Sum → Sum;
  criteria_minus : Crit → Sum → Crit;
  summary_less : Sum → Crit → bool
}.

Section Algorithms.
Context {B P St El Pop Crit Sum Status : Type} `{!Serializable B (ObjectHeader B), !Backend B St}.
Context `{!Serializable B P, !Message P, !Serializable B Agent}.
Context (dummy : B) `{T : !ContainerTraits B P St El Pop Crit Sum Status}.
Abbreviation QM := (M (QState B P St)).

Definition cont_address : QM string := o ← gets q_obj; lift (getAddressIfSet o).
Definition cont_release : QM unit := λ s,
  match release (q_lock s) (q_obj s) with
  | Ok (l', o') => (Ok tt, mkQState o' l' (q_be s) (q_agent s))
  | Throw e => (Throw e, s)
  end.
(** An operation of the agent reference. *)
Definition with_agent (f : AgentReference → M St unit) : QM unit := ag ← gets q_agent; q_store (f ag).

Definition switchElementsOwnership (elements : list El) (contAddress previousOwner : string) : QM (list (El * exn)) :=
  rs ← q_store (attempt_all (switchElement contAddress previousOwner) elements); mret (failures elements rs).

(** The end of both functions that add elements: the references of the elements
    whose owner could not be changed are removed again. *)
Definition switch_and_dereference (elements : list El) (previousOwner : string) : QM (list (El * exn)) :=
  contAddress ← cont_address;
  failed ← switchElementsOwnership elements contAddress previousOwner;
  _ ← (if decide (failed = []) then mret tt
       else removeReferencesAndCommit ((λ x, getElementAddress (fst x)) <$> failed));
  _ ← cont_release;
  mret failed.

(** The elements given up by the agent: those that are not in the failed set. *)
Definition transferred (elements : list El) (failed : list (El * exn)) : list string :=
  let failedSet : gset string := list_to_set ((λ x, getElementAddress (fst x)) <$> failed) in
  filter (.∉ failedSet) (getElementAddress <$> elements).

Definition referenceAndSwitchOwnership (prevContAddress : string) (elements : list El) : QM (list (El * exn)) :=
  _ ← getLockedAndFetched;
  _ ← addReferencesAndCommit elements;
  failed ← switch_and_dereference elements prevContAddress;
  _ ← (if decide (failed = [])
       then with_agent (removeBatchFromOwnership dummy (getElementAddress <$> elements))
       else if decide (transferred elements failed = []) then mret tt
       else with_agent (removeBatchFromOwnership dummy (transferred elements failed)));
  mret failed.

(** The overload for elements of the agent itself. *)
Definition referenceAndSwitchOwnership_own (elements : list El) : QM (list (El * exn)) :=
  ag ← gets q_agent; referenceAndSwitchOwnership (m_agentAddress ag) elements.

(** Returns the address of the container too. *)
Definition referenceAndSwitchOwnershipIfNecessary (previousOwnerAddress : string) (elements : list El) :
    QM (string * list (El * exn)) :=
  _ ← getLockedAndFetched;
  contAddress ← cont_address;
  _ ← addReferencesIfNecessaryAndCommit elements;
  failed ← switch_and_dereference elements previousOwnerAddress;
  mret (contAddress, failed).

(** ** Popping *)

(** What a failed switch means for a candidate. *)
Inductive verdict := Gone | Unlocked | Unexpected.
Definition verdict_of (e : exn) : verdict :=
  match e with NoSuchObject | WrongPreviousOwner => Gone | CouldNotUnlock => Unlocked | _ => Unexpected end.
Definition is_verdict (v : verdict) (x : Pop * exn) : bool :=
  match v, verdict_of (snd x) with Gone, Gone | Unlocked, Unlocked | Unexpected, Unexpected => true | _, _ => false end.

(** The candidates after the switch: an element whose update succeeded carries what
    the update gathered. *)
Definition updated (x : Pop * result Pop) : Pop := match snd x with Ok e => e | Throw _ => fst x end.

(** The sets of addresses that the failures give. *)
Definition not_to_dereference (failed : list (Pop * exn)) : gset string :=
  list_to_set ((λ x, getPoppedAddress (fst x)) <$> filter (λ x, is_verdict Unexpected x = true) failed).
Definition from_agent (failed : list (Pop * exn)) : list string :=
  (λ x, getPoppedAddress (fst x)) <$> filter (λ x, is_verdict Unlocked x = false) failed.

(** What a round leaves to its caller: the candidates with what the container said
    of them, the elements to report, the failures, and whether trimming emptied the
    container. *)
Record PopRound := mkRound {
  pr_candidates : list Pop;
  pr_elements : list Pop;
  pr_failed : list (Pop * exn);
  pr_trimmed : bool
}.

(** One round on a locked container: the candidates, the switch of their owner, and
    the references that are dropped.  [trim] runs on the container before its lock
    is released. *)
Definition pop_round (criteria : Crit) (skip : gset string) (newStatus : option Status) (trim : QM bool) :
    QM PopRound :=
  candidateElements ← getPoppingElementsCandidates criteria skip;
  let addresses := getPoppedAddress <$> candidateElements in
  _ ← with_agent (addBatchToOwnership dummy addresses);
  ag ← gets q_agent;
  contAddress ← cont_address;
  rs ← q_store (attempt_all (switchPopped newStatus (m_agentAddress ag) contAddress) candidateElements);
  let failed := failures candidateElements rs in
  let elements := updated <$> zip candidateElements rs in
  _ ← removeReferencesAndCommit (filter (.∉ not_to_dereference failed) addresses);
  trimmed ← trim;
  _ ← q_release_if_locked;
  _ ← (if decide (failed = []) then mret tt else with_agent (removeBatchFromOwnership dummy (from_agent failed)));
  let notToReport : gset string := list_to_set (from_agent failed) in
  mret (mkRound candidateElements (filter (λ e, getPoppedAddress e ∉ notToReport) elements) failed trimmed).

(** The counts of a batch: without failures the summary of the candidates is added
    at once, otherwise the reported elements one by one. *)
Definition total (l : list Pop) : Sum := foldl (λ s e, summary_plus s (getElementSummary e)) no_summary l.
Definition add_round (s : Sum) (x : PopRound) : Sum :=
  if decide (pr_failed x = []) then summary_plus s (total (pr_candidates x))
  else foldl (λ s e, summary_plus s (getElementSummary e)) s (pr_elements x).
Definition subtract_round (c : Crit) (x : PopRound) : Crit :=
  if decide (pr_failed x = []) then criteria_minus c (total (pr_candidates x))
  else foldl (λ c e, criteria_minus c (getElementSummary e)) c (pr_elements x).

(** A failure to read the container gives an empty batch. *)
Definition popNextBatchFromContainerAndSwitchStatus (popCriteria : Crit) (newStatus : option Status) : QM (list Pop * Sum) :=
  b ← catch (_ ← cont_fetch; mret true) (λ _, Some (mret false));
  if (b : bool) then
    x ← pop_round popCriteria ∅ newStatus (mret false);
    mret (pr_elements x, add_round no_summary x)
  else mret ([], no_summary).

(** The loop of [popNextBatch].  The handle and the lock are new in every round, and
    trimming counts only in a round without failures. *)
Definition fresh_container : QM unit :=
  modify (λ s, mkQState (new_object dummy) (mkLock Exclusive false) (q_be s) (q_agent s)).
Fixpoint pop_rounds (fuel : nat) (popCriteria unfulfilled : Crit) (skip : gset string) (acc : list Pop) (summary : Sum) :
    QM (list Pop * Sum) :=
  if summary_less summary popCriteria then
    match fuel with
    | O => throw OutOfFuel
    | S fuel' =>
        _ ← fresh_container;
        found ← catch (_ ← getLockedAndFetchedNoCreate; mret true)
          (λ e, match e with NoSuchContainer => Some (mret false) | _ => None end);
        if negb found then mret (acc, summary)
        else
          x ← pop_round unfulfilled skip None trimContainerIfNeeded;
          let acc' := acc ++ pr_elements x in
          let summary' := add_round summary x in
          let unexpectedException := existsb (is_verdict Unexpected) (pr_failed x) in
          let didTrim := pr_trimmed x && bool_decide (pr_failed x = []) in
          if unexpectedException || didTrim then mret (acc', summary')
          else pop_rounds fuel' popCriteria (subtract_round unfulfilled x) (skip ∪ not_to_dereference (pr_failed x)) acc' summary'
    end
  else mret (acc, summary).
Definition popNextBatch (fuel : nat) (popCriteria : Crit) : QM (list Pop * Sum) :=
  pop_rounds fuel popCriteria popCriteria ∅ [] no_summary.
End Algorithms.
