(* ===== verification/AlgorithmsSpec.v ===== *)
(** * Moving requests between an agent and a container

    What the algorithms need of a container ([ContainerLaws]), and what they then do:
    the requests whose owner can be changed end up owned and referenced by the new
    owner only, and the others stay where they were. *)
From S2P Require Import Prelude DataTypes Backend ObjectOps Handles ProtoAlgorithms Agent RootEntry AgentLife Helpers Algorithms.

Section AlgorithmsSpec.
Context {B P St El Pop Crit Sum Status : Type} `{!Serializable B (ObjectHeader B), !Backend B St}.
Context `{!Serializable B P, !Message P, !Serializable B Agent}.
Context (dummy : B) `{T : !ContainerTraits B P St El Pop Crit Sum Status}.
Abbreviation QS := (QState B P St).
Implicit Types (be : St) (s : QS) (e : El) (c n : string).

(** The objects outside [X] are the same. *)
Definition same_outside (X : string → Prop) be be' : Prop := ∀ n, ¬ X n → be_view be' !! n = be_view be !! n.
Lemma same_outside_trans (X Y Z : string → Prop) be1 be2 be3 :
  same_outside X be1 be2 → same_outside Y be2 be3 → (∀ n, X n → Z n) → (∀ n, Y n → Z n) → same_outside Z be1 be3.
Proof. intros H1 H2 HX HY n Hn. rewrite H2, H1; [done|naive_solver..]. Qed.

Class ContainerLaws := {
  (** [holds c s l]: the container at [c] is locked and fetched in [s], and references
      the requests [l] there and in the store; [committed] is about the store only. *)
  holds : string → QS → list string → Prop;
  committed : St → string → list string → Prop;
  (** The objects that the container at [c] is made of. *)
  part : string → string → Prop;
  (** The owner of a request, and why a change of it would be refused: [None] when it
      would be accepted. *)
  el_owner : St → string → option string;
  el_refusal : string → string → St → El → option exn;
  pop_refusal : string → string → St → Pop → option exn;
  holds_opened c s l : holds c s l → be_wf (q_be s) ∧ q_lock s = mkLock Exclusive true ∧
    ∃ h p, q_obj s = opened Exclusive c h p;
  holds_committed c s l : holds c s l → committed (q_be s) c l;
  holds_frame c s l be ag : holds c s l → be_wf be → (∀ n, part c n → be_view be !! n = be_view (q_be s) !! n) →
    m_agentAddress ag = m_agentAddress (q_agent s) → holds c (mkQState (q_obj s) (q_lock s) be ag) l;
  committed_frame c be be' l : committed be c l → be_wf be' → (∀ n, part c n → be_view be' !! n = be_view be !! n) →
    committed be' c l;
  add_law c s l els : holds c s l →
    ∃ s', addReferencesAndCommit els s = (Ok tt, s') ∧ holds c s' (l ++ (getElementAddress <$> els)) ∧
      same_outside (part c) (q_be s) (q_be s') ∧ m_agentAddress (q_agent s') = m_agentAddress (q_agent s);
  remove_law c s l d : holds c s l →
    ∃ s', removeReferencesAndCommit d s = (Ok tt, s') ∧ holds c s' (filter (.∉ d) l) ∧
      same_outside (part c) (q_be s) (q_be s') ∧ m_agentAddress (q_agent s') = m_agentAddress (q_agent s);
  el_owner_frame be be' a : be_view be' !! a = be_view be !! a → el_owner be' a = el_owner be a;
  el_refusal_frame new prev be be' e :
    be_view be' !! getElementAddress e = be_view be !! getElementAddress e → el_refusal new prev be' e = el_refusal new prev be e;
  pop_refusal_frame new prev be be' x :
    be_view be' !! getPoppedAddress x = be_view be !! getPoppedAddress x → pop_refusal new prev be' x = pop_refusal new prev be x;
  el_switch_law new prev be e : be_wf be →
    match el_refusal new prev be e with
    | Some why => switchElement new prev e be = (Throw why, be)
    | None => ∃ be', switchElement new prev e be = (Ok tt, be') ∧ be_wf be' ∧
        el_owner be' (getElementAddress e) = Some new ∧ same_outside (eq (getElementAddress e)) be be'
    end;
  pop_switch_law st new prev be x : be_wf be →
    match pop_refusal new prev be x with
    | Some why => switchPopped st new prev x be = (Throw why, be)
    | None => ∃ x' be', switchPopped st new prev x be = (Ok x', be') ∧ getPoppedAddress x' = getPoppedAddress x ∧
        be_wf be' ∧ el_owner be' (getPoppedAddress x) = Some new ∧ same_outside (eq (getPoppedAddress x)) be be'
    end
}.

(** ** A batch of changes of owner *)
Section Batch.
Context {A C : Type} (f : A → M St C) (addr : A → string) (refusal : St → A → option exn) (new : string).
Context (owner : St → string → option string) (good : A → C → Prop).
Hypothesis refusal_frame : ∀ be be' a, be_view be' !! addr a = be_view be !! addr a → refusal be' a = refusal be a.
Hypothesis owner_frame : ∀ be be' a, be_view be' !! a = be_view be !! a → owner be' a = owner be a.
Hypothesis f_law : ∀ be a, be_wf be →
  match refusal be a with
  | Some why => f a be = (Throw why, be)
  | None => ∃ v be', f a be = (Ok v, be') ∧ good a v ∧ be_wf be' ∧ owner be' (addr a) = Some new ∧ same_outside (eq (addr a)) be be'
  end.

(** The results of the batch, one per element. *)
Definition outcome be (a : A) (r : result C) : Prop :=
  match refusal be a with Some why => r = Throw why | None => ∃ v, r = Ok v ∧ good a v end.

Lemma attempt_batch l be :
  be_wf be → NoDup (addr <$> l) →
  ∃ rs be', attempt_all f l be = (Ok rs, be') ∧ Forall2 (outcome be) l rs ∧ be_wf be' ∧
    (∀ a, a ∈ l → refusal be a = None → owner be' (addr a) = Some new) ∧
    same_outside (λ n, ∃ a, a ∈ l ∧ refusal be a = None ∧ n = addr a) be be'.
Proof.
  revert be. induction l as [|a l IH]; intros be Hwf Hnd.
  { exists [], be. split_and!; [done|constructor|done| |by intros n]. intros a Ha. by apply not_elem_of_nil in Ha. }
  rewrite fmap_cons in Hnd. apply NoDup_cons in Hnd as [Hna Hnd].
  assert (∃ r be1, f a be = (r, be1) ∧ outcome be a r ∧ be_wf be1 ∧
    (refusal be a = None → owner be1 (addr a) = Some new) ∧ same_outside (λ n, refusal be a = None ∧ n = addr a) be be1)
    as (r & be1 & E1 & Ho & Hwf1 & Hown & Hfr1).
  { pose proof (f_law be a Hwf) as Hl. unfold outcome. destruct (refusal be a) as [why|].
    - exists (Throw why), be. by split_and!.
    - destruct Hl as (v & be1 & E & Hg & Hwf1 & Hown & Hfr). exists (Ok v), be1. split_and!; try done; [by eexists|].
      intros n Hn. apply Hfr. intros <-. by apply Hn. }
  assert (Hsame : ∀ b, b ∈ l → be_view be1 !! addr b = be_view be !! addr b).
  { intros b Hb. apply Hfr1. intros [_ Heq]. apply Hna. rewrite <-Heq. by apply list_elem_of_fmap_2. }
  destruct (IH be1 Hwf1 Hnd) as (rs & be2 & E2 & Hrs & Hwf2 & Hown2 & Hfr2).
  exists (r :: rs), be2. split_and!; [|constructor; [done|]|done| |].
  - cbn [attempt_all]. rewrite E1. by rewrite (bind_ok _ _ _ _ _ E2).
  - apply Forall2_same_length_lookup in Hrs as [Hlen Hrs]. apply Forall2_same_length_lookup. split; [done|].
    intros i b r' Hb Hr'. unfold outcome. rewrite <-(refusal_frame be be1 b) by (apply Hsame; by eapply list_elem_of_lookup_2).
    by apply (Hrs i).
  - intros b [->|Hb]%elem_of_cons Hn.
    + rewrite (owner_frame be1); [by apply Hown|]. apply Hfr2. intros (b & Hb & _ & Heq).
      apply Hna. rewrite Heq. by apply list_elem_of_fmap_2.
    + apply Hown2; [done|]. by rewrite (refusal_frame be be1) by by apply Hsame.
  - intros n Hn. rewrite Hfr2, Hfr1; [done| |].
    + intros [Hr ->]. apply Hn. exists a. split_and!; [by left|done|done].
    + intros (b & Hb & Hr & ->). apply Hn. exists b. split_and!; [by right| |done].
      by rewrite <-(refusal_frame be be1) by by apply Hsame.
Qed.

(** The refusals of the elements of the batch. *)
Definition refused be (l : list A) : list (A * exn) := omap (λ a, (λ why, (a, why)) <$> refusal be a) l.
Lemma failures_refused be l rs : Forall2 (outcome be) l rs → failures l rs = refused be l.
Proof.
  unfold failures, refused. induction 1 as [|a r l rs Ho Hrs IH]; [done|]. simpl. unfold failure_of at 1. simpl.
  unfold outcome in Ho. destruct (refusal be a) as [why|]; simpl; [subst r; by f_equal|]. by destruct Ho as (v & -> & _).
Qed.

Lemma refused_nil be l : refused be l = [] ↔ filter (λ a, refusal be a ≠ None) l = [].
Proof.
  unfold refused. induction l as [|a l IH]; [done|]. simpl. rewrite filter_cons.
  by destruct (refusal be a).
Qed.
Lemma refused_addresses be l :
  (λ x, addr (fst x)) <$> refused be l = addr <$> filter (λ a, refusal be a ≠ None) l.
Proof.
  unfold refused. induction l as [|a l IH]; [done|]. simpl. rewrite filter_cons.
  destruct (refusal be a); simpl; [by f_equal|done].
Qed.
End Batch.

(** Selecting by address the elements that satisfy a predicate. *)
Lemma fmap_NoDup_inj {A} (addr : A → string) (l : list A) a b :
  NoDup (addr <$> l) → a ∈ l → b ∈ l → addr a = addr b → a = b.
Proof.
  intros Hnd [i Hi]%list_elem_of_lookup [j Hj]%list_elem_of_lookup Heq.
  assert (i = j) as ->; [|congruence]. apply (NoDup_lookup _ i j (addr a) Hnd); rewrite list_lookup_fmap; [by rewrite Hi|].
  rewrite Hj. simpl. by rewrite Heq.
Qed.
Lemma filter_by_address {A} (addr : A → string) (Q : A → Prop) `{!∀ a, Decision (Q a)} (l : list A) :
  NoDup (addr <$> l) →
  filter (.∉ (list_to_set (addr <$> filter (λ a, ¬ Q a) l) : gset string)) (addr <$> l) = addr <$> filter Q l.
Proof.
  intros Hnd. set (X := list_to_set _ : gset string).
  assert (Hsub : ∀ l', l' ⊆ l → filter (.∉ X) (addr <$> l') = addr <$> filter Q l'); [|by apply Hsub].
  induction l' as [|a l' IH]; intros Hs; [done|].
  assert (Ha : a ∈ l) by (apply Hs; by left). specialize (IH (λ b Hb, Hs b (proj2 (elem_of_cons _ _ _) (or_intror Hb)))).
  rewrite fmap_cons, !filter_cons, IH. destruct (decide (Q a)) as [Hq|Hq]; [rewrite decide_True|rewrite decide_False]; try done.
  - unfold X. rewrite elem_of_list_to_set, list_elem_of_fmap. intros (b & Heq & [Hnb Hb]%list_elem_of_filter). apply Hnb.
    by rewrite (fmap_NoDup_inj addr l b a).
  - intros Hn. apply Hn. unfold X. rewrite elem_of_list_to_set. apply list_elem_of_fmap_2. by apply list_elem_of_filter.
Qed.

(** ** From the agent to the container *)
Section Laws.
Context {L : ContainerLaws}.
Abbreviation addrs := (fmap getElementAddress).

(** The elements whose owner is changed to [c], and those whose owner is not. *)
Definition moved c (prev : string) be (els : list El) : list El := filter (λ e, el_refusal c prev be e = None) els.
Definition stuck c (prev : string) be (els : list El) : list El := filter (λ e, el_refusal c prev be e ≠ None) els.

Lemma holds_switch c s q els prev :
  holds c s q → NoDup (addrs els) → (∀ a, a ∈ addrs els → ¬ part c a) →
  ∃ be', switchElementsOwnership els c prev s =
      (Ok (refused (el_refusal c prev) (q_be s) els), mkQState (q_obj s) (q_lock s) be' (q_agent s)) ∧
    holds c (mkQState (q_obj s) (q_lock s) be' (q_agent s)) q ∧
    (∀ e, e ∈ moved c prev (q_be s) els → el_owner be' (getElementAddress e) = Some c) ∧
    same_outside (.∈ addrs (moved c prev (q_be s) els)) (q_be s) be'.
Proof.
  intros Hh Hnd Hpart. destruct (holds_opened c s q Hh) as (Hwf & _).
  destruct (attempt_batch (switchElement c prev) getElementAddress (el_refusal c prev) c el_owner (λ _ _, True)) with (l := els) (be := q_be s)
    as (rs & be' & E & Hrs & Hwf' & Hown & Hfr); [apply el_refusal_frame|apply el_owner_frame| |done|done|].
  { intros be e Hbe. pose proof (el_switch_law c prev be e Hbe) as Hl. destruct (el_refusal c prev be e); [done|].
    destruct Hl as (be' & E & H). by exists tt, be'. }
  assert (Hfr' : same_outside (.∈ addrs (moved c prev (q_be s) els)) (q_be s) be').
  { intros n Hn. apply Hfr. intros (e & He & Hr & ->). apply Hn. apply list_elem_of_fmap_2. by apply list_elem_of_filter. }
  exists be'. split_and!; [|apply holds_frame; try done| |done].
  - unfold switchElementsOwnership. erewrite bind_ok; [|unfold q_store; rewrite E; reflexivity].
    by rewrite (failures_refused _ _ _ _ _ Hrs).
  - intros n Hn. apply Hfr'. intros (e & -> & He)%list_elem_of_fmap. apply list_elem_of_filter in He as [_ He].
    by apply (Hpart (getElementAddress e)); [apply list_elem_of_fmap_2|].
  - intros e [Hr He]%list_elem_of_filter. by apply Hown.
Qed.

Lemma opened_release c s q :
  holds c s q →
  ∃ o' l', cont_release s = (Ok tt, mkQState o' l' (q_be s) (q_agent s)) ∧
    q_release_if_locked s = (Ok tt, mkQState o' l' (q_be s) (q_agent s)).
Proof.
  intros (_ & Hl & h & p & Ho)%holds_opened. unfold cont_release, q_release_if_locked. rewrite Hl, Ho. cbn. by do 2 eexists.
Qed.
Lemma holds_cont_address c s q : holds c s q → cont_address s = (Ok c, s).
Proof. intros (_ & _ & h & p & Ho)%holds_opened. unfold cont_address, mbind, M_bind, gets, lift. by rewrite Ho. Qed.

Lemma switch_and_dereference_spec c s q els prev :
  holds c s q → NoDup (addrs els) → (∀ a, a ∈ addrs els → ¬ part c a) →
  ∃ s', switch_and_dereference els prev s = (Ok (refused (el_refusal c prev) (q_be s) els), s') ∧ be_wf (q_be s') ∧
    committed (q_be s') c (filter (.∉ addrs (stuck c prev (q_be s) els)) q) ∧
    (∀ e, e ∈ moved c prev (q_be s) els → el_owner (q_be s') (getElementAddress e) = Some c) ∧
    same_outside (λ n, part c n ∨ n ∈ addrs (moved c prev (q_be s) els)) (q_be s) (q_be s') ∧
    m_agentAddress (q_agent s') = m_agentAddress (q_agent s).
Proof.
  intros Hh Hnd Hpart. destruct (holds_switch c s q els prev Hh Hnd Hpart) as (be1 & E1 & Hh1 & Hown1 & Hfr1).
  set (s1 := mkQState (q_obj s) (q_lock s) be1 (q_agent s)) in *.
  assert (∃ s2, (if decide (refused (el_refusal c prev) (q_be s) els = []) then mret tt
      else removeReferencesAndCommit ((λ x, getElementAddress (fst x)) <$> refused (el_refusal c prev) (q_be s) els)) s1 = (Ok tt, s2) ∧
    holds c s2 (filter (.∉ addrs (stuck c prev (q_be s) els)) q) ∧
    same_outside (part c) be1 (q_be s2) ∧ m_agentAddress (q_agent s2) = m_agentAddress (q_agent s))
    as (s2 & E2 & Hh2 & Hfr2 & Hag2).
  { case_decide as Hn.
    - apply refused_nil in Hn. exists s1. unfold stuck. rewrite Hn. split_and!; try done.
      rewrite list_filter_all; [done|]. apply Forall_forall. intros. apply not_elem_of_nil.
    - rewrite refused_addresses. exact (remove_law c s1 q _ Hh1). }
  destruct (opened_release c s2 _ Hh2) as (o' & l' & E3 & _). eexists. split.
  { unfold switch_and_dereference. mstep (holds_cont_address c s q Hh). mstep E1. mstep E2. mstep E3. reflexivity. }
  cbn [q_be q_agent]. split_and!; [apply (holds_opened c s2 _ Hh2)|by apply holds_committed| | |done].
  - intros e He. rewrite <-(Hown1 e He). apply el_owner_frame. apply Hfr2.
    apply list_elem_of_filter in He as [_ He]. apply Hpart. by apply list_elem_of_fmap_2.
  - eapply same_outside_trans; [exact Hfr1|exact Hfr2| |]; auto.
Qed.

Lemma change_owned a act h p be :
  agent_stored be a h p → being_garbage_collected p = false →
  ∃ be' h' p', executeActions dummy a act [] be = (Ok tt, be') ∧ agent_stored be' a h' p' ∧
    being_garbage_collected p' = false ∧ owned p' = owned_after (owned p) act ∧ same_outside (eq a) be be'.
Proof.
  intros Hs Hgc. destruct (executeActions_spec dummy a act [] h p be Hs Hgc) as (be' & h' & E & Hs' & _ & _ & Hfr).
  exists be', h', (agent_after [act] p). split_and!; [done|done|done|apply owned_agent_after|].
  intros n Hn. apply Hfr. congruence.
Qed.

Lemma agent_stored_frame a h p be be' :
  agent_stored be a h p → be_wf be' → be_view be' !! a = be_view be !! a → agent_stored be' a h p.
Proof. intros (_ & Ha & Hst & Ht) Hwf Hv. split_and!; try done. unfold stored. by rewrite Hv. Qed.

(** The elements that the agent gives up. *)
Lemma transferred_moved c prev be els :
  NoDup (addrs els) → transferred els (refused (el_refusal c prev) be els) = addrs (moved c prev be els).
Proof.
  intros Hnd. unfold transferred. rewrite refused_addresses. apply (filter_by_address getElementAddress). done.
Qed.

Lemma agent_lets_go c be els prev h p (s : QS) :
  let a := m_agentAddress (q_agent s) in
  NoDup (addrs els) → agent_stored (q_be s) a h p → being_garbage_collected p = false →
  ∃ be' h' p',
    (if decide (refused (el_refusal c prev) be els = [])
     then with_agent (removeBatchFromOwnership dummy (addrs els))
     else if decide (transferred els (refused (el_refusal c prev) be els) = []) then mret tt
     else with_agent (removeBatchFromOwnership dummy (transferred els (refused (el_refusal c prev) be els)))) s =
      (Ok tt, mkQState (q_obj s) (q_lock s) be' (q_agent s)) ∧
    agent_stored be' a h' p' ∧ owned p' = owned p ∖ list_to_set (addrs (moved c prev be els)) ∧ same_outside (eq a) (q_be s) be'.
Proof.
  intros a Hnd Hs Hgc.
  assert (Hrun : ∀ l, ∃ be' h' p', with_agent (removeBatchFromOwnership dummy l) s =
      (Ok tt, mkQState (q_obj s) (q_lock s) be' (q_agent s)) ∧
      agent_stored be' a h' p' ∧ owned p' = owned p ∖ list_to_set l ∧ same_outside (eq a) (q_be s) be').
  { intros l. destruct (change_owned a (RemoveBatch l) h p (q_be s) Hs Hgc) as (be' & h' & p' & E & Hs' & _ & Ho & Hfr).
    exists be', h', p'. split_and!; try done. unfold with_agent, mbind, M_bind, gets, q_store.
    unfold removeBatchFromOwnership, queueAndExecuteAction. fold a. by rewrite E. }
  rewrite transferred_moved by done. case_decide as Hn.
  - apply refused_nil in Hn. replace (moved c prev be els) with els; [apply Hrun|].
    symmetry. apply list_filter_all. apply Forall_forall. intros e He.
    destruct (el_refusal c prev be e) eqn:Hr; [|done]. exfalso. apply (not_elem_of_nil e). rewrite <-Hn.
    apply list_elem_of_filter. by rewrite Hr.
  - case_decide as Hm; [|apply Hrun]. exists (q_be s), h, p. destruct s. split_and!; try done. rewrite Hm. set_solver.
Qed.

Lemma refused_ext {A} (R : St → A → option exn) be be' l : (∀ x, x ∈ l → R be' x = R be x) → refused R be' l = refused R be l.
Proof.
  unfold refused. induction l as [|x l IH]; intros Hx; [done|]. simpl. rewrite Hx by by left.
  destruct (R be x); simpl; [f_equal|]; apply IH; intros y Hy; apply Hx; (by right).
Qed.

(** After [referenceAndSwitchOwnership], a request whose owner could be changed is
    owned by the container, which references it, and is no longer of the agent; the
    others are untouched, and the container does not reference them. *)
Lemma reference_and_switch c s0 s q els prev h p :
  let a := m_agentAddress (q_agent s) in
  getLockedAndFetched s0 = (Ok tt, s) → holds c s q → agent_stored (q_be s) a h p → being_garbage_collected p = false →
  ¬ part c a → NoDup (addrs els) → (∀ n, n ∈ addrs els → ¬ part c n ∧ n ≠ a) →
  ∃ s' h' p', referenceAndSwitchOwnership dummy prev els s0 = (Ok (refused (el_refusal c prev) (q_be s) els), s') ∧
    committed (q_be s') c (filter (.∉ addrs (stuck c prev (q_be s) els)) (q ++ addrs els)) ∧
    (∀ e, e ∈ moved c prev (q_be s) els → el_owner (q_be s') (getElementAddress e) = Some c) ∧
    agent_stored (q_be s') a h' p' ∧ owned p' = owned p ∖ list_to_set (addrs (moved c prev (q_be s) els)) ∧
    same_outside (λ n, part c n ∨ n = a ∨ n ∈ addrs (moved c prev (q_be s) els)) (q_be s) (q_be s').
Proof.
  intros a E0 Hh Hs Hgc Hpa Hnd Hels.
  destruct (add_law c s q els Hh) as (s1 & E1 & Hh1 & Hfr1 & Hag1).
  assert (Hr : ∀ e, e ∈ els → el_refusal c prev (q_be s1) e = el_refusal c prev (q_be s) e).
  { intros e He. apply el_refusal_frame. apply Hfr1. apply Hels. by apply list_elem_of_fmap_2. }
  assert (Href : refused (el_refusal c prev) (q_be s1) els = refused (el_refusal c prev) (q_be s) els) by by apply refused_ext.
  assert (moved c prev (q_be s1) els = moved c prev (q_be s) els ∧ stuck c prev (q_be s1) els = stuck c prev (q_be s) els) as [Hm Hst].
  { unfold moved, stuck. clear -Hr. induction els as [|e els IH]; [done|]. rewrite !filter_cons, Hr by by left.
    destruct IH as [-> ->]; [|done]. intros e' He'. apply Hr. by right. }
  destruct (switch_and_dereference_spec c s1 _ els prev Hh1 Hnd (λ n Hn, proj1 (Hels n Hn))) as (s2 & E2 & Hwf2 & Hc2 & Hown2 & Hfr2 & Hag2).
  rewrite Href in E2. rewrite Hst in Hc2. rewrite Hm in Hown2, Hfr2.
  assert (Hfr : same_outside (λ n, part c n ∨ n ∈ addrs (moved c prev (q_be s) els)) (q_be s) (q_be s2)).
  { eapply same_outside_trans; [exact Hfr1|exact Hfr2| |]; auto. }
  assert (Ha : ¬ a ∈ addrs (moved c prev (q_be s) els)).
  { intros (e & He & [_ Hin]%list_elem_of_filter)%list_elem_of_fmap. by apply (Hels a); [rewrite He; apply list_elem_of_fmap_2|]. }
  assert (Eag : m_agentAddress (q_agent s2) = a) by (by rewrite Hag2, Hag1).
  destruct (agent_lets_go c (q_be s) els prev h p s2 Hnd) as (be' & h' & p' & E3 & Hs3 & Ho3 & Hfr3); [|done|].
  { rewrite Eag. apply (agent_stored_frame a h p (q_be s)); [done|done|]. apply Hfr. naive_solver. }
  rewrite Eag in Hs3, Hfr3. eexists _, h', p'. split.
  { unfold referenceAndSwitchOwnership. mstep E0. mstep E1. mstep E2. mstep E3. reflexivity. }
  cbn [q_be]. split_and!; [| |done|done|].
  - eapply committed_frame; [exact Hc2|apply Hs3|]. intros n Hn. apply Hfr3. intros <-. done.
  - intros e He. rewrite <-(Hown2 e He). apply el_owner_frame. apply Hfr3. intros Heq. apply Ha.
    rewrite Heq. by apply list_elem_of_fmap_2.
  - eapply same_outside_trans; [exact Hfr|exact Hfr3| |]; naive_solver.
Qed.

(** ** From the container to the agent *)
Abbreviation paddrs := (fmap getPoppedAddress).

Lemma filter_paddrs (X : gset string) (l : list Pop) :
  paddrs (filter (λ x, getPoppedAddress x ∉ X) l) = filter (.∉ X) (paddrs l).
Proof. induction l as [|x l IH]; [done|]. rewrite fmap_cons, !filter_cons. case_decide; [rewrite fmap_cons|]; by rewrite IH. Qed.

(** The candidates keep their addresses. *)
Abbreviation same_address := (λ x x', getPoppedAddress x' = getPoppedAddress x).
Lemma updated_paddrs a c be cs rs :
  Forall2 (outcome (pop_refusal a c) same_address be) cs rs → paddrs (updated <$> zip cs rs) = paddrs cs.
Proof.
  induction 1 as [|x r cs rs Ho Hrs IH]; [done|]. cbn [zip zip_with]. rewrite !fmap_cons, IH. f_equal.
  unfold updated. simpl. unfold outcome in Ho. destruct (pop_refusal a c be x); [by rewrite Ho|]. by destruct Ho as (x' & -> & ?).
Qed.

(** The candidates become objects of the agent while the container is held. *)
Lemma take_into_agent c s q l h p :
  let a := m_agentAddress (q_agent s) in
  holds c s q → agent_stored (q_be s) a h p → being_garbage_collected p = false → ¬ part c a →
  ∃ be' h' p', let s' := mkQState (q_obj s) (q_lock s) be' (q_agent s) in
    with_agent (addBatchToOwnership dummy l) s = (Ok tt, s') ∧ holds c s' q ∧ agent_stored be' a h' p' ∧
    being_garbage_collected p' = false ∧ owned p' = owned p ∪ list_to_set l ∧ same_outside (eq a) (q_be s) be'.
Proof.
  intros a Hh Hs Hgc Hpa.
  destruct (change_owned a (AddBatch l) h p (q_be s) Hs Hgc) as (be' & h' & p' & E & Hs' & Hgc' & Ho & Hfr).
  exists be', h', p'. split_and!; try done.
  - unfold with_agent, mbind, M_bind, gets, q_store, addBatchToOwnership, queueAndExecuteAction. fold a. by rewrite E.
  - apply holds_frame; [done|apply Hs'| |done]. intros n Hn. apply Hfr. congruence.
Qed.

(** The owners of the candidates are changed while the container is held. *)
Lemma pop_switch c s q cs st :
  let a := m_agentAddress (q_agent s) in
  holds c s q → NoDup (paddrs cs) → (∀ n, n ∈ paddrs cs → ¬ part c n) →
  ∃ rs be', let s' := mkQState (q_obj s) (q_lock s) be' (q_agent s) in
    q_store (attempt_all (switchPopped st a c) cs) s = (Ok rs, s') ∧ holds c s' q ∧
    failures cs rs = refused (pop_refusal a c) (q_be s) cs ∧ paddrs (updated <$> zip cs rs) = paddrs cs ∧
    (∀ x, x ∈ cs → pop_refusal a c (q_be s) x = None → el_owner be' (getPoppedAddress x) = Some a) ∧
    same_outside (λ n, ∃ x, x ∈ cs ∧ pop_refusal a c (q_be s) x = None ∧ n = getPoppedAddress x) (q_be s) be'.
Proof.
  intros a Hh Hnd Hcs. destruct (holds_opened c s q Hh) as (Hwf & _).
  destruct (attempt_batch (switchPopped st a c) getPoppedAddress (pop_refusal a c) a el_owner same_address) with (l := cs) (be := q_be s)
    as (rs & be' & E & Hrs & Hwf' & Hown & Hfr); [apply pop_refusal_frame|apply el_owner_frame| |done|done|].
  { intros be x Hbe. exact (pop_switch_law st a c be x Hbe). }
  exists rs, be'. split_and!; [|apply holds_frame; try done| |by eapply updated_paddrs|done|done].
  - unfold q_store. by rewrite E.
  - intros n Hn. apply Hfr. intros (x & Hx & _ & ->). apply (Hcs (getPoppedAddress x)); [by apply list_elem_of_fmap_2|done].
  - by rewrite (failures_refused _ _ _ _ _ Hrs).
Qed.

(** The agent gives up the candidates that it did not get. *)
Lemma drop_from_agent (failed : list (Pop * exn)) s h p :
  let a := m_agentAddress (q_agent s) in
  agent_stored (q_be s) a h p → being_garbage_collected p = false →
  ∃ be' h' p',
    (if decide (failed = []) then mret tt else with_agent (removeBatchFromOwnership dummy (from_agent failed))) s =
      (Ok tt, mkQState (q_obj s) (q_lock s) be' (q_agent s)) ∧
    agent_stored be' a h' p' ∧ being_garbage_collected p' = false ∧
    owned p' = owned p ∖ list_to_set (from_agent failed) ∧ same_outside (eq a) (q_be s) be'.
Proof.
  intros a Hs Hgc. case_decide as Hn.
  - exists (q_be s), h, p. destruct s. split_and!; try done. rewrite Hn. set_solver.
  - destruct (change_owned a (RemoveBatch (from_agent failed)) h p (q_be s) Hs Hgc) as (be' & h' & p' & E & Hs' & Hgc' & Ho & Hfr).
    exists be', h', p'. split_and!; try done.
    unfold with_agent, mbind, M_bind, gets, q_store, removeBatchFromOwnership, queueAndExecuteAction. fold a. by rewrite E.
Qed.

(** When every failure means that the request is gone or has another owner, all the
    candidates leave the container. *)
Lemma gone_failures (failed : list (Pop * exn)) :
  Forall (λ x, verdict_of (snd x) = Gone) failed →
  not_to_dereference failed = ∅ ∧ from_agent failed = (λ x, getPoppedAddress (fst x)) <$> failed ∧
  existsb (is_verdict Unexpected) failed = false.
Proof.
  induction 1 as [|[x e] failed He Hf (E1 & E2 & E3)]; [done|]. simpl in He.
  assert (Hu : is_verdict Unexpected (x, e) = false) by (unfold is_verdict; simpl; by rewrite He).
  assert (Hl : is_verdict Unlocked (x, e) = false) by (unfold is_verdict; simpl; by rewrite He).
  unfold not_to_dereference, from_agent in *. rewrite !filter_cons. cbn [existsb].
  rewrite decide_False, decide_True by (done || congruence). rewrite !fmap_cons, E2, Hu. by split_and!.
Qed.

Section Round.
Context (c : string) (crit : Crit) (skip : gset string) (st : option Status) (trim : M QS bool) (t : list string → bool).
Hypothesis trim_law : ∀ s q, holds c s q → trim s = (Ok (t q), s).

(** A round leaves in the container the candidates that failed unexpectedly, and
    reports and gives to the agent the others whose owner could be changed. *)
Lemma pop_round_spec s q cs h p :
  let a := m_agentAddress (q_agent s) in
  let failed := refused (pop_refusal a c) (q_be s) cs in
  let q' := filter (.∉ filter (.∉ not_to_dereference failed) (paddrs cs)) q in
  holds c s q → getPoppingElementsCandidates crit skip s = (Ok cs, s) →
  agent_stored (q_be s) a h p → being_garbage_collected p = false →
  ¬ part c a → NoDup (paddrs cs) → (∀ n, n ∈ paddrs cs → ¬ part c n ∧ n ≠ a) →
  ∃ els s' h' p', pop_round dummy crit skip st trim s = (Ok (mkRound cs els failed (t q')), s') ∧
    paddrs els = filter (.∉ (list_to_set (from_agent failed) : gset string)) (paddrs cs) ∧
    committed (q_be s') c q' ∧ m_agentAddress (q_agent s') = a ∧
    (∀ x, x ∈ cs → pop_refusal a c (q_be s) x = None → el_owner (q_be s') (getPoppedAddress x) = Some a) ∧
    agent_stored (q_be s') a h' p' ∧ being_garbage_collected p' = false ∧
    owned p' = (owned p ∪ list_to_set (paddrs cs)) ∖ list_to_set (from_agent failed) ∧
    same_outside (λ n, part c n ∨ n = a ∨ ∃ x, x ∈ cs ∧ pop_refusal a c (q_be s) x = None ∧ n = getPoppedAddress x) (q_be s) (q_be s').
Proof.
  intros a failed q' Hh Ec Hs Hgc Hpa Hnd Hcs.
  assert (Hna : ∀ x, x ∈ cs → ¬ part c (getPoppedAddress x) ∧ a ≠ getPoppedAddress x).
  { intros x Hx. destruct (Hcs (getPoppedAddress x)); [by apply list_elem_of_fmap_2|]. by split. }
  destruct (take_into_agent c s q (paddrs cs) h p Hh Hs Hgc Hpa) as (be1 & h1 & p1 & E1 & Hh1 & Hs1 & Hgc1 & Ho1 & Hfr1).
  fold a in Hs1, Hfr1. set (s1 := mkQState (q_obj s) (q_lock s) be1 (q_agent s)) in *.
  assert (Hr1 : ∀ x, x ∈ cs → pop_refusal a c be1 x = pop_refusal a c (q_be s) x).
  { intros x Hx. by apply pop_refusal_frame, Hfr1, Hna. }
  destruct (pop_switch c s1 q cs st Hh1 Hnd (λ n Hn, proj1 (Hcs n Hn))) as (rs & be2 & E2 & Hh2 & Hf2 & Hu2 & Hown2 & Hfr2).
  cbn [q_agent q_be s1] in E2, Hf2, Hown2, Hfr2. fold a in E2, Hf2, Hown2, Hfr2. rewrite (refused_ext _ (q_be s) be1) in Hf2 by done.
  set (s2 := mkQState (q_obj s) (q_lock s) be2 (q_agent s)) in *.
  destruct (remove_law c s2 q (filter (.∉ not_to_dereference failed) (paddrs cs)) Hh2) as (s3 & E3 & Hh3 & Hfr3 & Hag3).
  destruct (opened_release c s3 _ Hh3) as (o4 & l4 & _ & E4). set (s4 := mkQState o4 l4 (q_be s3) (q_agent s3)) in *.
  assert (Hs4 : agent_stored (q_be s4) a h1 p1).
  { apply (agent_stored_frame a h1 p1 be1); [done|apply (holds_opened c s3 _ Hh3)|].
    cbn [q_be s4]. rewrite Hfr3 by done. apply Hfr2. intros (x & Hx & _ & Heq). by destruct (Hna x Hx). }
  assert (Eag : m_agentAddress (q_agent s4) = a) by done.
  destruct (drop_from_agent failed s4 h1 p1) as (be5 & h5 & p5 & E5 & Hs5 & Hgc5 & Ho5 & Hfr5); [by rewrite Eag|done|].
  rewrite Eag in Hs5, Hfr5. eexists _, _, h5, p5. split.
  { unfold pop_round. mstep Ec. mstep E1. mstep (eq_refl : gets q_agent s1 = (Ok (q_agent s), s1)).
    mstep (holds_cont_address c s1 q Hh1). fold a. mstep E2. rewrite Hf2. fold failed.
    mstep E3. mstep (trim_law s3 _ Hh3). mstep E4. mstep E5. reflexivity. }
  cbn [q_be q_agent]. split_and!; [|apply (committed_frame c (q_be s3)); [by apply holds_committed|apply Hs5|]|done| |done|done|by rewrite Ho5, Ho1|].
  - by rewrite filter_paddrs, Hu2.
  - intros n Hn. apply Hfr5. congruence.
  - intros x Hx Hr. destruct (Hna x Hx). rewrite (el_owner_frame be2); [by apply Hown2; [|rewrite Hr1]|].
    rewrite Hfr5 by done. by apply Hfr3.
  - intros n Hn. rewrite Hfr5, Hfr3, Hfr2, Hfr1; [done|naive_solver| |naive_solver|naive_solver].
    intros (x & Hx & Hr & ->). apply Hn. right; right. exists x. by rewrite <-Hr1.
Qed.
End Round.
End Laws.
End AlgorithmsSpec.
