(* ===== verification/QueueTraits.v ===== *)
(** * The traits of the repack queues and of the archive queues

    Model of [objectstore/RepackQueueAlgorithms.hpp], [ArchiveQueueAlgorithms.hpp] and
    of the specialisations in [ArchiveQueueTo...Algorithms.cpp]: the instances of
    [ContainerTraits] that [Algorithms.v] is used with.

    [find_no_create] is the body of both [getLockedAndFetchedNoCreate]; its loop is a
    [goto] without a bound in the code, and takes fuel here. *)
From S2P Require Import Prelude DataTypes Checksum ValueCountMap Backend ObjectOps Handles ProtoAlgorithms ArchiveQueueShard ArchiveQueue ArchiveRequest RetrieveQueue Agent Registers RootEntry AgentLife RepackRequest Helpers Algorithms.

Section FindNoCreate.
Context {B P St : Type} `{!Serializable B (ObjectHeader B), !Backend B St, !Serializable B RootEntry, !Serializable B P, !Message P}.
Context (dummy : B).
Abbreviation QM := (M (QState B P St)).
(** The look-up in the root entry, the removal of a reference, and the exceptions of
    the access to the queue and of the removal that are recovered from. *)
Context (find_address : M (REState B St) string) (remove_queue : M (REState B St) unit).
Context (recovered ignored : exn → bool).

(** The handler of a queue that could not be locked and read. *)
Definition forget_queue (root : ObjectOps B RootEntry) : QM bool :=
  root' ← q_store (exec_on root (_ ← lock (mkLock Exclusive false); fetch));
  _ ← catch (q_root root' remove_queue) (λ e, if ignored e then Some (mret tt) else None);
  _ ← q_release_if_locked;
  _ ← q_change resetAddress;
  mret false.
Definition try_no_create : QM bool :=
  root ← q_store (root_noLock dummy);
  a ← q_root root find_address;
  _ ← q_change (setAddress a);
  catch (_ ← q_release_if_locked; _ ← q_take_lock; _ ← q_self fetch; mret true)
    (λ e, if recovered e then Some (forget_queue root) else None).
Fixpoint find_no_create (fuel : nat) : QM unit :=
  match fuel with
  | O => throw OutOfFuel
  | S fuel' => got ← try_no_create; if (got : bool) then mret tt else find_no_create fuel'
  end.
End FindNoCreate.

(** ** Repack queues *)

(** [PoppedElement]: the address of the request, and what the change of its owner
    reported; before that the information is undefined. *)
Record RepackPopped := mkRepackPopped { rpe_request : string; rpe_repackInfo : option RepackOwnerInfo }.

Section RepackTraits.
Context {B St : Type} `{!Serializable B (ObjectHeader B), !Backend B St}.
Context `{!Serializable B RootEntry, !Serializable B RepackQueue, !Serializable B RepackRequest, !Serializable B Agent}.
Context (dummy : B).
Abbreviation QM := (M (QState B RepackQueue St)).

Definition rpq_missing (e : exn) : bool := match e with NoSuchObject => true | _ => false end.
Definition rpq_ignored (e : exn) : bool := match e with RepackQueueNotEmpty | NoSuchRepackQueue => true | _ => false end.
Definition rpq_find (qt : RepackQueueType) : M (REState B St) string :=
  catch (getRepackQueueAddress qt) (λ e, match e with NoSuchRepackQueue => Some (throw NoSuchContainer) | _ => None end).
Definition rpq_getLockedAndFetchedNoCreate (qt : RepackQueueType) (fuel : nat) : QM unit :=
  find_no_create dummy (rpq_find qt) (removeRepackQueueAndCommit dummy qt) rpq_missing rpq_ignored fuel.

(** The asynchronous update of the owner of a request. *)
Definition rpq_switch (newStatus : option RepackStatus) (owner previousOwner address : string) : M St (option RepackOwnerInfo) :=
  o ← lift (object_at dummy address);
  x ← run_on o (rp_asyncUpdateOwnerAndStatus owner previousOwner newStatus);
  mret (fst x).
Definition rpq_switchPopped (newStatus : option RepackStatus) (owner previousOwner : string) (e : RepackPopped) : M St RepackPopped :=
  i ← rpq_switch newStatus owner previousOwner (rpe_request e);
  mret (mkRepackPopped (rpe_request e) i).

Definition rpq_getPoppingElementsCandidates (requests : Z) (elementsToSkip : gset string) : QM (list RepackPopped) :=
  o ← gets q_obj;
  c ← lift (rq_getCandidateList requests elementsToSkip o);
  mret ((λ a, mkRepackPopped a None) <$> rq_candidates c).
Definition rpq_trimContainerIfNeeded : QM bool := o ← gets q_obj; lift (rq_isEmpty o).

#[export] Instance repack_traits (qt : RepackQueueType) (fuel : nat) :
    ContainerTraits B RepackQueue St string RepackPopped Z Z RepackStatus := {|
  getLockedAndFetched := getLockedAndFetchedRepackQueue dummy qt;
  getLockedAndFetchedNoCreate := rpq_getLockedAndFetchedNoCreate qt fuel;
  cont_fetch := q_self fetch;
  addReferencesAndCommit := λ l, q_self (addRequestsAndCommit l);
  addReferencesIfNecessaryAndCommit := λ l, q_self (addRequestsIfNecessaryAndCommit l);
  removeReferencesAndCommit := λ l, q_self (removeRequestsAndCommit l);
  getElementAddress := id;
  getPoppedAddress := rpe_request;
  switchElement := λ owner prev a, _ ← rpq_switch None owner prev a; mret tt;
  switchPopped := rpq_switchPopped;
  getPoppingElementsCandidates := rpq_getPoppingElementsCandidates;
  trimContainerIfNeeded := rpq_trimContainerIfNeeded;
  getElementSummary := λ _, 1;
  no_summary := 0;
  summary_plus := λ a b, a +u64 b;
  criteria_minus := λ c s, u64 (c - s);
  summary_less := Z.ltb |}.
End RepackTraits.

(** ** Archive queues *)

(** [SchedulerDatabase::ArchiveJob::ReportType]. *)
Inductive ArchiveReportType := NoReportRequired | CompletionReport | FailureReport | Report.
#[export] Instance ArchiveReportType_eq_dec : EqDecision ArchiveReportType.
Proof. solve_decision. Defined.

(** [InsertedElement], with the address of the request. *)
Record ArchiveInserted := mkArchiveInserted {
  ai_request : string;
  ai_copyNb : Z;
  ai_archiveFileID : Z;
  ai_fileSize : Z;
  ai_mountPolicy : option MountPolicy;
  ai_newStatus : option ArchiveJobStatus
}.
(** [PoppedElement]: what the update of the owner gathered is absent before it. *)
Record ArchivePopped := mkArchivePopped {
  ape_request : string;
  ape_copyNb : Z;
  ape_bytes : Z;
  ape_update : option JobOwnerUpdate;
  ape_latestError : string;
  ape_reportType : ArchiveReportType
}.

(** [PopCriteria] and [PoppedElementsSummary] of the queues of jobs to transfer, which
    also count bytes. *)
Record FilesBytes := mkFilesBytes { fb_files : Z; fb_bytes : Z }.
#[export] Instance FilesBytes_eq_dec : EqDecision FilesBytes.
Proof. solve_decision. Defined.
Definition fb_plus (a b : FilesBytes) : FilesBytes := mkFilesBytes (fb_files a +u64 fb_files b) (fb_bytes a +u64 fb_bytes b).
Definition fb_minus (c s : FilesBytes) : FilesBytes :=
  mkFilesBytes (u64 (fb_files c - fb_files s)) (u64 (fb_bytes c - fb_bytes s)).
(** Both counts have to be below the criteria. *)
Definition fb_less (s c : FilesBytes) : bool := (fb_bytes s <? fb_bytes c) && (fb_files s <? fb_files c).

(** [MountPolicy()]. *)
Definition no_policy : MountPolicy := mkMountPolicy "" 0 0 0 0 (mkEntryLog "" "" 0) (mkEntryLog "" "" 0) "".

Section ArchiveTraits.
Context {B St : Type} `{!Serializable B (ObjectHeader B), !Backend B St}.
Context `{!Serializable B RootEntry, !Serializable B ArchiveQueue, !Serializable B ArchiveQueueShard}.
Context `{!Serializable B ArchiveRequest, !Serializable bytes ChecksumPb, !Serializable B Agent}.
(** [tapePool] is the [ContainerIdentifier], [now] the time of the insertions. *)
Context (dummy : B) (tapePool : string) (qt : JobQueueType) (now : Z).
Abbreviation QM := (M (QState B ArchiveQueue St)).

(** An operation of the archive queue. *)
Definition on_aq {A} (m : M (AQState B St) A) : QM A := λ s,
  let '(r, s') := m (mkAQState (q_obj s) (q_lock s) (q_be s) (q_agent s)) in
  (r, mkQState (aq s') (aq_lock s') (aq_be s') (aq_agent s')).

(** The last matching entry of the dump counts. *)
Definition arq_find : M (REState B St) string :=
  aql ← dumpArchiveQueues qt;
  let aqAddress := foldl (λ a aqp, if decide (snd aqp = tapePool) then fst aqp else a) "" aql in
  if decide (aqAddress = "") then throw NoSuchContainer else mret aqAddress.
Definition arq_ignored (e : exn) : bool := match e with ArchiveQueueNotEmpty | NoSuchArchiveQueue => true | _ => false end.
Definition arq_getLockedAndFetchedNoCreate (fuel : nat) : QM unit :=
  find_no_create dummy arq_find (removeArchiveQueueAndCommit dummy tapePool qt) (λ _, true) arq_ignored fuel.

(** The queue is unlocked before it is removed; a failure of the removal is only
    logged. *)
Definition arq_trimContainerIfNeeded : QM bool :=
  b ← on_aq isEmpty;
  if negb b then mret false
  else
    _ ← cont_release;
    _ ← catch (root ← q_store (open_locked dummy Exclusive root_address);
               q_root root (removeArchiveQueueAndCommit dummy tapePool qt)) (λ _, Some (mret tt));
    mret true.

(** The status of the descriptor is not set by the code, and not read by the queue. *)
Definition arq_job_to_add (pool address : string) (e : ArchiveInserted) : JobToAdd :=
  mkJobToAdd (mkArchiveJobDump (ai_copyNb e) pool address AJS_ToTransferForUser) (ai_request e)
    (ai_archiveFileID e) (ai_fileSize e) (default no_policy (ai_mountPolicy e)) now.
Definition arq_jobs_to_add (l : list ArchiveInserted) : QM (list JobToAdd) :=
  pool ← on_aq getTapePool;
  address ← cont_address;
  mret (arq_job_to_add pool address <$> l).
Definition arq_addReferencesAndCommit (l : list ArchiveInserted) : QM unit :=
  jobs ← (if decide (l = []) then mret [] else arq_jobs_to_add l);
  on_aq (addJobsAndCommit dummy jobs).
Definition arq_addReferencesIfNecessaryAndCommit (l : list ArchiveInserted) : QM unit :=
  jobs ← (if decide (l = []) then mret [] else arq_jobs_to_add l);
  _ ← on_aq (addJobsIfNecessaryAndCommit dummy jobs); mret tt.

Definition arq_switch (copyNb : Z) (newStatus : option ArchiveJobStatus) (owner previousOwner address : string) :
    M St (option JobOwnerUpdate) :=
  o ← lift (object_at dummy address);
  x ← run_on o (asyncUpdateJobOwner copyNb owner previousOwner newStatus);
  mret (fst x).
Definition arq_switchElement (owner previousOwner : string) (e : ArchiveInserted) : M St unit :=
  _ ← arq_switch (ai_copyNb e) (ai_newStatus e) owner previousOwner (ai_request e); mret tt.
(** The report that the status of the job asks for. *)
Definition report_type (status : option ArchiveJobStatus) : ArchiveReportType :=
  match status with
  | Some AJS_ToReportToUserForTransfer => CompletionReport
  | Some AJS_ToReportToUserForFailure => FailureReport
  | _ => NoReportRequired
  end.
(** The element takes over what the update gathered. *)
Definition arq_popped (e : ArchivePopped) (u : JobOwnerUpdate) : ArchivePopped :=
  let reportType := report_type (ou_jobsStatusMap u !! ape_copyNb e) in
  mkArchivePopped (ape_request e) (ape_copyNb e) (ape_bytes e) (Some u)
    (if decide (reportType = FailureReport) then ou_latestError u else ape_latestError e) reportType.
(** There is no change of status: the algorithm that asks for one is not available
    for archive queues. *)
Definition arq_switchPopped (newStatus : option ArchiveJobStatus) (owner previousOwner : string) (e : ArchivePopped) :
    M St ArchivePopped :=
  i ← arq_switch (ape_copyNb e) None owner previousOwner (ape_request e);
  mret (match i with Some u => arq_popped e u | None => e end).

Definition arq_candidate (reportType : ArchiveReportType) (c : JobDump) : ArchivePopped :=
  mkArchivePopped (jd_address c) (jd_copyNb c) (jd_size c) None "" reportType.
Definition arq_toTransfer_candidates (criteria : FilesBytes) (elementsToSkip : gset string) : QM (list ArchivePopped) :=
  c ← on_aq (getCandidateList dummy (fb_bytes criteria) (fb_files criteria) elementsToSkip);
  mret (arq_candidate NoReportRequired <$> candidates c).
Definition arq_toReport_candidates (files : Z) (elementsToSkip : gset string) : QM (list ArchivePopped) :=
  c ← on_aq (getCandidateList dummy max_uint64 files elementsToSkip);
  mret (arq_candidate Report <$> candidates c).

(** What the queues share. *)
Definition archive_traits {Crit Sum : Type} (get : Crit → gset string → QM (list ArchivePopped)) (summary : ArchivePopped → Sum)
    (none : Sum) (plus : Sum → Sum → Sum) (minus : Crit → Sum → Crit) (less : Sum → Crit → bool) (fuel : nat) :
    ContainerTraits B ArchiveQueue St ArchiveInserted ArchivePopped Crit Sum ArchiveJobStatus := {|
  getLockedAndFetched := find_archive_queue dummy tapePool qt;
  getLockedAndFetchedNoCreate := arq_getLockedAndFetchedNoCreate fuel;
  cont_fetch := q_self fetch;
  addReferencesAndCommit := arq_addReferencesAndCommit;
  addReferencesIfNecessaryAndCommit := arq_addReferencesIfNecessaryAndCommit;
  removeReferencesAndCommit := λ l, on_aq (removeJobsAndCommit dummy l);
  getElementAddress := ai_request;
  getPoppedAddress := ape_request;
  switchElement := arq_switchElement;
  switchPopped := arq_switchPopped;
  getPoppingElementsCandidates := get;
  trimContainerIfNeeded := arq_trimContainerIfNeeded;
  getElementSummary := summary;
  no_summary := none;
  summary_plus := plus;
  criteria_minus := minus;
  summary_less := less |}.

(** The queues of jobs to transfer, and the queues of jobs to report. *)
#[export] Instance archive_transfer_traits (fuel : nat) :
    ContainerTraits B ArchiveQueue St ArchiveInserted ArchivePopped FilesBytes FilesBytes ArchiveJobStatus :=
  archive_traits arq_toTransfer_candidates (λ e, mkFilesBytes 1 (ape_bytes e)) (mkFilesBytes 0 0) fb_plus fb_minus fb_less fuel.
#[export] Instance archive_report_traits (fuel : nat) :
    ContainerTraits B ArchiveQueue St ArchiveInserted ArchivePopped Z Z ArchiveJobStatus :=
  archive_traits arq_toReport_candidates (λ _, 1) 0 (λ a b, a +u64 b) (λ c s, u64 (c - s)) Z.ltb fuel.
End ArchiveTraits.
