(* ===== verification/QueueTraitsSpec.v ===== *)
(** * The algorithms on repack queues

    The repack queues satisfy what the algorithms need, so that requests are queued
    and popped as the algorithms promise. *)
From S2P Require Import Prelude DataTypes Checksum Backend ObjectOps Handles ProtoAlgorithms ArchiveQueueShard ArchiveQueue RetrieveActivity RetrieveQueueShard RetrieveQueue Agent Registers RegistersSpec RootEntry RootEntrySpec RootEntryTheorems AgentLife RepackRequest Helpers HelpersSpec Algorithms AlgorithmsSpec QueueTraits.

Section RepackLaws.
Context {B St : Type} `{!Serializable B (ObjectHeader B), !Backend B St}.
Context `{!Serializable B RootEntry, !Serializable B RepackQueue, !Serializable B RepackRequest, !Serializable B Agent}.
Context (dummy : B) (qt : RepackQueueType) (fuel : nat).
Implicit Types (be : St) (a c prev new : string).

(** ** The change of owner of a request *)

(** Why a change of owner would be refused; the new owner and status do not matter. *)
Definition bytes_refusal prev (b : B) : option exn :=
  match rp_update_owner "" prev None b with Ok _ => None | Throw e => Some e end.
Definition repack_refusal prev be a : option exn :=
  match object_at (P:=RepackRequest) dummy a with
  | Throw e => Some e
  | Ok _ => match be_view be !! a with None => Some NoSuchObject | Some b => bytes_refusal prev b end
  end.
Definition repack_owner be a : option string := (λ x : _ * RepackRequest, h_owner (fst x)) <$> stored be a.

Lemma rp_update_owner_cases new prev st b :
  match bytes_refusal prev b with
  | Some e => rp_update_owner new prev st b = Throw e ∧ e ≠ AsyncUpdateWithDelete
  | None => ∃ h r' i, rp_update_owner new prev st b = Ok (SerializeAsString h, i) ∧ h_type h = RepackRequest_t ∧
      h_owner h = new ∧ ParseFromString (h_payload h) = Some (r' : RepackRequest)
  end.
Proof.
  unfold bytes_refusal, rp_update_owner. destruct (ParseFromString b) as [oh|]; [|done].
  case_decide; [|done]. case_decide; [|done]. destruct (ParseFromString (h_payload oh)) as [r|] eqn:Hp; [|done].
  assert (Hf : ∀ x, rp_flags (match st with Some st => rp_set_status st x | None => x end) = rp_flags x) by by destruct st.
  cbv zeta. rewrite Hf. destruct (type_of (rp_flags r)); [|done].
  destruct st; do 3 eexists; (split_and!; [done..|]); [apply parse_serialize|exact Hp].
Qed.

Lemma rpq_switch_cases st new prev be a :
  be_wf be →
  match repack_refusal prev be a with
  | Some e => rpq_switch dummy st new prev a be = (Throw e, be)
  | None => ∃ i be', rpq_switch dummy st new prev a be = (Ok (Some i), be') ∧ be_wf be' ∧
      repack_owner be' a = Some new ∧ same_outside (eq a) be be'
  end.
Proof.
  intros Hwf. unfold repack_refusal, rpq_switch. destruct (decide (a = "")) as [->|Ha]; [done|].
  rewrite object_at_ok by done. set (o := mkOps _ _ _ _ _).
  assert (Hrun : ∀ r be', asyncUpdate a (rp_update_owner new prev st) be = (r, be') →
    (x ← run_on o (rp_asyncUpdateOwnerAndStatus new prev st); mret (fst x)) be = (r, be')).
  { intros r be' E. unfold mbind, M_bind, run_on, rp_asyncUpdateOwnerAndStatus.
    unfold self, gets, lift, on_store. simpl. unfold mbind, M_bind. simpl. rewrite E. by destruct r. }
  rewrite bind_lift. destruct (be_view be !! a) as [b|] eqn:Hb; [|by apply Hrun; rewrite asyncUpdate_absent].
  pose proof (rp_update_owner_cases new prev st b) as Hc. destruct (bytes_refusal prev b) as [e|].
  - apply Hrun. destruct Hc as [E He]. by apply (asyncUpdate_throw _ _ _ b).
  - destruct Hc as (h & r' & i & E & Ht & Ho & Hp).
    destruct (asyncUpdate_ok a (rp_update_owner new prev st) be b (SerializeAsString h) i Hwf Hb E) as (be' & E' & Hwf' & Hv).
    exists i, be'. split_and!; [by apply Hrun|done| |].
    + unfold repack_owner, stored. rewrite Hv, lookup_insert_eq, parse_serialize. rewrite decide_True by done. rewrite Hp. simpl. by f_equal.
    + intros n Hn. rewrite Hv. by apply lookup_insert_ne.
Qed.

(** ** The laws *)
Definition rpq_holds c (s : QState B RepackQueue St) (l : list string) : Prop :=
  rq_holds c (q_obj s, q_be s) l ∧ q_lock s = mkLock Exclusive true.
Definition rpq_committed be c (l : list string) : Prop := be_wf be ∧ ∃ h, stored be c = Some (h, mkRepackQueue l).

Lemma rpq_run op c s l :
  rpq_holds c s l → ∃ s', q_self (rq_run op) s = (Ok tt, s') ∧ rpq_holds c s' (rq_spec op l) ∧
    same_outside (eq c) (q_be s) (q_be s') ∧ m_agentAddress (q_agent s') = m_agentAddress (q_agent s).
Proof.
  intros [Hh Hl]. destruct (rq_step c op _ l Hh) as ([o' be'] & E & Hh' & Hfr).
  exists (mkQState o' (q_lock s) be' (q_agent s)). split_and!; [|done| |done].
  - unfold q_self. by rewrite E.
  - intros n Hn. by apply Hfr.
Qed.

#[export] Instance repack_laws : ContainerLaws (T := repack_traits dummy qt fuel).
Proof.
  refine {| holds := rpq_holds; committed := rpq_committed; part := eq; el_owner := repack_owner;
    el_refusal := λ _, repack_refusal; pop_refusal := λ _ prev be x, repack_refusal prev be (rpe_request x) |}.
  - intros c s l [(Hwf & h & h' & Ho & _) Hl]. simpl in *. split_and!; eauto.
  - intros c s l [(Hwf & h & h' & _ & _ & Hst) _]. split; [done|by exists h'].
  - intros c s l be ag [(_ & h & h' & Ho & Ht & Hst) Hl] Hwf Hv _. split; [|done]. split; [done|]. exists h, h'. split_and!; try done.
    simpl in *. unfold stored. by rewrite Hv.
  - intros c be be' l [_ (h & Hst)] Hwf Hv. split; [done|]. exists h. unfold stored. by rewrite Hv.
  - intros c s l els Hh. rewrite list_fmap_id. exact (rpq_run (QAdd els) c s l Hh).
  - intros c s l d Hh. exact (rpq_run (QRemove d) c s l Hh).
  - intros be be' a Hv. unfold repack_owner, stored. by rewrite Hv.
  - intros new prev be be' e Hv. unfold repack_refusal. simpl in Hv. by rewrite Hv.
  - intros new prev be be' x Hv. unfold repack_refusal. simpl in Hv. by rewrite Hv.
  - intros new prev be a Hwf. pose proof (rpq_switch_cases None new prev be a Hwf) as Hc. simpl.
    destruct (repack_refusal prev be a); [by apply bind_throw|]. destruct Hc as (i & be' & E & H). exists be'. by mstep E.
  - intros st new prev be x Hwf. pose proof (rpq_switch_cases st new prev be (rpe_request x) Hwf) as Hc. simpl.
    unfold rpq_switchPopped. destruct (repack_refusal prev be (rpe_request x)); [by apply bind_throw|].
    destruct Hc as (i & be' & E & H). exists (mkRepackPopped (rpe_request x) (Some i)), be'. by mstep E.
Defined.

(** The requests whose owner can be changed: those owned by [prev] that have a type. *)
Definition switchable prev be a : bool :=
  match stored be a with
  | Some (h, r) => bool_decide (h_owner h = prev) && bool_decide (is_Some (type_of (rp_flags (r : RepackRequest))))
  | None => false
  end.
Lemma repack_refusal_none prev be a : a ≠ "" → repack_refusal prev be a = None ↔ switchable prev be a = true.
Proof.
  intros Ha. unfold repack_refusal, switchable, stored, bytes_refusal, rp_update_owner. rewrite object_at_ok by done.
  destruct (be_view be !! a) as [b|]; [|done]. destruct (ParseFromString b) as [h|]; [|done].
  change (payloadTypeId (P:=RepackRequest)) with RepackRequest_t. destruct (decide (h_type h = RepackRequest_t)); [|done].
  destruct (decide (h_owner h = prev)) as [Ho|Ho]; [|destruct (ParseFromString (h_payload h)); simpl; [by rewrite bool_decide_false|done]].
  destruct (ParseFromString (h_payload h)) as [r|]; [|done]. simpl. rewrite bool_decide_true by done. simpl.
  by destruct (type_of (rp_flags r)); split.
Qed.
Lemma filter_switchable prev be (els : list string) :
  "" ∉ els →
  filter (λ a, repack_refusal prev be a = None) els = filter (λ a, switchable prev be a = true) els ∧
  filter (λ a, repack_refusal prev be a ≠ None) els = filter (λ a, switchable prev be a = false) els.
Proof.
  induction els as [|a els IH]; [done|]. intros [Ha Hn]%not_elem_of_cons. destruct (IH Hn) as [E1 E2].
  rewrite !filter_cons, E1, E2. pose proof (repack_refusal_none prev be a (not_eq_sym Ha)) as Hr.
  destruct (switchable prev be a).
  - assert (repack_refusal prev be a = None) as -> by by apply Hr. done.
  - destruct (repack_refusal prev be a); [done|]. discriminate (proj1 Hr eq_refl).
Qed.

(** ** Queueing *)

(** The queue that the algorithms find: the one of the root entry with the requests
    [q], or a new one under the next identifier of the agent. *)
Definition queue_at be (ag : AgentReference) (r : RootEntry) c (q : list string) : Prop :=
  (repackqueuepointer qt r = Some c ∧ c ≠ "" ∧ c ≠ root_address ∧ ∃ h, stored be c = Some (h, mkRepackQueue q)) ∨
  (repackqueuepointer qt r = None ∧ be_view be !! c = None ∧ c = fst (nextId (repack_name_header qt) ag) ∧ q = []).

Lemma root_in_frame be be' r : root_in be r → be_wf be' → be_view be' !! root_address = be_view be !! root_address → root_in be' r.
Proof. intros [_ (h & Hst)] Hwf Hv. split; [done|]. exists h. unfold stored. by rewrite Hv. Qed.

Lemma repack_queue_locked be ag r c q :
  root_in be r → queue_at be ag r c q →
  ∃ s r', getLockedAndFetchedRepackQueue dummy qt (start (new_object dummy) be ag) = (Ok tt, s) ∧ rpq_holds c s q ∧
    root_in (q_be s) r' ∧ repackqueuepointer qt r' = Some c ∧ m_agentAddress (q_agent s) = m_agentAddress ag ∧
    c ≠ root_address ∧ same_outside (λ n, n = c ∨ n = root_address) be (q_be s).
Proof.
  intros Hr Hq. pose proof (lock_attempts_obtain dummy (repack_directory dummy qt)
    "failed to find or create and lock repack queue after 5 retries" be ag r Hr) as Ho.
  unfold obtains in Ho. destruct Hq as [(Hp & Hc & Hnr & h & Hst)|(Hp & Hn & -> & ->)]; rewrite Hp in Ho.
  - destruct (Ho Hc Hnr) as (Hf & _). exists (holding c h (mkRepackQueue q) be ag), r.
    split_and!; [exact (Hf h _ Hst)|split; [split; [apply Hr|]|done]|done|done|done|done|done].
    exists h, h. split_and!; [done|exact (stored_type _ _ _ _ Hst)|done].
  - destruct (Ho Hn) as (be' & ag' & h & E & Hr' & Hst & _ & Hag & Hfr). eexists _, _. split; [exact E|]. cbn [q_be q_agent holding].
    split_and!; [split; [split; [apply Hr'|]|done]|exact Hr'|apply repackqueuepointer_set|exact Hag| |].
    + exists h, h. split_and!; [done|exact (stored_type _ _ _ _ Hst)|done].
    + apply (qd_fresh (QueueDirectory := repack_directory dummy qt)).
    + intros n Hne. apply Hfr; intros ->; by apply Hne; auto.
Qed.

Lemma switchable_frame prev be be' a : be_view be' !! a = be_view be !! a → switchable prev be' a = switchable prev be a.
Proof. intros Hv. unfold switchable, stored. by rewrite Hv. Qed.
Lemma filter_switchable_frame prev be be' (els : list string) b :
  (∀ a, a ∈ els → be_view be' !! a = be_view be !! a) →
  filter (λ a, switchable prev be' a = b) els = filter (λ a, switchable prev be a = b) els.
Proof.
  induction els as [|a els IH]; intros Hv; [done|]. rewrite !filter_cons, IH by (intros; apply Hv; by right).
  by rewrite (switchable_frame prev be be') by (apply Hv; by left).
Qed.

(** C13: Requests are queued without being lost or owned twice.  For distinct requests
    and a queue that exists or not, [referenceAndSwitchOwnership] ends normally
    exactly for the requests owned by the previous owner and reports the others, in
    order.  The first are then owned by the queue, are referenced by it after the
    requests that it had, and are no longer in the list of the agent; the others are
    as they were, and no longer referenced by the queue.  The queue is the one that
    the root entry references, and no other object changes. *)
Theorem repack_requests_queued be ag r c q els prev h p :
  let agent := m_agentAddress ag in
  let ok := filter (λ a, switchable prev be a = true) els in
  let failed := filter (λ a, switchable prev be a = false) els in
  root_in be r → queue_at be ag r c q →
  agent_stored be agent h p → being_garbage_collected p = false → agent ≠ c → agent ≠ root_address →
  NoDup els → (∀ a, a ∈ els → a ≠ "" ∧ a ≠ c ∧ a ≠ root_address ∧ a ≠ agent) →
  ∃ result s' r' h' hq p',
    referenceAndSwitchOwnership (T := repack_traits dummy qt fuel) dummy prev els (start (new_object dummy) be ag) = (Ok result, s') ∧
    fst <$> result = failed ∧
    stored (q_be s') c = Some (hq, mkRepackQueue (filter (.∉ failed) (q ++ els))) ∧
    (∀ a, a ∈ ok → repack_owner (q_be s') a = Some c) ∧
    stored (q_be s') agent = Some (h', p') ∧ owned p' = owned p ∖ list_to_set ok ∧
    root_in (q_be s') r' ∧ repackqueuepointer qt r' = Some c ∧
    (∀ n, n ∉ [c; agent; root_address] ++ ok → be_view (q_be s') !! n = be_view be !! n).
Proof.
  intros agent ok failed Hr Hq Hs Hgc Hac Har Hnd Hels.
  destruct (repack_queue_locked be ag r c q Hr Hq) as (s & r' & E & Hh & Hr' & Hp & Hag & Hcr & Hfr).
  assert (Hv : ∀ a, a ∈ els → be_view (q_be s) !! a = be_view be !! a).
  { intros a (_ & ? & ? & _)%Hels. apply Hfr. naive_solver. }
  destruct (reference_and_switch (T := repack_traits dummy qt fuel) dummy c (start (new_object dummy) be ag) s q els prev h p)
    as (s' & h' & p' & E' & Hc' & Hown & Hs' & Ho & Hfr'); try done; rewrite ?Hag, ?list_fmap_id; try done.
  { apply (agent_stored_frame agent h p be); [done|apply Hr'|]. apply Hfr. naive_solver. }
  { intros n (_ & ? & _ & ?)%Hels. by split; [simpl; congruence|]. }
  rewrite Hag in Hs', Hfr'. fold agent in Hs', Hfr'.
  destruct (filter_switchable prev (q_be s) els) as [Em Es]; [intros Hin; by destruct (Hels "" Hin)|].
  rewrite (filter_switchable_frame prev be) in Em, Es by done. fold ok in Em. fold failed in Es.
  unfold moved in Hown, Ho, Hfr'. unfold stuck in Hc'. simpl in Hown, Ho, Hfr', Hc'. rewrite Em in Hown, Ho, Hfr'. rewrite Es in Hc'.
  rewrite !list_fmap_id in Hc'. rewrite list_fmap_id in Ho, Hfr'. destruct Hc' as [Hwf' (hq & Hst)].
  assert (Hok : ∀ a, a ∈ ok → a ∈ els) by (intros a [_ ?]%list_elem_of_filter; done).
  eexists _, s', r', h', hq, p'. split; [exact E'|]. split_and!; try done.
  - rewrite <-Es. unfold refused. clear. induction els as [|a els IH]; [done|]. simpl. rewrite filter_cons.
    destruct (repack_refusal prev (q_be s) a); simpl; [by f_equal|done].
  - apply Hs'.
  - apply (root_in_frame (q_be s)); [done|done|]. apply Hfr'. intros [?|[?|Hin%Hok%Hels]]; naive_solver.
  - intros n Hn. rewrite Hfr', Hfr; [done| |]; [|intros [Hx|[Hx|Hx]]]; set_solver.
Qed.

(** ** Popping *)
Lemma no_create_found be ag r c h (q : RepackQueue) f :
  root_in be r → repackqueuepointer qt r = Some c → c ≠ "" → stored be c = Some (h, q) →
  rpq_getLockedAndFetchedNoCreate dummy qt (S f) (start (new_object dummy) be ag) = (Ok tt, holding c h q be ag).
Proof.
  intros [Hwf (hr & Hroot)] Hp Hc Hst. unfold rpq_getLockedAndFetchedNoCreate. cbn [find_no_create].
  assert (E : try_no_create dummy (rpq_find qt) (removeRepackQueueAndCommit dummy qt) rpq_missing rpq_ignored
    (start (new_object dummy) be ag) = (Ok true, holding c h q be ag)); [|by mstep E].
  unfold try_no_create. rewrite (bind_ok _ _ _ (read_root hr r) (start (new_object dummy) be ag)); last first.
  { unfold q_store. cbn [q_be start]. unfold root_noLock. by rewrite read_root_ok with (r:=r) (h:=hr). }
  rewrite (bind_ok _ _ _ c (start (new_object dummy) be ag)); last first.
  { unfold q_root, rpq_find, getRepackQueueAddress, catch. unfold mbind, M_bind. simpl. by rewrite Hp. }
  rewrite (bind_ok _ _ _ tt (start (named_at c (new_object dummy)) be ag)); last first.
  { unfold q_change, setAddress. cbn. by rewrite decide_False. }
  apply catch_ok. mstep (eq_refl : q_release_if_locked (start (named_at c (new_object (P:=RepackQueue) dummy)) be ag) = (Ok tt, _)).
  by apply take_ok.
Qed.
Lemma no_create_missing be ag r f :
  root_in be r → repackqueuepointer qt r = None →
  rpq_getLockedAndFetchedNoCreate dummy qt (S f) (start (new_object dummy) be ag) =
    (Throw NoSuchContainer, start (new_object dummy) be ag).
Proof.
  intros [Hwf (hr & Hroot)] Hp. unfold rpq_getLockedAndFetchedNoCreate. cbn [find_no_create]. apply bind_throw.
  unfold try_no_create. rewrite (bind_ok _ _ _ (read_root hr r) (start (new_object dummy) be ag)); last first.
  { unfold q_store. cbn [q_be start]. unfold root_noLock. by rewrite read_root_ok with (r:=r) (h:=hr). }
  apply bind_throw. unfold q_root, rpq_find, getRepackQueueAddress, catch. unfold mbind, M_bind. simpl. by rewrite Hp.
Qed.

(** The candidates: the first requests of the queue. *)
Definition candidate a : RepackPopped := mkRepackPopped a None.
Lemma candidates_held c s q n skip :
  rpq_holds c s q → 1 <= n < 2 ^ 64 → Z.of_nat (length q) < 2 ^ 64 →
  rpq_getPoppingElementsCandidates n skip s = (Ok (candidate <$> take (Z.to_nat n) q), s).
Proof.
  intros [(_ & h & h' & Ho & _) _] Hn Hq. simpl in Ho. unfold rpq_getPoppingElementsCandidates.
  mstep (eq_refl : gets q_obj s = (Ok (q_obj s), s)). rewrite Ho. unfold rq_getCandidateList. cbn [mbind result_bind].
  rewrite (eq_refl : checkPayloadReadable (opened Exclusive c h (mkRepackQueue q)) = Ok tt). cbn [result_bind mbind]. rewrite bind_lift.
  cbn [rq_candidates m_payload opened rq_pointers]. rewrite rq_candidate_loop_spec by lia. by replace (Z.max 1 (n - 0)) with n by lia.
Qed.
Lemma trim_held c s q : rpq_holds c s q → rpq_trimContainerIfNeeded s = (Ok (bool_decide (q = [])), s).
Proof.
  intros [(_ & h & h' & Ho & _) _]. simpl in Ho. unfold rpq_trimContainerIfNeeded.
  mstep (eq_refl : gets q_obj s = (Ok (q_obj s), s)). by rewrite Ho.
Qed.

(** A reference is current, or its request is gone or has another owner. *)
Definition current_or_stale c be a : Prop :=
  switchable c be a = true ∨ be_view be !! a = None ∨ ∃ h (r : RepackRequest), stored be a = Some (h, r) ∧ h_owner h ≠ c.
Lemma stale_gone c be a e : a ≠ "" → current_or_stale c be a → repack_refusal c be a = Some e → verdict_of e = Gone.
Proof.
  intros Ha [Hs|[Hn|(h & r & Hst & Ho)]]; [apply repack_refusal_none in Hs; [congruence|done]|..];
    unfold repack_refusal; rewrite object_at_ok by done.
  - rewrite Hn. by intros [= <-].
  - apply stored_view in Hst as (b & -> & Hp & Ht & _). unfold bytes_refusal, rp_update_owner. rewrite Hp.
    rewrite decide_True, decide_False by done. by intros [= <-].
Qed.

(** The failures of a batch of candidates. *)
Abbreviation current c be := (filter (λ a, switchable c be a = true)).
Abbreviation outdated c be := (filter (λ a, switchable c be a = false)).
Lemma failed_candidates new c be (l : list string) :
  "" ∉ l → (∀ a, a ∈ l → current_or_stale c be a) →
  let failed := refused (pop_refusal (T := repack_traits dummy qt fuel) new c) be (candidate <$> l) in
  not_to_dereference (T := repack_traits dummy qt fuel) failed = ∅ ∧
  from_agent (T := repack_traits dummy qt fuel) failed = outdated c be l ∧
  existsb (is_verdict Unexpected) failed = false ∧ (failed = [] ↔ outdated c be l = []).
Proof.
  intros Hn Hl failed.
  destruct (gone_failures (T := repack_traits dummy qt fuel) failed) as (E1 & E2 & E3).
  { apply Forall_forall. intros [x e] (y & (a & -> & Ha)%list_elem_of_fmap & Hx)%list_elem_of_omap. simpl in Hx.
    apply fmap_Some in Hx as (e' & He & [= -> ->]). simpl. apply (stale_gone c be a); [by intros ->|by apply Hl|exact He]. }
  assert (Ef : (λ x, rpe_request (fst x)) <$> failed = outdated c be l).
  { rewrite <-(proj2 (filter_switchable c be l Hn)). unfold failed, refused. clear. induction l as [|a l IH]; [done|].
    rewrite fmap_cons. simpl. rewrite filter_cons. destruct (repack_refusal c be a); simpl; [by f_equal|done]. }
  split_and!; [done|by rewrite E2|done|]. rewrite <-Ef. by destruct failed.
Qed.

(** The store while requests are popped from the queue [c], which references [q]. *)
Record pop_ready be (ag : AgentReference) c (q : list string) : Prop := {
  pr_root : ∃ r, root_in be r ∧ repackqueuepointer qt r = Some c;
  pr_queue : ∃ h, stored be c = Some (h, mkRepackQueue q);
  pr_address : c ≠ "" ∧ c ≠ root_address;
  pr_agent : m_agentAddress ag ≠ c ∧ m_agentAddress ag ≠ root_address;
  pr_NoDup : NoDup q;
  pr_length : Z.of_nat (length q) < 2 ^ 64;
  pr_requests a : a ∈ q → a ≠ "" ∧ a ≠ c ∧ a ≠ root_address ∧ a ≠ m_agentAddress ag ∧ current_or_stale c be a
}.
Definition agent_ready be a (p : Agent) : Prop := being_garbage_collected p = false ∧ ∃ h, agent_stored be a h p.

Lemma filter_take_NoDup (q : list string) k : NoDup q → filter (.∉ take k q) q = drop k q.
Proof.
  revert k. induction q as [|x q IH]; intros k Hnd; [by rewrite drop_nil|]. apply NoDup_cons in Hnd as [Hx Hnd].
  destruct k as [|k]; simpl.
  - rewrite list_filter_all; [done|]. apply Forall_forall. intros y _. apply not_elem_of_nil.
  - rewrite filter_cons, decide_False by (intros Hn; apply Hn; by left). rewrite <-IH by done.
    assert (Hsub : ∀ l, l ⊆ q → filter (.∉ x :: take k q) l = filter (.∉ take k q) l); [|by apply Hsub].
    induction l as [|y l IHl]; intros Hs; [done|]. rewrite !filter_cons, IHl by (intros z Hz; apply Hs; by right).
    assert (y ≠ x) by (intros ->; apply Hx, Hs; by left).
    destruct (decide (y ∉ take k q)); [rewrite decide_True by set_solver|rewrite decide_False by set_solver]; done.
Qed.

(** Counting one by one in 64 bits. *)
Lemma count_up {A} (l : list A) d : 0 <= d → d + Z.of_nat (length l) < 2 ^ 64 → foldl (λ s (_ : A), s +u64 1) d l = d + Z.of_nat (length l).
Proof.
  revert d. induction l as [|x l IH]; intros d Hd Hl; cbn [foldl length] in *; [lia|].
  rewrite u64_small by (unfold in_u64; lia). rewrite IH by lia. lia.
Qed.
Lemma count_down {A} (l : list A) d : d < 2 ^ 64 → Z.of_nat (length l) <= d → foldl (λ s (_ : A), u64 (s - 1)) d l = d - Z.of_nat (length l).
Proof.
  revert d. induction l as [|x l IH]; intros d Hd Hl; cbn [foldl length] in *; [lia|].
  rewrite u64_small by (unfold in_u64; lia). rewrite IH by lia. lia.
Qed.

(** Requests that are not touched keep their standing. *)
Lemma current_or_stale_frame c be be' a : be_view be' !! a = be_view be !! a → current_or_stale c be a → current_or_stale c be' a.
Proof.
  intros Hv. unfold current_or_stale. rewrite (switchable_frame c be be') by done. rewrite Hv.
  assert (stored (P:=RepackRequest) be' a = stored be a) as -> by (unfold stored; by rewrite Hv). done.
Qed.
Lemma pop_ready_frame be be' ag ag' c q q' :
  pop_ready be ag c q → be_wf be' → m_agentAddress ag' = m_agentAddress ag → (∃ h, stored be' c = Some (h, mkRepackQueue q')) →
  NoDup q' → q' ⊆ q → Z.of_nat (length q') < 2 ^ 64 → be_view be' !! root_address = be_view be !! root_address →
  (∀ a, a ∈ q' → be_view be' !! a = be_view be !! a) → pop_ready be' ag' c q'.
Proof.
  intros [(r & Hr & Hp) _ Hc Ha _ _ Hq] Hwf Hag Hst Hnd Hsub Hlen Hroot Hv. split; rewrite ?Hag; try done.
  - exists r. split; [by eapply root_in_frame|done].
  - intros a Hin. destruct (Hq a (Hsub a Hin)) as (? & ? & ? & ? & Hs). split_and!; try done.
    apply (current_or_stale_frame c be); [by apply Hv|done].
Qed.

Lemma current_filter c be (l : list string) :
  NoDup l → filter (.∉ (list_to_set (outdated c be l) : gset string)) l = current c be l.
Proof.
  intros Hnd. pose proof (filter_by_address id (λ a, switchable c be a = true) l) as H. rewrite !list_fmap_id in H.
  rewrite <-(H Hnd). by rewrite (list_filter_iff (λ a, ¬ switchable c be a = true) (λ a, switchable c be a = false) l)
    by (intros; apply not_true_iff_false).
Qed.

Abbreviation round n skip := (pop_round (T := repack_traits dummy qt fuel) dummy n skip None rpq_trimContainerIfNeeded).

Lemma repack_round be ag c q h n skip p :
  pop_ready be ag c q → stored be c = Some (h, mkRepackQueue q) → agent_ready be (m_agentAddress ag) p → 1 <= n < 2 ^ 64 →
  let l := take (Z.to_nat n) q in let q' := drop (Z.to_nat n) q in
  ∃ els failed s' p',
    round n skip (holding c h (mkRepackQueue q) be ag) = (Ok (mkRound (candidate <$> l) els failed (bool_decide (q' = []))), s') ∧
    rpe_request <$> els = current c be l ∧ (failed = [] ↔ outdated c be l = []) ∧
    not_to_dereference (T := repack_traits dummy qt fuel) failed = ∅ ∧ existsb (is_verdict Unexpected) failed = false ∧
    pop_ready (q_be s') (q_agent s') c q' ∧ agent_ready (q_be s') (m_agentAddress ag) p' ∧ m_agentAddress (q_agent s') = m_agentAddress ag ∧
    owned p' = (owned p ∪ list_to_set l) ∖ list_to_set (outdated c be l) ∧
    (∀ a, a ∈ current c be l → repack_owner (q_be s') a = Some (m_agentAddress ag)) ∧
    same_outside (λ a, a = c ∨ a = m_agentAddress ag ∨ a ∈ current c be l) be (q_be s').
Proof.
  intros Hrd Hst (Hgc & ha & Hs) Hn l q'. pose proof Hrd as [(r & Hr & Hp) _ [Hc Hcr] [Hac Har] Hnd Hlen Hq].
  assert (Hl : ∀ a, a ∈ l → a ∈ q) by (intros a Ha; rewrite <-(take_drop (Z.to_nat n) q); apply elem_of_app; by left).
  assert (Hsub : q' ⊆ q) by (intros a Ha; rewrite <-(take_drop (Z.to_nat n) q); apply elem_of_app; by right).
  assert (NoDup l ∧ (∀ a, a ∈ l → a ∉ q') ∧ NoDup q') as (Hndl & Hdisj & Hndq) by (apply NoDup_app; unfold l, q'; by rewrite take_drop).
  assert (Hh : rpq_holds c (holding c h (mkRepackQueue q) be ag) q).
  { split; [|done]. split; [apply Hr|]. exists h, h. split_and!; [done|exact (stored_type _ _ _ _ Hst)|done]. }
  assert (Ep : rpe_request <$> (candidate <$> l) = l) by (rewrite <-list_fmap_compose; apply list_fmap_id).
  destruct (failed_candidates (m_agentAddress ag) c be l) as (F1 & F2 & F3 & F4).
  { intros Hin. by destruct (Hq "" (Hl _ Hin)). } { intros a Ha. by apply Hq, Hl. }
  destruct (pop_round_spec (T := repack_traits dummy qt fuel) (L := repack_laws) dummy c n skip None rpq_trimContainerIfNeeded (λ q, bool_decide (q = []))
    (trim_held c) (holding c h (mkRepackQueue q) be ag) q (candidate <$> l) ha p) as (els & s' & h' & p' & E & He & Hc' & Hag & Hown & Hs' & Hgc' & Ho & Hfr);
    try done.
  { by apply candidates_held with (c := c). }
  { simpl. by rewrite Ep. }
  { simpl. rewrite Ep. intros a Ha. destruct (Hq a (Hl a Ha)) as (_ & ? & _ & ? & _). by split; [congruence|]. }
  cbn [q_be q_agent holding] in *. simpl in He, Hc', E, Ho. rewrite Ep in He, Hc', E, Ho. simpl in F1, F2. rewrite F2 in He, Ho.
  assert (Eq : ∀ X : gset string, X = ∅ → filter (.∉ filter (.∉ X) l) q = q').
  { intros X ->. rewrite (list_filter_all (.∉ (∅ : gset string)) l) by (apply Forall_forall; intros; apply not_elem_of_empty). by apply filter_take_NoDup. }
  rewrite (Eq _ F1) in E, Hc'. rewrite current_filter in He by done.
  assert (Hfr' : same_outside (λ a, a = c ∨ a = m_agentAddress ag ∨ a ∈ current c be l) be (q_be s')).
  { intros a Ha. apply Hfr. intros [->|[->|(x & (y & -> & Hy)%list_elem_of_fmap & Hr' & ->)]]; apply Ha; auto.
    right; right. apply list_elem_of_filter. split; [|done]. apply repack_refusal_none in Hr'; [done|]. by apply Hq, Hl. }
  assert (Hcl : ∀ a, a ∈ current c be l → a ∈ l) by (intros a [_ ?]%list_elem_of_filter; done).
  eexists els, _, s', p'. split; [exact E|]. split_and!; try done.
  - destruct Hc' as [Hwf' Hst']. apply (pop_ready_frame be _ ag _ c q); try done.
    + unfold q'. rewrite length_drop. lia.
    + apply Hfr'. intros [?|[?|Hin%Hcl%Hl%Hq]]; naive_solver.
    + intros a Ha. destruct (Hq a (Hsub a Ha)) as (_ & ? & _ & ? & _). apply Hfr'. intros [?|[?|Hin%Hcl]]; [done|done|].
      by apply (Hdisj a).
  - split; [done|by exists h'].
  - intros a [Hsw Ha]%list_elem_of_filter. apply (Hown (candidate a)); [by apply list_elem_of_fmap_2|].
    apply repack_refusal_none; [|done]. by apply Hq, Hl.
Qed.

(** The counts after a round. *)
Lemma round_counts c be (l : list string) els failed t d n :
  rpe_request <$> els = current c be l → (failed = [] ↔ outdated c be l = []) →
  0 <= d → d + Z.of_nat (length l) <= n → n < 2 ^ 64 →
  let x := mkRound (candidate <$> l) els failed t in
  add_round (T := repack_traits dummy qt fuel) d x = d + Z.of_nat (length els) ∧
  subtract_round (T := repack_traits dummy qt fuel) (n - d) x = n - (d + Z.of_nat (length els)).
Proof.
  intros He Hf Hd Hl Hn x. assert (Hlen : length els = length (current c be l)) by (rewrite <-He; by rewrite length_fmap).
  pose proof (length_filter (λ a, switchable c be a = true) l) as Hle.
  unfold add_round, subtract_round, total. cbn [pr_failed pr_candidates pr_elements x]. case_decide as E; simpl.
  - apply Hf in E. assert (length els = length l).
    { rewrite Hlen. f_equal. apply list_filter_all. apply Forall_forall. intros a Ha.
      destruct (switchable c be a) eqn:Hs; [done|]. exfalso. apply (not_elem_of_nil a). rewrite <-E. by apply list_elem_of_filter. }
    rewrite count_up, length_fmap by (rewrite ?length_fmap; lia). rewrite !u64_small by (unfold in_u64; lia). lia.
  - rewrite count_up, count_down by lia. lia.
Qed.

(** What the loop has done when it ends, from the state [s]: the references [pre] have
    left the queue, and [els] are those that were current. *)
Definition popped c (s : QState B RepackQueue St) (p : Agent) (q pre : list string) (els : list RepackPopped) (s' : QState B RepackQueue St) (q' : list string) (p' : Agent) : Prop :=
  let a := m_agentAddress (q_agent s) in
  q = pre ++ q' ∧ rpe_request <$> els = current c (q_be s) pre ∧ pop_ready (q_be s') (q_agent s') c q' ∧
  m_agentAddress (q_agent s') = a ∧ agent_ready (q_be s') a p' ∧
  owned p' = (owned p ∪ list_to_set pre) ∖ list_to_set (outdated c (q_be s) pre) ∧
  (∀ x, x ∈ current c (q_be s) pre → repack_owner (q_be s') x = Some a) ∧
  same_outside (λ n, n = c ∨ n = a ∨ n ∈ current c (q_be s) pre) (q_be s) (q_be s').

Lemma owned_trans (O X1 X2 D1 D2 : gset string) :
  D1 ## X2 → ((O ∪ X1) ∖ D1 ∪ X2) ∖ D2 = (O ∪ (X1 ∪ X2)) ∖ (D1 ∪ D2).
Proof. set_solver. Qed.

Lemma popped_trans c s p q pre1 els1 s1 q1 p1 pre2 els2 s2 q2 p2 :
  pop_ready (q_be s) (q_agent s) c q →
  popped c s p q pre1 els1 s1 q1 p1 → popped c s1 p1 q1 pre2 els2 s2 q2 p2 →
  popped c s p q (pre1 ++ pre2) (els1 ++ els2) s2 q2 p2.
Proof.
  intros Hrd (-> & He1 & _ & Ha1 & _ & Ho1 & Hw1 & Hf1) (-> & He2 & Hr2 & Ha2 & Hg2 & Ho2 & Hw2 & Hf2).
  rewrite Ha1 in *. destruct Hrd as [_ _ _ _ Hnd _ Hq]. apply NoDup_app in Hnd as (Hnd1 & Hdisj & _).
  assert (Hv : ∀ a, a ∈ pre2 → be_view (q_be s1) !! a = be_view (q_be s) !! a).
  { intros a Ha. apply Hf1. destruct (Hq a) as (_ & ? & _ & ? & _); [set_solver|].
    intros [?|[?|[_ Hin]%list_elem_of_filter]]; [done|done|]. set_solver. }
  rewrite (filter_switchable_frame c (q_be s)) in He2, Ho2, Hw2, Hf2 by done.
  assert (Hf : same_outside (λ n, n = c ∨ n = m_agentAddress (q_agent s) ∨ n ∈ current c (q_be s) (pre1 ++ pre2)) (q_be s) (q_be s2)).
  { eapply same_outside_trans; [exact Hf1|exact Hf2| |]; intros n; rewrite filter_app, elem_of_app; naive_solver. }
  unfold popped. rewrite fmap_app, !filter_app, !list_to_set_app_L. split_and!; try done.
  - by rewrite app_assoc.
  - by rewrite He1, He2.
  - rewrite Ho2, Ho1. apply owned_trans. intros x. rewrite !elem_of_list_to_set. intros [_ Hx]%list_elem_of_filter Hx2.
    apply (Hdisj x Hx). apply elem_of_app. by left.
  - intros x [Hx|Hx]%elem_of_app; [|by apply Hw2]. rewrite <-(Hw1 x Hx). unfold repack_owner, stored. rewrite Hf2; [done|].
    apply list_elem_of_filter in Hx as [_ Hx]. destruct (Hq x) as (_ & ? & _ & ? & _); [set_solver|].
    intros [?|[?|[_ Hin]%list_elem_of_filter]]; [done|done|]. apply (Hdisj x Hx). set_solver.
  - rewrite filter_app in Hf. exact Hf.
Qed.

Abbreviation rounds := (pop_rounds (T := repack_traits dummy qt fuel) dummy).

(** The loop ends: a round takes at least one reference of a queue that is not empty,
    and an empty queue ends it. *)
Lemma pop_loop c n f s q d skip acc p :
  (0 < fuel)%nat → pop_ready (q_be s) (q_agent s) c q → agent_ready (q_be s) (m_agentAddress (q_agent s)) p →
  0 <= d < n → n < 2 ^ 64 → (length q < f)%nat →
  ∃ pre els s' q' p', rounds f n (n - d) skip acc d s = (Ok (acc ++ els, d + Z.of_nat (length els)), s') ∧
    popped c s p q pre els s' q' p' ∧ d + Z.of_nat (length els) <= n ∧ (d + Z.of_nat (length els) = n ∨ q' = []).
Proof.
  intros Hfuel. revert s q d skip acc p. induction f as [|f IH]; intros s q d skip acc p Hrd Hag Hd Hn Hf; [lia|].
  pose proof Hrd as [(r & Hr & Hp) (h & Hst) [Hc _] _ _ Hlen _].
  destruct (repack_round (q_be s) (q_agent s) c q h (n - d) skip p Hrd Hst Hag) as (els & failed & s1 & p1 & E & He & Hfl & Hnd & Hun & Hrd1 & Hag1 & Ha1 & Ho1 & Hw1 & Hf1); [lia|].
  set (l := take (Z.to_nat (n - d)) q) in *. set (q1 := drop (Z.to_nat (n - d)) q) in *.
  assert (Hll : d + Z.of_nat (length l) <= n) by (unfold l; rewrite length_take; lia).
  destruct (round_counts c (q_be s) l els failed (bool_decide (q1 = [])) d n He Hfl) as [Eadd Esub]; [lia..|].
  assert (Hpop : popped c s p q l els s1 q1 p1) by (split; [unfold l, q1; by rewrite take_drop|by split_and!]).
  assert (Elen : (length els ≤ length l)%nat).
  { rewrite <-(length_fmap rpe_request els), He. apply length_filter. }
  assert (Eround : rounds (S f) n (n - d) skip acc d s =
    if bool_decide (q1 = []) && bool_decide (failed = []) then (Ok (acc ++ els, d + Z.of_nat (length els)), s1)
    else rounds f n (n - (d + Z.of_nat (length els))) (skip ∪ ∅) (acc ++ els) (d + Z.of_nat (length els)) s1).
  { cbn [pop_rounds]. cbn [summary_less repack_traits]. rewrite (proj2 (Z.ltb_lt _ _)) by lia.
    mstep (eq_refl : fresh_container dummy s = (Ok tt, start (new_object dummy) (q_be s) (q_agent s))).
    destruct fuel as [|k]; [lia|]. erewrite bind_ok; [|apply catch_ok; erewrite bind_ok; [|by eapply no_create_found]; reflexivity].
    cbn [negb]. mstep E. cbn [pr_elements pr_failed pr_trimmed]. rewrite Hun, Hnd, Eadd, Esub. simpl. by destruct (_ && _). }
  rewrite Eround. destruct (bool_decide (q1 = []) && bool_decide (failed = [])) eqn:Ed.
  { apply andb_true_iff in Ed as [Hq1%bool_decide_eq_true _]. exists l, els, s1, q1, p1. split_and!; [done|done|lia|by right]. }
  assert (Hlt : (length q1 < length q)%nat).
  { unfold q1. rewrite length_drop. destruct q as [|a q]; [|simpl; lia]. exfalso. apply not_true_iff_false in Ed. apply Ed.
    apply andb_true_iff. rewrite !bool_decide_eq_true, Hfl. unfold q1, l. by rewrite drop_nil, take_nil. }
  destruct (Z.ltb_spec (d + Z.of_nat (length els)) n) as [Hless|Hge].
  - destruct (IH s1 q1 (d + Z.of_nat (length els)) (skip ∪ ∅) (acc ++ els) p1 Hrd1) as (pre2 & els2 & s2 & q2 & p2 & E2 & Hpop2 & Hmax & Hend); [by rewrite Ha1|lia..|].
    exists (l ++ pre2), (els ++ els2), s2, q2, p2. rewrite E2, length_app, <-app_assoc. split; [do 3 f_equal; lia|].
    split_and!; [by eapply popped_trans|lia|destruct Hend; [left; lia|by right]].
  - exists l, els, s1, q1, p1. split; [|split_and!; [done|lia|left; lia]]. destruct f as [|f]; cbn [pop_rounds summary_less repack_traits].
    all: by rewrite (proj2 (Z.ltb_ge _ _)) by lia.
Qed.

(** A queue that the root entry does not reference gives an empty batch. *)
Lemma pop_no_queue s r n f :
  (0 < fuel)%nat → (0 < f)%nat → root_in (q_be s) r → repackqueuepointer qt r = None → 0 < n →
  popNextBatch (T := repack_traits dummy qt fuel) dummy f n s = (Ok ([], 0), start (new_object dummy) (q_be s) (q_agent s)).
Proof.
  intros Hfuel Hf Hr Hp Hn. unfold popNextBatch. destruct f as [|f]; [lia|]. cbn [pop_rounds summary_less repack_traits no_summary].
  rewrite (proj2 (Z.ltb_lt _ _)) by lia. destruct fuel as [|k]; [lia|].
  mstep (eq_refl : fresh_container dummy s = (Ok tt, start (new_object dummy) (q_be s) (q_agent s))).
  erewrite bind_ok; [|eapply catch_throw; [apply bind_throw; by eapply no_create_missing|reflexivity]]. done.
Qed.

(** C27: Popping from a repack queue ends and returns the first [n] requests that the
    queue owns, in order, with their number.  It takes the references of the queue
    from the front until it has them, or until the queue is empty, and leaves the
    rest in place; a reference taken whose request is gone or has another owner is
    dropped.  Every request returned is owned by the agent, in its object and in
    its list; the list of the agent also loses the dropped references, even one
    that it had before.  Nothing else changes. *)
Theorem repack_requests_popped s c q n p f :
  let agent := m_agentAddress (q_agent s) in
  (0 < fuel)%nat → pop_ready (q_be s) (q_agent s) c q → agent_ready (q_be s) agent p →
  0 <= n < 2 ^ 64 → (length q < f)%nat →
  ∃ els taken rest s' h p',
    popNextBatch (T := repack_traits dummy qt fuel) dummy f n s = (Ok (els, Z.of_nat (length els)), s') ∧
    rpe_request <$> els = take (Z.to_nat n) (current c (q_be s) q) ∧
    q = taken ++ rest ∧ current c (q_be s) taken = rpe_request <$> els ∧
    stored (q_be s') c = Some (h, mkRepackQueue rest) ∧
    (∀ a, a ∈ rpe_request <$> els → repack_owner (q_be s') a = Some agent) ∧
    agent_ready (q_be s') agent p' ∧ owned p' = (owned p ∪ list_to_set taken) ∖ list_to_set (outdated c (q_be s) taken) ∧
    (∀ a, a ∉ [c; agent] ++ (rpe_request <$> els) → be_view (q_be s') !! a = be_view (q_be s) !! a).
Proof.
  intros agent Hfuel Hrd Hag Hn Hf. unfold popNextBatch. cbn [no_summary repack_traits].
  destruct (decide (n = 0)) as [->|Hn0].
  { destruct (pr_queue _ _ _ _ Hrd) as (h & Hst). exists [], [], q, s, h, p.
    split; [by destruct f|]. split_and!; try done; [intros a Ha; by apply not_elem_of_nil in Ha|simpl; set_solver]. }
  destruct (pop_loop c n f s q 0 ∅ [] p Hfuel Hrd Hag) as (pre & els & s' & q' & p' & E & Hpop & Hmax & Hend); [lia..|].
  rewrite Z.sub_0_r in E. destruct Hpop as (-> & He & Hrd' & Ha' & Hag' & Ho & Hw & Hfr).
  destruct (pr_queue _ _ _ _ Hrd') as (h & Hst). exists els, pre, q', s', h, p'.
  rewrite He. split_and!; try done.
  - rewrite filter_app. assert (Hlen : length (current c (q_be s) pre) = length els) by by rewrite <-He, length_fmap.
    destruct Hend as [Hend| ->]; [rewrite take_app_length' by lia; done|]. by rewrite app_nil_r, take_ge by lia.
  - intros a Ha. apply Hfr. intros Hin. apply Ha. set_solver.
Qed.
End RepackLaws.
