(* ===== verification/QueueTraitsExamples.v ===== *)
(** * Requests queued and popped in the file system backend

    Witnesses and runs of the algorithms on repack queues and on archive queues. *)
From S2P Require Import Prelude DataTypes Checksum Backend ObjectOps Handles ProtoAlgorithms ArchiveFile ArchiveQueueShard ArchiveQueue ArchiveRequest ArchiveRequestExamples RetrieveQueue Agent Registers RegistersSpec RootEntry RootEntrySpec AgentLife RepackRequest Helpers HelpersSpec Algorithms AlgorithmsSpec QueueTraits QueueTraitsSpec.
Import Blob.
#[local] Existing Instance demo_codec.

(** The messages of the example. *)
Inductive qmsg :=
  QRoot (x : RootEntry) | QRepackQueue (x : RepackQueue) | QRepack (x : RepackRequest) | QAgent (x : Agent)
| QArchiveQueue (x : ArchiveQueue) | QShard (x : ArchiveQueueShard) | QArchive (x : ArchiveRequest) | QNone.
#[export] Program Instance OneOf_q_root : OneOf qmsg RootEntry := {|
  inj_msg := QRoot; proj_msg m := match m with QRoot x => Some x | _ => None end |}.
Solve All Obligations with done.
#[export] Program Instance OneOf_q_queue : OneOf qmsg RepackQueue := {|
  inj_msg := QRepackQueue; proj_msg m := match m with QRepackQueue x => Some x | _ => None end |}.
Solve All Obligations with done.
#[export] Program Instance OneOf_q_repack : OneOf qmsg RepackRequest := {|
  inj_msg := QRepack; proj_msg m := match m with QRepack x => Some x | _ => None end |}.
Solve All Obligations with done.
#[export] Program Instance OneOf_q_agent : OneOf qmsg Agent := {|
  inj_msg := QAgent; proj_msg m := match m with QAgent x => Some x | _ => None end |}.
Solve All Obligations with done.
#[export] Program Instance OneOf_q_archive_queue : OneOf qmsg ArchiveQueue := {|
  inj_msg := QArchiveQueue; proj_msg m := match m with QArchiveQueue x => Some x | _ => None end |}.
Solve All Obligations with done.
#[export] Program Instance OneOf_q_shard : OneOf qmsg ArchiveQueueShard := {|
  inj_msg := QShard; proj_msg m := match m with QShard x => Some x | _ => None end |}.
Solve All Obligations with done.
#[export] Program Instance OneOf_q_archive : OneOf qmsg ArchiveRequest := {|
  inj_msg := QArchive; proj_msg m := match m with QArchive x => Some x | _ => None end |}.
Solve All Obligations with done.
Abbreviation qb := (blob qmsg).
Definition q_dummy : qb := BHdr GenericObject_t 0 "" "" (BMsg QNone).

(** Two repack requests of the agent, one that another agent owns; the queue holds
    a request of its own and a reference to one that is gone. *)
Definition ex_repack (vid : string) : RepackRequest :=
  mkRepackRequest vid "buffer" RS_Pending (mkTotals 0 0 0 0 0 0) (mkProgress 0 0 0 0 0 0 0 0 0)
    (mkRepackFlags false true false false false false false) 0 empty_policy [] [] (serializers.mkEntryLog "" "" 0) 0.
Definition ex_q_object (owner : string) (t : ObjectType) (m : qmsg) : qb := BHdr t 0 owner "" (BMsg m).
Definition ex_q_root (queue : option string) : RootEntry :=
  set_repackqueuepointer Pending queue default_message.
Definition ex_q_store (queue : option string) : VFS.vfs qb :=
  VFS.mkVfs (list_to_map [("root", ex_q_object "root" RootEntry_t (QRoot (ex_q_root queue)));
     ("queue", ex_q_object "root" RepackQueue_t (QRepackQueue (mkRepackQueue ["r0"; "gone"; "r4"])));
     ("r0", ex_q_object "queue" RepackRequest_t (QRepack (ex_repack "V00")));
     ("r1", ex_q_object "agent" RepackRequest_t (QRepack (ex_repack "V01")));
     ("r2", ex_q_object "other" RepackRequest_t (QRepack (ex_repack "V02")));
     ("r3", ex_q_object "agent" RepackRequest_t (QRepack (ex_repack "V03")));
     ("r4", ex_q_object "agent" RepackRequest_t (QRepack (ex_repack "V04")));
     ("agent", ex_q_object "" Agent_t (QAgent (mkAgentObject "" 0 0 ["r1"; "r3"; "r4"] false None)))])
    {["root"; "queue"; "r0"; "r1"; "r2"; "r3"; "r4"; "agent"]}.
Definition ex_q_agent : AgentReference := mkAgent "agent" 0.
Definition ex_q_start (queue : option string) : QState qb RepackQueue (VFS.vfs qb) :=
  start (new_object q_dummy) (ex_q_store queue) ex_q_agent.

Example ex_q_queued :
  let '(res, s) := referenceAndSwitchOwnership (T := repack_traits q_dummy Pending 2) q_dummy "agent" ["r1"; "r2"; "r3"] (ex_q_start (Some "queue")) in
  res = Ok [("r2", WrongPreviousOwner)] ∧
  (snd <$> stored (P := RepackQueue) (q_be s) "queue") = Some (mkRepackQueue ["r0"; "gone"; "r4"; "r1"; "r3"]) ∧
  (ownedobjects ∘ snd <$> stored (P := Agent) (q_be s) "agent") = Some ["r4"].
Proof. by vm_compute. Qed.

(** The queue is created when there is none. *)
Lemma repack_requests_queued_witness :
  ∃ result s' h, referenceAndSwitchOwnership (T := repack_traits q_dummy Pending 2) q_dummy "agent" ["r1"; "r2"; "r3"] (ex_q_start None) = (Ok result, s') ∧
    fst <$> result = ["r2"] ∧
    stored (q_be s') "RepackQueuePending-agent-0" = Some (h, mkRepackQueue ["r1"; "r3"]) ∧
    repack_owner (q_be s') "r3" = Some "RepackQueuePending-agent-0".
Proof.
  destruct (repack_requests_queued q_dummy Pending 2 (ex_q_store None) ex_q_agent (ex_q_root None) "RepackQueuePending-agent-0" []
    ["r1"; "r2"; "r3"] "agent" (mkHeader Agent_t 0 "" "" (BMsg (QAgent (mkAgentObject "" 0 0 ["r1"; "r3"; "r4"] false None))))
    (mkAgentObject "" 0 0 ["r1"; "r3"; "r4"] false None)) as (result & s' & r' & h' & hq & p' & E & Hf & Hst & Hown & _).
  - split; [by vm_compute|by eexists].
  - by right.
  - by split_and!.
  - done.
  - done.
  - done.
  - by apply (bool_decide_unpack _); vm_compute.
  - intros a Ha. repeat (apply elem_of_cons in Ha as [->|Ha]; [by split_and!|]). by apply not_elem_of_nil in Ha.
  - exists result, s', hq. split_and!; [exact E|exact Hf|exact Hst|]. apply Hown. by apply (bool_decide_unpack _); vm_compute.
Defined.

(** Popping drops the reference to the request that is gone.  The request [r4] is of
    the agent, and a reference to it was left in the queue: it is dropped too, and
    with it the entry in the list of its owner, so that no list has [r4] any more. *)
Example ex_q_popped :
  let '(res, s) := popNextBatch (T := repack_traits q_dummy Pending 2) q_dummy 4 2 (ex_q_start (Some "queue")) in
  match res with Ok x => rpe_request <$> fst x = ["r0"] ∧ snd x = 1 | Throw _ => False end ∧
  repack_owner (q_be s) "r0" = Some "agent" ∧ repack_owner (q_be s) "r4" = Some "agent" ∧
  (snd <$> stored (P := RepackQueue) (q_be s) "queue") = Some (mkRepackQueue []) ∧
  (ownedobjects ∘ snd <$> stored (P := Agent) (q_be s) "agent") = Some ["r0"; "r1"; "r3"].
Proof. by vm_compute. Qed.

Lemma repack_requests_popped_witness :
  ∃ els taken rest s' h p',
    popNextBatch (T := repack_traits q_dummy Pending 2) q_dummy 4 1 (ex_q_start (Some "queue")) = (Ok (els, Z.of_nat (length els)), s') ∧
    rpe_request <$> els = ["r0"] ∧ ["r0"; "gone"; "r4"] = taken ++ rest ∧
    stored (q_be s') "queue" = Some (h, mkRepackQueue rest) ∧ repack_owner (q_be s') "r0" = Some "agent" ∧
    owned p' = (list_to_set ["r1"; "r3"; "r4"] ∪ list_to_set taken) ∖ list_to_set (filter (λ a, switchable "queue" (ex_q_store (Some "queue")) a = false) taken).
Proof.
  destruct (repack_requests_popped q_dummy Pending 2 (ex_q_start (Some "queue")) "queue" ["r0"; "gone"; "r4"] 1
    (mkAgentObject "" 0 0 ["r1"; "r3"; "r4"] false None) 4) as (els & taken & rest & s' & h & p' & E & He & Ht & _ & Hst & Hown & _ & Ho & _).
  - lia.
  - split.
    + eexists. split; [split; [by vm_compute|by eexists]|done].
    + by eexists.
    + done.
    + done.
    + by apply (bool_decide_unpack _); vm_compute.
    + simpl. lia.
    + intros a Ha. apply elem_of_cons in Ha as [->|Ha]; [by split_and!; try done; left|].
      apply elem_of_cons in Ha as [->|Ha]; [by split_and!; try done; right; left|]. apply list_elem_of_singleton in Ha as ->.
      split_and!; try done. right; right. by eexists _, _.
  - split; [done|]. eexists. by split_and!.
  - lia.
  - simpl. lia.
  - assert (He' : rpe_request <$> els = ["r0"]) by (rewrite He; by vm_compute).
    exists els, taken, rest, s', h, p'. split_and!; [exact E|exact He'|exact Ht|exact Hst| |].
    + apply Hown. rewrite He'. by left.
    + exact Ho.
Defined.

(** ** An archive queue *)

(** A request with a copy for [poolA], owned by the agent. *)
Definition ex_q_archive : VFS.vfs qb :=
  VFS.mkVfs (list_to_map [("root", ex_q_object "root" RootEntry_t (QRoot default_message));
     ("request", ex_q_object "agentA" ArchiveRequest_t (QArchive (ex_request false)));
     ("agentA", ex_q_object "" Agent_t (QAgent (mkAgentObject "" 0 0 ["request"] false None)))]) {["root"; "request"; "agentA"]}.
Definition ex_q_inserted : ArchiveInserted := mkArchiveInserted "request" 1 12 1000 None None.
Abbreviation ex_q_traits := (archive_transfer_traits q_dummy "poolA" JobsToTransferForUser 100 2).

(** The job is queued in a new queue, popped again by the agent,
    and the queue, empty, is removed. *)
Example ex_q_archived :
  let '(res, s) := referenceAndSwitchOwnership (T := ex_q_traits) q_dummy "agentA" [ex_q_inserted]
    (start (new_object q_dummy) ex_q_archive (mkAgent "agentA" 0)) in
  res = Ok [] ∧
  (snd <$> stored (P := ArchiveQueueShard) (q_be s) "ArchiveQueueShard-poolA-agentA-1") =
    Some (mkAQS [mkAJP "request" 1000 12 1 0 0 100 ""] 1000) ∧
  (ownedobjects ∘ snd <$> stored (P := Agent) (q_be s) "agentA") = Some [] ∧
  let '(res', s') := popNextBatch (T := ex_q_traits) q_dummy 3 (mkFilesBytes 10 10000) s in
  match res' with Ok x => ape_request <$> fst x = ["request"] ∧ snd x = mkFilesBytes 1 1000 | Throw _ => False end ∧
  (ownedobjects ∘ snd <$> stored (P := Agent) (q_be s') "agentA") = Some ["request"] ∧
  dom (be_view (q_be s')) = {["root"; "request"; "agentA"]}.
Proof. by vm_compute. Qed.
