(* ===== verification/Collect.v ===== *)
(** * Collection of requests and archive queues

    Models of [garbageCollect] of [objectstore/RepackRequest.cpp],
    [ArchiveRequest.cpp] and [ArchiveQueue.cpp]: what happens to an object of an
    agent that died.  The object is locked and fetched when they are called. *)
From S2P Require Import Prelude DataTypes Checksum ValueCountMap Backend ObjectOps Handles ProtoAlgorithms ArchiveFile ArchiveQueueShard ArchiveQueue ArchiveRequest RetrieveQueue Agent Registers RootEntry AgentLife RepackRequest Helpers Algorithms QueueTraits.

(** The object, the store, and the agent of the garbage collector. *)
Record GState (B P St : Type) := mkGState { g_obj : ObjectOps B P; g_be : St; g_agent : AgentReference }.
Arguments mkGState {B P St} _ _ _.
Arguments g_obj {B P St} _.
Arguments g_be {B P St} _.
Arguments g_agent {B P St} _.

Section Collect.
Context {B St : Type} `{!Serializable B (ObjectHeader B), !Backend B St}.
Context `{!Serializable B RootEntry, !Serializable B RepackQueue, !Serializable B RepackRequest, !Serializable B Agent}.
Context `{!Serializable B ArchiveQueue, !Serializable B ArchiveQueueShard, !Serializable B ArchiveRequest, !Serializable bytes ChecksumPb}.
(** The header bytes of a handle before anything is read; never looked at. *)
Context (dummy : B).

Section Lift.
Context {P : Type} `{!Serializable B P, !Message P}.
Abbreviation GM := (M (GState B P St)).
Definition g_self {A} (m : M (HState B P St) A) : GM A := λ s,
  let '(r, (o', be')) := m (g_obj s, g_be s) in (r, mkGState o' be' (g_agent s)).
Definition g_handle {A} (m : M (ObjectOps B P) A) : GM A := λ s,
  let '(r, o') := m (g_obj s) in (r, mkGState o' (g_be s) (g_agent s)).
(** An operation of the agent reference of the garbage collector. *)
Definition g_own (f : AgentReference → M St unit) : GM unit := λ s,
  let '(r, be') := f (g_agent s) (g_be s) in (r, mkGState (g_obj s) be' (g_agent s)).
(** An operation on a queue with its lock, from the empty handle on; the result has
    the state of the queue. *)
Definition g_queue {Q A} `{!Serializable B Q, !Message Q} (m : M (QState B Q St) A) : GM (A * QState B Q St) := λ s,
  let '(r, s') := m (mkQState (new_object dummy) (mkLock Exclusive false) (g_be s) (g_agent s)) in
  (match r with Ok a => Ok (a, s') | Throw e => Throw e end, mkGState (g_obj s) (q_be s') (q_agent s')).
(** An operation on the queue of an earlier state. *)
Definition g_queue_on {Q A} (q : QState B Q St) (m : M (QState B Q St) A) : GM A := λ s,
  let '(r, s') := m (mkQState (q_obj q) (q_lock q) (g_be s) (g_agent s)) in (r, mkGState (g_obj s) (q_be s') (q_agent s')).
End Lift.

(** ** Repack requests *)
Definition rp_find_queue : M (GState B RepackRequest St) (unit * QState B RepackQueue St) :=
  i ← g_self rp_getInfo;
  qt ← lift (repackInfo_getQueueType i);
  g_queue (getLockedAndFetchedRepackQueue dummy qt).

(** The request is added to the list of the collector, which becomes its owner, and
    to the queue; its owner is not changed to the queue. *)
Definition rp_garbageCollect (presumedOwner : string) : M (GState B RepackRequest St) unit :=
  name ← g_self own_address;
  _ ← g_own (addToOwnership dummy name);
  ag ← gets g_agent;
  _ ← g_self (change_self (setOwner (m_agentAddress ag)));
  found ← catch (x ← rp_find_queue; mret (Some (snd x))) (λ _, Some (mret None));
  match found with
  | None => g_self commit
  | Some q =>
      _ ← g_queue_on q (o ← gets q_obj; lift (getRequestsSummary o));
      _ ← catch (g_queue_on q (_ ← q_self (addRequestsAndCommit [name]); o ← gets q_obj; _ ← lift (getRequestsSummary o); mret tt))
            (λ _, Some (mret tt));
      g_self commit
  end.

(** ** Archive queues *)

(** Only the queues of jobs to transfer for the users are looked up. *)
Definition aq_garbageCollect (presumedOwner : string) : M (HState B ArchiveQueue St) unit :=
  o ← self;
  _ ← lift (checkPayloadWritable o);
  if decide (presumedOwner ≠ h_owner (m_header o)) then mret tt
  else
    root ← on_store (open_locked dummy Shared root_address);
    tpd ← on_store (on_root root (dumpArchiveQueues JobsToTransferForUser));
    name ← own_address;
    if existsb (λ tp, bool_decide (fst tp = name)) tpd then
      rootAddress ← lift (getAddressIfSet root);
      _ ← change_self (setOwner rootAddress); commit
    else
      _ ← lift (checkPayloadReadable o);
      if decide (archivequeueshards (m_payload o) = []) then remove else throw NotEmpty.

(** ** Archive requests *)

(** The queue of a job. *)
Definition job_container (r : ArchiveRequest) (j : ArchiveJob) : string :=
  if decide (aj_status j ∈ c_statusesImplyingQueueingByRepackRequestAddress) then repack_request_address (ar_repack_info r)
  else aj_tapepool j.
(** The job at a position changed in place. *)
Definition change_job (i : nat) (f : ArchiveJob → ArchiveJob) : M (GState B ArchiveRequest St) unit :=
  g_handle (ar_modify (λ r, ar_set_jobs (alter f i (ar_jobs r)) r)).

(** The job of the queue: as the request has it, with the start time of the request. *)
Definition job_entry (j : ArchiveJob) : M (GState B ArchiveRequest St) JobToAdd :=
  name ← g_self own_address;
  file ← g_handle getArchiveFile;
  policy ← g_handle getMountPolicy;
  log ← g_handle getEntryLog;
  mret (mkJobToAdd (mkArchiveJobDump (aj_copynb j) (aj_tapepool j) (aj_owner j) (aj_status j)) name
          (archiveFileID file) (af_fileSize file) policy (el_time log)).
Definition requeue_job (i : nat) (j : ArchiveJob) : M (GState B ArchiveRequest St) unit :=
  r ← gets (λ s, m_payload (g_obj s));
  qt ← lift (getQueueType (aj_status j));
  x ← g_queue (find_archive_queue dummy (job_container r j) qt);
  jta ← job_entry j;
  _ ← g_queue_on (snd x) (on_aq (addJobsIfNecessaryAndCommit dummy [jta]));
  queue ← lift (getAddressIfSet (q_obj (snd x)));
  _ ← change_job i (aj_set_owner queue);
  g_self request_commit.

(** A job that cannot be requeued is failed. *)
Definition collect_job (presumedOwner : string) (i : nat) : M (GState B ArchiveRequest St) unit :=
  r ← gets (λ s, m_payload (g_obj s));
  match ar_jobs r !! i with
  | None => mret tt
  | Some j =>
      if decide (aj_status j ∈ c_statusesImplyingQueueing ∧ aj_owner j = presumedOwner) then
        catch (requeue_job i j)
          (λ e, match e with
                | JobNotQueueable => Some (mret tt)
                | _ => Some (_ ← change_job i (aj_set_status AJS_Failed); g_self request_commit)
                end)
      else mret tt
  end.
Definition request_garbageCollect (presumedOwner : string) : M (GState B ArchiveRequest St) unit :=
  _ ← g_handle ar_writable;
  r ← gets (λ s, m_payload (g_obj s));
  mfor (seq 0 (length (ar_jobs r))) (collect_job presumedOwner).
End Collect.
