(* ===== verification/CollectSpec.v ===== *)
(** * What collection does to repack requests

    A repack request that is collected is put in a queue that is not its owner, so
    that no later pop can take it. *)
From S2P Require Import Prelude DataTypes Checksum ValueCountMap Backend ObjectOps Handles ProtoAlgorithms ArchiveQueueShard ArchiveQueue ArchiveRequest RetrieveQueue Agent Registers RegistersSpec RootEntry RootEntrySpec RootEntryTheorems AgentLife RepackRequest Helpers HelpersSpec Algorithms AlgorithmsSpec QueueTraits QueueTraitsSpec Collect.

Section CollectSpec.
Context {B St : Type} `{!Serializable B (ObjectHeader B), !Backend B St}.
Context `{!Serializable B RootEntry, !Serializable B RepackQueue, !Serializable B RepackRequest, !Serializable B Agent}.
Context (dummy : B).
Implicit Types (be : St) (name c : string).

Definition owned_header (owner : string) (h : ObjectHeader B) : ObjectHeader B :=
  mkHeader (h_type h) (h_version h) owner (h_backupowner h) (h_payload h).

(** The request in the hands of the collector. *)
Definition collected_handle name h (r : RepackRequest) owner : ObjectOps B RepackRequest := opened Exclusive name (owned_header owner h) r.

Lemma rp_find_queue_ok qt name h r ag owner be root c q :
  type_of (rp_flags r) ≠ None → getQueueType_of (rp_status r) (is_expand_finished (rp_flags r)) = Ok qt →
  root_in be root → queue_at qt be ag root c q →
  ∃ s root', rp_find_queue dummy (mkGState (collected_handle name h r owner) be ag) =
      (Ok (tt, s), mkGState (collected_handle name h r owner) (q_be s) (q_agent s)) ∧
    rpq_holds c s q ∧ root_in (q_be s) root' ∧ repackqueuepointer qt root' = Some c ∧
    m_agentAddress (q_agent s) = m_agentAddress ag ∧ c ≠ root_address ∧ same_outside (λ n, n = c ∨ n = root_address) be (q_be s).
Proof.
  intros Ht Hqt Hr Hq. destruct (repack_queue_locked dummy qt be ag root c q Hr Hq) as (s & root' & E & H).
  exists s, root'. split; [|exact H]. unfold rp_find_queue, collected_handle.
  destruct (type_of (rp_flags r)) as [t|] eqn:Et; [|done].
  erewrite bind_ok; last first.
  { unfold g_self, rp_getInfo. cbn [g_obj g_be]. unfold rp_readable, rp_payload, mbind, M_bind, self, gets, lift. simpl.
    rewrite Et. reflexivity. }
  unfold repackInfo_getQueueType. cbn [tri_status tri_isExpandFinished]. rewrite Hqt, bind_lift.
  unfold g_queue. cbn [g_be g_agent g_obj]. unfold start in E. by rewrite E.
Qed.

(** The queue gets the reference, and the request the collector as owner. *)
Lemma queue_reference c s q name o be ag :
  rpq_holds c s q → be = q_be s → ag = q_agent s →
  ∃ be', (_ ← g_queue_on s (o ← gets q_obj; lift (getRequestsSummary o));
          catch (g_queue_on s (_ ← q_self (addRequestsAndCommit [name]); o ← gets q_obj; _ ← lift (getRequestsSummary o); mret tt))
            (λ _, Some (mret tt))) (mkGState (o : ObjectOps B RepackRequest) be ag) = (Ok tt, mkGState o be' ag) ∧
    be_wf be' ∧ (∃ hq, stored be' c = Some (hq, mkRepackQueue (q ++ [name]))) ∧ same_outside (eq c) be be'.
Proof.
  intros Hh -> ->. destruct (rpq_run (QAdd [name]) c s q Hh) as (s' & E & [(Hwf & h & h' & Ho' & _ & Hst) _] & Hfr & _).
  pose proof Hh as [(_ & h0 & h0' & Ho & _) _]. simpl in Ho, Ho', Hst. exists (q_be s').
  assert (Es : q_agent s' = q_agent s).
  { revert E. unfold q_self. destruct (rq_run _ _) as [r [o' be']]. by intros [= _ <-]. }
  split_and!; [|exact Hwf|by exists h'|exact Hfr].
  rewrite (bind_ok _ _ _ (Z.of_nat (length q)) (mkGState o (q_be s) (q_agent s))); last first.
  { unfold g_queue_on, mbind, M_bind, gets, lift. cbn [q_obj]. by rewrite Ho. }
  apply catch_ok. unfold g_queue_on. replace (mkQState (q_obj s) (q_lock s) (g_be (mkGState o (q_be s) (q_agent s))) _) with s by (by destruct s).
  erewrite bind_ok; [|exact E]. unfold mbind, M_bind, gets, lift. rewrite Ho'. simpl. by rewrite Es.
Qed.

Lemma rp_collected qt name h r ag be root c q p presumedOwner :
  let a := m_agentAddress ag in
  type_of (rp_flags r) ≠ None → getQueueType_of (rp_status r) (is_expand_finished (rp_flags r)) = Ok qt →
  root_in be root → queue_at qt be ag root c q → agent_ready be a p → stored be name = Some (h, r) →
  name ≠ c → name ≠ root_address → name ≠ a → a ≠ c → a ≠ root_address →
  ∃ s' hq hr p' root', rp_garbageCollect dummy presumedOwner (mkGState (opened Exclusive name h r) be ag) = (Ok tt, s') ∧
    stored (g_be s') c = Some (hq, mkRepackQueue (q ++ [name])) ∧ stored (g_be s') name = Some (hr, r) ∧ h_owner hr = a ∧
    m_agentAddress (g_agent s') = a ∧ agent_ready (g_be s') a p' ∧ owned p' = owned p ∪ {[name]} ∧
    root_in (g_be s') root' ∧ repackqueuepointer qt root' = Some c ∧ c ≠ root_address ∧
    same_outside (λ n, n = c ∨ n = root_address ∨ n = a ∨ n = name) be (g_be s').
Proof.
  intros a Ht Hqt Hr Hq (Hgc & ha & Hs) Hst Hnc Hnr Hna Hac Har.
  destruct (change_owned dummy a (Add name) ha p be Hs Hgc) as (be1 & h1 & p1 & E1 & Hs1 & Hgc1 & Ho1 & Hfr1).
  assert (Hq1 : queue_at qt be1 ag root c q).
  { destruct Hq as [(? & ? & ? & hq & ?)|(? & ? & ? & ?)]; [left|right]; split_and!; try done.
    - exists hq. unfold stored in *. by rewrite Hfr1. - by rewrite Hfr1. }
  assert (Hr1 : root_in be1 root) by (apply (root_in_frame be); [done|apply Hs1|by apply Hfr1]).
  destruct (rp_find_queue_ok qt name h r ag a be1 root c q Ht Hqt Hr1 Hq1) as (s2 & root2 & E2 & Hh2 & Hr2 & Hp2 & Hag2 & Hcr & Hfr2).
  set (o := collected_handle name h r a) in *.
  destruct (queue_reference c s2 q name o (q_be s2) (q_agent s2) Hh2 eq_refl eq_refl) as (be3 & E3 & Hwf3 & (hq & Hst3) & Hfr3).
  assert (Hn3 : be_view be3 !! name = be_view be !! name) by (rewrite Hfr3, Hfr2, Hfr1; naive_solver).
  destruct (commit_spec be3 o Hwf3) as (be4 & E4 & Hwf4 & Hv4 & Hst4); try done.
  { apply opened_writable. } { exact (stored_type _ _ _ _ Hst). } { cbn. rewrite Hn3. exact (stored_exists _ _ _ Hst). }
  assert (Hfr4 : same_outside (eq name) be3 be4) by (intros n Hn; rewrite Hv4; by apply lookup_insert_ne).
  eexists _, hq, _, p1, root2. split.
  { unfold rp_garbageCollect. mstep (eq_refl : g_self own_address (mkGState (opened Exclusive name h r) be ag) = (Ok name, _)).
    rewrite (bind_ok _ _ _ tt (mkGState (opened Exclusive name h r) be1 ag)); last first.
    { unfold g_own. cbn [g_be g_agent]. unfold addToOwnership, queueAndExecuteAction. fold a. by rewrite E1. }
    mstep (eq_refl : gets g_agent (mkGState (opened Exclusive name h r) be1 ag) = (Ok ag, _)). fold a.
    mstep (eq_refl : g_self (change_self (setOwner a)) (mkGState (opened Exclusive name h r) be1 ag) = (Ok tt, mkGState o be1 ag)).
    erewrite bind_ok; [|apply catch_ok; erewrite bind_ok; [|exact E2]; reflexivity]. cbn [snd].
    rewrite (bind_block _ _ _ _ _ E3). unfold g_self. cbn [g_obj g_be]. rewrite E4. reflexivity. }
  cbn [g_be g_agent]. assert (Hfr : same_outside (λ n, n = c ∨ n = root_address ∨ n = a ∨ n = name) be be4).
  { intros n Hn. rewrite Hfr4, Hfr3, Hfr2, Hfr1; naive_solver. }
  split_and!; [|by rewrite Hst4; cbn; rewrite decide_True|done|by rewrite Hag2| |by rewrite Ho1| |done|done|exact Hfr].
  - unfold stored in *. by rewrite Hfr4.
  - split; [done|]. exists h1. apply (agent_stored_frame a h1 p1 be1); [done|done|]. rewrite Hfr4, Hfr3, Hfr2; naive_solver.
  - apply (root_in_frame (q_be s2)); [done|done|]. rewrite Hfr4, Hfr3; naive_solver.
Qed.

(** ** The request after the collection *)
Lemma queue_at_nonempty qt be ag root c q : queue_at qt be ag root c q → c ≠ "".
Proof. intros [(_ & ? & _)|(_ & _ & -> & _)]; [done|]. apply nextId_nonempty. Qed.

Lemma not_switchable c be name h (r : RepackRequest) : stored be name = Some (h, r) → h_owner h ≠ c → switchable c be name = false.
Proof. intros Hst Ho. unfold switchable. rewrite Hst. by rewrite bool_decide_false. Qed.

(** A repack request that is collected while it waits is lost.  The collection
    succeeds: it lists the request in the agent of the collector, makes that agent
    its owner, and appends it to the queue of its status.  The owner is not the
    queue, so popping from the queue never returns the request.  A pop by the
    collector that comes to the end of the queue drops the reference and the entry in the
    list of the agent: the request is then owned by an agent that does not list it,
    and nothing references it. *)
Lemma collected_repack_lost qt fuel name h r ag be root c q p presumedOwner n f :
  let a := m_agentAddress ag in
  type_of (rp_flags r) ≠ None → getQueueType_of (rp_status r) (is_expand_finished (rp_flags r)) = Ok qt →
  root_in be root → queue_at qt be ag root c q → agent_ready be a p → stored be name = Some (h, r) →
  name ≠ "" → name ≠ c → name ≠ root_address → name ≠ a → a ≠ c → a ≠ root_address →
  NoDup (q ++ [name]) → Z.of_nat (length (q ++ [name])) < 2 ^ 64 →
  (∀ x, x ∈ q → x ≠ "" ∧ x ≠ c ∧ x ≠ root_address ∧ x ≠ a ∧ current_or_stale c be x) →
  (0 < fuel)%nat → 0 < n < 2 ^ 64 → (S (length q) < f)%nat →
  ∃ s' hq hr p',
    rp_garbageCollect dummy presumedOwner (mkGState (opened Exclusive name h r) be ag) = (Ok tt, s') ∧
    stored (g_be s') c = Some (hq, mkRepackQueue (q ++ [name])) ∧
    stored (g_be s') name = Some (hr, r) ∧ h_owner hr = a ∧
    agent_ready (g_be s') a p' ∧ owned p' = owned p ∪ {[name]} ∧
    ∃ els s'' p'',
      popNextBatch (T := repack_traits dummy qt fuel) dummy f n (start (new_object dummy) (g_be s') (g_agent s')) =
        (Ok (els, Z.of_nat (length els)), s'') ∧
      ¬ (name ∈ rpe_request <$> els) ∧ repack_owner (q_be s'') name = Some a ∧ agent_ready (q_be s'') a p'' ∧
      (Z.of_nat (length els) < n → ¬ (name ∈ owned p'') ∧ ∃ h', stored (q_be s'') c = Some (h', mkRepackQueue [])).
Proof.
  intros a Ht Hqt Hr Hq Hag Hst Hne Hnc Hnr Hna Hac Har Hnd Hlen Hx Hfuel Hn Hf.
  destruct (rp_collected qt name h r ag be root c q p presumedOwner Ht Hqt Hr Hq Hag Hst Hnc Hnr Hna Hac Har)
    as (s' & hq & hr & p' & root' & E & Hq' & Hst' & Ho & Ha' & Hag' & Hown & Hr' & Hp' & Hcr & Hfr).
  exists s', hq, hr, p'. do 6 (split; [done|]).
  assert (Hsw : switchable c (g_be s') name = false) by (apply (not_switchable c _ name hr r); [done|by rewrite Ho]).
  assert (Hrd : pop_ready qt (g_be s') (g_agent s') c (q ++ [name])).
  { split; rewrite ?Ha'; try done; eauto; [split; [by eapply queue_at_nonempty|done]|].
    intros x [Hin|Hin]%elem_of_app.
    - destruct (Hx x Hin) as (? & ? & ? & ? & Hs). split_and!; try done. apply (current_or_stale_frame c be); [|done]. apply Hfr.
      intros [?|[?|[?| ->]]]; try done. apply NoDup_app in Hnd as (_ & Hd & _). apply (Hd name Hin). by left.
    - apply list_elem_of_singleton in Hin as ->. split_and!; try done. right; right. exists hr, r. split; [done|by rewrite Ho]. }
  destruct (pop_loop dummy qt fuel c n f (start (new_object dummy) (g_be s') (g_agent s')) (q ++ [name]) 0 ∅ [] p' Hfuel Hrd)
    as (pre & els & s'' & q'' & p'' & Ep & (Hpre & He & Hrd'' & Ha'' & Hag'' & Ho'' & _ & Hfr'') & Hmax & Hend).
  { cbn [q_be q_agent start]. by rewrite Ha'. } { lia. } { lia. } { rewrite length_app. simpl. lia. }
  cbn [q_be q_agent start] in *. rewrite Z.sub_0_r in Ep. rewrite Ha' in Hag'', Hfr''. exists els, s'', p''.
  assert (Hnot : name ∉ filter (λ a, switchable c (g_be s') a = true) pre) by (intros [? _]%list_elem_of_filter; congruence).
  split_and!; [exact Ep|by rewrite He| |done|].
  - unfold repack_owner. assert (stored (q_be s'') name = Some (hr, r)) as ->; [|by simpl; rewrite Ho].
    unfold stored in *. rewrite Hfr''; [done|]. intros [?|[?|?]]; done.
  - intros Hless. destruct Hend as [?| ->]; [lia|]. rewrite app_nil_r in Hpre. subst pre. split; [|apply (pr_queue _ _ _ _ _ Hrd'')].
    rewrite Ho'', elem_of_difference. intros [_ Hno]. apply Hno. rewrite elem_of_list_to_set. apply list_elem_of_filter.
    split; [done|]. apply elem_of_app. right. by left.
Qed.
End CollectSpec.
