(* ===== verification/CollectExamples.v ===== *)
(** * Collection in the file system backend

    The witness of the loss of a collected repack request, and runs of the
    collections. *)
From S2P Require Import Prelude DataTypes Checksum Backend ObjectOps Handles ProtoAlgorithms ArchiveFile ArchiveQueueShard ArchiveQueue ArchiveRequest ArchiveRequestExamples RetrieveQueue Agent Registers RegistersSpec RootEntry RootEntrySpec AgentLife RepackRequest Helpers HelpersSpec Algorithms AlgorithmsSpec QueueTraits QueueTraitsSpec QueueTraitsExamples Collect CollectSpec.
Import Blob.
#[local] Existing Instance demo_codec.

(** The request [r2] of an agent that died, collected by [agent]. *)
Definition ex_c_header : ObjectHeader qb := mkHeader RepackRequest_t 0 "other" "" (BMsg (QRepack (ex_repack "V02"))).
Definition ex_c_start : GState qb RepackRequest (VFS.vfs qb) :=
  mkGState (opened Exclusive "r2" ex_c_header (ex_repack "V02")) (ex_q_store (Some "queue")) ex_q_agent.

Example ex_c_collected :
  let '(res, s) := rp_garbageCollect q_dummy "other" ex_c_start in
  res = Ok tt ∧ repack_owner (g_be s) "r2" = Some "agent" ∧
  (snd <$> stored (P := RepackQueue) (g_be s) "queue") = Some (mkRepackQueue ["r0"; "gone"; "r4"; "r2"]) ∧
  (ownedobjects ∘ snd <$> stored (P := Agent) (g_be s) "agent") = Some ["r1"; "r2"; "r3"; "r4"].
Proof. by vm_compute. Qed.

Lemma collected_repack_lost_witness :
  ∃ s' els s'' p'', rp_garbageCollect q_dummy "other" ex_c_start = (Ok tt, s') ∧
    popNextBatch (T := repack_traits q_dummy Pending 2) q_dummy 5 10 (start (new_object q_dummy) (g_be s') (g_agent s')) =
      (Ok (els, Z.of_nat (length els)), s'') ∧
    ¬ ("r2" ∈ rpe_request <$> els) ∧ repack_owner (q_be s'') "r2" = Some "agent" ∧ agent_ready (q_be s'') "agent" p''.
Proof.
  destruct (collected_repack_lost q_dummy Pending 2 "r2" ex_c_header (ex_repack "V02") ex_q_agent (ex_q_store (Some "queue"))
    (ex_q_root (Some "queue")) "queue" ["r0"; "gone"; "r4"] (mkAgentObject "" 0 0 ["r1"; "r3"; "r4"] false None) "other" 10 5)
    as (s' & hq & hr & p' & E & _ & _ & _ & _ & _ & els & s'' & p'' & Ep & Hn & Ho & Hag & _).
  - done.
  - done.
  - split; [by vm_compute|by eexists].
  - left. split_and!; try done. by eexists.
  - split; [done|]. eexists. by split_and!.
  - by vm_compute.
  - done.
  - done.
  - done.
  - done.
  - done.
  - done.
  - by apply (bool_decide_unpack _); vm_compute.
  - simpl. lia.
  - intros a Ha. apply elem_of_cons in Ha as [->|Ha]; [by split_and!; try done; left|].
    apply elem_of_cons in Ha as [->|Ha]; [by split_and!; try done; right; left|]. apply list_elem_of_singleton in Ha as ->.
    split_and!; try done. right; right. by eexists _, _.
  - lia.
  - lia.
  - simpl. lia.
  - exists s', els, s'', p''. split; [exact E|]. split; [exact Ep|]. split; [exact Hn|]. split; [exact Ho|exact Hag].
Defined.

(** ** An archive request *)

(** Both copies are requeued, each in a queue created for its pool, which owns the job. *)
Example ex_c_archive :
  let '(res, s) := request_garbageCollect q_dummy "agentA"
    (mkGState (opened Exclusive "request" (mkHeader ArchiveRequest_t 0 "agentA" "" (BMsg (QArchive (ex_request false)))) (ex_request false))
       ex_q_archive (mkAgent "agentA" 0)) in
  res = Ok tt ∧
  (aj_owner <$> ar_jobs (m_payload (g_obj s))) = ["ArchiveQueueToTransferForUser-poolA-agentA-0"; "ArchiveQueueToTransferForUser-poolB-agentA-2"] ∧
  (snd <$> stored (P := ArchiveRequest) (g_be s) "request") = Some (m_payload (g_obj s)) ∧
  (snd <$> stored (P := ArchiveQueueShard) (g_be s) "ArchiveQueueShard-poolB-agentA-3") =
    Some (mkAQS [mkAJP "request" 1000 12 2 0 0 0 ""] 1000).
Proof. by vm_compute. Qed.

(** Without a root entry there is no queue to be had: the jobs are failed, and keep
    their owner. *)
Example ex_c_archive_failed :
  let '(res, s) := request_garbageCollect q_dummy "agentA"
    (mkGState (opened Exclusive "request" (mkHeader ArchiveRequest_t 0 "agentA" "" (BMsg (QArchive (ex_request false)))) (ex_request false))
       (VFS.mkVfs (list_to_map [("request", ex_q_object "agentA" ArchiveRequest_t (QArchive (ex_request false)))]) {["request"]}) (mkAgent "collector" 0)) in
  res = Ok tt ∧ (aj_status <$> ar_jobs (m_payload (g_obj s))) = [AJS_Failed; AJS_Failed] ∧
  (aj_owner <$> ar_jobs (m_payload (g_obj s))) = ["agentA"; "agentA"].
Proof. by vm_compute. Qed.
