(* ===== verification/RetrieveTraits.v ===== *)
(** * The traits of the retrieve queues

    Model of [objectstore/RetrieveQueueAlgorithms.hpp] and of the specialisations in
    [RetrieveQueueToTransferAlgorithms.cpp]: the instances of [ContainerTraits] for
    retrieve queues, with queues that sleep until a disk system has space. *)
From S2P Require Import Prelude DataTypes Checksum ValueCountMap Backend ObjectOps Handles ProtoAlgorithms ArchiveFile ArchiveQueueShard ArchiveQueue ArchiveRequest RetrieveActivity RetrieveQueueShard RetrievePlan RetrieveQueue RetrieveRequest Agent Registers RootEntry AgentLife RepackRequest Helpers Algorithms QueueTraits.

(** [SchedulerDatabase::RetrieveJob::ReportType]. *)
Inductive RetrieveReportType := NoRetrieveReportRequired | RetrieveFailureReport | RetrieveReport.

(** [InsertedElement], with the address of the request. *)
Record RetrieveInserted := mkRetrieveInserted {
  rie_request : string;
  rie_copyNb : Z;
  rie_fSeq : Z;
  rie_filesize : Z;
  rie_policy : MountPolicy;
  rie_activityDescription : option RetrieveActivityDescription;
  rie_diskSystemName : option string
}.
(** [PoppedElement]: what the update of the owner gathered is absent before it. *)
Record RetrievePopped := mkRetrievePopped {
  rpp_request : string;
  rpp_copyNb : Z;
  rpp_bytes : Z;
  rpp_update : option RetrieveOwnerUpdate;
  rpp_reportType : RetrieveReportType;
  rpp_activity : option ActivityName;
  rpp_diskSystemName : option string
}.

(** [PopCriteria] of the queues to transfer: the disk systems to skip are a set
    ordered by name. *)
Record DiskSystemToSkip := mkSkip { skip_name : string; skip_sleepTime : Z }.
Record TransferCriteria := mkTransferCriteria { tc_limits : FilesBytes; diskSystemsToSkip : list DiskSystemToSkip }.
Definition tc_minus (c : TransferCriteria) (s : FilesBytes) : TransferCriteria :=
  mkTransferCriteria (fb_minus (tc_limits c) s) (diskSystemsToSkip c).
Definition tc_less (s : FilesBytes) (c : TransferCriteria) : bool := fb_less s (tc_limits c).

Section RetrieveTraits.
Context {B St : Type} `{!Serializable B (ObjectHeader B), !Backend B St}.
Context `{!Serializable B RootEntry, !Serializable B RetrieveQueue, !Serializable B RetrieveQueueShard}.
Context `{!Serializable B ArchiveQueue, !Serializable B RetrieveRequest, !Serializable bytes ChecksumPb, !Serializable B Agent}.
(** What [dumpJobsToAdd] leaves unset. *)
Context (dummy : B) (fresh : RetrieveJobToAdd) (freshActivity : RetrieveActivityDescription).
(** [cId] is the [ContainerIdentifier], [now] the time. *)
Context (cId : string) (qt : JobQueueType) (now : Z).
Abbreviation QM := (M (QState B RetrieveQueue St)).

(** An operation of the retrieve queue.  The member [m_maxShardSize] is what the last
    fetch read, the field of the message, which no operation here changes. *)
Definition on_rq {A} (m : M (RQState B St) A) : QM A := λ s,
  let '(r, s') := m (mkRQState (q_obj s) (maxshardsize (m_payload (q_obj s))) (q_lock s) (q_be s) (q_agent s)) in
  (r, mkQState (rq s') (rq_lock s') (rq_be s') (rq_agent s')).

(** The last matching entry of the dump counts. *)
Definition rrq_find : M (REState B St) string :=
  rql ← dumpRetrieveQueues qt;
  let rqAddress := foldl (λ a rqp, if decide (snd rqp = cId) then fst rqp else a) "" rql in
  if decide (rqAddress = "") then throw NoSuchContainer else mret rqAddress.
Definition rrq_ignored (e : exn) : bool := match e with RetrieveQueueNotEmpty | NoSuchRetrieveQueue => true | _ => false end.
Definition rrq_getLockedAndFetchedNoCreate (fuel : nat) : QM unit :=
  find_no_create dummy rrq_find (removeRetrieveQueueAndCommit dummy cId qt) (λ _, true) rrq_ignored fuel.

(** A queue that sleeps counts as trimmed; an empty queue is unlocked and removed. *)
Definition rrq_trimContainerIfNeeded : QM bool :=
  b ← on_rq rqueue_isEmpty;
  if negb b then sm ← on_rq rq_getJobsSummary; mret (match sleepInfo sm with Some _ => true | None => false end)
  else
    _ ← cont_release;
    catch (root ← q_store (open_locked dummy Exclusive root_address);
           _ ← q_root root (removeRetrieveQueueAndCommit dummy cId qt); mret true)
      (λ e, Some (mret (match e with RetrieveQueueNotEmpty => false | _ => true end))).

Definition rrq_job_to_add (e : RetrieveInserted) : RetrieveJobToAdd :=
  mkRJobToAdd (rie_copyNb e) (rie_fSeq e) (rie_request e) (rie_filesize e) (rie_policy e) now
    (rie_activityDescription e) (rie_diskSystemName e).
Definition rrq_addReferencesAndCommit (l : list RetrieveInserted) : QM unit :=
  on_rq (rq_addJobsAndCommit dummy fresh freshActivity (rrq_job_to_add <$> l)).
Definition rrq_addReferencesIfNecessaryAndCommit (l : list RetrieveInserted) : QM unit :=
  _ ← on_rq (rq_addJobsIfNecessaryAndCommit dummy fresh freshActivity (rrq_job_to_add <$> l)); mret tt.

Definition rrq_switch (copyNb : Z) (owner previousOwner address : string) : M St (option RetrieveOwnerUpdate) :=
  o ← lift (object_at dummy address);
  x ← run_on o (rr_asyncUpdateJobOwner now copyNb owner previousOwner);
  mret (fst x).
Definition rrq_switchElement (owner previousOwner : string) (e : RetrieveInserted) : M St unit :=
  _ ← rrq_switch (rie_copyNb e) owner previousOwner (rie_request e); mret tt.

Definition rrq_report_type (status : RetrieveJobStatus) : RetrieveReportType :=
  match status with RJS_ToReportToUserForFailure => RetrieveFailureReport | _ => NoRetrieveReportRequired end.
(** The element takes over what the update gathered; the activity only if there is one. *)
Definition rrq_popped (e : RetrievePopped) (u : RetrieveOwnerUpdate) : RetrievePopped :=
  mkRetrievePopped (rpp_request e) (rpp_copyNb e) (rpp_bytes e) (Some u) (rrq_report_type (ru_jobStatus u))
    (match ru_activity u with Some d => Some (mkActivityName (ad_diskInstanceName d) (ad_activity d)) | None => rpp_activity e end)
    (ru_diskSystemName u).
Definition rrq_switchPopped (newStatus : option RetrieveJobStatus) (owner previousOwner : string) (e : RetrievePopped) :
    M St RetrievePopped :=
  i ← rrq_switch (rpp_copyNb e) owner previousOwner (rpp_request e);
  mret (match i with Some u => rrq_popped e u | None => e end).

Definition rrq_candidate (c : RetrieveJobDump) : RetrievePopped :=
  mkRetrievePopped (rjd_address c) (RetrieveQueueShard.rjd_copyNb c) (rjd_size c) None NoRetrieveReportRequired (rjd_activity c) (rjd_diskSystemName c).
Definition rrq_candidates (files : Z) (elementsToSkip : gset string) : QM (list RetrievePopped) :=
  c ← on_rq (RetrieveQueue.rq_getCandidateList dummy max_uint64 files elementsToSkip ∅);
  mret (rrq_candidate <$> rc_candidates c).
(** The queue is put to sleep when all its jobs are for the disk systems to skip. *)
Definition rrq_sleeps (criteria : TransferCriteria) (elementsToSkip : gset string) (c : RetrieveCandidates) : QM (option DiskSystemToSkip) :=
  match diskSystemsToSkip criteria, rc_candidates c with
  | ds :: _, [] =>
      sm ← on_rq rq_getJobsSummary;
      mret (if decide (rjs_jobs sm ≠ 0 ∧ elementsToSkip = ∅) then Some ds else None)
  | _, _ => mret None
  end.
Definition rrq_toTransfer_candidates (criteria : TransferCriteria) (elementsToSkip : gset string) : QM (list RetrievePopped) :=
  let names : gset string := list_to_set (skip_name <$> diskSystemsToSkip criteria) in
  c ← on_rq (RetrieveQueue.rq_getCandidateList dummy (fb_bytes (tc_limits criteria)) (fb_files (tc_limits criteria)) elementsToSkip names);
  sleeps ← rrq_sleeps criteria elementsToSkip c;
  match sleeps with
  | Some ds =>
      _ ← on_rq (setSleepForFreeSpaceStartTimeAndName now (skip_name ds) (skip_sleepTime ds));
      _ ← on_rq (rqueue_commit dummy); mret []
  | None => mret (rrq_candidate <$> rc_candidates c)
  end.

(** What the queues share. *)
Definition retrieve_traits {Crit Sum : Type} (get : Crit → gset string → QM (list RetrievePopped)) (summary : RetrievePopped → Sum)
    (none : Sum) (plus : Sum → Sum → Sum) (minus : Crit → Sum → Crit) (less : Sum → Crit → bool) (fuel : nat) :
    ContainerTraits B RetrieveQueue St RetrieveInserted RetrievePopped Crit Sum RetrieveJobStatus := {|
  getLockedAndFetched := find_retrieve_queue dummy cId qt;
  getLockedAndFetchedNoCreate := rrq_getLockedAndFetchedNoCreate fuel;
  cont_fetch := q_self fetch;
  addReferencesAndCommit := rrq_addReferencesAndCommit;
  addReferencesIfNecessaryAndCommit := rrq_addReferencesIfNecessaryAndCommit;
  removeReferencesAndCommit := λ l, on_rq (rq_removeJobsAndCommit dummy freshActivity l);
  getElementAddress := rie_request;
  getPoppedAddress := rpp_request;
  switchElement := rrq_switchElement;
  switchPopped := rrq_switchPopped;
  getPoppingElementsCandidates := get;
  trimContainerIfNeeded := rrq_trimContainerIfNeeded;
  getElementSummary := summary;
  no_summary := none;
  summary_plus := plus;
  criteria_minus := minus;
  summary_less := less |}.

(** The queues of jobs to transfer, and the other queues. *)
#[export] Instance retrieve_transfer_traits (fuel : nat) :
    ContainerTraits B RetrieveQueue St RetrieveInserted RetrievePopped TransferCriteria FilesBytes RetrieveJobStatus :=
  retrieve_traits rrq_toTransfer_candidates (λ e, mkFilesBytes 1 (rpp_bytes e)) (mkFilesBytes 0 0) fb_plus tc_minus tc_less fuel.
#[export] Instance retrieve_report_traits (fuel : nat) :
    ContainerTraits B RetrieveQueue St RetrieveInserted RetrievePopped Z Z RetrieveJobStatus :=
  retrieve_traits rrq_candidates (λ _, 1) 0 (λ a b, a +u64 b) (λ c s, u64 (c - s)) Z.ltb fuel.
End RetrieveTraits.
