(* ===== verification/Sorter.v ===== *)
(** * The sorter

    Model of [objectstore/Sorter.cpp]: jobs of archive and retrieve requests are
    gathered per queue, and each queue is served by one call of an algorithm of
    [Algorithms.v].  Every job has a promise, which tells whether it was queued.

    A job stands for its request by the address of the request.  The mutex is left
    out: a call runs to its end before the next one starts.  The promises are a map
    of the state; a promise that has no entry was never set.  The catalogue, the sort
    of a list, the index drawn and the time are parameters, as in [RetrieveCache.v]. *)
From Stdlib Require String.
From S2P Require Import Prelude DataTypes Checksum ValueCountMap Backend ObjectOps Handles ProtoAlgorithms ArchiveFile ArchiveQueueShard ArchiveQueue ArchiveRequest RetrieveActivity RetrieveQueueShard RetrievePlan RetrieveQueue RetrieveRequest Agent Registers RootEntry AgentLife RepackRequest Helpers RetrieveCache Algorithms QueueTraits RetrieveTraits.

(** ** [std::map] from keys to lists *)
Section OrderedMap.
Context {K A : Type} (compare : K → K → comparison).

(** [m[k].emplace_back(x)]. *)
Fixpoint map_push (k : K) (x : A) (m : list (K * list A)) : list (K * list A) :=
  match m with
  | [] => [(k, [x])]
  | (k', l) :: m' =>
      match compare k k' with
      | Eq => (k', l ++ [x]) :: m'
      | Lt => (k, [x]) :: m
      | Gt => (k', l) :: map_push k x m'
      end
  end.
Fixpoint map_erase (k : K) (m : list (K * list A)) : list (K * list A) :=
  match m with
  | [] => []
  | (k', l) :: m' => match compare k k' with Eq => m' | _ => (k', l) :: map_erase k m' end
  end.
End OrderedMap.

(** The order of the enumeration, and of the tuples. *)
Definition JobQueueType_rank (t : JobQueueType) : nat :=
  match t with
  | JobsToTransferForUser => 0 | FailedJobs => 1 | JobsToReportToUser => 2 | JobsToReportToRepackForSuccess => 3
  | JobsToReportToRepackForFailure => 4 | JobsToTransferForRepack => 5
  end%nat.
Definition key_compare (a b : string * JobQueueType) : comparison :=
  match String.compare (fst a) (fst b) with
  | Eq => Nat.compare (JobQueueType_rank (snd a)) (JobQueueType_rank (snd b))
  | c => c
  end.

(** ** Jobs *)

(** [SorterArchiveJob], with the addresses of the request and of the owner. *)
Record SorterArchiveJob := mkSorterArchiveJob {
  saj_archiveRequest : string;
  saj_jobDump : ArchiveJobDump;
  saj_archiveFile : ArchiveFile;
  saj_previousOwner : string;
  saj_mountPolicy : MountPolicy;
  saj_jobQueueType : JobQueueType
}.
(** [Sorter::RetrieveJob]. *)
Record SorterRetrieveJob := mkSorterRetrieveJob {
  srj_retrieveRequest : string;
  srj_jobDump : RetrieveRequestJobDump;
  srj_previousOwner : string;
  srj_fileSize : Z;
  srj_fSeq : Z;
  srj_mountPolicy : MountPolicy;
  srj_jobQueueType : JobQueueType;
  srj_activityDescription : option RetrieveActivityDescription;
  srj_diskSystemName : option string
}.
(** [Sorter::SorterRetrieveRequest]. *)
Record SorterRetrieveRequest := mkSorterRetrieveRequest {
  srr_archiveFile : ArchiveFile;
  srr_retrieveJobs : gmap Z SorterRetrieveJob;
  srr_repackRequestAddress : string;
  srr_forceDisabledTape : bool
}.

(** The sorter with its agent, the backend and the cache of queue statistics. *)
Record SorterState (St : Type) := mkSorter {
  so_be : St;
  so_agent : AgentReference;
  so_cache : Cache;
  m_archiveQueuesAndRequests : list (string * JobQueueType * list (nat * SorterArchiveJob));
  m_retrieveQueuesAndRequests : list (string * JobQueueType * list (nat * SorterRetrieveJob));
  so_promises : gmap nat (result unit);
  so_next : nat
}.
Arguments mkSorter {St} _ _ _ _ _ _ _.
Arguments so_be {St} _.
Arguments so_agent {St} _.
Arguments so_cache {St} _.
Arguments m_archiveQueuesAndRequests {St} _.
Arguments m_retrieveQueuesAndRequests {St} _.
Arguments so_promises {St} _.
Arguments so_next {St} _.

(** ** Settling the promises *)

(** The jobs by copy number: a later job replaces an earlier one of its number. *)
Definition succeeded_jobs (jobs : list (nat * Z)) : gmap Z nat := foldl (λ m x, <[snd x := fst x]> m) ∅ jobs.
(** The failed elements, by copy number.  A job that is gone is not a failure; a
    second failure of a copy number finds no job, and its pointer is null. *)
Definition settle_failure (st : gmap Z nat * gmap nat (result unit)) (x : Z * exn) : result (gmap Z nat * gmap nat (result unit)) :=
  match snd x with
  | NoSuchObject => Ok st
  | e => match fst st !! fst x with
         | Some i => Ok (delete (fst x) (fst st), <[i := Throw e]> (snd st))
         | None => Throw (Exception "null pointer dereferenced")
         end
  end.
Fixpoint settle_failures (st : gmap Z nat * gmap nat (result unit)) (failed : list (Z * exn)) :
    result (gmap Z nat * gmap nat (result unit)) :=
  match failed with
  | [] => Ok st
  | x :: failed' => st' ← settle_failure st x; settle_failures st' failed'
  end.
Definition settle (jobs : list (nat * Z)) (failed : list (Z * exn)) (promises : gmap nat (result unit)) :
    result (gmap nat (result unit)) :=
  st ← settle_failures (succeeded_jobs jobs, promises) failed;
  Ok (map_fold (λ _ i p, <[i := Ok tt]> p) (snd st) (fst st)).

Section Sorter.
Context {B St : Type} `{!Serializable B (ObjectHeader B), !Backend B St}.
Context `{!Serializable B RootEntry, !Serializable B ArchiveQueue, !Serializable B ArchiveQueueShard, !Serializable B ArchiveRequest}.
Context `{!Serializable B RetrieveQueue, !Serializable B RetrieveQueueShard, !Serializable B RetrieveRequest}.
Context `{!Serializable bytes ChecksumPb, !Serializable B Agent}.
Context (dummy : B) (fresh : RetrieveJobToAdd) (freshActivity : RetrieveActivityDescription) (now : Z).
Context (getTapesByVid : gset string → result (gmap string Tape)) (sort : list RetrieveQueueStatistics → list RetrieveQueueStatistics) (index : nat).
Abbreviation SM := (M (SorterState St)).

(** An operation of an algorithm on a new container, and on the cache. *)
Definition so_algorithm {P A} `{!Message P} (m : M (QState B P St) A) : SM A := λ s,
  let '(r, q) := m (mkQState (new_object dummy) (mkLock Exclusive false) (so_be s) (so_agent s)) in
  (r, mkSorter (q_be q) (q_agent q) (so_cache s) (m_archiveQueuesAndRequests s) (m_retrieveQueuesAndRequests s) (so_promises s) (so_next s)).
Definition so_on_cache {A} (m : M (Cache * St) A) : SM A := λ s,
  let '(r, (c, be)) := m (so_cache s, so_be s) in
  (r, mkSorter be (so_agent s) c (m_archiveQueuesAndRequests s) (m_retrieveQueuesAndRequests s) (so_promises s) (so_next s)).
Definition so_settle (jobs : list (nat * Z)) (failed : list (Z * exn)) : SM unit := λ s,
  match settle jobs failed (so_promises s) with
  | Ok p => (Ok tt, mkSorter (so_be s) (so_agent s) (so_cache s) (m_archiveQueuesAndRequests s) (m_retrieveQueuesAndRequests s) p (so_next s))
  | Throw e => (Throw e, s)
  end.

(** ** Archive jobs *)
Definition saj_element (j : SorterArchiveJob) : ArchiveInserted :=
  mkArchiveInserted (saj_archiveRequest j) (ajd_copyNb (saj_jobDump j)) (archiveFileID (saj_archiveFile j))
    (af_fileSize (saj_archiveFile j)) (Some (saj_mountPolicy j)) None.
(** The owner of the last job counts for all. *)
Definition executeArchiveAlgorithm {Crit Sum : Type}
    (T : ContainerTraits B ArchiveQueue St ArchiveInserted ArchivePopped Crit Sum ArchiveJobStatus) (jobs : list (nat * SorterArchiveJob)) : SM unit :=
  let previousOwner := default "" (saj_previousOwner ∘ snd <$> last jobs) in
  failed ← so_algorithm (referenceAndSwitchOwnership (T := T) dummy previousOwner (saj_element ∘ snd <$> jobs));
  so_settle ((λ x, (fst x, ajd_copyNb (saj_jobDump (snd x)))) <$> jobs) ((λ x, (ai_copyNb (fst x), snd x)) <$> failed).
(** Every type has its algorithm. *)
Definition dispatchArchiveAlgorithm (tapePool : string) (qt : JobQueueType) (jobs : list (nat * SorterArchiveJob)) : SM unit :=
  match qt with
  | JobsToTransferForUser | JobsToTransferForRepack => executeArchiveAlgorithm (archive_transfer_traits dummy tapePool qt now 0) jobs
  | _ => executeArchiveAlgorithm (archive_report_traits dummy tapePool qt now 0) jobs
  end.

Definition insertArchiveJob (job : SorterArchiveJob) : SM unit :=
  modify (λ s, mkSorter (so_be s) (so_agent s) (so_cache s)
    (map_push key_compare (ajd_tapePool (saj_jobDump job), saj_jobQueueType job) (so_next s, job) (m_archiveQueuesAndRequests s))
    (m_retrieveQueuesAndRequests s) (so_promises s) (S (so_next s))).
(** A job without a queue is left out. *)
Definition insert_job_of (ar : ObjectOps B ArchiveRequest) (previousOwner : string) (job : ArchiveJobDump) : SM unit :=
  f ← lift (fst (getArchiveFile ar));
  p ← lift (fst (getMountPolicy ar));
  catch (qt ← lift (fst (getJobQueueType (ajd_copyNb job) ar));
         insertArchiveJob (mkSorterArchiveJob (m_name ar) job f previousOwner p qt))
    (λ _, Some (_ ← lift (fst (getArchiveFile ar)); mret tt)).
Definition insertArchiveRequest (ar : ObjectOps B ArchiveRequest) (previousOwner : string) : SM unit :=
  jobs ← lift (fst (request_dumpJobs ar)); mfor jobs (insert_job_of ar previousOwner).
(** The overload for jobs given by the caller. *)
Definition insertArchiveJobs (jobs : list SorterArchiveJob) (previousOwner : string) : SM unit :=
  mfor jobs (λ j, insertArchiveJob (mkSorterArchiveJob (saj_archiveRequest j) (saj_jobDump j) (saj_archiveFile j) previousOwner
                                      (saj_mountPolicy j) (saj_jobQueueType j))).

Definition flushOneArchive : SM bool :=
  m ← gets m_archiveQueuesAndRequests;
  match find_if (λ kv, bool_decide (snd kv ≠ [])) m with
  | None => mret false
  | Some ((pool, qt), jobs) =>
      _ ← dispatchArchiveAlgorithm pool qt jobs;
      _ ← modify (λ s, mkSorter (so_be s) (so_agent s) (so_cache s) (map_erase key_compare (pool, qt) (m_archiveQueuesAndRequests s))
                         (m_retrieveQueuesAndRequests s) (so_promises s) (so_next s));
      mret true
  end.

(** ** Retrieve jobs *)
Definition srj_element (j : SorterRetrieveJob) : RetrieveInserted :=
  mkRetrieveInserted (srj_retrieveRequest j) (rjd_copyNb (srj_jobDump j)) (srj_fSeq j) (srj_fileSize j) (srj_mountPolicy j)
    (srj_activityDescription j) (srj_diskSystemName j).
Definition executeRetrieveAlgorithm {Crit Sum : Type}
    (T : ContainerTraits B RetrieveQueue St RetrieveInserted RetrievePopped Crit Sum RetrieveJobStatus) (jobs : list (nat * SorterRetrieveJob)) : SM unit :=
  let previousOwner := default "" (srj_previousOwner ∘ snd <$> last jobs) in
  failed ← so_algorithm (referenceAndSwitchOwnership (T := T) dummy previousOwner (srj_element ∘ snd <$> jobs));
  so_settle ((λ x, (fst x, rjd_copyNb (srj_jobDump (snd x)))) <$> jobs) ((λ x, (rie_copyNb (fst x), snd x)) <$> failed).
Definition dispatchRetrieveAlgorithm (vid : string) (qt : JobQueueType) (jobs : list (nat * SorterRetrieveJob)) : SM unit :=
  match qt with
  | JobsToTransferForUser => executeRetrieveAlgorithm (retrieve_transfer_traits dummy fresh freshActivity vid qt now 0) jobs
  | JobsToTransferForRepack => throw (Exception "In Sorter::dispatchRetrieveAlgorithm(), unknown JobQueueType")
  | _ => executeRetrieveAlgorithm (retrieve_report_traits dummy fresh freshActivity vid qt now 0) jobs
  end.

(** [RetrieveRequestInfosAccessorInterface]: what the sorter asks of a request. *)
Record RetrieveRequestInfosAccessor := mkAccessor {
  acc_getJobs : result (list RetrieveRequestJobDump);
  acc_getArchiveFile : result ArchiveFile;
  acc_createRetrieveJob : ArchiveFile → Z → Z → string → result SorterRetrieveJob;
  acc_getJobStatus : Z → result RetrieveJobStatus;
  acc_getRepackAddress : result string;
  acc_getForceDisabledTape : result bool
}.
(** [OStoreRetrieveRequestAccessor]: a request that was fetched. *)
Definition ostore_createRetrieveJob (rr : ObjectOps B RetrieveRequest) (archiveFile : ArchiveFile) (copyNb fSeq : Z)
    (previousOwner : string) : result SorterRetrieveJob :=
  criteria ← fst (rr_getRetrieveFileQueueCriteria rr);
  status ← fst (rr_getJobStatus copyNb rr);
  qt ← fst (rr_getJobQueueType copyNb rr);
  activity ← fst (rr_getActivity rr);
  disk ← fst (rr_getDiskSystemName rr);
  Ok (mkSorterRetrieveJob (m_name rr) (mkRetrieveJobDump copyNb status) previousOwner (af_fileSize archiveFile) fSeq
        (rc_mountPolicy criteria) qt activity disk).
Definition ostore_accessor (rr : ObjectOps B RetrieveRequest) : RetrieveRequestInfosAccessor :=
  mkAccessor (fst (rr_dumpJobs rr)) (fst (rr_getArchiveFile rr)) (ostore_createRetrieveJob rr) (λ c, fst (rr_getJobStatus c rr))
    (ri ← fst (rr_getRepackInfo rr); Ok (rri_repackRequestAddress ri)) (ri ← fst (rr_getRepackInfo rr); Ok (forceDisabledTape ri)).
(** [SorterRetrieveRequestAccessor]: a request described by the caller.  The jobs come
    in the order of their copy numbers. *)
Definition described_job (r : SorterRetrieveRequest) (copyNb : Z) : result SorterRetrieveJob :=
  match srr_retrieveJobs r !! copyNb with Some j => Ok j | None => Throw (Exception "map::at") end.
Definition sorter_accessor (r : SorterRetrieveRequest) : RetrieveRequestInfosAccessor :=
  mkAccessor (Ok (omap (λ c, srj_jobDump <$> srr_retrieveJobs r !! c) (ascending (dom (srr_retrieveJobs r)))))
    (Ok (srr_archiveFile r)) (λ _ copyNb _ _, described_job r copyNb)
    (λ c, j ← described_job r c; Ok (rjd_status (srj_jobDump j))) (Ok (srr_repackRequestAddress r)) (Ok (srr_forceDisabledTape r)).

(** [tapeFiles.at(copyNb)] takes eight bits. *)
Definition tape_file_at (copyNb : Z) (f : ArchiveFile) : result TapeFile := tfl_at (copyNb mod 2 ^ 8) (af_tapeFiles f).
Fixpoint getCandidateVidsToTransfer (a : RetrieveRequestInfosAccessor) (jobs : list RetrieveRequestJobDump) : result (gset string) :=
  match jobs with
  | [] => Ok ∅
  | j :: jobs' =>
      if decide (rjd_status j = RJS_ToTransfer) then
        f ← acc_getArchiveFile a;
        tf ← tape_file_at (rjd_copyNb j) f;
        X ← getCandidateVidsToTransfer a jobs';
        Ok ({[tf_vid tf]} ∪ X)
      else getCandidateVidsToTransfer a jobs'
  end.
Definition getBestVidForQueueingRetrieveRequest (a : RetrieveRequestInfosAccessor) (candidateVids : gset string) : SM string :=
  d ← lift (acc_getForceDisabledTape a);
  so_on_cache (selectBestRetrieveQueue dummy getTapesByVid sort now index (set_iter candidateVids) d).
Definition getContainerID (a : RetrieveRequestInfosAccessor) (vid : string) (copyNb : Z) : result string :=
  st ← acc_getJobStatus a copyNb;
  if decide (st = RJS_ToReportToRepackForSuccess ∨ st = RJS_ToReportToRepackForFailure) then acc_getRepackAddress a else Ok vid.

Definition insert_retrieve_job (containerId : string) (qt : JobQueueType) (job : SorterRetrieveJob) : SM unit :=
  modify (λ s, mkSorter (so_be s) (so_agent s) (so_cache s) (m_archiveQueuesAndRequests s)
    (map_push key_compare (containerId, qt) (so_next s, job) (m_retrieveQueuesAndRequests s)) (so_promises s) (S (so_next s))).
(** [catch (const cta::exception::Exception & ex) { ... throw ex; }] throws the base class. *)
Definition rethrown {A} (m : SM A) : SM A :=
  catch m (λ e, Some (throw (match e with Exception w => Exception w | _ => Exception "" end))).

(** The last tape file of the chosen tape gives the copy. *)
Definition insert_for_transfer (a : RetrieveRequestInfosAccessor) (previousOwner : string) : SM unit :=
  jobs ← lift (acc_getJobs a);
  vids ← lift (getCandidateVidsToTransfer a jobs);
  if decide (vids = ∅) then throw (Exception "In Sorter::insertRetrieveRequest(), there is no ToTransfer jobs in the RetrieveRequest.")
  else
    bestVid ← getBestVidForQueueingRetrieveRequest a vids;
    f ← lift (acc_getArchiveFile a);
    match last (filter (λ tf, tf_vid tf = bestVid) (af_tapeFiles f)) with
    | None => throw (Exception "In Sorter::insertRetrieveRequest(): no tape file for requested vid.")
    | Some tf =>
        rethrown (job ← lift (acc_createRetrieveJob a f (tf_copyNb tf) (tf_fSeq tf) previousOwner);
                  insert_retrieve_job bestVid JobsToTransferForUser job)
    end.
Definition insertRetrieveRequest (a : RetrieveRequestInfosAccessor) (previousOwner : string) (copyNb : option Z) : SM unit :=
  match copyNb with
  | None => insert_for_transfer a previousOwner
  | Some c =>
      f ← lift (acc_getArchiveFile a);
      tf ← lift (tape_file_at c f);
      rethrown (job ← lift (acc_createRetrieveJob a f (tf_copyNb tf) (tf_fSeq tf) previousOwner);
                containerId ← lift (getContainerID a (tf_vid tf) c);
                insert_retrieve_job containerId (srj_jobQueueType job) job)
  end.

Definition flushOneRetrieve : SM bool :=
  m ← gets m_retrieveQueuesAndRequests;
  match find_if (λ kv, bool_decide (snd kv ≠ [])) m with
  | None => mret false
  | Some ((vid, qt), jobs) =>
      _ ← dispatchRetrieveAlgorithm vid qt jobs;
      _ ← modify (λ s, mkSorter (so_be s) (so_agent s) (so_cache s) (m_archiveQueuesAndRequests s)
                         (map_erase key_compare (vid, qt) (m_retrieveQueuesAndRequests s)) (so_promises s) (so_next s));
      mret true
  end.

(** [while (flush(lc)) {}]. *)
Fixpoint flush_loop (flush : SM bool) (fuel : nat) : SM unit :=
  match fuel with
  | O => throw OutOfFuel
  | S fuel' => b ← flush; if (b : bool) then flush_loop flush fuel' else mret tt
  end.
(** One round per queue, and a last one that finds none. *)
Definition flushAll : SM unit :=
  r ← gets (λ s, length (m_retrieveQueuesAndRequests s));
  _ ← flush_loop flushOneRetrieve (S r);
  a ← gets (λ s, length (m_archiveQueuesAndRequests s));
  flush_loop flushOneArchive (S a).
End Sorter.
