(* ===== verification/SorterSpec.v ===== *)
(** * What a flush of the sorter leaves

    Every queue is served once, and every job gets an answer, provided that no two jobs
    of a queue have the same copy number. *)
From S2P Require Import Prelude DataTypes Checksum ValueCountMap Backend ObjectOps Handles ProtoAlgorithms ArchiveFile ArchiveQueueShard ArchiveQueue ArchiveRequest RetrieveActivity RetrieveQueueShard RetrievePlan RetrieveQueue RetrieveRequest Agent Registers RootEntry AgentLife RepackRequest Helpers RetrieveCache Algorithms QueueTraits RetrieveTraits Sorter.

(** ** The promises of one queue *)

(** What a job is told: the first failure of its copy number, unless the request is gone. *)
Definition told (failed : list (Z * exn)) (cn : Z) : result unit :=
  match find_if (λ x, bool_decide (fst x = cn ∧ snd x ≠ NoSuchObject)) failed with Some x => Throw (snd x) | None => Ok tt end.

Lemma succeeded_jobs_lookup jobs cn i :
  NoDup jobs.*2 → succeeded_jobs jobs !! cn = Some i ↔ (i, cn) ∈ jobs.
Proof.
  unfold succeeded_jobs. induction jobs as [|[j d] jobs IH] using rev_ind; intros Hnd.
  { simpl. rewrite lookup_empty. set_solver. }
  rewrite fmap_app in Hnd. apply NoDup_app in Hnd as (Hnd & Hx & _). rewrite foldl_app, elem_of_app, list_elem_of_singleton. simpl.
  destruct (decide (cn = d)) as [->|Hne].
  - rewrite lookup_insert, decide_True by done. split; [intros [= ->]; by right|]. intros [Hin|[= ->]]; [|done].
    exfalso. apply (Hx d); [|simpl; set_solver]. apply list_elem_of_fmap. by exists (i, d).
  - rewrite lookup_insert_ne by done. rewrite IH by done. naive_solver.
Qed.

Lemma told_cons x l cn :
  told (x :: l) cn = if decide (fst x = cn ∧ snd x ≠ NoSuchObject) then Throw (snd x) else told l cn.
Proof. unfold told. simpl. case_decide; [by rewrite bool_decide_true|by rewrite bool_decide_false]. Qed.

Definition injective_map (m : gmap Z nat) : Prop := ∀ c c' i, m !! c = Some i → m !! c' = Some i → c = c'.
(** The failures take their jobs out of the map. *)
Definition failures_told (failed : list (Z * exn)) (m m' : gmap Z nat) (p p' : gmap nat (result unit)) : Prop :=
  (∀ cn i, m !! cn = Some i →
     match told failed cn with
     | Ok _ => m' !! cn = Some i ∧ p' !! i = p !! i
     | Throw e => m' !! cn = None ∧ p' !! i = Some (Throw e)
     end) ∧
  (∀ cn, m !! cn = None → m' !! cn = None) ∧ (∀ i, (∀ cn, m !! cn ≠ Some i) → p' !! i = p !! i).

Lemma settle_failures_spec failed m p :
  NoDup failed.*1 → (∀ x, x ∈ failed → is_Some (m !! fst x)) → injective_map m →
  ∃ m' p', settle_failures (m, p) failed = Ok (m', p') ∧ failures_told failed m m' p p'.
Proof.
  revert m p. induction failed as [|[c e] l IH]; intros m p Hnd Hin Hinj.
  { exists m, p. split; [done|]. split_and!; done. }
  apply NoDup_cons in Hnd as [Hc Hnd]. simpl. unfold settle_failure. simpl.
  destruct (decide (e = NoSuchObject)) as [->|He].
  { destruct (IH m p Hnd ltac:(set_solver) Hinj) as (m' & p' & E & Hm & Hn & Hp). exists m', p'. split; [done|].
    split_and!; [|done|done]. intros cn i Hi. rewrite told_cons, decide_False by naive_solver. by apply Hm. }
  destruct (Hin (c, e) ltac:(by left)) as [i0 Hi0]. simpl in Hi0. rewrite Hi0.
  destruct (IH (delete c m) (<[i0 := Throw e]> p) Hnd) as (m' & p' & E & Hm & Hn & Hp).
  { intros y Hy. rewrite lookup_delete_ne; [by apply Hin; right|]. intros ->. apply Hc. apply list_elem_of_fmap. by exists y. }
  { intros c1 c2 i (_ & H1)%lookup_delete_Some (_ & H2)%lookup_delete_Some. by apply (Hinj c1 c2 i). }
  exists m', p'. split; [by destruct e; try exact E|]. split_and!.
  - intros cn i Hi. rewrite told_cons. simpl. destruct (decide (c = cn)) as [->|Hne].
    + rewrite decide_True by done. simplify_eq. split; [apply Hn, lookup_delete_eq|]. rewrite Hp; [apply lookup_insert_eq|].
      intros c' (Hc' & Hm')%lookup_delete_Some. apply Hc'. by apply (Hinj cn c' i0).
    + rewrite decide_False by naive_solver. specialize (Hm cn i). rewrite lookup_delete_ne in Hm by done. specialize (Hm Hi).
      destruct (told l cn); [|done]. rewrite lookup_insert_ne in Hm; [done|]. intros ->. by apply Hne, (Hinj c cn i).
  - intros cn Hcn. apply Hn. by rewrite lookup_delete_None; right.
  - intros i Hi. rewrite Hp, lookup_insert_ne; [done|naive_solver|]. intros cn (_ & ?)%lookup_delete_Some. by apply (Hi cn).
Qed.

Lemma tell_ok_lookup (m : gmap Z nat) (p : gmap nat (result unit)) i :
  map_fold (λ _ i p, <[i := Ok tt]> p) p m !! i =
    if decide (map_Exists (λ _ j, j = i) m) then Some (Ok tt) else p !! i.
Proof.
  pose (P := λ (q : gmap nat (result unit)) (m : gmap Z nat), q !! i = if decide (map_Exists (λ _ j, j = i) m) then Some (Ok tt) else p !! i).
  apply (map_fold_weak_ind P); unfold P; clear P.
  { by rewrite decide_False by apply map_Exists_empty. }
  intros k j m' q Hk IH. destruct (decide (j = i)) as [->|Hne].
  - rewrite lookup_insert_eq, decide_True; [done|]. exists k, i. by rewrite lookup_insert_eq.
  - rewrite lookup_insert_ne, IH by done. f_equal. apply decide_ext. rewrite map_Exists_insert by done. naive_solver.
Qed.

(** With distinct numbers and distinct copies, every job of the queue is told its outcome
    and no other promise changes. *)
Lemma settle_spec jobs failed p :
  NoDup jobs.*1 → NoDup jobs.*2 → NoDup failed.*1 → (∀ x, x ∈ failed → fst x ∈ jobs.*2) →
  ∃ p', settle jobs failed p = Ok p' ∧ (∀ i cn, (i, cn) ∈ jobs → p' !! i = Some (told failed cn)) ∧
    (∀ i, i ∉ jobs.*1 → p' !! i = p !! i).
Proof.
  intros Hn1 Hn2 Hnf Hin. pose proof (λ cn i, succeeded_jobs_lookup jobs cn i Hn2) as Hl.
  assert (Huniq : ∀ i c c', (i, c) ∈ jobs → (i, c') ∈ jobs → c = c').
  { intros i c c' (k & H1)%list_elem_of_lookup (k' & H2)%list_elem_of_lookup.
    assert (k = k') as <- by (apply (NoDup_lookup jobs.*1 k k' i); [done|rewrite list_lookup_fmap, H1; done|rewrite list_lookup_fmap, H2; done]). by simplify_eq. }
  destruct (settle_failures_spec failed (succeeded_jobs jobs) p Hnf) as (m' & p' & E & Hm & Hn & Hp).
  { intros x (y & -> & Hy)%Hin%list_elem_of_fmap. exists (fst y). apply Hl. by destruct y. }
  { intros c c' i H1%Hl H2%Hl. by apply (Huniq i). }
  eexists. split; [unfold settle; rewrite E; done|]. split.
  - intros i cn Hi. pose proof (Hm cn i (proj2 (Hl _ _) Hi)) as Ht. simpl. rewrite tell_ok_lookup. destruct (told failed cn) as [[]|e] eqn:Et.
    + rewrite decide_True; [done|]. exists cn, i. naive_solver.
    + rewrite decide_False; [by apply Ht|]. intros (c & j & Hj & ->).
      destruct (succeeded_jobs jobs !! c) as [k|] eqn:Ek; [|rewrite Hn in Hj; done].
      pose proof (Hm c k Ek) as Hk. destruct (told failed c) as [[]|] eqn:Etc; [|naive_solver].
      destruct Hk as [Hk _]. rewrite Hk in Hj. injection Hj as ->. apply Hl in Ek. by rewrite (Huniq i c cn Ek Hi), Et in Etc.
  - intros i Hi. simpl. rewrite tell_ok_lookup, decide_False.
    + apply Hp. intros cn Hcn%Hl. apply Hi, list_elem_of_fmap. by exists (i, cn).
    + intros (c & j & Hj & ->). destruct (succeeded_jobs jobs !! c) as [k|] eqn:Ek; [|rewrite Hn in Hj; done].
      pose proof (Hm c k Ek) as Hk. destruct (told failed c) as [[]|]; [|naive_solver]. destruct Hk as [Hk _]. rewrite Hk in Hj. injection Hj as ->.
      apply Hi, list_elem_of_fmap. exists (i, c). split; [done|]. by apply Hl.
Qed.

(** Of two jobs with the same copy number the first is told nothing. *)
Lemma settle_failures_keeps failed m p m' p' i :
  settle_failures (m, p) failed = Ok (m', p') → (∀ c, m !! c ≠ Some i) → p' !! i = p !! i ∧ ∀ c, m' !! c ≠ Some i.
Proof.
  revert m p. induction failed as [|[c e] l IH]; intros m p; simpl; [by intros [= <- <-]|].
  unfold settle_failure. simpl. intros E Hi.
  destruct (decide (e = NoSuchObject)) as [->|He]; [by apply (IH m p)|].
  destruct (m !! c) as [j|] eqn:Ej; [|by destruct e].
  assert (E' : settle_failures (delete c m, <[j := Throw e]> p) l = Ok (m', p')) by (by destruct e).
  destruct (IH _ _ E') as [Hp Hm]; [|split; [|done]].
  - intros c' (_ & ?)%lookup_delete_Some. by apply (Hi c').
  - rewrite Hp. apply lookup_insert_ne. intros ->. by apply (Hi c).
Qed.
Lemma succeeded_jobs_later l j cn c i :
  succeeded_jobs (l ++ [(j, cn)]) !! c = Some i → (c = cn ∧ i = j) ∨ (c ≠ cn ∧ succeeded_jobs l !! c = Some i).
Proof.
  unfold succeeded_jobs. rewrite foldl_app. simpl. destruct (decide (c = cn)) as [->|]; [rewrite lookup_insert_eq|rewrite lookup_insert_ne by done]; naive_solver.
Qed.
Lemma overwritten_job l1 i cn l2 j l3 c :
  NoDup (l1 ++ (i, cn) :: l2 ++ (j, cn) :: l3).*1 → succeeded_jobs (l1 ++ (i, cn) :: l2 ++ (j, cn) :: l3) !! c ≠ Some i.
Proof.
  intros Hnd. assert (Hi : (i ∉ l1.*1) ∧ (i ∉ l2.*1) ∧ i ≠ j ∧ (i ∉ l3.*1)).
  { rewrite fmap_app, NoDup_app, fmap_cons, NoDup_cons, fmap_app in Hnd. set_solver. }
  clear Hnd. destruct Hi as (H1 & H2 & Hij & H3).
  induction l3 as [|[k d] l3 IH] using rev_ind.
  - replace (l1 ++ (i, cn) :: l2 ++ [(j, cn)]) with ((l1 ++ (i, cn) :: l2) ++ [(j, cn)]) by (by rewrite <-app_assoc).
    intros [[_ ->]|[Hc Hs]]%succeeded_jobs_later; [done|]. clear H3. induction l2 as [|[k d] l2 IH2] using rev_ind.
    + apply succeeded_jobs_later in Hs as [[? _]|[_ Hs]]; [done|]. apply H1, list_elem_of_fmap. exists (i, c). split; [done|].
      clear -Hs. revert Hs. induction l1 as [|[k d] l1 IH] using rev_ind; [done|]. intros [[-> ->]|[_ ?]]%succeeded_jobs_later; set_solver.
    + rewrite fmap_app in H2. replace (l1 ++ (i, cn) :: l2 ++ [(k, d)]) with ((l1 ++ (i, cn) :: l2) ++ [(k, d)]) in Hs by (by rewrite <-app_assoc).
      apply succeeded_jobs_later in Hs as [[_ ->]|[_ Hs]]; [apply H2; simpl; set_solver|]. apply IH2; [set_solver|done].
  - rewrite fmap_app in H3. replace (l1 ++ (i, cn) :: l2 ++ (j, cn) :: l3 ++ [(k, d)]) with ((l1 ++ (i, cn) :: l2 ++ (j, cn) :: l3) ++ [(k, d)])
      by (by rewrite <-app_assoc; simpl; rewrite <-app_assoc).
    intros [[_ ->]|[_ Hs]]%succeeded_jobs_later; [apply H3; simpl; set_solver|]. apply IH; [set_solver|done].
Qed.
Lemma settle_overwritten l1 i cn l2 j l3 failed p p' :
  NoDup (l1 ++ (i, cn) :: l2 ++ (j, cn) :: l3).*1 → settle (l1 ++ (i, cn) :: l2 ++ (j, cn) :: l3) failed p = Ok p' → p' !! i = p !! i.
Proof.
  intros Hnd E. unfold settle in E. destruct (settle_failures _ failed) as [[m q]|] eqn:Es; [|done]. injection E as <-.
  destruct (settle_failures_keeps _ _ _ _ _ i Es) as [Hq Hm]; [intros c; by apply overwritten_job|].
  simpl. rewrite tell_ok_lookup, decide_False; [done|]. intros (c & k & Hk & ->). by apply (Hm c).
Qed.

(** ** A flush *)
Lemma failures_sublist {A C} (l : list A) (rs : list (result C)) : (failures l rs).*1 `sublist_of` l.
Proof.
  unfold failures. revert rs. induction l as [|a l IH]; intros [|r rs]; simpl; try apply sublist_nil_l.
  unfold failure_of at 1. simpl. destruct r; [by apply sublist_cons|by apply sublist_skip].
Qed.

Section SorterSpec.
Context {B St : Type} `{!Serializable B (ObjectHeader B), !Backend B St}.
Context `{!Serializable B RootEntry, !Serializable B ArchiveQueue, !Serializable B ArchiveQueueShard, !Serializable B ArchiveRequest}.
Context `{!Serializable B RetrieveQueue, !Serializable B RetrieveQueueShard, !Serializable B RetrieveRequest}.
Context `{!Serializable bytes ChecksumPb, !Serializable B Agent}.
Context (dummy : B) (fresh : RetrieveJobToAdd) (freshActivity : RetrieveActivityDescription) (now : Z).
Implicit Types s : SorterState St.

Lemma algorithm_failures {P El Pop Crit Sum Status} `{!Serializable B P} (T : ContainerTraits B P St El Pop Crit Sum Status) prev els (q : QState B P St) failed q' :
  referenceAndSwitchOwnership (T := T) dummy prev els q = (Ok failed, q') → failed.*1 `sublist_of` els.
Proof.
  unfold referenceAndSwitchOwnership. intros (? & q1 & _ & (? & q2 & _ & (f & q3 & Hf & (? & ? & _ & [= <- _])%bind_inv_ok)%bind_inv_ok)%bind_inv_ok)%bind_inv_ok.
  unfold switch_and_dereference in Hf. apply bind_inv_ok in Hf as (? & ? & _ & (f' & ? & Hf & (? & ? & _ & (? & ? & _ & [= <- _])%bind_inv_ok)%bind_inv_ok)%bind_inv_ok).
  unfold switchElementsOwnership in Hf. apply bind_inv_ok in Hf as (rs & ? & _ & [= <- _]). apply failures_sublist.
Qed.

(** The jobs are told; the queues that wait are not touched. *)
Definition answered (ids : list nat) s s' : Prop :=
  (∀ i, i ∈ ids → is_Some (so_promises s' !! i)) ∧ (∀ i, i ∉ ids → so_promises s' !! i = so_promises s !! i).
Lemma served {P El} `{!Message P} (m : M (QState B P St) (list (El * exn))) (els : list El) (number : El → Z) (ids : list (nat * Z)) s r s' :
  (failed ← so_algorithm dummy m; so_settle ids ((λ x, (number (fst x), snd x)) <$> failed)) s = (r, s') →
  (∀ q failed q', m q = (Ok failed, q') → failed.*1 `sublist_of` els) → number <$> els = ids.*2 →
  m_archiveQueuesAndRequests s' = m_archiveQueuesAndRequests s ∧ m_retrieveQueuesAndRequests s' = m_retrieveQueuesAndRequests s ∧
  match r with Ok _ => NoDup ids.*1 → NoDup ids.*2 → answered ids.*1 s s' | Throw _ => so_promises s' = so_promises s end.
Proof.
  intros E Hm Hn. unfold so_algorithm, mbind, M_bind in E. destruct (m _) as [[failed|e] q] eqn:Em; [|by injection E as <- <-].
  apply Hm in Em. unfold so_settle in E. simpl in E. destruct (settle ids _ _) as [p|e] eqn:Es; injection E as <- <-; [|done].
  split_and!; [done|done|]. intros Hn1 Hn2.
  assert (Hfst : ((λ x : El * exn, (number (fst x), snd x)) <$> failed).*1 = number <$> failed.*1) by (by rewrite <-!list_fmap_compose).
  pose proof (fmap_sublist number _ _ Em) as Hsub. rewrite <-Hfst, Hn in Hsub.
  destruct (settle_spec ids ((λ x, (number (fst x), snd x)) <$> failed) (so_promises s) Hn1 Hn2) as (p' & Ep & Hp & Hk).
  - by eapply sublist_NoDup.
  - intros x Hx. eapply elem_of_sublist; [|exact Hsub]. by apply list_elem_of_fmap_2.
  - rewrite Ep in Es. injection Es as <-. split; [|done]. intros i ([j cn] & -> & Hin)%list_elem_of_fmap. eexists. by apply Hp.
Qed.

Definition archive_copies (jobs : list (nat * SorterArchiveJob)) : list Z := (λ x, ajd_copyNb (saj_jobDump (snd x))) <$> jobs.
Definition retrieve_copies (jobs : list (nat * SorterRetrieveJob)) : list Z := (λ x, rjd_copyNb (srj_jobDump (snd x))) <$> jobs.

Lemma archive_served pool qt jobs s r s' :
  dispatchArchiveAlgorithm dummy now pool qt jobs s = (r, s') →
  m_archiveQueuesAndRequests s' = m_archiveQueuesAndRequests s ∧ m_retrieveQueuesAndRequests s' = m_retrieveQueuesAndRequests s ∧
  match r with Ok _ => NoDup jobs.*1 → NoDup (archive_copies jobs) → answered jobs.*1 s s' | Throw _ => so_promises s' = so_promises s end.
Proof.
  intros E. set (ids := (λ x : nat * SorterArchiveJob, (fst x, ajd_copyNb (saj_jobDump (snd x)))) <$> jobs).
  assert (H1 : ids.*1 = jobs.*1) by (unfold ids; by rewrite <-list_fmap_compose).
  assert (H2 : ids.*2 = archive_copies jobs) by (unfold ids; by rewrite <-list_fmap_compose).
  rewrite <-H1, <-H2. unfold dispatchArchiveAlgorithm, executeArchiveAlgorithm in E. fold ids in E.
  destruct qt; (apply (served _ (saj_element ∘ snd <$> jobs) ai_copyNb ids s r s' E);
    [intros q f q' Hq; by apply algorithm_failures in Hq|rewrite H2; unfold archive_copies; by rewrite <-list_fmap_compose]).
Qed.
Lemma retrieve_served vid qt jobs s r s' :
  dispatchRetrieveAlgorithm dummy fresh freshActivity now vid qt jobs s = (r, s') →
  m_archiveQueuesAndRequests s' = m_archiveQueuesAndRequests s ∧ m_retrieveQueuesAndRequests s' = m_retrieveQueuesAndRequests s ∧
  match r with Ok _ => NoDup jobs.*1 → NoDup (retrieve_copies jobs) → answered jobs.*1 s s' | Throw _ => so_promises s' = so_promises s end.
Proof.
  intros E. set (ids := (λ x : nat * SorterRetrieveJob, (fst x, rjd_copyNb (srj_jobDump (snd x)))) <$> jobs).
  assert (H1 : ids.*1 = jobs.*1) by (unfold ids; by rewrite <-list_fmap_compose).
  assert (H2 : ids.*2 = retrieve_copies jobs) by (unfold ids; by rewrite <-list_fmap_compose).
  rewrite <-H1, <-H2. unfold dispatchRetrieveAlgorithm, executeRetrieveAlgorithm in E. fold ids in E.
  destruct qt; try (apply (served _ (srj_element ∘ snd <$> jobs) rie_copyNb ids s r s' E);
    [intros q f q' Hq; by apply algorithm_failures in Hq|rewrite H2; unfold retrieve_copies; by rewrite <-list_fmap_compose]).
  by injection E as <- <-.
Qed.

(** *** The loop *)

(** [while (flush(lc)) {}] as it runs, without a bound on the rounds: [n] rounds, then
    the outcome. *)
Inductive while_flush (flush : M (SorterState St) bool) : nat → SorterState St → result unit → SorterState St → Prop :=
  | while_done s s' : flush s = (Ok false, s') → while_flush flush 1 s (Ok tt) s'
  | while_throw s e s' : flush s = (Throw e, s') → while_flush flush 1 s (Throw e) s'
  | while_more n s s1 r s' : flush s = (Ok true, s1) → while_flush flush n s1 r s' → while_flush flush (S n) s r s'.

(** No queue without jobs; a number per job. *)
Abbreviation queues J := (list (string * JobQueueType * list (nat * J))).
Definition job_ids {J} (m : queues J) : list nat :=
  concat ((λ kv : string * JobQueueType * list (nat * J), (snd kv).*1) <$> m).
Record waiting {J} (m : queues J) : Prop := {
  wt_jobs : Forall (λ kv : string * JobQueueType * list (nat * J), snd kv ≠ []) m;
  wt_ids : NoDup (job_ids m)
}.
Definition distinct_copies {J} (copies : list (nat * J) → list Z) (m : queues J) : Prop :=
  Forall (λ kv : string * JobQueueType * list (nat * J), NoDup (copies (snd kv))) m.

Lemma job_ids_app {J} (m m' : queues J) : job_ids (m ++ m') = job_ids m ++ job_ids m'.
Proof. unfold job_ids. by rewrite fmap_app, concat_app. Qed.

(** Jobs answered in two stages. *)
Lemma answered_trans l l' s1 s2 s3 :
  (∀ i, i ∈ l → i ∉ l') → answered l s1 s2 → answered l' s2 s3 → answered (l ++ l') s1 s3.
Proof.
  intros Hd [H1 H2] [H3 H4]. split; intros i.
  - intros [Hi|Hi]%elem_of_app; [|by apply H3]. rewrite H4 by (by apply Hd). by apply H1.
  - intros [Hn1 Hn2]%not_elem_of_app. by rewrite H4, H2.
Qed.
Lemma answered_nil s s' : so_promises s' = so_promises s → answered [] s s'.
Proof. intros E. split; intros i; [by intros ?%elem_of_nil|by rewrite E]. Qed.

(** One round: the first queue is served and taken out; or its algorithm fails, and
    nothing of the sorter changes. *)
Definition serves {J X} (copies : list (nat * J) → list Z) (get : SorterState St → queues J)
    (others : SorterState St → X) (dispatch : string → JobQueueType → list (nat * J) → M (SorterState St) unit)
    (flush : M (SorterState St) bool) : Prop :=
  (∀ s, get s = [] → flush s = (Ok false, s)) ∧
  (∀ s k jobs rest, get s = (k, jobs) :: rest → jobs ≠ [] →
     (∃ e s', flush s = (Throw e, s') ∧ dispatch (fst k) (snd k) jobs s = (Throw e, s') ∧
        get s' = get s ∧ others s' = others s ∧ so_promises s' = so_promises s) ∨
     ∃ s', flush s = (Ok true, s') ∧ get s' = rest ∧ others s' = others s ∧
       (NoDup jobs.*1 → NoDup (copies jobs) → answered jobs.*1 s s')).

(** How a loop ends: the queues [dn] were served and [left] were not.  It returns when
    none is left; it throws what the algorithm of the first queue left threw. *)
Definition ends {J X} (copies : list (nat * J) → list Z) (get : SorterState St → queues J)
    (others : SorterState St → X) (dispatch : string → JobQueueType → list (nat * J) → M (SorterState St) unit)
    s (r : result unit) s' : Prop :=
  ∃ dn left, get s = dn ++ left ∧ get s' = left ∧ others s' = others s ∧
    (distinct_copies copies dn → answered (job_ids dn) s s') ∧
    match r with
    | Ok _ => left = []
    | Throw e => ∃ k jobs rest s1, left = (k, jobs) :: rest ∧ dispatch (fst k) (snd k) jobs s1 = (Throw e, s')
    end.

Lemma flush_loop_serves {J X} copies (get : SorterState St → queues J) (others : SorterState St → X) dispatch flush s :
  serves copies get others dispatch flush → waiting (get s) →
  ∃ n r s', while_flush flush n s r s' ∧ (n <= S (length (get s)))%nat ∧
    (∀ k, flush_loop flush (S (length (get s)) + k) s = (r, s')) ∧ ends copies get others dispatch s r s'.
Proof.
  intros [Hnil Hcons]. remember (get s) as m eqn:Hs. revert s Hs. induction m as [|[k jobs] rest IH]; intros s Hs [Hj Hi].
  - symmetry in Hs. apply Hnil in Hs as E. exists 1%nat, (Ok tt), s. split_and!; [by constructor|done| |].
    + intros k. by simpl; rewrite (bind_ok _ _ _ _ _ E).
    + exists [], []. split_and!; try done. intros _. by apply answered_nil.
  - apply Forall_cons in Hj as [Hj Hjs]. unfold job_ids in Hi. simpl in Hi. apply NoDup_app in Hi as (Hi & Hd & Hr).
    destruct (Hcons s k jobs rest (eq_sym Hs) Hj) as [(e & s1 & E & Ed & Hg & Ho & Hp)|(s1 & E & Hg & Ho & Ha)].
    + exists 1%nat, (Throw e), s1. split_and!; [by apply while_throw|simpl; lia| |].
      * intros n. by simpl; rewrite (bind_throw _ _ _ _ _ E).
      * exists [], ((k, jobs) :: rest). split_and!; [done|congruence|done| |by eexists _, _, _, _].
        intros _. by apply answered_nil.
    + destruct (IH s1 (eq_sym Hg)) as (n & r & s' & Hw & Hn & Hf & dn & left & E1 & E2 & E3 & E4 & E5); [by split|].
      exists (S n), r, s'. split_and!; [by eapply while_more|simpl; lia| |].
      * intros i. rewrite <- Hf with i. simpl. by rewrite (bind_ok _ _ _ _ _ E).
      * rewrite Hg in E1. exists ((k, jobs) :: dn), left. split_and!; [simpl; congruence|done|congruence| |done].
        intros [Hc Hcs]%Forall_cons. unfold job_ids. simpl. apply (answered_trans _ _ _ s1); [|by apply Ha|by apply E4].
        intros i Hin Hin'. apply (Hd i Hin). rewrite E1. change (i ∈ job_ids (dn ++ left)). rewrite job_ids_app. by apply elem_of_app; left.
Qed.

Lemma key_compare_refl k : key_compare k k = Eq.
Proof.
  unfold key_compare. replace (String.compare (fst k) (fst k)) with Eq; [by apply Nat.compare_refl|].
  induction (fst k) as [|c t IH]; [done|]. simpl. unfold Ascii.compare. by rewrite N.compare_refl.
Qed.
Lemma flushOneRetrieve_serves :
  serves retrieve_copies m_retrieveQueuesAndRequests m_archiveQueuesAndRequests (dispatchRetrieveAlgorithm dummy fresh freshActivity now)
    (flushOneRetrieve dummy fresh freshActivity now).
Proof.
  split; intros s; [by intros Hs; unfold flushOneRetrieve, mbind, M_bind, gets; rewrite Hs|].
  intros [vid qt] jobs rest Hs Hj. unfold flushOneRetrieve. rewrite (bind_ok (gets _) _ s _ s eq_refl), Hs. cbn [find_if snd]. rewrite bool_decide_true by done.
  destruct (dispatchRetrieveAlgorithm dummy fresh freshActivity now vid qt jobs s) as [[[]|e] s1] eqn:E; pose proof E as (Ha & Hr & Hp)%retrieve_served.
  2:{ left. exists e, s1. by rewrite (bind_throw _ _ _ _ _ E), ?Ha, ?Hr. }
  right. rewrite (bind_ok _ _ _ _ _ E). eexists. split; [done|]. simpl. rewrite Hr, Hs. simpl.
  rewrite key_compare_refl. split_and!; [done|done|]. by apply Hp.
Qed.
Lemma flushOneArchive_serves :
  serves archive_copies m_archiveQueuesAndRequests m_retrieveQueuesAndRequests (dispatchArchiveAlgorithm dummy now)
    (flushOneArchive dummy now).
Proof.
  split; intros s; [by intros Hs; unfold flushOneArchive, mbind, M_bind, gets; rewrite Hs|].
  intros [pool qt] jobs rest Hs Hj. unfold flushOneArchive. rewrite (bind_ok (gets _) _ s _ s eq_refl), Hs. cbn [find_if snd]. rewrite bool_decide_true by done.
  destruct (dispatchArchiveAlgorithm dummy now pool qt jobs s) as [[[]|e] s1] eqn:E; pose proof E as (Ha & Hr & Hp)%archive_served.
  2:{ left. exists e, s1. by rewrite (bind_throw _ _ _ _ _ E), ?Ha, ?Hr. }
  right. rewrite (bind_ok _ _ _ _ _ E). eexists. split; [done|]. simpl. rewrite Ha, Hs. simpl.
  rewrite key_compare_refl. split_and!; [done|done|]. by apply Hp.
Qed.

(** A job that a later one of its copy number replaced. *)
Lemma overwritten_unanswered pool qt l1 i x l2 j y l3 s s' :
  let jobs := l1 ++ (i, x) :: l2 ++ (j, y) :: l3 in
  NoDup jobs.*1 → ajd_copyNb (saj_jobDump x) = ajd_copyNb (saj_jobDump y) →
  dispatchArchiveAlgorithm dummy now pool qt jobs s = (Ok tt, s') → so_promises s' !! i = so_promises s !! i.
Proof.
  intros jobs Hnd Heq E. set (f := λ x : nat * SorterArchiveJob, (fst x, ajd_copyNb (saj_jobDump (snd x)))).
  assert (Hids : (f <$> jobs).*1 = jobs.*1) by (by rewrite <-list_fmap_compose). rewrite <-Hids in Hnd.
  assert (Hsplit : f <$> jobs = (f <$> l1) ++ (i, ajd_copyNb (saj_jobDump x)) :: (f <$> l2) ++ (j, ajd_copyNb (saj_jobDump x)) :: (f <$> l3)).
  { unfold jobs. rewrite fmap_app, fmap_cons, fmap_app, fmap_cons. unfold f at 2 4. simpl. by rewrite Heq. }
  assert (Hrun : ∀ P (HP : Message P) (m : M (QState B P St) (list (ArchiveInserted * exn))),
    (failed ← so_algorithm dummy m; so_settle (f <$> jobs) ((λ x, (ai_copyNb (fst x), snd x)) <$> failed)) s = (Ok tt, s') → so_promises s' !! i = so_promises s !! i).
  { intros P HP m (failed & s1 & E1 & E2)%bind_inv_ok. unfold so_algorithm in E1. destruct (m _) as [r q]. injection E1 as -> <-.
    unfold so_settle in E2. simpl in E2. destruct (settle _ _ _) as [p|] eqn:Es; [|done]. injection E2 as <-. simpl.
    rewrite Hsplit in Hnd, Es. exact (settle_overwritten _ _ _ _ _ _ _ _ _ Hnd Es). }
  destruct qt; exact (Hrun _ _ _ E).
Qed.

(** [flushAll] without bounds: the loop over the retrieve queues and, when it returns,
    the one over the archive queues; [n] is the number of rounds. *)
Inductive flush_runs : nat → SorterState St → result unit → SorterState St → Prop :=
  | runs_throw n s e s' : while_flush (flushOneRetrieve dummy fresh freshActivity now) n s (Throw e) s' → flush_runs n s (Throw e) s'
  | runs_both n n' s s1 r s' :
      while_flush (flushOneRetrieve dummy fresh freshActivity now) n s (Ok tt) s1 →
      while_flush (flushOneArchive dummy now) n' s1 r s' → flush_runs (n + n') s r s'.

(** What is left of the queues of the sorter, and why. *)
Definition flush_outcome s (r : result unit) s' : Prop :=
  ∃ dr lr da la, m_retrieveQueuesAndRequests s = dr ++ lr ∧ m_retrieveQueuesAndRequests s' = lr ∧
    m_archiveQueuesAndRequests s = da ++ la ∧ m_archiveQueuesAndRequests s' = la ∧
    (distinct_copies retrieve_copies dr → distinct_copies archive_copies da → answered (job_ids dr ++ job_ids da) s s') ∧
    match r with
    | Ok _ => lr = [] ∧ la = []
    | Throw e =>
        (∃ k jobs rest s1, lr = (k, jobs) :: rest ∧ da = [] ∧
           dispatchRetrieveAlgorithm dummy fresh freshActivity now (fst k) (snd k) jobs s1 = (Throw e, s')) ∨
        (∃ k jobs rest s1, la = (k, jobs) :: rest ∧ lr = [] ∧
           dispatchArchiveAlgorithm dummy now (fst k) (snd k) jobs s1 = (Throw e, s'))
    end.

Lemma flushAll_ends s :
  waiting (m_retrieveQueuesAndRequests s) → waiting (m_archiveQueuesAndRequests s) →
  (∀ i, i ∈ job_ids (m_retrieveQueuesAndRequests s) → i ∉ job_ids (m_archiveQueuesAndRequests s)) →
  ∃ n r s', flush_runs n s r s' ∧
    (n <= 2 + length (m_retrieveQueuesAndRequests s) + length (m_archiveQueuesAndRequests s))%nat ∧
    flushAll dummy fresh freshActivity now s = (r, s') ∧ flush_outcome s r s'.
Proof.
  intros Hr Ha Hd. unfold flushAll. rewrite (bind_ok (gets _) _ s _ s eq_refl).
  destruct (flush_loop_serves _ _ _ _ _ s flushOneRetrieve_serves Hr) as (n & r & s1 & Hw & Hn & Hf & dn & left & E1 & E2 & E3 & E4 & E5).
  specialize (Hf 0%nat). rewrite Nat.add_0_r in Hf. destruct r as [[]|e].
  - rewrite E5 in E1, E2. rewrite app_nil_r in E1. rewrite E1 in Hd. rewrite <-E3 in Ha, Hd.
    destruct (flush_loop_serves _ _ _ _ _ s1 flushOneArchive_serves Ha) as (n' & r & s' & Hw' & Hn' & Hf' & dn' & left' & F1 & F2 & F3 & F4 & F5).
    specialize (Hf' 0%nat). rewrite Nat.add_0_r in Hf'. exists (n + n')%nat, r, s'.
    split; [by eapply runs_both|]. split; [rewrite <-E3; lia|]. split; [by rewrite (bind_ok _ _ _ _ _ Hf), (bind_ok (gets _) _ s1 _ s1 eq_refl)|].
    exists dn, [], dn', left'. rewrite app_nil_r. split_and!; [done|congruence|congruence|done| |].
    + intros Hc Hc'. apply (answered_trans _ _ _ s1); [|by apply E4|by apply F4].
      intros i Hi Hi'. apply (Hd i Hi). rewrite F1, job_ids_app. by apply elem_of_app; left.
    + destruct r as [[]|e]; [done|]. right. destruct F5 as (k & jobs & rest & s2 & -> & F5). by eexists _, _, _, _.
  - exists n, (Throw e), s1. split; [by apply runs_throw|]. split; [lia|]. split; [by rewrite (bind_throw _ _ _ _ _ Hf)|].
    exists dn, left, [], (m_archiveQueuesAndRequests s). split_and!; [done|done|done|done| |].
    + intros Hc _. unfold job_ids at 2. simpl. rewrite app_nil_r. by apply E4.
    + left. destruct E5 as (k & jobs & rest & s2 & -> & E5). by eexists _, _, _, _.
Qed.

(** C33: A flush of the sorter ends.  Its two loops, run without a bound, end after at
    most one round per queue and a last one each, and with the outcome of [flushAll].
    The queues are served in order and each is taken out: if the flush returns, none
    is left; if it throws, that is what the algorithm of the first queue left threw,
    and the queues from there on are untouched.  Every job of a queue that was served
    has its answer, provided that the copy numbers within a queue are distinct, and no
    other promise changes.  Of two jobs of an archive queue with the same copy number,
    as of two requests for one tape pool, the first never gets an answer. *)
Theorem sorter_answers s :
  waiting (m_retrieveQueuesAndRequests s) → waiting (m_archiveQueuesAndRequests s) →
  (∀ i, i ∈ job_ids (m_retrieveQueuesAndRequests s) → i ∉ job_ids (m_archiveQueuesAndRequests s)) →
  (∃ n r s', flush_runs n s r s' ∧
     (n <= 2 + length (m_retrieveQueuesAndRequests s) + length (m_archiveQueuesAndRequests s))%nat ∧
     flushAll dummy fresh freshActivity now s = (r, s') ∧ flush_outcome s r s') ∧
  (∀ pool qt l1 i x l2 j y l3 s', let jobs := l1 ++ (i, x) :: l2 ++ (j, y) :: l3 in
     NoDup jobs.*1 → ajd_copyNb (saj_jobDump x) = ajd_copyNb (saj_jobDump y) →
     dispatchArchiveAlgorithm dummy now pool qt jobs s = (Ok tt, s') → so_promises s' !! i = so_promises s !! i).
Proof.
  intros Hr Ha Hd. split; [by apply flushAll_ends|].
  intros pool qt l1 i x l2 j y l3 s'. apply (overwritten_unanswered pool qt l1 i x l2 j y l3 s s').
Qed.
End SorterSpec.
