(* ===== verification/RetrieveCollect.v ===== *)
(** * Collection of retrieve requests

    Model of [RetrieveRequest::garbageCollect] ([objectstore/RetrieveRequest.cpp]).  A
    request with a copy to transfer is queued for the best tape, a request to report
    to a repack goes through the sorter, and any other is failed and queued for the
    tape of its active copy.  The owner of the request is compared with the presumed
    owner for a log message only. *)
From S2P Require Import Prelude DataTypes Checksum ValueCountMap Backend ObjectOps Handles ProtoAlgorithms ArchiveFile ArchiveQueueShard ArchiveQueue ArchiveRequest RetrieveActivity RetrieveQueueShard RetrievePlan RetrieveQueue RetrieveRequest Agent Registers RootEntry AgentLife RepackRequest Helpers RetrieveCache Algorithms QueueTraits RetrieveTraits Sorter Collect.

(** [(signed) t]: 32 bits. *)
Definition s32 (z : Z) : Z := (z + 2 ^ 31) mod 2 ^ 32 - 2 ^ 31.

(** What the jobs of a request ask for: candidate tapes, or the report of the copy of a
    tape file to a repack, which ends the search. *)
Inductive retrieve_destination := Candidates (vids : gset string) | ReportToRepack (tf : TapeFilePb).
Fixpoint find_destination (tapefiles : list TapeFilePb) (jobs : list RetrieveJob) (candidateVids : gset string) :
    result retrieve_destination :=
  match jobs with
  | [] => Ok (Candidates candidateVids)
  | j :: jobs' =>
      let tf := find_if (λ tf, tfp_copynb tf =? rj_copynb j) tapefiles in
      match rj_status j, tf with
      | RJS_ToTransfer, Some tf => find_destination tapefiles jobs' ({[tfp_vid tf]} ∪ candidateVids)
      | RJS_ToTransfer, None => Throw (Exception "In RetrieveRequest::garbageCollect(): could not find tapefile for copynb ")
      | (RJS_ToReportToRepackForSuccess | RJS_ToReportToRepackForFailure), Some tf => Ok (ReportToRepack tf)
      | _, _ => find_destination tapefiles jobs' candidateVids
      end
  end.

Section RetrieveCollect.
Context {B St : Type} `{!Serializable B (ObjectHeader B), !Backend B St}.
Context `{!Serializable B RootEntry, !Serializable B ArchiveQueue, !Serializable B ArchiveQueueShard, !Serializable B ArchiveRequest}.
Context `{!Serializable B RetrieveQueue, !Serializable B RetrieveQueueShard, !Serializable B RetrieveRequest}.
Context `{!Serializable bytes ChecksumPb, !Serializable B Agent}.
Context (dummy : B) (fresh : RetrieveJobToAdd) (freshActivity : RetrieveActivityDescription) (now : Z).
Context (getTapesByVid : gset string → result (gmap string Tape)) (sort : list RetrieveQueueStatistics → list RetrieveQueueStatistics) (index : nat).
(** The local time and the host name that a failure log starts with. *)
Context (logPrefix : string).

(** The cache of queue statistics is shared by the process. *)
Abbreviation RG := (M (Cache * GState B RetrieveRequest St)).
Definition rg {A} (m : M (GState B RetrieveRequest St) A) : RG A := λ s,
  let '(r, g) := m (snd s) in (r, (fst s, g)).
Definition rg_on_cache {A} (m : M (Cache * St) A) : RG A := λ s,
  let '(r, (c, be)) := m (fst s, g_be (snd s)) in (r, (c, mkGState (g_obj (snd s)) be (g_agent (snd s)))).
Definition rg_payload : RG RetrieveRequest := gets (λ s, m_payload (g_obj (snd s))).
(** A sorter of the agent, empty at first. *)
Definition rg_sorter {A} (m : M (SorterState St) A) : RG A := λ s,
  let '(r, so) := m (mkSorter (g_be (snd s)) (g_agent (snd s)) (fst s) [] [] ∅ 0) in
  (r, (so_cache so, mkGState (g_obj (snd s)) (so_be so) (so_agent so))).

(** [future.get()] of every job. *)
Fixpoint get_futures (ids : list nat) (promises : gmap nat (result unit)) : result unit :=
  match ids with
  | [] => Ok tt
  | i :: ids' =>
      match promises !! i with
      | Some (Ok _) => get_futures ids' promises
      | Some (Throw e) => Throw e
      | None => Throw (Exception "future that is never ready")
      end
  end.
(** The report of a copy: the request is queued by a sorter, from its owner. *)
Definition all_jobs (m : list (string * JobQueueType * list (nat * SorterRetrieveJob))) : list nat :=
  concat ((λ kv : string * JobQueueType * list (nat * SorterRetrieveJob), (snd kv).*1) <$> m).
Definition report_to_repack (o : ObjectOps B RetrieveRequest) (copyNb : Z) : M (SorterState St) unit :=
  _ ← insertRetrieveRequest dummy now getTapesByVid sort index (ostore_accessor o) (h_owner (m_header o)) (Some copyNb);
  all ← gets m_retrieveQueuesAndRequests;
  _ ← flushAll dummy fresh freshActivity now;
  promises ← gets so_promises;
  lift (get_futures (all_jobs all) promises).

(** The request becomes a job of a queue, which is then its owner.  [after] runs on the
    queue, and [f] changes the request. *)
Definition queue_request {A} (vid : string) (qt : JobQueueType) (jta : string → RetrieveJobToAdd)
    (after : M (QState B RetrieveQueue St) A) (f : RetrieveRequest → RetrieveRequest) : RG A :=
  x ← rg (g_queue dummy (find_retrieve_queue dummy vid qt));
  name ← rg (g_self own_address);
  a ← rg (g_queue_on (snd x)
        (_ ← on_rq (rq_addJobsIfNecessaryAndCommit dummy fresh freshActivity [jta name]); after));
  queue ← lift (getAddressIfSet (q_obj (snd x)));
  _ ← rg (g_handle (rr_modify f));
  _ ← rg (g_self (change_self (setOwner queue)));
  _ ← rg (g_self commit);
  mret a.

(** [queueForFailure]: the mount policy of the job is a new one, and it has no disk system. *)
Definition set_failed (j : RetrieveJob) : RetrieveJob :=
  if decide (rj_status j = RJS_ToTransfer) then
    rj_set_status RJS_Failed
      (rj_set_retries (rj_totalretries j) (rj_retrieswithinmount j) (rj_lastmountwithfailure j)
         (rj_failurelogs j ++ [logPrefix +:+ " In RetrieveRequest::garbageCollect(): No VID available to requeue the request. Failing it."]) j)
  else j.
Definition entry_time (r : RetrieveRequest) : Z := s32 (serializers.time (sr_entrylog (rr_schedulerrequest r))).
Definition queue_for_failure : RG unit :=
  _ ← rg (g_handle (rr_modify (λ r, rr_set_jobs (set_failed <$> rr_jobs r) r)));
  r ← rg_payload;
  match find_if (λ tf, tfp_copynb tf =? rr_activecopynb r) (afp_tapefiles (rr_archivefile r)) with
  | None => throw (Exception "In RetrieveRequest::garbageCollect(): could not find tapefile for copynb ")
  | Some tf =>
      qt ← rg (g_handle rr_getQueueType);
      queue_request (tfp_vid tf) qt
        (λ name, mkRJobToAdd (rr_activecopynb r) (tfp_fseq tf) name (afp_filesize (rr_archivefile r)) no_policy (entry_time r) (activity_of r) None)
        (mret tt) id
  end.

(** [queueForTransfer]. *)
Definition queue_for_transfer (bestVid : string) : RG unit :=
  r ← rg_payload;
  match find_if (λ tf, bool_decide (tfp_vid tf = bestVid)) (afp_tapefiles (rr_archivefile r)) with
  | None => throw (Exception "In RetrieveRequest::garbageCollect(): could not find tapefile for vid ")
  | Some tf =>
      match rr_find_job (tfp_copynb tf) (rr_jobs r) with
      | None => throw (Exception "In RetrieveRequest::garbageCollect(): could not find job for copynb ")
      | Some j =>
          sm ← queue_request bestVid JobsToTransferForUser
            (λ name, mkRJobToAdd (tfp_copynb tf) (tfp_fseq tf) name (afp_filesize (rr_archivefile r))
               (MountPolicy_deserialize (rr_mountpolicy r)) (entry_time r) (activity_of r) (rr_disk_system_name r))
            (on_rq rq_getJobsSummary) (rr_set_activecopynb (rj_copynb j));
          rg_on_cache (updateRetrieveQueueStatisticsCache now bestVid (rjs_jobs sm) (rjs_bytes sm) (rjs_priority sm))
      end
  end.

(** The result tells whether the lock on the request is still held: the report to a
    repack releases it. *)
Definition rr_garbageCollect (presumedOwner : string) : RG bool :=
  _ ← rg (g_handle rr_writable);
  r ← rg_payload;
  d ← lift (find_destination (afp_tapefiles (rr_archivefile r)) (rr_jobs r) ∅);
  match d with
  | ReportToRepack tf =>
      o ← gets (λ s, g_obj (snd s));
      _ ← rg_sorter (report_to_repack o (tfp_copynb tf)); mret false
  | Candidates vids =>
      if decide (vids = ∅) then _ ← queue_for_failure; mret true
      else
        best ← catch (v ← rg_on_cache (selectBestRetrieveQueue dummy getTapesByVid sort now index (set_iter vids)
                                         (force_disabled_tape (rr_repack_info r))); mret (Some v))
                 (λ e, match e with NoTapeAvailableForRetrieve => Some (mret None) | _ => None end);
        match best with
        | Some v => _ ← queue_for_transfer v; mret true
        | None => _ ← queue_for_failure; mret true
        end
  end.
End RetrieveCollect.
