(* ===== verification/GenericObject.v ===== *)
(** * Objects of any type

    Model of [objectstore/GenericObject.cpp]: an object of which only the header is
    read, and the collection of the object by its type.

    A generic object is its address and its header.  A typed object made from it takes
    over the header, interprets the payload and takes over the lock. *)
From S2P Require Import Prelude DataTypes Checksum ValueCountMap Backend ObjectOps Handles ProtoAlgorithms ArchiveFile ArchiveQueueShard ArchiveQueue ArchiveRequest RetrieveActivity RetrieveQueueShard RetrievePlan RetrieveQueue RetrieveRequest Agent Registers RootEntry AgentLife RepackRequest Helpers RetrieveCache Algorithms QueueTraits RetrieveTraits Sorter Collect RetrieveCollect.

(** The state of a collection: the cache of queue statistics, the backend and the agent
    of the collector. *)
Record CState (St : Type) := mkCState { c_cache : Cache; c_be : St; c_agent : AgentReference }.
Arguments mkCState {St} _ _ _.
Arguments c_cache {St} _.
Arguments c_be {St} _.
Arguments c_agent {St} _.

Section GenericObject.
Context {B St : Type} `{!Serializable B (ObjectHeader B), !Backend B St}.

Definition getGenericHeader (objData : B) : result (ObjectHeader B) :=
  match ParseFromString objData with
  | None => Throw (Exception "In <GenericObject::getHeaderFromObjectData(): could not parse header: ")
  | Some h => Ok h
  end.
(** [GenericObject(address)] with an asynchronous fetch, and with a lock and a fetch. *)
Definition generic_address (address : string) : result string := if decide (address = "") then Throw InvalidAddress else Ok address.
Definition fetch_generic (address : string) : M St (ObjectHeader B) := c ← be_read address; lift (getGenericHeader c).
Definition lock_generic (address : string) : M St (ObjectHeader B) := _ ← be_lock address; fetch_generic address.

(** The typed object: locked, or fetched without a lock. *)
Definition as_typed {P} `{!Serializable B P} (flags : OpsFlags) (address : string) (h : ObjectHeader B) : result (ObjectOps B P) :=
  match ParseFromString (h_payload h) with
  | None => Throw (Exception "getPayloadFromHeader: could not parse payload")
  | Some p => Ok (mkOps true address h p flags)
  end.
Definition locked_flags : OpsFlags := mkFlags true true true 1 1 false true false.
Definition unlocked_flags : OpsFlags := mkFlags true true true 0 0 true false false.
Definition typed_locked {P} `{!Serializable B P} : string → ObjectHeader B → result (ObjectOps B P) := as_typed locked_flags.
Definition typed_unlocked {P} `{!Serializable B P} : string → ObjectHeader B → result (ObjectOps B P) := as_typed unlocked_flags.

(** ** The dispatcher *)
Context `{!Serializable B RootEntry, !Serializable B ArchiveQueue, !Serializable B ArchiveQueueShard, !Serializable B ArchiveRequest}.
Context `{!Serializable B RetrieveQueue, !Serializable B RetrieveQueueShard, !Serializable B RetrieveRequest}.
Context `{!Serializable B RepackQueue, !Serializable B RepackRequest, !Serializable B AgentRegister, !Serializable B DriveRegister}.
Context `{!Serializable B SchedulerGlobalLock, !Serializable bytes ChecksumPb, !Serializable B Agent}.
Context (dummy : B) (fresh : RetrieveJobToAdd) (freshActivity : RetrieveActivityDescription) (now : Z).
Context (getTapesByVid : gset string → result (gmap string Tape)) (sort : list RetrieveQueueStatistics → list RetrieveQueueStatistics) (index : nat) (logPrefix : string).
Abbreviation CMon := (M (CState St)).

(** A collection that uses the backend only, one that also uses the agent, and that of
    the retrieve requests, which may release the lock. *)
Definition collect_with {P} `{!Serializable B P} (m : M (HState B P St) unit) (address : string) (h : ObjectHeader B) : CMon bool := λ s,
  match typed_locked address h with
  | Throw e => (Throw e, s)
  | Ok o => let '(r, (_, be)) := m (o, c_be s) in
            (match r with Ok _ => Ok true | Throw e => Throw e end, mkCState (c_cache s) be (c_agent s))
  end.
Definition collect_as_agent {P} `{!Serializable B P} (m : M (GState B P St) unit) (address : string) (h : ObjectHeader B) : CMon bool := λ s,
  match typed_locked address h with
  | Throw e => (Throw e, s)
  | Ok o => let '(r, g) := m (mkGState o (c_be s) (c_agent s)) in
            (match r with Ok _ => Ok true | Throw e => Throw e end, mkCState (c_cache s) (g_be g) (g_agent g))
  end.
Definition collect_retrieve (presumedOwner address : string) (h : ObjectHeader B) : CMon bool := λ s,
  match typed_locked address h with
  | Throw e => (Throw e, s)
  | Ok o => let '(r, (c, g)) := rr_garbageCollect dummy fresh freshActivity now getTapesByVid sort index logPrefix presumedOwner
                                  (c_cache s, mkGState o (c_be s) (c_agent s)) in
            (r, mkCState c (g_be g) (g_agent g))
  end.

(** [garbageCollectWithType] ends with [lock.release()], which throws when the lock is
    not held any more. *)
Definition garbageCollectDispatcher (presumedOwner address : string) (h : ObjectHeader B) : CMon unit :=
  locked ← match h_type h with
           | AgentRegister_t => collect_with ar_garbageCollect address h
           | Agent_t => collect_with (agent_garbageCollect dummy presumedOwner) address h
           | DriveRegister_t => collect_with (dr_garbageCollect dummy presumedOwner) address h
           | SchedulerGlobalLock_t => collect_with (sgl_garbageCollect dummy presumedOwner) address h
           | ArchiveRequest_t => collect_as_agent (request_garbageCollect dummy presumedOwner) address h
           | RetrieveRequest_t => collect_retrieve presumedOwner address h
           | ArchiveQueue_t => collect_with (aq_garbageCollect dummy presumedOwner) address h
           | RetrieveQueue_t => throw (Exception "garbageCollect(): not implemented")
           | RepackRequest_t => collect_as_agent (rp_garbageCollect dummy presumedOwner) address h
           | _ => throw (Exception "In GenericObject::garbageCollect, unsupported type: ")
           end;
  if (locked : bool) then mret tt else throw NotLocked.
End GenericObject.
