(* ===== verification/OwnedObjects.v ===== *)
(** * The objects of a dead agent

    Model of [GarbageCollector::OwnedObjectSorter] ([objectstore/GarbageCollector.cpp]):
    the objects that an agent owned are read, sorted by the queue they go to and
    requeued in batches; the other objects are collected one by one, and the agent is
    removed.

    A [std::shared_ptr] to a request is a number with the handle: the same number in
    two lists is one request referenced twice. *)
From Stdlib Require String.
From S2P Require Import Prelude DataTypes Checksum ValueCountMap Backend ObjectOps Handles ProtoAlgorithms ArchiveFile ArchiveQueueShard ArchiveQueue ArchiveRequest RetrieveActivity RetrieveQueueShard RetrievePlan RetrieveQueue RetrieveRequest Agent Registers RootEntry AgentLife RepackRequest Helpers RetrieveCache Algorithms QueueTraits RetrieveTraits Sorter Collect RetrieveCollect GenericObject.

(** The queue of a job: container, type, and tape pool or tape of the job. *)
Definition QueueId : Type := string * JobQueueType * string.
Definition queue_id_compare (a b : QueueId) : comparison :=
  match key_compare (fst a) (fst b) with Eq => String.compare (snd a) (snd b) | c => c end.

(** Batches of at most 501 requests. *)
Fixpoint batches_of {A} (fuel : nat) (l : list A) : list (list A) :=
  match fuel, l with
  | S fuel', _ :: _ => take 501 l :: batches_of fuel' (drop 501 l)
  | _, _ => []
  end.
Definition batches {A} (l : list A) : list (list A) := batches_of (length l) l.
(** The batches of all the queues, in order. *)
Definition work {A} (m : list (QueueId * list A)) : list (QueueId * list A) :=
  concat ((λ kv : QueueId * list A, (λ b, (fst kv, b)) <$> batches (snd kv)) <$> m).
(** [use_count() == 1] for a request of the current batch: no other reference to it in
    the batch nor in the batches to come. *)
Definition last_reference {A} (batch : list (nat * A)) (rest : list (QueueId * list (nat * A))) (i : nat) : bool :=
  bool_decide (length (filter (λ x, fst x = i) batch) = 1%nat ∧ i ∉ concat ((λ kv : QueueId * list (nat * A), (snd kv).*1) <$> rest)).

(** The state: that of the collector, the agent that died, and the sorter. *)
Record KState (B St : Type) := mkKState {
  k_c : CState St;
  k_agent : ObjectOps B Agent;
  archiveQueuesAndRequests : list (QueueId * list (nat * ObjectOps B ArchiveRequest));
  retrieveQueuesAndRequests : list (QueueId * list (nat * ObjectOps B RetrieveRequest));
  otherObjects : list string;
  k_next : nat
}.
Arguments mkKState {B St} _ _ _ _ _ _.
Arguments k_c {B St} _.
Arguments k_agent {B St} _.
Arguments archiveQueuesAndRequests {B St} _.
Arguments retrieveQueuesAndRequests {B St} _.
Arguments otherObjects {B St} _.
Arguments k_next {B St} _.

Section OwnedObjects.
Context {B St : Type} `{!Serializable B (ObjectHeader B), !Backend B St}.
Context `{!Serializable B RootEntry, !Serializable B ArchiveQueue, !Serializable B ArchiveQueueShard, !Serializable B ArchiveRequest}.
Context `{!Serializable B RetrieveQueue, !Serializable B RetrieveQueueShard, !Serializable B RetrieveRequest}.
Context `{!Serializable B RepackQueue, !Serializable B RepackRequest, !Serializable B AgentRegister, !Serializable B DriveRegister}.
Context `{!Serializable B SchedulerGlobalLock, !Serializable bytes ChecksumPb, !Serializable B Agent}.
Context (dummy : B) (fresh : RetrieveJobToAdd) (freshActivity : RetrieveActivityDescription) (now : Z).
Context (getTapesByVid : gset string → result (gmap string Tape)) (sort : list RetrieveQueueStatistics → list RetrieveQueueStatistics) (index : nat) (logPrefix : string).
Abbreviation KM := (M (KState B St)).

(** Operations on the parts of the state. *)
Definition k_collector {A} (m : M (CState St) A) : KM A := λ s,
  let '(r, c) := m (k_c s) in
  (r, mkKState c (k_agent s) (archiveQueuesAndRequests s) (retrieveQueuesAndRequests s) (otherObjects s) (k_next s)).
Definition k_store {A} (m : M St A) : KM A := k_collector (λ c,
  let '(r, be) := m (c_be c) in (r, mkCState (c_cache c) be (c_agent c))).
Definition k_on_cache {A} (m : M (Cache * St) A) : KM A := k_collector (λ c,
  let '(r, (ca, be)) := m (c_cache c, c_be c) in (r, mkCState ca be (c_agent c))).
Definition k_algorithm {P A} `{!Message P} (m : M (QState B P St) A) : KM A := k_collector (λ c,
  let '(r, q) := m (mkQState (new_object dummy) (mkLock Exclusive false) (c_be c) (c_agent c)) in
  (r, mkCState (c_cache c) (q_be q) (q_agent q))).
Definition k_self {A} (m : M (HState B Agent St) A) : KM A := λ s,
  let '(r, (o, be)) := m (k_agent s, c_be (k_c s)) in
  (r, mkKState (mkCState (c_cache (k_c s)) be (c_agent (k_c s))) o (archiveQueuesAndRequests s) (retrieveQueuesAndRequests s) (otherObjects s) (k_next s)).
Definition k_address : KM string := k_self own_address.
Definition k_disown (address : string) : KM unit := k_self (change_self (agent_removeFromOwnership address)).
Definition k_other (address : string) : KM unit := modify (λ s,
  mkKState (k_c s) (k_agent s) (archiveQueuesAndRequests s) (retrieveQueuesAndRequests s) (otherObjects s ++ [address]) (k_next s)).

(** ** Reading the objects *)

(** [try]: the outcome as a value. *)
Definition attempt {S A} (m : M S A) : M S (result A) := λ s, let '(r, s') := m s in (Ok r, s').

(** One object: its header, nothing if it is to be skipped, and whether the list of
    the agent has changed. *)
Definition fetch_owned (address : string) : KM (list (string * ObjectHeader B) * bool) :=
  x ← attempt (k_store (fetch_generic address));
  match x with
  | Ok h => mret ([(address, h)], false)
  | Throw NoSuchObject => _ ← k_disown address; mret ([], true)
  | Throw _ => mret ([], false)
  end.
Fixpoint fetch_all (addresses : list string) : KM (list (string * ObjectHeader B) * bool) :=
  match addresses with
  | [] => mret ([], false)
  | a :: l => x ← fetch_owned a; y ← fetch_all l; mret (fst x ++ fst y, (snd x || snd y)%bool)
  end.
Definition fetchOwnedObjects : KM (list (string * ObjectHeader B)) :=
  o ← gets k_agent;
  addresses ← lift (getOwnershipList o);
  _ ← mfor addresses (λ a, _ ← lift (generic_address a); mret tt);
  x ← fetch_all addresses;
  _ ← (if (snd x : bool) then k_self commit else mret tt);
  mret (fst x).

(** ** Sorting them *)
Definition push_archive (k : QueueId) (i : nat) (ar : ObjectOps B ArchiveRequest) : KM unit := modify (λ s,
  mkKState (k_c s) (k_agent s) (map_push queue_id_compare k (i, ar) (archiveQueuesAndRequests s)) (retrieveQueuesAndRequests s) (otherObjects s) (k_next s)).
Definition push_retrieve (k : QueueId) (i : nat) (rr : ObjectOps B RetrieveRequest) : KM unit := modify (λ s,
  mkKState (k_c s) (k_agent s) (archiveQueuesAndRequests s) (map_push queue_id_compare k (i, rr) (retrieveQueuesAndRequests s)) (otherObjects s) (k_next s)).
Definition new_number : KM nat := λ s, (Ok (k_next s),
  mkKState (k_c s) (k_agent s) (archiveQueuesAndRequests s) (retrieveQueuesAndRequests s) (otherObjects s) (S (k_next s))).

(** A job of the agent goes to its queue, unless its status has none. *)
Definition sort_archive_job (agent : string) (i : nat) (ar : ObjectOps B ArchiveRequest) (j : ArchiveJobDump) : KM unit :=
  if decide (ajd_owner j = agent ∧ ajd_status j ∈ c_statusesImplyingQueueing) then
    catch (container ← (if decide (ajd_status j ∈ c_statusesImplyingQueueingByRepackRequestAddress)
                        then ri ← lift (fst (getRepackInfo ar)); mret (repackRequestAddress ri) else mret (ajd_tapePool j));
           qt ← lift (fst (getJobQueueType (ajd_copyNb j) ar));
           _ ← push_archive (container, qt, ajd_tapePool j) i ar;
           _ ← lift (fst (getArchiveFile ar)); mret tt)
      (λ e, match e with JobNotQueueable => Some (_ ← lift (fst (getArchiveFile ar)); mret tt) | _ => None end)
  else mret tt.
Definition sort_archive (agent address : string) (h : ObjectHeader B) : KM unit :=
  ar ← lift (typed_unlocked address h);
  i ← new_number;
  jobs ← lift (fst (request_dumpJobs ar));
  _ ← mfor jobs (sort_archive_job agent i ar);
  _ ← lift (fst (getArchiveFile ar)); mret tt.

Fixpoint candidate_vids (rr : ObjectOps B RetrieveRequest) (jobs : list RetrieveRequestJobDump) : result (gset string) :=
  match jobs with
  | [] => Ok ∅
  | j :: jobs' =>
      if decide (rjd_status j = RJS_ToTransfer) then
        f ← fst (rr_getArchiveFile rr);
        X ← candidate_vids rr jobs';
        Ok (list_to_set (tf_vid <$> filter (λ tf, tf_copyNb tf = rjd_copyNb j) (af_tapeFiles f)) ∪ X)
      else candidate_vids rr jobs'
  end.
(** The queue of a request without a copy to transfer; a file without tape copies is
    read past its end in the code. *)
Definition report_queue (rr : ObjectOps B RetrieveRequest) : result QueueId :=
  f ← fst (rr_getArchiveFile rr);
  qt ← fst (rr_getQueueType rr);
  match af_tapeFiles f with
  | [] => Throw index_out_of_range
  | tf :: _ =>
      if decide (qt ≠ FailedJobs ∧ qt ≠ JobsToReportToUser)
      then ri ← fst (rr_getRepackInfo rr); Ok (rri_repackRequestAddress ri, qt, tf_vid tf)
      else Ok (tf_vid tf, qt, tf_vid tf)
  end.
Definition sort_retrieve (address : string) (h : ObjectHeader B) : KM unit :=
  rr ← lift (typed_unlocked address h);
  i ← new_number;
  ri ← lift (fst (rr_getRepackInfo rr));
  jobs ← lift (fst (rr_dumpJobs rr));
  vids ← lift (candidate_vids rr jobs);
  if decide (vids = ∅) then
    match report_queue rr with Ok k => push_retrieve k i rr | Throw e => if decide (e = index_out_of_range) then throw e else k_other address end
  else
    best ← catch (v ← k_on_cache (selectBestRetrieveQueue dummy getTapesByVid sort now index (set_iter vids) (forceDisabledTape ri)); mret (Some v))
             (λ e, match e with NoTapeAvailableForRetrieve => Some (mret None) | _ => None end);
    match best with Some v => push_retrieve (v, JobsToTransferForUser, v) i rr | None => k_other address end.

(** An object of another owner is dropped from the list, unless it is an archive
    request with a job of the agent. *)
Definition is_owned (agent address : string) (h : ObjectHeader B) : result bool :=
  if decide (h_owner h = agent) then Ok true
  else if decide (h_type h = ArchiveRequest_t) then
    ar ← typed_unlocked address h;
    jobs ← fst (request_dumpJobs ar);
    Ok (existsb (λ j, bool_decide (ajd_owner j = agent)) jobs)
  else Ok false.
Definition sort_object (agent : string) (x : string * ObjectHeader B) : KM bool :=
  b ← lift (is_owned agent (fst x) (snd x));
  if negb b then _ ← k_disown (fst x); mret true
  else
    _ ← match h_type (snd x) with
        | ArchiveRequest_t => sort_archive agent (fst x) (snd x)
        | RetrieveRequest_t => sort_retrieve (fst x) (snd x)
        | _ => k_other (fst x)
        end;
    mret false.
Fixpoint sort_all (agent : string) (l : list (string * ObjectHeader B)) : KM bool :=
  match l with
  | [] => mret false
  | x :: l' => b ← sort_object agent x; b' ← sort_all agent l'; mret (b || b')
  end.
Definition sortFetchedObjects (fetchedObjects : list (string * ObjectHeader B)) : KM unit :=
  agent ← k_address;
  b ← sort_all agent fetchedObjects;
  if (b : bool) then k_self commit else mret tt.

(** ** Requeueing archive jobs *)

(** A failure that asks for the collection of the request by itself. *)
Definition unexpected_failure (e : exn) : bool := match e with NoSuchObject | WrongPreviousOwner => false | _ => true end.

Definition request_elements (tapepool : string) (ar : ObjectOps B ArchiveRequest) : result (list ArchiveInserted) :=
  jobs ← fst (request_dumpJobs ar);
  match filter (λ j, ajd_tapePool j = tapepool) jobs with
  | [] => Ok []
  | l => f ← fst (getArchiveFile ar);
         p ← fst (getMountPolicy ar);
         Ok ((λ j, mkArchiveInserted (m_name ar) (ajd_copyNb j) (archiveFileID f) (af_fileSize f) (Some p) None) <$> l)
  end.
Fixpoint batch_elements {A X} (f : A → result (list X)) (l : list (nat * A)) : result (list X) :=
  match l with
  | [] => Ok []
  | x :: l' => a ← f (snd x); b ← batch_elements f l'; Ok (a ++ b)
  end.
Definition archive_algorithm (agent : string) (k : QueueId) (els : list ArchiveInserted) : KM (list (ArchiveInserted * exn)) :=
  let '(container, qt, _) := k in
  x ← match qt with
      | JobsToTransferForUser | JobsToTransferForRepack =>
          k_algorithm (referenceAndSwitchOwnershipIfNecessary (T := archive_transfer_traits dummy container qt now 0) agent els)
      | _ => k_algorithm (referenceAndSwitchOwnershipIfNecessary (T := archive_report_traits dummy container qt now 0) agent els)
      end;
  mret (snd x).
(** The addresses of the requests to collect by themselves. *)
Definition requeue_archive_batch (k : QueueId) (batch : list (nat * ObjectOps B ArchiveRequest)) : KM (list string) :=
  agent ← k_address;
  els ← lift (batch_elements (request_elements (snd k)) batch);
  failed ← archive_algorithm agent k els;
  let individually := (λ x, ai_request (fst x)) <$> filter (λ x, unexpected_failure (snd x) = true) failed in
  _ ← mfor individually k_other;
  mret individually.

(** The requests that are done with leave the list of the agent. *)
Definition released {A} (name : A → string) (batch : list (nat * A)) (rest : list (QueueId * list (nat * A))) (individually : list string) : list string :=
  (λ x, name (snd x)) <$> filter (λ x, last_reference batch rest (fst x) = true ∧ name (snd x) ∉ individually) batch.
Definition archive_batch (k : QueueId) (batch : list (nat * ObjectOps B ArchiveRequest))
    (rest : list (QueueId * list (nat * ObjectOps B ArchiveRequest))) : KM unit :=
  individually ← requeue_archive_batch k batch;
  o ← gets k_agent;
  owned ← lift (getOwnershipSet o);
  match released m_name batch rest individually with
  | [] => mret tt
  | l => _ ← k_self (change_self (resetOwnership (owned ∖ list_to_set l))); k_self commit
  end.
Fixpoint archive_batches (l : list (QueueId * list (nat * ObjectOps B ArchiveRequest))) : KM unit :=
  match l with
  | [] => mret tt
  | (k, batch) :: rest => _ ← archive_batch k batch rest; archive_batches rest
  end.
Definition lockFetchAndUpdateArchiveJobs : KM unit := m ← gets archiveQueuesAndRequests; archive_batches (work m).

(** ** Requeueing retrieve jobs *)
Definition vid_elements (vid : string) (rr : ObjectOps B RetrieveRequest) : result (list (RetrieveJobToAdd)) :=
  f ← fst (rr_getArchiveFile rr);
  match filter (λ tf, tf_vid tf = vid) (af_tapeFiles f) with
  | [] => Ok []
  | l => c ← fst (rr_getRetrieveFileQueueCriteria rr);
         e ← fst (rr_getEntryLog rr);
         a ← fst (rr_getActivity rr);
         d ← fst (rr_getDiskSystemName rr);
         Ok ((λ tf, mkRJobToAdd (tf_copyNb tf) (tf_fSeq tf) (m_name rr) (af_fileSize f) (rc_mountPolicy c) (el_time e) a d) <$> l)
  end.
(** When all the jobs are in the queue already, nothing else is done: the owner of the
    requests is not changed. *)
Definition requeue_retrieve_jobs (agent : string) (k : QueueId) (elements : result (list RetrieveJobToAdd)) :
    M (QState B RetrieveQueue St) (list (RetrieveJobToAdd * exn)) :=
  let '(container, qt, _) := k in
  _ ← find_retrieve_queue dummy container qt;
  _ ← on_rq rq_getJobsSummary;
  jta ← lift elements;
  added ← on_rq (rq_addJobsIfNecessaryAndCommit dummy fresh freshActivity jta);
  if decide (ra_files added = 0) then mret []
  else
    queue ← cont_address;
    rs ← q_store (attempt_all (λ j, rrq_switch dummy now (rja_copyNb j) queue agent (retrieveRequestAddress j)) jta);
    let failed := failures jta rs in
    _ ← (if decide (failed = []) then mret tt
         else on_rq (rq_removeJobsAndCommit dummy freshActivity ((λ x, retrieveRequestAddress (fst x)) <$> failed)));
    _ ← on_rq rq_getJobsSummary;
    mret failed.
Definition retrieve_batch (k : QueueId) (batch : list (nat * ObjectOps B RetrieveRequest))
    (rest : list (QueueId * list (nat * ObjectOps B RetrieveRequest))) : KM unit :=
  agent ← k_address;
  failed ← k_algorithm (requeue_retrieve_jobs agent k (batch_elements (vid_elements (snd k)) batch));
  let individually := (λ x, retrieveRequestAddress (fst x)) <$> filter (λ x, unexpected_failure (snd x) = true) failed in
  _ ← mfor individually k_other;
  match released m_name batch rest individually with
  | [] => mret tt
  | l => _ ← mfor l k_disown; k_self commit
  end.
Fixpoint retrieve_batches (l : list (QueueId * list (nat * ObjectOps B RetrieveRequest))) : KM unit :=
  match l with
  | [] => mret tt
  | (k, batch) :: rest => _ ← retrieve_batch k batch rest; retrieve_batches rest
  end.
Definition lockFetchAndUpdateRetrieveJobs : KM unit := m ← gets retrieveQueuesAndRequests; retrieve_batches (work m).

(** ** The other objects *)
Definition collect_other (address : string) : KM unit :=
  agent ← k_address;
  b ← k_store (be_exists address);
  _ ← (if (b : bool) then
         h ← k_store (lock_generic address);
         k_collector (garbageCollectDispatcher dummy fresh freshActivity now getTapesByVid sort index logPrefix agent address h)
       else mret tt);
  _ ← k_disown address;
  k_self commit.
Definition lockFetchAndUpdateOtherObjects : KM unit :=
  l ← gets otherObjects;
  _ ← mfor l collect_other;
  _ ← k_self (removeAndUnregisterSelf dummy);
  name ← k_address;
  ag ← gets (λ s, c_agent (k_c s));
  k_store (removeFromOwnership dummy name ag).
End OwnedObjects.
