(* ===== verification/Watchdog.v ===== *)
(** * Watching agents

    Model of [objectstore/AgentWatchdog.hpp]: an agent is declared dead when it asks
    for its collection or when its heartbeat does not move for longer than its time-out.

    Times are in microseconds.  The code compares the time-out and the time on the
    timer in seconds, both products of a whole number of microseconds and of the same
    constant in double precision: the comparison is that of the whole numbers while
    they are below 2^51.  [now] is the time at which the timer is read, [later] that at
    which it is reset. *)
From S2P Require Import Prelude Backend ObjectOps Handles ProtoAlgorithms Agent.

(** [AgentWatchdog], with the reference of its timer. *)
Record AgentWatchdog (B : Type) := mkWatchdog {
  m_timer : Z;
  m_agent : ObjectOps B Agent;
  m_heartbeatCounter : Z;
  m_timeout : Z
}.
Arguments mkWatchdog {B} _ _ _ _.
Arguments m_timer {B} _.
Arguments m_agent {B} _.
Arguments m_heartbeatCounter {B} _.
Arguments m_timeout {B} _.

Section Watchdog.
Context {B St : Type} `{!Serializable B (ObjectHeader B), !Serializable B Agent, !Backend B St}.
Context (dummy : B).
Abbreviation WM := (M (AgentWatchdog B * St)).

Definition getTimeout (ag : ObjectOps B Agent) : result Z := read_payload timeout_us ag.

Record gcData := mkGcData { gcd_heartbeat : Z; gcd_needsGC : bool }.
Definition readGCData : M (HState B Agent St) gcData :=
  _ ← fetchNoLock;
  ag ← self;
  h ← lift (getHeartbeatCount ag);
  g ← lift (needsGarbageCollection ag);
  mret (mkGcData h g).

(** [AgentWatchdog(name, os)].  The members are initialised in the order of their
    declarations: the timer starts at the time [started], and only then is the agent
    read for its heartbeat, and read again for its time-out. *)
Definition new_watchdog (started : Z) (name : string) : M St (AgentWatchdog B) :=
  o ← lift (object_at dummy name);
  x ← run_on o readGCData;
  o' ← exec_on (snd x) fetchNoLock;
  t ← lift (getTimeout o');
  mret (mkWatchdog started o' (gcd_heartbeat (fst x)) t).

Definition w_agent {A} (m : M (HState B Agent St) A) : WM A := λ s,
  let '(r, (o, be)) := m (m_agent (fst s), snd s) in
  (r, (mkWatchdog (m_timer (fst s)) o (m_heartbeatCounter (fst s)) (m_timeout (fst s)), be)).
Definition w_seen (heartbeat later : Z) : WM unit :=
  modify (λ s, (mkWatchdog later (m_agent (fst s)) heartbeat (m_timeout (fst s)), snd s)).

(** An agent that is gone counts as alive. *)
Definition checkAlive (now later : Z) : WM bool :=
  x ← catch (d ← w_agent readGCData; mret (Some d)) (λ e, match e with NoSuchObject => Some (mret None) | _ => None end);
  match x with
  | None => mret true
  | Some d =>
      w ← gets fst;
      let timer := now - m_timer w in
      if gcd_needsGC d then mret false
      else if decide (gcd_heartbeat d = m_heartbeatCounter w ∧ timer > m_timeout w) then mret false
      else
        _ ← (if decide (gcd_heartbeat d ≠ m_heartbeatCounter w) then w_seen (gcd_heartbeat d) later else mret tt);
        mret true
  end.

(** Only the failure to read the agent matters: the details are logged. *)
Definition getDeadAgentDetails : WM unit := _ ← w_agent readGCData; mret tt.
Definition checkExists : WM bool :=
  w_agent (o ← self; name ← lift (getAddressIfSet o); on_store (be_exists name)).
Definition setTimeout (timeout : Z) (w : AgentWatchdog B) : AgentWatchdog B :=
  mkWatchdog (m_timer w) (m_agent w) (m_heartbeatCounter w) timeout.
End Watchdog.
