(* ===== verification/GarbageCollector.v ===== *)
(** * The garbage collector

    Model of [GarbageCollector] ([objectstore/GarbageCollector.cpp]): agents are
    watched, and the objects of those that died are requeued.

    [m_watchedAgents] is a list in the order of the addresses.  The times at which the
    timer of an agent is started, read and reset are parameters. *)
From Stdlib Require String.
From S2P Require Import Prelude DataTypes Checksum ValueCountMap Backend ObjectOps Handles ProtoAlgorithms ArchiveFile ArchiveQueueShard ArchiveQueue ArchiveRequest RetrieveActivity RetrieveQueueShard RetrievePlan RetrieveQueue RetrieveRequest Agent Registers RootEntry AgentLife RepackRequest Helpers RetrieveCache Algorithms QueueTraits RetrieveTraits Sorter Collect RetrieveCollect GenericObject OwnedObjects Watchdog.

Record GCState (B St : Type) := mkGC {
  gc_c : CState St;
  m_agentRegister : ObjectOps B AgentRegister;
  m_watchedAgents : list (string * AgentWatchdog B)
}.
Arguments mkGC {B St} _ _ _.
Arguments gc_c {B St} _.
Arguments m_agentRegister {B St} _.
Arguments m_watchedAgents {B St} _.

(** [m[k] = w] on an ordered list. *)
Fixpoint watch_insert {W} (k : string) (w : W) (m : list (string * W)) : list (string * W) :=
  match m with
  | [] => [(k, w)]
  | (k', w') :: m' =>
      match String.compare k k' with
      | Eq => (k, w) :: m'
      | Lt => (k, w) :: m
      | Gt => (k', w') :: watch_insert k w m'
      end
  end.

Section GarbageCollector.
Context {B St : Type} `{!Serializable B (ObjectHeader B), !Backend B St}.
Context `{!Serializable B RootEntry, !Serializable B ArchiveQueue, !Serializable B ArchiveQueueShard, !Serializable B ArchiveRequest}.
Context `{!Serializable B RetrieveQueue, !Serializable B RetrieveQueueShard, !Serializable B RetrieveRequest}.
Context `{!Serializable B RepackQueue, !Serializable B RepackRequest, !Serializable B AgentRegister, !Serializable B DriveRegister}.
Context `{!Serializable B SchedulerGlobalLock, !Serializable bytes ChecksumPb, !Serializable B Agent}.
Context (dummy : B) (fresh : RetrieveJobToAdd) (freshActivity : RetrieveActivityDescription) (now : Z).
Context (getTapesByVid : gset string → result (gmap string Tape)) (sort : list RetrieveQueueStatistics → list RetrieveQueueStatistics) (index : nat) (logPrefix : string).
Abbreviation GCM := (M (GCState B St)).

(** Operations on the parts of the state. *)
Definition gc_store {A} (m : M St A) : GCM A := λ s,
  let '(r, be) := m (c_be (gc_c s)) in
  (r, mkGC (mkCState (c_cache (gc_c s)) be (c_agent (gc_c s))) (m_agentRegister s) (m_watchedAgents s)).
Definition gc_register {A} (m : M (HState B AgentRegister St) A) : GCM A := λ s,
  let '(r, (o, be)) := m (m_agentRegister s, c_be (gc_c s)) in
  (r, mkGC (mkCState (c_cache (gc_c s)) be (c_agent (gc_c s))) o (m_watchedAgents s)).
Definition gc_watch (f : list (string * AgentWatchdog B) → list (string * AgentWatchdog B)) : GCM unit :=
  modify (λ s, mkGC (gc_c s) (m_agentRegister s) (f (m_watchedAgents s))).
Definition gc_our : GCM AgentReference := gets (λ s, c_agent (gc_c s)).

(** [ScopedLock l(o); body], with the release at the end of the scope. *)
Definition unlocking {P A} (l : ScopedLock) (m : M (HState B P St) A) : M (HState B P St) A := λ s,
  let '(r, (o, be)) := m s in (r, (snd (releaseIfNeeded l o), be)).
Definition scoped {P A} (t : LockType) (m : M (HState B P St) A) : M (HState B P St) A :=
  l ← lock (mkLock t false); unlocking l m.

(** The constructor: the register is found through the root entry and read once. *)
Definition new_collector (cache : Cache) (agentReference : AgentReference) : M St (GCState B St) :=
  a ← register_address dummy;
  o ← lift (object_at dummy a);
  o' ← exec_on o (scoped Shared fetch);
  be ← gets id;
  mret (mkGC (mkCState cache be agentReference) o' []).

(** ** Watching *)
Definition trimGoneTargets : GCM unit :=
  _ ← gc_register fetchNoLock;
  agentList ← gets (λ s, getAgents (m_agentRegister s));
  gc_watch (filter (λ wa, fst wa ∈ agentList)).

(** An agent that is gone is passed over; a failure to read one that is there goes
    through. *)
Definition read_agent (c : string) : GCM (option (ObjectOps B Agent)) :=
  o ← lift (object_at dummy c);
  catch (o' ← gc_store (exec_on o fetchNoLock); mret (Some o'))
    (λ e, match e with
          | NoSuchObject => Some (mret None)
          | _ => Some (b ← gc_store (be_exists c); if (b : bool) then throw e else mret None)
          end).
Definition watch_agent (created : Z) (c : string) (timeout : Z) : GCM unit :=
  catch (w ← gc_store (new_watchdog dummy created c); gc_watch (watch_insert c (setTimeout timeout w)))
    (λ e, Some (b ← gc_store (be_exists c); if (b : bool) then throw e else gc_watch (filter (λ wa, fst wa ≠ c)))).
Definition acquire_target (created : string → Z) (alreadyTrackedAgents : list string) (c : string) : GCM unit :=
  our ← gc_our;
  if decide (c ≠ m_agentAddress our ∧ c ∉ alreadyTrackedAgents) then
    ag ← read_agent c;
    match ag with
    | None => mret tt
    | Some o =>
        _ ← lift (getOwner o);
        timeout ← lift (getTimeout o);
        watch_agent (created c) c timeout
    end
  else mret tt.
Definition acquireTargets (created : string → Z) : GCM unit :=
  _ ← gc_register fetchNoLock;
  candidatesList ← gets (λ s, getUntrackedAgents (m_agentRegister s));
  tracked ← gets (λ s, (m_watchedAgents s).*1);
  mfor candidatesList (acquire_target created tracked).

(** ** Cleaning up *)

(** The agent locked and read, if it is still there. *)
Definition lock_dead_agent (address : string) : M St (option (ObjectOps B Agent)) :=
  o ← lift (object_at dummy address);
  x ← catch (y ← run_on o (lock (mkLock Exclusive false)); mret (Some (snd y)))
        (λ e, match e with NoSuchObject => Some (mret None) | _ => None end);
  match x with
  | None => mret None
  | Some o' => o'' ← exec_on o' fetch; mret (Some o'')
  end.
(** The agent becomes ours and is marked, and the register marks it as tracked. *)
Definition take_over (address : string) (agent : ObjectOps B Agent) : GCM (ObjectOps B Agent) :=
  our ← gc_our;
  _ ← gc_store (addToOwnership dummy address our);
  a1 ← lift (setOwner (m_agentAddress our) agent);
  a2 ← lift (setBeingGarbageCollected a1);
  a3 ← gc_store (exec_on a2 commit);
  _ ← gc_register (scoped Exclusive (_ ← fetch; _ ← change_self (trackAgent address); commit));
  mret a3.
(** The objects of the agent, with a new sorter. *)
Definition collect_owned_objects (agent : ObjectOps B Agent) : GCM unit := λ s,
  let '(r, k) :=
    (objects ← fetchOwnedObjects;
     _ ← sortFetchedObjects dummy now getTapesByVid sort index objects;
     _ ← lockFetchAndUpdateArchiveJobs dummy now;
     _ ← lockFetchAndUpdateRetrieveJobs dummy fresh freshActivity now;
     lockFetchAndUpdateOtherObjects dummy fresh freshActivity now getTapesByVid sort index logPrefix)
    (mkKState (gc_c s) agent [] [] [] 0) in
  (r, mkGC (k_c k) (m_agentRegister s) (m_watchedAgents s)).
Definition cleanupDeadAgent (address : string) : GCM unit :=
  x ← gc_store (lock_dead_agent address);
  match x with
  | None => mret tt
  | Some agent =>
      owner ← lift (getOwner agent);
      register ← gets (λ s, getAddressIfSet (m_agentRegister s));
      r ← lift register;
      if decide (owner ≠ r) then mret tt
      else agent' ← take_over address agent; collect_owned_objects agent'
  end.

(** The check of one agent, which is cleaned up when it is dead. *)
Definition gc_wd {A} (m : M (AgentWatchdog B * St) A) : M (AgentWatchdog B * GCState B St) A := λ s,
  let '(r, (w, be)) := m (fst s, c_be (gc_c (snd s))) in
  (r, (w, mkGC (mkCState (c_cache (gc_c (snd s))) be (c_agent (gc_c (snd s)))) (m_agentRegister (snd s)) (m_watchedAgents (snd s)))).
Definition cleanup_dead (address : string) : M (AgentWatchdog B * GCState B St) bool := λ s,
  let '(r, g) := cleanupDeadAgent address (snd s) in
  (match r with Ok _ => Ok false | Throw e => Throw e end, (fst s, g)).
Definition check_agent (times : Z * Z) (address : string) : M (AgentWatchdog B * GCState B St) bool :=
  alive ← gc_wd (checkAlive (fst times) (snd times));
  if (alive : bool) then mret true
  else
    _ ← gc_wd getDeadAgentDetails;
    cleanup_dead address.
(** The agents before the current one, and those from it on.  A failure on an agent that
    is gone is ignored. *)
Fixpoint check_loop (times : string → Z * Z) (before after : list (string * AgentWatchdog B)) : GCM unit := λ s,
  match after with
  | [] => (Ok tt, mkGC (gc_c s) (m_agentRegister s) before)
  | (a, w) :: after' =>
      let '(r, (w', s')) := check_agent (times a) a (w, s) in
      match r with
      | Ok true => check_loop times (before ++ [(a, w')]) after' s'
      | Ok false => check_loop times before after' s'
      | Throw e =>
          let '(x, (w'', s'')) := gc_wd checkExists (w', s') in
          let stopped e' := (Throw e', mkGC (gc_c s'') (m_agentRegister s'') (before ++ (a, w'') :: after')) in
          match x with
          | Ok false => check_loop times (before ++ [(a, w'')]) after' s''
          | Ok true => stopped e
          | Throw e' => stopped e'
          end
      end
  end.
Definition checkHeartbeats (times : string → Z * Z) : GCM unit :=
  m ← gets m_watchedAgents; check_loop times [] m.

Definition runOnePass (created : string → Z) (times : string → Z * Z) : GCM unit :=
  _ ← trimGoneTargets;
  _ ← acquireTargets created;
  checkHeartbeats times.
End GarbageCollector.
