(* ===== verification/WatchdogSpec.v ===== *)
(** * What a watchdog finds out

    A watchdog that checks an agent from time to time, against what the agent did in
    the meantime. *)
From S2P Require Import Prelude Backend ObjectOps Handles ProtoAlgorithms Agent Watchdog.

Section WatchdogSpec.
Context {B St : Type} `{!Serializable B (ObjectHeader B), !Serializable B Agent, !Backend B St}.
Context (dummy : B).
Implicit Types (w : AgentWatchdog B) (name : string).

(** A check: when the agent is read, when the timer is read and reset, and the backend
    at that time. *)
Record check := mkCheck { ck_read : Z; ck_now : Z; ck_later : Z; ck_store : St }.
Fixpoint verdicts w (l : list check) : list (result bool) :=
  match l with
  | [] => []
  | c :: l' => let '(r, (w', _)) := checkAlive (ck_now c) (ck_later c) (w, ck_store c) in r :: verdicts w' l'
  end.

Definition needs_gc (p : Agent) : bool := match gc_needed p with None => false | Some b => b end.
(** The backend holds the agent, or nothing of that name. *)
Definition agent_or_gone name (s : St) : Prop := be_wf s ∧ (be_view s !! name = None ∨ ∃ h p, stored s name = Some (h, (p : Agent))).
(** The heartbeat last seen, and the time of the reset that followed. *)
Definition see name (x : Z * Z) (c : check) : Z * Z :=
  match stored (P := Agent) (ck_store c) name with
  | Some (_, p) => if decide (heartbeat p ≠ fst x) then (heartbeat p, ck_later c) else x
  | None => x
  end.
Definition last_seen name (x : Z * Z) (l : list check) : Z * Z := foldl (see name) x l.
Definition found_alive (timeout : Z) (x : Z * Z) (now : Z) (p : Agent) : bool :=
  negb (needs_gc p) && negb (bool_decide (heartbeat p = fst x ∧ now - snd x > timeout)).

(** ** One check *)
Definition watches name (timeout : Z) (x : Z * Z) w : Prop :=
  m_nameSet (m_agent w) = true ∧ m_name (m_agent w) = name ∧ m_timeout w = timeout ∧ m_heartbeatCounter w = fst x ∧ m_timer w = snd x.

Lemma readGCData_ok (o : ObjectOps B Agent) s h p :
  be_wf s → stored s (m_name o) = Some (h, p) → m_nameSet o = true →
  readGCData (o, s) = (Ok (mkGcData (heartbeat p) (needs_gc p)), (fetched h p (with_flags (with_noLock true (m_flags o)) o), s)).
Proof.
  intros Hwf Hst Hs. unfold readGCData. mstep (fetchNoLock_spec s h p o Hwf Hst Hs).
  unfold mbind, M_bind, self, gets, lift, getHeartbeatCount, needsGarbageCollection, read_payload, checkPayloadReadable, checkReadable. simpl.
  by rewrite andb_false_r.
Qed.
Lemma readGCData_gone (o : ObjectOps B Agent) s :
  be_wf s → be_view s !! m_name o = None → m_nameSet o = true →
  ∃ o', readGCData (o, s) = (Throw NoSuchObject, (o', s)) ∧ m_nameSet o' = true ∧ m_name o' = m_name o.
Proof.
  intros Hwf Hst Hs. eexists. unfold readGCData, fetchNoLock, fetchBottomHalf, getHeaderFromObjectStore.
  unfold mbind, M_bind, self, set_self, gets, modify, lift, on_store. simpl.
  rewrite getAddressIfSet_ok by done. simpl. rewrite be_read_spec, Hst by done. by split_and!.
Qed.

Lemma check_gone name timeout x w now later s :
  watches name timeout x w → be_wf s → be_view s !! name = None →
  ∃ w', checkAlive now later (w, s) = (Ok true, (w', s)) ∧ watches name timeout x w'.
Proof.
  intros (Hs & Hn & Ht & Hc & Hm) Hwf Hv. rewrite <-Hn in Hv.
  destruct (readGCData_gone (m_agent w) s Hwf Hv Hs) as (o' & E & Hs' & Hn').
  exists (mkWatchdog (m_timer w) o' (m_heartbeatCounter w) (m_timeout w)). split; [|split_and!; simpl; congruence].
  unfold checkAlive, catch, w_agent, mbind, M_bind. simpl. by rewrite E.
Qed.
Lemma check_there name timeout x w c h p :
  watches name timeout x w → be_wf (ck_store c) → stored (ck_store c) name = Some (h, p) →
  ∃ w', checkAlive (ck_now c) (ck_later c) (w, ck_store c) = (Ok (found_alive timeout x (ck_now c) p), (w', ck_store c)) ∧
    (found_alive timeout x (ck_now c) p = true → watches name timeout (see name x c) w').
Proof.
  intros (Hs & Hn & Ht & Hc & Hm) Hwf Hst. pose proof Hst as Hst'. rewrite <-Hn in Hst.
  pose proof (readGCData_ok (m_agent w) (ck_store c) h p Hwf Hst Hs) as E.
  unfold checkAlive, catch, w_agent, gets, mbind, M_bind. simpl. rewrite E. simpl. rewrite Hc, Hm, Ht.
  unfold found_alive, see. rewrite Hst'.
  destruct (needs_gc p); [by eexists|]. simpl. case_decide as Hd.
  - rewrite bool_decide_true by done. by eexists.
  - rewrite bool_decide_false by done. case_decide; eexists; (split; [reflexivity|]); intros _; by split_and!.
Qed.

Lemma verdicts_app w l c timeout x name :
  watches name timeout x w → Forall (agent_or_gone name ∘ ck_store) l →
  Forall (eq (Ok true)) (verdicts w l) →
  ∃ w', watches name timeout (last_seen name x l) w' ∧ verdicts w (l ++ [c]) = verdicts w l ++ verdicts w' [c].
Proof.
  revert w x. induction l as [|a l IH]; intros w x Hw Hl Ha; [by exists w|].
  apply Forall_cons in Hl as [[Hwf [Hv|(h & p & Hst)]] Hl]; cbn [verdicts app last_seen foldl] in *.
  - destruct (check_gone name timeout x w (ck_now a) (ck_later a) _ Hw Hwf Hv) as (w1 & E & Hw1). rewrite E in Ha |- *.
    apply Forall_cons in Ha as [_ Ha]. destruct (IH w1 x Hw1 Hl Ha) as (w2 & Hw2 & ->). exists w2. split; [|done].
    unfold see at 2. by unfold stored; rewrite Hv.
  - destruct (check_there name timeout x w a h p Hw Hwf Hst) as (w1 & E & Hw1). rewrite E in Ha |- *.
    apply Forall_cons in Ha as [[= Hf] Ha]. destruct (IH w1 _ (Hw1 (eq_sym Hf)) Hl Ha) as (w2 & Hw2 & ->). by exists w2.
Qed.

Lemma new_watchdog_ok now name s h p :
  name ≠ "" → be_wf s → stored s name = Some (h, p) →
  ∃ w, new_watchdog dummy now name s = (Ok w, s) ∧ watches name (timeout_us p) (heartbeat p, now) w.
Proof.
  intros Hn Hwf Hst. unfold new_watchdog. rewrite object_at_ok, bind_lift by done.
  set (o := mkOps _ _ _ _ _). pose proof (readGCData_ok o s h p Hwf Hst eq_refl) as E.
  eexists. unfold run_on at 1, mbind, M_bind. rewrite E. simpl.
  unfold exec_on, run_on, mbind, M_bind. erewrite fetchNoLock_spec by (done || exact Hst). simpl. by split.
Qed.

(** ** The life of an agent *)

(** The agent as its heartbeat has it at the time of the check, unless it is gone;
    [d] bounds the time between the read and the timer. *)
Definition beating name (hb : Z → Z) (d : Z) (c : check) : Prop :=
  be_wf (ck_store c) ∧ ck_now c <= ck_read c + d ∧ ck_read c <= ck_later c ∧
  (be_view (ck_store c) !! name = None ∨
   ∃ h p, stored (ck_store c) name = Some (h, p) ∧ heartbeat p = hb (ck_read c) ∧ needs_gc p = false).

Lemma beating_alive name timeout hb d e l w x r :
  0 <= e → (∀ r1 r2, r2 - r1 > timeout - (d + e) → hb r1 ≠ hb r2) →
  watches name timeout x w → fst x = hb r → r <= snd x + e → Forall (beating name hb d) l →
  verdicts w l = replicate (length l) (Ok true).
Proof.
  intros He Hhb. revert w x r. induction l as [|c l IH]; intros w x r Hw Hx Hr Hl; [done|].
  apply Forall_cons in Hl as [(Hwf & Hd & Hlt & Hc) Hl]. cbn [verdicts length replicate].
  destruct Hc as [Hv|(h & p & Hst & Hbeat & Hgc)].
  - destruct (check_gone name timeout x w (ck_now c) (ck_later c) _ Hw Hwf Hv) as (w1 & -> & Hw1).
    f_equal. by apply (IH w1 x r).
  - destruct (check_there name timeout x w c h p Hw Hwf Hst) as (w1 & -> & Hw1).
    assert (Hf : found_alive timeout x (ck_now c) p = true).
    { unfold found_alive. rewrite Hgc. simpl. apply negb_true_iff, bool_decide_eq_false. intros [Heq Ht].
      apply (Hhb r (ck_read c)); [lia|]. congruence. }
    rewrite Hf. f_equal. specialize (Hw1 Hf). unfold see in Hw1. rewrite Hst in Hw1. case_decide.
    + apply (IH w1 (heartbeat p, ck_later c) (ck_read c)); [done|done|simpl; lia|done].
    + by apply (IH w1 x r).
Qed.

(** C15: A watchdog on an agent, whose timer starts at [t0] and which then reads the
    heartbeat of the agent for the first time, at [r], at most [e] later.  While the
    heartbeat moves in every interval longer than the time-out less [e] and the time
    [d] that a check takes from the read to the timer, and the agent does not ask for
    its collection, no check declares it dead; nor does a check of an agent that is
    gone.  A check declares dead exactly an agent that asks for its collection, or
    whose heartbeat is the last one seen while the timer, started at [t0] or reset
    after that heartbeat was seen, shows more than the time-out. *)
Theorem watchdog_verdicts name s0 h0 p0 t0 :
  name ≠ "" → be_wf s0 → stored s0 name = Some (h0, p0) →
  ∃ w, new_watchdog dummy t0 name s0 = (Ok w, s0) ∧
    (∀ hb d e r l, heartbeat p0 = hb r → t0 <= r <= t0 + e →
       (∀ r1 r2, r2 - r1 > timeout_us p0 - (d + e) → hb r1 ≠ hb r2) →
       Forall (beating name hb d) l → verdicts w l = replicate (length l) (Ok true)) ∧
    (∀ l c h p, Forall (agent_or_gone name ∘ ck_store) l → Forall (eq (Ok true)) (verdicts w l) →
       be_wf (ck_store c) → stored (ck_store c) name = Some (h, p) →
       let '(n, t) := last_seen name (heartbeat p0, t0) l in
       verdicts w (l ++ [c]) = verdicts w l ++
         [Ok (negb (needs_gc p || bool_decide (heartbeat p = n ∧ ck_now c > t + timeout_us p0)))]).
Proof.
  intros Hn Hwf Hst. destruct (new_watchdog_ok t0 name s0 h0 p0 Hn Hwf Hst) as (w & E & Hw).
  exists w. split; [done|]. split.
  - intros hb d e r l Hr Hle Hhb Hl.
    apply (beating_alive name (timeout_us p0) hb d e l w (heartbeat p0, t0) r); (done || simpl; lia).
  - intros l c h p Hl Ha Hwfc Hc. destruct (verdicts_app w l c _ _ name Hw Hl Ha) as (w' & Hw' & ->).
    destruct (last_seen name (heartbeat p0, t0) l) as [n t]. f_equal. cbn [verdicts].
    destruct (check_there name _ _ w' c h p Hw' Hwfc Hc) as (w'' & -> & _). unfold found_alive. simpl.
    rewrite negb_orb. do 4 f_equal. apply bool_decide_ext. lia.
Qed.
End WatchdogSpec.
