(* ===== verification/OwnedObjectsSpec.v ===== *)
(** * Agents that own nothing to requeue

    What reading and sorting the objects of an agent does when the objects are gone,
    belong to others, or are archive requests without a job that has a queue. *)
From S2P Require Import Prelude DataTypes Checksum ValueCountMap Backend ObjectOps Handles ProtoAlgorithms ArchiveFile ArchiveQueueShard ArchiveQueue ArchiveRequest RetrieveActivity RetrieveQueueShard RetrievePlan RetrieveQueue RetrieveRequest Agent Registers RootEntry AgentLife AgentLifeSpec RepackRequest Helpers RetrieveCache Algorithms AlgorithmsSpec QueueTraits RetrieveTraits Sorter Collect RetrieveCollect GenericObject OwnedObjects.

Section OwnedObjectsSpec.
Context {B St : Type} `{!Serializable B (ObjectHeader B), !Backend B St}.
Context `{!Serializable B ArchiveRequest, !Serializable B RetrieveRequest, !Serializable B RootEntry, !Serializable B RetrieveQueue}.
Context `{!Serializable bytes ChecksumPb, !Serializable B Agent}.
Context (dummy : B) (now : Z).
Context (getTapesByVid : gset string → result (gmap string Tape)) (sort : list RetrieveQueueStatistics → list RetrieveQueueStatistics) (index : nat).
Implicit Types (be : St) (a x : string) (p : Agent) (h : ObjectHeader B).

(** ** What the agent owns *)
Definition header_at be x : option (ObjectHeader B) := be_view be !! x ≫= ParseFromString.
Definition gone be x : Prop := be_view be !! x = None.
#[export] Instance gone_dec be x : Decision (gone be x).
Proof. unfold gone. apply _. Defined.
(** An object of another owner. *)
Definition foreign a be x : Prop := ∃ h, header_at be x = Some h ∧ h_owner h ≠ a ∧
  (h_type h = ArchiveRequest_t → ∃ r : ArchiveRequest, ParseFromString (h_payload h) = Some r ∧ Forall (λ j, aj_owner j ≠ a) (ar_jobs r)).
(** An archive request of the agent none of whose jobs of the agent has a queue. *)
Definition idle a be x : Prop := ∃ h (r : ArchiveRequest) f, header_at be x = Some h ∧ h_type h = ArchiveRequest_t ∧
  ParseFromString (h_payload h) = Some r ∧ file_of r = Ok f ∧ (h_owner h = a ∨ Exists (λ j, aj_owner j = a) (ar_jobs r)) ∧
  Forall (λ j, aj_owner j = a → aj_status j ∉ c_statusesImplyingQueueing) (ar_jobs r).

(** The list of the agent without some addresses. *)
Definition disowned (l : list string) p p' : Prop :=
  (∃ owned, p' = set_ownedobjects owned p) ∧ ∀ y, y ∈ ownedobjects p' ↔ y ∈ ownedobjects p ∧ y ∉ l.
Lemma disowned_nil p : disowned [] p p.
Proof. split; [by exists (ownedobjects p); destruct p|]. set_solver. Qed.
Lemma disowned_trans l1 l2 p1 p2 p3 : disowned l1 p1 p2 → disowned l2 p2 p3 → disowned (l1 ++ l2) p1 p3.
Proof. intros [[o1 ->] H1] [[o2 ->] H2]. split; [by exists o2|]. set_solver. Qed.
Lemma disowned_one x p : disowned [x] p (set_ownedobjects (removeString x (ownedobjects p)) p).
Proof. split; [by eexists|]. intros y. simpl. rewrite elem_of_removeString. set_solver. Qed.

(** ** The state *)
Abbreviation kstate be ag a h p A R O n ca := (mkKState (mkCState ca be ag) (opened Exclusive a h p) A R O n : KState B St).

Lemma k_disown_ok x be ag a h p A R O n ca :
  k_disown x (kstate be ag a h p A R O n ca) = (Ok tt, kstate be ag a h (set_ownedobjects (removeString x (ownedobjects p)) p) A R O n ca).
Proof. done. Qed.

Lemma fetch_generic_spec be x :
  be_wf be → fetch_generic x be = (match be_view be !! x with
    | None => Throw NoSuchObject
    | Some c => getGenericHeader c
    end, be).
Proof.
  intros Hwf. unfold fetch_generic, mbind, M_bind, lift. rewrite be_read_spec by done.
  by destruct (be_view be !! x).
Qed.

Lemma fetch_owned_ok be ag a h p A R O n ca x :
  be_wf be → gone be x ∨ is_Some (header_at be x) →
  ∃ p', fetch_owned x (kstate be ag a h p A R O n ca) =
      (Ok (option_list ((λ hx, (x, hx)) <$> header_at be x), bool_decide (gone be x)), kstate be ag a h p' A R O n ca) ∧
    disowned (filter (gone be) [x]) p p' ∧ (¬ gone be x → p' = p).
Proof.
  intros Hwf Hx. unfold fetch_owned, attempt, k_store, k_collector, mbind, M_bind. simpl. rewrite fetch_generic_spec by done.
  destruct (decide (gone be x)) as [Hg|Hg].
  - assert (Hh : header_at be x = None) by (unfold header_at; by rewrite Hg). rewrite Hh, (Hg : be_view be !! x = None). simpl.
    eexists. rewrite bool_decide_true by done. rewrite filter_cons_True, filter_nil by done. split_and!; [done|apply disowned_one|done].
  - destruct Hx as [?|[hx Hx]]; [done|]. rewrite Hx. unfold header_at in Hx. destruct (be_view be !! x) as [c|]; [|done]. simpl in Hx.
    unfold getGenericHeader. rewrite Hx. simpl.
    exists p. rewrite bool_decide_false by done. rewrite filter_cons_False, filter_nil by done. split_and!; [done|apply disowned_nil|done].
Qed.

Lemma fetch_all_ok be ag a h A R O n ca l p :
  be_wf be → Forall (λ x, gone be x ∨ is_Some (header_at be x)) l →
  ∃ p', fetch_all l (kstate be ag a h p A R O n ca) =
      (Ok (omap (λ x, (λ hx, (x, hx)) <$> header_at be x) l, existsb (λ x, bool_decide (gone be x)) l), kstate be ag a h p' A R O n ca) ∧
    disowned (filter (gone be) l) p p' ∧ (existsb (λ x, bool_decide (gone be x)) l = false → p' = p).
Proof.
  intros Hwf. revert p. induction l as [|x l IH]; intros p Hl; [exists p; split_and!; [done|apply disowned_nil|done]|].
  apply Forall_cons in Hl as [Hx Hl]. destruct (fetch_owned_ok be ag a h p A R O n ca x Hwf Hx) as (p1 & E1 & Hd1 & He1).
  destruct (IH p1 Hl) as (p2 & E2 & Hd2 & He2). exists p2. cbn [fetch_all]. mstep E1. mstep E2. split_and!.
  - simpl. f_equal. f_equal. f_equal. by destruct (header_at be x).
  - replace (filter (gone be) (x :: l)) with (filter (gone be) [x] ++ filter (gone be) l) by by rewrite <-filter_app.
    by eapply disowned_trans.
  - cbn [existsb]. intros [Hb1 Hb2]%orb_false_iff. apply bool_decide_eq_false in Hb1. rewrite He2, He1; done.
Qed.

(** ** Sorting *)
Lemma request_jobs x h (r : ArchiveRequest) :
  fst (request_dumpJobs (mkOps true x h r unlocked_flags)) =
    Ok ((λ j, mkArchiveJobDump (aj_copynb j) (aj_tapepool j) (aj_owner j) (aj_status j)) <$> ar_jobs r).
Proof. done. Qed.

Lemma is_owned_foreign a x h :
  h_owner h ≠ a → (h_type h = ArchiveRequest_t → ∃ r : ArchiveRequest, ParseFromString (h_payload h) = Some r ∧ Forall (λ j, aj_owner j ≠ a) (ar_jobs r)) →
  is_owned a x h = Ok false.
Proof.
  intros Ho Hr. unfold is_owned. rewrite decide_False by done. case_decide as Ht; [|done]. destruct (Hr Ht) as (r & Hp & Hj).
  unfold typed_unlocked, as_typed. rewrite Hp. simpl. f_equal. induction Hj as [|j l Hj _ IH]; [done|]. simpl. by rewrite bool_decide_false.
Qed.
Lemma is_owned_idle a x h (r : ArchiveRequest) :
  h_type h = ArchiveRequest_t → ParseFromString (h_payload h) = Some r → h_owner h = a ∨ Exists (λ j, aj_owner j = a) (ar_jobs r) →
  is_owned a x h = Ok true.
Proof.
  intros Ht Hp Ho. unfold is_owned. case_decide; [done|]. rewrite decide_True by done. destruct Ho as [?|Ho]; [done|].
  unfold typed_unlocked, as_typed. rewrite Hp. cbn [mbind result_bind]. rewrite request_jobs. cbn [mbind result_bind]. f_equal.
  apply Exists_exists in Ho as (j & Hj & Hoj). apply existsb_exists.
  exists (mkArchiveJobDump (aj_copynb j) (aj_tapepool j) (aj_owner j) (aj_status j)). split; [|by apply bool_decide_eq_true].
  apply list_elem_of_In, list_elem_of_fmap. by exists j.
Qed.

(** A job without a queue is left where it is. *)
Lemma sort_jobs_idle a i (ar : ObjectOps B ArchiveRequest) (jobs : list ArchiveJob) k :
  Forall (λ j, aj_owner j = a → aj_status j ∉ c_statusesImplyingQueueing) jobs →
  mfor ((λ j, mkArchiveJobDump (aj_copynb j) (aj_tapepool j) (aj_owner j) (aj_status j)) <$> jobs) (sort_archive_job (St := St) a i ar) k = (Ok tt, k).
Proof.
  induction 1 as [|j l Hj _ IH]; [done|]. cbn [fmap list_fmap mfor]. rewrite (bind_ok _ _ _ tt k); [exact IH|].
  unfold sort_archive_job. rewrite decide_False; [done|]. simpl. intros [? ?]. by apply Hj.
Qed.

Lemma sort_object_ok be ag a h p A R O n ca x hx :
  header_at be x = Some hx → foreign a be x ∨ idle a be x →
  ∃ p' n' b, sort_object dummy now getTapesByVid sort index a (x, hx) (kstate be ag a h p A R O n ca) = (Ok b, kstate be ag a h p' A R O n' ca) ∧
    ((b = true ∧ ¬ idle a be x ∧ disowned [x] p p') ∨ (b = false ∧ idle a be x ∧ p' = p)).
Proof.
  intros Hx Hk. destruct Hk as [(h' & Hh & Ho & Hr)|(h' & r & f & Hh & Ht & Hp & Hf & Ho & Hj)]; rewrite Hx in Hh; injection Hh as <-.
  - unfold sort_object. cbn [fst snd]. pose proof (is_owned_foreign a x hx Ho Hr) as E. rewrite E, bind_lift. cbn [negb].
    eexists _, _, _. split; [erewrite bind_ok by apply k_disown_ok; reflexivity|]. left. split_and!; [done| |apply disowned_one].
    intros (h2 & r & f & Hh & Ht & Hp & _ & Ho2 & _). rewrite Hx in Hh; injection Hh as <-.
    pose proof (is_owned_idle a x hx r Ht Hp Ho2). congruence.
  - unfold sort_object. cbn [fst snd]. rewrite (is_owned_idle a x hx r Ht Hp Ho), bind_lift. cbn [negb]. rewrite Ht.
    eexists p, (S n), false. split; [|right; split_and!; [done|by exists hx, r, f|done]].
    etransitivity; [apply (bind_ok _ _ _ tt (kstate be ag a h p A R O (S n) ca))|reflexivity]. unfold sort_archive, typed_unlocked, as_typed. rewrite Hp, bind_lift.
    mstep (eq_refl : new_number (kstate be ag a h p A R O n ca) = (Ok n, kstate be ag a h p A R O (S n) ca)).
    rewrite request_jobs, bind_lift. mstep (sort_jobs_idle a n (mkOps true x hx r unlocked_flags) (ar_jobs r) (kstate be ag a h p A R O (S n) ca) Hj).
    unfold mbind, M_bind, lift. simpl. unfold getArchiveFile, mbind, M_bind, lift, ar_readable, ar_payload, get, gets. simpl. by rewrite Hf.
Qed.

Lemma sort_all_ok be ag a h A R O ca l p n :
  Forall (λ x, foreign a be x ∨ idle a be x) l →
  ∃ p' n' b, sort_all dummy now getTapesByVid sort index a (omap (λ x, (λ hx, (x, hx)) <$> header_at be x) l) (kstate be ag a h p A R O n ca) =
      (Ok b, kstate be ag a h p' A R O n' ca) ∧ (b = false → p' = p) ∧
    (∃ owned, p' = set_ownedobjects owned p) ∧ (∀ y, y ∈ ownedobjects p' ↔ y ∈ ownedobjects p ∧ (y ∈ l → idle a be y)).
Proof.
  intros Hl. revert p n. induction Hl as [|x l Hx Hl IH]; intros p n.
  { exists p, n, false. split_and!; [done|done|by exists (ownedobjects p); destruct p|set_solver]. }
  assert (∃ hx, header_at be x = Some hx) as [hx Hh] by (destruct Hx as [(?&?&_)|(?&?&?&?&_)]; eauto).
  destruct (sort_object_ok be ag a h p A R O n ca x hx Hh Hx) as (p1 & n1 & b1 & E1 & H1).
  destruct (IH p1 n1) as (p2 & n2 & b2 & E2 & Hb2 & [o2 Ho2] & Hin). exists p2, n2, (b1 || b2)%bool. split_and!.
  - cbn [omap list_omap]. rewrite Hh. cbn [fmap option_fmap option_map sort_all]. mstep E1. by mstep E2.
  - intros [-> ->]%orb_false_iff. destruct H1 as [(? & _)|(_ & _ & ->)]; [done|]. by apply Hb2.
  - exists o2. destruct H1 as [(_ & _ & [[o1 ->] _])|(_ & _ & ->)]; by rewrite Ho2.
  - intros y. rewrite Hin. destruct H1 as [(_ & Hi & [_ H1])|(_ & Hi & ->)].
    + rewrite H1. split; [intros [[? Hy] Hl']|intros [? Hl']]; split_and!; try done.
      * intros [->|?]%elem_of_cons; [by destruct Hy; left|by apply Hl'].
      * intros ->%list_elem_of_singleton. apply Hi, Hl'. by left.
      * intros ?. apply Hl'. by right.
    + split; intros [? Hl']; (split; [done|]); [intros [->|?]%elem_of_cons; [done|by apply Hl']|intros ?; apply Hl'; by right].
Qed.

(** ** Writing the list *)
Lemma commit_if_ok b be ag a h p A R O n ca h0 p0 :
  be_wf be → stored be a = Some (h0, p0) → h_type h = Agent_t → (b = false → h = h0 ∧ p = p0) →
  ∃ be' h', (if (b : bool) then k_self commit else mret tt) (kstate be ag a h p A R O n ca) = (Ok tt, kstate be' ag a h' p A R O n ca) ∧
    be_wf be' ∧ stored be' a = Some (h', p) ∧ h_owner h' = h_owner h ∧ h_type h' = Agent_t ∧ same_outside (eq a) be be'.
Proof.
  intros Hwf Hst Ht Hb. destruct b; [|destruct (Hb eq_refl) as [-> ->]; exists be, h0; by split_and!].
  destruct (commit_spec be (opened Exclusive a h p) Hwf) as (be' & E & Hwf' & Hv & Hst'); try done.
  { apply opened_writable. } { exact (stored_exists _ _ _ Hst). }
  exists be', (m_header (push_payload (opened Exclusive a h p))). split_and!; try done.
  - unfold k_self. simpl. by rewrite E.
  - by rewrite Hst', decide_True.
  - intros y Hy. rewrite Hv. by apply lookup_insert_ne.
Qed.

Lemma addresses_set {S} l (s : S) : Forall (λ x, x ≠ "") l → mfor l (λ x, _ ← lift (generic_address x); mret tt) s = (Ok tt, s).
Proof.
  induction 1 as [|x l Hx _ IH]; [done|]. cbn [mfor]. rewrite (bind_ok _ _ _ tt s); [exact IH|].
  unfold generic_address. by rewrite decide_False.
Qed.

Definition headers be (l : list string) : list (string * ObjectHeader B) := omap (λ x, (λ hx, (x, hx)) <$> header_at be x) l.

(** The objects that are gone leave the list. *)
Lemma fetchOwnedObjects_ok be ag a h p n ca :
  be_wf be → stored be a = Some (h, p) → h_type h = Agent_t →
  Forall (λ x, x ≠ "" ∧ (gone be x ∨ is_Some (header_at be x))) (ownedobjects p) →
  ∃ be' h' p', fetchOwnedObjects (kstate be ag a h p [] [] [] n ca) = (Ok (headers be (ownedobjects p)), kstate be' ag a h' p' [] [] [] n ca) ∧
    be_wf be' ∧ stored be' a = Some (h', p') ∧ h_owner h' = h_owner h ∧ h_type h' = Agent_t ∧ same_outside (eq a) be be' ∧
    disowned (filter (gone be) (ownedobjects p)) p p'.
Proof.
  intros Hwf Hst Ht Hl. apply Forall_and in Hl as [Hn Hl].
  destruct (fetch_all_ok be ag a h [] [] [] n ca (ownedobjects p) p Hwf Hl) as (p1 & E1 & Hd1 & He1).
  destruct (commit_if_ok (existsb (λ x, bool_decide (gone be x)) (ownedobjects p)) be ag a h p1 [] [] [] n ca h p Hwf Hst Ht) as
    (be1 & h1 & E2 & Hwf1 & Hst1 & Ho1 & Ht1 & Hfr1); [by split; [done|apply He1]|].
  exists be1, h1, p1. split; [|by split_and!]. unfold fetchOwnedObjects.
  mstep (eq_refl : gets k_agent (kstate be ag a h p [] [] [] n ca) = (Ok (opened Exclusive a h p), _)).
  unfold getOwnershipList. rewrite read_opened, bind_lift. mstep (addresses_set (ownedobjects p) (kstate be ag a h p [] [] [] n ca) Hn).
  mstep E1. cbn [snd]. by mstep E2.
Qed.

Lemma headers_present be be' l :
  (∀ x, x ∈ l → be_view be' !! x = be_view be !! x) → headers be l = headers be' (filter (λ x, ¬ gone be x) l).
Proof.
  induction l as [|x k IH]; intros H; [done|]. unfold headers in *. cbn [omap list_omap]. rewrite IH by (intros; apply H; by right).
  destruct (decide (gone be x)) as [Hg|Hg].
  - rewrite filter_cons_False by tauto. unfold header_at at 1. by rewrite Hg.
  - rewrite filter_cons_True by done. cbn [omap list_omap].
    assert (header_at be' x = header_at be x) as ->; [unfold header_at; by rewrite (H x) by (by left)|done].
Qed.
Lemma foreign_frame a be be' x : be_view be' !! x = be_view be !! x → foreign a be x → foreign a be' x.
Proof. unfold foreign, header_at. by intros ->. Qed.
Lemma idle_frame a be be' x : be_view be' !! x = be_view be !! x → idle a be' x ↔ idle a be x.
Proof. unfold idle, header_at. by intros ->. Qed.

(** The list keeps the idle requests. *)
Lemma nothing_to_requeue be ag a h p n ca :
  be_wf be → stored be a = Some (h, p) → h_type h = Agent_t →
  Forall (λ x, x ≠ "" ∧ x ≠ a ∧ (gone be x ∨ foreign a be x ∨ idle a be x)) (ownedobjects p) →
  ∃ be' h' p' n', (objects ← fetchOwnedObjects; sortFetchedObjects dummy now getTapesByVid sort index objects) (kstate be ag a h p [] [] [] n ca) =
      (Ok tt, kstate be' ag a h' p' [] [] [] n' ca) ∧
    be_wf be' ∧ stored be' a = Some (h', p') ∧ h_owner h' = h_owner h ∧ h_type h' = Agent_t ∧ same_outside (eq a) be be' ∧
    (∃ owned, p' = set_ownedobjects owned p) ∧ (∀ x, x ∈ ownedobjects p' ↔ x ∈ ownedobjects p ∧ idle a be x).
Proof.
  intros Hwf Hst Ht Hl. set (l := ownedobjects p) in *. set (l' := filter (λ x, ¬ gone be x) l).
  assert (Hx : ∀ x, x ∈ l → x ≠ "" ∧ x ≠ a ∧ (gone be x ∨ foreign a be x ∨ idle a be x)) by (by apply Forall_forall).
  destruct (fetchOwnedObjects_ok be ag a h p n ca Hwf Hst Ht) as (be1 & h1 & p1 & E1 & Hwf1 & Hst1 & Ho1 & Ht1 & Hfr1 & [[o1 ->] Hd1]).
  { apply Forall_forall. intros x (? & _ & [?|[(?&?&_)|(?&?&?&?&_)]])%Hx; (split; [done|]); [by left|right; by eexists..]. }
  assert (Hv : ∀ x, x ∈ l → be_view be1 !! x = be_view be !! x) by (intros x Hin; apply Hfr1; intros <-; by apply Hx in Hin as (_ & ? & _)).
  destruct (sort_all_ok be1 ag a h1 [] [] [] ca l' (set_ownedobjects o1 p) n) as (p2 & n2 & b & E2 & Hb & [o2 ->] & Hin).
  { apply Forall_forall. intros x [Hg Hxl]%list_elem_of_filter. destruct (Hx x Hxl) as (_ & _ & [?|[?|?]]); [done|left|right].
    - by apply (foreign_frame a be); [apply Hv|]. - by apply (idle_frame a be); [apply Hv|]. }
  destruct (commit_if_ok b be1 ag a h1 (set_ownedobjects o2 (set_ownedobjects o1 p)) [] [] [] n2 ca h1 _ Hwf1 Hst1 Ht1)
    as (be2 & h2 & E3 & Hwf2 & Hst2 & Ho2 & Ht2 & Hfr2); [by split; [done|apply Hb]|].
  exists be2, h2, (set_ownedobjects o2 (set_ownedobjects o1 p)), n2. split_and!; try done; [|congruence| |by exists o2|].
  - mstep E1. unfold sortFetchedObjects.
    mstep (eq_refl : k_address (kstate be1 ag a h1 (set_ownedobjects o1 p) [] [] [] n ca) = (Ok a, _)).
    rewrite (headers_present be be1 (ownedobjects p) Hv). by mstep E2.
  - intros x Hne. by rewrite Hfr2, Hfr1.
  - intros x. rewrite Hin, Hd1. unfold l'. rewrite !list_elem_of_filter. fold l. split.
    + intros [[Hxl Hng] Hi]. split; [done|]. destruct (decide (gone be x)); [by destruct Hng|]. apply (idle_frame a be be1); [by apply Hv|]. apply Hi. naive_solver.
    + intros [Hxl Hi]. assert (¬ gone be x) by (destruct Hi as (?&?&?&Hh&_); unfold header_at in Hh; intros Hg; by rewrite Hg in Hh).
      split; [naive_solver|]. intros _. apply (idle_frame a be); [by apply Hv|done].
Qed.
End OwnedObjectsSpec.
