(* ===== verification/GarbageCollectorSpec.v ===== *)
(** * Taking over a dead agent

    Only one collector cleans up an agent; the agent disappears when nothing it owned
    is left, and stays whatever the collectors do when it owned an archive request
    without a job to queue. *)
From S2P Require Import Prelude DataTypes Checksum ValueCountMap Backend ObjectOps Handles ProtoAlgorithms ArchiveFile ArchiveQueueShard ArchiveQueue ArchiveRequest RetrieveActivity RetrieveQueueShard RetrievePlan RetrieveQueue RetrieveRequest Agent Registers RegistersSpec RootEntry RootEntrySpec RootEntryTheorems AgentLife AgentLifeSpec RepackRequest Helpers RetrieveCache Algorithms AlgorithmsSpec QueueTraits QueueTraitsSpec RetrieveTraits Sorter Collect RetrieveCollect GenericObject OwnedObjects OwnedObjectsSpec Watchdog GarbageCollector.

Section GarbageCollectorSpec.
Context {B St : Type} `{!Serializable B (ObjectHeader B), !Backend B St}.
Context `{!Serializable B RootEntry, !Serializable B ArchiveQueue, !Serializable B ArchiveQueueShard, !Serializable B ArchiveRequest}.
Context `{!Serializable B RetrieveQueue, !Serializable B RetrieveQueueShard, !Serializable B RetrieveRequest}.
Context `{!Serializable B RepackQueue, !Serializable B RepackRequest, !Serializable B AgentRegister, !Serializable B DriveRegister}.
Context `{!Serializable B SchedulerGlobalLock, !Serializable bytes ChecksumPb, !Serializable B Agent}.
Context (dummy : B) (fresh : RetrieveJobToAdd) (freshActivity : RetrieveActivityDescription) (now : Z).
Context (getTapesByVid : gset string → result (gmap string Tape)) (sort : list RetrieveQueueStatistics → list RetrieveQueueStatistics) (index : nat) (logPrefix : string).
Implicit Types (be : St) (a reg our : string) (p : Agent) (h : ObjectHeader B).

(** ** The agent *)
Lemma lock_dead_agent_ok a h p be :
  be_wf be → a ≠ "" → stored be a = Some (h, p) → lock_dead_agent dummy a be = (Ok (Some (opened Exclusive a h p)), be).
Proof.
  intros Hwf Ha Hst. unfold lock_dead_agent. rewrite object_at_ok, bind_lift by done.
  unfold run_on, lock, checkObjectAndAddressSet, catch.
  unfold mbind, M_bind, lift, self, set_self, on_store, gets, modify. simpl.
  rewrite bool_decide_false by done. simpl. rewrite be_lock_ok by (done || by eapply stored_exists). simpl.
  unfold exec_on, run_on, mbind, M_bind. by erewrite fetch_spec.
Qed.
Lemma lock_dead_agent_gone a be : be_wf be → a ≠ "" → be_view be !! a = None → lock_dead_agent dummy a be = (Ok None, be).
Proof.
  intros Hwf Ha Hst. unfold lock_dead_agent. rewrite object_at_ok, bind_lift by done.
  unfold run_on, lock, checkObjectAndAddressSet, catch.
  unfold mbind, M_bind, lift, self, set_self, on_store, gets, modify. simpl.
  rewrite bool_decide_false by done. simpl. by rewrite be_lock_absent.
Qed.

(** ** The register *)
Definition reg_track a (r : AgentRegister) : AgentRegister := mkAgentRegister (agents r) (removeString a (untrackedagents r)).
(** A handle of the register without a lock. *)
Definition free_handle reg (o : ObjectOps B AgentRegister) : Prop :=
  m_nameSet o = true ∧ m_name o = reg ∧ m_locksCount (m_flags o) = 0 ∧ m_locksForWriteCount (m_flags o) = 0.

Lemma track_ok be reg regp a (o : ObjectOps B AgentRegister) :
  registered be reg regp → reg ≠ root_address → a ∈ agents regp → free_handle reg o →
  ∃ o' be', scoped Exclusive (_ ← fetch; _ ← change_self (trackAgent a); commit) (o, be) = (Ok tt, (o', be')) ∧
    free_handle reg o' ∧ registered be' reg (reg_track a regp) ∧ same_but [reg] be be'.
Proof.
  intros [Hwf (hr & r & Hroot & Ha) (h & Hst)] Hne Hin (Hset & Hname & Hl & Hw). pose proof (address_of_nonempty _ _ Ha) as Hna.
  set (o1 := with_flags (with_exclusiveLock true (with_locks 1 1 (m_flags o))) o).
  assert (E1 : lock (mkLock Exclusive false) (o, be) = (Ok (mkLock Exclusive true), (o1, be))).
  { unfold lock, checkObjectAndAddressSet, mbind, M_bind, lift, self, set_self, on_store, gets, modify. simpl.
    rewrite Hset, bool_decide_false by congruence. simpl. rewrite getAddressIfSet_ok by done. simpl.
    rewrite be_lock_ok by (done || (rewrite Hname; exact (stored_exists _ _ _ Hst))). simpl. unfold setObjectLocked, o1. simpl. by rewrite Hl, Hw. }
  pose proof (fetch_spec be h regp o1 Hwf ltac:(simpl; by rewrite Hname) Hset ltac:(done)) as E2.
  set (o3 := with_payload (reg_track a regp) (fetched h regp o1)).
  assert (Ht : h_type h = @payloadTypeId AgentRegister _) by exact (stored_type _ _ _ _ Hst).
  destruct (commit_spec be o3 Hwf) as (be' & E3 & Hwf' & Hv & Hst'); try done.
  { split; [done|]. intros _. split; [done|by left]. }
  { simpl. rewrite Hname. exact (stored_exists _ _ _ Hst). }
  simpl in Hv, Hst'. rewrite Hname in Hv, Hst'. eexists _, be'. split.
  { unfold scoped. mstep E1. unfold unlocking. rewrite (bind_ok _ _ _ _ _ E2).
    rewrite (bind_ok _ _ _ tt (o3, be)); [by rewrite E3|].
    unfold change_self, trackAgent, mbind, M_bind, self, gets, lift, set_self, modify, checkPayloadWritable, checkWritable. simpl.
    destruct (findString_spec a (agents regp)) as [(_ & i & -> & _)|[? _]]; done. }
  split; [by split_and!|]. split; [split; [done| |]|].
  - exists hr, r. split; [|done]. rewrite <-Hroot. apply stored_frame. rewrite Hv. by apply lookup_insert_ne.
  - eexists. by rewrite Hst', decide_True.
  - intros n Hn. rewrite Hv. apply lookup_insert_ne. intros <-. apply Hn. by left.
Qed.

(** ** The take-over *)
Definition taken_over p : Agent := set_being_garbage_collected true p.

Lemma take_over_ok be reg regp a h p ag po o ca W :
  let our := m_agentAddress ag in
  registered be reg regp → reg ≠ root_address → a ∈ agents regp → free_handle reg o →
  stored be a = Some (h, p) → agent_ready be our po →
  a ≠ reg → a ≠ root_address → a ≠ our → our ≠ reg → our ≠ root_address →
  ∃ be' h' po' o', take_over dummy a (opened Exclusive a h p) (mkGC (mkCState ca be ag) o W) =
      (Ok (opened Exclusive a h' (taken_over p)), mkGC (mkCState ca be' ag) o' W) ∧
    registered be' reg (reg_track a regp) ∧ free_handle reg o' ∧
    stored be' a = Some (h', taken_over p) ∧ h_owner h' = our ∧ h_type h' = Agent_t ∧
    agent_ready be' our po' ∧ owned po' = owned po ∪ {[a]} ∧ same_outside (λ n, n = a ∨ n = reg ∨ n = our) be be'.
Proof.
  intros our Hr Hne Hin Ho Hst (Hgc & hp & Hs) Har Harr Hao Hor Hoo. pose proof (stored_type _ _ _ _ Hst) as Ht.
  destruct (change_owned dummy our (Add a) hp po be Hs Hgc) as (be1 & h1 & po1 & E1 & Hs1 & Hgc1 & Ho1 & Hfr1).
  pose proof Hs1 as (Hwf1 & _).
  set (o2 := opened Exclusive a (mkHeader (h_type h) (h_version h) our (h_backupowner h) (h_payload h)) (taken_over p)).
  destruct (commit_spec be1 o2 Hwf1) as (be2 & E2 & Hwf2 & Hv2 & Hst2); try done.
  { apply opened_writable. } { simpl. rewrite Hfr1 by congruence. exact (stored_exists _ _ _ Hst). }
  assert (Hfr2 : same_outside (eq a) be1 be2) by (intros n Hn; rewrite Hv2; by apply lookup_insert_ne).
  assert (Hr2 : registered be2 reg regp).
  { apply (registered_frame [our; a] be); [done|done| |set_solver..]. intros n Hn. rewrite Hfr2, Hfr1; set_solver. }
  destruct (track_ok be2 reg regp a o Hr2 Hne Hin Ho) as (o3 & be3 & E3 & Ho3 & Hr3 & Hfr3).
  exists be3, (m_header (push_payload o2)), po1, o3. split_and!; try done.
  - unfold take_over. mstep (eq_refl : gc_our (mkGC (mkCState ca be ag) o W) = (Ok ag, _)).
    rewrite (bind_ok _ _ _ tt (mkGC (mkCState ca be1 ag) o W)); last first.
    { unfold gc_store, addToOwnership, queueAndExecuteAction. simpl. fold our. by rewrite E1. }
    fold our. change (setOwner our (opened Exclusive a h p)) with (Ok (opened Exclusive a (mkHeader (h_type h) (h_version h) our (h_backupowner h) (h_payload h)) p)).
    rewrite bind_lift. unfold setBeingGarbageCollected. rewrite write_opened, bind_lift.
    change (opened Exclusive a _ (set_being_garbage_collected true p)) with o2.
    rewrite (bind_ok _ _ _ (push_payload o2) (mkGC (mkCState ca be2 ag) o W)); last first.
    { unfold gc_store, exec_on, run_on, mbind, M_bind. cbn [gc_c c_be]. by rewrite E2. }
    rewrite (bind_ok _ _ _ tt (mkGC (mkCState ca be3 ag) o3 W)); [done|]. unfold gc_register. simpl. by rewrite E3.
  - rewrite (stored_frame be2 be3 a); [by rewrite Hst2, decide_True|]. apply Hfr3. set_solver.
  - split; [done|]. exists h1. apply (agent_stored_frame our h1 po1 be1); [done|apply Hr3|]. rewrite Hfr3, Hfr2; [done|congruence|set_solver].
  - intros n Hn. rewrite Hfr3, Hfr2, Hfr1; [done|..]; [intros <-; tauto|intros <-; tauto|set_solver].
Qed.

(** ** Cleaning up *)
Abbreviation cleanup := (cleanupDeadAgent dummy fresh freshActivity now getTapesByVid sort index logPrefix).

Lemma cleanup_skips a be reg o ag ca W :
  be_wf be → a ≠ "" → free_handle reg o → be_view be !! a = None ∨ (∃ h p, stored be a = Some (h, p) ∧ h_owner h ≠ reg) →
  cleanup a (mkGC (mkCState ca be ag) o W) = (Ok tt, mkGC (mkCState ca be ag) o W).
Proof.
  intros Hwf Ha (Hset & Hname & _) [Hg|(h & p & Hst & Ho)]; unfold cleanupDeadAgent.
  - erewrite bind_ok; [|unfold gc_store; cbn [gc_c c_be]; rewrite lock_dead_agent_gone by done; reflexivity]. done.
  - erewrite bind_ok; [|unfold gc_store; cbn [gc_c c_be]; rewrite (lock_dead_agent_ok a h p) by done; reflexivity].
    cbv beta iota. change (getOwner (opened Exclusive a h p)) with (Ok (h_owner h)). rewrite bind_lift.
    unfold mbind, M_bind, gets, lift. simpl. rewrite getAddressIfSet_ok, Hname by done. by rewrite decide_True.
Qed.

Lemma not_idle a be x : gone be x ∨ foreign a be x → ¬ idle a be x.
Proof.
  intros [Hg|(h & Hh & Ho & Hr)] (h' & r & f & Hh' & Ht & Hp & _ & Ho' & _).
  - unfold header_at in Hh'. by rewrite Hg in Hh'.
  - simplify_eq. destruct (Hr Ht) as (r' & Hp' & Hj). simplify_eq. destruct Ho' as [?|Ho']; [done|].
    apply Exists_exists in Ho' as (j & Hin & Hoj). by apply (proj1 (Forall_forall _ _) Hj j Hin).
Qed.

Lemma bind_pair {S X A} (m : M S X) (n : X → M S unit) (k : M S A) s s' :
  (x ← m; n x) s = (Ok tt, s') → (x ← m; _ ← n x; k) s = k s'.
Proof. unfold mbind, M_bind. destruct (m s) as [[u|e] s1]; [|done]. by intros ->. Qed.

(** Nothing that the agent owned has to be requeued: it comes to the end with the idle
    requests in its list. *)
Lemma cleanup_steps a be reg regp h p ag po o ca W :
  let our := m_agentAddress ag in
  registered be reg regp → reg ≠ root_address → a ∈ agents regp → free_handle reg o →
  stored be a = Some (h, p) → h_owner h = reg → agent_ready be our po →
  a ≠ "" → a ≠ reg → a ≠ root_address → a ≠ our → our ≠ reg → our ≠ root_address →
  Forall (λ x, x ≠ "" ∧ x ≠ a ∧ x ≠ our ∧ x ≠ reg ∧ (gone be x ∨ foreign a be x ∨ idle a be x)) (ownedobjects p) →
  ∃ be' h' p' po' o' n', cleanup a (mkGC (mkCState ca be ag) o W) =
      (let '(r, k) := lockFetchAndUpdateOtherObjects dummy fresh freshActivity now getTapesByVid sort index logPrefix
                        (mkKState (mkCState ca be' ag) (opened Exclusive a h' p') [] [] [] n') in (r, mkGC (k_c k) o' W)) ∧
    registered be' reg (reg_track a regp) ∧ free_handle reg o' ∧ stored be' a = Some (h', p') ∧ h_owner h' = our ∧
    being_garbage_collected p' = true ∧ (∀ x, x ∈ ownedobjects p' ↔ x ∈ ownedobjects p ∧ idle a be x) ∧
    agent_ready be' our po' ∧ owned po' = owned po ∪ {[a]} ∧ same_outside (λ n, n = a ∨ n = reg ∨ n = our) be be'.
Proof.
  intros our Hr Hne Hin Ho Hst Howner Hag Ha Har Harr Hao Hor Hoo Hl. pose proof Ho as (Hset & Hname & _). pose proof (rg_wf _ _ _ Hr) as Hwf.
  destruct (take_over_ok be reg regp a h p ag po o ca W Hr Hne Hin Ho Hst Hag Har Harr Hao Hor Hoo) as
    (be1 & h1 & po1 & o1 & E1 & Hr1 & Ho1 & Hst1 & How1 & Ht1 & (Hgc1 & hp1 & Hs1) & Hown1 & Hfr1).
  assert (Hv : ∀ x, x ∈ ownedobjects p → be_view be1 !! x = be_view be !! x).
  { intros x (_ & ? & ? & ? & _)%(proj1 (Forall_forall _ _) Hl). apply Hfr1. tauto. }
  destruct (nothing_to_requeue dummy now getTapesByVid sort index be1 ag a h1 (taken_over p) 0 ca (rg_wf _ _ _ Hr1) Hst1 Ht1) as
    (be2 & h2 & p2 & n2 & E2 & Hwf2 & Hst2 & How2 & Ht2 & Hfr2 & [ow ->] & Hin2).
  { apply Forall_forall. intros x Hx. pose proof (proj1 (Forall_forall _ _) Hl x Hx) as (? & ? & _ & _ & Hk).
    split_and!; [done|done|]. destruct Hk as [Hk|[Hk|Hk]]; [left|right; left|right; right].
    - unfold gone. by rewrite Hv. - apply (foreign_frame a be); [by apply Hv|done]. - apply (idle_frame a be); [by apply Hv|done]. }
  exists be2, h2, (set_ownedobjects ow (taken_over p)), po1, o1, n2. split_and!; try done.
  - unfold cleanupDeadAgent. erewrite bind_ok; [|unfold gc_store; cbn [gc_c c_be]; rewrite (lock_dead_agent_ok a h p) by done; reflexivity].
    cbv beta iota. change (getOwner (opened Exclusive a h p)) with (Ok (h_owner h)). cbn [gc_c c_cache c_agent m_agentRegister m_watchedAgents]. rewrite bind_lift.
    erewrite bind_ok by reflexivity. cbn [m_agentRegister]. rewrite getAddressIfSet_ok, bind_lift, Hname, Howner by done. rewrite decide_False by tauto.
    mstep E1. unfold collect_owned_objects. cbn [gc_c m_agentRegister m_watchedAgents]. by rewrite (bind_pair _ _ _ _ _ E2).
  - apply (registered_frame [a] be1); [done|done| |set_solver..]. intros n Hn. apply Hfr2. set_solver.
  - by rewrite How2.
  - intros x. rewrite Hin2. split; intros [Hx Hi]; (split; [done|]); by apply (idle_frame a be be1); [apply Hv|].
  - split; [done|]. exists hp1. apply (agent_stored_frame our hp1 po1 be1); [done|done|]. by apply Hfr2.
  - intros n Hn. rewrite Hfr2, Hfr1; [done|tauto|intros <-; tauto].
Qed.

(** C19: Cleaning up a dead agent.  An agent that is gone, or that another collector has
    taken over, is left alone and nothing is written.  An agent of the register all of
    whose objects are gone or belong to others is taken over and deleted; it leaves
    the register, the list of the collector is as before, and no other object is
    touched. *)
Theorem agent_cleaned_up_once a be reg regp ag po o ca W :
  let our := m_agentAddress ag in
  registered be reg regp → reg ≠ root_address → free_handle reg o → agent_ready be our po →
  a ≠ "" → a ≠ reg → a ≠ root_address → a ≠ our → our ≠ reg → our ≠ root_address →
  (be_view be !! a = None ∨ (∃ h p, stored be a = Some (h, p) ∧ h_owner h ≠ reg) →
     cleanup a (mkGC (mkCState ca be ag) o W) = (Ok tt, mkGC (mkCState ca be ag) o W)) ∧
  (∀ h p, stored be a = Some (h, p) → h_owner h = reg → a ∈ agents regp →
     Forall (λ x, x ≠ "" ∧ x ≠ a ∧ x ≠ our ∧ x ≠ reg ∧ (gone be x ∨ foreign a be x)) (ownedobjects p) →
     ∃ be' po' o', cleanup a (mkGC (mkCState ca be ag) o W) = (Ok tt, mkGC (mkCState ca be' ag) o' W) ∧
       be_view be' !! a = None ∧ registered be' reg (reg_remove a (reg_track a regp)) ∧ free_handle reg o' ∧
       agent_ready be' our po' ∧ owned po' = owned po ∖ {[a]} ∧ same_outside (λ n, n = a ∨ n = reg ∨ n = our) be be').
Proof.
  intros our Hr Hne Ho Hag Ha Har Harr Hao Hor Hoo. split; [by apply (cleanup_skips a be reg o ag ca W (rg_wf _ _ _ Hr))|].
  intros h p Hst Howner Hin Hl.
  destruct (cleanup_steps a be reg regp h p ag po o ca W Hr Hne Hin Ho Hst Howner Hag Ha Har Harr Hao Hor Hoo) as
    (be1 & h1 & p1 & po1 & o1 & n1 & E1 & Hr1 & Ho1 & Hst1 & How1 & _ & Hown & (Hgc1 & hp1 & Hs1) & Hpo1 & Hfr1).
  { eapply Forall_impl; [exact Hl|]. simpl. tauto. }
  assert (Hnil : ownedobjects p1 = []).
  { apply elem_of_nil_inv. intros x [Hx Hi]%Hown. pose proof (proj1 (Forall_forall _ _) Hl x Hx) as (_ & _ & _ & _ & Hk).
    by apply (not_idle a be x). }
  destruct (unregister_steps dummy be1 reg (reg_track a regp) a h1 p1 Hr1 Hne Har Harr Hst1 Hnil) as (o2 & be2 & E2 & Hr2 & Hg2 & Hfr2 & Hn2).
  assert (Hs2 : agent_stored be2 our hp1 po1).
  { apply (agent_stored_frame our hp1 po1 be1); [done|apply Hr2|]. apply Hfr2. set_solver. }
  destruct (change_owned dummy our (Remove a) hp1 po1 be2 Hs2 Hgc1) as (be3 & hp3 & po3 & E3 & Hs3 & Hgc3 & Ho3 & Hfr3).
  exists be3, po3, o1. split_and!; try done.
  - rewrite E1. unfold lockFetchAndUpdateOtherObjects, k_address, k_self, k_store, k_collector, own_address, mbind, M_bind, gets. simpl.
    rewrite E2. simpl. unfold self, gets, lift. simpl. rewrite Hn2. unfold removeFromOwnership, queueAndExecuteAction. fold our. by rewrite E3.
  - rewrite Hfr3; congruence.
  - apply (registered_frame [our] be2); [done|apply Hs3| |set_solver..]. intros n Hn. apply Hfr3. set_solver.
  - split; [done|]. by exists hp3.
  - rewrite Ho3. simpl. rewrite Hpo1. set_solver.
  - intros n Hn. rewrite Hfr3, Hfr2, Hfr1; [done|tauto|set_solver|intros <-; tauto].
Qed.

(** ** An agent that cannot be removed *)
Definition reg_untrack a (r : AgentRegister) : AgentRegister :=
  if decide (a ∈ untrackedagents r) then r else mkAgentRegister (agents r) (untrackedagents r ++ [a]).

(** [Agent::garbageCollect]: the owner was found dead, and the agent goes back to the
    register. *)
Lemma agent_returned be reg regp a h p :
  registered be reg regp → reg ≠ root_address → a ≠ reg → a ≠ root_address → a ∈ agents regp → stored be a = Some (h, p) →
  ∃ o be' h', agent_garbageCollect dummy (h_owner h) (opened Exclusive a h p, be) = (Ok tt, (o, be')) ∧
    registered be' reg (reg_untrack a regp) ∧ stored be' a = Some (h', p) ∧ h_owner h' = reg ∧
    same_outside (λ n, n = a ∨ n = reg) be be'.
Proof.
  intros Hr Hne Har Harr Hin Hst. pose proof (stored_type _ _ _ _ Hst) as Ht.
  destruct (update_register_ok dummy be reg regp (reg_untrack a regp) (untrackAgent a) Hr Hne) as (be1 & E1 & Hr1 & Hfr1).
  { intros hr. unfold untrackAgent, reg_untrack. change (checkPayloadWritable _) with (Ok tt : result unit). simpl.
    destruct (findString_spec a (agents regp)) as [(_ & i & -> & _)|[? _]]; [|done]. simpl.
    destruct (findString_spec a (untrackedagents regp)) as [(? & i' & -> & _)|[? ->]]; [by rewrite decide_True|by rewrite decide_False]. }
  set (h1 := mkHeader (h_type h) (h_version h) reg (h_backupowner h) (h_payload h)).
  destruct (commit_spec be1 (opened Exclusive a h1 p) (rg_wf _ _ _ Hr1)) as (be2 & E2 & Hwf2 & Hv2 & Hst2); try done.
  { apply opened_writable. } { simpl. rewrite Hfr1 by (by apply not_in_singleton). exact (stored_exists _ _ _ Hst). }
  exists (push_payload (opened Exclusive a h1 p)), be2, (m_header (push_payload (opened Exclusive a h1 p))). split_and!; try done.
  - unfold agent_garbageCollect. rewrite (bind_ok _ _ _ (opened Exclusive a h p) (opened Exclusive a h p, be)) by done.
    rewrite opened_check_writable, bind_lift, decide_True by done.
    rewrite (on_store_ok _ _ _ _ _ _ (register_address_ok dummy be reg regp Hr)).
    rewrite (bind_ok _ _ _ a (opened Exclusive a h p, be)) by done. rewrite (on_store_ok _ _ _ _ _ _ E1).
    rewrite (bind_ok _ _ _ tt (opened Exclusive a h1 p, be1)) by done. exact E2.
  - apply (registered_frame [a] be1); [done|done| |by apply not_in_singleton; auto..]. intros n Hn. rewrite Hv2. apply lookup_insert_ne.
    intros <-. apply Hn. by left.
  - by rewrite Hst2, decide_True.
  - intros n Hn. rewrite Hv2, lookup_insert_ne by (simpl; intros <-; tauto). apply Hfr1, not_in_singleton. tauto.
Qed.
Lemma agent_kept be a h p presumed :
  h_owner h ≠ presumed → agent_garbageCollect dummy presumed (opened Exclusive a h p, be) = (Ok tt, (opened Exclusive a h p, be)).
Proof.
  intros Hp. unfold agent_garbageCollect. rewrite (bind_ok _ _ _ (opened Exclusive a h p) (opened Exclusive a h p, be)) by done.
  by rewrite opened_check_writable, bind_lift, decide_False.
Qed.

(** A registered agent with an idle request [x] in its list, where nothing has to be
    requeued. *)
Definition leftover a reg be x : Prop := x ≠ "" ∧ x ≠ a ∧ x ≠ reg ∧ (gone be x ∨ foreign a be x ∨ idle a be x).
Definition blocked a reg x be : Prop :=
  ∃ regp h p, registered be reg regp ∧ a ∈ agents regp ∧ stored be a = Some (h, p) ∧
    x ∈ ownedobjects p ∧ idle a be x ∧ Forall (leftover a reg be) (ownedobjects p).
(** A collector whose own agent is in order and is neither the dead one nor in its list. *)
Record collector a reg be (ag : AgentReference) (po : Agent) (o : ObjectOps B AgentRegister) : Prop := {
  co_handle : free_handle reg o;
  co_ready : agent_ready be (m_agentAddress ag) po;
  co_other : m_agentAddress ag ≠ a ∧ m_agentAddress ag ≠ reg ∧ m_agentAddress ag ≠ root_address;
  co_list : ∀ h p, stored be a = Some (h, p) → m_agentAddress ag ∉ ownedobjects p
}.

Lemma leftover_frame a reg be be' x :
  be_view be' !! x = be_view be !! x → leftover a reg be x → leftover a reg be' x.
Proof.
  intros Hv (? & ? & ? & Hk). split_and!; try done. destruct Hk as [Hk|[Hk|Hk]]; [left|right; left|right; right].
  - unfold gone. by rewrite Hv. - by apply (foreign_frame a be). - by apply (idle_frame a be).
Qed.

(** What a collector does to an agent that the register owns. *)
Lemma blocked_cleanup a reg x be regp h p ag po o ca W :
  reg ≠ root_address → a ≠ "" → a ≠ reg → a ≠ root_address → collector a reg be ag po o →
  registered be reg regp → a ∈ agents regp → stored be a = Some (h, p) → h_owner h = reg →
  x ∈ ownedobjects p → idle a be x → Forall (leftover a reg be) (ownedobjects p) →
  ∃ be' h' p' po' o', cleanup a (mkGC (mkCState ca be ag) o W) = (Throw AgentStillOwnsObjects, mkGC (mkCState ca be' ag) o' W) ∧
    registered be' reg (reg_track a regp) ∧ stored be' a = Some (h', p') ∧ h_owner h' = m_agentAddress ag ∧
    being_garbage_collected p' = true ∧ agent_ready be' (m_agentAddress ag) po' ∧ a ∈ owned po' ∧ blocked a reg x be'.
Proof.
  intros Hne Ha Har Harr [Ho Hag (Hao & Hor & Hoo) Hli] Hr Hin Hst How Hx Hidle Hl.
  destruct (cleanup_steps a be reg regp h p ag po o ca W Hr Hne Hin Ho Hst How Hag Ha Har Harr ltac:(congruence) Hor Hoo) as
    (be1 & h1 & p1 & po1 & o1 & n1 & E1 & Hr1 & Ho1 & Hst1 & How1 & Hgc & Hown & Hag1 & Hpo1 & Hfr1).
  { apply Forall_forall. intros y Hy. pose proof (proj1 (Forall_forall _ _) Hl y Hy) as (? & ? & ? & ?). split_and!; try done.
    intros ->. by apply (Hli h p). }
  assert (Hv : ∀ y, y ∈ ownedobjects p → be_view be1 !! y = be_view be !! y).
  { intros y Hy. pose proof (proj1 (Forall_forall _ _) Hl y Hy) as (? & ? & ? & _). apply Hfr1.
    intros [?|[?| -> ]]; [done|done|]. by apply (Hli h p). }
  assert (Hx1 : x ∈ ownedobjects p1) by (by apply Hown).
  exists be1, h1, p1, po1, o1. split_and!; try done.
  - rewrite E1. unfold lockFetchAndUpdateOtherObjects, k_self, mbind, M_bind, gets. simpl.
    unfold removeAndUnregisterSelf, agent_isEmpty, mbind, M_bind, self, gets, lift, read_payload. simpl.
    rewrite bool_decide_false; [done|]. intros Hnil. rewrite Hnil in Hx1. by apply not_elem_of_nil in Hx1.
  - rewrite Hpo1. set_solver.
  - exists (reg_track a regp), h1, p1. split_and!; try done; [by apply (idle_frame a be); [apply Hv|]|].
    apply Forall_forall. intros y [Hy _]%Hown. apply (leftover_frame a reg be); [by apply Hv|]. by apply (proj1 (Forall_forall _ _) Hl).
Qed.

(** What the collectors can do to the agent: one tries to clean it up, or finds its
    owner dead and collects it among the objects of that owner. *)
Inductive collect_step a reg be : St → Prop :=
  | step_cleanup ag po o ca W r s' :
      collector a reg be ag po o → cleanup a (mkGC (mkCState ca be ag) o W) = (r, s') →
      collect_step a reg be (c_be (gc_c s'))
  | step_return h p presumed r o be' :
      stored be a = Some (h, p) → agent_garbageCollect dummy presumed (opened Exclusive a h p, be) = (r, (o, be')) →
      collect_step a reg be be'.

Lemma collect_step_blocked a reg x be be' :
  reg ≠ root_address → a ≠ "" → a ≠ reg → a ≠ root_address →
  collect_step a reg be be' → blocked a reg x be → blocked a reg x be'.
Proof.
  intros Hne Ha Har Harr Hstep (regp & h & p & Hr & Hin & Hst & Hx & Hidle & Hl).
  destruct Hstep as [ag po o ca W r s' Hco E|h0 p0 presumed r o be' Hst0 E].
  - destruct (decide (h_owner h = reg)) as [How|How].
    + destruct (blocked_cleanup a reg x be regp h p ag po o ca W Hne Ha Har Harr Hco Hr Hin Hst How Hx Hidle Hl)
        as (be' & h' & p' & po' & o' & E' & _ & _ & _ & _ & _ & _ & Hb). rewrite E' in E. by injection E as _ <-.
    + rewrite (cleanup_skips a be reg o ag ca W (rg_wf _ _ _ Hr) Ha (co_handle _ _ _ _ _ _ Hco)) in E by eauto.
      injection E as _ <-. by exists regp, h, p.
  - assert (h0 = h ∧ p0 = p) as [-> ->] by (split; congruence). destruct (decide (h_owner h = presumed)) as [<-|Hp].
    + destruct (agent_returned be reg regp a h p Hr Hne Har Harr Hin Hst) as (o1 & be1 & h1 & E1 & Hr1 & Hst1 & Ho1 & Hfr).
      rewrite E1 in E. injection E as _ _ <-.
      assert (Hv : ∀ y, y ∈ ownedobjects p → be_view be1 !! y = be_view be !! y).
      { intros y Hy. pose proof (proj1 (Forall_forall _ _) Hl y Hy) as (? & ? & ? & _). apply Hfr. tauto. }
      exists (reg_untrack a regp), h1, p. split_and!; try done.
      * unfold reg_untrack. by case_decide.
      * by apply (idle_frame a be); [apply Hv|].
      * apply Forall_forall. intros y Hy. apply (leftover_frame a reg be); [by apply Hv|]. by apply (proj1 (Forall_forall _ _) Hl).
    + rewrite agent_kept in E by done. injection E as _ _ <-. by exists regp, h, p.
Qed.

End GarbageCollectorSpec.
