(* ===== verification/GarbageCollectorExamples.v ===== *)
(** * A collector in the file system backend

    Witnesses of the properties of [WatchdogSpec.v] and [GarbageCollectorSpec.v], and
    runs of the garbage collector and of the sorter. *)
From S2P Require Import Prelude DataTypes Checksum ValueCountMap Backend ObjectOps Handles ProtoAlgorithms ArchiveFile ArchiveQueueShard ArchiveQueue ArchiveRequest ArchiveRequestExamples RetrieveActivity RetrieveQueueShard RetrievePlan RetrieveQueue RetrieveSplit RetrieveRequest RetrieveRequestExamples Agent Registers RegistersSpec RootEntry RootEntryExamples RootEntrySpec AgentLife AgentLifeSpec AgentLifeExamples RepackRequest Helpers HelpersSpec HelpersExamples RetrieveCache Algorithms QueueTraits QueueTraitsSpec QueueTraitsExamples RetrieveTraits Sorter SorterSpec Collect RetrieveCollect GenericObject OwnedObjects OwnedObjectsSpec Watchdog WatchdogSpec GarbageCollector GarbageCollectorSpec.
Import Blob.
#[local] Existing Instance demo_codec.

(** The messages of the example. *)
Inductive cmsg :=
  CShared (x : qmsg) | CRetrieveQueue (x : RetrieveQueue) | CRetrieveShard (x : RetrieveQueueShard) | CRetrieve (x : RetrieveRequest)
| CAgents (x : AgentRegister) | CDrives (x : DriveRegister) | CLock (x : SchedulerGlobalLock).
#[export] Instance OneOf_c_shared {P} `{!OneOf qmsg P} : OneOf cmsg P.
Proof.
  refine {| inj_msg x := CShared (inj_msg x); proj_msg m := match m with CShared x => proj_msg x | _ => None end |}. apply proj_inj.
Defined.
#[export] Program Instance OneOf_c_rqueue : OneOf cmsg RetrieveQueue := {|
  inj_msg := CRetrieveQueue; proj_msg m := match m with CRetrieveQueue x => Some x | _ => None end |}.
Solve All Obligations with done.
#[export] Program Instance OneOf_c_rshard : OneOf cmsg RetrieveQueueShard := {|
  inj_msg := CRetrieveShard; proj_msg m := match m with CRetrieveShard x => Some x | _ => None end |}.
Solve All Obligations with done.
#[export] Program Instance OneOf_c_retrieve : OneOf cmsg RetrieveRequest := {|
  inj_msg := CRetrieve; proj_msg m := match m with CRetrieve x => Some x | _ => None end |}.
Solve All Obligations with done.
#[export] Program Instance OneOf_c_agents : OneOf cmsg AgentRegister := {|
  inj_msg := CAgents; proj_msg m := match m with CAgents x => Some x | _ => None end |}.
Solve All Obligations with done.
#[export] Program Instance OneOf_c_drives : OneOf cmsg DriveRegister := {|
  inj_msg := CDrives; proj_msg m := match m with CDrives x => Some x | _ => None end |}.
Solve All Obligations with done.
#[export] Program Instance OneOf_c_lock : OneOf cmsg SchedulerGlobalLock := {|
  inj_msg := CLock; proj_msg m := match m with CLock x => Some x | _ => None end |}.
Solve All Obligations with done.
Abbreviation cb := (blob cmsg).
Definition c_dummy : cb := BHdr GenericObject_t 0 "" "" (BMsg (CShared QNone)).
Definition ex_gc_object (owner : string) (t : ObjectType) (m : cmsg) : cb := BHdr t 0 owner "" (BMsg m).
Definition ex_gc_root : RootEntry :=
  mkRoot no_queues no_queues (ex_pointer "theirs") (ex_pointer "agents") None None None (Some "") None.

(** An agent that died in possession of some objects: an archive request, a retrieve
    request, one that is gone and one of another owner. *)
Definition ex_gc_dead (owned : list string) (hb : Z) : Agent := mkAgentObject "" hb 1000000 owned false (Some false).
Definition ex_gc_gc : Agent := mkAgentObject "" 0 1000000 [] false (Some false).
Definition ex_gc_archive (status : ArchiveJobStatus) : ArchiveRequest :=
  mkArchiveRequest 12 empty_policy (cs_serialize demo_blob) 0 0 serializers.no_disk_info "" "" "" "" 1000
    (mkRequester "" "") "" "" (serializers.mkEntryLog "" "" 0) [mkArchiveJob 1 "poolA" "" "dead" status 0 0 0 1 1 [] 2 0 []] false false
    (mkRepackInfoPb "" "" 0 []).
Definition ex_gc_store (owned : list string) (hb : Z) (status : ArchiveJobStatus) : VFS.vfs cb :=
  VFS.mkVfs (list_to_map [("root", ex_gc_object "root" RootEntry_t (CShared (QRoot ex_gc_root)));
     ("agents", ex_gc_object "root" AgentRegister_t (CAgents (mkAgentRegister ["dead"; "gc"] ["dead"; "gc"])));
     ("theirs", ex_gc_object "root" DriveRegister_t (CDrives (mkDriveRegister [])));
     ("archive", ex_gc_object "dead" ArchiveRequest_t (CShared (QArchive (ex_gc_archive status))));
     ("retrieve", ex_gc_object "dead" RetrieveRequest_t (CRetrieve rr_ex));
     ("dead", ex_gc_object "agents" Agent_t (CShared (QAgent (ex_gc_dead owned hb))));
     ("gc", ex_gc_object "agents" Agent_t (CShared (QAgent ex_gc_gc)))])
    {["root"; "agents"; "theirs"; "archive"; "retrieve"; "dead"; "gc"]}.
Definition ex_gc_handle (be : VFS.vfs cb) : ObjectOps cb AgentRegister :=
  match new_collector c_dummy ∅ (mkAgent "gc" 0) be with (Ok g, _) => m_agentRegister g | _ => new_object c_dummy end.

Abbreviation ex_pass := (runOnePass c_dummy ex_fresh ex_fresh_activity 100 ex_h_catalogue id 0 "log").
Definition ex_gc_start (be : VFS.vfs cb) : GCState cb (VFS.vfs cb) := mkGC (mkCState ∅ be (mkAgent "gc" 0)) (ex_gc_handle be) [].

(** Two passes two seconds apart: the first watches the agent, the second finds it
    dead.  The archive request goes to a new queue of its pool, and the retrieve request
    to a new queue of the tape of its first copy; the agent disappears. *)
Definition ex_gc_two_passes (owned : list string) (status : ArchiveJobStatus) : result unit * GCState cb (VFS.vfs cb) :=
  (_ ← ex_pass (λ _, 0) (λ _, (1, 2)); ex_pass (λ _, 2000000) (λ _, (2000001, 2000002))) (ex_gc_start (ex_gc_store owned 5 status)).
Definition ex_gc_owner (be : VFS.vfs cb) (name : string) : option string := h_owner <$> header_at be name.

Example ex_gc_passes :
  let '(res, s) := ex_gc_two_passes ["gone"; "theirs"; "archive"; "retrieve"] AJS_ToTransferForUser in
  let be := c_be (gc_c s) in
  res = Ok tt ∧ (m_watchedAgents s).*1 = [] ∧ VFS.files be !! "dead" = None ∧
  (snd <$> stored (P := AgentRegister) be "agents") = Some (mkAgentRegister ["gc"] ["gc"]) ∧
  ex_gc_owner be "retrieve" = Some "RetrieveQueueToTransferForUser-V01-gc-2" ∧
  ((λ x, aj_owner <$> ar_jobs (snd x)) <$> stored (P := ArchiveRequest) be "archive") = Some ["ArchiveQueueToTransferForUser-poolA-gc-0"] ∧
  ((λ x, rjp_address <$> retrievejobs (snd x)) <$> stored (P := RetrieveQueueShard) be "RetrieveQueueShard-V01-gc-3") = Some ["retrieve"].
Proof. by vm_compute. Qed.

(** The archive request of a job that is complete keeps the agent in the store, and ends
    the pass. *)
Example ex_gc_blocked :
  let '(res, s) := ex_gc_two_passes ["gone"; "archive"] AJS_Complete in
  let be := c_be (gc_c s) in
  res = Throw AgentStillOwnsObjects ∧ (m_watchedAgents s).*1 = ["dead"] ∧ ex_gc_owner be "dead" = Some "gc" ∧
  (ownedobjects ∘ snd <$> stored (P := Agent) be "gc") = Some ["dead"].
Proof. by vm_compute. Qed.

(** ** Witnesses *)
Definition ex_gc_dead_header (owned : list string) (hb : Z) : ObjectHeader cb :=
  mkHeader Agent_t 0 "agents" "" (BMsg (CShared (QAgent (ex_gc_dead owned hb)))).

(** A beat every 0.9 seconds, read at once: at times 0.3, 0.8, 1.5 and 9 seconds, the agent
    being gone at the last.  The timer starts at 0 and the agent is first read 0.05
    seconds later; the time-out is of one second. *)
Definition ex_gc_check (t : Z) : check := mkCheck t t t
  (if decide (t > 2000000) then VFS.mkVfs ∅ ∅ else ex_gc_store [] (t / 900000) AJS_Complete).
Lemma ex_gc_beats r1 r2 : r2 - r1 > 1000000 - (0 + 100000) → r1 / 900000 ≠ r2 / 900000.
Proof.
  intros Hr Heq. pose proof (Z.div_mod r1 900000 ltac:(lia)). pose proof (Z.div_mod r2 900000 ltac:(lia)).
  pose proof (Z.mod_pos_bound r1 900000 ltac:(lia)). pose proof (Z.mod_pos_bound r2 900000 ltac:(lia)). lia.
Qed.
Lemma ex_gc_beating t : beating "dead" (λ t, t / 900000) 0 (ex_gc_check t).
Proof.
  unfold beating, ex_gc_check. cbn [ck_read ck_now ck_later ck_store]. case_decide.
  - split; [by vm_compute|]. split_and!; [lia|lia|by left].
  - split; [by vm_compute|]. split_and!; [lia|lia|]. right. by eexists _, _.
Qed.
(** The construction of the watchdog counts: when the agent was first read 0.6 seconds
    after the timer started, the same heartbeat read 0.8 seconds after that read makes
    the agent dead, before its time-out of one second. *)
Example ex_gc_early_death :
  match new_watchdog c_dummy 0 "dead" (ex_gc_store [] 0 AJS_Complete) with
  | (Ok w, _) => verdicts w [mkCheck 1400000 1400000 1400000 (ex_gc_store [] 0 AJS_Complete)]
  | _ => []
  end = [Ok false].
Proof. by vm_compute. Qed.

Lemma watchdog_verdicts_witness :
  ∃ w, new_watchdog c_dummy 0 "dead" (ex_gc_store [] 0 AJS_Complete) = (Ok w, ex_gc_store [] 0 AJS_Complete) ∧
    verdicts w (ex_gc_check <$> [300000; 800000; 1500000; 9000000]) = [Ok true; Ok true; Ok true; Ok true] ∧
    verdicts w ((ex_gc_check <$> [300000; 800000]) ++ [mkCheck 0 1000001 1000001 (ex_gc_store [] 0 AJS_Complete)]) = [Ok true; Ok true; Ok false].
Proof.
  destruct (watchdog_verdicts c_dummy "dead" (ex_gc_store [] 0 AJS_Complete) (ex_gc_dead_header [] 0) (ex_gc_dead [] 0) 0) as (w & E & Halive & Hdead).
  - done.
  - by vm_compute.
  - by vm_compute.
  - assert (Ha : ∀ l, verdicts w (ex_gc_check <$> l) = replicate (length (ex_gc_check <$> l)) (Ok true)).
    { intros l. apply (Halive (λ t, t / 900000) 0 100000 50000); [reflexivity|lia|exact ex_gc_beats|].
      apply Forall_fmap, Forall_true. exact ex_gc_beating. }
    exists w. split; [exact E|]. split; [exact (Ha _)|].
    assert (H := Hdead (ex_gc_check <$> [300000; 800000]) (mkCheck 0 1000001 1000001 (ex_gc_store [] 0 AJS_Complete))
      (ex_gc_dead_header [] 0) (ex_gc_dead [] 0)). rewrite Ha in H.
    replace (last_seen _ _ _) with (0, 0) in H by (by vm_compute).
    apply H.
    + repeat apply Forall_cons_2; [..|apply Forall_nil_2]; (split; [by vm_compute|]; right; by eexists _, _).
    + repeat constructor.
    + by vm_compute.
    + by vm_compute.
Defined.

Lemma ex_gc_registered owned status :
  registered (ex_gc_store owned 5 status) "agents" (mkAgentRegister ["dead"; "gc"] ["dead"; "gc"]).
Proof. split; [by vm_compute|by eexists _, _|by eexists]. Qed.
Lemma ex_gc_ready owned status : agent_ready (ex_gc_store owned 5 status) "gc" ex_gc_gc.
Proof. split; [done|]. eexists. by split_and!; try vm_compute. Qed.
Abbreviation ex_cleanup := (cleanupDeadAgent c_dummy ex_fresh ex_fresh_activity 100 ex_h_catalogue id 0 "log").

Lemma agent_cleaned_up_once_witness :
  let be := ex_gc_store ["gone"; "theirs"] 5 AJS_Complete in
  ex_cleanup "nobody" (ex_gc_start be) = (Ok tt, ex_gc_start be) ∧
  ∃ be' po' o', ex_cleanup "dead" (ex_gc_start be) = (Ok tt, mkGC (mkCState ∅ be' (mkAgent "gc" 0)) o' []) ∧
    be_view be' !! "dead" = None ∧ registered be' "agents" (mkAgentRegister ["gc"] ["gc"]) ∧
    agent_ready be' "gc" po' ∧ owned po' = ∅.
Proof.
  cbn zeta. split.
  - apply (agent_cleaned_up_once c_dummy ex_fresh ex_fresh_activity 100 ex_h_catalogue id 0 "log" "nobody" (ex_gc_store ["gone"; "theirs"] 5 AJS_Complete) "agents" _
      (mkAgent "gc" 0) ex_gc_gc (ex_gc_handle (ex_gc_store ["gone"; "theirs"] 5 AJS_Complete)) ∅ [] (ex_gc_registered _ _));
      [done|by vm_compute|apply ex_gc_ready|done|done|done|done|done|done|]. left. by vm_compute.
  - destruct (agent_cleaned_up_once c_dummy ex_fresh ex_fresh_activity 100 ex_h_catalogue id 0 "log" "dead" (ex_gc_store ["gone"; "theirs"] 5 AJS_Complete) "agents" _
      (mkAgent "gc" 0) ex_gc_gc (ex_gc_handle (ex_gc_store ["gone"; "theirs"] 5 AJS_Complete)) ∅ [] (ex_gc_registered _ _)) as [_ H];
      [done|by vm_compute|apply ex_gc_ready|done|done|done|done|done|done|].
    destruct (H (ex_gc_dead_header ["gone"; "theirs"] 5) (ex_gc_dead ["gone"; "theirs"] 5)) as (be' & po' & o' & E & Hg & Hr & _ & Hag & Ho & _).
    + by vm_compute.
    + done.
    + by left.
    + apply Forall_cons_2; [|apply Forall_cons_2; [|apply Forall_nil_2]]; split_and!; try done.
      * by left.
      * right. eexists. split_and!; done.
    + exists be', po', o'. split; [exact E|]. split; [exact Hg|]. split; [exact Hr|]. split; [exact Hag|].
      rewrite Ho. by vm_compute.
Defined.

(** The collector cleans up the agent and fails; it is then found dead itself, and the
    agent goes back to the register; the next clean-up fails as the first one. *)
Definition ex_gc_be0 : VFS.vfs cb := ex_gc_store ["gone"; "archive"] 5 AJS_Complete.
Definition ex_gc_taken : GCState cb (VFS.vfs cb) := snd (ex_cleanup "dead" (ex_gc_start ex_gc_be0)).
Definition ex_gc_be1 : VFS.vfs cb := c_be (gc_c ex_gc_taken).
Definition ex_gc_dead1 : ObjectHeader cb * Agent := default (ex_gc_dead_header [] 0, ex_gc_dead [] 0) (stored ex_gc_be1 "dead").
Definition ex_gc_be2 : VFS.vfs cb :=
  snd (snd (agent_garbageCollect c_dummy "gc" (opened Exclusive "dead" (fst ex_gc_dead1) (snd ex_gc_dead1), ex_gc_be1))).
Definition ex_gc_gc2 : ObjectHeader cb * Agent := default (ex_gc_dead_header [] 0, ex_gc_dead [] 0) (stored ex_gc_be2 "gc").
Definition ex_gc_dead2 : ObjectHeader cb * Agent := default (ex_gc_dead_header [] 0, ex_gc_dead [] 0) (stored ex_gc_be2 "dead").

Lemma ex_gc_collector0 : collector "dead" "agents" ex_gc_be0 (mkAgent "gc" 0) ex_gc_gc (ex_gc_handle ex_gc_be0).
Proof.
  split; [by vm_compute|apply ex_gc_ready|done|]. intros h p Hst. vm_compute in Hst. injection Hst as _ <-.
  by apply (bool_decide_unpack _); vm_compute.
Qed.
Lemma ex_gc_collector2 : collector "dead" "agents" ex_gc_be2 (mkAgent "gc" 0) (snd ex_gc_gc2) (ex_gc_handle ex_gc_be2).
Proof.
  split; [by vm_compute| |done|].
  - split; [by vm_compute|]. exists (fst ex_gc_gc2). by split_and!; try vm_compute.
  - intros h p Hst. vm_compute in Hst. injection Hst as _ <-. by apply (bool_decide_unpack _); vm_compute.
Qed.
Lemma ex_gc_idle : idle "dead" ex_gc_be0 "archive".
Proof.
  eexists _, _, _. split_and!; [done|done|done|by vm_compute|by left|].
  apply Forall_cons_2; [|apply Forall_nil_2]. intros _. by apply (bool_decide_unpack _); vm_compute.
Qed.
Lemma ex_gc_blocked0 : blocked "dead" "agents" "archive" ex_gc_be0.
Proof.
  eexists _, (ex_gc_dead_header ["gone"; "archive"] 5), (ex_gc_dead ["gone"; "archive"] 5).
  split; [apply ex_gc_registered|]. split; [by left|]. split; [by vm_compute|]. split; [by right; left|]. split; [exact ex_gc_idle|].
  apply Forall_cons_2; [|apply Forall_cons_2; [|apply Forall_nil_2]]; split_and!; try done; [by left|]. right. right. exact ex_gc_idle.
Qed.
Abbreviation ex_collect_step :=
  (collect_step c_dummy ex_fresh ex_fresh_activity 100 ex_h_catalogue id 0 "log" "dead" "agents").
Lemma ex_gc_steps : rtc ex_collect_step ex_gc_be0 ex_gc_be2.
Proof.
  apply rtc_l with ex_gc_be1; [|apply rtc_once].
  - apply (step_cleanup _ _ _ _ _ _ _ _ _ _ _ (mkAgent "gc" 0) ex_gc_gc (ex_gc_handle ex_gc_be0) ∅ []
      (fst (ex_cleanup "dead" (ex_gc_start ex_gc_be0))) ex_gc_taken); [apply ex_gc_collector0|].
    unfold ex_gc_taken. apply surjective_pairing.
  - eapply (step_return _ _ _ _ _ _ _ _ _ _ _ (fst ex_gc_dead1) (snd ex_gc_dead1) "gc"); [by vm_compute|].
    unfold ex_gc_be2. rewrite <- surjective_pairing. apply surjective_pairing.
Qed.


(** ** A retrieve request left between its queue and its agent *)

(** An agent queues a retrieve request and dies before the queue owns the request.  The
    collector finds the job in the queue, adds nothing and leaves the owner as it is; the request
    leaves the list of the agent, which is removed.  When the job is popped, the request is
    not the queue's, and the job is dropped. *)
Definition ex_gc_queued : VFS.vfs cb :=
  let be := c_be (gc_c (snd (ex_gc_two_passes ["retrieve"] AJS_Complete))) in
  VFS.mkVfs (<["agents" := ex_gc_object "root" AgentRegister_t (CAgents (mkAgentRegister ["dead"; "gc"] ["dead"; "gc"]))]>
    (<["retrieve" := ex_gc_object "dead" RetrieveRequest_t (CRetrieve rr_ex)]>
    (<["dead" := ex_gc_object "agents" Agent_t (CShared (QAgent (ex_gc_dead ["retrieve"] 5)))]> (VFS.files be)))) ({["dead"]} ∪ VFS.locks be).

Example ex_gc_retrieve_lost :
  let '(res, s) := ex_cleanup "dead" (ex_gc_start ex_gc_queued) in
  let be := c_be (gc_c s) in
  res = Ok tt ∧ VFS.files be !! "dead" = None ∧ ex_gc_owner be "retrieve" = Some "dead" ∧
  ((λ x, rjp_address <$> retrievejobs (snd x)) <$> stored (P := RetrieveQueueShard) be "RetrieveQueueShard-V01-gc-1") = Some ["retrieve"].
Proof. by vm_compute. Qed.
Example ex_gc_retrieve_dropped :
  let be := c_be (gc_c (snd (ex_cleanup "dead" (ex_gc_start ex_gc_queued)))) in
  let '(res, s) := popNextBatch (T := retrieve_transfer_traits c_dummy ex_fresh ex_fresh_activity "V01" JobsToTransferForUser 100 3) c_dummy 3
    (mkTransferCriteria (mkFilesBytes 10 100000) []) (start (new_object c_dummy) be (mkAgent "gc" 9)) in
  match res with Ok x => fst x = [] | Throw _ => False end ∧ ex_gc_owner (q_be s) "retrieve" = Some "dead" ∧
  VFS.files (q_be s) !! "RetrieveQueueToTransferForUser-V01-gc-0" = None.
Proof. by vm_compute. Qed.

(** ** A sorter *)

(** Two archive requests for one pool, and a retrieve request. *)
Definition ex_so_store : VFS.vfs cb :=
  let be := ex_gc_store ["archive"; "archive2"; "retrieve"] 5 AJS_ToTransferForUser in
  VFS.mkVfs (<["archive2" := ex_gc_object "dead" ArchiveRequest_t (CShared (QArchive (ex_gc_archive AJS_ToTransferForUser)))]> (VFS.files be)) ({["archive2"]} ∪ VFS.locks be).
Definition ex_so_archive (name : string) : ObjectOps cb ArchiveRequest :=
  opened Exclusive name (mkHeader ArchiveRequest_t 0 "dead" "" (BMsg (CShared (QArchive (ex_gc_archive AJS_ToTransferForUser))))) (ex_gc_archive AJS_ToTransferForUser).
Definition ex_so_retrieve : ObjectOps cb RetrieveRequest :=
  opened Exclusive "retrieve" (mkHeader RetrieveRequest_t 0 "dead" "" (BMsg (CRetrieve rr_ex))) rr_ex.
Definition ex_so_state (archives : list string) : SorterState (VFS.vfs cb) :=
  snd ((_ ← mfor archives (λ a, insertArchiveRequest (ex_so_archive a) "dead");
        insertRetrieveRequest c_dummy 100 ex_h_catalogue id 0 (ostore_accessor ex_so_retrieve) "dead" None)
       (mkSorter ex_so_store (mkAgent "gc" 0) ∅ [] [] ∅ 0)).

Lemma sorter_answers_witness :
  ∃ n s', flush_runs c_dummy ex_fresh ex_fresh_activity 100 n (ex_so_state ["archive"]) (Ok tt) s' ∧ (n <= 4)%nat ∧
    flushAll c_dummy ex_fresh ex_fresh_activity 100 (ex_so_state ["archive"]) = (Ok tt, s') ∧
    m_retrieveQueuesAndRequests s' = [] ∧ m_archiveQueuesAndRequests s' = [] ∧
    is_Some (so_promises s' !! 0%nat) ∧ is_Some (so_promises s' !! 1%nat).
Proof.
  destruct (sorter_answers c_dummy ex_fresh ex_fresh_activity 100 (ex_so_state ["archive"]))
    as [(n & r & s' & Hruns & Hn & E & dr & lr & da & la & H1 & H2 & H3 & H4 & H5 & H6) _].
  - split; by apply (bool_decide_unpack _); vm_compute.
  - split; by apply (bool_decide_unpack _); vm_compute.
  - intros i Hi Hi'. vm_compute in Hi, Hi'. apply list_elem_of_singleton in Hi as ->. by apply list_elem_of_singleton in Hi'.
  - assert (Er : fst (flushAll c_dummy ex_fresh ex_fresh_activity 100 (ex_so_state ["archive"])) = Ok tt) by (vm_compute; reflexivity).
    rewrite E in Er. simpl in Er. subst r. destruct H6 as [-> ->]. rewrite app_nil_r in H1, H3. rewrite <-H1, <-H3 in H5.
    exists n, s'. split; [exact Hruns|]. split; [exact Hn|]. split; [exact E|]. split; [exact H2|]. split; [exact H4|].
    destruct H5 as [H5 _]; [by apply (bool_decide_unpack _); vm_compute..|].
    split; apply H5; by apply (bool_decide_unpack _); vm_compute.
Defined.

(** Both requests are queued, and one answer is missing. *)
Example ex_so_unanswered :
  let '(res, s) := flushAll c_dummy ex_fresh ex_fresh_activity 100 (ex_so_state ["archive"; "archive2"]) in
  res = Ok tt ∧ (so_promises s !! 0%nat, so_promises s !! 1%nat, so_promises s !! 2%nat) = (None, Some (Ok tt), Some (Ok tt)) ∧
  ((λ x, ajp_address <$> archivejobs (snd x)) <$> stored (P := ArchiveQueueShard) (so_be s) "ArchiveQueueShard-poolA-gc-3") = Some ["archive"; "archive2"].
Proof. by vm_compute. Qed.
