(* ===== verification/Mounts.v ===== *)
(** * Mounts

    Model of the structures that the choice of the next mount works on:
    [common/dataStructures/MountType.hpp], [PotentialMount] and [ExistingMount] of
    [scheduler/SchedulerDatabase.hpp] with the order of the potential mounts, and what
    the catalogue tells of tapes, virtual organisations and libraries.

    A C++ [double] is a [spec_float] of the standard library, the IEEE 754 binary64
    numbers with 53 bits of precision. *)
From Stdlib Require String.
From Stdlib Require Import Floats.SpecFloat.
From S2P Require Import Prelude DataTypes RetrieveCache.

(** ** Double precision *)
Abbreviation double := spec_float.
(** The number that a 64-bit pattern stands for. *)
Definition double_of_bits (z : Z) : double :=
  let s := Z.testbit z 63 in
  let e := Z.land (Z.shiftr z 52) 2047 in
  let m := Z.land z (2 ^ 52 - 1) in
  if e =? 2047 then (if m =? 0 then S754_infinity s else S754_nan)
  else if e =? 0 then match m with Zpos p => S754_finite s p (-1074) | _ => S754_zero s end
  else match m + 2 ^ 52 with Zpos p => S754_finite s p (e - 1075) | _ => S754_nan end.
Definition double_of_Z (z : Z) : double := binary_normalize 53 1024 z 0 false.
Definition double_div (x y : double) : double := SFdiv 53 1024 x y.
Definition double_max : double := S754_finite false (2 ^ 53 - 1)%positive 971.
Definition double_zero : double := S754_zero false.
(** The value as a condition. *)
Definition double_nonzero (x : double) : bool := match x with S754_zero _ => false | _ => true end.

(** ** Types of mounts *)
Inductive MountType := ArchiveForUser | ArchiveForRepack | Retrieve | Label | NoMount | ArchiveAllTypes.
#[export] Instance MountType_eq_dec : EqDecision MountType.
Proof. solve_decision. Defined.
(** The values of the enumeration. *)
Definition MountType_value (t : MountType) : nat :=
  match t with ArchiveForUser => 1 | ArchiveForRepack => 2 | Retrieve => 3 | Label => 4 | NoMount => 0 | ArchiveAllTypes => 99 end.
Definition MountType_of (n : nat) : option MountType :=
  match n with 1 => Some ArchiveForUser | 2 => Some ArchiveForRepack | 3 => Some Retrieve | 4 => Some Label | 0 => Some NoMount
  | 99 => Some ArchiveAllTypes | _ => None end%nat.
#[export] Program Instance MountType_countable : Countable MountType := inj_countable MountType_value MountType_of _.
Next Obligation. by intros []. Qed.
Definition getMountBasicType (t : MountType) : MountType :=
  match t with ArchiveForUser | ArchiveForRepack => ArchiveAllTypes | _ => t end.

(** ** What the catalogue tells

    Of the structures, the members that scheduling reads. *)
Record TapeInfo := mkTapeInfo {
  ti_logicalLibraryName : string;
  ti_tapePoolName : string;
  ti_vendor : string;
  ti_mediaType : string;
  ti_vo : string;
  ti_capacityInBytes : Z;
  ti_state : TapeState
}.
(** [Tape()]. *)
Definition no_tape_info : TapeInfo := mkTapeInfo "" "" "" "" "" 0 ACTIVE.
Record VirtualOrganization := mkVO { vo_name : string; readMaxDrives : Z; writeMaxDrives : Z }.
Record TapeForWriting := mkTapeForWriting {
  tw_vid : string;
  tw_mediaType : string;
  tw_vendor : string;
  tw_tapePool : string;
  tw_vo : string;
  tw_lastFSeq : Z;
  tw_capacityInBytes : Z;
  tw_dataOnTapeInBytes : Z
}.
Record LogicalLibrary := mkLibrary { ll_name : string; ll_isDisabled : bool }.
(** The functions of the catalogue that scheduling calls. *)
Record Catalogue := mkCatalogue {
  cat_getTapesByVid : gset string → result (gmap string TapeInfo);
  cat_getVirtualOrganizationOfTapepool : string → result VirtualOrganization;
  cat_getTapesForWriting : string → result (list TapeForWriting);
  cat_getLogicalLibraries : result (list LogicalLibrary);
  cat_getMountPolicies : result (list MountPolicy)
}.

(** ** Potential and existing mounts *)
Record ActivityMounts := mkActivityMounts {
  am_activity : string;
  am_weight : double;
  am_mountCount : Z;
  am_weightedMountCount : double
}.
(** The member [mountCount], which no code reads, is left out. *)
Record PotentialMount := mkPotential {
  pm_type : MountType;
  pm_vid : string;
  pm_tapePool : string;
  pm_vo : string;
  pm_mediaType : string;
  pm_vendor : string;
  pm_capacityInBytes : Z;
  pm_priority : Z;
  pm_minRequestAge : Z;
  pm_filesQueued : Z;
  pm_bytesQueued : Z;
  pm_oldestJobStartTime : Z;
  pm_logicalLibrary : string;
  pm_ratioOfMountQuotaUsed : double;
  pm_sleepingMount : bool;
  pm_sleepStartTime : Z;
  pm_diskSystemSleptFor : string;
  pm_sleepTime : Z;
  pm_activity : option ActivityMounts
}.
Definition string_lt (a b : string) : bool := match String.compare a b with Lt => true | _ => false end.

(** [PotentialMount::operator<]. *)
Definition by_name (a b : PotentialMount) : bool :=
  if string_lt (pm_vid a) (pm_vid b) then false
  else if string_lt (pm_vid b) (pm_vid a) then true
  else if string_lt (pm_tapePool a) (pm_tapePool b) then false
  else string_lt (pm_tapePool b) (pm_tapePool a).
Definition by_age (a b : PotentialMount) : bool :=
  if pm_oldestJobStartTime b <? pm_oldestJobStartTime a then true
  else if pm_oldestJobStartTime a <? pm_oldestJobStartTime b then false
  else by_name a b.
Definition by_activity (a b : PotentialMount) : bool :=
  match pm_activity a, pm_activity b with
  | Some x, Some y =>
      if decide (pm_tapePool a = pm_tapePool b) then
        if SFltb (am_weightedMountCount y) (am_weightedMountCount x) then true
        else if SFltb (am_weightedMountCount x) (am_weightedMountCount y) then false
        else by_age a b
      else by_age a b
  | _, _ => by_age a b
  end.
Definition by_ratio (a b : PotentialMount) : bool :=
  if SFltb (pm_ratioOfMountQuotaUsed b) (pm_ratioOfMountQuotaUsed a) then true
  else if SFltb (pm_ratioOfMountQuotaUsed a) (pm_ratioOfMountQuotaUsed b) then false
  else by_activity a b.
Definition pm_less (a b : PotentialMount) : bool :=
  if pm_priority a <? pm_priority b then true
  else if pm_priority b <? pm_priority a then false
  else if decide (pm_type a = ArchiveForUser ∧ pm_type b ≠ ArchiveForUser) then false
  else if decide (pm_type b = ArchiveForUser ∧ pm_type a ≠ ArchiveForUser) then true
  else by_ratio a b.

Record ExistingMount := mkExisting {
  em_driveName : string;
  em_type : MountType;
  em_tapePool : string;
  em_vo : string;
  em_vid : string;
  em_currentMount : bool;
  em_bytesTransferred : Z;
  em_filesTransferred : Z;
  em_latestBandwidth : Z;
  em_activity : option string
}.

(** What is known when a mount is to be decided. *)
Record TapeMountDecisionInfo := mkDecision {
  potentialMounts : list PotentialMount;
  existingOrNextMounts : list ExistingMount;
  queueTrimRequired : bool
}.

(** ** Mount policies of a queue *)
Definition getMountPoliciesInQueue (catalogue : list MountPolicy) (queue : gmap string Z) : list MountPolicy :=
  filter (λ mp, is_Some (queue !! mp_name mp)) catalogue.
(** [utils::reduce] from the first element. *)
Definition reduce {A} (op : A → A → A) (what : string) (l : list A) : result A :=
  match l with [] => Throw (Exception what) | x :: l' => Ok (foldl op x l') end.
Definition better_archive (mp1 mp2 : MountPolicy) : MountPolicy :=
  let mp := mp1 in
  let mp := if archivePriority mp2 <? archivePriority mp1
            then mkMountPolicy (mp_name mp) (archivePriority mp1) (archiveMinRequestAge mp) (retrievePriority mp) (retrieveMinRequestAge mp)
                   (mp_creationLog mp) (mp_lastModificationLog mp) (mp_comment mp)
            else mp in
  if archiveMinRequestAge mp1 <? archiveMinRequestAge mp2
  then mkMountPolicy (mp_name mp) (archivePriority mp) (archiveMinRequestAge mp1) (retrievePriority mp) (retrieveMinRequestAge mp)
         (mp_creationLog mp) (mp_lastModificationLog mp) (mp_comment mp)
  else mp.
Definition createBestArchiveMountPolicy : list MountPolicy → result MountPolicy :=
  reduce better_archive "In OStoreDB::createBestArchiveMountPolicy(), empty mount policy list.".
Definition better_retrieve (mp1 mp2 : MountPolicy) : MountPolicy :=
  let mp := mp1 in
  let mp := if retrievePriority mp2 <? retrievePriority mp1
            then mkMountPolicy (mp_name mp) (archivePriority mp) (archiveMinRequestAge mp) (retrievePriority mp1) (retrieveMinRequestAge mp)
                   (mp_creationLog mp) (mp_lastModificationLog mp) (mp_comment mp)
            else mp in
  if retrieveMinRequestAge mp1 <? retrieveMinRequestAge mp2
  then mkMountPolicy (mp_name mp) (archivePriority mp) (archiveMinRequestAge mp) (retrievePriority mp) (retrieveMinRequestAge mp1)
         (mp_creationLog mp) (mp_lastModificationLog mp) (mp_comment mp)
  else mp.
Definition createBestRetrieveMountPolicy : list MountPolicy → result MountPolicy :=
  reduce better_retrieve "In OStoreDB::createBestRetrieveMountPolicy(), empty mount policy list.".
