(* ===== verification/MountsSpec.v ===== *)
(** * The order of the potential mounts

    Where the comparison of [PotentialMount]s is an order, and where it is not. *)
From Stdlib Require String.
From Stdlib Require Import Floats.SpecFloat.
From S2P Require Import Prelude DataTypes RetrieveCache Mounts.

(** ** Three-way comparisons *)

(** A comparison that is a total preorder on a domain. *)
Record preorder {A} (D : A → Prop) (c : A → A → comparison) : Prop := {
  po_sym : ∀ a b, c b a = CompOpp (c a b);
  po_trans : ∀ a b d r, D a → D b → D d → c a b = r → c b d = r → c a d = r;
  po_eq : ∀ a b d, D a → D b → D d → c a b = Eq → c a d = c b d
}.
Definition lex {A} (c d : A → A → comparison) (a b : A) : comparison := match c a b with Eq => d a b | r => r end.
Definition opposite {A} (c : A → A → comparison) (a b : A) : comparison := c b a.
Definition on_key {A K} (k : A → K) (c : K → K → comparison) (a b : A) : comparison := c (k a) (k b).

Lemma preorder_lex {A} (D : A → Prop) c d : preorder D c → preorder D d → preorder D (lex c d).
Proof.
  intros [cs ct ce] [ds dt de]. split; unfold lex.
  - intros a b. rewrite cs, ds. by destruct (c a b).
  - intros a b x r Ha Hb Hx H1 H2. destruct (c a b) eqn:E1.
    + rewrite (ce a b x) by done. destruct (c b x) eqn:E2; [by apply (dt a b x)|done..].
    + destruct (c b x) eqn:E2; simplify_eq; [|by rewrite (ct a b x Lt)].
      replace (c a x) with Lt; [done|]. pose proof (ce x b a Hx Hb Ha ltac:(by rewrite cs, E2)) as E. rewrite (cs a x), (cs a b), E1 in E. by destruct (c a x).
    + destruct (c b x) eqn:E2; simplify_eq; [|by rewrite (ct a b x Gt)].
      replace (c a x) with Gt; [done|]. pose proof (ce x b a Hx Hb Ha ltac:(by rewrite cs, E2)) as E. rewrite (cs a x), (cs a b), E1 in E. by destruct (c a x).
  - intros a b x Ha Hb Hx H. destruct (c a b) eqn:E1; [|done..]. rewrite (ce a b x) by done. destruct (c b x); [|done..]. by apply (de a b x).
Qed.
Lemma preorder_key {A K} (D : K → Prop) (k : A → K) c : preorder D c → preorder (D ∘ k) (on_key k c).
Proof. intros [cs ct ce]. split; unfold on_key; [naive_solver|intros a b d r; apply ct|intros a b d; apply ce]. Qed.
Lemma preorder_opposite {A} (D : A → Prop) c : preorder D c → preorder D (opposite c).
Proof.
  intros [cs ct ce]. split; unfold opposite; [naive_solver|intros a b d r Ha Hb Hd H1 H2; by apply (ct d b a)|].
  intros a b d Ha Hb Hd H. rewrite (cs a d), (cs b d). f_equal. apply ce; try done. by rewrite cs, H.
Qed.
Lemma preorder_weaken {A} (D D' : A → Prop) c : (∀ a, D' a → D a) → preorder D c → preorder D' c.
Proof. intros H [cs ct ce]. split; [done|intros a b d r Ha Hb Hd; by apply ct; apply H|intros a b d Ha Hb Hd; by apply ce; apply H]. Qed.

Lemma preorder_Z : preorder (λ _, True) Z.compare.
Proof.
  split.
  - intros a b. apply Z.compare_antisym.
  - intros a b d [] _ _ _ H1 H2; rewrite ?Z.compare_eq_iff, ?Z.compare_lt_iff, ?Z.compare_gt_iff in *; lia.
  - intros a b d _ _ _ ->%Z.compare_eq_iff. done.
Qed.
Lemma preorder_string : preorder (λ _, True) String.compare.
Proof.
  assert (Heq : ∀ a b, String.compare a b = Eq → a = b) by (intros a b; apply String.compare_eq_iff).
  split.
  - intros a b. apply String.compare_antisym.
  - intros a b d r _ _ _. revert b d. induction a as [|x a IH]; intros [|y b] [|z d]; simpl; try congruence.
    unfold Ascii.compare. pose proof (N.compare_spec (Ascii.N_of_ascii x) (Ascii.N_of_ascii y)) as H1.
    pose proof (N.compare_spec (Ascii.N_of_ascii y) (Ascii.N_of_ascii z)) as H2. pose proof (N.compare_spec (Ascii.N_of_ascii x) (Ascii.N_of_ascii z)) as H3.
    destruct H1, H2, H3; intros; subst; try congruence; try lia; eauto.
  - intros a b d _ _ _ ->%Heq. done.
Qed.

(** Doubles that are numbers, by [<]. *)
Definition double_compare (x y : double) : comparison := if SFltb x y then Lt else if SFltb y x then Gt else Eq.
Definition is_number (x : double) : Prop := x ≠ S754_nan.
(** A number by its class, exponent and mantissa. *)
Definition double_key (x : double) : Z * (Z * Z) :=
  match x with
  | S754_infinity true => (-2, (0, 0))
  | S754_finite true m e => (-1, (- e, - Zpos m))
  | S754_zero _ | S754_nan => (0, (0, 0))
  | S754_finite false m e => (1, (e, Zpos m))
  | S754_infinity false => (2, (0, 0))
  end.
Definition key_compare3 : Z * (Z * Z) → Z * (Z * Z) → comparison :=
  lex (on_key fst Z.compare) (lex (on_key (fst ∘ snd) Z.compare) (on_key (snd ∘ snd) Z.compare)).
Lemma double_compare_key x y : is_number x → is_number y → double_compare x y = key_compare3 (double_key x) (double_key y).
Proof.
  intros Hx Hy. unfold double_compare, SFltb, key_compare3, lex, on_key.
  destruct x as [sx|[]| |[] mx ex], y as [sy|[]| |[] my ey]; try done; simpl.
  - change (Pos.compare_cont Eq ?a ?b) with (Pos.compare a b).
    replace (- ex ?= - ey) with (ey ?= ex) by (symmetry; apply Z.compare_opp). rewrite (Z.compare_antisym ex ey), (Pos.compare_antisym mx my).
    by destruct (Z.compare ex ey), (Pos.compare mx my).
  - change (Pos.compare_cont Eq ?a ?b) with (Pos.compare a b).
    rewrite (Z.compare_antisym ex ey), (Pos.compare_antisym mx my). by destruct (Z.compare ex ey), (Pos.compare mx my).
Qed.
Lemma preorder_double : preorder is_number double_compare.
Proof.
  assert (Hk : preorder (λ _ : Z * (Z * Z), True) key_compare3).
  { apply preorder_lex; [|apply preorder_lex]; apply (preorder_key (λ _, True)), preorder_Z. }
  split.
  - intros a b. unfold double_compare, SFltb. destruct a as [|[]| |[] ma ea], b as [|[]| |[] mb eb]; try done; simpl;
      rewrite (Z.compare_antisym ea eb); change (Pos.compare_cont Eq ?a ?b) with (Pos.compare a b); rewrite (Pos.compare_antisym ma mb);
      by destruct (Z.compare ea eb), (Pos.compare ma mb).
  - intros a b d r Ha Hb Hd. rewrite !double_compare_key by done. by apply (po_trans _ _ Hk).
  - intros a b d Ha Hb Hd. rewrite !double_compare_key by done. by apply (po_eq _ _ Hk).
Qed.

(** ** The comparison of mounts *)
Definition weighted (m : PotentialMount) : double := default double_zero (am_weightedMountCount <$> pm_activity m).
Definition archives_first (m : PotentialMount) : Z := if decide (pm_type m = ArchiveForUser) then 1 else 0.
Definition compare_names : PotentialMount → PotentialMount → comparison :=
  lex (opposite (on_key pm_oldestJobStartTime Z.compare))
    (lex (opposite (on_key pm_vid String.compare)) (opposite (on_key pm_tapePool String.compare))).
Definition compare_with (c : PotentialMount → PotentialMount → comparison) : PotentialMount → PotentialMount → comparison :=
  lex (on_key pm_priority Z.compare) (lex (on_key archives_first Z.compare)
    (lex (opposite (on_key pm_ratioOfMountQuotaUsed double_compare)) c)).
Definition compare_activities : PotentialMount → PotentialMount → comparison := lex (opposite (on_key weighted double_compare)) compare_names.

(** Mounts whose ratio and weight are numbers, and those whose activities are compared. *)
Definition numbered (m : PotentialMount) : Prop := is_number (pm_ratioOfMountQuotaUsed m) ∧ is_number (weighted m).
Definition comparable (a b : PotentialMount) : Prop := is_Some (pm_activity a) ∧ is_Some (pm_activity b) ∧ pm_tapePool a = pm_tapePool b.
#[export] Instance comparable_dec a b : Decision (comparable a b).
Proof. unfold comparable. apply _. Defined.

(** The outcome as a condition. *)
Definition is_lt (c : comparison) : bool := match c with Lt => true | _ => false end.
Definition is_gt (c : comparison) : bool := match c with Gt => true | _ => false end.

Lemma less_step {A} (c d : A → A → comparison) a b (lt gt rest : bool) :
  lt = is_lt (c a b) → gt = is_gt (c a b) → rest = is_lt (d a b) →
  (if lt then true else if gt then false else rest) = is_lt (lex c d a b).
Proof. intros -> -> ->. unfold lex. by destruct (c a b), (d a b). Qed.
Lemma ltb_compare x y : (x <? y) = is_lt (Z.compare x y) ∧ (y <? x) = is_gt (Z.compare x y).
Proof. unfold Z.ltb. rewrite (Z.compare_antisym x y). by destruct (Z.compare x y). Qed.
Lemma SFltb_compare x y : SFltb x y = is_lt (double_compare x y) ∧ SFltb y x = is_gt (double_compare x y).
Proof.
  pose proof (po_sym _ _ preorder_double x y) as H. unfold double_compare in *. destruct (SFltb x y), (SFltb y x); done.
Qed.

Lemma by_age_compare a b : by_age a b = is_lt (compare_names a b).
Proof.
  apply less_step; [apply (proj1 (ltb_compare _ _))|apply (proj2 (ltb_compare _ _))|].
  unfold by_name, string_lt, lex, opposite, on_key.
  rewrite (String.compare_antisym (pm_vid a) (pm_vid b)), (String.compare_antisym (pm_tapePool a) (pm_tapePool b)).
  by destruct (String.compare (pm_vid b) (pm_vid a)), (String.compare (pm_tapePool b) (pm_tapePool a)).
Qed.
Lemma by_ratio_compare a b c :
  by_activity a b = is_lt (c a b) → pm_less a b = is_lt (compare_with c a b).
Proof.
  intros Hc. apply less_step; [apply (proj1 (ltb_compare _ _))|apply (proj2 (ltb_compare _ _))|].
  assert (Hr : by_ratio a b = is_lt (lex (opposite (on_key pm_ratioOfMountQuotaUsed double_compare)) c a b))
    by (apply less_step; [apply (proj1 (SFltb_compare _ _))|apply (proj2 (SFltb_compare _ _))|done]).
  unfold lex at 1, on_key at 1, archives_first.
  destruct (decide (pm_type a = ArchiveForUser)) as [Ha|Ha], (decide (pm_type b = ArchiveForUser)) as [Hb|Hb];
    repeat first [rewrite decide_True by tauto|rewrite decide_False by tauto]; done.
Qed.
Lemma less_comparable a b : comparable a b → pm_less a b = is_lt (compare_with compare_activities a b).
Proof.
  intros ([x Hx] & [y Hy] & Hp). apply by_ratio_compare. unfold by_activity. rewrite Hx, Hy, decide_True by done.
  apply less_step; unfold opposite, on_key, weighted; rewrite ?Hx, ?Hy; [apply (proj1 (SFltb_compare _ _))|apply (proj2 (SFltb_compare _ _))|apply by_age_compare].
Qed.
Lemma less_other a b : ¬ comparable a b → pm_less a b = is_lt (compare_with compare_names a b).
Proof.
  intros Hn. apply by_ratio_compare. unfold by_activity, comparable in *. rewrite <-by_age_compare.
  destruct (pm_activity a), (pm_activity b); try done. case_decide; [|done]. exfalso. apply Hn. by split_and!.
Qed.

Lemma preorder_with c : preorder numbered c → preorder numbered (compare_with c).
Proof.
  intros Hc. repeat apply preorder_lex; [..|done].
  - by apply (preorder_weaken ((λ _, True) ∘ pm_priority)), preorder_key, preorder_Z.
  - by apply (preorder_weaken ((λ _, True) ∘ archives_first)), preorder_key, preorder_Z.
  - apply preorder_opposite, (preorder_weaken (is_number ∘ pm_ratioOfMountQuotaUsed)), preorder_key, preorder_double. by intros a [? _].
Qed.
Lemma preorder_names : preorder numbered compare_names.
Proof.
  repeat apply preorder_lex; apply preorder_opposite.
  - by apply (preorder_weaken ((λ _, True) ∘ pm_oldestJobStartTime)), preorder_key, preorder_Z.
  - by apply (preorder_weaken ((λ _, True) ∘ pm_vid)), preorder_key, preorder_string.
  - by apply (preorder_weaken ((λ _, True) ∘ pm_tapePool)), preorder_key, preorder_string.
Qed.
Lemma preorder_activities : preorder numbered compare_activities.
Proof.
  apply preorder_lex; [|apply preorder_names]. apply preorder_opposite, (preorder_weaken (is_number ∘ weighted)), preorder_key, preorder_double. by intros a [_ ?].
Qed.

(** Three mounts that are all compared by activity, or none of which are. *)
Definition uniform (a b c : PotentialMount) : Prop :=
  (comparable a b ∧ comparable b c ∧ comparable a c) ∨ (¬ comparable a b ∧ ¬ comparable b c ∧ ¬ comparable a c).
Definition equivalent (a b : PotentialMount) : Prop := pm_less a b = false ∧ pm_less b a = false.

Lemma is_lt_true c : is_lt c = true ↔ c = Lt.
Proof. by destruct c. Qed.
Lemma preorder_less {A} (D : A → Prop) c a b d : preorder D c → D a → D b → D d →
  (c a b = Lt → c b d = Lt → c a d = Lt) ∧ (c a b = Eq → c b d = Eq → c a d = Eq).
Proof. intros [_ ct _] Ha Hb Hd. split; intros; by apply (ct a b d). Qed.
Lemma eq_not_lt {A} (D : A → Prop) c (a b : A) : preorder D c → c a b = Eq ↔ is_lt (c a b) = false ∧ is_lt (c b a) = false.
Proof. intros [cs _ _]. rewrite (cs a b). destruct (c a b); simpl; naive_solver. Qed.

(** On mounts that are ordered by one comparison, [operator<] is a strict weak order. *)
Lemma less_by c a b d :
  preorder numbered c → numbered a → numbered b → numbered d →
  pm_less a b = is_lt (c a b) → pm_less b a = is_lt (c b a) → pm_less b d = is_lt (c b d) → pm_less d b = is_lt (c d b) →
  pm_less a d = is_lt (c a d) → pm_less d a = is_lt (c d a) →
  (pm_less a b = true → pm_less b d = true → pm_less a d = true) ∧ (equivalent a b → equivalent b d → equivalent a d).
Proof.
  intros Hc Ha Hb Hd E1 E2 E3 E4 E5 E6. unfold equivalent. rewrite E1, E2, E3, E4, E5, E6, !is_lt_true, <-!(eq_not_lt numbered) by done.
  by apply (preorder_less numbered c a b d).
Qed.
Lemma comparable_sym a b : comparable a b → comparable b a.
Proof. unfold comparable. naive_solver. Qed.

Lemma less_asym a b : pm_less a b = true → pm_less b a = false.
Proof.
  destruct (decide (comparable a b)) as [Hc|Hc].
  - rewrite !less_comparable by (done || by apply comparable_sym). rewrite (po_sym _ _ (preorder_with _ preorder_activities) a b). by destruct (compare_with _ a b).
  - rewrite !less_other by (done || by intros ?%comparable_sym). rewrite (po_sym _ _ (preorder_with _ preorder_names) a b). by destruct (compare_with _ a b).
Qed.
Lemma less_irrefl a : pm_less a a = false.
Proof. destruct (pm_less a a) eqn:E; [|done]. by rewrite (less_asym a a E) in E. Qed.

(** A cycle: the same priority and tape pool, two activities and a mount without. *)
Definition cycle_mount (start : Z) (activity : option ActivityMounts) : PotentialMount :=
  mkPotential Retrieve "V01" "pool" "vo" "" "" 0 1 0 10 1000 start "lib" double_zero false 0 "" 0 activity.
Definition cycle_activity (mounts : Z) : option ActivityMounts :=
  Some (mkActivityMounts "act" (double_of_Z 1) mounts (double_div (double_of_Z mounts) (double_of_Z 1))).

(** C20: The order of potential mounts.  No mount is less than itself, and of two mounts
    one at most is less than the other.  Where the activities of all the mounts are
    compared, or of none of them, [operator<] is a strict weak order, as [std::sort]
    requires.  It is none in general: two mounts of a tape pool with activities and a
    third without can each be less than the next. *)
Theorem mount_order :
  (∀ a, pm_less a a = false) ∧ (∀ a b, pm_less a b = true → pm_less b a = false) ∧
  (∀ a b c, numbered a → numbered b → numbered c → uniform a b c →
     (pm_less a b = true → pm_less b c = true → pm_less a c = true) ∧ (equivalent a b → equivalent b c → equivalent a c)) ∧
  (∃ a b c, numbered a ∧ numbered b ∧ numbered c ∧ pm_less a b = true ∧ pm_less b c = true ∧ pm_less c a = true).
Proof.
  split_and!; [apply less_irrefl|apply less_asym| |].
  - intros a b c Ha Hb Hc [(H1 & H2 & H3)|(H1 & H2 & H3)].
    + apply (less_by _ a b c (preorder_with _ preorder_activities)); try done; apply less_comparable; try done; by apply comparable_sym.
    + apply (less_by _ a b c (preorder_with _ preorder_names)); try done; apply less_other; try done; by intros ?%comparable_sym.
  - exists (cycle_mount 1 (cycle_activity 2)), (cycle_mount 3 (cycle_activity 1)), (cycle_mount 2 None). split_and!; by vm_compute.
Qed.

(** The policy that [fetchMountInfo] takes for a queue. *)
Lemma better_archive_first p q : better_archive p q = p.
Proof. unfold better_archive. destruct p. simpl. by repeat case_match. Qed.
Lemma better_retrieve_first p q : better_retrieve p q = p.
Proof. unfold better_retrieve. destruct p. simpl. by repeat case_match. Qed.

(** C36: The policy chosen for a queue with several mount policies is the first of them in
    the catalogue, whatever their priorities and ages: of two policies the second is
    never taken over, better or not. *)
Theorem first_policy_wins catalogue queue p l :
  getMountPoliciesInQueue catalogue queue = p :: l →
  createBestArchiveMountPolicy (getMountPoliciesInQueue catalogue queue) = Ok p ∧
  createBestRetrieveMountPolicy (getMountPoliciesInQueue catalogue queue) = Ok p.
Proof.
  intros ->. unfold createBestArchiveMountPolicy, createBestRetrieveMountPolicy, reduce. split; f_equal.
  - induction l as [|q l IH]; [done|]. simpl. by rewrite better_archive_first.
  - induction l as [|q l IH]; [done|]. simpl. by rewrite better_retrieve_first.
Qed.
