(* ===== verification/Scheduling.v ===== *)
(** * Scheduling

    Model of the choice of the next mount in [scheduler/Scheduler.cpp]: how potential
    mounts are filtered, weighed and sorted, the dry run, the creation of the mount and
    the report of the candidates of every library.

    The catalogue, the scheduler database, [std::sort] and the clock are parameters.  The
    clock is read once per call, and what the code only logs is left out. *)
From Stdlib Require String.
From Stdlib Require Import Floats.SpecFloat.
From S2P Require Import Prelude DataTypes Agent RetrieveCache Mounts.

(** ** The database, as the scheduler sees it *)
Inductive PurposeGetMountInfo := GET_NEXT_MOUNT | SHOW_QUEUES.
#[export] Instance PurposeGetMountInfo_eq_dec : EqDecision PurposeGetMountInfo.
Proof. solve_decision. Defined.
Record ArchiveMountRequest := mkArchiveMountRequest {
  amr_type : MountType;
  amr_tape : TapeForWriting;
  amr_driveName : string;
  amr_logicalLibrary : string;
  amr_hostName : string;
  amr_vo : string;
  amr_mediaType : string;
  amr_vendor : string;
  amr_capacityInBytes : Z;
  amr_startTime : Z
}.
Record RetrieveMountRequest := mkRetrieveMountRequest {
  rmr_vid : string;
  rmr_tapePool : string;
  rmr_driveName : string;
  rmr_logicalLibrary : string;
  rmr_hostName : string;
  rmr_vo : string;
  rmr_mediaType : string;
  rmr_vendor : string;
  rmr_capacityInBytes : Z;
  rmr_startTime : Z;
  rmr_activity : option (string * double)
}.
(** Name and library of a drive, of the members of [TapeDrive] the ones that count here. *)
Record DriveEntry := mkDriveEntry { de_driveName : string; de_logicalLibrary : string }.

(** A database with states [S], whose archive and retrieve mounts are [AM] and [RM].
    The creation of mounts belongs to [TapeMountDecisionInfo]. *)
Class SchedulerDatabase (S AM RM : Type) := {
  db_getMountInfo : M S TapeMountDecisionInfo;
  db_getMountInfoNoLock : PurposeGetMountInfo → M S TapeMountDecisionInfo;
  db_trimEmptyQueues : M S unit;
  db_createArchiveMount : ArchiveMountRequest → M S AM;
  db_createRetrieveMount : RetrieveMountRequest → M S RM;
  db_getDriveStates : M S (list DriveEntry)
}.

(** [ArchiveMount] and [RetrieveMount] of the scheduler. *)
Record ArchiveMount (AM : Type) := mkArchiveMount { a_dbMount : AM; a_sessionRunning : bool }.
Record RetrieveMount (RM : Type) := mkRetrieveMount {
  r_dbMount : RM; r_sessionRunning : bool; r_diskRunning : bool; r_tapeRunning : bool }.
Arguments mkArchiveMount {AM}.
Arguments mkRetrieveMount {RM}.
Inductive TapeMount (AM RM : Type) := ForArchive (m : ArchiveMount AM) | ForRetrieve (m : RetrieveMount RM).
Arguments ForArchive {AM RM}.
Arguments ForRetrieve {AM RM}.

(** ** Counts of the existing mounts *)
Record MountCounts := mkCounts { totalMounts : Z; activityMounts : gmap string Z }.
Definition no_counts : MountCounts := mkCounts 0 ∅.
Abbreviation Summary := (gmap (string * MountType) MountCounts).
Definition counts_at (k : string * MountType) (m : Summary) : MountCounts := default no_counts (m !! k).
Definition count_total (k : string * MountType) (m : Summary) : Summary :=
  let c := counts_at k m in <[k := mkCounts (u32 (totalMounts c + 1)) (activityMounts c)]> m.
Definition count_activity (k : string * MountType) (a : string) (m : Summary) : Summary :=
  let c := counts_at k m in
  <[k := mkCounts (totalMounts c) (<[a := u32 (default 0 (activityMounts c !! a) + 1)]> (activityMounts c))]> m.

(** What a run of [sortAndGetTapesForMountInfo] leaves to its caller, besides the mounts. *)
Record Gathered := mkGathered {
  perTapepool : Summary;
  perVo : Summary;
  tapesInUse : gset string;
  tapeList : list TapeForWriting
}.
Definition nothing_gathered : Gathered := mkGathered ∅ ∅ ∅ [].

Definition set_potentialMounts (l : list PotentialMount) (i : TapeMountDecisionInfo) : TapeMountDecisionInfo :=
  mkDecision l (existingOrNextMounts i) (queueTrimRequired i).
Definition set_weights (ratio : double) (a : option ActivityMounts) (m : PotentialMount) : PotentialMount :=
  mkPotential (pm_type m) (pm_vid m) (pm_tapePool m) (pm_vo m) (pm_mediaType m) (pm_vendor m) (pm_capacityInBytes m) (pm_priority m)
    (pm_minRequestAge m) (pm_filesQueued m) (pm_bytesQueued m) (pm_oldestJobStartTime m) (pm_logicalLibrary m) ratio (pm_sleepingMount m)
    (pm_sleepStartTime m) (pm_diskSystemSleptFor m) (pm_sleepTime m) a.
Definition set_tape (t : TapeInfo) (m : PotentialMount) : PotentialMount :=
  mkPotential (pm_type m) (pm_vid m) (ti_tapePoolName t) (ti_vo t) (ti_mediaType t) (ti_vendor t) (ti_capacityInBytes t) (pm_priority m)
    (pm_minRequestAge m) (pm_filesQueued m) (pm_bytesQueued m) (pm_oldestJobStartTime m) (ti_logicalLibraryName t)
    (pm_ratioOfMountQuotaUsed m) (pm_sleepingMount m) (pm_sleepStartTime m) (pm_diskSystemSleptFor m) (pm_sleepTime m) (pm_activity m).

(** [ex.getMessage() << " Aborting scheduling." << std::endl; throw ex;], which throws the
    base class.  Of the exceptions, two have a text here. *)
Definition message (e : exn) : string := match e with Exception w | Errnum w => w | _ => "" end.
Definition aborting (e : exn) : exn :=
  Exception (String.append (message e) (String.append " Aborting scheduling." (String.String (Ascii.ascii_of_nat 10) ""))).
(** [std::map::at]. *)
Definition map_at {A} (m : gmap string A) (k : string) : result A :=
  match m !! k with Some a => Ok a | None => Throw (Exception "map::at") end.
(** The elements for which a function that may throw gives a value, in order. *)
Fixpoint omapM {A B} (f : A → result (option B)) (l : list A) : result (list B) :=
  match l with
  | [] => Ok []
  | a :: l' => x ← f a; k ← omapM f l'; Ok (match x with Some b => b :: k | None => k end)
  end.

Section scheduling.
Context (cat : Catalogue) (sort : list PotentialMount → list PotentialMount) (now : Z).
Context (m_minFilesToWarrantAMount m_minBytesToWarrantAMount : Z).

(** ** Filtering and sorting the candidates *)

(** The tapes of the retrieve mounts, as the catalogue has them. *)
Definition retrieve_tapes (l : list PotentialMount) : gset string := list_to_set (pm_vid <$> filter (λ m, pm_type m = Retrieve) l).
Definition fill_tapes (l : list PotentialMount) : result (list PotentialMount) :=
  if decide (retrieve_tapes l = ∅) then Ok l
  else infos ← cat_getTapesByVid cat (retrieve_tapes l);
       Ok ((λ m, if decide (pm_type m = Retrieve) then set_tape (default no_tape_info (infos !! pm_vid m)) m else m) <$> l).
Definition in_library (logicalLibraryName : string) (l : list PotentialMount) : list PotentialMount :=
  filter (λ m, ¬ (pm_type m = Retrieve ∧ pm_logicalLibrary m ≠ logicalLibraryName)) l.

(** The virtual organisations of the tape pools. *)
Fixpoint get_vos (tapepools : list string) : result (gmap string VirtualOrganization) :=
  match tapepools with
  | [] => Ok ∅
  | p :: l => match cat_getVirtualOrganizationOfTapepool cat p with
              | Ok vo => vos ← get_vos l; Ok (<[p := vo]> vos)
              | Throw e => Throw (aborting e)
              end
  end.
Definition tapepools (l : list PotentialMount) (ems : list ExistingMount) : gset string :=
  list_to_set (pm_tapePool <$> l) ∪ list_to_set (em_tapePool <$> ems).

(** One existing mount of another drive. *)
Definition count_existing (vos : gmap string VirtualOrganization) (em : ExistingMount) (g : Gathered) : result Gathered :=
  let k := (em_tapePool em, em_type em) in
  let pools := count_total k (perTapepool g) in
  vo ← map_at vos (em_tapePool em);
  Ok (mkGathered
    (match em_activity em with Some a => count_activity k a pools | None => pools end)
    (count_total (vo_name vo, getMountBasicType (em_type em)) (perVo g))
    (if decide (em_vid em = "") then tapesInUse g else {[em_vid em]} ∪ tapesInUse g) (tapeList g)).
Fixpoint count_mounts (driveName : string) vos (ems : list ExistingMount) (g : Gathered) : result Gathered :=
  match ems with
  | [] => Ok g
  | em :: l => if decide (em_driveName em = driveName) then count_mounts driveName vos l g
               else g' ← count_existing vos em g; count_mounts driveName vos l g'
  end.

Definition is_archive (m : PotentialMount) : Prop := getMountBasicType (pm_type m) = ArchiveAllTypes.
#[export] Instance is_archive_dec m : Decision (is_archive m).
Proof. unfold is_archive. apply _. Defined.

(** One candidate: whether enough is queued for a mount, the drives its virtual
    organisation may use, and the weight of its activity. *)
Definition passes_criteria (effective : Z) (m : PotentialMount) : bool :=
  let double_it x := if decide (pm_type m = ArchiveForRepack) then u64 (x * 2) else x in
  (double_it m_minBytesToWarrantAMount <=? pm_bytesQueued m / u32 (1 + effective))
  || (double_it m_minFilesToWarrantAMount <=? pm_filesQueued m / u32 (1 + effective))
  || ((effective =? 0) && (pm_minRequestAge m <? now - pm_oldestJobStartTime m)).
Definition max_drives (vo : VirtualOrganization) (t : MountType) : Z :=
  match getMountBasicType t with Retrieve => readMaxDrives vo | ArchiveAllTypes => writeMaxDrives vo | _ => 0 end.
(** [1.0 * activityMounts] is exact: the count has 32 bits. *)
Definition weigh_activity (mounts : Z) (a : ActivityMounts) : ActivityMounts :=
  mkActivityMounts (am_activity a) (am_weight a) mounts
    (if double_nonzero (am_weight a) then double_div (double_of_Z mounts) (am_weight a) else double_max).
Definition consider (vos : gmap string VirtualOrganization) (g : Gathered) (m : PotentialMount) : result (option PotentialMount) :=
  vo ← map_at vos (pm_tapePool m);
  let here := counts_at (pm_tapePool m, pm_type m) (perTapepool g) in
  let existingMountsBasicTypeForThisVo := totalMounts (counts_at (vo_name vo, getMountBasicType (pm_type m)) (perVo g)) in
  let effective := if decide (is_archive m) then totalMounts here else 0 in
  if negb (passes_criteria effective m) || (max_drives vo (pm_type m) <=? existingMountsBasicTypeForThisVo) || pm_sleepingMount m then Ok None
  else Ok (Some (set_weights double_zero
              ((λ a, weigh_activity (default 0 (activityMounts here !! am_activity a)) a) <$> pm_activity m) m)).

Definition get_tapes_for_writing (logicalLibraryName : string) (l : list PotentialMount) (g : Gathered) : result Gathered :=
  tapes ← (if decide (Exists is_archive l) then cat_getTapesForWriting cat logicalLibraryName else Ok (tapeList g));
  Ok (mkGathered (perTapepool g) (perVo g) (tapesInUse g) (filter (λ t, tw_vid t ∉ tapesInUse g) tapes)).

Definition sortAndGetTapesForMountInfo (mountInfo : TapeMountDecisionInfo) (logicalLibraryName driveName : string) (g : Gathered)
    : result (TapeMountDecisionInfo * Gathered) :=
  filled ← fill_tapes (potentialMounts mountInfo);
  let l := in_library logicalLibraryName filled in
  vos ← get_vos (set_iter (tapepools l (existingOrNextMounts mountInfo)));
  g1 ← count_mounts driveName vos (existingOrNextMounts mountInfo) g;
  kept ← omapM (consider vos g1) l;
  let sorted := reverse (sort kept) in
  g2 ← get_tapes_for_writing logicalLibraryName sorted g1;
  Ok (set_potentialMounts sorted mountInfo, g2).

Definition getLogicalLibrary (libraryName : string) : result (option LogicalLibrary) :=
  l ← cat_getLogicalLibraries cat; Ok (list_find (λ ll, ll_name ll = libraryName) l ≫= λ x, Some (snd x)).
(** The start of both searches: is there such a library, and is it enabled? *)
Definition library_usable (libraryName : string) : result bool :=
  ll ← getLogicalLibrary libraryName;
  Ok (match ll with Some x => negb (ll_isDisabled x) | None => false end).

(** ** Choosing the next mount *)
Context {S AM RM : Type} `{SchedulerDatabase S AM RM} (hostName : string).

Fixpoint find_mount (g : Gathered) (l : list PotentialMount) : bool :=
  match l with
  | [] => false
  | m :: l' =>
      if decide (is_archive m) then
        if decide (Exists (λ t, tw_tapePool t = pm_tapePool m) (tapeList g)) then true else find_mount g l'
      else if decide (pm_type m = Retrieve) then
        if decide (pm_vid m ∈ tapesInUse g) then find_mount g l' else true
      else find_mount g l'
  end.
Definition getNextMountDryRun (logicalLibraryName driveName : string) : M S bool :=
  usable ← lift (library_usable logicalLibraryName);
  if negb usable then mret false
  else
    mountInfo ← db_getMountInfoNoLock GET_NEXT_MOUNT;
    x ← lift (sortAndGetTapesForMountInfo mountInfo logicalLibraryName driveName nothing_gathered);
    mret (find_mount (snd x) (potentialMounts (fst x))).

(** The request for a mount of a tape, and for the tape of a mount. *)
Definition archive_request (logicalLibraryName driveName : string) (m : PotentialMount) (t : TapeForWriting) : ArchiveMountRequest :=
  mkArchiveMountRequest (pm_type m) t driveName logicalLibraryName hostName (tw_vo t) (tw_mediaType t) (tw_vendor t) (tw_capacityInBytes t) now.
Definition retrieve_request (logicalLibraryName driveName : string) (m : PotentialMount) : RetrieveMountRequest :=
  mkRetrieveMountRequest (pm_vid m) (pm_tapePool m) driveName logicalLibraryName hostName (pm_vo m) (pm_mediaType m) (pm_vendor m)
    (pm_capacityInBytes m) now ((λ a, (am_activity a, am_weight a)) <$> pm_activity m).

(** [try { ... } catch (cta::exception::Exception & ex)]: a mount that cannot be created
    is no mount.  The exceptions of the database are taken to be of that class; one of
    the standard library would escape. *)
Definition try_create {A} (m : M S A) : M S (option A) := catch (a ← m; mret (Some a)) (λ _, Some (mret None)).
Fixpoint try_tapes (logicalLibraryName driveName : string) (m : PotentialMount) (tapes : list TapeForWriting) : M S (option (TapeMount AM RM)) :=
  match tapes with
  | [] => mret None
  | t :: l =>
      if decide (tw_tapePool t = pm_tapePool m) then
        r ← try_create (db_createArchiveMount (archive_request logicalLibraryName driveName m t));
        match r with Some a => mret (Some (ForArchive (mkArchiveMount a true))) | None => try_tapes logicalLibraryName driveName m l end
      else try_tapes logicalLibraryName driveName m l
  end.
Fixpoint try_mounts (logicalLibraryName driveName : string) (g : Gathered) (l : list PotentialMount) : M S (option (TapeMount AM RM)) :=
  match l with
  | [] => mret None
  | m :: l' =>
      if decide (is_archive m) then
        r ← try_tapes logicalLibraryName driveName m (tapeList g);
        match r with Some x => mret (Some x) | None => try_mounts logicalLibraryName driveName g l' end
      else if decide (pm_type m = Retrieve) then
        if decide (pm_vid m ∈ tapesInUse g) then try_mounts logicalLibraryName driveName g l'
        else
          r ← try_create (db_createRetrieveMount (retrieve_request logicalLibraryName driveName m));
          match r with
          | Some x => mret (Some (ForRetrieve (mkRetrieveMount x true true true)))
          | None => try_mounts logicalLibraryName driveName g l'
          end
      else throw (Exception "In Scheduler::getNextMount unexpected mount type")
  end.
Definition getNextMount (logicalLibraryName driveName : string) : M S (option (TapeMount AM RM)) :=
  usable ← lift (library_usable logicalLibraryName);
  if negb usable then mret None
  else
    mountInfo ← db_getMountInfo;
    _ ← (if queueTrimRequired mountInfo then db_trimEmptyQueues else mret tt);
    x ← lift (sortAndGetTapesForMountInfo mountInfo logicalLibraryName driveName nothing_gathered);
    try_mounts logicalLibraryName driveName (snd x) (potentialMounts (fst x)).

(** ** The candidates of every library *)
Record SchedulingInfos := mkSchedulingInfos { m_logicalLibraryName : string; m_potentialMounts : list PotentialMount }.
Definition addPotentialMount (m : PotentialMount) (i : SchedulingInfos) : SchedulingInfos :=
  mkSchedulingInfos (m_logicalLibraryName i) (m_potentialMounts i ++ [m]).
Fixpoint sort_for_drives (library : string) (drives : list string) (mountInfo : TapeMountDecisionInfo) (g : Gathered) (i : SchedulingInfos)
    : result (Gathered * SchedulingInfos) :=
  match drives with
  | [] => Ok (g, i)
  | d :: l =>
      x ← sortAndGetTapesForMountInfo mountInfo library d g;
      sort_for_drives library l (fst x) (snd x) (foldl (λ i m, addPotentialMount m i) i (potentialMounts (fst x)))
  end.
Fixpoint infos_of (drives : list DriveEntry) (libraries : list string) (g : Gathered) : M S (list SchedulingInfos) :=
  match libraries with
  | [] => mret []
  | library :: l =>
      mountInfo ← db_getMountInfoNoLock GET_NEXT_MOUNT;
      x ← lift (sort_for_drives library (de_driveName <$> filter (λ d, de_logicalLibrary d = library) drives) mountInfo g
                  (mkSchedulingInfos library []));
      rest ← infos_of drives l (fst x);
      mret (if decide (m_potentialMounts (snd x) = []) then rest else snd x :: rest)
  end.
Definition getSchedulingInformations : M S (list SchedulingInfos) :=
  drives ← db_getDriveStates;
  infos_of drives (set_iter (list_to_set (de_logicalLibrary <$> drives))) nothing_gathered.
End scheduling.
