(* ===== verification/SchedulingSpec.v ===== *)
(** * The choice of the next mount, against its specification

    What the scheduler counts, which candidates are left and in which order they are
    tried, in terms of the mounts of the other drives and of the catalogue alone; which
    mount [getNextMount] creates, which it tried before, and what the dry run says. *)
From Stdlib Require Import Floats.SpecFloat.
From stdpp Require Import sorting.
From S2P Require Import Prelude DataTypes Agent RetrieveCache Mounts MountsSpec Scheduling.

(** ** Specification *)
Section specification.
Context (cat : Catalogue) (minFiles minBytes now : Z) (library driveName : string) (info : TapeMountDecisionInfo).

(** The existing mounts of the other drives, and the tapes in them. *)
Definition others : list ExistingMount := filter (λ em, em_driveName em ≠ driveName) (existingOrNextMounts info).
Definition used_tapes : gset string := list_to_set (filter (λ v, v ≠ "") (em_vid <$> others)).
(** The virtual organisation of a tape pool, and the drives that work for one. *)
Definition works_for (vo : string) (t : MountType) (em : ExistingMount) : Prop :=
  match cat_getVirtualOrganizationOfTapepool cat (em_tapePool em) with Ok v => vo_name v = vo | Throw _ => False end ∧ getMountBasicType (em_type em) = t.
#[export] Instance works_for_dec vo t em : Decision (works_for vo t em).
Proof. unfold works_for. destruct (cat_getVirtualOrganizationOfTapepool cat (em_tapePool em)); apply _. Defined.
Definition number {A} (P : A → Prop) `{∀ x, Decision (P x)} (l : list A) : Z := Z.of_nat (length (filter P l)).
Definition vo_mounts (vo : string) (t : MountType) : Z := number (works_for vo t) others.
Definition pool_mounts (pool : string) (t : MountType) : Z := number (λ em, em_tapePool em = pool ∧ em_type em = t) others.
Definition pool_activity_mounts (pool : string) (t : MountType) (a : string) : Z :=
  number (λ em, em_tapePool em = pool ∧ em_type em = t ∧ em_activity em = Some a) others.

(** The mounts that count against the minimum of a candidate: none for retrieves. *)
Definition sharing (m : PotentialMount) : Z := if decide (is_archive m) then pool_mounts (pm_tapePool m) (pm_type m) else 0.
Definition eligible (m : PotentialMount) : Prop :=
  (pm_type m = Retrieve → pm_logicalLibrary m = library) ∧
  match cat_getVirtualOrganizationOfTapepool cat (pm_tapePool m) with
  | Ok vo => vo_mounts (vo_name vo) (getMountBasicType (pm_type m)) < max_drives vo (pm_type m)
  | Throw _ => False
  end ∧
  pm_sleepingMount m = false ∧ passes_criteria now minFiles minBytes (sharing m) m = true.
#[export] Instance eligible_dec m : Decision (eligible m).
Proof. unfold eligible. destruct (cat_getVirtualOrganizationOfTapepool cat (pm_tapePool m)); apply _. Defined.
(** An eligible mount with its weights. *)
Definition weighed (m : PotentialMount) : PotentialMount :=
  set_weights double_zero ((λ a, weigh_activity (pool_activity_mounts (pm_tapePool m) (pm_type m) (am_activity a)) a) <$> pm_activity m) m.
End specification.

(** ** Counting *)
Definition bounded (n : Z) (m : Summary) : Prop := ∀ k, 0 ≤ totalMounts (counts_at k m) ∧ totalMounts (counts_at k m) + n < 2 ^ 32.
Definition bounded_activities (n : Z) (m : Summary) : Prop :=
  ∀ k a, 0 ≤ default 0 (activityMounts (counts_at k m) !! a) ∧ default 0 (activityMounts (counts_at k m) !! a) + n < 2 ^ 32.
Definition one (P : Prop) `{Decision P} : Z := if decide P then 1 else 0.
Lemma counts_insert (k k' : string * MountType) (c : MountCounts) (m : Summary) : counts_at k' (<[k := c]> m) = if decide (k = k') then c else counts_at k' m.
Proof. unfold counts_at. case_decide; subst; [by rewrite lookup_insert_eq|by rewrite lookup_insert_ne]. Qed.
Lemma u32_succ x n : 0 ≤ x → 0 < n → x + n < 2 ^ 32 → u32 (x + 1) = x + 1.
Proof. intros. apply u32_small. unfold in_u32. lia. Qed.
Lemma count_total_total n k k' m : bounded n m → 0 < n →
  totalMounts (counts_at k' (count_total k m)) = totalMounts (counts_at k' m) + one (k = k').
Proof.
  intros Hb Hn. unfold count_total, one. rewrite counts_insert. case_decide; subst; [|lia].
  simpl. destruct (Hb k'). by apply (u32_succ _ n).
Qed.
Lemma count_total_activity k k' m : activityMounts (counts_at k' (count_total k m)) = activityMounts (counts_at k' m).
Proof. unfold count_total. rewrite counts_insert. by case_decide; subst. Qed.
Lemma count_activity_total k a k' m : totalMounts (counts_at k' (count_activity k a m)) = totalMounts (counts_at k' m).
Proof. unfold count_activity. rewrite counts_insert. by case_decide; subst. Qed.
Lemma count_activity_activity n k a k' b m : bounded_activities n m → 0 < n →
  default 0 (activityMounts (counts_at k' (count_activity k a m)) !! b) =
  default 0 (activityMounts (counts_at k' m) !! b) + one (k = k' ∧ a = b).
Proof.
  intros Hb Hn. unfold count_activity, one. rewrite counts_insert. case_decide as Hk; subst; simpl; [|rewrite decide_False; [lia|tauto]].
  destruct (decide (a = b)) as [->|Ha].
  - rewrite lookup_insert_eq, decide_True by done. simpl. destruct (Hb k' b). by apply (u32_succ _ n).
  - rewrite lookup_insert_ne, decide_False by (done || tauto). lia.
Qed.

Lemma number_nil {A} (P : A → Prop) `{∀ x, Decision (P x)} : number P [] = 0.
Proof. done. Qed.
Lemma number_cons {A} (P : A → Prop) `{∀ x, Decision (P x)} x l : number P (x :: l) = one (P x) + number P l.
Proof. unfold number, one. rewrite filter_cons. case_decide; simpl; lia. Qed.
Lemma number_range {A} (P : A → Prop) `{∀ x, Decision (P x)} l : 0 ≤ number P l ≤ Z.of_nat (length l).
Proof. unfold number. pose proof (length_filter P l). lia. Qed.

Section counting.
Context (cat : Catalogue) (vos : gmap string VirtualOrganization).
Hypothesis vos_from_catalogue : ∀ p v, vos !! p = Some v → cat_getVirtualOrganizationOfTapepool cat p = Ok v.

(** What a list of mounts adds to the counts. *)
Record adds (l : list ExistingMount) (g g' : Gathered) : Prop := {
  adds_pool : ∀ p t, totalMounts (counts_at (p, t) (perTapepool g')) =
    totalMounts (counts_at (p, t) (perTapepool g)) + number (λ em, em_tapePool em = p ∧ em_type em = t) l;
  adds_activity : ∀ p t a, default 0 (activityMounts (counts_at (p, t) (perTapepool g')) !! a) =
    default 0 (activityMounts (counts_at (p, t) (perTapepool g)) !! a)
    + number (λ em, em_tapePool em = p ∧ em_type em = t ∧ em_activity em = Some a) l;
  adds_vo : ∀ vo t, totalMounts (counts_at (vo, t) (perVo g')) = totalMounts (counts_at (vo, t) (perVo g)) + number (works_for cat vo t) l;
  adds_tapes : tapesInUse g' = list_to_set (filter (λ v, v ≠ "") (em_vid <$> l)) ∪ tapesInUse g;
  adds_tapeList : tapeList g' = tapeList g
}.
Definition room (n : Z) (g : Gathered) : Prop := bounded n (perTapepool g) ∧ bounded_activities n (perTapepool g) ∧ bounded n (perVo g).

Lemma one_iff (P Q : Prop) `{Decision P, Decision Q} : (P ↔ Q) → one P = one Q.
Proof. unfold one. intros. repeat case_decide; tauto. Qed.
Lemma one_false (P : Prop) `{Decision P} : ¬ P → one P = 0.
Proof. unfold one. by intros; rewrite decide_False. Qed.
Lemma number_singleton {A} (P : A → Prop) `{∀ x, Decision (P x)} x : number P [x] = one (P x).
Proof. rewrite number_cons, number_nil. lia. Qed.

Lemma count_existing_adds n em g g' : room n g → 0 < n → count_existing vos em g = Ok g' → adds [em] g g'.
Proof.
  intros (Hp & Ha & Hv) Hn. unfold count_existing, map_at. destruct (vos !! em_tapePool em) as [vo|] eqn:E; [|done].
  cbn. intros [= <-]. assert (Ha' : bounded_activities n (count_total (em_tapePool em, em_type em) (perTapepool g)))
    by (intros k a; rewrite count_total_activity; apply Ha).
  split; simpl; [intros p t|intros p t a|intros v t| |done].
  - rewrite number_singleton. rewrite (one_iff _ ((em_tapePool em, em_type em) = (p, t))) by naive_solver.
    destruct (em_activity em); rewrite ?count_activity_total; by apply (count_total_total n).
  - rewrite number_singleton. destruct (em_activity em) as [b|].
    + rewrite (count_activity_activity n), count_total_activity by done. f_equal. apply one_iff. naive_solver.
    + rewrite count_total_activity, one_false by naive_solver. lia.
  - rewrite number_singleton, (count_total_total n) by done. f_equal. apply one_iff.
    unfold works_for. rewrite (vos_from_catalogue _ _ E). naive_solver.
  - rewrite filter_cons. repeat case_decide; subst; simpl in *; rewrite ?filter_nil; simpl; set_solver.
Qed.
Lemma adds_trans l k g g' g'' : adds l g g' → adds k g' g'' → adds (l ++ k) g g''.
Proof.
  assert (Hn : ∀ (P : ExistingMount → Prop) `{∀ x, Decision (P x)}, number P (l ++ k) = number P l + number P k).
  { intros P H. unfold number. rewrite filter_app, length_app. lia. }
  intros [p1 a1 v1 t1 l1] [p2 a2 v2 t2 l2]. split; intros.
  - rewrite p2, p1, Hn. lia.
  - rewrite a2, a1, Hn. lia.
  - rewrite v2, v1, Hn. lia.
  - rewrite t2, t1, fmap_app, filter_app, list_to_set_app_L. set_solver.
  - congruence.
Qed.
Lemma adds_nil g : adds [] g g.
Proof. split; intros; rewrite ?number_nil; [lia|lia|lia|set_solver|done]. Qed.
Lemma adds_room n em g g' : room n g → adds [em] g g' → room (n - 1) g'.
Proof.
  intros (Hp & Ha & Hv) [p1 a1 v1 _ _].
  assert (Hn : ∀ (P : ExistingMount → Prop) `{∀ x, Decision (P x)}, 0 ≤ number P [em] ≤ 1) by (intros P H; apply (number_range P [em])).
  split_and!; [intros [p t]|intros [p t] a|intros [p t]]; rewrite ?p1, ?a1, ?v1.
  - pose proof (Hn (λ em, em_tapePool em = p ∧ em_type em = t) _). destruct (Hp (p, t)). lia.
  - pose proof (Hn (λ em, em_tapePool em = p ∧ em_type em = t ∧ em_activity em = Some a) _). destruct (Ha (p, t) a). lia.
  - pose proof (Hn (works_for cat p t) _). destruct (Hv (p, t)). lia.
Qed.
Lemma count_mounts_adds driveName ems g g' :
  room (Z.of_nat (length ems)) g → count_mounts driveName vos ems g = Ok g' → adds (filter (λ em, em_driveName em ≠ driveName) ems) g g'.
Proof.
  revert g. induction ems as [|em l IH]; intros g Hr Hc; [injection Hc as <-; apply adds_nil|]. simpl in Hc. rewrite filter_cons.
  destruct (decide (em_driveName em = driveName)) as [Hd|Hd].
  - rewrite decide_False by tauto. apply IH; [|done]. destruct Hr as (Hp & Ha & Hv). simpl in *.
    split_and!; [intros k; destruct (Hp k)|intros k a; destruct (Ha k a)|intros k; destruct (Hv k)]; lia.
  - rewrite decide_True by done. destruct (count_existing vos em g) as [g1|e] eqn:E; [|done]. cbn in Hc.
    assert (H1 : adds [em] g g1) by (apply (count_existing_adds (Z.of_nat (length (em :: l)))); try done; simpl; lia).
    apply (adds_trans [em] _ g g1 g' H1), IH; [|done].
    replace (Z.of_nat (length l)) with (Z.of_nat (length (em :: l)) - 1) by (simpl; lia). by apply (adds_room _ em g).
Qed.
End counting.

Lemma room_nothing n : n < 2 ^ 32 → room n nothing_gathered.
Proof. intros Hn. unfold room, bounded, bounded_activities, counts_at. simpl. split_and!; intros; rewrite ?lookup_empty; simpl; rewrite ?lookup_empty; simpl; lia. Qed.
Lemma get_vos_catalogue cat l vos p v : get_vos cat l = Ok vos → vos !! p = Some v → cat_getVirtualOrganizationOfTapepool cat p = Ok v.
Proof.
  revert vos. induction l as [|q l IH]; intros vos; simpl; [by intros [= <-]; rewrite lookup_empty|].
  destruct (cat_getVirtualOrganizationOfTapepool cat q) as [w|] eqn:E; [|done]. destruct (get_vos cat l) as [vos'|]; [|done].
  cbn. intros [= <-]. destruct (decide (q = p)) as [->|Hp]; [by rewrite lookup_insert_eq; intros [= <-]|].
  rewrite lookup_insert_ne by done. by apply IH.
Qed.

(** ** The candidates *)
Section candidates.
Context (cat : Catalogue) (sort : list PotentialMount → list PotentialMount) (now minFiles minBytes : Z).
Context (library driveName : string) (info : TapeMountDecisionInfo).
Abbreviation eligible' := (eligible cat minFiles minBytes now library driveName info).
Abbreviation weighed' := (weighed driveName info).
Definition candidates (filled : list PotentialMount) : list PotentialMount := weighed' <$> filter eligible' filled.

Lemma consider_exact vos g m x :
  (∀ p v, vos !! p = Some v → cat_getVirtualOrganizationOfTapepool cat p = Ok v) → adds cat (others driveName info) nothing_gathered g →
  (pm_type m = Retrieve → pm_logicalLibrary m = library) →
  consider now minFiles minBytes vos g m = Ok x → x = if decide (eligible' m) then Some (weighed' m) else None.
Proof.
  intros Hvos [Hp Ha Hv _ _] Hlib. unfold consider, map_at. destruct (vos !! pm_tapePool m) as [vo|] eqn:E; [|done]. unfold mbind, result_bind. cbv beta zeta iota.
  rewrite Hp, Hv. assert (Hs : (if decide (is_archive m)
      then totalMounts (counts_at (pm_tapePool m, pm_type m) (perTapepool nothing_gathered))
           + number (λ em, em_tapePool em = pm_tapePool m ∧ em_type em = pm_type m) (others driveName info) else 0) = sharing driveName info m).
  { unfold sharing. by case_decide. }
  rewrite Hs. assert (He : eligible' m ↔
      negb (passes_criteria now minFiles minBytes (sharing driveName info m) m)
      || (max_drives vo (pm_type m) <=? totalMounts (counts_at (vo_name vo, getMountBasicType (pm_type m)) (perVo nothing_gathered))
           + number (works_for cat (vo_name vo) (getMountBasicType (pm_type m))) (others driveName info)) || pm_sleepingMount m = false).
  { unfold eligible. rewrite (Hvos _ _ E), !orb_false_iff, negb_false_iff, Z.leb_gt. unfold vo_mounts. simpl (totalMounts _). rewrite Z.add_0_l. tauto. }
  match goal with |- (if ?b then _ else _) = _ → _ => destruct b eqn:Hb end; intros [= <-]; [rewrite decide_False; [done|rewrite He; congruence]|rewrite decide_True by (by apply He)].
  unfold weighed. do 2 f_equal. destruct (pm_activity m) as [a|]; [|done]. simpl. by rewrite Ha.
Qed.

Lemma consider_all vos g filled kept :
  (∀ p v, vos !! p = Some v → cat_getVirtualOrganizationOfTapepool cat p = Ok v) → adds cat (others driveName info) nothing_gathered g →
  omapM (consider now minFiles minBytes vos g) (in_library library filled) = Ok kept → kept = candidates filled.
Proof.
  intros Hvos Hg. unfold candidates, in_library. revert kept. induction filled as [|m l IH]; intros kept; [by intros [= <-]|].
  rewrite !filter_cons. destruct (decide (¬ (pm_type m = Retrieve ∧ pm_logicalLibrary m ≠ library))) as [Hm|Hm].
  - simpl. destruct (consider now minFiles minBytes vos g m) as [x|] eqn:E; [|done]. cbn.
    destruct (omapM _ (filter _ l)) as [k|]; [|done]. cbn. intros [= <-]. rewrite (IH k) by done.
    rewrite (consider_exact vos g m x) by (done || destruct (decide (pm_logicalLibrary m = library)); tauto). by case_decide.
  - rewrite (decide_False (P := eligible' m)); [by apply IH|]. intros [Hl _]. tauto.
Qed.

(** What is left of the candidates, the tapes in use and the tapes that may be written. *)
Lemma sortAndGetTapes_exact info' g :
  Z.of_nat (length (existingOrNextMounts info)) < 2 ^ 32 →
  sortAndGetTapesForMountInfo cat sort now minFiles minBytes info library driveName nothing_gathered = Ok (info', g) →
  ∃ filled tapes, fill_tapes cat (potentialMounts info) = Ok filled ∧ potentialMounts info' = reverse (sort (candidates filled)) ∧
    tapesInUse g = used_tapes driveName info ∧ tapeList g = filter (λ t, tw_vid t ∉ used_tapes driveName info) tapes ∧
    (if decide (Exists is_archive (potentialMounts info')) then cat_getTapesForWriting cat library = Ok tapes else tapes = []).
Proof.
  intros Hn. unfold sortAndGetTapesForMountInfo. destruct (fill_tapes cat _) as [filled|]; [|done]. cbn.
  destruct (get_vos cat _) as [vos|] eqn:Ev; [|done]. cbn. destruct (count_mounts driveName vos _ _) as [g1|] eqn:Ec; [|done]. cbn.
  destruct (omapM _ _) as [kept|] eqn:Ek; [|done]. cbn.
  assert (Hvos : ∀ p v, vos !! p = Some v → cat_getVirtualOrganizationOfTapepool cat p = Ok v) by (intros p v; by eapply get_vos_catalogue).
  assert (Hg : adds cat (others driveName info) nothing_gathered g1) by (apply (count_mounts_adds cat vos); [done|by apply room_nothing|done]).
  rewrite (consider_all vos g1 filled kept) by done.
  destruct Hg as [_ _ _ Ht Hl]. unfold get_tapes_for_writing. case_decide as Hd.
  - destruct (cat_getTapesForWriting cat library) as [tapes|]; [|done]. cbn. intros [= <- <-]. exists filled, tapes. simpl.
    rewrite decide_True by done. rewrite Ht. simpl. by rewrite (right_id_L ∅ (∪)).
  - cbn. intros [= <- <-]. exists filled, []. simpl. rewrite decide_False by done. rewrite Ht, Hl. simpl. by rewrite (right_id_L ∅ (∪)).
Qed.
End candidates.

(** ** When the catalogue answers *)
Section answers.
Context (cat : Catalogue) (library : string) (info : TapeMountDecisionInfo).
(** The catalogue knows the tapes, the virtual organisation of every tape pool of a
    candidate or of an existing mount, and the tapes of the library. *)
Record answers (filled : list PotentialMount) (tapes : list TapeForWriting) : Prop := {
  answers_filled : fill_tapes cat (potentialMounts info) = Ok filled;
  answers_vo : ∀ p, p ∈ tapepools (in_library library filled) (existingOrNextMounts info) → ∃ vo, cat_getVirtualOrganizationOfTapepool cat p = Ok vo;
  answers_tapes : cat_getTapesForWriting cat library = Ok tapes
}.

Lemma get_vos_total l : (∀ p, p ∈ l → ∃ vo, cat_getVirtualOrganizationOfTapepool cat p = Ok vo) →
  ∃ vos, get_vos cat l = Ok vos ∧ ∀ p, p ∈ l → is_Some (vos !! p).
Proof.
  induction l as [|p l IH]; intros Hl; [by exists ∅; split; [|intros p ?%not_elem_of_nil]|].
  destruct (Hl p) as [vo Hvo]; [left|]. destruct IH as (vos & E & Hv); [intros q Hq; apply Hl; by right|].
  exists (<[p := vo]> vos). simpl. rewrite Hvo, E. split; [done|]. intros q. rewrite elem_of_cons, lookup_insert_is_Some'. naive_solver.
Qed.
Lemma count_mounts_total driveName vos ems g : (∀ em, em ∈ ems → is_Some (vos !! em_tapePool em)) → is_ok (count_mounts driveName vos ems g).
Proof.
  revert g. induction ems as [|em l IH]; intros g Hl; [done|]. simpl. case_decide; [apply IH; intros; apply Hl; by right|].
  unfold count_existing, map_at. destruct (Hl em) as [vo ->]; [left|]. apply IH. intros; apply Hl; by right.
Qed.
Lemma omapM_total {A B} (f : A → result (option B)) l : (∀ a, a ∈ l → is_ok (f a)) → is_ok (omapM f l).
Proof.
  induction l as [|a l IH]; intros Hl; [done|]. simpl. pose proof (Hl a ltac:(left)) as Ha. destruct (f a); [|done].
  cbn. destruct (omapM f l); [done|]. apply IH. intros; apply Hl; by right.
Qed.
Lemma sortAndGetTapes_total sort now minFiles minBytes driveName filled tapes :
  answers filled tapes →
  ∃ info' g, sortAndGetTapesForMountInfo cat sort now minFiles minBytes info library driveName nothing_gathered = Ok (info', g).
Proof.
  intros [Hf Hv Ht]. unfold sortAndGetTapesForMountInfo. rewrite Hf. cbn.
  set (l := in_library library filled) in *.
  destruct (get_vos_total (set_iter (tapepools l (existingOrNextMounts info)))) as (vos & -> & Hvos); [intros p; rewrite elem_of_set_iter; apply Hv|]. cbn.
  pose proof (count_mounts_total driveName vos (existingOrNextMounts info) nothing_gathered) as Hc.
  destruct (count_mounts driveName vos _ _) as [g1|]; [|exfalso; apply Hc; intros em Hem; apply Hvos, elem_of_set_iter; unfold tapepools; set_solver]. cbn.
  pose proof (omapM_total (consider now minFiles minBytes vos g1) l) as Hk.
  destruct (omapM _ l) as [kept|]; [|exfalso; apply Hk; intros m Hm].
  - cbn. unfold get_tapes_for_writing. rewrite Ht. destruct (decide _); cbn; eauto.
  - unfold consider, map_at. destruct (Hvos (pm_tapePool m)) as [vo ->]; [apply elem_of_set_iter; unfold tapepools; set_solver|].
    unfold mbind, result_bind. by repeat case_match.
Qed.
End answers.

(** ** Sorting *)

(** A list on which the comparison is a strict weak order, the condition of [std::sort]. *)
Definition weakly_ordered (l : list PotentialMount) : Prop :=
  ∀ a b c, a ∈ l → b ∈ l → c ∈ l →
    (pm_less a b = true → pm_less b c = true → pm_less a c = true) ∧ (equivalent a b → equivalent b c → equivalent a c).
#[export] Instance equivalent_dec a b : Decision (equivalent a b).
Proof. unfold equivalent. apply _. Defined.
Lemma weakly_ordered_Forall l : Forall (λ a, Forall (λ b, Forall (λ c,
    (pm_less a b = true → pm_less b c = true → pm_less a c = true) ∧ (equivalent a b → equivalent b c → equivalent a c)) l) l) l → weakly_ordered l.
Proof.
  intros Hl a b c Ha Hb Hc. rewrite Forall_forall in Hl. specialize (Hl a Ha). rewrite Forall_forall in Hl. specialize (Hl b Hb).
  rewrite Forall_forall in Hl. by apply Hl.
Qed.
(** What [std::sort] promises. *)
Definition sorts (sort : list PotentialMount → list PotentialMount) : Prop :=
  ∀ l, weakly_ordered l → sort l ≡ₚ l ∧ StronglySorted (λ a b, pm_less b a = false) (sort l).

Lemma StronglySorted_reverse {A} (R : A → A → Prop) l : StronglySorted R l → StronglySorted (λ a b, R b a) (reverse l).
Proof.
  induction 1 as [|x l Hs IH Hx]; [constructor|]. rewrite reverse_cons.
  apply StronglySorted_app_2; [|done|repeat constructor].
  intros a b Ha ->%list_elem_of_singleton. rewrite elem_of_reverse in Ha. rewrite Forall_forall in Hx. by apply Hx.
Qed.

(** ** Attempts *)
Inductive Choice := OnTape (m : PotentialMount) (t : TapeForWriting) | OnVid (m : PotentialMount).
Definition mount_of (c : Choice) : PotentialMount := match c with OnTape m _ | OnVid m => m end.

Section attempts.
Context {S AM RM : Type} `{SchedulerDatabase S AM RM} (hostName library driveName : string) (now : Z).
Definition create (c : Choice) : M S (TapeMount AM RM) :=
  match c with
  | OnTape m t => a ← db_createArchiveMount (archive_request now hostName library driveName m t); mret (ForArchive (mkArchiveMount a true))
  | OnVid m => r ← db_createRetrieveMount (retrieve_request now hostName library driveName m); mret (ForRetrieve (mkRetrieveMount r true true true))
  end.
(** The attempts of a list of mounts, in order. *)
Definition attempts_of (g : Gathered) (m : PotentialMount) : list Choice :=
  if decide (is_archive m) then OnTape m <$> filter (λ t, tw_tapePool t = pm_tapePool m) (tapeList g)
  else if decide (pm_type m = Retrieve) then if decide (pm_vid m ∈ tapesInUse g) then [] else [OnVid m]
  else [].
Definition attempts (g : Gathered) (l : list PotentialMount) : list Choice := l ≫= attempts_of g.
(** The first that succeeds. *)
Fixpoint first_created (l : list Choice) : M S (option (TapeMount AM RM)) :=
  match l with
  | [] => mret None
  | c :: l' => r ← try_create (create c); match r with Some x => mret (Some x) | None => first_created l' end
  end.
(** Attempts that all fail, one after the other. *)
Inductive refused : list Choice → S → S → Prop :=
  | refused_nil s : refused [] s s
  | refused_cons c l s s1 s2 e : create c s = (Throw e, s1) → refused l s1 s2 → refused (c :: l) s s2.

Lemma try_create_ok {A} (m : M S A) s a s' : m s = (Ok a, s') → try_create m s = (Ok (Some a), s').
Proof. intros E. unfold try_create. apply catch_ok. by mstep E. Qed.
Lemma try_create_throw {A} (m : M S A) s e s' : m s = (Throw e, s') → try_create m s = (Ok None, s').
Proof. intros E. unfold try_create. by rewrite (catch_throw _ _ s e s' (mret None)) by (done || by rewrite (bind_throw _ _ _ _ _ E)). Qed.

Lemma first_created_spec l s :
  (∃ s', first_created l s = (Ok None, s') ∧ refused l s s') ∨
  (∃ pre c post x s1 s', l = pre ++ c :: post ∧ refused pre s s1 ∧ create c s1 = (Ok x, s') ∧ first_created l s = (Ok (Some x), s')).
Proof.
  revert s. induction l as [|c l IH]; intros s; [left; exists s; split; [done|constructor]|]. simpl.
  destruct (create c s) as [[x|e] s1] eqn:E.
  - right. exists [], c, l, x, s, s1. split_and!; [done|constructor|done|]. by mstep (try_create_ok _ _ _ _ E).
  - mstep (try_create_throw _ _ _ _ E). destruct (IH s1) as [(s' & H1 & H2)|(pre & c' & post & x & s2 & s' & -> & H2 & H3 & H4)].
    + left. exists s'. split; [done|by econstructor].
    + right. exists (c :: pre), c', post, x, s2, s'. split_and!; [done|by econstructor|done|done].
Qed.

Lemma first_created_app l k s :
  first_created (l ++ k) s = (r ← first_created l; match r with Some x => mret (Some x) | None => first_created k end) s.
Proof.
  revert s. induction l as [|c l IH]; intros s; [done|]. simpl. unfold mbind, M_bind in *.
  destruct (try_create (create c) s) as [[[x|]|e] s']; [done| |done]. apply IH.
Qed.
Lemma try_tapes_attempts m tapes s :
  try_tapes now hostName library driveName m tapes s = first_created (OnTape m <$> filter (λ t, tw_tapePool t = pm_tapePool m) tapes) s.
Proof.
  revert s. induction tapes as [|t l IH]; intros s; [done|]. rewrite filter_cons. simpl. case_decide; [|apply IH]. simpl.
  unfold mbind, M_bind, try_create, catch, mret, M_ret. unfold mbind, M_bind.
  destruct (db_createArchiveMount _ s) as [[a|e] s']; [done|apply IH].
Qed.
Lemma try_mounts_attempts g l s :
  Forall (λ m, is_archive m ∨ pm_type m = Retrieve) l →
  try_mounts now hostName library driveName g l s = first_created (attempts g l) s.
Proof.
  intros Hl. revert s. induction Hl as [|m l Hm Hl IH]; intros s; [done|]. simpl try_mounts. unfold attempts. rewrite bind_cons.
  change (l ≫= attempts_of g) with (attempts g l). unfold attempts_of at 1.
  destruct (decide (is_archive m)) as [Ha|Ha].
  - rewrite first_created_app. unfold mbind, M_bind. rewrite try_tapes_attempts.
    destruct (first_created _ s) as [[[x|]|e] s']; [done|apply IH|done].
  - destruct Hm as [Hm|Hm]; [done|]. rewrite !(decide_True (P := pm_type m = Retrieve)) by done.
    case_decide; [apply IH|]. simpl. unfold mbind, M_bind, try_create, catch, mret, M_ret. unfold mbind, M_bind.
    destruct (db_createRetrieveMount _ s) as [[a|e] s']; [done|apply IH].
Qed.
Lemma find_mount_attempts g l : find_mount g l = match attempts g l with [] => false | _ => true end.
Proof.
  induction l as [|m l IH]; [done|]. simpl find_mount. unfold attempts. rewrite bind_cons. change (l ≫= attempts_of g) with (attempts g l).
  unfold attempts_of at 1. destruct (decide (is_archive m)).
  - destruct (filter (λ t, tw_tapePool t = pm_tapePool m) (tapeList g)) as [|t k] eqn:E.
    + rewrite decide_False; [apply IH|]. intros (t & Ht & Hp)%Exists_exists. by apply (filter_nil_not_elem_of _ _ t E).
    + rewrite decide_True; [done|]. assert (Hi : t ∈ filter (λ t, tw_tapePool t = pm_tapePool m) (tapeList g)) by (rewrite E; left).
      apply list_elem_of_filter in Hi. apply Exists_exists. naive_solver.
  - case_decide; [|done]. by case_decide.
Qed.
End attempts.

(** ** The choices there are *)
Section choices.
Context (cat : Catalogue) (sort : list PotentialMount → list PotentialMount) (now minFiles minBytes : Z).
Context (library driveName : string) (info : TapeMountDecisionInfo) (filled : list PotentialMount) (tapes : list TapeForWriting).
Abbreviation candidates' := (candidates cat now minFiles minBytes library driveName info filled).

(** A candidate with a tape of its pool that no other drive uses. *)
Definition possible (c : Choice) : Prop :=
  mount_of c ∈ candidates' ∧
  match c with
  | OnTape m t => is_archive m ∧ t ∈ tapes ∧ tw_tapePool t = pm_tapePool m ∧ (tw_vid t ∉ used_tapes driveName info)
  | OnVid m => pm_type m = Retrieve ∧ (pm_vid m ∉ used_tapes driveName info)
  end.
Definition not_better (c d : Choice) : Prop := pm_less (mount_of c) (mount_of d) = false.

Lemma candidate_type m : m ∈ candidates' → is_archive m ∨ pm_type m = Retrieve.
Proof.
  unfold candidates. intros (m0 & -> & Hm)%list_elem_of_fmap. apply list_elem_of_filter in Hm as [(_ & Hv & _) _].
  destruct (cat_getVirtualOrganizationOfTapepool _ _) as [vo|]; [|done]. unfold weighed, set_weights, is_archive, max_drives in *. simpl.
  pose proof (number_range (works_for cat (vo_name vo) (getMountBasicType (pm_type m0))) (others driveName info)) as Hn. unfold vo_mounts in Hv.
  destruct (pm_type m0); simpl in *; try tauto; lia.
Qed.
Lemma attempts_of_sorted g l : StronglySorted (λ a b, pm_less a b = false) l → StronglySorted not_better (attempts g l).
Proof.
  assert (Hm : ∀ m c, c ∈ attempts_of g m → mount_of c = m).
  { intros m c. unfold attempts_of. repeat case_decide; rewrite ?list_elem_of_fmap, ?list_elem_of_singleton, ?elem_of_nil; naive_solver. }
  induction 1 as [|m l Hs IH Hl]; [constructor|]. unfold attempts. rewrite bind_cons. apply StronglySorted_app_2; [| |done].
  - intros c d Hc (m' & Hd & Hm')%list_elem_of_bind. unfold not_better. rewrite (Hm m c), (Hm m' d) by done. rewrite Forall_forall in Hl. by apply Hl.
  - assert (Hall : ∀ c, c ∈ attempts_of g m → mount_of c = m) by apply Hm. revert Hall. generalize (attempts_of g m) as k.
    induction k as [|c k IHk]; intros Hall; constructor; [apply IHk; intros; apply Hall; by right|].
    apply Forall_forall. intros d Hd. unfold not_better. rewrite (Hall c), (Hall d) by (by left || by right). apply less_irrefl.
Qed.

Lemma attempts_exact info' g :
  Z.of_nat (length (existingOrNextMounts info)) < 2 ^ 32 → sorts sort → weakly_ordered candidates' → answers cat library info filled tapes →
  sortAndGetTapesForMountInfo cat sort now minFiles minBytes info library driveName nothing_gathered = Ok (info', g) →
  (∀ c, c ∈ attempts g (potentialMounts info') ↔ possible c) ∧ StronglySorted not_better (attempts g (potentialMounts info')) ∧
  Forall (λ m, is_archive m ∨ pm_type m = Retrieve) (potentialMounts info').
Proof.
  intros Hn Hsort Hw [Hf _ Ht] E. destruct (sortAndGetTapes_exact _ _ _ _ _ _ _ _ _ _ Hn E) as (filled' & tapes' & Hf' & Hp & Hu & Hl & Hx).
  rewrite Hf in Hf'. injection Hf' as <-. destruct (Hsort _ Hw) as [Hperm Hss].
  assert (Hin : ∀ m, m ∈ potentialMounts info' ↔ m ∈ candidates') by (intros m; by rewrite Hp, elem_of_reverse, Hperm).
  split_and!.
  - intros c. unfold attempts. rewrite list_elem_of_bind. unfold possible, attempts_of. rewrite Hu, Hl. split.
    + intros (m & Hc & Hm). destruct (decide (is_archive m)) as [Ha|Ha].
      * rewrite decide_True in Hx by (apply Exists_exists; eauto). apply list_elem_of_fmap in Hc as (t & -> & Hc).
        rewrite !list_elem_of_filter in Hc. rewrite Ht in Hx. simplify_eq. apply Hin in Hm. simpl. naive_solver.
      * clear Hx. apply Hin in Hm. repeat case_decide; try by apply not_elem_of_nil in Hc. apply list_elem_of_singleton in Hc as ->. simpl. naive_solver.
    + intros [Hm%Hin Hc]. exists (mount_of c). split; [|done]. destruct c as [m t|m]; simpl in *.
      * destruct Hc as (Ha & Hi & Hq & Hv). rewrite decide_True by done. rewrite decide_True in Hx by (apply Exists_exists; eauto).
        rewrite Ht in Hx. simplify_eq. apply list_elem_of_fmap. exists t. split; [done|]. rewrite !list_elem_of_filter. naive_solver.
      * destruct Hc as [Hr Hv]. rewrite decide_False by (unfold is_archive; by rewrite Hr). rewrite decide_True, decide_False by done. by left.
  - apply attempts_of_sorted. rewrite Hp. by apply (StronglySorted_reverse (λ a b, pm_less b a = false)).
  - apply Forall_forall. intros m Hm. apply candidate_type. by apply Hin.
Qed.
End choices.

(** ** The mount that is created *)
Section next_mount.
Context (cat : Catalogue) (sort : list PotentialMount → list PotentialMount) (now minFiles minBytes : Z).
Context {S AM RM : Type} `{SchedulerDatabase S AM RM} (hostName library driveName : string).
Abbreviation next_mount := (getNextMount cat sort now minFiles minBytes hostName library driveName).
Abbreviation dry_run := (getNextMountDryRun cat sort now minFiles minBytes library driveName).

(** What the scheduler reads before it chooses. *)
Record prepared (s s' : S) (info : TapeMountDecisionInfo) (filled : list PotentialMount) (tapes : list TapeForWriting) : Prop := {
  prepared_sort : sorts sort;
  prepared_library : library_usable cat library = Ok true;
  prepared_info : ∃ s1, db_getMountInfo s = (Ok info, s1) ∧ (if queueTrimRequired info then db_trimEmptyQueues s1 = (Ok tt, s') else s' = s1);
  prepared_answers : answers cat library info filled tapes;
  prepared_few : Z.of_nat (length (existingOrNextMounts info)) < 2 ^ 32;
  prepared_order : weakly_ordered (candidates cat now minFiles minBytes library driveName info filled)
}.
Abbreviation possible' := (possible cat now minFiles minBytes library driveName).

Lemma next_mount_run s s' info filled tapes :
  prepared s s' info filled tapes →
  ∃ l, next_mount s = first_created hostName library driveName now l s' ∧ (∀ c, c ∈ l ↔ possible' info filled tapes c) ∧ StronglySorted not_better l.
Proof.
  intros [Hs Hl (s1 & Hi & Ht) Ha Hn Hw]. destruct (sortAndGetTapes_total cat library info sort now minFiles minBytes driveName filled tapes Ha) as (info' & g & E).
  destruct (attempts_exact _ _ _ _ _ _ _ _ _ _ _ _ Hn Hs Hw Ha E) as (Hp & Hss & Hf).
  exists (attempts g (potentialMounts info')). split_and!; [|done|done].
  unfold getNextMount. rewrite Hl, bind_lift. cbn [negb]. mstep Hi.
  assert (Htrim : (if queueTrimRequired info then db_trimEmptyQueues else mret tt) s1 = (Ok tt, s')) by (destruct (queueTrimRequired info); [done|by subst]).
  mstep Htrim. rewrite E, bind_lift. by apply try_mounts_attempts.
Qed.

(** C25: The next mount.  When the database and the catalogue answer, the scheduler
    tries choices of an eligible mount and a free tape one after the other.  It returns
    a mount that it created for such a choice after every better one was refused, or no
    mount after all the choices there are were refused; nothing escapes. *)
Theorem next_mount_best s s' info filled tapes :
  prepared s s' info filled tapes →
  ∃ tried s1 r s2, next_mount s = (Ok r, s2) ∧ refused hostName library driveName now tried s' s1 ∧
    Forall (possible' info filled tapes) tried ∧ StronglySorted not_better tried ∧
    match r with
    | None => s2 = s1 ∧ ∀ c, possible' info filled tapes c → c ∈ tried
    | Some x => ∃ c, possible' info filled tapes c ∧ create hostName library driveName now c s1 = (Ok x, s2) ∧
        ∀ d, possible' info filled tapes d → pm_less (mount_of c) (mount_of d) = true → d ∈ tried
    end.
Proof.
  intros Hp. destruct (next_mount_run s s' info filled tapes Hp) as (l & -> & Hl & Hs).
  destruct (first_created_spec hostName library driveName now l s') as [(s2 & -> & Hr)|(pre & c & post & x & s1 & s2 & -> & Hr & Hc & ->)].
  - exists l, s2, None, s2. split_and!; [done|done|by apply Forall_forall; intros c Hc; apply Hl|done|done|by intros c; rewrite Hl].
  - apply StronglySorted_app in Hs as (Hx & Hpre & Hpost). exists pre, s1, (Some x), s2. split_and!; [done|done| |done|].
    + apply Forall_forall. intros d Hd. apply Hl, elem_of_app. by left.
    + exists c. split_and!; [apply Hl, elem_of_app; right; left|done|]. intros d Hd Hb. apply Hl in Hd.
      apply elem_of_app in Hd as [Hd|[->|Hd]%elem_of_cons]; [done|by rewrite less_irrefl in Hb|].
      inversion Hpost as [|? ? _ Hall]; subst. rewrite Forall_forall in Hall. specialize (Hall d Hd). unfold not_better in Hall. congruence.
Qed.

(** C30: The dry run answers yes exactly when the scheduler would have a choice to try with
    the same information: an eligible mount and a free tape for it.  It changes nothing
    in the database beyond reading the information. *)
Theorem dry_run_exact s s1 info filled tapes :
  sorts sort → library_usable cat library = Ok true → db_getMountInfoNoLock GET_NEXT_MOUNT s = (Ok info, s1) →
  answers cat library info filled tapes → Z.of_nat (length (existingOrNextMounts info)) < 2 ^ 32 →
  weakly_ordered (candidates cat now minFiles minBytes library driveName info filled) →
  ∃ b, dry_run s = (Ok b, s1) ∧ (b = true ↔ ∃ c, possible' info filled tapes c).
Proof.
  intros Hs Hl Hi Ha Hn Hw. destruct (sortAndGetTapes_total cat library info sort now minFiles minBytes driveName filled tapes Ha) as (info' & g & E).
  destruct (attempts_exact _ _ _ _ _ _ _ _ _ _ _ _ Hn Hs Hw Ha E) as (Hp & _ & _).
  exists (find_mount g (potentialMounts info')). split.
  - unfold getNextMountDryRun. rewrite Hl, bind_lift. cbn [negb]. mstep Hi. by rewrite E, bind_lift.
  - rewrite find_mount_attempts. destruct (attempts g (potentialMounts info')) as [|c l] eqn:Ea.
    + split; [done|]. intros (c & Hc). apply Hp in Hc. by apply not_elem_of_nil in Hc.
    + split; [intros _|done]. exists c. apply Hp. by left.
Qed.

(** A choice for a potential mount [m] of the database, which [m'] is with the data of
    its tape: it is not asleep, its virtual organisation has fewer mounts on the other
    drives than it may use, enough is queued or waiting for it, and the tape is in no other
    drive: for an archive one of the pool that may be written, for a retrieve the tape of
    the mount, which the catalogue has in the library of the drive. *)
Definition allowed (info : TapeMountDecisionInfo) (tapes : list TapeForWriting) (c : Choice) : Prop :=
  ∃ m m' vo, m ∈ potentialMounts info ∧ cat_getVirtualOrganizationOfTapepool cat (pm_tapePool (mount_of c)) = Ok vo ∧
    pm_type (mount_of c) = pm_type m ∧ pm_vid (mount_of c) = pm_vid m ∧ pm_sleepingMount m = false ∧
    vo_mounts cat driveName info (vo_name vo) (getMountBasicType (pm_type m)) < max_drives vo (pm_type m) ∧
    mount_of c = weighed driveName info m' ∧ passes_criteria now minFiles minBytes (sharing driveName info m') m' = true ∧
    match c with
    | OnTape _ t => t ∈ tapes ∧ tw_tapePool t = pm_tapePool m ∧ (tw_vid t ∉ used_tapes driveName info)
    | OnVid _ => (pm_vid m ∉ used_tapes driveName info) ∧
        ∃ infos, cat_getTapesByVid cat (retrieve_tapes (potentialMounts info)) = Ok infos ∧
          ti_logicalLibraryName (default no_tape_info (infos !! pm_vid m)) = library
    end.

Lemma possible_allowed info filled tapes c :
  fill_tapes cat (potentialMounts info) = Ok filled → possible' info filled tapes c → allowed info tapes c.
Proof.
  intros Hf [Hc Hm]. unfold candidates in Hc. apply list_elem_of_fmap in Hc as (m' & Ew & Hm'). apply list_elem_of_filter in Hm' as [(Hlib & Hv & Hsl & Hcr) Hm'].
  assert (Hex : ∃ m, m ∈ potentialMounts info ∧ pm_type m' = pm_type m ∧ pm_vid m' = pm_vid m ∧ pm_sleepingMount m' = pm_sleepingMount m ∧
    (pm_type m ≠ Retrieve → pm_tapePool m' = pm_tapePool m) ∧ (pm_type m = Retrieve → ∃ infos,
      cat_getTapesByVid cat (retrieve_tapes (potentialMounts info)) = Ok infos ∧ pm_logicalLibrary m' = ti_logicalLibraryName (default no_tape_info (infos !! pm_vid m)))).
  { revert Hf. unfold fill_tapes. case_decide as Hempty.
    - intros [= <-]. exists m'. split_and!; try done. intros Hr. exfalso. assert (Hi : pm_vid m' ∈ retrieve_tapes (potentialMounts info)).
      { unfold retrieve_tapes. apply elem_of_list_to_set, list_elem_of_fmap. exists m'. split; [done|]. by apply list_elem_of_filter. }
      rewrite Hempty in Hi. set_solver.
    - destruct (cat_getTapesByVid _ _) as [infos|]; [|done]. cbn. intros [= <-]. apply list_elem_of_fmap in Hm' as (m & -> & Hm'). exists m.
      case_decide; split_and!; try done. intros _. by exists infos. }
  destruct Hex as (m & Hin & Ht & Hvid & Hsm & Hpool & Hret). unfold allowed. rewrite Ew.
  destruct (cat_getVirtualOrganizationOfTapepool cat (pm_tapePool m')) as [vo|] eqn:Evo; [|done].
  exists m, m', vo. rewrite <-Ht, <-Hvid, <-Hsm. split_and!; try done. destruct c as [m1 t|m1]; simpl in Ew, Hm; subst m1.
  - destruct Hm as (Ha & Hi & Hq & Hu). split_and!; try done. rewrite Hq. simpl. apply Hpool. rewrite <-Ht. intros Hr. unfold is_archive in Ha. simpl in Ha. by rewrite Hr in Ha.
  - destruct Hm as [Hr Hu]. simpl in Hr, Hu. split; [done|]. destruct Hret as (infos & Hi & Hlb); [congruence|]. exists infos. split; [done|].
    rewrite Hvid, <-Hlb. by apply Hlib.
Qed.

(** C32: A candidate that may not be mounted is never mounted.  Whatever [getNextMount]
    returns, each request that it sends to the database, those that are refused and
    the one that gives the mount it returns, is for an allowed choice: a potential
    mount that is not asleep, within the quota of its virtual organisation, with enough
    queued or waiting, on a tape that is in no other drive and, for a retrieve, in the
    library of the drive. *)
Theorem choice_is_allowed s s' info filled tapes r s2 :
  prepared s s' info filled tapes → next_mount s = (r, s2) →
  ∃ tried s1, refused hostName library driveName now tried s' s1 ∧ Forall (allowed info tapes) tried ∧
    match r with
    | Ok (Some x) => ∃ c, allowed info tapes c ∧ create hostName library driveName now c s1 = (Ok x, s2)
    | Ok None => s2 = s1
    | Throw _ => False
    end.
Proof.
  intros Hp E. pose proof (answers_filled _ _ _ _ _ (prepared_answers _ _ _ _ _ Hp)) as Hf.
  destruct (next_mount_run s s' info filled tapes Hp) as (l & El & Hl & _). rewrite El in E.
  assert (Hall : Forall (allowed info tapes) l).
  { apply Forall_forall. intros c Hc%Hl. by apply (possible_allowed info filled). }
  destruct (first_created_spec hostName library driveName now l s') as [(s3 & E' & Hr)|(pre & c & post & x & s1 & s3 & -> & Hr & Hc & E')];
    rewrite E' in E; injection E as <- <-.
  - by exists l, s3.
  - apply Forall_app in Hall as [Hpre [Hc' _]%Forall_cons]. exists pre, s1. split_and!; try done. by exists c.
Qed.
End next_mount.
