(* ===== verification/DriveStates.v ===== *)
(** * States of the drives

    Model of [common/dataStructures/TapeDrive.hpp], of how the catalogue stores it
    ([createTapeDrive], [modifyTapeDrive], [getTapeDrive] and the like of
    [catalogue/RdbmsCatalogue.cpp]) and of [scheduler/TapeDrivesCatalogueState.cpp], the
    state machine of a drive that is kept in the catalogue.

    The members of [TapeDrive] are grouped in records.  The same records hold the
    structure, whose members are optional, and the row of the table, whose columns are
    strings and numbers.  The database is an interface with the statements used. *)
From Stdlib Require String.
From Stdlib Require Import Floats.SpecFloat.
From S2P Require Import Prelude DataTypes Mounts.

(** ** Status of a drive *)
Inductive DriveStatus :=
  | Down | Up | Probing | Starting | Mounting | Transferring | Unloading | Unmounting | DrainingToDisk | CleaningUp | Shutdown | Unknown.
#[export] Instance DriveStatus_eq_dec : EqDecision DriveStatus.
Proof. solve_decision. Defined.
Definition STATE_TO_STRING_MAP : list (DriveStatus * string) :=
  [(Unknown, "UNKNOWN"); (Down, "DOWN"); (Up, "UP"); (Probing, "PROBING"); (Starting, "STARTING"); (Mounting, "MOUNTING");
   (Transferring, "TRANSFERING"); (Unloading, "UNLOADING"); (Unmounting, "UNMOUNTING"); (DrainingToDisk, "DRAININGTODISK");
   (CleaningUp, "CLEANINGUP"); (Shutdown, "SHUTDOWN")].
Definition stateToString (s : DriveStatus) : result string :=
  match list_find (λ p, p.1 = s) STATE_TO_STRING_MAP with Some (_, p) => Ok p.2 | None => Throw (Exception "The state given does not exist.") end.
Definition toupper (c : Ascii.ascii) : Ascii.ascii :=
  let n := Ascii.nat_of_ascii c in if (97 <=? n)%nat && (n <=? 122)%nat then Ascii.ascii_of_nat (n - 32) else c.
Fixpoint toUpper (s : string) : string :=
  match s with "" => "" | String.String c s' => String.String (toupper c) (toUpper s') end.
Definition stringToState (s : string) : result DriveStatus :=
  match list_find (λ p, p.2 = toUpper s) STATE_TO_STRING_MAP with
  | Some (_, p) => Ok p.1
  | None => Throw (Exception "The state given does not exist. Possible values are")
  end.

(** ** The structure and the row *)
Record SessionOf (Str Num : Type) := mkSession { sessionId : Num; bytesTransferedInSession : Num; filesTransferedInSession : Num; latestBandwidth : Str }.
Record TimesOf (Time : Type) := mkTimes {
  sessionStartTime : Time; mountStartTime : Time; transferStartTime : Time; unloadStartTime : Time; unmountStartTime : Time;
  drainingStartTime : Time; downOrUpStartTime : Time; probeStartTime : Time; cleanupStartTime : Time; startStartTime : Time; shutdownTime : Time }.
Record DesiredOf (Str : Type) := mkDesired { desiredUp : bool; desiredForceDown : bool; reasonUpDown : Str }.
Record CurrentOf (Str Num : Type) := mkCurrent {
  currentVid : Str; currentTapePool : Str; currentVo : Str; currentActivity : Str; currentActivityWeight : Str; currentPriority : Num }.
Record NextOf (Str Num Mount : Type) := mkNext {
  nextMountType : Mount; nextVid : Str; nextTapePool : Str; nextVo : Str; nextActivity : Str; nextActivityWeight : Str; nextPriority : Num }.
Record DriveOf (Str Num Time Mount NextMount Status Log : Type) := mkDrive {
  td_driveName : string;
  td_host : string;
  td_logicalLibrary : string;
  td_session : SessionOf Str Num;
  td_times : TimesOf Time;
  td_mountType : Mount;
  td_driveStatus : Status;
  td_desired : DesiredOf Str;
  td_current : CurrentOf Str Num;
  td_next : NextOf Str Num NextMount;
  ctaVersion : Str;
  devFileName : Str;
  rawLibrarySlot : Str;
  diskSystemName : string;
  reservedBytes : Z;
  userComment : Str;
  td_creationLog : Log;
  td_lastModificationLog : Log
}.
Arguments mkSession {Str Num}. Arguments sessionId {Str Num}. Arguments bytesTransferedInSession {Str Num}.
Arguments filesTransferedInSession {Str Num}. Arguments latestBandwidth {Str Num}.
Arguments mkTimes {Time}. Arguments sessionStartTime {Time}. Arguments mountStartTime {Time}. Arguments transferStartTime {Time}.
Arguments unloadStartTime {Time}. Arguments unmountStartTime {Time}. Arguments drainingStartTime {Time}. Arguments downOrUpStartTime {Time}.
Arguments probeStartTime {Time}. Arguments cleanupStartTime {Time}. Arguments startStartTime {Time}. Arguments shutdownTime {Time}.
Arguments mkDesired {Str}. Arguments desiredUp {Str}. Arguments desiredForceDown {Str}. Arguments reasonUpDown {Str}.
Arguments mkCurrent {Str Num}. Arguments currentVid {Str Num}. Arguments currentTapePool {Str Num}. Arguments currentVo {Str Num}.
Arguments currentActivity {Str Num}. Arguments currentActivityWeight {Str Num}. Arguments currentPriority {Str Num}.
Arguments mkNext {Str Num Mount}. Arguments nextMountType {Str Num Mount}. Arguments nextVid {Str Num Mount}. Arguments nextTapePool {Str Num Mount}.
Arguments nextVo {Str Num Mount}. Arguments nextActivity {Str Num Mount}. Arguments nextActivityWeight {Str Num Mount}. Arguments nextPriority {Str Num Mount}.
Arguments mkDrive {Str Num Time Mount NextMount Status Log}.
Arguments td_driveName {Str Num Time Mount NextMount Status Log}. Arguments td_host {Str Num Time Mount NextMount Status Log}.
Arguments td_logicalLibrary {Str Num Time Mount NextMount Status Log}. Arguments td_session {Str Num Time Mount NextMount Status Log}.
Arguments td_times {Str Num Time Mount NextMount Status Log}. Arguments td_mountType {Str Num Time Mount NextMount Status Log}.
Arguments td_driveStatus {Str Num Time Mount NextMount Status Log}. Arguments td_desired {Str Num Time Mount NextMount Status Log}.
Arguments td_current {Str Num Time Mount NextMount Status Log}. Arguments td_next {Str Num Time Mount NextMount Status Log}.
Arguments ctaVersion {Str Num Time Mount NextMount Status Log}. Arguments devFileName {Str Num Time Mount NextMount Status Log}.
Arguments rawLibrarySlot {Str Num Time Mount NextMount Status Log}. Arguments diskSystemName {Str Num Time Mount NextMount Status Log}.
Arguments reservedBytes {Str Num Time Mount NextMount Status Log}. Arguments userComment {Str Num Time Mount NextMount Status Log}.
Arguments td_creationLog {Str Num Time Mount NextMount Status Log}. Arguments td_lastModificationLog {Str Num Time Mount NextMount Status Log}.

Abbreviation TapeDrive := (DriveOf (option string) (option Z) (option Z) MountType (option MountType) DriveStatus (option EntryLog)).
(** A row of TAPE_DRIVE; a log has three columns. *)
Abbreviation DriveRow := (DriveOf string Z Z Z Z string (string * string * Z)).

(** ** Columns *)
(** [setOptionalString], [setOptionalUint64] and [setOptionalTime]. *)
Definition column_string (s : option string) : string :=
  match s with Some x => if decide (x = "") then "NULL" else x | None => "NULL" end.
Definition column_uint64 (n : option Z) : Z := default 0 n.
Definition column_time (t : option Z) : Z := u64 (default 0 t).
Definition column_next_mount (t : option MountType) : Z := match t with Some t => Z.of_nat (MountType_value t) | None => 9999 end.
Definition column_log (l : option EntryLog) : string * string * Z :=
  match l with
  | Some l => (column_string (Some (el_username l)), column_string (Some (el_host l)), u64 (el_time l))
  | None => ("NULL", "NULL", 0)
  end.
(** [bindString] throws on an empty string. *)
Definition bind_string (s : string) : result string := if decide (s = "") then Throw (Exception "Optional string parameter is an empty string.") else Ok s.

(** The values that are bound, with the status as a string. *)
Definition row_of (status : string) (d : TapeDrive) : DriveRow :=
  let s := td_session d in let t := td_times d in let w := td_desired d in let c := td_current d in let n := td_next d in
  mkDrive (td_driveName d) (td_host d) (td_logicalLibrary d)
    (mkSession (column_uint64 (sessionId s)) (column_uint64 (bytesTransferedInSession s)) (column_uint64 (filesTransferedInSession s)) (column_string (latestBandwidth s)))
    (mkTimes (column_time (sessionStartTime t)) (column_time (mountStartTime t)) (column_time (transferStartTime t)) (column_time (unloadStartTime t))
       (column_time (unmountStartTime t)) (column_time (drainingStartTime t)) (column_time (downOrUpStartTime t)) (column_time (probeStartTime t))
       (column_time (cleanupStartTime t)) (column_time (startStartTime t)) (column_time (shutdownTime t)))
    (Z.of_nat (MountType_value (td_mountType d))) status
    (mkDesired (desiredUp w) (desiredForceDown w) (column_string (reasonUpDown w)))
    (mkCurrent (column_string (currentVid c)) (column_string (currentTapePool c)) (column_string (currentVo c)) (column_string (currentActivity c))
       (column_string (currentActivityWeight c)) (column_uint64 (currentPriority c)))
    (mkNext (column_next_mount (nextMountType n)) (column_string (nextVid n)) (column_string (nextTapePool n)) (column_string (nextVo n))
       (column_string (nextActivity n)) (column_string (nextActivityWeight n)) (column_uint64 (nextPriority n)))
    (column_string (ctaVersion d)) (column_string (devFileName d)) (column_string (rawLibrarySlot d)) (diskSystemName d) (reservedBytes d)
    (column_string (userComment d)) (column_log (td_creationLog d)) (column_log (td_lastModificationLog d)).
Definition settingSqlTapeDriveValues (d : TapeDrive) : result DriveRow :=
  _ ← bind_string (td_driveName d);
  _ ← bind_string (td_host d);
  _ ← bind_string (td_logicalLibrary d);
  status ← stateToString (td_driveStatus d);
  _ ← bind_string (diskSystemName d);
  Ok (row_of status d).

(** [checkOptionalString], [checkOptionalUint64], [checkOptionalTime] and the like.  A
    number that is no [MountType] has no value in the model. *)
Definition checkOptionalString (s : string) : option string := if decide (s = "NULL") then None else Some s.
Definition checkOptionalUint64 (n : Z) : option Z := if n =? 0 then None else Some n.
Definition checkOptionalTime (n : Z) : option Z := if n =? 0 then None else Some (s64 n).
Definition mount_type (n : Z) : result MountType :=
  match MountType_of (Z.to_nat n) with Some t => Ok t | None => Throw (Exception "no such MountType") end.
Definition checkOptionalMountType (n : Z) : result (option MountType) := if n =? 9999 then Ok None else t ← mount_type n; Ok (Some t).
Definition setOptionEntryLog (l : string * string * Z) : option EntryLog :=
  let '(username, host, time) := l in if decide (username = "NULL") then None else Some (mkEntryLog username host (s64 time)).

Definition drive_of_row (r : DriveRow) : result TapeDrive :=
  mount ← mount_type (td_mountType r);
  status ← stringToState (td_driveStatus r);
  next ← checkOptionalMountType (nextMountType (td_next r));
  let s := td_session r in let t := td_times r in let w := td_desired r in let c := td_current r in let n := td_next r in
  Ok (mkDrive (td_driveName r) (td_host r) (td_logicalLibrary r)
    (mkSession (checkOptionalUint64 (sessionId s)) (checkOptionalUint64 (bytesTransferedInSession s)) (checkOptionalUint64 (filesTransferedInSession s)) (checkOptionalString (latestBandwidth s)))
    (mkTimes (checkOptionalTime (sessionStartTime t)) (checkOptionalTime (mountStartTime t)) (checkOptionalTime (transferStartTime t)) (checkOptionalTime (unloadStartTime t))
       (checkOptionalTime (unmountStartTime t)) (checkOptionalTime (drainingStartTime t)) (checkOptionalTime (downOrUpStartTime t)) (checkOptionalTime (probeStartTime t))
       (checkOptionalTime (cleanupStartTime t)) (checkOptionalTime (startStartTime t)) (checkOptionalTime (shutdownTime t)))
    mount status
    (mkDesired (desiredUp w) (desiredForceDown w) (checkOptionalString (reasonUpDown w)))
    (mkCurrent (checkOptionalString (currentVid c)) (checkOptionalString (currentTapePool c)) (checkOptionalString (currentVo c)) (checkOptionalString (currentActivity c))
       (checkOptionalString (currentActivityWeight c)) (checkOptionalUint64 (currentPriority c)))
    (mkNext next (checkOptionalString (nextVid n)) (checkOptionalString (nextTapePool n)) (checkOptionalString (nextVo n))
       (checkOptionalString (nextActivity n)) (checkOptionalString (nextActivityWeight n)) (checkOptionalUint64 (nextPriority n)))
    (checkOptionalString (ctaVersion r)) (checkOptionalString (devFileName r)) (checkOptionalString (rawLibrarySlot r)) (diskSystemName r) (reservedBytes r)
    (Some (userComment r)) (setOptionEntryLog (td_creationLog r)) (setOptionEntryLog (td_lastModificationLog r))).

(** ** The table *)
(** The statements on TAPE_DRIVE; [sql_update] returns the number of rows affected.  The
    texts of the insertion, of the update and of the selection name the same 48 columns,
    all those of [DriveRow]. *)
Class DriveTable (S : Type) := {
  sql_insert : DriveRow → M S unit;
  sql_delete : string → M S unit;
  sql_names : M S (list string);
  sql_select : string → M S (option DriveRow);
  sql_update : DriveRow → M S Z
}.
(** What they do, by the primary key of the table. *)
Class DriveTableLaws (S : Type) `{!DriveTable S} := {
  rows : S → gmap string DriveRow;
  sql_insert_new s r : rows s !! td_driveName r = None → ∃ s', sql_insert r s = (Ok tt, s') ∧ rows s' = <[td_driveName r := r]> (rows s);
  sql_insert_exists s r : is_Some (rows s !! td_driveName r) → ∃ e s', sql_insert r s = (Throw e, s') ∧ rows s' = rows s;
  sql_delete_spec s n : ∃ s', sql_delete n s = (Ok tt, s') ∧ rows s' = delete n (rows s);
  sql_names_spec s : ∃ l s', sql_names s = (Ok l, s') ∧ l ≡ₚ elements (dom (rows s)) ∧ rows s' = rows s;
  sql_select_spec s n : ∃ s', sql_select n s = (Ok (rows s !! n), s') ∧ rows s' = rows s;
  sql_update_spec s r : ∃ s', sql_update r s = (Ok (if decide (is_Some (rows s !! td_driveName r)) then 1 else 0), s') ∧
    rows s' = if decide (is_Some (rows s !! td_driveName r)) then <[td_driveName r := r]> (rows s) else rows s
}.

Section catalogue.
Context {S : Type} `{!DriveTable S}.
Definition createTapeDrive (d : TapeDrive) : M S unit := r ← lift (settingSqlTapeDriveValues d); sql_insert r.
Definition deleteTapeDrive (name : string) : M S unit := sql_delete name.
Definition getTapeDriveNames : M S (list string) := sql_names.
Definition getTapeDrive (name : string) : M S (option TapeDrive) :=
  r ← sql_select name;
  match r with Some row => d ← lift (drive_of_row row); mret (Some d) | None => mret None end.
Definition modifyTapeDrive (d : TapeDrive) : M S unit :=
  r ← lift (settingSqlTapeDriveValues d);
  n ← sql_update r;
  if decide (n = 0) then throw (Exception "Cannot modify Tape Drive because it doesn't exist") else mret tt.
End catalogue.

(** ** Conversions of doubles *)

(** The integer part, and the integer nearest to [x * 10^6], half to even. *)
Definition double_trunc (x : double) : Z :=
  match x with
  | S754_finite s m e => let z := Z.shiftl (Zpos m) e in if s then - z else z
  | _ => 0
  end.
Definition rounded (num den : Z) : Z :=
  let q := num / den in
  match 2 * (num mod den) ?= den with Lt => q | Gt => q + 1 | Eq => if Z.even q then q else q + 1 end.
(** [std::to_string], the format [%f]. *)
Definition six_digits (n : Z) : string := String.substring 1 6 (pretty (10 ^ 6 + n)).
Definition double_to_string (x : double) : string :=
  let sign (s : bool) := if s then "-" else "" in
  match x with
  | S754_zero s => sign s +:+ "0.000000"
  | S754_infinity s => sign s +:+ "inf"
  | S754_nan => "nan"
  | S754_finite s m e =>
      let n := if 0 <=? e then Zpos m * 2 ^ e * 10 ^ 6 else rounded (Zpos m * 10 ^ 6) (2 ^ (- e)) in
      sign s +:+ pretty (n / 10 ^ 6) +:+ "." +:+ six_digits (n mod 10 ^ 6)
  end.
(** A double assigned to a string is converted to a character; the conversion is
    undefined outside the range of [char], where the model wraps. *)
Definition string_of_double (x : double) : string := String.String (Ascii.ascii_of_nat (Z.to_nat (double_trunc x mod 256))) "".

(** ** Inputs *)
Record DriveInfo := mkDriveInfo { di_driveName : string; di_host : string; di_logicalLibrary : string }.
Record DesiredDriveState := mkDesiredState { ds_up : bool; ds_forceDown : bool; ds_reason : option string; ds_comment : option string }.
Record ReportDriveStatusInputs := mkStatusInputs {
  in_status : DriveStatus;
  in_mountType : MountType;
  in_reportTime : Z;
  in_mountSessionId : Z;
  in_byteTransferred : Z;
  in_filesTransferred : Z;
  in_latestBandwidth : double;
  in_vid : string;
  in_tapepool : string;
  in_vo : string;
  in_activityAndWeigh : option (string * double);
  in_reason : option string
}.
Record ReportDriveStatsInputs := mkStatsInputs { st_reportTime : Z; st_bytesTransferred : Z; st_filesTransferred : Z }.

(** ** Updates of the structure *)
Section updates.
Implicit Types d : TapeDrive.
Definition touch (i : ReportDriveStatusInputs) d : TapeDrive :=
  mkDrive (td_driveName d) (td_host d) (td_logicalLibrary d) (td_session d) (td_times d) (td_mountType d) (td_driveStatus d) (td_desired d) (td_current d)
    (td_next d) (ctaVersion d) (devFileName d) (rawLibrarySlot d) (diskSystemName d) (reservedBytes d) (userComment d) (td_creationLog d)
    (Some (mkEntryLog "NO_USER" (td_host d) (in_reportTime i))).
Definition set_session (s : SessionOf (option string) (option Z)) d : TapeDrive :=
  mkDrive (td_driveName d) (td_host d) (td_logicalLibrary d) s (td_times d) (td_mountType d) (td_driveStatus d) (td_desired d) (td_current d)
    (td_next d) (ctaVersion d) (devFileName d) (rawLibrarySlot d) (diskSystemName d) (reservedBytes d) (userComment d) (td_creationLog d) (td_lastModificationLog d).
Definition set_times (t : TimesOf (option Z)) d : TapeDrive :=
  mkDrive (td_driveName d) (td_host d) (td_logicalLibrary d) (td_session d) t (td_mountType d) (td_driveStatus d) (td_desired d) (td_current d)
    (td_next d) (ctaVersion d) (devFileName d) (rawLibrarySlot d) (diskSystemName d) (reservedBytes d) (userComment d) (td_creationLog d) (td_lastModificationLog d).
Definition set_status (m : MountType) (s : DriveStatus) d : TapeDrive :=
  mkDrive (td_driveName d) (td_host d) (td_logicalLibrary d) (td_session d) (td_times d) m s (td_desired d) (td_current d)
    (td_next d) (ctaVersion d) (devFileName d) (rawLibrarySlot d) (diskSystemName d) (reservedBytes d) (userComment d) (td_creationLog d) (td_lastModificationLog d).
Definition set_desired (w : DesiredOf (option string)) d : TapeDrive :=
  mkDrive (td_driveName d) (td_host d) (td_logicalLibrary d) (td_session d) (td_times d) (td_mountType d) (td_driveStatus d) w (td_current d)
    (td_next d) (ctaVersion d) (devFileName d) (rawLibrarySlot d) (diskSystemName d) (reservedBytes d) (userComment d) (td_creationLog d) (td_lastModificationLog d).
Definition set_current (c : CurrentOf (option string) (option Z)) d : TapeDrive :=
  mkDrive (td_driveName d) (td_host d) (td_logicalLibrary d) (td_session d) (td_times d) (td_mountType d) (td_driveStatus d) (td_desired d) c
    (td_next d) (ctaVersion d) (devFileName d) (rawLibrarySlot d) (diskSystemName d) (reservedBytes d) (userComment d) (td_creationLog d) (td_lastModificationLog d).
Definition set_place (host library : string) d : TapeDrive :=
  mkDrive (td_driveName d) host library (td_session d) (td_times d) (td_mountType d) (td_driveStatus d) (td_desired d) (td_current d)
    (td_next d) (ctaVersion d) (devFileName d) (rawLibrarySlot d) (diskSystemName d) (reservedBytes d) (userComment d) (td_creationLog d) (td_lastModificationLog d).
Definition set_reservation (disk : string) (bytes : Z) d : TapeDrive :=
  mkDrive (td_driveName d) (td_host d) (td_logicalLibrary d) (td_session d) (td_times d) (td_mountType d) (td_driveStatus d) (td_desired d) (td_current d)
    (td_next d) (ctaVersion d) (devFileName d) (rawLibrarySlot d) disk bytes (userComment d) (td_creationLog d) (td_lastModificationLog d).
Definition set_comment (c : option string) d : TapeDrive :=
  mkDrive (td_driveName d) (td_host d) (td_logicalLibrary d) (td_session d) (td_times d) (td_mountType d) (td_driveStatus d) (td_desired d) (td_current d)
    (td_next d) (ctaVersion d) (devFileName d) (rawLibrarySlot d) (diskSystemName d) (reservedBytes d) c (td_creationLog d) (td_lastModificationLog d).
Definition set_modified (l : option EntryLog) d : TapeDrive :=
  mkDrive (td_driveName d) (td_host d) (td_logicalLibrary d) (td_session d) (td_times d) (td_mountType d) (td_driveStatus d) (td_desired d) (td_current d)
    (td_next d) (ctaVersion d) (devFileName d) (rawLibrarySlot d) (diskSystemName d) (reservedBytes d) (userComment d) (td_creationLog d) l.

Definition no_session (id : Z) : SessionOf (option string) (option Z) := mkSession (Some id) (Some 0) (Some 0) (Some "0").
(** No tape, and the tape of the inputs; the priority stays. *)
Definition no_tape d : CurrentOf (option string) (option Z) := mkCurrent (Some "") (Some "") (Some "") None None (currentPriority (td_current d)).
Definition tape_of (i : ReportDriveStatusInputs) d : CurrentOf (option string) (option Z) :=
  mkCurrent (Some (in_vid i)) (Some (in_tapepool i)) (Some (in_vo i)) (currentActivity (td_current d)) (currentActivityWeight (td_current d)) (currentPriority (td_current d)).
Definition without_activity (c : CurrentOf (option string) (option Z)) : CurrentOf (option string) (option Z) :=
  mkCurrent (currentVid c) (currentTapePool c) (currentVo c) None None (currentPriority c).
(** All the times but [startStartTime]. *)
Definition times_of (session mount transfer unload unmount draining downOrUp probe cleanup shutdown : Z) d : TimesOf (option Z) :=
  mkTimes (Some session) (Some mount) (Some transfer) (Some unload) (Some unmount) (Some draining) (Some downOrUp) (Some probe) (Some cleanup)
    (startStartTime (td_times d)) (Some shutdown).
End updates.

(** ** Changes of status *)
Section changes.
Implicit Types (d : TapeDrive) (i : ReportDriveStatusInputs).

Definition setDriveDown i d : TapeDrive :=
  if decide (td_driveStatus d = Down) then touch i d
  else touch i (set_session (no_session 0) (set_times (times_of 0 0 0 0 0 0 (in_reportTime i) 0 0 0 d)
         (set_status NoMount Down (set_desired (mkDesired false false (in_reason i)) (set_current (no_tape d) d))))).
Definition setDriveUpOrMaybeDown i d : TapeDrive :=
  let d1 := if desiredUp (td_desired d) then d
            else set_status (td_mountType d) Down (set_desired (mkDesired (desiredUp (td_desired d)) (desiredForceDown (td_desired d)) (in_reason i)) d) in
  if decide (td_driveStatus d1 = Up) then touch i d1
  else touch i (set_session (no_session 0) (set_times (times_of 0 0 0 0 0 0 (in_reportTime i) 0 0 0 d1) (set_status NoMount Up (set_current (no_tape d1) d1)))).
Definition setDriveProbing i d : TapeDrive :=
  if decide (td_driveStatus d = in_status i) then touch i d
  else touch i (set_session (no_session 0) (set_times (times_of 0 0 0 0 0 0 0 (in_reportTime i) 0 0 d) (set_status NoMount (in_status i) (set_current (no_tape d) d)))).
(** The times of a start, with [startStartTime]. *)
Definition starting_times i : TimesOf (option Z) :=
  mkTimes (Some (in_reportTime i)) (Some 0) (Some 0) (Some 0) (Some 0) (Some 0) (Some 0) (Some 0) (Some 0) (Some (in_reportTime i)) (Some 0).
Definition starting_tape i d : CurrentOf (option string) (option Z) :=
  let c := tape_of i d in
  match in_activityAndWeigh i with
  | Some (activity, weight) => mkCurrent (currentVid c) (currentTapePool c) (currentVo c) (Some activity) (Some (string_of_double weight)) (currentPriority c)
  | None => c
  end.
Definition setDriveStarting i d : TapeDrive :=
  if decide (td_driveStatus d = Starting) then touch i d
  else touch i (set_session (no_session (in_mountSessionId i)) (set_times (starting_times i)
         (set_status (in_mountType i) Starting (set_current (starting_tape i d) d)))).
Definition setDriveMounting i d : TapeDrive :=
  if decide (td_driveStatus d = Mounting) then touch i d
  else
    let t := td_times d in
    touch i (set_session (no_session (in_mountSessionId i))
      (set_times (mkTimes (sessionStartTime t) (Some (in_reportTime i)) (Some 0) (Some 0) (Some 0) (Some 0) (Some 0) (Some 0) (Some 0) (startStartTime t) (Some 0))
         (set_status (in_mountType i) Mounting (set_current (tape_of i d) d)))).
Definition transferred (id : option Z) i : SessionOf (option string) (option Z) :=
  mkSession id (Some (in_byteTransferred i)) (Some (in_filesTransferred i)) (Some (double_to_string (in_latestBandwidth i))).
Definition setDriveTransfering i d : TapeDrive :=
  if decide (td_driveStatus d = Transferring) then touch i (set_session (transferred (sessionId (td_session d)) i) d)
  else
    let t := td_times d in
    touch i (set_session (transferred (Some (in_mountSessionId i)) i)
      (set_times (mkTimes (sessionStartTime t) (mountStartTime t) (Some (in_reportTime i)) (Some 0) (Some 0) (Some 0) (Some 0) (Some 0) (Some 0) (startStartTime t) (Some 0))
         (set_status (in_mountType i) Transferring (set_current (tape_of i d) d)))).
Definition setDriveUnloading i d : TapeDrive :=
  if decide (td_driveStatus d = Unloading) then touch i d
  else touch i (set_session (no_session (in_mountSessionId i)) (set_times (times_of 0 0 0 (in_reportTime i) 0 0 0 0 0 0 d)
         (set_status (in_mountType i) Unloading (set_current (tape_of i d) d)))).
Definition setDriveUnmounting i d : TapeDrive :=
  if decide (td_driveStatus d = Unmounting) then touch i d
  else touch i (set_session (no_session (in_mountSessionId i)) (set_times (times_of 0 0 0 0 (in_reportTime i) 0 0 0 0 0 d)
         (set_status (in_mountType i) Unmounting (set_current (tape_of i d) d)))).
Definition setDriveDrainingToDisk i d : TapeDrive :=
  if decide (td_driveStatus d = DrainingToDisk) then touch i d
  else touch i (set_session (no_session (in_mountSessionId i)) (set_times (times_of 0 0 0 0 0 (in_reportTime i) 0 0 0 0 d)
         (set_status (in_mountType i) DrainingToDisk (set_current (tape_of i d) d)))).
Definition setDriveCleaningUp i d : TapeDrive :=
  if decide (td_driveStatus d = CleaningUp) then touch i d
  else touch i (set_session (no_session (in_mountSessionId i)) (set_times (times_of 0 0 0 0 0 0 0 0 (in_reportTime i) 0 d)
         (set_status (in_mountType i) CleaningUp (set_current (without_activity (tape_of i d)) d)))).
(** The status written is [CleaningUp]. *)
Definition setDriveShutdown i d : TapeDrive :=
  if decide (td_driveStatus d = Shutdown) then touch i d
  else touch i (set_session (no_session 0) (set_times (times_of 0 0 0 0 0 0 0 0 0 (in_reportTime i) d)
         (set_status (in_mountType i) CleaningUp (set_current (without_activity (tape_of i d)) d)))).

Definition change_status i d : result TapeDrive :=
  match in_status i with
  | Down => Ok (setDriveDown i d)
  | Up => Ok (setDriveUpOrMaybeDown i d)
  | Probing => Ok (setDriveProbing i d)
  | Starting => Ok (setDriveStarting i d)
  | Mounting => Ok (setDriveMounting i d)
  | Transferring => Ok (setDriveTransfering i d)
  | Unloading => Ok (setDriveUnloading i d)
  | Unmounting => Ok (setDriveUnmounting i d)
  | DrainingToDisk => Ok (setDriveDrainingToDisk i d)
  | CleaningUp => Ok (setDriveCleaningUp i d)
  | Shutdown => Ok (setDriveShutdown i d)
  | Unknown => Throw (Exception "Unexpected status in DriveRegister::reportDriveStatus")
  end.
(** A drive that is not at work reserves no disk space. *)
Definition clear_reservation d : TapeDrive :=
  match td_driveStatus d with
  | Down | Shutdown | Unknown | Up => if decide (diskSystemName d = "NULL") then d else set_reservation "NULL" 0 d
  | _ => d
  end.
End changes.

(** ** Operations *)
Section DriveStates.
Context {S : Type} `{!DriveTable S}.

Definition updateDriveStatus (driveInfo : DriveInfo) (inputs : ReportDriveStatusInputs) : M S unit :=
  o ← getTapeDrive (di_driveName driveInfo);
  match o with
  | None => mret tt
  | Some d =>
      d' ← lift (change_status inputs (set_place (di_host driveInfo) (di_logicalLibrary driveInfo) d));
      modifyTapeDrive (clear_reservation d')
  end.
(** The last arguments have default values; there is no activity and no reason. *)
Definition reportDriveStatus (driveInfo : DriveInfo) (mountType : MountType) (status : DriveStatus) (reportTime mountSessionId byteTransferred filesTransferred : Z)
    (latestBandwidth : double) (vid tapepool vo : string) : M S unit :=
  updateDriveStatus driveInfo (mkStatusInputs status mountType reportTime mountSessionId byteTransferred filesTransferred latestBandwidth vid tapepool vo None None).
Definition uint64_max : Z := 2 ^ 64 - 1.
(** [Scheduler::reportDriveStatus]. *)
Definition scheduler_reportDriveStatus (driveInfo : DriveInfo) (type : MountType) (status : DriveStatus) (now : Z) : M S unit :=
  reportDriveStatus driveInfo type status now uint64_max uint64_max uint64_max double_max "" "" "".

(** [optional::value]. *)
Definition optional_value {A} (o : option A) : result A := match o with Some a => Ok a | None => Throw (Exception "std::logic_error") end.
Definition statistics (host : string) (inputs : ReportDriveStatsInputs) (d : TapeDrive) : result TapeDrive :=
  log ← optional_value (td_lastModificationLog d);
  bytes ← optional_value (bytesTransferedInSession (td_session d));
  let timeDifference := s64 (st_reportTime inputs - el_time log) in
  let bytesDifference := st_bytesTransferred inputs -u64 bytes in
  let bandwidth := if timeDifference =? 0 then double_zero else double_div (double_of_Z bytesDifference) (double_of_Z timeDifference) in
  Ok (set_session (mkSession (sessionId (td_session d)) (Some (st_bytesTransferred inputs)) (Some (st_filesTransferred inputs)) (Some (double_to_string bandwidth)))
        (set_modified (Some (mkEntryLog "NO_USER" host (st_reportTime inputs))) d)).
Definition updateDriveStatistics (driveInfo : DriveInfo) (inputs : ReportDriveStatsInputs) : M S unit :=
  o ← getTapeDrive (di_driveName driveInfo);
  match o with
  | None => mret tt
  | Some d =>
      if decide (td_driveStatus d = Transferring) then
        d' ← lift (statistics (di_host driveInfo) inputs (set_place (di_host driveInfo) (di_logicalLibrary driveInfo) d));
        modifyTapeDrive d'
      else mret tt
  end.

Definition setDesiredDriveState (drive : string) (desiredState : DesiredDriveState) : M S unit :=
  o ← getTapeDrive drive;
  match o with
  | None => mret tt
  | Some d =>
      let new := match ds_comment desiredState with
                 | Some _ => mkDesired (desiredUp (td_desired d)) (desiredForceDown (td_desired d)) (ds_reason desiredState)
                 | None => mkDesired (ds_up desiredState) (ds_forceDown desiredState) (ds_reason desiredState)
                 end in
      modifyTapeDrive (set_comment (ds_comment desiredState) (set_desired new d))
  end.

Definition removeDrive (drive : string) : M S unit := catch (deleteTapeDrive drive) (λ _, Some (mret tt)).
Fixpoint drives_named (names : list string) : M S (list TapeDrive) :=
  match names with
  | [] => mret []
  | n :: l => o ← getTapeDrive n; d ← lift (optional_value o); rest ← drives_named l; mret (d :: rest)
  end.
Definition getDriveStates : M S (list TapeDrive) := names ← getTapeDriveNames; drives_named names.

(** The exception that is thrown for a drive of another library or host is caught with
    the others. *)
Definition checkDriveCanBeCreated (driveInfo : DriveInfo) : M S unit :=
  _ ← getTapeDriveNames;
  catch (o ← getTapeDrive (di_driveName driveInfo);
         match o with
         | None => mret tt
         | Some d => if decide (td_logicalLibrary d ≠ di_logicalLibrary driveInfo ∨ td_host d ≠ di_host driveInfo)
                     then throw (Exception "The drive cannot be created because a drive with a same name already exists.") else mret tt
         end)
    (λ _, Some (mret tt)).

(** Of a [TpconfigLine] the device file and the slot, of a [SecurityIdentity] the user
    and the host. *)
Definition setTapeDriveStatus (driveInfo : DriveInfo) (desiredState : DesiredDriveState) (type : MountType) (status : DriveStatus)
    (devFilename slot username userhost : string) (now : Z) : TapeDrive :=
  let log := Some (mkEntryLog username userhost now) in
  mkDrive (di_driveName driveInfo) (di_host driveInfo) (di_logicalLibrary driveInfo) (mkSession None None None (Some "0.0"))
    (mkTimes None None None None None None (Some now) None None None None) type status
    (mkDesired (ds_up desiredState) (ds_forceDown desiredState) (ds_reason desiredState)) (mkCurrent None None None None None None)
    (mkNext None None None None None None None) None (Some devFilename) (Some slot) "NOT_SET" 0 (ds_comment desiredState) log log.
Definition createTapeDriveStatus (driveInfo : DriveInfo) (desiredState : DesiredDriveState) (type : MountType) (status : DriveStatus)
    (devFilename slot username userhost : string) (now : Z) : M S unit :=
  let d := setTapeDriveStatus driveInfo desiredState type status devFilename slot username userhost now in
  driveNames ← getTapeDriveNames;
  _ ← (if decide (td_driveName d ∈ driveNames) then deleteTapeDrive (td_driveName d) else mret tt);
  createTapeDrive d.
End DriveStates.
