(* ===== verification/DriveStatesSpec.v ===== *)
(** * The drives in the catalogue

    What a stored_drive drive is read as, the state machine of the drives and the statistics
    of a session. *)
From Stdlib Require String.
From Stdlib Require Import Floats.SpecFloat.
From S2P Require Import Prelude DataTypes Mounts DriveStates.

(** ** What is read of what was stored *)
Definition stored_string (s : option string) : option string := match s with Some x => if decide (x = "" ∨ x = "NULL") then None else Some x | None => None end.
Definition stored_uint64 (n : option Z) : option Z := match n with Some x => if x =? 0 then None else Some x | None => None end.
Definition stored_time (t : option Z) : option Z := match t with Some x => if u64 x =? 0 then None else Some (s64 (u64 x)) | None => None end.
Definition stored_log (l : option EntryLog) : option EntryLog :=
  match l with
  | Some l => if decide (el_username l = "" ∨ el_username l = "NULL") then None
              else Some (mkEntryLog (el_username l) (column_string (Some (el_host l))) (s64 (u64 (el_time l))))
  | None => None
  end.
Definition stored_drive (d : TapeDrive) : TapeDrive :=
  let s := td_session d in let t := td_times d in let w := td_desired d in let c := td_current d in let n := td_next d in
  mkDrive (td_driveName d) (td_host d) (td_logicalLibrary d)
    (mkSession (stored_uint64 (sessionId s)) (stored_uint64 (bytesTransferedInSession s)) (stored_uint64 (filesTransferedInSession s)) (stored_string (latestBandwidth s)))
    (mkTimes (stored_time (sessionStartTime t)) (stored_time (mountStartTime t)) (stored_time (transferStartTime t)) (stored_time (unloadStartTime t))
       (stored_time (unmountStartTime t)) (stored_time (drainingStartTime t)) (stored_time (downOrUpStartTime t)) (stored_time (probeStartTime t))
       (stored_time (cleanupStartTime t)) (stored_time (startStartTime t)) (stored_time (shutdownTime t)))
    (td_mountType d) (td_driveStatus d) (mkDesired (desiredUp w) (desiredForceDown w) (stored_string (reasonUpDown w)))
    (mkCurrent (stored_string (currentVid c)) (stored_string (currentTapePool c)) (stored_string (currentVo c)) (stored_string (currentActivity c))
       (stored_string (currentActivityWeight c)) (stored_uint64 (currentPriority c)))
    (mkNext (nextMountType n) (stored_string (nextVid n)) (stored_string (nextTapePool n)) (stored_string (nextVo n)) (stored_string (nextActivity n))
       (stored_string (nextActivityWeight n)) (stored_uint64 (nextPriority n)))
    (stored_string (ctaVersion d)) (stored_string (devFileName d)) (stored_string (rawLibrarySlot d)) (diskSystemName d) (reservedBytes d)
    (Some (column_string (userComment d))) (stored_log (td_creationLog d)) (stored_log (td_lastModificationLog d)).
(** The strings that the statements cannot bind when they are empty. *)
Definition named_drive (d : TapeDrive) : Prop := td_driveName d ≠ "" ∧ td_host d ≠ "" ∧ td_logicalLibrary d ≠ "" ∧ diskSystemName d ≠ "".

Lemma string_stored s : checkOptionalString (column_string s) = stored_string s.
Proof. unfold checkOptionalString, column_string, stored_string. destruct s; repeat case_decide; naive_solver. Qed.
Lemma uint64_stored n : checkOptionalUint64 (column_uint64 n) = stored_uint64 n.
Proof. by destruct n. Qed.
Lemma time_stored t : checkOptionalTime (column_time t) = stored_time t.
Proof. by destruct t. Qed.
Lemma log_stored l : setOptionEntryLog (column_log l) = stored_log l.
Proof.
  destruct l as [l|]; [|done]. unfold column_log, setOptionEntryLog, stored_log.
  destruct (decide (el_username l = "" ∨ el_username l = "NULL")) as [H|H].
  - rewrite decide_True; [done|]. unfold column_string. case_decide; naive_solver.
  - rewrite decide_False; unfold column_string at 1; [|unfold column_string]; rewrite (decide_False (P := el_username l = "")) by naive_solver; naive_solver.
Qed.
Lemma next_stored t : checkOptionalMountType (column_next_mount t) = Ok t.
Proof. by destruct t as [[]|]. Qed.
Lemma mount_stored t : mount_type (Z.of_nat (MountType_value t)) = Ok t.
Proof. by destruct t. Qed.
Lemma status_string s : ∃ x, stateToString s = Ok x ∧ stringToState x = Ok s.
Proof. destruct s; eexists; split; reflexivity. Qed.

Lemma setting_ok d : named_drive d →
  ∃ status, stringToState status = Ok (td_driveStatus d) ∧ settingSqlTapeDriveValues d = Ok (row_of status d).
Proof.
  intros (H1 & H2 & H3 & H4). destruct (status_string (td_driveStatus d)) as (x & Hx & Hy). exists x. split; [done|].
  unfold settingSqlTapeDriveValues, bind_string. by rewrite !decide_False, Hx by done.
Qed.
Lemma setting_named d r : settingSqlTapeDriveValues d = Ok r → named_drive d.
Proof.
  unfold settingSqlTapeDriveValues, bind_string, named_drive. destruct (status_string (td_driveStatus d)) as (x & -> & _).
  repeat case_decide; cbn; done.
Qed.
Lemma row_read d r : settingSqlTapeDriveValues d = Ok r → drive_of_row r = Ok (stored_drive d) ∧ td_driveName r = td_driveName d.
Proof.
  intros Hr. destruct (setting_ok d (setting_named d r Hr)) as (x & Hx & E). rewrite E in Hr. injection Hr as <-. split; [|done].
  unfold drive_of_row, row_of. cbn [td_mountType td_driveStatus td_next nextMountType]. rewrite mount_stored, Hx, next_stored.
  cbv beta zeta iota delta [mbind result_bind]. cbn -[column_string column_uint64 column_time column_log].
  by rewrite !string_stored, !uint64_stored, !time_stored, !log_stored.
Qed.

(** ** The table *)
Section table.
Context {S : Type} `{!DriveTable S, !DriveTableLaws S}.

Lemma get_present s n r : rows s !! n = Some r → ∃ s', getTapeDrive n s = ((Some <$> drive_of_row r), s') ∧ rows s' = rows s.
Proof.
  intros Hr. destruct (sql_select_spec s n) as (s' & E & Hs). exists s'. split; [|done]. unfold getTapeDrive. mstep E. rewrite Hr.
  by destruct (drive_of_row r).
Qed.
Lemma get_absent s n : rows s !! n = None → ∃ s', getTapeDrive n s = (Ok None, s') ∧ rows s' = rows s.
Proof. intros Hr. destruct (sql_select_spec s n) as (s' & E & Hs). exists s'. split; [|done]. unfold getTapeDrive. mstep E. by rewrite Hr. Qed.
Lemma modify_present s d r : settingSqlTapeDriveValues d = Ok r → is_Some (rows s !! td_driveName d) →
  ∃ s', modifyTapeDrive d s = (Ok tt, s') ∧ rows s' = <[td_driveName d := r]> (rows s).
Proof.
  intros Hr Hp. destruct (row_read d r Hr) as [_ Hn]. destruct (sql_update_spec s r) as (s' & E & Hs). rewrite Hn in *.
  rewrite !decide_True in * by done. exists s'. split; [|done]. unfold modifyTapeDrive. rewrite Hr, bind_lift. by mstep E.
Qed.
(** Whatever happens, the table stays or has the new row. *)
Lemma modify_effect s d : ∃ s', snd (modifyTapeDrive d s) = s' ∧
  (rows s' = rows s ∨ ∃ r, settingSqlTapeDriveValues d = Ok r ∧ rows s' = <[td_driveName d := r]> (rows s)).
Proof.
  eexists. split; [done|]. unfold modifyTapeDrive. destruct (settingSqlTapeDriveValues d) as [r|e] eqn:Er; [|by left].
  rewrite bind_lift. destruct (row_read d r Er) as [_ Hn]. destruct (sql_update_spec s r) as (s' & E & Hs). mstep E. rewrite Hn in *.
  destruct (decide (is_Some _)); simpl; [right; by exists r|by left].
Qed.

(** C40: A drive that is modified in the catalogue reads back as what was stored, and no other
    drive changes.  What is stored is the drive, but for empty strings, the string NULL
    and zeros, which read back as no value, and for a comment, which is always there. *)
Theorem drive_roundtrip s d :
  named_drive d → is_Some (rows s !! td_driveName d) →
  ∃ s' s'', modifyTapeDrive d s = (Ok tt, s') ∧ getTapeDrive (td_driveName d) s' = (Ok (Some (stored_drive d)), s'') ∧
    rows s'' = rows s' ∧ (∀ n, n ≠ td_driveName d → rows s' !! n = rows s !! n).
Proof.
  intros Hn Hp. destruct (setting_ok d Hn) as (x & _ & Hr). destruct (modify_present s d _ Hr Hp) as (s' & E & Hs').
  destruct (get_present s' (td_driveName d) (row_of x d)) as (s'' & E' & Hs''); [by rewrite Hs', lookup_insert_eq|].
  exists s', s''. rewrite E', (proj1 (row_read d _ Hr)). split_and!; [done|done|done|]. intros n Hne. by rewrite Hs', lookup_insert_ne.
Qed.
End table.

(** ** The state machine *)
Definition idle (s : DriveStatus) : Prop := s = Down ∨ s = Up ∨ s = Probing.
(** The status that a report leads to. *)
Definition next_status (reported old : DriveStatus) : DriveStatus :=
  match reported with Shutdown => if decide (old = Shutdown) then Shutdown else CleaningUp | s => s end.
Record sound_drive (d : TapeDrive) : Prop := {
  sound_idle : idle (td_driveStatus d) → stored_string (currentVid (td_current d)) = None ∧ stored_string (currentTapePool (td_current d)) = None;
  sound_running : td_driveStatus d ≠ Shutdown
}.

Lemma stored_idemp s : stored_string (stored_string s) = stored_string s.
Proof. destruct s as [x|]; [|done]. simpl. case_decide as E; [done|]. simpl. by rewrite decide_False. Qed.
Lemma stored_sound d : sound_drive d → sound_drive (stored_drive d).
Proof. intros [H1 H2]. split; [|done]. simpl. by rewrite !stored_idemp. Qed.

Lemma change_status_next i d d' : change_status i d = Ok d' →
  td_driveStatus d' = next_status (in_status i) (td_driveStatus d) ∧ td_driveName d' = td_driveName d ∧ td_host d' = td_host d ∧
  td_logicalLibrary d' = td_logicalLibrary d ∧ diskSystemName d' = diskSystemName d.
Proof.
  unfold change_status. destruct (in_status i) eqn:E; intros [= <-];
    unfold setDriveDown, setDriveUpOrMaybeDown, setDriveProbing, setDriveStarting, setDriveMounting, setDriveTransfering, setDriveUnloading,
      setDriveUnmounting, setDriveDrainingToDisk, setDriveCleaningUp, setDriveShutdown, next_status; rewrite ?E;
    repeat case_decide; try destruct (desiredUp (td_desired d)); simpl in *; split_and!; congruence.
Qed.
Lemma change_status_sound i d d' : change_status i d = Ok d' → sound_drive d → sound_drive d'.
Proof.
  intros Hc [H1 H2]. destruct (change_status_next i d d' Hc) as (Hs & _).
  assert (Hr : td_driveStatus d' ≠ Shutdown).
  { rewrite Hs. unfold next_status. destruct (in_status i); try done. by rewrite decide_False. }
  split; [|done]. intros Hi. rewrite Hs in Hi. revert Hc. unfold change_status.
  destruct (in_status i) eqn:E; simpl in Hi; try by destruct Hi as [?|[?|?]].
  - intros [= <-]. unfold setDriveDown. case_decide as D; [|done]. simpl. apply H1. by left.
  - intros [= <-]. unfold setDriveUpOrMaybeDown. destruct (desiredUp (td_desired d)); simpl; [|done]. case_decide as D; [|done]. simpl. apply H1. by right; left.
  - intros [= <-]. unfold setDriveProbing. rewrite E. case_decide as D; [|done]. simpl. apply H1. by right; right.
  - destruct (decide (td_driveStatus d = Shutdown)); by destruct Hi as [?|[?|?]].
Qed.
Lemma clear_reservation_keeps d : td_driveStatus (clear_reservation d) = td_driveStatus d ∧ td_current (clear_reservation d) = td_current d ∧
  td_driveName (clear_reservation d) = td_driveName d ∧ (named_drive d → named_drive (clear_reservation d)) ∧
  td_session (clear_reservation d) = td_session d ∧ td_lastModificationLog (clear_reservation d) = td_lastModificationLog d.
Proof. unfold clear_reservation, named_drive. destruct (td_driveStatus d) eqn:E; try case_decide; simpl; naive_solver. Qed.

Section machine.
Context {S : Type} `{!DriveTable S, !DriveTableLaws S}.

(** The table has the drive [d] under its name. *)
Definition holds (s : S) (d : TapeDrive) : Prop :=
  named_drive d ∧ ∃ r, rows s !! td_driveName d = Some r ∧ drive_of_row r = Ok d.
Definition placed (info : DriveInfo) (d : TapeDrive) : TapeDrive := set_place (di_host info) (di_logicalLibrary info) d.
Definition of_drive (info : DriveInfo) (d : TapeDrive) : Prop := di_driveName info = td_driveName d ∧ di_host info ≠ "" ∧ di_logicalLibrary info ≠ "".

Lemma holds_stored s d r : settingSqlTapeDriveValues d = Ok r → rows s !! td_driveName d = Some r → holds s (stored_drive d).
Proof.
  intros Hr Hs. pose proof (setting_named d r Hr) as (H1 & H2 & H3 & H4). split; [done|]. exists r. split; [done|]. by apply row_read.
Qed.
Lemma holds_get s d : holds s d → ∃ s', getTapeDrive (td_driveName d) s = (Ok (Some d), s') ∧ rows s' = rows s.
Proof. intros (_ & r & Hr & Hd). destruct (get_present s _ r Hr) as (s' & E & Hs). exists s'. by rewrite E, Hd. Qed.

Lemma update_present s info i d :
  holds s d → of_drive info d → in_status i ≠ Unknown →
  ∃ d' r s', change_status i (placed info d) = Ok d' ∧ settingSqlTapeDriveValues (clear_reservation d') = Ok r ∧
    updateDriveStatus info i s = (Ok tt, s') ∧ rows s' = <[td_driveName d := r]> (rows s) ∧ td_driveName (clear_reservation d') = td_driveName d.
Proof.
  intros Hd (Hn & Hh & Hl) Hi. destruct (holds_get s d Hd) as (s0 & E & Hs0). destruct Hd as ((Hd1 & Hd2 & Hd3 & Hd4) & r0 & Hr0 & _).
  assert (Hc : ∃ d', change_status i (placed info d) = Ok d') by (unfold change_status; destruct (in_status i); naive_solver).
  destruct Hc as (d' & Hc). destruct (change_status_next _ _ _ Hc) as (_ & Hn' & Hh' & Hl' & Hd').
  destruct (clear_reservation_keeps d') as (_ & _ & Hk & Hnamed & _). assert (Hn2 : td_driveName (clear_reservation d') = td_driveName d) by (by rewrite Hk, Hn').
  destruct (setting_ok (clear_reservation d')) as (x & _ & Hx). { apply Hnamed. unfold named_drive. by rewrite Hn', Hh', Hl', Hd'. }
  destruct (modify_present s0 (clear_reservation d') _ Hx) as (s' & Em & Hs'); [rewrite Hs0, Hn2; eauto|].
  exists d', (row_of x (clear_reservation d')), s'. split_and!; [done|done| |by rewrite Hs', Hs0, Hn2|done].
  unfold updateDriveStatus. rewrite Hn. mstep E. unfold placed in Hc. rewrite Hc. by rewrite bind_lift.
Qed.

(** C21: The status of a drive after a report is the one reported, in two cases apart: a drive
    that is reported up is up, be it desired down, and a drive that is reported shut down
    is cleaning up.  A drive that gets to work has the tape of the report, and no other
    drive changes. *)
Theorem reported_status s info i d :
  holds s d → of_drive info d → in_status i ≠ Unknown →
  ∃ s' d', updateDriveStatus info i s = (Ok tt, s') ∧ holds s' d' ∧ td_driveName d' = td_driveName d ∧
    td_driveStatus d' = next_status (in_status i) (td_driveStatus d) ∧
    (¬ idle (in_status i) → td_driveStatus d' ≠ td_driveStatus d →
       td_mountType d' = in_mountType i ∧ currentVid (td_current d') = stored_string (Some (in_vid i)) ∧
       currentTapePool (td_current d') = stored_string (Some (in_tapepool i)) ∧ currentVo (td_current d') = stored_string (Some (in_vo i))) ∧
    (∀ n, n ≠ td_driveName d → rows s' !! n = rows s !! n).
Proof.
  intros Hd Hinfo Hi. destruct (update_present s info i d Hd Hinfo Hi) as (d' & r & s' & Hc & Hr & Hu & Hs' & Hn).
  destruct (clear_reservation_keeps d') as (Hst & Hcur & _). destruct (change_status_next _ _ _ Hc) as (Hnext & _).
  exists s', (stored_drive (clear_reservation d')). split_and!; [done|by apply (holds_stored s' (clear_reservation d') r); rewrite ?Hn, ?Hs', ?lookup_insert_eq|done| | |].
  - simpl. rewrite Hst, Hnext. done.
  - simpl. rewrite Hst, Hcur. intros Hw Hne.
    assert (Hm : td_mountType (clear_reservation d') = td_mountType d') by (unfold clear_reservation; repeat case_match; done). rewrite Hm.
    revert Hc. unfold change_status. destruct (in_status i) eqn:E; intros [= <-]; try (exfalso; apply Hw; unfold idle; tauto);
      unfold setDriveStarting, setDriveMounting, setDriveTransfering, setDriveUnloading, setDriveUnmounting, setDriveDrainingToDisk,
        setDriveCleaningUp, setDriveShutdown in *; case_decide as D; simpl in *; try (exfalso; congruence);
      unfold starting_tape; by destruct (in_activityAndWeigh i) as [[??]|].
  - intros n Hne. by rewrite Hs', lookup_insert_ne.
Qed.

(** ** Statistics of a session *)

(** C38: The statistics of a session cannot be reported before bytes were reported with the
    status.  A drive that starts to transfer, with the zero bytes that the mounts
    report, reads back without a number of bytes, and the report of its statistics
    throws and changes nothing. *)
Theorem first_statistics_fail s info i inputs d :
  holds s d → of_drive info d → in_status i = Transferring → in_byteTransferred i = 0 →
  ∃ s1 s2, updateDriveStatus info i s = (Ok tt, s1) ∧
    updateDriveStatistics info inputs s1 = (Throw (Exception "std::logic_error"), s2) ∧ rows s2 = rows s1.
Proof.
  intros Hd Hinfo Hi Hb. destruct (update_present s info i d Hd Hinfo) as (d' & r & s1 & Hc & Hr & Hu & Hs' & Hn); [congruence|].
  destruct (clear_reservation_keeps d') as (Hst & _ & _ & _ & Hses & Hlog). destruct (change_status_next _ _ _ Hc) as (Hnext & _).
  assert (Hh : holds s1 (stored_drive (clear_reservation d'))) by (apply (holds_stored s1 (clear_reservation d') r); rewrite ?Hn, ?Hs', ?lookup_insert_eq; done).
  destruct (holds_get _ _ Hh) as (s2 & E & Hs2). simpl in E. rewrite Hn in E. exists s1, s2. split_and!; [done| |done].
  unfold updateDriveStatistics. rewrite (proj1 Hinfo). mstep E. rewrite decide_True by (simpl; by rewrite Hst, Hnext, Hi).
  unfold statistics. simpl. rewrite Hses, Hlog. unfold change_status in Hc. rewrite Hi in Hc. injection Hc as <-.
  unfold setDriveTransfering. case_decide; simpl; rewrite Hb; done.
Qed.
End machine.

(** ** Reachable tables *)
Inductive drive_op :=
  | OpStatus (info : DriveInfo) (i : ReportDriveStatusInputs)
  | OpStatistics (info : DriveInfo) (i : ReportDriveStatsInputs)
  | OpDesired (drive : string) (desired : DesiredDriveState)
  | OpRemove (drive : string)
  | OpCreate (info : DriveInfo) (desired : DesiredDriveState) (type : MountType) (status : DriveStatus) (dev slot user host : string) (now : Z).

Section reachable.
Context {S : Type} `{!DriveTable S, !DriveTableLaws S}.
Definition run_op (op : drive_op) : M S unit :=
  match op with
  | OpStatus info i => updateDriveStatus info i
  | OpStatistics info i => updateDriveStatistics info i
  | OpDesired n w => setDesiredDriveState n w
  | OpRemove n => removeDrive n
  | OpCreate info w type status dev slot user host now => createTapeDriveStatus info w type status dev slot user host now
  end.
(** The tables that calls lead to from an empty one, whether they throw or not; no drive
    is created shut down. *)
Inductive reachable : S → Prop :=
  | reachable_empty s : rows s = ∅ → reachable s
  | reachable_step s op : reachable s → (match op with OpCreate _ _ _ status _ _ _ _ _ => status ≠ Shutdown | _ => True end) →
      reachable (snd (run_op op s)).

Definition sound_rows (m : gmap string DriveRow) : Prop :=
  ∀ n r, m !! n = Some r → ∃ d, settingSqlTapeDriveValues d = Ok r ∧ td_driveName d = n ∧ sound_drive d.

Lemma sound_insert m d r : sound_rows m → settingSqlTapeDriveValues d = Ok r → sound_drive d → sound_rows (<[td_driveName d := r]> m).
Proof. intros Hm Hr Hd n r' [[<- <-]|[_ Hn]]%lookup_insert_Some; [by exists d|by apply Hm]. Qed.
Lemma sound_delete m n : sound_rows m → sound_rows (delete n m).
Proof. intros Hm n' r [_ Hr]%lookup_delete_Some. by apply Hm. Qed.
Lemma modify_sound s d : sound_rows (rows s) → sound_drive d → sound_rows (rows (snd (modifyTapeDrive d s))).
Proof.
  intros Hs Hd. destruct (modify_effect s d) as (s' & -> & [->|(r & Hr & ->)]); [done|]. by apply sound_insert.
Qed.
Lemma get_sound s n : sound_rows (rows s) →
  ∃ o s', getTapeDrive n s = (Ok o, s') ∧ rows s' = rows s ∧ match o with Some d => sound_drive d | None => True end.
Proof.
  intros Hs. destruct (rows s !! n) as [r|] eqn:E.
  - destruct (Hs n r E) as (d & Hr & _ & Hd). destruct (get_present s n r E) as (s' & Eg & Hs'). exists (Some (stored_drive d)), s'.
    rewrite Eg, (proj1 (row_read d r Hr)). split_and!; [done|done|by apply stored_sound].
  - destruct (get_absent s n E) as (s' & Eg & Hs'). by exists None, s'.
Qed.
(** A read, a change and a write. *)
Lemma read_change_write s n (f : TapeDrive → M S unit) :
  sound_rows (rows s) → (∀ d s', sound_drive d → sound_rows (rows s') → sound_rows (rows (snd (f d s')))) →
  sound_rows (rows (snd ((o ← getTapeDrive n; match o with None => mret tt | Some d => f d end) s))).
Proof.
  intros Hs Hf. destruct (get_sound s n Hs) as (o & s' & E & Hs' & Ho). mstep E. destruct o as [d|]; simpl; [|by rewrite Hs']. apply Hf; [done|by rewrite Hs'].
Qed.
Lemma sound_same d d' : td_driveStatus d' = td_driveStatus d → td_current d' = td_current d → sound_drive d → sound_drive d'.
Proof. intros Hs Hc [H1 H2]. split; by rewrite ?Hs, ?Hc. Qed.

Lemma create_sound s d : sound_rows (rows s) → sound_drive d → sound_rows (rows (snd (createTapeDrive d s))).
Proof.
  intros Hs Hd. unfold createTapeDrive. destruct (settingSqlTapeDriveValues d) as [r|e] eqn:E; [|done]. rewrite bind_lift.
  destruct (row_read d r E) as [_ Hn]. destruct (rows s !! td_driveName r) eqn:Er.
  - destruct (sql_insert_exists s r) as (e & s' & -> & Hs'); [eauto|]. simpl. by rewrite Hs'.
  - destruct (sql_insert_new s r Er) as (s' & -> & Hs'). simpl. rewrite Hs', Hn. by apply sound_insert.
Qed.
Lemma delete_sound s n : sound_rows (rows s) → ∃ s', deleteTapeDrive n s = (Ok tt, s') ∧ sound_rows (rows s').
Proof. intros Hs. destruct (sql_delete_spec s n) as (s' & E & Hs'). exists s'. split; [done|]. rewrite Hs'. by apply sound_delete. Qed.

Lemma run_op_sound s op :
  sound_rows (rows s) → (match op with OpCreate _ _ _ status _ _ _ _ _ => status ≠ Shutdown | _ => True end) → sound_rows (rows (snd (run_op op s))).
Proof.
  intros Hs Hop. destruct op as [info i|info i|n w|n|info w type status dev slot user host now]; simpl.
  - apply read_change_write; [done|]. intros d s' Hd Hs'. destruct (change_status i _) as [d'|] eqn:E; [|exact Hs']. rewrite bind_lift.
    apply modify_sound; [done|]. destruct (clear_reservation_keeps d') as (H1 & H2 & _). apply (sound_same d'); [done|done|].
    apply (change_status_sound i _ d' E). by apply (sound_same d).
  - apply read_change_write; [done|]. intros d s' Hd Hs'. case_decide; [|exact Hs']. destruct (statistics _ _ _) as [d'|] eqn:E; [|exact Hs']. rewrite bind_lift.
    apply modify_sound; [done|]. revert E. unfold statistics, optional_value. simpl (td_lastModificationLog _).
    destruct (td_lastModificationLog d), (bytesTransferedInSession (td_session d)) eqn:Eb; simpl; rewrite ?Eb; try discriminate. intros [= <-]. by apply (sound_same d).
  - apply read_change_write; [done|]. intros d s' Hd Hs'. apply modify_sound; [done|]. by apply (sound_same d).
  - destruct (delete_sound s n Hs) as (s' & E & Hs'). unfold removeDrive. by rewrite (catch_ok _ _ _ _ _ E).
  - unfold createTapeDriveStatus. destruct (sql_names_spec s) as (l & s1 & E & _ & Hs1). unfold getTapeDriveNames. mstep E.
    assert (H1 : ∃ s2, (if decide (td_driveName (setTapeDriveStatus info w type status dev slot user host now) ∈ l)
      then deleteTapeDrive (td_driveName (setTapeDriveStatus info w type status dev slot user host now)) else mret tt) s1 = (Ok tt, s2) ∧ sound_rows (rows s2)).
    { case_decide; [apply delete_sound; by rewrite Hs1|exists s1; split; [done|by rewrite Hs1]]. }
    destruct H1 as (s2 & E2 & Hs2). mstep E2. apply create_sound; [done|]. by split.
Qed.

(** C26: Whatever calls are made, and whether they throw or not, every row of the table can
    be read, a drive that is down, up or probing has no tape and no tape pool, and no
    drive is shut down. *)
Theorem idle_drives_have_no_tape s n r :
  reachable s → rows s !! n = Some r →
  ∃ d, drive_of_row r = Ok d ∧ td_driveName d = n ∧ td_driveStatus d ≠ Shutdown ∧
    (idle (td_driveStatus d) → currentVid (td_current d) = None ∧ currentTapePool (td_current d) = None).
Proof.
  intros Hs. assert (Hr : sound_rows (rows s)).
  { induction Hs as [s Hs|s op _ IH Hop]; [rewrite Hs; intros ? ?; by rewrite lookup_empty|by apply run_op_sound]. }
  intros Hn. destruct (Hr n r Hn) as (d & Hd & Hdn & [H1 H2]). exists (stored_drive d). by rewrite (proj1 (row_read d r Hd)).
Qed.
End reachable.
