(* ===== verification/MountInfo.v ===== *)
(** * The scheduler database on the object store: mounts

    Model of [fetchMountInfo], [getMountInfo], [getMountInfoNoLock], [trimEmptyQueues],
    [createArchiveMount] and [createRetrieveMount] of [scheduler/OStoreDB/OStoreDB.cpp]:
    the potential mounts are read from the queues, the existing ones from the states of
    the drives, and a mount that is created starts its drive.  It is an instance of the
    interface that [Scheduling] uses.  A mount that it creates is seen by every later
    decision.

    The agent of the process is set.  The lock that a decision holds is released when
    the decision is destroyed, which changes no object. *)
From Stdlib Require String.
From Stdlib Require Import Floats.SpecFloat.
From S2P Require Import Prelude DataTypes Checksum ValueCountMap Backend ObjectOps Handles ProtoAlgorithms ArchiveFile ArchiveQueueShard ArchiveQueue ArchiveRequest RetrieveActivity RetrieveQueueShard RetrievePlan RetrieveQueue RetrieveRequest Agent Registers RootEntry AgentLife RetrieveCache Mounts Scheduling SchedulingSpec DriveStates DriveStatesSpec.

(** ** Existing mounts *)
Definition is_digit (c : Ascii.ascii) : bool := let n := Ascii.nat_of_ascii c in (48 <=? n)%nat && (n <=? 57)%nat.
(** The digits at the start, as [std::stoi] reads them. *)
Fixpoint leading_number (acc : Z) (s : string) : Z :=
  match s with
  | String.String c s' => if is_digit c then leading_number (10 * acc + (Z.of_nat (Ascii.nat_of_ascii c) - 48)) s' else acc
  | _ => acc
  end.
(** [std::stoi] on a string that starts with a digit. *)
Definition stoi (s : string) : result Z := let n := leading_number 0 s in if n <=? 2 ^ 31 - 1 then Ok n else Throw (Exception "stoi").
Definition read_bandwidth (s : option string) : result Z :=
  match s with
  | Some (String.String c s') => if is_digit c then stoi (String.String c s') else Ok 0
  | _ => Ok 0
  end.
Definition activeDriveStatuses : list DriveStatus := [Starting; Mounting; Transferring; Unloading; Unmounting; DrainingToDisk; CleaningUp].
Definition activeMountTypes : list MountType := [ArchiveForUser; ArchiveForRepack; Retrieve; Label].
Definition text (s : option string) : string := default "" s.
(** The mounts of a drive: the one at work, and the next one. *)
Definition current_mount (d : TapeDrive) : result (list ExistingMount) :=
  if decide (td_driveStatus d ∈ activeDriveStatuses) then
    bandwidth ← read_bandwidth (latestBandwidth (td_session d));
    let c := td_current d in
    Ok [mkExisting (td_driveName d) (td_mountType d) (text (currentTapePool c)) (text (currentVo c)) (text (currentVid c)) true
          (default 0 (bytesTransferedInSession (td_session d))) (default 0 (filesTransferedInSession (td_session d))) bandwidth
          (Some (text (currentActivity c)))]
  else Ok [].
Definition next_mount_of (d : TapeDrive) : list ExistingMount :=
  let n := td_next d in
  match nextMountType n with
  | Some t => if decide (t ∈ activeMountTypes)
              then [mkExisting (td_driveName d) t (text (nextTapePool n)) (text (nextVo n)) (text (nextVid n)) false 0 0 0 (Some (text (nextActivity n)))] else []
  | None => []
  end.
Fixpoint existing_mounts (drives : list TapeDrive) : result (list ExistingMount) :=
  match drives with
  | [] => Ok []
  | d :: l => current ← current_mount d; rest ← existing_mounts l; Ok (current ++ next_mount_of d ++ rest)
  end.

(** ** State *)
(** The object store, the table of the drives and the lock of the decision, if it is held. *)
Record DBState (B St T : Type) := mkDB { db_be : St; db_table : T; db_lock : option (ObjectOps B SchedulerGlobalLock) }.
Arguments mkDB {B St T}. Arguments db_be {B St T}. Arguments db_table {B St T}. Arguments db_lock {B St T}.

(** [MountInfo] of the two kinds of mounts, with the other members of [OStoreDB]'s. *)
Record ArchiveMountInfo := mkArchiveInfo {
  ami_vid : string; ami_logicalLibrary : string; ami_tapePool : string; ami_vo : string; ami_mediaType : string; ami_vendor : string;
  ami_drive : string; ami_host : string; ami_mountId : Z; ami_capacityInBytes : Z; ami_mountType : MountType;
  ami_nbFilesCurrentlyOnTape : Z; ami_queueType : JobQueueType }.
Record RetrieveMountInfo := mkRetrieveInfo {
  rmi_vid : string; rmi_logicalLibrary : string; rmi_tapePool : string; rmi_vo : string; rmi_mediaType : string; rmi_vendor : string;
  rmi_drive : string; rmi_host : string; rmi_mountId : Z; rmi_capacityInBytes : Z; rmi_activity : option string }.

Section MountInfo.
Context {B St T : Type} `{!Serializable B (ObjectHeader B), !Backend B St, !DriveTable T}.
Context `{!Serializable B RootEntry, !Serializable B ArchiveQueue, !Serializable B RetrieveQueue, !Serializable B Agent, !Serializable B RetrieveQueueShard}.
Context `{!Serializable B RetrieveRequest, !Serializable bytes ChecksumPb, !Serializable B SchedulerGlobalLock}.
Context `{!Serializable B DriveRegister, !Serializable B AgentRegister, !Serializable B RepackIndex, !Serializable B RepackQueue}.
(** The header bytes of a handle before anything is read; never looked at. *)
Context (dummy : B) (cat : Catalogue) (now : Z).
Abbreviation DB := (M (DBState B St T)).
Definition on_store {A} (m : M St A) : DB A := λ s, let '(r, be') := m (db_be s) in (r, mkDB be' (db_table s) (db_lock s)).
Definition on_table {A} (m : M T A) : DB A := λ s, let '(r, t') := m (db_table s) in (r, mkDB (db_be s) t' (db_lock s)).
Definition set_lock (l : option (ObjectOps B SchedulerGlobalLock)) : DB unit := modify (λ s, mkDB (db_be s) (db_table s) l).

(** [T o(address, os); o.fetchNoLock();] *)
Definition open_nolock {P} `{!Serializable B P, !Message P} (address : string) : M St (ObjectOps B P) :=
  o ← lift (object_at dummy address); exec_on o fetchNoLock.
(** With the exceptions of the fetch caught: the queue is skipped. *)
Definition open_or_skip {P} `{!Serializable B P, !Message P} (address : string) : M St (option (ObjectOps B P)) :=
  o ← lift (object_at dummy address); catch (o' ← exec_on o fetchNoLock; mret (Some o')) (λ _, Some (mret None)).
Definition read_archive_queue {A} (o : ObjectOps B ArchiveQueue) (m : M (AQState B St) A) : M St A := λ be,
  (fst (m (mkAQState o (mkLock Shared false) be (mkAgent "" 0))), be).

(** ** Potential mounts *)

(** A [PotentialMount()] is zero where nothing is set. *)
Definition archive_mount (type : MountType) (pool : string) (sm : JobsSummary) (priority age : Z) : PotentialMount :=
  mkPotential type "" pool "" "" "" 0 priority (s64 age) (js_jobs sm) (js_bytes sm) (js_oldestJobStartTime sm) "" double_zero false 0 "" 0 None.
(** Priority and age of the queue, or of the policy of the catalogue. *)
Definition archive_policy (mountPolicies : list MountPolicy) (sm : JobsSummary) : result (Z * Z) :=
  match getMountPoliciesInQueue mountPolicies (js_mountPolicyCountMap sm) with
  | [] => Ok (js_priority sm, js_minArchiveRequestAge sm)
  | l => mp ← createBestArchiveMountPolicy l; Ok (archivePriority mp, archiveMinRequestAge mp)
  end.
Definition add_mounts (l : list PotentialMount) (i : TapeMountDecisionInfo) : TapeMountDecisionInfo :=
  mkDecision (potentialMounts i ++ l) (existingOrNextMounts i) (queueTrimRequired i).
Definition ask_trim (i : TapeMountDecisionInfo) : TapeMountDecisionInfo := mkDecision (potentialMounts i) (existingOrNextMounts i) true.

Fixpoint fetch_archive_queues (type : MountType) (mountPolicies : list MountPolicy) (queues : list (string * string)) (tmdi : TapeMountDecisionInfo)
    : M St TapeMountDecisionInfo :=
  match queues with
  | [] => mret tmdi
  | (address, pool) :: l =>
      o ← open_or_skip (P := ArchiveQueue) address;
      match o with
      | None => fetch_archive_queues type mountPolicies l tmdi
      | Some aqueue =>
          sm ← read_archive_queue aqueue getJobsSummary;
          if decide (js_jobs sm ≠ 0) then
            x ← lift (archive_policy mountPolicies sm);
            fetch_archive_queues type mountPolicies l (add_mounts [archive_mount type pool sm (fst x) (snd x)] tmdi)
          else fetch_archive_queues type mountPolicies l (ask_trim tmdi)
      end
  end.

(** Whether a retrieve queue is worth a mount: the tape is active, or disabled with a
    request that insists, or no request of the queue is left.  The second component is
    the number of requests that are gone. *)
Fixpoint look_at_jobs (tapeIsDisabled : bool) (jobs : list RetrieveJobDump) (gone : nat) : M St (bool * nat) :=
  match jobs with
  | [] => mret (false, gone)
  | job :: l =>
      o ← lift (object_at (P := RetrieveRequest) dummy (rjd_address job));
      x ← catch (rr ← exec_on o fetchNoLock;
                 if tapeIsDisabled then ri ← lift (fst (rr_getRepackInfo rr)); mret (Some (forceDisabledTape ri)) else mret (Some false))
            (λ e, match e with NoSuchObject => Some (mret None) | _ => None end);
      match x with
      | Some true => mret (true, gone)
      | Some false => look_at_jobs tapeIsDisabled l gone
      | None => look_at_jobs tapeIsDisabled l (S gone)
      end
  end.
Definition is_potential (rqueue : ObjectOps B RetrieveQueue) (vid : string) : M St bool :=
  tapes ← lift (cat_getTapesByVid cat {[vid]});
  t ← lift (map_at tapes vid);
  match ti_state t with
  | ACTIVE => mret true
  | state =>
      jobs ← on_queue rqueue (rq_dumpJobs dummy);
      x ← look_at_jobs (bool_decide (state = DISABLED)) jobs 0;
      mret (fst x || bool_decide (snd x = length jobs))
  end.

Definition retrieve_policy (mountPolicies : list MountPolicy) (sm : RetrieveJobsSummary) : result (Z * Z) :=
  match getMountPoliciesInQueue mountPolicies (rjs_mountPolicyCountMap sm) with
  | [] => Ok (rjs_priority sm, rjs_minRetrieveRequestAge sm)
  | l => mp ← createBestRetrieveMountPolicy l; Ok (retrievePriority mp, retrieveMinRequestAge mp)
  end.
Definition still_asleep (sm : RetrieveJobsSummary) : option SleepInfo :=
  match sleepInfo sm with Some i => if now <? sleepStartTime i + s64 (sleepTime i) then Some i else None | None => None end.
(** The sleep time of a mount without an activity is not stored. *)
Definition retrieve_mount (vid : string) (sm : RetrieveJobsSummary) (priority age : Z) (activity : option ActivityMounts) : PotentialMount :=
  let z := still_asleep sm in
  mkPotential Retrieve vid "" "" "" "" 0 priority (s64 age) (rjs_jobs sm) (rjs_bytes sm) (rjs_oldestJobStartTime sm) "" double_zero
    (match z with Some _ => true | None => false end) (match z with Some i => sleepStartTime i | None => 0 end)
    (match z with Some i => diskSystemSleptFor i | None => "" end)
    (match z, activity with Some i, Some _ => sleepTime i | _, _ => 0 end) activity.
Definition activity_mount (ac : ActivityCount) : ActivityMounts := mkActivityMounts (ac_activity ac) (double_of_bits (ac_weight ac)) 0 double_zero.
Definition retrieve_mounts (vid : string) (sm : RetrieveJobsSummary) (priority age : Z) : list PotentialMount :=
  ((λ ac, retrieve_mount vid sm priority age (Some (activity_mount ac))) <$> activityCounts sm) ++
  (if decide (activityCounts sm ≠ [] ∧ rjs_jobs sm ≤ Z.of_nat (length (activityCounts sm))) then [] else [retrieve_mount vid sm priority age None]).

Fixpoint fetch_retrieve_queues (purpose : PurposeGetMountInfo) (mountPolicies : list MountPolicy) (queues : list (string * string)) (tmdi : TapeMountDecisionInfo)
    : M St TapeMountDecisionInfo :=
  match queues with
  | [] => mret tmdi
  | (address, vid) :: l =>
      o ← open_or_skip (P := RetrieveQueue) address;
      match o with
      | None => fetch_retrieve_queues purpose mountPolicies l tmdi
      | Some rqueue =>
          sm ← on_queue rqueue rq_getJobsSummary;
          isPotentialMount ← is_potential rqueue vid;
          if decide (rjs_jobs sm ≠ 0) then
            if isPotentialMount || bool_decide (purpose = SHOW_QUEUES) then
              x ← lift (retrieve_policy mountPolicies sm);
              fetch_retrieve_queues purpose mountPolicies l (add_mounts (retrieve_mounts vid sm (fst x) (snd x)) tmdi)
            else fetch_retrieve_queues purpose mountPolicies l tmdi
          else fetch_retrieve_queues purpose mountPolicies l (ask_trim tmdi)
      end
  end.

Definition fetchMountInfo (root : ObjectOps B RootEntry) (purpose : PurposeGetMountInfo) : DB TapeMountDecisionInfo :=
  mountPolicies ← lift (cat_getMountPolicies cat);
  users ← on_store (on_root root (dumpArchiveQueues JobsToTransferForUser));
  i1 ← on_store (fetch_archive_queues ArchiveForUser mountPolicies users (mkDecision [] [] false));
  repacks ← on_store (on_root root (dumpArchiveQueues JobsToTransferForRepack));
  i2 ← on_store (fetch_archive_queues ArchiveForRepack mountPolicies repacks i1);
  retrieves ← on_store (on_root root (dumpRetrieveQueues JobsToTransferForUser));
  i3 ← on_store (fetch_retrieve_queues purpose mountPolicies retrieves i2);
  driveStates ← on_table getDriveStates;
  existing ← lift (existing_mounts driveStates);
  mret (mkDecision (potentialMounts i3) existing (queueTrimRequired i3)).

Definition getMountInfo : DB TapeMountDecisionInfo :=
  root ← on_store (open_nolock (P := RootEntry) root_address);
  address ← on_store (on_root root getSchedulerGlobalLock);
  l ← on_store (open_locked (P := SchedulerGlobalLock) dummy Exclusive address);
  _ ← set_lock (Some l);
  fetchMountInfo root GET_NEXT_MOUNT.
Definition getMountInfoNoLock (purpose : PurposeGetMountInfo) : DB TapeMountDecisionInfo :=
  root ← on_store (open_nolock (P := RootEntry) root_address);
  fetchMountInfo root purpose.

(** ** Empty queues *)
Definition trim_archive_queue (qt : JobQueueType) (q : string * string) : M (REState B St) unit :=
  aq ← on_be (open_locked (P := ArchiveQueue) dummy Shared (fst q));
  sm ← on_archive_queue aq getJobsSummary;
  if decide (js_jobs sm = 0) then removeArchiveQueueAndCommit dummy (snd q) qt else mret tt.
Definition trim_retrieve_queue (qt : JobQueueType) (q : string * string) : M (REState B St) unit :=
  rq ← on_be (open_locked (P := RetrieveQueue) dummy Shared (fst q));
  sm ← on_retrieve_queue rq rq_getJobsSummary;
  if decide (rjs_jobs sm = 0) then removeRetrieveQueueAndCommit dummy (snd q) qt else mret tt.
Definition trim_queues (qt : JobQueueType) : M (REState B St) unit :=
  catch (archives ← dumpArchiveQueues qt;
         _ ← mfor archives (trim_archive_queue qt);
         retrieves ← dumpRetrieveQueues qt;
         mfor retrieves (trim_retrieve_queue qt))
    (λ _, Some (mret tt)).
Definition trimEmptyQueues : DB unit :=
  root ← on_store (open_locked (P := RootEntry) dummy Exclusive root_address);
  on_store (on_root root (mfor [JobsToTransferForUser; JobsToReportToUser; FailedJobs] trim_queues)).

(** ** Creation of a mount *)

(** What both do: the lock must be held and the drive register known, the session gets
    a number, and the drive starts. *)
Definition next_mount_id : DB Z :=
  l ← gets db_lock;
  match l with
  | None => throw (Exception "cannot create mount without holding scheduling lock")
  | Some sgl =>
      root ← on_store (open_nolock (P := RootEntry) root_address);
      _ ← on_store (on_root root getDriveRegisterAddress);
      x ← lift (getIncreaseCommitMountId sgl);
      _ ← set_lock (Some (snd x));
      sgl' ← on_store (exec_on (snd x) commit);
      _ ← set_lock (Some sgl');
      mret (fst x)
  end.
(** The counters of the inputs, which are left uninitialised for a retrieve mount, are
    not used for this status. *)
Definition start_drive (driveInfo : DriveInfo) (type : MountType) (id startTime : Z) (vid tapepool vo : string) (activity : option (string * double)) : DB unit :=
  _ ← on_table (updateDriveStatus driveInfo (mkStatusInputs Starting type startTime id 0 0 double_zero vid tapepool vo activity None));
  set_lock None.
Definition createArchiveMount (r : ArchiveMountRequest) : DB ArchiveMountInfo :=
  queueType ← match amr_type r with
              | ArchiveForUser => mret JobsToTransferForUser
              | ArchiveForRepack => mret JobsToTransferForRepack
              | _ => throw (Exception "In OStoreDB::TapeMountDecisionInfo::createArchiveMount(): unexpected mount type.")
              end;
  id ← next_mount_id;
  let t := amr_tape r in
  _ ← start_drive (mkDriveInfo (amr_driveName r) (amr_hostName r) (amr_logicalLibrary r)) (amr_type r) id (amr_startTime r) (tw_vid t) (tw_tapePool t) (amr_vo r) None;
  mret (mkArchiveInfo (tw_vid t) (amr_logicalLibrary r) (tw_tapePool t) (amr_vo r) (amr_mediaType r) (amr_vendor r) (amr_driveName r) (amr_hostName r) id
          (amr_capacityInBytes r) (amr_type r) (u32 (tw_lastFSeq t)) queueType).
Definition createRetrieveMount (r : RetrieveMountRequest) : DB RetrieveMountInfo :=
  id ← next_mount_id;
  _ ← start_drive (mkDriveInfo (rmr_driveName r) (rmr_hostName r) (rmr_logicalLibrary r)) Retrieve id (rmr_startTime r) (rmr_vid r) (rmr_tapePool r) (rmr_vo r) (rmr_activity r);
  mret (mkRetrieveInfo (rmr_vid r) (rmr_logicalLibrary r) (rmr_tapePool r) (rmr_vo r) (rmr_mediaType r) (rmr_vendor r) (rmr_driveName r) (rmr_hostName r) id
          (rmr_capacityInBytes r) (fst <$> rmr_activity r)).

(** ** Reports of a mount *)
Definition archive_drive (m : ArchiveMountInfo) : DriveInfo := mkDriveInfo (ami_drive m) (ami_host m) (ami_logicalLibrary m).
Definition retrieve_drive (m : RetrieveMountInfo) : DriveInfo := mkDriveInfo (rmi_drive m) (rmi_host m) (rmi_logicalLibrary m).
(** The transfer counters are reported as zero. *)
Definition archive_setDriveStatus (m : ArchiveMountInfo) (status : DriveStatus) (completionTime : Z) (reason : option string) : DB unit :=
  let type := if decide (ami_queueType m = JobsToTransferForUser) then ArchiveForUser else ArchiveForRepack in
  on_table (updateDriveStatus (archive_drive m)
    (mkStatusInputs status type completionTime (ami_mountId m) 0 0 double_zero (ami_vid m) (ami_tapePool m) (ami_vo m) None reason)).
Definition retrieve_setDriveStatus (m : RetrieveMountInfo) (status : DriveStatus) (completionTime : Z) (reason : option string) : DB unit :=
  on_table (updateDriveStatus (retrieve_drive m)
    (mkStatusInputs status Retrieve completionTime (rmi_mountId m) 0 0 double_zero (rmi_vid m) (rmi_tapePool m) (rmi_vo m) None reason)).
Definition archive_setTapeSessionStats (m : ArchiveMountInfo) (dataVolume filesCount : Z) : DB unit :=
  on_table (updateDriveStatistics (archive_drive m) (mkStatsInputs now dataVolume filesCount)).
Definition retrieve_setTapeSessionStats (m : RetrieveMountInfo) (dataVolume filesCount : Z) : DB unit :=
  on_table (updateDriveStatistics (retrieve_drive m) (mkStatsInputs now dataVolume filesCount)).
(** The counters of the inputs are not used for this status. *)
Definition archive_complete (m : ArchiveMountInfo) (completionTime : Z) : DB unit :=
  on_table (updateDriveStatus (archive_drive m)
    (mkStatusInputs Up NoMount completionTime (ami_mountId m) 0 0 double_zero (ami_vid m) (ami_tapePool m) (ami_vo m) None None)).
Definition retrieve_complete (m : RetrieveMountInfo) (completionTime : Z) : DB unit :=
  on_table (updateDriveStatus (retrieve_drive m)
    (mkStatusInputs Up NoMount completionTime (rmi_mountId m) 0 0 double_zero (rmi_vid m) (rmi_tapePool m) (rmi_vo m) None None)).

#[export] Instance ostoredb : SchedulerDatabase (DBState B St T) ArchiveMountInfo RetrieveMountInfo := {|
  db_getMountInfo := getMountInfo;
  db_getMountInfoNoLock := getMountInfoNoLock;
  db_trimEmptyQueues := trimEmptyQueues;
  db_createArchiveMount := createArchiveMount;
  db_createRetrieveMount := createRetrieveMount;
  db_getDriveStates := on_table (l ← getDriveStates; mret ((λ d, mkDriveEntry (td_driveName d) (td_logicalLibrary d)) <$> l))
|}.
End MountInfo.

(** ** Reading the drives *)
Section drives.
Context {T : Type} `{!DriveTable T, !DriveTableLaws T}.

Lemma get_keeps (t : T) n r t' : getTapeDrive n t = (r, t') → rows t' = rows t.
Proof.
  destruct (rows t !! n) as [row|] eqn:E.
  - destruct (get_present t n row E) as (t0 & -> & H). by intros [= _ <-].
  - destruct (get_absent t n E) as (t0 & -> & H). by intros [= _ <-].
Qed.
Lemma drives_named_has names (t : T) l t' n row d :
  drives_named names t = (Ok l, t') → n ∈ names → rows t !! n = Some row → drive_of_row row = Ok d → d ∈ l.
Proof.
  revert t l. induction names as [|m names IH]; intros t l Hl Hn Hr Hd; [by apply not_elem_of_nil in Hn|]. simpl in Hl.
  apply bind_inv_ok in Hl as (o & t1 & Hg & Hl). apply bind_inv_ok in Hl as (d1 & t2 & Hv & Hl). apply bind_inv_ok in Hl as (rest & t3 & Hrest & Hl).
  injection Hl as <- <-. unfold lift in Hv. destruct o as [d0|]; [|done]. injection Hv as <- <-.
  apply elem_of_cons in Hn as [->|Hn].
  - destruct (get_present t m row Hr) as (t0 & E & _). rewrite E, Hd in Hg. injection Hg as <- _. left.
  - right. apply (IH t1 rest Hrest Hn); [by rewrite (get_keeps _ _ _ _ Hg)|done].
Qed.
Lemma getDriveStates_has (t : T) l t' d : holds t d → getDriveStates t = (Ok l, t') → d ∈ l.
Proof.
  intros (_ & row & Hr & Hd) Hl. unfold getDriveStates in Hl. destruct (sql_names_spec t) as (names & t1 & E & Hp & Ht1).
  unfold getTapeDriveNames in Hl. rewrite (bind_ok _ _ _ _ _ E) in Hl. apply (drives_named_has names t1 l t' (td_driveName d) row d Hl); [|by rewrite Ht1|done].
  rewrite Hp, elem_of_elements, elem_of_dom. eauto.
Qed.
End drives.

(** The mount of a drive at work. *)
Lemma existing_mounts_has drives ems d :
  existing_mounts drives = Ok ems → d ∈ drives → td_driveStatus d ∈ activeDriveStatuses →
  ∃ em, em ∈ ems ∧ em_driveName em = td_driveName d ∧ em_vid em = text (currentVid (td_current d)).
Proof.
  revert ems. induction drives as [|x drives IH]; intros ems He Hd Ha; [by apply not_elem_of_nil in Hd|]. simpl in He.
  destruct (current_mount x) as [current|] eqn:Ec; [|done]. cbn in He. destruct (existing_mounts drives) as [rest|] eqn:Er; [|done].
  cbn in He. injection He as <-. apply elem_of_cons in Hd as [<-|Hd].
  - unfold current_mount in Ec. rewrite decide_True in Ec by done. destruct (read_bandwidth _) as [b|]; [|done]. cbn in Ec. injection Ec as <-.
    eexists. split; [left|done].
  - destruct (IH rest) as (em & Hem & H); [done..|]. exists em. split; [|done]. apply elem_of_app; right. apply elem_of_app; by right.
Qed.

(** ** Decisions after a mount *)
Section mounted.
Context {B St T : Type} `{!Serializable B (ObjectHeader B), !Backend B St, !DriveTable T, !DriveTableLaws T}.
Context `{!Serializable B RootEntry, !Serializable B ArchiveQueue, !Serializable B RetrieveQueue, !Serializable B Agent, !Serializable B RetrieveQueueShard}.
Context `{!Serializable B RetrieveRequest, !Serializable bytes ChecksumPb, !Serializable B SchedulerGlobalLock}.
Context `{!Serializable B DriveRegister, !Serializable B AgentRegister, !Serializable B RepackIndex, !Serializable B RepackQueue}.
Context (dummy : B) (cat : Catalogue) (now : Z).
Implicit Types s : DBState B St T.

(** Calls that keep the table of the drives. *)
Definition keeps_table {A} (m : M (DBState B St T) A) : Prop := ∀ s, db_table (snd (m s)) = db_table s.
Lemma keeps_ok {A} (m : M (DBState B St T) A) s a s' : keeps_table m → m s = (Ok a, s') → db_table s' = db_table s.
Proof. intros Hm E. specialize (Hm s). by rewrite E in Hm. Qed.
Lemma on_store_keeps {A} (m : M St A) : keeps_table (on_store (B := B) (T := T) m).
Proof. intros s. unfold on_store. by destruct (m (db_be s)). Qed.
Lemma lift_keeps {A} (r : result A) : keeps_table (lift r).
Proof. done. Qed.
Lemma set_lock_keeps l : keeps_table (set_lock l).
Proof. done. Qed.
Lemma bind_keeps {A C} (m : M (DBState B St T) A) (f : A → M (DBState B St T) C) : keeps_table m → (∀ a, keeps_table (f a)) → keeps_table (m ≫= f).
Proof.
  intros Hm Hf s. unfold mbind, M_bind. specialize (Hm s). destruct (m s) as [[a|e] s1]; [|done]. simpl in Hm. by rewrite (Hf a s1).
Qed.

(** A decision has the mounts of the drives that the table holds. *)
Lemma fetch_sees root purpose s info s' d :
  fetchMountInfo dummy cat now root purpose s = (Ok info, s') → holds (db_table s) d → td_driveStatus d ∈ activeDriveStatuses →
  ∃ em, em ∈ existingOrNextMounts info ∧ em_driveName em = td_driveName d ∧ em_vid em = text (currentVid (td_current d)).
Proof.
  intros Hf Hd Ha. unfold fetchMountInfo in Hf.
  apply bind_inv_ok in Hf as (x1 & s1 & H1 & Hf). apply bind_inv_ok in Hf as (x2 & s2 & H2 & Hf). apply bind_inv_ok in Hf as (x3 & s3 & H3 & Hf).
  apply bind_inv_ok in Hf as (x4 & s4 & H4 & Hf). apply bind_inv_ok in Hf as (x5 & s5 & H5 & Hf). apply bind_inv_ok in Hf as (x6 & s6 & H6 & Hf).
  apply bind_inv_ok in Hf as (x7 & s7 & H7 & Hf). apply bind_inv_ok in Hf as (drives & s8 & H8 & Hf). apply bind_inv_ok in Hf as (ems & s9 & H9 & Hf).
  injection Hf as <- <-. apply (keeps_ok _ _ _ _ (lift_keeps _)) in H1.
  apply (keeps_ok _ _ _ _ (on_store_keeps _)) in H2, H3, H4, H5, H6, H7.
  unfold on_table in H8. destruct (getDriveStates (db_table s7)) as [r t'] eqn:Eg. injection H8 as -> _. injection H9 as H9 _.
  apply (existing_mounts_has drives); [done| |done]. apply (getDriveStates_has (db_table s7) drives t'); [|done].
  by rewrite H7, H6, H5, H4, H3, H2, H1.
Qed.
Lemma decision_sees s info s' d :
  (getMountInfo dummy cat now s = (Ok info, s') ∨ ∃ purpose, getMountInfoNoLock dummy cat now purpose s = (Ok info, s')) →
  holds (db_table s) d → td_driveStatus d ∈ activeDriveStatuses →
  ∃ em, em ∈ existingOrNextMounts info ∧ em_driveName em = td_driveName d ∧ em_vid em = text (currentVid (td_current d)).
Proof.
  intros [Hi|(purpose & Hi)] Hd Ha.
  - unfold getMountInfo in Hi. apply bind_inv_ok in Hi as (x1 & s1 & H1 & Hi). apply bind_inv_ok in Hi as (x2 & s2 & H2 & Hi).
    apply bind_inv_ok in Hi as (x3 & s3 & H3 & Hi). apply bind_inv_ok in Hi as (x4 & s4 & H4 & Hi).
    apply (keeps_ok _ _ _ _ (on_store_keeps _)) in H1, H2, H3. apply (keeps_ok _ _ _ _ (set_lock_keeps _)) in H4.
    apply (fetch_sees _ _ _ _ _ d Hi); [by rewrite H4, H3, H2, H1|done].
  - unfold getMountInfoNoLock in Hi. apply bind_inv_ok in Hi as (x1 & s1 & H1 & Hi). apply (keeps_ok _ _ _ _ (on_store_keeps _)) in H1.
    apply (fetch_sees _ _ _ _ _ d Hi); [by rewrite H1|done].
Qed.

(** ** A mount starts its drive *)
Lemma starting_update (t : T) info i d :
  holds t d → of_drive info d → in_status i = Starting → td_driveStatus d ≠ Starting →
  ∃ t' d', updateDriveStatus info i t = (Ok tt, t') ∧ holds t' d' ∧ td_driveName d' = td_driveName d ∧ td_driveStatus d' = Starting ∧
    currentVid (td_current d') = stored_string (Some (in_vid i)).
Proof.
  intros Hd Hinfo Hi Hst. destruct (update_present t info i d Hd Hinfo) as (d' & r & t' & Hc & Hr & Hu & Ht' & Hn); [congruence|].
  destruct (clear_reservation_keeps d') as (H1 & H2 & _). exists t', (stored_drive (clear_reservation d')).
  split_and!; [done|by apply (holds_stored t' (clear_reservation d') r); rewrite ?Hn, ?Ht', ?lookup_insert_eq|done| |].
  - simpl. by rewrite H1, (proj1 (change_status_next _ _ _ Hc)), Hi.
  - simpl. rewrite H2. unfold change_status in Hc. rewrite Hi in Hc. injection Hc as <-. unfold setDriveStarting. rewrite decide_False by done.
    simpl. unfold starting_tape. by destruct (in_activityAndWeigh i) as [[??]|].
Qed.
Lemma next_mount_id_keeps : keeps_table (next_mount_id (B := B) (St := St) (T := T) dummy).
Proof.
  unfold next_mount_id. apply bind_keeps; [done|]. intros [sgl|]; [|done].
  repeat (apply bind_keeps; [first [apply on_store_keeps|apply lift_keeps|apply set_lock_keeps]|intros ?]). done.
Qed.
Lemma start_drive_effect s info type id now' vid pool vo activity d u s' :
  start_drive info type id now' vid pool vo activity s = (Ok u, s') → holds (db_table s) d → of_drive info d → td_driveStatus d ≠ Starting →
  ∃ d', holds (db_table s') d' ∧ td_driveName d' = td_driveName d ∧ td_driveStatus d' = Starting ∧ currentVid (td_current d') = stored_string (Some vid).
Proof.
  intros Hs Hd Hinfo Hst. set (i := mkStatusInputs Starting type now' id 0 0 double_zero vid pool vo activity None).
  destruct (starting_update (db_table s) info i d Hd Hinfo eq_refl Hst) as (t' & d' & Hu & Hd' & H). exists d'. split; [|done].
  unfold start_drive in Hs. apply bind_inv_ok in Hs as (x & s1 & H1 & Hs). injection Hs as _ <-. unfold on_table in H1.
  change (updateDriveStatus info i (db_table s) = (Ok tt, t')) in Hu. unfold i in Hu. rewrite Hu in H1. by injection H1 as _ <-.
Qed.

(** A mount of a tape was created for a drive. *)
Definition mounted (s : DBState B St T) (drive host library vid : string) (s' : DBState B St T) : Prop :=
  (∃ r a, createArchiveMount dummy r s = (Ok a, s') ∧ amr_driveName r = drive ∧ amr_hostName r = host ∧ amr_logicalLibrary r = library ∧ tw_vid (amr_tape r) = vid) ∨
  (∃ r a, createRetrieveMount dummy r s = (Ok a, s') ∧ rmr_driveName r = drive ∧ rmr_hostName r = host ∧ rmr_logicalLibrary r = library ∧ rmr_vid r = vid).
Lemma mounted_starts s drive host library vid s' d :
  mounted s drive host library vid s' → holds (db_table s) d → of_drive (mkDriveInfo drive host library) d → td_driveStatus d ≠ Starting →
  ∃ d', holds (db_table s') d' ∧ td_driveName d' = td_driveName d ∧ td_driveStatus d' = Starting ∧ currentVid (td_current d') = stored_string (Some vid).
Proof.
  intros [(r & a & Hc & <- & <- & <- & <-)|(r & a & Hc & <- & <- & <- & <-)] Hd Hinfo Hst.
  - unfold createArchiveMount in Hc. apply bind_inv_ok in Hc as (qt & s1 & H1 & Hc). apply bind_inv_ok in Hc as (id & s2 & H2 & Hc).
    apply bind_inv_ok in Hc as (u & s3 & H3 & Hc). injection Hc as _ <-.
    assert (E1 : s1 = s) by (destruct (amr_type r); by inversion H1). subst s1. apply (keeps_ok _ _ _ _ next_mount_id_keeps) in H2.
    apply (start_drive_effect _ _ _ _ _ _ _ _ _ d _ _ H3); [by rewrite H2|done|done].
  - unfold createRetrieveMount in Hc. apply bind_inv_ok in Hc as (id & s2 & H2 & Hc). apply bind_inv_ok in Hc as (u & s3 & H3 & Hc). injection Hc as _ <-.
    apply (keeps_ok _ _ _ _ next_mount_id_keeps) in H2. apply (start_drive_effect _ _ _ _ _ _ _ _ _ d _ _ H3); [by rewrite H2|done|done].
Qed.
(** The tape of a choice. *)
Definition chosen_tape (c : Choice) : string := match c with OnTape _ t => tw_vid t | OnVid m => pm_vid m end.

(** C28: A tape is not mounted twice.  After a mount of a tape was created for a drive that the
    catalogue knows and that was not starting already, no decision gives another drive a
    choice with this tape. *)
Theorem mounted_tape_is_taken s drive host library vid s' d info s'' :
  mounted s drive host library vid s' → holds (db_table s) d → of_drive (mkDriveInfo drive host library) d → td_driveStatus d ≠ Starting →
  vid ≠ "" → vid ≠ "NULL" →
  (getMountInfo dummy cat now s' = (Ok info, s'') ∨ ∃ purpose, getMountInfoNoLock dummy cat now purpose s' = (Ok info, s'')) →
  ∀ minFiles minBytes library' other filled tapes c, other ≠ drive →
    possible cat now minFiles minBytes library' other info filled tapes c → chosen_tape c ≠ vid.
Proof.
  intros Hm Hd Hinfo Hst H1 H2 Hi. destruct (mounted_starts s drive host library vid s' d Hm Hd Hinfo Hst) as (d' & Hd' & Hn & Hs' & Hv).
  destruct (decision_sees s' info s'' d' Hi Hd') as (em & Hem & Hen & Hev); [rewrite Hs'; by left|].
  simpl in Hv. rewrite decide_False in Hv by naive_solver. rewrite Hv in Hev. simpl in Hev.
  intros minFiles minBytes library' other filled tapes c Ho Hp. assert (Hu : vid ∈ used_tapes other info).
  { unfold used_tapes, others. apply elem_of_list_to_set, list_elem_of_filter. split; [done|]. apply list_elem_of_fmap. exists em. split; [done|].
    apply list_elem_of_filter. split; [|done]. rewrite Hen, Hn, <-(proj1 Hinfo). simpl. congruence. }
  destruct Hp as [_ Hp]. destruct c as [m t|m]; simpl; intros E; rewrite E in Hp; tauto.
Qed.
End mounted.
