(* ===== verification/SchedulingExamples.v ===== *)
(** * Examples of scheduling

    A catalogue with two virtual organisations and a database with two drives, on which
    the theorems on the next mount apply; a table of drives, and a run of the scheduler
    on the object store. *)
From Stdlib Require String.
From Stdlib Require Import Floats.SpecFloat.
From stdpp Require Import sorting.
From S2P Require Import Prelude DataTypes Checksum ValueCountMap Backend ObjectOps Handles ProtoAlgorithms ArchiveFile ArchiveQueueShard ArchiveQueue ArchiveRequest RetrieveActivity RetrieveQueueShard RetrievePlan RetrieveQueue RetrieveRequest Agent Registers RootEntry RootEntryExamples AgentLife AgentLifeExamples RepackRequest QueueTraits QueueTraitsExamples RetrieveCache GarbageCollectorExamples Mounts MountsSpec Scheduling SchedulingSpec DriveStates DriveStatesSpec MountInfo.

(** ** A sorting function *)
Fixpoint insert_mount (m : PotentialMount) (l : list PotentialMount) : list PotentialMount :=
  match l with [] => [m] | x :: l' => if pm_less x m then x :: insert_mount m l' else m :: l end.
Fixpoint insertion_sort (l : list PotentialMount) : list PotentialMount :=
  match l with [] => [] | m :: l' => insert_mount m (insertion_sort l') end.

Lemma insert_mount_perm m l : insert_mount m l ≡ₚ m :: l.
Proof. induction l as [|x l IH]; [done|]. simpl. case_match; [|done]. rewrite IH. constructor. Qed.
Lemma insertion_sort_perm l : insertion_sort l ≡ₚ l.
Proof. induction l as [|m l IH]; [done|]. simpl. by rewrite insert_mount_perm, IH. Qed.
Lemma not_less_trans l a b c : weakly_ordered l → a ∈ l → b ∈ l → c ∈ l → pm_less b a = false → pm_less c b = false → pm_less c a = false.
Proof.
  intros Hw Ha Hb Hc H1 H2. destruct (pm_less c a) eqn:E; [exfalso|done].
  destruct (pm_less a b) eqn:E1; [destruct (Hw c a b Hc Ha Hb) as [Ht _]; by rewrite Ht in H2|].
  destruct (pm_less b c) eqn:E2; [destruct (Hw b c a Hb Hc Ha) as [Ht _]; by rewrite Ht in H1|].
  destruct (Hw c b a Hc Hb Ha) as [_ Ht]. unfold equivalent in Ht. destruct Ht as [Ht _]; [done|done|]. congruence.
Qed.
Lemma insert_mount_sorted l m k : weakly_ordered l → m ∈ l → (∀ x, x ∈ k → x ∈ l) →
  StronglySorted (λ a b, pm_less b a = false) k → StronglySorted (λ a b, pm_less b a = false) (insert_mount m k).
Proof.
  intros Hw Hm Hk Hs. revert Hk. induction Hs as [|x k Hs IH Hx]; intros Hk; [repeat constructor|]. simpl.
  rewrite Forall_forall in Hx. destruct (pm_less x m) eqn:E.
  - constructor; [apply IH; intros; apply Hk; by right|]. apply Forall_forall. intros y. rewrite insert_mount_perm, elem_of_cons.
    intros [->|Hy]; [by apply less_asym|by apply Hx].
  - constructor; [constructor; [done|by apply Forall_forall]|]. apply Forall_forall. intros y [->|Hy]%elem_of_cons; [done|].
    apply (not_less_trans l m x y); try done; [apply Hk; by left|apply Hk; by right|by apply Hx].
Qed.
Lemma insertion_sort_sorts : sorts insertion_sort.
Proof.
  intros l Hw. split; [apply insertion_sort_perm|].
  assert (Hsub : ∀ k, (∀ x, x ∈ k → x ∈ l) → StronglySorted (λ a b, pm_less b a = false) (insertion_sort k)).
  { induction k as [|m k IH]; intros Hk; [constructor|]. simpl. apply (insert_mount_sorted l); [done|apply Hk; by left| |apply IH; intros; apply Hk; by right].
    intros x. rewrite insertion_sort_perm. intros; apply Hk; by right. }
  by apply Hsub.
Qed.

(** ** A site *)
Definition ex_vo (pool : string) : result VirtualOrganization :=
  if decide (pool = "pool1") then Ok (mkVO "vo1" 1 1) else if decide (pool = "pool2") then Ok (mkVO "vo2" 2 2) else Throw (Exception "unknown pool").
Definition ex_tape : TapeInfo := mkTapeInfo "lib1" "pool2" "vendor" "LTO8" "vo2" 1000 ACTIVE.
Definition ex_writable : list TapeForWriting := [mkTapeForWriting "V10" "LTO8" "vendor" "pool2" "vo2" 0 1000 0; mkTapeForWriting "V11" "LTO8" "vendor" "pool2" "vo2" 0 1000 0].
Definition ex_policy (name : string) (priority : Z) : MountPolicy := mkMountPolicy name priority 100 priority 100 (mkEntryLog "" "" 0) (mkEntryLog "" "" 0) "".
Definition ex_policies : list MountPolicy := [ex_policy "low" 1; ex_policy "other" 5; ex_policy "high" 9].
Definition ex_cat : Catalogue := mkCatalogue
  (λ vids, Ok (gset_to_gmap ex_tape vids)) ex_vo (λ _, Ok ex_writable) (Ok [mkLibrary "lib1" false; mkLibrary "lib2" true]) (Ok ex_policies).
Definition ex_mount (type : MountType) (vid pool : string) (priority : Z) : PotentialMount :=
  mkPotential type vid pool "" "" "" 0 priority 100 10 1000 5 "" double_zero false 0 "" 0 None.
(** Drive "d2" writes for the first organisation, which may not write more. *)
Definition ex_info : TapeMountDecisionInfo := mkDecision
  [ex_mount ArchiveForUser "" "pool1" 9; ex_mount Retrieve "V01" "" 3; ex_mount ArchiveForUser "" "pool2" 5]
  [mkExisting "d2" ArchiveForUser "pool1" "vo1" "V10" true 0 0 0 None] false.

(** A database that refuses some tapes and keeps the tapes it mounted. *)
#[local] Instance ex_db : SchedulerDatabase (list string) string string := {|
  db_getMountInfo := mret ex_info;
  db_getMountInfoNoLock _ := mret ex_info;
  db_trimEmptyQueues := mret tt;
  db_createArchiveMount r := if decide (tw_vid (amr_tape r) = "V11") then throw NoSuchObject
                             else _ ← modify (cons (tw_vid (amr_tape r))); mret (tw_vid (amr_tape r));
  db_createRetrieveMount r := _ ← modify (cons (rmr_vid r)); mret (rmr_vid r);
  db_getDriveStates := mret [mkDriveEntry "d1" "lib1"; mkDriveEntry "d3" "lib1"]
|}.
Definition ex_next : M (list string) (option (TapeMount string string)) := getNextMount ex_cat insertion_sort 1000 50 500 "host" "lib1" "d1".
Definition ex_filled : list PotentialMount := match fill_tapes ex_cat (potentialMounts ex_info) with Ok l => l | Throw _ => [] end.

(** The archive for the organisation within its quota goes first, its free tape is
    refused, and the retrieve is mounted. *)
Example ex_next_mount : ex_next [] = (Ok (Some (ForRetrieve (mkRetrieveMount "V01" true true true))), ["V01"]).
Proof. by vm_compute. Qed.
Example ex_disabled : getNextMount ex_cat insertion_sort 1000 50 500 "host" "lib2" "d1" [] = (Ok (@None (TapeMount string string)), []).
Proof. by vm_compute. Qed.

(** ** The theorems at this site *)
Lemma ex_answers : answers ex_cat "lib1" ex_info ex_filled ex_writable.
Proof.
  split; [by vm_compute| |done].
  assert (Hp : tapepools (in_library "lib1" ex_filled) (existingOrNextMounts ex_info) = {["pool1"; "pool2"]}) by by vm_compute.
  intros p. rewrite Hp, elem_of_union, !elem_of_singleton. intros [->| ->]; by eexists.
Qed.
Lemma ex_ordered : weakly_ordered (candidates ex_cat 1000 50 500 "lib1" "d1" ex_info ex_filled).
Proof. apply weakly_ordered_Forall. apply (bool_decide_unpack _). by vm_compute. Qed.
Lemma ex_prepared : prepared ex_cat insertion_sort 1000 50 500 "lib1" "d1" [] [] ex_info ex_filled ex_writable.
Proof. split; [apply insertion_sort_sorts|by vm_compute|by exists []|apply ex_answers|done|apply ex_ordered]. Qed.

(** The choices there are at this site. *)
Definition ex_choice : Choice := OnVid (weighed "d1" ex_info (set_tape ex_tape (ex_mount Retrieve "V01" "" 3))).
Lemma ex_possible : possible ex_cat 1000 50 500 "lib1" "d1" ex_info ex_filled ex_writable ex_choice.
Proof. split; [vm_compute; left|split; [done|]]. apply (bool_decide_unpack _). by vm_compute. Qed.

Lemma next_mount_best_witness :
  ∃ tried s1 r s2, ex_next [] = (Ok r, s2) ∧ refused "host" "lib1" "d1" 1000 tried [] s1 ∧
    Forall (possible ex_cat 1000 50 500 "lib1" "d1" ex_info ex_filled ex_writable) tried ∧ StronglySorted not_better tried ∧
    match r with
    | None => s2 = s1 ∧ ∀ c, possible ex_cat 1000 50 500 "lib1" "d1" ex_info ex_filled ex_writable c → c ∈ tried
    | Some x => ∃ c, possible ex_cat 1000 50 500 "lib1" "d1" ex_info ex_filled ex_writable c ∧ create "host" "lib1" "d1" 1000 c s1 = (Ok x, s2) ∧
        ∀ d, possible ex_cat 1000 50 500 "lib1" "d1" ex_info ex_filled ex_writable d → pm_less (mount_of c) (mount_of d) = true → d ∈ tried
    end.
Proof. apply (next_mount_best ex_cat insertion_sort 1000 50 500 "host" "lib1" "d1" [] []). apply ex_prepared. Defined.
Lemma dry_run_exact_witness :
  ∃ b, getNextMountDryRun ex_cat insertion_sort 1000 50 500 "lib1" "d1" [] = (Ok b, []) ∧
    (b = true ↔ ∃ c, possible ex_cat 1000 50 500 "lib1" "d1" ex_info ex_filled ex_writable c).
Proof.
  apply (dry_run_exact ex_cat insertion_sort 1000 50 500 "lib1" "d1" [] [] ex_info ex_filled ex_writable);
    [apply insertion_sort_sorts|by vm_compute|done|apply ex_answers|done|apply ex_ordered].
Defined.
Lemma choice_is_allowed_witness :
  ∃ tried s1 c, refused "host" "lib1" "d1" 1000 tried [] s1 ∧
    Forall (allowed ex_cat 1000 50 500 "lib1" "d1" ex_info ex_writable) tried ∧
    allowed ex_cat 1000 50 500 "lib1" "d1" ex_info ex_writable c ∧
    create "host" "lib1" "d1" 1000 c s1 = (Ok (ForRetrieve (mkRetrieveMount "V01" true true true)), ["V01"]).
Proof.
  destruct (choice_is_allowed ex_cat insertion_sort 1000 50 500 "host" "lib1" "d1" [] [] ex_info ex_filled ex_writable
    (Ok (Some (ForRetrieve (mkRetrieveMount "V01" true true true)))) ["V01"] ex_prepared) as (tried & s1 & Hr & Hall & c & Hc & E).
  - by vm_compute.
  - exists tried, s1, c. split; [exact Hr|]. split; [exact Hall|]. split; [exact Hc|exact E].
Defined.
Lemma first_policy_wins_witness :
  createBestArchiveMountPolicy (getMountPoliciesInQueue ex_policies {["low" := 1; "high" := 3]}) = Ok (ex_policy "low" 1) ∧
  createBestRetrieveMountPolicy (getMountPoliciesInQueue ex_policies {["low" := 1; "high" := 3]}) = Ok (ex_policy "low" 1).
Proof. apply (first_policy_wins ex_policies {["low" := 1; "high" := 3]} _ [ex_policy "high" 9]). by vm_compute. Defined.

(** ** The report of all the libraries

    The counts go on from drive to drive: for the second drive of the library the mount
    of drive "d2" counts twice, so an organisation below its quota of two drives has
    no candidate any more. *)
Definition ex_shared_info : TapeMountDecisionInfo :=
  mkDecision [ex_mount ArchiveForUser "" "pool2" 5] [mkExisting "d2" ArchiveForUser "pool2" "vo2" "V10" true 0 0 0 None] false.
Example ex_report_counts_twice :
  (λ x : TapeMountDecisionInfo * Gathered, length (potentialMounts (fst x))) <$> sortAndGetTapesForMountInfo ex_cat insertion_sort 1000 1 1 ex_shared_info "lib1" "d3" nothing_gathered = Ok 1%nat ∧
  (x ← sortAndGetTapesForMountInfo ex_cat insertion_sort 1000 1 1 ex_shared_info "lib1" "d1" nothing_gathered;
   y ← sortAndGetTapesForMountInfo ex_cat insertion_sort 1000 1 1 (fst x) "lib1" "d3" (snd x);
   Ok (length (potentialMounts (fst y)))) = Ok 0%nat.
Proof. by vm_compute. Qed.

Import Blob.
#[local] Existing Instance demo_codec.

(** ** A table *)
Abbreviation table := (gmap string DriveRow).
#[export] Instance table_ops : DriveTable table := {|
  sql_insert r := λ m, match m !! td_driveName r with Some _ => (Throw (Exception "UNIQUE constraint failed"), m) | None => (Ok tt, <[td_driveName r := r]> m) end;
  sql_delete n := λ m, (Ok tt, delete n m);
  sql_names := λ m, (Ok (elements (dom m)), m);
  sql_select n := λ m, (Ok (m !! n), m);
  sql_update r := λ m, match m !! td_driveName r with Some _ => (Ok 1, <[td_driveName r := r]> m) | None => (Ok 0, m) end
|}.
#[export] Program Instance table_laws : DriveTableLaws table := {| rows := id |}.
Next Obligation. intros s r H. simpl in *. unfold id in *. rewrite H. by eexists. Qed.
Next Obligation. intros s r [x H]. simpl in *. unfold id in *. rewrite H. by do 2 eexists. Qed.
Next Obligation. intros s n. by eexists. Qed.
Next Obligation. intros s. by do 2 eexists. Qed.
Next Obligation. intros s n. by eexists. Qed.
Next Obligation.
  intros s r. simpl. unfold id. destruct (s !! td_driveName r) as [x|] eqn:E.
  - eexists. split; [done|]. done.
  - eexists. split; [done|]. done.
Qed.

(** ** A drive *)
Definition ex_drive_info (name : string) : DriveInfo := mkDriveInfo name "host" "lib1".
Definition ex_create (name : string) : M table unit :=
  createTapeDriveStatus (ex_drive_info name) (mkDesiredState false false None None) NoMount Down "/dev/nst0" "smc0" "user" "host" 10.
Definition ex_report (name : string) (status : DriveStatus) (vid : string) : ReportDriveStatusInputs :=
  mkStatusInputs status Retrieve 20 7 0 0 double_zero vid "pool2" "vo2" None (Some "reason").
Definition ex_table : table := snd ((_ ← ex_create "d1"; ex_create "d2") ∅).
Definition ex_read (name : string) (t : table) : TapeDrive :=
  match fst (getTapeDrive name t) with Ok (Some d) => d | _ => setTapeDriveStatus (ex_drive_info name) (mkDesiredState false false None None) NoMount Down "" "" "" "" 0 end.

(** A drive that is desired down and reported up is up; one that is shut down cleans up. *)
Example ex_up_although_down :
  let t := snd (updateDriveStatus (ex_drive_info "d1") (ex_report "d1" Up "") ex_table) in
  td_driveStatus (ex_read "d1" t) = Up ∧ desiredUp (td_desired (ex_read "d1" t)) = false.
Proof. by vm_compute. Qed.
(** Another library and another host do not prevent the creation. *)
Example ex_can_be_created : fst (checkDriveCanBeCreated (mkDriveInfo "d1" "elsewhere" "lib2") ex_table) = Ok tt.
Proof. by vm_compute. Qed.
(** A comment is never absent once it was stored. *)
Example ex_comment : userComment (ex_read "d1" ex_table) = Some "NULL".
Proof. by vm_compute. Qed.
(** The weight of an activity is stored as the character of its integer part. *)
Example ex_weight :
  let i := mkStatusInputs Starting Retrieve 20 7 0 0 double_zero "V01" "pool2" "vo2" (Some ("act", double_of_Z 65)) None in
  currentActivityWeight (td_current (ex_read "d1" (snd (updateDriveStatus (ex_drive_info "d1") i ex_table)))) = Some "A".
Proof. by vm_compute. Qed.
Example ex_bandwidth : double_to_string (double_div (double_of_Z 1000) (double_of_Z 3)) = "333.333333" ∧ double_to_string (double_of_Z (2 ^ 40)) = "1099511627776.000000".
Proof. by vm_compute. Qed.

(** ** Witnesses for the drives *)
Definition ex_d1 : TapeDrive := ex_read "d1" ex_table.
Definition ex_row1 : DriveRow := match ex_table !! "d1" with Some r => r | None => row_of "" ex_d1 end.
Lemma ex_d1_held : holds ex_table ex_d1.
Proof. split; [by vm_compute|]. exists ex_row1. split; by vm_compute. Qed.
Lemma ex_d1_info : of_drive (ex_drive_info "d1") ex_d1.
Proof. by vm_compute. Qed.
Lemma drive_roundtrip_witness :
  ∃ s' s'', modifyTapeDrive ex_d1 ex_table = (Ok tt, s') ∧ getTapeDrive "d1" s' = (Ok (Some (stored_drive ex_d1)), s'') ∧
    rows s'' = rows s' ∧ (∀ n, n ≠ "d1" → rows s' !! n = rows ex_table !! n).
Proof. apply (drive_roundtrip ex_table ex_d1); [apply ex_d1_held|]. exists ex_row1. by vm_compute. Defined.
Lemma reported_status_witness :
  ∃ (s' : table) d', updateDriveStatus (ex_drive_info "d1") (ex_report "d1" Shutdown "V01") ex_table = (Ok tt, s') ∧ holds s' d' ∧ td_driveName d' = td_driveName ex_d1 ∧
    td_driveStatus d' = next_status Shutdown (td_driveStatus ex_d1) ∧
    (¬ idle Shutdown → td_driveStatus d' ≠ td_driveStatus ex_d1 →
       td_mountType d' = Retrieve ∧ currentVid (td_current d') = stored_string (Some "V01") ∧
       currentTapePool (td_current d') = stored_string (Some "pool2") ∧ currentVo (td_current d') = stored_string (Some "vo2")) ∧
    (∀ n, n ≠ td_driveName ex_d1 → rows s' !! n = rows ex_table !! n).
Proof. apply (reported_status ex_table (ex_drive_info "d1") (ex_report "d1" Shutdown "V01") ex_d1); [apply ex_d1_held|apply ex_d1_info|done]. Defined.
Lemma first_statistics_fail_witness :
  ∃ s1 s2 : table, updateDriveStatus (ex_drive_info "d1") (ex_report "d1" Transferring "V01") ex_table = (Ok tt, s1) ∧
    updateDriveStatistics (ex_drive_info "d1") (mkStatsInputs 30 1000 1) s1 = (Throw (Exception "std::logic_error"), s2) ∧ rows s2 = rows s1.
Proof. apply (first_statistics_fail ex_table _ _ _ ex_d1); [apply ex_d1_held|apply ex_d1_info|done|done]. Defined.
Definition ex_ops : table := snd (run_op (OpCreate (ex_drive_info "d1") (mkDesiredState false false None None) NoMount Down "/dev/nst0" "smc0" "user" "host" 10) ∅).
Definition ex_row : DriveRow := match ex_ops !! "d1" with Some r => r | None => row_of "" ex_d1 end.
Lemma idle_drives_have_no_tape_witness :
  ∃ d, drive_of_row ex_row = Ok d ∧ td_driveName d = "d1" ∧ td_driveStatus d ≠ Shutdown ∧
    (idle (td_driveStatus d) → currentVid (td_current d) = None ∧ currentTapePool (td_current d) = None).
Proof.
  apply (idle_drives_have_no_tape ex_ops); [|by vm_compute]. unfold ex_ops. apply reachable_step; [by apply reachable_empty|done].
Defined.

(** ** The scheduler on the object store

    Twelve files wait for a tape of "pool2", and twenty on tape "V01". *)
Definition ex_m_root : RootEntry :=
  mkRoot (mkQPs [mkQP "aq" "pool2"] [] [] [] [] []) (mkQPs [mkQP "rq" "V01"] [] [] [] [] []) (ex_pointer "drives") (ex_pointer "agents") None None None (Some "")
    (ex_pointer "lock").
Definition ex_m_archive : ArchiveQueue := mkArchiveQueue "pool2" [] [mkVC 5 12] [mkVC 100 12] [mkVC "low" 12] 12000 12 5 0.
Definition ex_m_retrieve : RetrieveQueue := mkRetrieveQueue "V01" [] [mkVC 3 20] [mkVC 100 20] [mkVC "other" 20] [] 20000 20 5 0 25000 None None None.
Definition ex_m_store : VFS.vfs cb :=
  VFS.mkVfs (list_to_map [("root", ex_gc_object "root" RootEntry_t (CShared (QRoot ex_m_root)));
     ("drives", ex_gc_object "root" DriveRegister_t (CDrives (mkDriveRegister [])));
     ("lock", ex_gc_object "root" SchedulerGlobalLock_t (CLock (mkSGL 7)));
     ("aq", ex_gc_object "root" ArchiveQueue_t (CShared (QArchiveQueue ex_m_archive)));
     ("rq", ex_gc_object "root" RetrieveQueue_t (CRetrieveQueue ex_m_retrieve))])
    {["root"; "drives"; "lock"; "aq"; "rq"]}.
Definition ex_m_db : DBState cb (VFS.vfs cb) table := mkDB ex_m_store ex_table None.
#[local] Existing Instance ostoredb.
Definition ex_m_next (drive : string) : M (DBState cb (VFS.vfs cb) table) (option (TapeMount ArchiveMountInfo RetrieveMountInfo)) :=
  @getNextMount ex_cat insertion_sort 1000 50 500 _ _ _ (ostoredb c_dummy ex_cat 1000) "host" "lib1" drive.

(** The policy of the retrieves has the higher priority, so drive "d1" reads and drive
    "d2" writes, each with its own tape and session number. *)
Example ex_two_mounts :
  let '(r1, s1) := ex_m_next "d1" ex_m_db in
  let '(r2, s2) := ex_m_next "d2" s1 in
  (match r1 with Ok (Some (ForRetrieve m)) => (rmi_vid (r_dbMount _ m), rmi_mountId (r_dbMount _ m)) | _ => ("", 0) end) = ("V01", 7) ∧
  (match r2 with Ok (Some (ForArchive m)) => (ami_vid (a_dbMount _ m), ami_mountId (a_dbMount _ m)) | _ => ("", 0) end) = ("V10", 8) ∧
  currentVid (td_current (ex_read "d1" (db_table s2))) = Some "V01" ∧ currentVid (td_current (ex_read "d2" (db_table s2))) = Some "V10" ∧
  db_lock s2 = None.
Proof. by vm_compute. Qed.

(** ** A witness for the mounts *)
Definition ex_m_locked : DBState cb (VFS.vfs cb) table := snd (getMountInfo c_dummy ex_cat 1000 ex_m_db).
Definition ex_m_request : RetrieveMountRequest := mkRetrieveMountRequest "V01" "pool2" "d1" "lib1" "host" "vo2" "LTO8" "vendor" 1000 1000 None.
Definition ex_m_created : result RetrieveMountInfo * DBState cb (VFS.vfs cb) table := createRetrieveMount c_dummy ex_m_request ex_m_locked.
Definition ex_m_info : TapeMountDecisionInfo :=
  match fst (getMountInfo c_dummy ex_cat 1000 (snd ex_m_created)) with Ok i => i | Throw _ => mkDecision [] [] false end.
Definition ex_m_mount : RetrieveMountInfo := match fst ex_m_created with Ok a => a | Throw _ => mkRetrieveInfo "" "" "" "" "" "" "" "" 0 0 None end.
Lemma ex_m_mounted : mounted c_dummy ex_m_locked "d1" "host" "lib1" "V01" (snd ex_m_created).
Proof. right. exists ex_m_request, ex_m_mount. split_and!; [|done..]. by vm_compute. Qed.
(** Drive "d2" can write. *)
Definition ex_m_filled : list PotentialMount := match fill_tapes ex_cat (potentialMounts ex_m_info) with Ok l => l | Throw _ => [] end.
Definition ex_m_choice : Choice := Eval vm_compute in
  match candidates ex_cat 1000 50 500 "lib1" "d2" ex_m_info ex_m_filled, ex_writable with m :: _, t :: _ => OnTape m t | _, _ => ex_choice end.
Lemma ex_m_possible : possible ex_cat 1000 50 500 "lib1" "d2" ex_m_info ex_m_filled ex_writable ex_m_choice.
Proof. split; [vm_compute; left|]. unfold ex_m_choice. split; [done|]. split; [left|]. split; [done|]. apply (bool_decide_unpack _). by vm_compute. Qed.
Lemma mounted_tape_is_taken_witness : chosen_tape ex_m_choice ≠ "V01".
Proof.
  apply (mounted_tape_is_taken c_dummy ex_cat 1000 ex_m_locked "d1" "host" "lib1" "V01" (snd ex_m_created) ex_d1 ex_m_info
           (snd (getMountInfo c_dummy ex_cat 1000 (snd ex_m_created)))) with (minFiles := 50) (minBytes := 500) (library' := "lib1") (other := "d2")
    (filled := ex_m_filled) (tapes := ex_writable); [apply ex_m_mounted| |apply ex_d1_info|by vm_compute|done|done| |done|apply ex_m_possible].
  - assert (E : db_table ex_m_locked = ex_table) by by vm_compute. rewrite E. apply ex_d1_held.
  - left. by vm_compute.
Defined.

(** The watchdog of a session reports its statistics with [setTapeSessionStats]; after the
    mount is reported as transferring, this throws. *)
Example ex_first_report :
  fst ((_ ← retrieve_setDriveStatus ex_m_mount Transferring 1010 None; retrieve_setTapeSessionStats 1020 ex_m_mount 5000 3) (snd ex_m_created)) =
  Throw (Exception "std::logic_error").
Proof. by vm_compute. Qed.
(** At the end the drive is up and has no tape. *)
Example ex_completed :
  let '(r, s) := retrieve_complete ex_m_mount 1030 (snd ex_m_created) in
  r = Ok tt ∧ td_driveStatus (ex_read "d1" (db_table s)) = Up ∧ currentVid (td_current (ex_read "d1" (db_table s))) = None.
Proof. by vm_compute. Qed.
